(* ===== verification/_CoqProject ===== *)
-Q . S2P
Prelude.v
SlotTable.v
ObjectTable.v
Continuation.v
ExpiryWheel.v
ExpiryLists.v
ExpiryTime.v
ExpiryInv.v
ExpiryOps.v
ExpiryPoll.v
ExpiryTheorems.v
ExpiryWitness.v
PacketParse.v
ParseReads.v
ParseFast.v
ParseProps.v
ParseRoundtrip.v
ParseDemo.v
Checksum.v
ChecksumMath.v
ChecksumKernels.v
ChecksumSpec.v
ChecksumHeaders.v
ChecksumProps.v
ChecksumUpdate.v
ChecksumDemo.v
FlowIndex.v
FlowProbe.v
FlowFree.v
FlowOwner.v
FlowTable.v
FlowSlots.v
FlowInv.v
FlowFind.v
FlowChange.v
FlowOps.v
FlowErase.v
FlowVisit.v
FlowHistory.v
FlowTheorems.v
FlowDemo.v
FlowKey.v
ConnStores.v
ConnTypes.v
ConnKeys.v
Conntrack.v
ConnInv.v
ConnOps.v
ConnInstances.v
ConnHistory.v
ConnTcp.v
ConnTheorems.v
ConnDemo.v
ConnParse.v
Rcu.v
RcuTheorems.v
RcuSafety.v
Resource.v
SlotResource.v
SlotLaws.v
Engine.v
EngineRanks.v
EngineRegistry.v
EngineInv.v
EngineRegister.v
EngineKeys.v
EngineReserve.v
EngineDeltas.v
EngineLedger.v
EnginePublish.v
EngineCommit.v
EngineApply.v
EngineSound.v
EngineEnd.v
EngineTheorems.v
Instances.v
Witness.v
