(* ===== verification/Prelude.v ===== *)
(** * A verification development for the BESS dataplane core

    BESS is a modular software dataplane. Packet workers run modules over
    batches of packets; control threads change the tables the workers read, while
    they read them. This development models the parts of [src/core/] that this
    rests on, and proves what their comments promise.

    ** The program's parts and how they interact

    Control threads change shared tables through transactions. A table is a
    [Resource]; the transaction engine reserves every operation, checks that no
    reference is left dangling, publishes all of them and, after grace periods of
    the RCU domain, reclaims what was replaced. Slot tables are the resource
    modelled in full; object tables are immutable generations published whole.
    Continuation tables hand tokens for packets that are away to other threads.

    A worker parses a packet's headers ([packet_parse.h]), finds its flow in a
    table it owns, and lets idle flows time out through an expiry wheel.
    Connection tracking is made of these three. The Internet checksum is what
    packets are verified with and what rewritten headers are updated by.

    ** Files

    Each component has a file of definitions, translated from the source and
    executable, and files that prove its properties. State is a record that is
    passed explicitly, often named [t]; a member function is a definition of the
    same name. A function that can abort on a failed [CHECK], or reads an array
    unchecked, returns [run] (below).

    - [Prelude.v]: machine integers, outcomes, function bodies with early returns,
      sorting, arrays.
    - [SlotTable.v] ([dataplane/slot_table.h]), [ObjectTable.v]
      ([dataplane/object_table.h]), [Continuation.v] ([dataplane/continuation.h],
      [generation_handle.h], [strong_id.h]): the tables, each with its proofs. The
      operations of [Continuation.v] are also split into single memory accesses of
      an owner and of readers, as a step relation.
    - [ExpiryWheel.v] ([dataplane/expiry_wheel.h]); [ExpiryLists.v],
      [ExpiryTime.v], [ExpiryInv.v], [ExpiryOps.v], [ExpiryPoll.v],
      [ExpiryTheorems.v] and [ExpiryWitness.v].
    - [PacketParse.v] ([packet_parse.h]); [ParseReads.v], [ParseFast.v],
      [ParseProps.v], [ParseRoundtrip.v] and [ParseDemo.v].
    - [Checksum.v] ([utils/checksum.h], [arch/checksum_kernels.h]);
      [ChecksumMath.v], [ChecksumKernels.v], [ChecksumSpec.v],
      [ChecksumHeaders.v], [ChecksumProps.v], [ChecksumUpdate.v] and
      [ChecksumDemo.v].
    - [FlowIndex.v] ([flow/flow_index.h], [arch/tag_match.h]), [FlowFree.v]
      ([flow/flow_storage.h]), [FlowOwner.v] ([flow/owner.h]), [FlowTable.v]
      ([flow/worker_flow_table.h], [flow_types.h], [flow_observer.h]), [FlowKey.v]
      ([flow/flow_key.h]); [FlowProbe.v], [FlowSlots.v], [FlowInv.v],
      [FlowFind.v], [FlowChange.v], [FlowOps.v], [FlowErase.v], [FlowVisit.v],
      [FlowHistory.v], [FlowTheorems.v] and [FlowDemo.v].
    - [ConnTypes.v] and [Conntrack.v] ([conntrack/conntrack.h]). The tracker is
      written against the classes of [ConnStores.v]; [ConnInstances.v] shows that
      the flow table and the wheel keep their laws. [ConnKeys.v], [ConnInv.v],
      [ConnOps.v], [ConnHistory.v], [ConnTcp.v], [ConnTheorems.v], [ConnDemo.v]
      and [ConnParse.v], which joins the parse to the tracker.
    - [Rcu.v] ([rcu/rcu_domain.h], [rcu_domain.cc], [rcu_ptr.h]);
      [RcuTheorems.v] and [RcuSafety.v], the interleavings of readers, writers and
      reclaimers as a step relation.
    - [Resource.v] ([dataplane/resource.h]): the virtual members of a resource and
      what the engine relies on, as the classes [Resources] and [ResourceLaws].
      [SlotResource.v] ([dataplane/slot_resource.h]) and [SlotLaws.v] are their
      instance.
    - [Engine.v] ([dataplane/transaction_engine.h], [transaction_engine.cc]);
      [EngineRanks.v], [EngineRegistry.v], [EngineInv.v], [EngineRegister.v],
      [EngineKeys.v], [EngineReserve.v], [EngineDeltas.v], [EngineLedger.v],
      [EnginePublish.v], [EngineCommit.v], [EngineApply.v], [EngineSound.v],
      [EngineEnd.v] and [EngineTheorems.v].
    - [Instances.v] and [Witness.v]: a running system of slot resources, engine
      and RCU domain, on which the theorems' hypotheses hold.

    ** What the theorems show

    - Engine: a transaction applies entirely or changes nothing; no state that
      workers can see in between has a dangling reference; the reference ledger is
      exact in every reachable state; a stale generation is refused; batched
      application applies a prefix; every call returns; ranks are the lengths of
      the longest chains of references. Two theorems record where the code differs
      from its intent: removals of two transactions can leave a dangling
      reference, and unregistering keeps a reference cycle.
    - RCU: under every interleaving no reader holds a destroyed object and none is
      destroyed twice; reclamation takes exactly the ready prefix; retirement is
      bounded; a grace period completes once every reader has reported or is
      offline; [Publish] is its steps.
    - Tables: slot and object tables refine finite maps; published objects are
      freed once; a resolved continuation is one that was issued, however reads
      and writes interleave, and a retired handle stays dead.
    - Expiry wheel: no call fails; the calls implement a map from handles to
      timers; a poll works within its budget, is never early, removes what it
      delivers and, when the budget lasts, leaves nothing due; a dead handle stays
      dead. One theorem shows a deadline within the documented limit that fires at
      once.
    - Flow table: every call of every history meets the contract of
      [FlowHistory.v], and a stale handle never resolves.
    - Connection tracking: every call of every history meets the contract of
      [ConnHistory.v] over the real stores; a key names one connection in both
      directions; a TCP connection beyond its first SYN was answered.
    - Packet parse: the fast path agrees with the general one on every frame; no
      read leaves the frame; parsing inverts the encoding of a packet; the fields
      written have their types.
    - Checksum: every kernel gives the checksum of RFC 1071, for the generic, the
      IPv4, UDP and TCP functions; a stored checksum verifies; an incremental
      update gives what computing it again would.

    ** Bounds and fuel

    Integers keep their width: [wrap] is written wherever the C++ type wraps, and
    the theorems hold for every value of that width unless they say otherwise.
    Loops that are not structural run on fuel:
    - [Wheel.Poll] has [2 * budget + 3] steps: each unit of work is preceded by at
      most one arrival, and [poll_loop_ok] proves the loop ends before;
    - [Engine.advance] has one step per stage of a cascade (more changes nothing,
      [EngineInv.v]), and [apply_batches] and [apply_batch] the number of
      operations and the retries and halvings a batch can take, which
      [EngineTheorems.v] proves to be enough;
    - [Rcu.reclaim_loop] has the length of the queue, and the loops of
      [Checksum.v] the length of the buffer, more than the steps they make.

    ** What the model leaves to its parameters

    DPDK is not part of the sources. The QSBR variable is the class [Qsbr], with
    what its documentation promises in [QsbrLaws]. A resource is user code behind
    [Resources] and [ResourceLaws]. The iteration order of [std::unordered_map]
    and addresses are the class [Memory]. Each class has a concrete instance, and
    each theorem with hypotheses a witness.

    ** Not modelled

    - The shared flow table and shared connection tracking, the route tables, the
      meters, the hash-based classifiers, packet buffers and pools, rings, ports
      and hardware offload are built on libraries of DPDK (concurrent hash, FIB
      and LPM, meter, mbuf, ring, flow API) that are not part of the sources.
    - The decision cache, NAT, the forwarding database, firewall tables, tunnels,
      member selection, schedulers and statistics are outside the scope of this
      development; where they are built on the flow table, the wheel or the
      checksums, those are modelled.
    - Modules, the control plane with its gRPC and HTTP services, start-up, the
      command-line client and the SDKs are input, output and generated code around
      the components above.
    - Memory orders: steps of the interleaving models are atomic and sequentially
      consistent. Accounting of memory ([Bytes], [GlibcBytes]) and prefetching have
      no effect on behaviour and are left out. *)

From Stdlib Require Export ZArith Lia.
From stdpp Require Export base option list numbers gmap strings relations sorting.

(** ** Notations and tactics *)

Declare Scope bess_scope.
Delimit Scope bess_scope with bess.

Create HintDb bess.

(** Case analysis on the scrutinee of the first [match] of the goal or of a
    hypothesis, keeping the equation. *)
Ltac dmatch :=
  match goal with
  | |- context [match ?x with _ => _ end] => destruct x eqn:?
  | H : context [match ?x with _ => _ end] |- _ => destruct x eqn:?
  end.

(** Splits every conjunction and existential of the context. *)
Ltac crush_ctx :=
  repeat match goal with
  | H : _ ∧ _ |- _ => destruct H
  | H : ∃ _, _ |- _ => destruct H
  | H : Some _ = Some _ |- _ => injection H as H; subst
  | H : (_, _) = (_, _) |- _ => injection H as H; subst
  end.

(** ** Machine integers

    A [w]-bit unsigned integer is a [Z] in [0 .. 2^w - 1]; every operation that
    can leave the range is written with the [wrap] it performs in C++. *)

Section Words.
Open Scope Z_scope.

Definition wrap (w x : Z) : Z := x mod 2 ^ w.

(** [static_cast] of a [w]-bit unsigned value to the signed type of the same
    width. *)
Definition to_signed (w x : Z) : Z :=
  if bool_decide (x < 2 ^ (w - 1)) then x else x - 2 ^ w.

Definition in_width (w x : Z) : Prop := 0 <= x < 2 ^ w.

Lemma wrap_range w x : 0 <= w -> in_width w (wrap w x).
Proof. intros. apply Z.mod_pos_bound. lia. Qed.

Lemma wrap_small w x : in_width w x -> wrap w x = x.
Proof. intros H. apply Z.mod_small. exact H. Qed.

Lemma wrap_wrap w x : wrap w (wrap w x) = wrap w x.
Proof. apply Zmod_mod. Qed.

(** Fields of a word. *)
Lemma lor_shift x y n : 0 <= n -> 0 <= x < 2 ^ n -> 0 <= y -> Z.lor x (Z.shiftl y n) = x + y * 2 ^ n.
Proof.
  intros Hn Hx Hy. rewrite Z.shiftl_mul_pow2 by done. apply Z.bits_inj'. intros i Hi.
  rewrite Z.lor_spec, <- Z.shiftl_mul_pow2, Z.shiftl_spec by lia.
  destruct (Z.lt_ge_cases i n).
  - rewrite (Z.testbit_neg_r y), orb_false_r by lia. rewrite <- (Z.mod_pow2_bits_low (x + _) n) by lia.
    rewrite Z.shiftl_mul_pow2 by done. rewrite Z.mod_add, Z.mod_small by lia. done.
  - replace (Z.testbit x i) with false.
    + simpl. rewrite Z.shiftl_mul_pow2 by done. replace i with (i - n + n) at 2 by lia. rewrite <- Z.div_pow2_bits by lia.
      rewrite Z.div_add, Z.div_small by lia. done.
    + symmetry. destruct (Z.eq_dec x 0) as [-> | Hx0]; [apply Z.bits_0 |]. apply Z.bits_above_log2; [lia |].
      apply Z.log2_lt_pow2; [lia |]. apply Z.lt_le_trans with (2 ^ n); [lia |]. apply Z.pow_le_mono_r; lia.
Qed.

(** [std::countr_zero] of an [n]-bit word; [n] for zero. *)
Fixpoint countr_zero (n : nat) (x : Z) : Z :=
  match n with
  | O => 0
  | S n => if Z.odd x then 0 else 1 + countr_zero n (Z.shiftr x 1)
  end.

End Words.

#[export] Hint Resolve wrap_range : bess.

(** ** Outcomes

    A C++ member function either returns, stops the process on a failed
    [CHECK], or has undefined behaviour (an unchecked index past the end of an
    array). The last two are outcomes of the model and never hidden behind a
    default value. *)

Inductive run (A : Type) : Type :=
  | Ret (a : A)
  | Fatal
  | Undef.
Arguments Ret {A} a.
Arguments Fatal {A}.
Arguments Undef {A}.

#[export] Instance run_ret : MRet run := @Ret.

#[export] Instance run_bind : MBind run := fun A B f m =>
  match m with
  | Ret a => f a
  | Fatal => Fatal
  | Undef => Undef
  end.

(** [CHECK(b)]. *)
Definition check (b : bool) : run () := if b then Ret () else Fatal.

(** [array[i]] without a bounds check. *)
Definition at_ {A} (l : list A) (i : nat) : run A :=
  match l !! i with
  | Some x => Ret x
  | None => Undef
  end.

Lemma run_bind_Ret {A B} (m : run A) (f : A -> run B) b :
  m ≫= f = Ret b -> ∃ a, m = Ret a ∧ f a = Ret b.
Proof. destruct m; simpl; intros; [eauto | discriminate..]. Qed.

Lemma check_Ret b u : check b = Ret u -> b = true.
Proof. by destruct b. Qed.

Lemma at_Ret {A} (l : list A) i x : at_ l i = Ret x <-> l !! i = Some x.
Proof. unfold at_. destruct (l !! i); split; congruence. Qed.

Lemma at_lookup {A} (l : list A) i x : l !! i = Some x -> at_ l i = Ret x.
Proof. apply at_Ret. Qed.

(** Takes apart a run known to return. *)
Ltac run_inv :=
  repeat match goal with
  | H : (_ ≫= _) = Ret _ |- _ =>
      apply run_bind_Ret in H; destruct H as (? & ? & H)
  | H : mret _ = Ret _ |- _ => injection H as H; subst
  | H : Ret _ = Ret _ |- _ => injection H as H; subst
  | H : check _ = Ret _ |- _ => apply check_Ret in H
  | H : at_ _ _ = Ret _ |- _ => apply at_Ret in H
  | H : (_, _) = (_, _) |- _ => injection H as H; subst
  end.

(** ** Function bodies

    A member function over the object's state [S] with return type [R]: a
    statement list either falls through with a value or has returned already,
    and either way leaves a state. [finish] is the call. *)

Definition body (S R A : Type) : Type := S -> run ((R + A) * S).

#[export] Instance body_ret S R : MRet (body S R) := fun A a s => Ret (inr a, s).

#[export] Instance body_bind S R : MBind (body S R) := fun A B f m s =>
  match m s with
  | Ret (inr a, s') => f a s'
  | Ret (inl r, s') => Ret (inl r, s')
  | Fatal => Fatal
  | Undef => Undef
  end.

Section Bodies.
Context {S R A : Type}.

Definition return_ (r : R) : body S R A := fun s => Ret (inl r, s).
Definition get : body S R S := fun s => Ret (inr s, s).
Definition modify (f : S -> S) : body S R () := fun s => Ret (inr (), f s).
Definition lift (m : run A) : body S R A := fun s =>
  match m with
  | Ret a => Ret (inr a, s)
  | Fatal => Fatal
  | Undef => Undef
  end.

(** A range [for]. *)
Fixpoint for_each (l : list A) (f : A -> body S R ()) : body S R () :=
  match l with
  | [] => mret ()
  | x :: l => f x ;; for_each l f
  end.

(** Runs [g] when the rest of the body returns early (a scope guard that is
    dismissed at the end of the body). *)
Definition guarded (g : S -> S) (m : body S R A) : body S R A := fun s =>
  match m s with
  | Ret (inl r, s') => Ret (inl r, g s')
  | o => o
  end.

End Bodies.

Definition finish {S R} (m : body S R R) (s : S) : run (R * S) :=
  match m s with
  | Ret (inl r, s') | Ret (inr r, s') => Ret (r, s')
  | Fatal => Fatal
  | Undef => Undef
  end.

(** Total correctness of a body: it ends, neither aborting the process nor
    stepping outside defined behaviour, in a state [Q] describes when it falls
    through and [QR] when it has returned. *)
Definition wp {S R A} (m : body S R A) (QR : R -> S -> Prop) (Q : A -> S -> Prop)
    (s : S) : Prop :=
  match m s with
  | Ret (inr a, s') => Q a s'
  | Ret (inl r, s') => QR r s'
  | _ => False
  end.

Section Wp.
Context {S R : Type}.
Implicit Types (QR : R -> S -> Prop) (s : S).

Lemma wp_ret {A} (a : A) QR Q s : Q a s -> wp (mret a) QR Q s.
Proof. done. Qed.

Lemma wp_return {A} r QR (Q : A -> S -> Prop) s : QR r s -> wp (return_ r) QR Q s.
Proof. done. Qed.

Lemma wp_bind {A B} (m : body S R A) (f : A -> body S R B) QR Q s :
  wp m QR (fun a => wp (f a) QR Q) s -> wp (m ≫= f) QR Q s.
Proof.
  unfold wp, mbind, body_bind. by destruct (m s) as [[[r | a] s'] | |].
Qed.

Lemma wp_get QR Q s : Q s s -> wp get QR Q s.
Proof. done. Qed.

Lemma wp_modify f QR Q s : Q () (f s) -> wp (modify f) QR Q s.
Proof. done. Qed.

Lemma wp_lift {A} (m : run A) a QR Q s : m = Ret a -> Q a s -> wp (lift m) QR Q s.
Proof. by intros ->. Qed.

Lemma wp_mono {A} (m : body S R A) QR QR' (Q Q' : A -> S -> Prop) s :
  wp m QR Q s -> (∀ r s', QR r s' -> QR' r s') -> (∀ a s', Q a s' -> Q' a s') ->
  wp m QR' Q' s.
Proof. unfold wp. destruct (m s) as [[[r | a] s'] | |]; eauto. Qed.

(** The loop rule: the invariant speaks of the elements done and to do. *)
Lemma wp_for_each {A} (f : A -> body S R ()) QR (I : list A -> list A -> S -> Prop) :
  (∀ done x todo s, I done (x :: todo) s ->
     wp (f x) QR (fun _ => I (done ++ [x]) todo) s) ->
  ∀ todo done s, I done todo s ->
    wp (for_each todo f) QR (fun _ => I (done ++ todo) []) s.
Proof.
  intros Hstep. induction todo as [| x todo IH]; intros done s HI; simpl.
  - apply wp_ret. by rewrite app_nil_r.
  - apply wp_bind. eapply wp_mono; [by apply Hstep | done |].
    intros u s' HI'. specialize (IH _ _ HI'). by rewrite <- app_assoc in IH.
Qed.

Lemma wp_guarded {A} g (m : body S R A) QR Q s :
  wp m (fun r s' => QR r (g s')) Q s -> wp (guarded g m) QR Q s.
Proof. unfold wp, guarded. by destruct (m s) as [[[r | a] s'] | |]. Qed.

Lemma wp_finish (m : body S R R) (Q : R -> S -> Prop) s :
  wp m Q Q s -> ∃ r s', finish m s = Ret (r, s') ∧ Q r s'.
Proof.
  unfold wp, finish. destruct (m s) as [[[r | a] s'] | |]; [eauto.. | done | done].
Qed.

(** Partial information: what is known of the outcome from a run. *)
Lemma finish_wp (m : body S R R) (Q : R -> S -> Prop) s r s' :
  wp m Q Q s -> finish m s = Ret (r, s') -> Q r s'.
Proof.
  intros H Hf. destruct (wp_finish m Q s H) as (r0 & s0 & H0 & HQ). congruence.
Qed.

End Wp.

(** Steps through a body with the rules above. *)
Ltac wp_step :=
  first
    [ apply wp_bind
    | apply wp_ret
    | apply wp_return
    | apply wp_get
    | apply wp_modify ].

(** A pointer or iterator into a map, dereferenced. *)
Definition deref {A} (m : gmap string A) (k : string) : run A :=
  match m !! k with
  | Some x => Ret x
  | None => Undef
  end.

Lemma deref_lookup {A} (m : gmap string A) k x : m !! k = Some x -> deref m k = Ret x.
Proof. unfold deref. by intros ->. Qed.

(** ** Sorting

    [std::sort] and [std::stable_sort] by insertion; [le] is "not after". *)

Section Sorting.
Context {A : Type} (le : A -> A -> bool).

Fixpoint insert_sorted (x : A) (l : list A) : list A :=
  match l with
  | [] => [x]
  | y :: l => if le x y then x :: y :: l else y :: insert_sorted x l
  end.

Fixpoint stable_sort (l : list A) : list A :=
  match l with
  | [] => []
  | x :: l => insert_sorted x (stable_sort l)
  end.

Lemma insert_sorted_perm x l : insert_sorted x l ≡ₚ x :: l.
Proof.
  induction l as [| y l IH]; simpl; [done |]. destruct (le x y); [done |].
  rewrite IH. apply perm_swap.
Qed.

Lemma stable_sort_perm l : stable_sort l ≡ₚ l.
Proof.
  induction l as [| x l IH]; simpl; [done |]. by rewrite insert_sorted_perm, IH.
Qed.

Context (le_total : ∀ x y, le x y = true ∨ le y x = true).
Context (le_trans : ∀ x y z, le x y = true -> le y z = true -> le x z = true).

Lemma insert_sorted_sorted x l :
  StronglySorted (fun a b => le a b = true) l ->
  StronglySorted (fun a b => le a b = true) (insert_sorted x l).
Proof.
  induction 1 as [| y l Hl IH Hy]; simpl; [repeat constructor |].
  destruct (le x y) eqn:Hxy.
  - constructor; [by constructor |]. constructor; [done |].
    eapply Forall_impl; [exact Hy |]. intros z Hz. by eapply le_trans.
  - constructor; [done |]. rewrite insert_sorted_perm. constructor; [| done].
    destruct (le_total x y); congruence.
Qed.

Lemma stable_sort_sorted l : StronglySorted (fun a b => le a b = true) (stable_sort l).
Proof. induction l; simpl; [constructor |]. by apply insert_sorted_sorted. Qed.

End Sorting.

Lemma stable_sort_ext {A} (le le' : A -> A -> bool) (l : list A) :
  (∀ x y, x ∈ l -> y ∈ l -> le x y = le' x y) -> stable_sort le l = stable_sort le' l.
Proof.
  assert (∀ x (m : list A), (∀ y, y ∈ m -> le x y = le' x y) ->
            insert_sorted le x m = insert_sorted le' x m) as Hins.
  { intros x m. induction m as [| y m IH]; intros Hm; simpl; [done |].
    rewrite (Hm y) by by left. rewrite IH; [done |]. intros z Hz. apply Hm. by right. }
  induction l as [| x l IH]; intros Hl; simpl; [done |]. rewrite IH.
  - apply Hins. intros y Hy. rewrite stable_sort_perm in Hy. apply Hl; [by left | by right].
  - intros y z Hy Hz. apply Hl; by right.
Qed.

Lemma StronglySorted_impl_in {A} (R R' : relation A) (l : list A) :
  (∀ x y, x ∈ l -> y ∈ l -> R x y -> R' x y) -> StronglySorted R l -> StronglySorted R' l.
Proof.
  intros HR Hs. induction Hs as [| x l _ IH Hx]; [constructor |]. constructor.
  - apply IH. intros y z Hy Hz. apply HR; by right.
  - rewrite Forall_forall in Hx |- *. intros y Hy. apply HR; [by left | by right | by apply Hx].
Qed.

Lemma sorted_lookup {A} (R : relation A) l i j x y :
  StronglySorted R l -> l !! i = Some x -> l !! j = Some y -> i < j -> R x y.
Proof.
  intros Hs. revert i j. induction Hs as [| z l _ IH Hz]; intros i j Hi Hj Hlt; [done |].
  destruct j as [| j]; [lia |]. destruct i as [| i]; simpl in *; [| by apply (IH i j); [..| lia]].
  injection Hi as ->. rewrite Forall_forall in Hz. apply Hz. by eapply list_elem_of_lookup_2.
Qed.

(** ** Arrays *)

Section Arrays.
Context {A : Type}.
Implicit Types (l : list A) (i : nat).

(** One element changes: how a count of the elements with a property moves. *)
Lemma count_insert (P : A -> Prop) `{!∀ x, Decision (P x)} l i x y :
  l !! i = Some x ->
  length (filter P (<[i:=y]> l)) + (if decide (P x) then 1 else 0) =
  length (filter P l) + (if decide (P y) then 1 else 0).
Proof.
  intros Hi. pose proof (lookup_lt_Some _ _ _ Hi) as Hlt.
  rewrite insert_take_drop by done.
  rewrite <- (take_drop_middle l i x Hi) at 3.
  rewrite !filter_app, !filter_cons.
  repeat case_decide; rewrite !length_app; simpl; lia.
Qed.

Lemma count_replicate_neg (P : A -> Prop) `{!∀ x, Decision (P x)} n x :
  ¬ P x -> filter P (replicate n x) = [].
Proof. intros. induction n; simpl; [done|]. rewrite filter_cons. by case_decide. Qed.

Lemma count_pos (P : A -> Prop) `{!∀ x, Decision (P x)} l i x :
  l !! i = Some x -> P x -> 0 < length (filter P l).
Proof.
  intros Hi HP.
  assert (x ∈ filter P l) as Hin.
  { apply list_elem_of_filter. split; [done|]. by eapply list_elem_of_lookup_2. }
  destruct (filter P l); [by apply not_elem_of_nil in Hin | simpl; lia].
Qed.

End Arrays.

(** The objects an array of owning pointers holds; replacing one pointer trades
    one object for another. *)
Lemma omap_insert_perm {A} (l : list (option A)) i x y :
  l !! i = Some x ->
  option_list y ++ omap id l ≡ₚ option_list x ++ omap id (<[i:=y]> l).
Proof.
  intros Hi. pose proof (lookup_lt_Some _ _ _ Hi) as Hlt.
  rewrite insert_take_drop by done.
  rewrite <- (take_drop_middle l i x Hi) at 1.
  rewrite !omap_app. destruct x, y; simpl; solve_Permutation.
Qed.

Lemma omap_ext_in {A B} (f g : A -> option B) (l : list A) :
  (∀ x, x ∈ l -> f x = g x) -> omap f l = omap g l.
Proof.
  induction l as [| x l IH]; intros Hfg; [done |]. simpl. rewrite (Hfg x) by by left.
  assert (omap f l = omap g l) as Hl by (apply IH; intros y Hy; apply Hfg; by right).
  unfold omap in Hl. by rewrite Hl.
Qed.

Lemma omap_replicate_None {A} n : omap id (replicate n (@None A)) = [].
Proof. by induction n. Qed.

(** The same count for a finite map: one key changes. *)
Section MapCount.
Context {A : Type} (P : nat * A -> Prop) `{!∀ x, Decision (P x)}.

Definition counted (i : nat) (e : option A) : nat :=
  match e with
  | Some x => if decide (P (i, x)) then 1 else 0
  | None => 0
  end.

Lemma map_count_alter (m : gmap nat A) i e :
  size (filter P (partial_alter (fun _ => e) i m)) + counted i (m !! i) =
  size (filter P m) + counted i e.
Proof.
  assert (∀ m' : gmap nat A, size (filter P (delete i m')) + counted i (m' !! i) =
                size (filter P m')) as Hdel.
  { intros m'. rewrite map_filter_delete.
    destruct (m' !! i) as [x |] eqn:Hi; simpl.
    - case_decide as HP.
      + assert (filter P m' !! i = Some x) as Hf by by apply map_lookup_filter_Some.
        pose proof (map_size_delete_Some i _ (mk_is_Some _ _ Hf)).
        assert (size (filter P m') <> 0).
        { intros He. apply map_size_empty_inv in He. by rewrite He in Hf. }
        lia.
      + rewrite delete_id; [lia |]. apply map_lookup_filter_None. right.
        intros y Hy. by simplify_eq.
    - rewrite delete_id; [lia |]. apply map_lookup_filter_None. by left. }
  destruct e as [y |].
  - change (partial_alter (fun _ => Some y) i m) with (<[i:=y]> m).
    rewrite <- insert_delete_eq, map_filter_insert. simpl counted at 2.
    pose proof (Hdel m).
    case_decide as HP; [| rewrite delete_delete_eq; lia].
    rewrite map_size_insert_None; [lia |].
    apply map_lookup_filter_None. left. apply lookup_delete_eq.
  - simpl. pose proof (Hdel m) as Hm. unfold delete, map_delete in Hm. lia.
Qed.

End MapCount.
