(* ===== verification/SlotTable.v ===== *)
(** * [SlotTable]: id -> object, changed one object at a time while workers read

    Models [core/dataplane/slot_table.h]. The atomic slots, the control-side
    states and the counter are the fields of [Slot.t]; [Publish], [Retire] and
    [Unpublish] are state transformers whose failed [CHECK]s are [Fatal]. An
    object carries the slab it was made from, because [Publish] checks it. The
    specification is a finite map from ids to an object and whether it is
    retiring; [slot_table_refines_map] says the arrays implement it for the
    reader and the writer. *)

From S2P Require Import Prelude.

Inductive SlotState := kFree | kLive | kRetiring.

#[export] Instance SlotState_eq_dec : EqDecision SlotState.
Proof. solve_decision. Defined.

Module Slot.

Section Model.
Context {T : Type}.

(** What [SlabUnique<const T>] owns: the object and the slab its deleter
    names; a null pointer is [None]. *)
Record object := mk_object { slab : nat; value : T }.
Local Abbreviation Owned := (option object).

Record t := mk {
  objects_ : nat;             (* the slab the table owns *)
  slots_ : list Owned;        (* index = id *)
  states_ : list SlotState;   (* control side *)
  capacity_ : nat;
  size_ : Z
}.

(** The constructor: ids [1 .. capacity]. *)
Definition Create (slab capacity : nat) : t :=
  mk slab (replicate (capacity + 1) None) (replicate (capacity + 1) kFree)
    capacity 0.

Definition Make (tb : t) (x : T) : object := mk_object (objects_ tb) x.

(** The object at [id], or null for an invalid, out-of-range or empty id. *)
Definition Lookup (tb : t) (id : nat) : run Owned :=
  if bool_decide (id = 0) || bool_decide (capacity_ tb < id) then Ret None
  else at_ (slots_ tb) id.

Definition ValidId (tb : t) (id : nat) : bool :=
  bool_decide (id <> 0) && bool_decide (id <= capacity_ tb).

Definition state (tb : t) (id : nat) : run SlotState := at_ (states_ tb) id.

Definition Contains (tb : t) (id : nat) : run bool :=
  if ValidId tb id then s ← state tb id; mret (bool_decide (s = kLive))
  else Ret false.

Definition CanPublish (tb : t) (id : nat) : run bool :=
  if ValidId tb id then s ← state tb id; mret (bool_decide (s <> kRetiring))
  else Ret false.

Definition Current (tb : t) (id : nat) : run Owned :=
  c ← Contains tb id;
  if (c : bool) then at_ (slots_ tb) id else Ret None.

(** [object == nullptr || object.get_deleter().slab == objects_.get()]. *)
Definition from_slab (slab_id : nat) (o : Owned) : bool :=
  match o with
  | None => true
  | Some x => bool_decide (slab x = slab_id)
  end.

(** Makes [o] visible at [id] and returns the object it replaced. *)
Definition Publish (tb : t) (id : nat) (o : Owned) : run (t * Owned) :=
  can ← CanPublish tb id;
  _ ← check can;
  _ ← check (from_slab (objects_ tb) o);
  old ← at_ (slots_ tb) id;
  s ← at_ (states_ tb) id;
  let size := if bool_decide (s = kFree) then wrap 64 (size_ tb + 1)
              else size_ tb in
  mret (mk (objects_ tb) (<[id:=o]> (slots_ tb)) (<[id:=kLive]> (states_ tb))
          (capacity_ tb) size, old).

(** Removes the object from the control side; it stays readable. *)
Definition Retire (tb : t) (id : nat) : run t :=
  c ← Contains tb id;
  _ ← check c;
  mret (mk (objects_ tb) (slots_ tb) (<[id:=kRetiring]> (states_ tb))
          (capacity_ tb) (wrap 64 (size_ tb - 1))).

(** Empties a retiring slot and returns its object. *)
Definition Unpublish (tb : t) (id : nat) : run (t * Owned) :=
  s ← state tb id;
  _ ← check (bool_decide (s = kRetiring));
  old ← at_ (slots_ tb) id;
  mret (mk (objects_ tb) (<[id:=None]> (slots_ tb)) (<[id:=kFree]> (states_ tb))
          (capacity_ tb) (size_ tb), old).

(** The destructor returns every published object to the slab. *)
Definition Destroy (tb : t) : list object := omap id (slots_ tb).

(** A writer's history: the operations in the order the caller serialized
    them. [exec] collects what the table handed back. *)
Inductive op :=
  | OPublish (id : nat) (o : Owned)
  | ORetire (id : nat)
  | OUnpublish (id : nat).

Definition step (tb : t) (o : op) : run (t * Owned) :=
  match o with
  | OPublish id x => Publish tb id x
  | ORetire id => tb' ← Retire tb id; mret (tb', None)
  | OUnpublish id => Unpublish tb id
  end.

Fixpoint exec (tb : t) (ops : list op) : run (t * list object) :=
  match ops with
  | [] => Ret (tb, [])
  | o :: rest =>
      '(tb1, back) ← step tb o;
      '(tb2, more) ← exec tb1 rest;
      mret (tb2, option_list back ++ more)
  end.

Definition published (ops : list op) : list object :=
  omap (fun o => match o with OPublish _ x => x | _ => None end) ops.

(** ** The invariant *)

Record wf (tb : t) : Prop := {
  wf_slots : length (slots_ tb) = capacity_ tb + 1;
  wf_states : length (states_ tb) = capacity_ tb + 1;
  wf_fits : (Z.of_nat (capacity_ tb) + 1 < 2 ^ 64)%Z;
  wf_size : size_ tb = Z.of_nat (length (filter (eq kLive) (states_ tb)));
  wf_zero : states_ tb !! 0 = Some kFree;
  wf_free : ∀ i, states_ tb !! i = Some kFree -> slots_ tb !! i = Some None
}.

(** ** The specification: a map from ids to the object and whether it is
    retiring *)

Local Abbreviation spec := (gmap nat (bool * Owned)).

Definition a_lookup (m : spec) (id : nat) : Owned := (m !! id) ≫= snd.

Definition a_step (slab_id cap : nat) (m : spec) (o : op) : option (spec * Owned) :=
  match o with
  | OPublish id x =>
      if bool_decide (1 <= id <= cap) && from_slab slab_id x
      then match m !! id with
           | Some (true, _) => None
           | prev => Some (<[id:=(false, x)]> m, prev ≫= snd)
           end
      else None
  | ORetire id =>
      match m !! id with
      | Some (false, x) => Some (<[id:=(true, x)]> m, None)
      | _ => None
      end
  | OUnpublish id =>
      match m !! id with
      | Some (true, x) => Some (delete id m, x)
      | _ => None
      end
  end.

(** The map a table stands for. *)
Definition entry (s : SlotState) (x : Owned) : option (bool * Owned) :=
  match s with
  | kFree => None
  | kLive => Some (false, x)
  | kRetiring => Some (true, x)
  end.

(** An entry the writer counts: published and not retiring. *)
Definition live (kv : nat * (bool * Owned)) : Prop := kv.2.1 = false.

#[local] Instance live_dec kv : Decision (live kv).
Proof. unfold live. apply _. Defined.

Definition abstracts (tb : t) (m : spec) : Prop :=
  wf tb ∧
  (∀ i, m !! i = (s ← states_ tb !! i; x ← slots_ tb !! i; entry s x)) ∧
  length (filter (eq kLive) (states_ tb)) = size (filter live m).

(** A history of the specification. *)
Fixpoint a_exec (slab_id cap : nat) (m : spec) (ops : list op)
    : option (spec * list object) :=
  match ops with
  | [] => Some (m, [])
  | o :: rest =>
      '(m1, back) ← a_step slab_id cap m o;
      '(m2, more) ← a_exec slab_id cap m1 rest;
      mret (m2, option_list back ++ more)
  end.

End Model.

Arguments object T : clear implicits.
Abbreviation Owned T := (option (object T)).
Arguments t T : clear implicits.
Arguments op T : clear implicits.
Abbreviation spec T := (gmap nat (bool * Owned T)).

#[export] Existing Instance live_dec.

Section Lemmas.
Context {T : Type}.
Implicit Types (tb : t T) (m : spec T) (x : Owned T).

Lemma slot_create_wf slab cap :
  (Z.of_nat cap + 1 < 2 ^ 64)%Z -> wf (Create (T:=T) slab cap).
Proof.
  intros Hc. split; simpl; rewrite ?length_replicate; try done.
  - by rewrite count_replicate_neg.
  - apply lookup_replicate. split; [done | lia].
  - intros i Hi. apply lookup_replicate in Hi. apply lookup_replicate.
    split; [done | lia].
Qed.

Lemma slot_create_abstracts slab cap :
  (Z.of_nat cap + 1 < 2 ^ 64)%Z -> abstracts (Create (T:=T) slab cap) ∅.
Proof.
  intros Hc. split; [by apply slot_create_wf | split].
  - intros i. rewrite lookup_empty.
    simpl. destruct (decide (i < cap + 1)).
    + rewrite !lookup_replicate_2 by lia. done.
    + rewrite (lookup_ge_None_2 (replicate _ kFree)); [done |].
      rewrite length_replicate. lia.
  - simpl. rewrite count_replicate_neg by done. by rewrite map_filter_empty.
Qed.

Lemma wf_size_bound tb : wf tb ->
  (Z.of_nat (length (filter (eq kLive) (states_ tb))) <= Z.of_nat (capacity_ tb) + 1)%Z.
Proof.
  intros [_ Hs _ _ _ _]. pose proof (length_filter (eq kLive) (states_ tb)).
  lia.
Qed.

(** The one update every operation makes: slot [i] and its state change, and
    the counter follows the number of live states. *)
Lemma slot_abstracts_update tb m i s s' x' size' :
  abstracts tb m -> i <> 0 -> states_ tb !! i = Some s ->
  (s' = kFree -> x' = None) ->
  size' = Z.of_nat (length (filter (eq kLive) (<[i:=s']> (states_ tb)))) ->
  abstracts
    (mk (objects_ tb) (<[i:=x']> (slots_ tb)) (<[i:=s']> (states_ tb))
       (capacity_ tb) size')
    (partial_alter (fun _ => entry s' x') i m).
Proof.
  intros [[Hsl Hst Hfit Hsz Hz Hfr] [Habs Hcnt]] Hi Hs Hnull ->.
  pose proof (lookup_lt_Some _ _ _ Hs) as Hlt.
  split; [split; simpl; rewrite ?length_insert; try done | split].
  - by rewrite list_lookup_insert_ne.
  - intros j Hj. destruct (decide (i = j)) as [<- | Hne].
    + rewrite list_lookup_insert_eq in Hj by done. injection Hj as Hj.
      rewrite list_lookup_insert_eq by lia. by rewrite Hnull.
    + rewrite list_lookup_insert_ne in Hj by done.
      rewrite list_lookup_insert_ne by done. by apply Hfr.
  - intros j. simpl. destruct (decide (i = j)) as [<- | Hne].
    + rewrite lookup_partial_alter_eq, !list_lookup_insert_eq by lia. done.
    + rewrite lookup_partial_alter_ne, !list_lookup_insert_ne by done. apply Habs.
  - simpl. pose proof (count_insert (eq kLive) _ _ _ s' Hs) as Hc.
    pose proof (map_count_alter live m i (entry s' x')) as Hm.
    destruct (lookup_lt_is_Some_2 (slots_ tb) i) as [x Hx]; [lia |].
    rewrite (Habs i), Hs in Hm. simpl in Hm. rewrite Hx in Hm.
    destruct s, s'; unfold live in *; simpl in *; repeat case_decide; try congruence; lia.
Qed.

Lemma slot_abstracts_lookup tb m i s x :
  abstracts tb m -> states_ tb !! i = Some s -> slots_ tb !! i = Some x ->
  m !! i = entry s x.
Proof. intros [_ [-> _]] Hs Hx. by rewrite Hs, Hx. Qed.

(** A valid id names a slot and a state. *)
Lemma wf_valid tb id : wf tb -> ValidId tb id = true ->
  id <> 0 ∧ id <= capacity_ tb ∧
  ∃ s x, states_ tb !! id = Some s ∧ slots_ tb !! id = Some x.
Proof.
  intros [Hsl Hst _ _ _ _] Hv. unfold ValidId in Hv.
  apply andb_prop in Hv as [H0 Hc].
  apply bool_decide_eq_true in H0, Hc.
  destruct (lookup_lt_is_Some_2 (states_ tb) id) as [s Hs]; [lia |].
  destruct (lookup_lt_is_Some_2 (slots_ tb) id) as [x Hx]; [lia |].
  eauto 8.
Qed.

Lemma invalid_abstract tb m id :
  abstracts tb m -> ValidId tb id = false -> m !! id = None.
Proof.
  intros [[Hsl Hst _ _ Hz Hfr] [Habs _]] Hv. rewrite Habs.
  unfold ValidId in Hv. apply andb_false_iff in Hv as [H0 | Hc].
  - apply bool_decide_eq_false in H0. assert (id = 0) as -> by lia.
    rewrite Hz. simpl. by rewrite (Hfr _ Hz).
  - apply bool_decide_eq_false in Hc.
    by rewrite (lookup_ge_None_2 (states_ tb)) by lia.
Qed.

Lemma lookup_abstract tb m id :
  abstracts tb m -> Lookup tb id = Ret (a_lookup m id).
Proof.
  intros Habs. unfold Lookup, a_lookup. destruct (ValidId tb id) eqn:Hv.
  - destruct (wf_valid tb id (proj1 Habs) Hv) as (H0 & Hc & s & x & Hs & Hx).
    rewrite (slot_abstracts_lookup _ _ _ _ _ Habs Hs Hx).
    rewrite bool_decide_eq_false_2, bool_decide_eq_false_2 by lia. simpl.
    rewrite (at_lookup _ _ _ Hx). destruct s; simpl; [| done..].
    destruct Habs as [Hwf _]. pose proof (wf_free _ Hwf _ Hs). congruence.
  - rewrite (invalid_abstract _ _ _ Habs Hv). simpl.
    unfold ValidId in Hv. apply andb_false_iff in Hv as [Hv | Hv];
      apply bool_decide_eq_false in Hv.
    + rewrite bool_decide_eq_true_2 by lia. done.
    + rewrite (bool_decide_eq_true_2 (capacity_ tb < id)) by lia.
      by rewrite orb_true_r.
Qed.


Lemma live_size_up tb i s :
  wf tb -> states_ tb !! i = Some s ->
  (if bool_decide (s = kFree) then wrap 64 (size_ tb + 1) else size_ tb) =
  Z.of_nat (length (filter (eq kLive) (<[i:=kLive]> (states_ tb)))) ∨ s = kRetiring.
Proof.
  intros Hwf Hs. pose proof (count_insert (eq kLive) _ _ _ kLive Hs) as Hc.
  pose proof (wf_size_bound _ Hwf) as Hb. pose proof (wf_size _ Hwf) as Hsz.
  pose proof (wf_fits _ Hwf) as Hf.
  pose proof (length_filter (eq kLive) (<[i:=kLive]> (states_ tb))) as Hl.
  rewrite length_insert, (wf_states _ Hwf) in Hl.
  destruct s; [left | left | by right]; repeat case_decide; try congruence;
    case_bool_decide; try congruence.
  - rewrite wrap_small by (unfold in_width; lia). lia.
  - lia.
Qed.

Lemma live_size_down tb i :
  wf tb -> states_ tb !! i = Some kLive ->
  wrap 64 (size_ tb - 1) =
  Z.of_nat (length (filter (eq kLive) (<[i:=kRetiring]> (states_ tb)))).
Proof.
  intros Hwf Hs. pose proof (count_insert (eq kLive) _ _ _ kRetiring Hs) as Hc.
  pose proof (wf_size_bound _ Hwf) as Hb. pose proof (wf_size _ Hwf) as Hsz.
  pose proof (wf_fits _ Hwf) as Hf.
  repeat case_decide; try congruence.
  rewrite wrap_small by (unfold in_width; lia). lia.
Qed.

(** One operation: the table and the specification make the same move, hand
    back the same object, and refuse the same calls. *)
Lemma slot_step_simulation tb m o :
  abstracts tb m ->
  match step tb o with
  | Ret (tb', back) =>
      ∃ m', a_step (objects_ tb) (capacity_ tb) m o = Some (m', back) ∧
            abstracts tb' m' ∧
            objects_ tb' = objects_ tb ∧ capacity_ tb' = capacity_ tb
  | _ => a_step (objects_ tb) (capacity_ tb) m o = None
  end.
Proof.
  intros Habs. destruct o as [i x | i | i]; simpl.
  - (* Publish *)
    unfold Publish, CanPublish. destruct (ValidId tb i) eqn:Hv; simpl.
    + destruct (wf_valid tb i (proj1 Habs) Hv) as (H0 & Hc & s & y & Hs & Hy).
      unfold state. rewrite (at_lookup _ _ _ Hs). simpl.
      rewrite (bool_decide_eq_true_2 (1 <= i <= capacity_ tb)) by lia.
      rewrite (slot_abstracts_lookup _ _ _ _ _ Habs Hs Hy).
      destruct (from_slab (objects_ tb) x); simpl.
      2: { by destruct (bool_decide (s ≠ kRetiring)). }
      destruct (decide (s = kRetiring)) as [-> | Hr]; [done |].
      destruct (live_size_up tb i s (proj1 Habs) Hs) as [Hsz | ->]; [| done].
      rewrite (bool_decide_eq_true_2 (s <> kRetiring)) by done. simpl.
      rewrite (at_lookup _ _ _ Hy). simpl.
      pose proof (slot_abstracts_update tb m i s kLive x _ Habs H0 Hs
                    ltac:(done) eq_refl) as Hup.
      rewrite <- Hsz in Hup.
      exists (<[i:=(false, x)]> m). split; [| done].
      destruct s; [| done..]. simpl.
      by rewrite (Some_inj _ _ (eq_trans (eq_sym Hy) (wf_free _ (proj1 Habs) _ Hs))).
    + unfold ValidId in Hv. apply andb_false_iff in Hv as [Hv | Hv];
        apply bool_decide_eq_false in Hv;
        by rewrite bool_decide_eq_false_2 by lia.
  - (* Retire *)
    unfold Retire, Contains. destruct (ValidId tb i) eqn:Hv; simpl.
    + destruct (wf_valid tb i (proj1 Habs) Hv) as (H0 & Hc & s & y & Hs & Hy).
      unfold state. rewrite (at_lookup _ _ _ Hs). simpl.
      rewrite (slot_abstracts_lookup _ _ _ _ _ Habs Hs Hy).
      destruct s; simpl; try done. exists (<[i:=(true, y)]> m).
      split; [done |]. split; [| done].
      rewrite (live_size_down _ _ (proj1 Habs) Hs).
      rewrite <- (list_insert_id (slots_ tb) i y Hy).
      by apply (slot_abstracts_update tb m i kLive kRetiring y).
    + by rewrite (invalid_abstract _ _ _ Habs Hv).
  - (* Unpublish *)
    unfold Unpublish, state. destruct (states_ tb !! i) as [s |] eqn:Hs.
    + rewrite (at_lookup _ _ _ Hs). simpl.
      destruct (lookup_lt_is_Some_2 (slots_ tb) i) as [y Hy].
      { pose proof (lookup_lt_Some _ _ _ Hs). destruct Habs as [[] _]. lia. }
      rewrite (slot_abstracts_lookup _ _ _ _ _ Habs Hs Hy).
      destruct s; simpl; try done. rewrite (at_lookup _ _ _ Hy). simpl.
      exists (delete i m). split; [done |]. split; [| done].
      assert (i <> 0) as H0.
      { intros ->. pose proof (wf_zero _ (proj1 Habs)). congruence. }
      pose proof (count_insert (eq kLive) _ _ _ kFree Hs) as Hc.
      repeat case_decide; try congruence.
      apply (slot_abstracts_update tb m i kRetiring kFree None); try done.
      rewrite (wf_size _ (proj1 Habs)). lia.
    + unfold at_. rewrite Hs. simpl. destruct Habs as [_ [-> _]]. by rewrite Hs.
Qed.

(** What a step does to the objects the table owns. *)
Lemma step_ownership tb o tb' back :
  step tb o = Ret (tb', back) ->
  published [o] ++ omap id (slots_ tb) ≡ₚ option_list back ++ omap id (slots_ tb').
Proof.
  destruct o as [i x | i | i]; simpl; intros Hst.
  - unfold Publish in Hst. run_inv.
    replace (published [OPublish i x]) with (option_list x) by by destruct x.
    by apply omap_insert_perm.
  - unfold Retire in Hst. run_inv. done.
  - unfold Unpublish in Hst. run_inv. by apply (omap_insert_perm _ i _ None).
Qed.

Lemma published_cons (o : op T) ops : published (o :: ops) = published [o] ++ published ops.
Proof. unfold published. simpl. by destruct o as [? []| |]. Qed.

Lemma exec_ownership tb ops tb' back :
  exec tb ops = Ret (tb', back) ->
  published ops ++ omap id (slots_ tb) ≡ₚ back ++ omap id (slots_ tb').
Proof.
  revert tb back. induction ops as [| o ops IH]; intros tb back Hex; simpl in Hex.
  - run_inv. done.
  - apply run_bind_Ret in Hex as ([tb1 b1] & Hst & Hex).
    apply run_bind_Ret in Hex as ([tb2 more] & Hrest & Hex). run_inv.
    apply IH in Hrest. apply step_ownership in Hst.
    rewrite published_cons, (Permutation_app_comm (published [o])), <- (assoc_L (++)).
    rewrite Hst, (assoc_L (++)), (Permutation_app_comm (published ops)).
    rewrite <- !(assoc_L (++)). by rewrite Hrest.
Qed.

(** The objects a retiring id shows do not change until its [Unpublish]. *)
Lemma a_step_other sl cap m o i x m' back :
  m !! i = Some (true, x) -> o <> OUnpublish i ->
  a_step sl cap m o = Some (m', back) -> m' !! i = Some (true, x).
Proof.
  intros Hi Hne Hst. destruct o as [j y | j | j]; simpl in Hst.
  - destruct (_ && _); [| done]. destruct (decide (j = i)) as [-> | Hji].
    + rewrite Hi in Hst. done.
    + destruct (m !! j) as [[[] ?]|]; try done; injection Hst as <- <-;
        by rewrite lookup_insert_ne.
  - destruct (m !! j) as [[[] ?]|] eqn:Hj; try done. injection Hst as <- <-.
    rewrite lookup_insert_ne; congruence.
  - destruct (m !! j) as [[[] ?]|] eqn:Hj; try done. injection Hst as <- <-.
    rewrite lookup_delete_ne; congruence.
Qed.

Lemma exec_retiring tb m ops tb' back i x :
  abstracts tb m -> m !! i = Some (true, x) -> OUnpublish i ∉ ops ->
  exec tb ops = Ret (tb', back) ->
  ∃ m', abstracts tb' m' ∧ m' !! i = Some (true, x).
Proof.
  revert tb m back. induction ops as [| o ops IH]; simpl; intros tb m back Habs Hi Hnot Hex.
  - run_inv. eauto.
  - apply run_bind_Ret in Hex as ([tb1 b1] & Hst & Hex).
    apply run_bind_Ret in Hex as ([tb2 more] & Hrest & Hex). run_inv.
    apply not_elem_of_cons in Hnot as [Hne Hnot].
    pose proof (slot_step_simulation tb m o Habs) as Hsim. rewrite Hst in Hsim.
    destruct Hsim as (m1 & Ha & Habs1 & _).
    eapply (IH tb1 m1); [done | | done | done].
    by eapply a_step_other.
Qed.

Lemma slot_exec_simulation tb m ops :
  abstracts tb m ->
  match exec tb ops with
  | Ret (tb', back) =>
      ∃ m', a_exec (objects_ tb) (capacity_ tb) m ops = Some (m', back) ∧
            abstracts tb' m'
  | _ => a_exec (objects_ tb) (capacity_ tb) m ops = None
  end.
Proof.
  revert tb m. induction ops as [| o ops IH]; intros tb m Habs; simpl; [eauto |].
  pose proof (slot_step_simulation tb m o Habs) as Hst.
  destruct (step tb o) as [[tb1 b1] | |]; simpl.
  2,3: by rewrite Hst.
  destruct Hst as (m1 & -> & Habs1 & <- & <-). simpl. specialize (IH _ _ Habs1).
  destruct (exec tb1 ops) as [[tb2 b2] | |]; simpl; [| by rewrite IH..].
  destruct IH as (m2 & -> & ?). simpl. eauto.
Qed.

Lemma a_lookup_states tb m id :
  abstracts tb m -> m !! id = Some (true, a_lookup m id) ->
  CanPublish tb id = Ret false ∧ Contains tb id = Ret false.
Proof.
  intros Habs Hm. destruct (ValidId tb id) eqn:Hv.
  - destruct (wf_valid tb id (proj1 Habs) Hv) as (_ & _ & s & x & Hs & Hx).
    rewrite (slot_abstracts_lookup _ _ _ _ _ Habs Hs Hx) in Hm.
    unfold CanPublish, Contains, state. rewrite Hv, (at_lookup _ _ _ Hs).
    by destruct s.
  - rewrite (invalid_abstract _ _ _ Habs Hv) in Hm. done.
Qed.

End Lemmas.

(** ** Theorems *)


(** C30. Ownership: over any history and the destructor, every object handed to
    the table comes back exactly once, from [Publish], [Unpublish] or the
    destructor; none is lost and none is freed twice. *)
Theorem published_objects_freed_once {T} (slab cap : nat) (ops : list (op T)) tb back :
  exec (Create slab cap) ops = Ret (tb, back) ->
  published ops ≡ₚ back ++ Destroy tb.
Proof.
  intros Hex. apply exec_ownership in Hex. simpl in Hex.
  by rewrite omap_replicate_None, app_nil_r in Hex.
Qed.

(** After [Retire] an id is absent for the writer and cannot be published
    again, and its object stays readable, unchanged, through any history that
    does not unpublish that id. *)
Theorem retired_id_readable_and_reserved {T} slab cap (before after : list (op T))
    id tb tb1 tb2 back1 back2 :
  (Z.of_nat cap + 1 < 2 ^ 64)%Z ->
  exec (Create slab cap) before = Ret (tb, back1) ->
  Retire tb id = Ret tb1 ->
  OUnpublish id ∉ after ->
  exec tb1 after = Ret (tb2, back2) ->
  Lookup tb2 id = Lookup tb id ∧ CanPublish tb2 id = Ret false ∧
  Contains tb2 id = Ret false.
Proof.
  intros Hc Hb Hr Hno Ha.
  pose proof (slot_exec_simulation _ _ before (slot_create_abstracts slab cap Hc)) as Hsim.
  rewrite Hb in Hsim. destruct Hsim as (m & _ & Habs).
  pose proof (slot_step_simulation _ _ (ORetire id) Habs) as Hst.
  simpl in Hst. rewrite Hr in Hst. simpl in Hst.
  destruct Hst as (m1 & Hm1 & Habs1 & _).
  destruct (m !! id) as [[[] x] |] eqn:Hid; try done. injection Hm1 as <-.
  destruct (exec_retiring _ _ _ _ _ id x Habs1 ltac:(apply lookup_insert_eq) Hno Ha)
    as (m2 & Habs2 & Hm2).
  rewrite !(lookup_abstract _ _ _ Habs), !(lookup_abstract _ _ _ Habs2).
  unfold a_lookup at 1 2. rewrite Hid, Hm2. split; [done |].
  apply (a_lookup_states _ _ _ Habs2). unfold a_lookup. by rewrite Hm2.
Qed.

(** ** Witnesses *)

Definition w_obj (n : nat) : object nat := mk_object 7 n.
Definition w_before : list (op nat) := [OPublish 1 (Some (w_obj 10)); OPublish 2 (Some (w_obj 20))].
Definition w_after : list (op nat) := [OPublish 2 (Some (w_obj 21)); OPublish 3 (Some (w_obj 30))].


Lemma published_objects_freed_once_witness :
  ∃ tb back, exec (Create 7 3) (w_before ++ w_after) = Ret (tb, back) ∧
  published (w_before ++ w_after) ≡ₚ back ++ Destroy tb.
Proof.
  eexists _, _. split; [reflexivity |].
  apply (published_objects_freed_once 7 3). reflexivity.
Defined.

Lemma retired_id_readable_and_reserved_witness :
  ∃ tb tb1 tb2 back1 back2,
    exec (Create 7 3) w_before = Ret (tb, back1) ∧ Retire tb 1 = Ret tb1 ∧
    exec tb1 w_after = Ret (tb2, back2) ∧
    Lookup tb2 1 = Lookup tb 1 ∧ CanPublish tb2 1 = Ret false ∧
    Contains tb2 1 = Ret false.
Proof.
  eexists _, _, _, _, _. split; [reflexivity |]. split; [reflexivity |].
  split; [reflexivity |].
  eapply (retired_id_readable_and_reserved 7 3 w_before w_after 1);
    [lia | reflexivity | reflexivity | | reflexivity].
  unfold w_after. rewrite !elem_of_cons. intros [?|[?|Hn]];
    [done.. | by apply not_elem_of_nil in Hn].
Defined.

End Slot.
