(* ===== verification/ObjectTable.v ===== *)
(** * [ObjectTable]: an immutable id -> object generation and its builder

    Models [core/dataplane/object_table.h]. The builder and the table it is
    frozen into hold an array of optional objects, slot 0 unused; the
    specification is a finite map over ids [1 .. capacity]. *)

From S2P Require Import Prelude.

Module Obj.

Section Model.
Context {T : Type}.

(** [ObjectTableBuilder] and the [ObjectTable] it is frozen into have the same
    two fields. *)
Record builder := mk_builder { bslots_ : list (option T); bsize_ : Z }.
Record table := mk_table { slots_ : list (option T); size_ : Z }.

Definition Create (capacity : nat) : builder :=
  mk_builder (replicate (capacity + 1) None) 0.

Definition Emplace (b : builder) (id : nat) (x : T) : run (builder * bool) :=
  if bool_decide (id = 0) || bool_decide (length (bslots_ b) <= id)
  then Ret (b, false)
  else
    slot ← at_ (bslots_ b) id;
    let size := if bool_decide (slot = None) then wrap 64 (bsize_ b + 1)
                else bsize_ b in
    mret (mk_builder (<[id:=Some x]> (bslots_ b)) size, true).

Definition Set_ (b : builder) (id : nat) (x : T) : run (builder * bool) :=
  Emplace b id x.

Definition Erase (b : builder) (id : nat) : run (builder * bool) :=
  if bool_decide (id = 0) || bool_decide (length (bslots_ b) <= id)
  then Ret (b, false)
  else
    slot ← at_ (bslots_ b) id;
    match slot with
    | None => Ret (b, false)
    | Some _ =>
        Ret (mk_builder (<[id:=None]> (bslots_ b)) (wrap 64 (bsize_ b - 1)), true)
    end.

Definition Contains (b : builder) (id : nat) : run bool :=
  if bool_decide (id <> 0) && bool_decide (id < length (bslots_ b))
  then slot ← at_ (bslots_ b) id; mret (bool_decide (slot <> None))
  else Ret false.

Definition Build (b : builder) : table := mk_table (bslots_ b) (bsize_ b).

Definition Lookup (tb : table) (id : nat) : run (option T) :=
  if bool_decide (id = 0) || bool_decide (length (slots_ tb) <= id)
  then Ret None
  else at_ (slots_ tb) id.

(** [for (i = 0; i < ids.size(); i++) results[i] = Lookup(ids[i])], from index
    [i]; a results span that is too short is written past its end. *)
Fixpoint LookupBatch (tb : table) (ids : list nat) (i : nat)
    (results : list (option T)) : run (list (option T)) :=
  match ids with
  | [] => Ret results
  | id :: rest =>
      x ← Lookup tb id;
      _ ← at_ results i;
      LookupBatch tb rest (i + 1) (<[i:=x]> results)
  end.

Definition capacity (tb : table) : nat := length (slots_ tb) - 1.

Inductive op := OSet (id : nat) (x : T) | OErase (id : nat).

Definition step (b : builder) (o : op) : run (builder * bool) :=
  match o with
  | OSet id x => Set_ b id x
  | OErase id => Erase b id
  end.

Fixpoint exec (b : builder) (ops : list op) : run (builder * list bool) :=
  match ops with
  | [] => Ret (b, [])
  | o :: rest =>
      '(b1, ok) ← step b o;
      '(b2, oks) ← exec b1 rest;
      mret (b2, ok :: oks)
  end.

(** The specification: a finite map over ids [1 .. cap]. *)
Definition a_step (cap : nat) (m : gmap nat T) (o : op) : gmap nat T * bool :=
  match o with
  | OSet id x => if bool_decide (1 <= id <= cap) then (<[id:=x]> m, true) else (m, false)
  | OErase id => match m !! id with Some _ => (delete id m, true) | None => (m, false) end
  end.

Fixpoint a_exec (cap : nat) (m : gmap nat T) (ops : list op) : gmap nat T * list bool :=
  match ops with
  | [] => (m, [])
  | o :: rest =>
      let '(m1, ok) := a_step cap m o in
      let '(m2, oks) := a_exec cap m1 rest in
      (m2, ok :: oks)
  end.

Record abstracts (cap : nat) (b : builder) (m : gmap nat T) : Prop := {
  ab_len : length (bslots_ b) = cap + 1;
  ab_fits : (Z.of_nat cap + 1 < 2 ^ 64)%Z;
  ab_map : ∀ i, m !! i = (bslots_ b !! i) ≫= id;
  ab_zero : m !! 0 = None;
  ab_size : bsize_ b = Z.of_nat (size m)
}.

End Model.

Arguments builder T : clear implicits.
Arguments table T : clear implicits.
Arguments op T : clear implicits.

Section Lemmas.
Context {T : Type}.
Implicit Types (b : builder T) (m : gmap nat T).

Lemma obj_create_abstracts cap :
  (Z.of_nat cap + 1 < 2 ^ 64)%Z -> abstracts cap (Create (T:=T) cap) ∅.
Proof.
  intros Hc. split; simpl; rewrite ?length_replicate; try done.
  intros i. rewrite lookup_empty.
  destruct (replicate (cap + 1) None !! i) eqn:Hi; [| done].
  apply lookup_replicate in Hi as [-> _]. done.
Qed.

(** A map over ids [1 .. cap] has at most [cap] keys. *)
Lemma obj_abstracts_bound cap b m : abstracts cap b m -> size m <= cap.
Proof.
  intros [Hl _ Hm H0 _]. rewrite <- size_dom.
  assert (size (list_to_set (seq 1 cap) : gset nat) = cap) as <-.
  { rewrite size_list_to_set by apply NoDup_seq. apply length_seq. }
  apply subseteq_size. intros i Hi. apply elem_of_dom in Hi as [x Hx].
  apply elem_of_list_to_set, elem_of_seq.
  assert (i <> 0) by congruence.
  rewrite Hm in Hx. destruct (bslots_ b !! i) eqn:Hb; [| done].
  apply lookup_lt_Some in Hb. lia.
Qed.

Lemma obj_abstracts_update cap b m i e s :
  abstracts cap b m -> 1 <= i <= cap ->
  s = Z.of_nat (size (partial_alter (fun _ => e) i m)) ->
  abstracts cap (mk_builder (<[i:=e]> (bslots_ b)) s) (partial_alter (fun _ => e) i m).
Proof.
  intros [Hl Hf Hm H0 Hs] Hi ->. split; simpl; rewrite ?length_insert; try done.
  - intros j. destruct (decide (i = j)) as [<- | Hne].
    + rewrite lookup_partial_alter_eq, list_lookup_insert_eq by lia. by destruct e.
    + by rewrite lookup_partial_alter_ne, list_lookup_insert_ne.
  - rewrite lookup_partial_alter_ne by lia. done.
Qed.

Lemma obj_step_simulation cap b m o :
  abstracts cap b m ->
  ∃ b', step b o = Ret (b', (a_step cap m o).2) ∧
        abstracts cap b' (a_step cap m o).1.
Proof.
  intros Habs. pose proof Habs as [Hl Hf Hm H0 Hs].
  pose proof (obj_abstracts_bound _ _ _ Habs) as Hb.
  destruct o as [i x | i]; simpl.
  - unfold Set_, Emplace. destruct (decide (1 <= i <= cap)) as [Hi | Hi].
    + rewrite (bool_decide_eq_true_2 (1 <= i <= cap)) by done.
      destruct (lookup_lt_is_Some_2 (bslots_ b) i) as [e He]; [lia |].
      rewrite bool_decide_eq_false_2, bool_decide_eq_false_2 by lia. simpl.
      rewrite (at_lookup _ _ _ He). simpl. eexists. split; [done |].
      apply (obj_abstracts_update cap b m i (Some x)); [done.. |].
      change (partial_alter (fun _ => Some x) i m) with (<[i:=x]> m).
      rewrite map_size_insert, (Hm i), He. rewrite Hs.
      destruct e; simpl; [done |].
      rewrite wrap_small; [lia | unfold in_width; lia].
    + rewrite (bool_decide_eq_false_2 (1 <= i <= cap)) by done.
      destruct (decide (i = 0)) as [-> | Hn]; simpl; [eauto |].
      rewrite (bool_decide_eq_true_2 (length _ <= i)) by lia.
      rewrite orb_true_r. eauto.
  - unfold Erase. destruct (bslots_ b !! i) as [e |] eqn:He.
    + pose proof (lookup_lt_Some _ _ _ He). rewrite (Hm i), He. simpl.
      rewrite (bool_decide_eq_false_2 (length _ <= i)) by lia.
      destruct (decide (i = 0)) as [-> | Hn].
      { rewrite Hm, He in H0. simpl in H0. subst e. simpl. eauto. }
      rewrite bool_decide_eq_false_2 by lia. simpl.
      rewrite (at_lookup _ _ _ He). simpl.
      destruct e as [x |]; simpl; [| eauto]. eexists. split; [done |].
      apply (obj_abstracts_update cap b m i None); [done | lia |].
      change (partial_alter (fun _ => None) i m) with (delete i m).
      assert (m !! i = Some x) as Hmi by by rewrite Hm, He.
      rewrite map_size_delete, Hmi, Hs. simpl.
      assert (size m <> 0).
      { intros Hz. apply map_size_empty_inv in Hz. by rewrite Hz in Hmi. }
      rewrite wrap_small; [lia | unfold in_width; lia].
    + rewrite (Hm i), He. simpl. apply lookup_ge_None in He.
      rewrite (bool_decide_eq_true_2 (length _ <= i)) by lia.
      rewrite orb_true_r. eauto.
Qed.

Lemma obj_exec_simulation cap b m ops :
  abstracts cap b m ->
  ∃ b', exec b ops = Ret (b', (a_exec cap m ops).2) ∧
        abstracts cap b' (a_exec cap m ops).1.
Proof.
  revert b m. induction ops as [| o ops IH]; intros b m Habs; simpl; [eauto |].
  destruct (obj_step_simulation cap b m o Habs) as (b1 & -> & Habs1).
  destruct (a_step cap m o) as [m1 ok]. simpl in *.
  destruct (IH _ _ Habs1) as (b2 & -> & Habs2).
  destruct (a_exec cap m1 ops) as [m2 oks]. simpl in *. eauto.
Qed.

Lemma build_lookup cap b m id :
  abstracts cap b m -> Lookup (Build b) id = Ret (m !! id).
Proof.
  intros [Hl _ Hm H0 _]. unfold Lookup. simpl.
  case_bool_decide as Hi; simpl; [by rewrite Hi, H0 |].
  case_bool_decide as Hlen; simpl; rewrite Hm.
  - by rewrite lookup_ge_None_2 by lia.
  - destruct (lookup_lt_is_Some_2 (bslots_ b) id) as [e He]; [lia |].
    rewrite (at_lookup _ _ _ He), He. by destruct e.
Qed.

Lemma batch_lookup (tb : table T) (f : nat -> option T) ids done_ rest :
  (∀ id, Lookup tb id = Ret (f id)) -> length rest = length ids ->
  LookupBatch tb ids (length done_) (done_ ++ rest) = Ret (done_ ++ (f <$> ids)).
Proof.
  intros Hf. revert done_ rest.
  induction ids as [| id ids IH]; intros done_ rest Hlen; destruct rest as [| r rest];
    try discriminate; simpl; [done |].
  rewrite Hf. simpl. unfold at_. rewrite list_lookup_middle by done. simpl.
  rewrite insert_app_r_alt, Nat.sub_diag by lia. simpl.
  replace (length done_ + 1) with (length (done_ ++ [f id]))
    by (rewrite length_app; simpl; lia).
  change (f id :: rest) with ([f id] ++ rest). rewrite (assoc_L (++)).
  rewrite IH by (simpl in Hlen; lia). by rewrite <- (assoc_L (++)).
Qed.

End Lemmas.

(** C37. A generation of an object table is the map its builder was told: every
    [Set] and [Erase] answers as the map does, [Lookup] of the frozen table is
    the map's lookup for every id, [LookupBatch] is the lookup of each id in
    order, and the size and capacity are exact. *)
Theorem object_table_refines_map {T} (cap : nat) (ops : list (op T)) (ids : list nat)
    (results : list (option T)) :
  (Z.of_nat cap + 1 < 2 ^ 64)%Z -> length results = length ids ->
  ∃ b, let '(m, oks) := a_exec cap ∅ ops in
    exec (Create cap) ops = Ret (b, oks) ∧
    (∀ id, Lookup (Build b) id = Ret (m !! id)) ∧
    LookupBatch (Build b) ids 0 results = Ret ((fun id => m !! id) <$> ids) ∧
    size_ (Build b) = Z.of_nat (size m) ∧ capacity (Build b) = cap.
Proof.
  intros Hc Hlen.
  destruct (obj_exec_simulation cap _ _ ops (obj_create_abstracts cap Hc)) as (b & Hex & Habs).
  destruct (a_exec cap ∅ ops) as [m oks]. simpl in *.
  exists b. split; [done |].
  pose proof (fun id => build_lookup cap b m id Habs) as Hlk.
  split; [done |]. split; [by apply (batch_lookup (Build b) (fun id => m !! id) ids []) |].
  destruct Habs as [Hl _ _ _ Hs]. split; [done |]. unfold capacity. simpl. lia.
Qed.

Lemma object_table_refines_map_witness :
  ∃ b, let '(m, oks) := a_exec 4 ∅ [OSet 2 20; OSet 9 90; OSet 3 30; OErase 2; OErase 2] in
    exec (Create 4) [OSet 2 20; OSet 9 90; OSet 3 30; OErase 2; OErase 2] = Ret (b, oks) ∧
    (∀ id, Lookup (Build b) id = Ret (m !! id)) ∧
    LookupBatch (Build b) [3; 2; 0; 9] 0 (replicate 4 None) =
      Ret ((fun id => m !! id) <$> [3; 2; 0; 9]) ∧
    size_ (Build b) = Z.of_nat (size m) ∧ capacity (Build b) = 4.
Proof. apply (object_table_refines_map 4); [lia | reflexivity]. Defined.

End Obj.
