(* ===== verification/Continuation.v ===== *)
(** * [ContinuationTable]: generation-checked tokens for packets that are away

    Models [core/dataplane/continuation.h]. A slot holds a 32-bit generation
    (odd while live), the owner's free-list link and the target's words. The
    sequential operations [Issue], [Retire] and [Resolve] are composed of the
    single memory accesses the C++ makes, and the concurrent machine
    ([cstep]) interleaves those accesses: one owner thread that issues and
    retires, any number of readers that resolve arbitrary (also forged)
    handles. Atomic accesses interleave one at a time; the release/acquire
    annotations of the source are what makes that the right granularity. *)

From S2P Require Import Prelude.
From stdpp Require Import list_numbers.

Open Scope Z_scope.

Module Cont.

Definition kNil : nat := 0.

Inductive ContinuationError := kInvalidCapacity | kOutOfMemory.

(** [ContinuationHandle]: an id and the generation of its slot. *)
Record handle := mk_handle { hid : nat; hgen : Z }.

#[export] Instance handle_eq_dec : EqDecision handle.
Proof. solve_decision. Defined.

#[export] Instance handle_countable : Countable handle.
Proof.
  refine (inj_countable (fun h => (hid h, hgen h))
            (fun p => Some (mk_handle p.1 p.2)) _).
  by intros [].
Defined.

Definition kNoContinuation : handle := mk_handle 0 0.

Record Slot := mk_slot { generation : Z; next_free : nat; words : list Z }.

Record t := mk {
  slots_ : list Slot;
  capacity_ : nat;
  free_head_ : nat;
  free_tail_ : nat;
  size_ : Z;
  quarantined_ : Z
}.

Definition with_slots (tb : t) (ss : list Slot) : t :=
  mk ss (capacity_ tb) (free_head_ tb) (free_tail_ tb) (size_ tb) (quarantined_ tb).

Definition set_generation (g : Z) (s : Slot) : Slot :=
  mk_slot g (next_free s) (words s).
Definition set_next_free (n : nat) (s : Slot) : Slot :=
  mk_slot (generation s) n (words s).
Definition set_word (i : nat) (w : Z) (s : Slot) : Slot :=
  mk_slot (generation s) (next_free s) (<[i:=w]> (words s)).

Section Model.
(** [sizeof(Target)]; a target is its bytes. *)
Variable target_size : nat.

Definition kWords : nat := (target_size + 7) / 8.
Definition slot_bytes : Z := 8 + 8 * Z.of_nat kWords.

Definition target := list Z.

(** What [memcpy] of a target into the zeroed word buffer leaves in word [i],
    and what copying the words back out gives. *)
Definition target_word (tg : target) (i : nat) : Z :=
  little_endian_to_Z 8
    (take 8 (drop (8 * i) (tg ++ replicate (8 * kWords - target_size) 0))).

Definition encode (tg : target) : list Z := target_word tg <$> seq 0 kWords.

Definition decode (ws : list Z) : target :=
  take target_size (mjoin ((fun w => Z_to_little_endian 8 8 w) <$> ws)).

(** The constructor: slot 0 is the nil sentinel, the others are linked in
    order. *)
Definition init_slot (capacity i : nat) : Slot :=
  mk_slot 0 (if bool_decide (i = 0%nat) then kNil
             else if bool_decide (i = capacity) then kNil else (i + 1)%nat)
    (replicate kWords 0).

Definition construct (capacity : nat) : t :=
  mk (init_slot capacity <$> seq 0 (capacity + 1)) capacity 1 capacity 0 0.

(** [Create]; [slots_ok] and [table_ok] say whether the two allocations
    succeed. *)
Definition Create (slots_ok table_ok : bool) (capacity : nat)
    : ContinuationError + t :=
  if bool_decide (capacity = 0%nat) || bool_decide (2 ^ 32 - 1 <= Z.of_nat capacity)
  then inl kInvalidCapacity
  else if bool_decide ((2 ^ 64 - 1) / slot_bytes < Z.of_nat capacity + 1)
  then inl kInvalidCapacity
  else if negb slots_ok then inl kOutOfMemory
  else if negb table_ok then inl kOutOfMemory
  else inr (construct capacity).

(** ** The owner's accesses *)

(** [Issue] up to [StoreTarget]: takes the head of the free list. *)
Definition issue_begin (tb : t) : run (option nat * t) :=
  if bool_decide (free_head_ tb = kNil) then Ret (None, tb)
  else
    let index := free_head_ tb in
    slot ← at_ (slots_ tb) index;
    let head := next_free slot in
    let tail := if bool_decide (head = kNil) then kNil else free_tail_ tb in
    mret (Some index, mk (slots_ tb) (capacity_ tb) head tail (size_ tb) (quarantined_ tb)).

(** One store of [StoreTarget]. *)
Definition store_word (tb : t) (index i : nat) (w : Z) : run t :=
  slot ← at_ (slots_ tb) index;
  _ ← at_ (words slot) i;
  mret (with_slots tb (<[index:=set_word i w slot]> (slots_ tb))).

(** The generation store that makes the slot live, and the counter. *)
Definition issue_publish (tb : t) (index : nat) : run (handle * t) :=
  slot ← at_ (slots_ tb) index;
  let g := wrap 32 (generation slot + 1) in
  mret (mk_handle index g,
        mk (<[index:=set_generation g slot]> (slots_ tb)) (capacity_ tb)
           (free_head_ tb) (free_tail_ tb) (wrap 32 (size_ tb + 1)) (quarantined_ tb)).

Fixpoint store_words (tb : t) (index i : nat) (ws : list Z) : run t :=
  match ws with
  | [] => Ret tb
  | w :: rest => tb' ← store_word tb index i w; store_words tb' index (i + 1) rest
  end.

Definition StoreTarget (tb : t) (index : nat) (tg : target) : run t :=
  store_words tb index 0 (encode tg).

Definition Issue (tb : t) (tg : target) : run (handle * t) :=
  '(o, tb1) ← issue_begin tb;
  match o with
  | None => Ret (kNoContinuation, tb)
  | Some index => tb2 ← StoreTarget tb1 index tg; issue_publish tb2 index
  end.

(** The live slot for the handle (owner's side). *)
Definition Live (tb : t) (h : handle) : run (option Slot) :=
  if bool_decide (hid h = 0%nat) || bool_decide (capacity_ tb < hid h)%nat
  then Ret None
  else
    slot ← at_ (slots_ tb) (hid h);
    mret (if bool_decide (generation slot = hgen h) && Z.odd (generation slot)
          then Some slot else None).

Definition Retire (tb : t) (h : handle) : run (bool * t) :=
  live ← Live tb h;
  match live with
  | None => Ret (false, tb)
  | Some slot =>
      let index := hid h in
      let g := wrap 32 (generation slot + 1) in
      let size := wrap 32 (size_ tb - 1) in
      if bool_decide (g = 0) then
        Ret (true, mk (<[index:=set_generation g slot]> (slots_ tb)) (capacity_ tb)
                     (free_head_ tb) (free_tail_ tb) size
                     (wrap 32 (quarantined_ tb + 1)))
      else
        let ss := <[index:=set_next_free kNil (set_generation g slot)]> (slots_ tb) in
        if bool_decide (free_tail_ tb = kNil) then
          Ret (true, mk ss (capacity_ tb) index index size (quarantined_ tb))
        else
          last ← at_ ss (free_tail_ tb);
          mret (true, mk (<[free_tail_ tb:=set_next_free index last]> ss)
                        (capacity_ tb) (free_head_ tb) index size (quarantined_ tb))
  end.

(** ** The readers' accesses *)

(** [Resolve] up to and including the first load of the generation. *)
Definition resolve_begin (tb : t) (h : handle) : run bool :=
  if bool_decide (hid h = 0%nat) || bool_decide (capacity_ tb < hid h)%nat
     || negb (Z.odd (hgen h))
  then Ret false
  else slot ← at_ (slots_ tb) (hid h); mret (bool_decide (generation slot = hgen h)).

(** One load of [LoadTarget]. *)
Definition load_word (tb : t) (h : handle) (i : nat) : run Z :=
  slot ← at_ (slots_ tb) (hid h); at_ (words slot) i.

(** The second load of the generation and the result. *)
Definition resolve_end (tb : t) (h : handle) (ws : list Z) : run (option target) :=
  slot ← at_ (slots_ tb) (hid h);
  mret (if bool_decide (generation slot = hgen h) then Some (decode ws) else None).

Fixpoint load_words (tb : t) (h : handle) (i n : nat) : run (list Z) :=
  match n with
  | O => Ret []
  | S n' => w ← load_word tb h i; ws ← load_words tb h (i + 1) n'; mret (w :: ws)
  end.

Definition Resolve (tb : t) (h : handle) : run (option target) :=
  found ← resolve_begin tb h;
  if (found : bool) then
    ws ← load_words tb h 0 kWords;
    resolve_end tb h ws
  else Ret None.

(** ** The concurrent machine *)

Inductive owner_pc :=
  | OIdle
  | OStore (index : nat) (tg : target) (i : nat).   (* words below [i] are stored *)

Inductive reader_pc :=
  | RLoading (h : handle) (acc : list Z).           (* words already loaded *)

(** [live], [issued] and [queue] are the history: the continuations issued and
    not retired, every handle ever issued, and the free slots in the order
    they were freed. *)
Record cstate := mk_cstate {
  tb : t;
  owner : owner_pc;
  readers : gmap nat reader_pc;
  live : gmap handle target;
  issued : gset handle;
  queue : list nat
}.

Inductive event :=
  | EInternal
  | EIssued (h : handle) (tg : target)
  | EFull
  | ERetired (h : handle) (ok : bool)
  | EResolved (r : nat) (h : handle) (result : option target).

Definition byte_ok (b : Z) : Prop := 0 <= b < 2 ^ 8.
Definition valid_target (tg : target) : Prop :=
  length tg = target_size ∧ Forall byte_ok tg.

Inductive cstep : cstate -> event -> cstate -> Prop :=
  | cs_issue_full c tb' :
      owner c = OIdle -> issue_begin (tb c) = Ret (None, tb') ->
      cstep c EFull (mk_cstate tb' OIdle (readers c) (live c) (issued c) (queue c))
  | cs_issue_begin c tb' index tg :
      owner c = OIdle -> valid_target tg ->
      issue_begin (tb c) = Ret (Some index, tb') ->
      cstep c EInternal
        (mk_cstate tb' (OStore index tg 0) (readers c) (live c) (issued c)
           (tail (queue c)))
  | cs_issue_word c tb' index tg i :
      owner c = OStore index tg i -> (i < kWords)%nat ->
      store_word (tb c) index i (target_word tg i) = Ret tb' ->
      cstep c EInternal
        (mk_cstate tb' (OStore index tg (i + 1)) (readers c) (live c) (issued c) (queue c))
  | cs_issue_publish c tb' index tg h :
      owner c = OStore index tg kWords ->
      issue_publish (tb c) index = Ret (h, tb') ->
      cstep c (EIssued h tg)
        (mk_cstate tb' OIdle (readers c) (<[h:=tg]> (live c)) ({[h]} ∪ issued c) (queue c))
  | cs_retire c tb' h ok :
      owner c = OIdle -> Retire (tb c) h = Ret (ok, tb') ->
      cstep c (ERetired h ok)
        (mk_cstate tb' OIdle (readers c) (delete h (live c)) (issued c)
           (if ok && bool_decide (hgen h <> 2 ^ 32 - 1)
            then queue c ++ [hid h] else queue c))
  | cs_resolve_miss c r h :
      readers c !! r = None -> resolve_begin (tb c) h = Ret false ->
      cstep c (EResolved r h None) c
  | cs_resolve_begin c r h :
      readers c !! r = None -> resolve_begin (tb c) h = Ret true ->
      cstep c EInternal
        (mk_cstate (tb c) (owner c) (<[r:=RLoading h []]> (readers c)) (live c)
           (issued c) (queue c))
  | cs_resolve_word c r h acc w :
      readers c !! r = Some (RLoading h acc) -> (length acc < kWords)%nat ->
      load_word (tb c) h (length acc) = Ret w ->
      cstep c EInternal
        (mk_cstate (tb c) (owner c) (<[r:=RLoading h (acc ++ [w])]> (readers c))
           (live c) (issued c) (queue c))
  | cs_resolve_end c r h acc result :
      readers c !! r = Some (RLoading h acc) -> length acc = kWords ->
      resolve_end (tb c) h acc = Ret result ->
      cstep c (EResolved r h result)
        (mk_cstate (tb c) (owner c) (delete r (readers c)) (live c) (issued c) (queue c)).

Definition cinit (capacity : nat) : cstate :=
  mk_cstate (construct capacity) OIdle ∅ ∅ ∅ (seq 1 capacity).

Inductive reachable (capacity : nat) : cstate -> Prop :=
  | reach_init : reachable capacity (cinit capacity)
  | reach_step c e c' : reachable capacity c -> cstep c e c' -> reachable capacity c'.

End Model.

(** ** The target's bytes *)

Section Bytes.
Variable target_size : nat.
Abbreviation kWords := (kWords target_size).

Lemma kWords_cover : (target_size <= 8 * kWords)%nat.
Proof. unfold Cont.kWords. pose proof (Nat.div_mod_eq (target_size + 7) 8).
  pose proof (Nat.mod_upper_bound (target_size + 7) 8). lia. Qed.

Lemma join_chunks {A} n (l : list A) :
  length l = (8 * n)%nat ->
  mjoin ((fun i => take 8 (drop (8 * i) l)) <$> seq 0 n) = l.
Proof.
  revert l. induction n as [| n IH]; intros l Hl.
  - symmetry. apply nil_length_inv. lia.
  - simpl seq. rewrite fmap_cons, <- fmap_S_seq, <- list_fmap_compose. simpl mjoin.
    rewrite <- (take_drop 8 l) at 2. rewrite drop_0. f_equal.
    rewrite <- (IH (drop 8 l)) by (rewrite length_drop; lia).
    f_equal. apply list_fmap_ext. intros _ i _. simpl.
    rewrite drop_drop. do 2 f_equal. lia.
Qed.

Lemma encode_length tg : length (encode target_size tg) = kWords.
Proof. unfold encode. by rewrite length_fmap, length_seq. Qed.

Lemma encode_lookup tg i :
  (i < kWords)%nat -> encode target_size tg !! i = Some (target_word target_size tg i).
Proof. intros Hi. unfold encode. rewrite list_lookup_fmap, lookup_seq_lt by done. done. Qed.

(** Copying a target in and out gives it back. *)
Lemma decode_encode tg :
  valid_target target_size tg -> decode target_size (encode target_size tg) = tg.
Proof.
  intros [Hlen Hb]. pose proof kWords_cover as Hk.
  set (l := tg ++ replicate (8 * kWords - target_size) 0).
  assert (length l = (8 * kWords)%nat) as Hl.
  { unfold l. rewrite length_app, length_replicate. lia. }
  assert (Forall byte_ok l) as Hbl.
  { apply Forall_app. split; [done |]. apply Forall_replicate. done. }
  unfold decode, encode. rewrite <- list_fmap_compose.
  replace (compose _ _ <$> seq 0 kWords)
    with ((fun i => take 8 (drop (8 * i) l)) <$> seq 0 kWords).
  - rewrite join_chunks by done. unfold l. by rewrite <- Hlen, take_app_length.
  - apply list_fmap_ext. intros i x Hi. simpl. unfold target_word. fold l.
    apply lookup_seq in Hi as [-> Hi]. simpl.
    symmetry. apply Z_to_little_endian_to_Z; [| lia |].
    + rewrite length_take, length_drop, Hl. lia.
    + apply Forall_take, Forall_drop, Hbl.
Qed.

End Bytes.

(** ** The free list *)

(** The links from [head] visit exactly [q]. *)
Fixpoint chain (ss : list Slot) (head : nat) (q : list nat) : Prop :=
  match q with
  | [] => head = kNil
  | i :: q' => head = i ∧ i <> kNil ∧ ∃ s, ss !! i = Some s ∧ chain ss (next_free s) q'
  end.

Lemma chain_ext ss ss' head q :
  (∀ i, i ∈ q -> next_free <$> ss' !! i = next_free <$> ss !! i) ->
  chain ss head q -> chain ss' head q.
Proof.
  revert head. induction q as [| i q IH]; intros head Hext; simpl; [done |].
  intros (-> & Hi & s & Hs & Hq). split; [done |]. split; [done |].
  pose proof (Hext i ltac:(set_solver)) as Hx. rewrite Hs in Hx.
  destruct (ss' !! i) as [s' |] eqn:Hs'; [| done]. simpl in Hx. injection Hx as Hx.
  exists s'. split; [done |]. rewrite Hx. apply IH; [| done]. set_solver.
Qed.

Lemma next_free_insert_same (ss : list Slot) i s s' j :
  ss !! i = Some s -> next_free s' = next_free s ->
  next_free <$> <[i:=s']> ss !! j = next_free <$> ss !! j.
Proof.
  intros Hs Hn. destruct (decide (i = j)) as [<- |].
  - rewrite list_lookup_insert_eq by by eapply lookup_lt_Some.
    rewrite Hs. simpl. by rewrite Hn.
  - by rewrite list_lookup_insert_ne.
Qed.

Lemma chain_lookup ss head q i : chain ss head q -> i ∈ q -> i <> kNil ∧ is_Some (ss !! i).
Proof.
  revert head. induction q as [| j q IH]; intros head Hc Hi; [set_solver |].
  destruct Hc as (-> & Hj & s & Hs & Hq).
  apply elem_of_cons in Hi as [-> | Hi]; [eauto |]. by apply (IH (next_free s)).
Qed.

(** Linking slot [i] after the last one appends it. *)
Lemma chain_append ss head q lst s i :
  chain ss head (q ++ [lst]) -> NoDup (q ++ [lst]) -> ss !! lst = Some s ->
  i <> kNil -> i ∉ q ++ [lst] -> (∃ si, ss !! i = Some si ∧ next_free si = kNil) ->
  chain (<[lst:=set_next_free i s]> ss) head (q ++ [lst] ++ [i]).
Proof.
  intros Hc Hnd Hs Hi0 Hiq (si & Hsi & Hnext).
  revert head Hc. induction q as [| j q IH]; intros head Hc.
  - destruct Hc as (-> & Hl & s0 & Hs0 & _). simpl.
    split; [done |]. split; [done |]. eexists.
    rewrite list_lookup_insert_eq by by eapply lookup_lt_Some.
    split; [done |]. simpl. split; [done |]. split; [done |].
    exists si. rewrite list_lookup_insert_ne by set_solver. done.
  - destruct Hc as (-> & Hl & s0 & Hs0 & Hq). simpl in *.
    apply NoDup_cons in Hnd as [Hj Hnd].
    split; [done |]. split; [done |]. exists s0.
    rewrite list_lookup_insert_ne by set_solver. split; [done |].
    apply not_elem_of_cons in Hiq as [_ Hiq]. by apply IH.
Qed.

(** ** The invariant

    [lg i] is how many times slot [i]'s generation has advanced, unbounded; a
    slot stops at [2^32], where the 32-bit generation wraps and the slot is
    quarantined. *)

Definition busy_slot (o : owner_pc) : list nat :=
  match o with
  | OIdle => []
  | OStore index _ _ => [index]
  end.

Section Invariant.
Variable target_size : nat.
Abbreviation kWords := (kWords target_size).
Abbreviation encode := (encode target_size).

Record inv (lg : nat -> Z) (c : cstate) : Prop := {
  i_len : length (slots_ (tb c)) = (capacity_ (tb c) + 1)%nat;
  i_cap : Z.of_nat (capacity_ (tb c)) < 2 ^ 32 - 1;
  i_slot : ∀ i s, slots_ (tb c) !! i = Some s ->
    length (words s) = kWords ∧ generation s = wrap 32 (lg i) ∧ 0 <= lg i <= 2 ^ 32;
  i_chain : chain (slots_ (tb c)) (free_head_ (tb c)) (queue c);
  i_tail : free_tail_ (tb c) = default kNil (last (queue c));
  i_nodup : NoDup (busy_slot (owner c) ++ queue c);
  i_free : ∀ i, i ∈ busy_slot (owner c) ++ queue c ->
    (1 <= i <= capacity_ (tb c))%nat ∧ Z.even (lg i) = true ∧ lg i < 2 ^ 32;
  i_busy : ∀ index tg k, owner c = OStore index tg k ->
    valid_target target_size tg ∧ (k <= kWords)%nat ∧
    ∀ s, slots_ (tb c) !! index = Some s -> take k (words s) = take k (encode tg);
  i_live : ∀ h tg, live c !! h = Some tg ->
    (1 <= hid h <= capacity_ (tb c))%nat ∧ hgen h = lg (hid h) ∧
    Z.odd (hgen h) = true ∧ valid_target target_size tg ∧
    ∀ s, slots_ (tb c) !! hid h = Some s -> words s = encode tg;
  i_odd : ∀ i, (1 <= i <= capacity_ (tb c))%nat -> Z.odd (lg i) = true ->
    is_Some (live c !! mk_handle i (lg i));
  i_issued : ∀ h, h ∈ issued c -> Z.odd (hgen h) = true ∧ hgen h <= lg (hid h);
  i_live_issued : ∀ h, is_Some (live c !! h) -> h ∈ issued c;
  i_readers : ∀ r h acc, readers c !! r = Some (RLoading h acc) ->
    (1 <= hid h <= capacity_ (tb c))%nat ∧ Z.odd (hgen h) = true ∧
    hgen h <= lg (hid h) ∧ (length acc <= kWords)%nat ∧
    (lg (hid h) = hgen h -> ∀ s, slots_ (tb c) !! hid h = Some s ->
       acc = take (length acc) (words s));
  i_size : size_ (tb c) = Z.of_nat (size (live c));
  i_count : Z.of_nat (length (busy_slot (owner c)) + length (queue c) + size (live c))
              + quarantined_ (tb c) = Z.of_nat (capacity_ (tb c));
  i_quar : 0 <= quarantined_ (tb c)
}.

(** An odd 32-bit generation names one value of the unbounded counter. *)
Lemma wrap_odd x g :
  0 <= x <= 2 ^ 32 -> wrap 32 x = g -> Z.odd g = true -> x = g.
Proof.
  intros Hx Hw Ho. destruct (decide (x = 2 ^ 32)) as [-> | Hne].
  - unfold wrap in Hw. rewrite Z.mod_same in Hw by lia. subst g. done.
  - rewrite wrap_small in Hw by (unfold in_width; lia). done.
Qed.

Lemma wrap_even_lt x : 0 <= x < 2 ^ 32 -> Z.even x = true -> wrap 32 (x + 1) = x + 1.
Proof.
  intros Hx He. apply wrap_small. unfold in_width.
  assert (x <> 2 ^ 32 - 1) by (intros ->; discriminate). lia.
Qed.

Lemma inv_slot lg c i :
  inv lg c -> (i <= capacity_ (tb c))%nat -> ∃ s, slots_ (tb c) !! i = Some s.
Proof. intros Hi Hle. apply lookup_lt_is_Some_2. rewrite (i_len _ _ Hi). lia. Qed.

Lemma inv_init capacity :
  (1 <= capacity)%nat -> Z.of_nat capacity < 2 ^ 32 - 1 ->
  inv (fun _ => 0) (cinit target_size capacity).
Proof.
  intros H1 Hc.
  assert (∀ i s, (init_slot target_size capacity <$> seq 0 (capacity + 1)) !! i = Some s ->
            s = init_slot target_size capacity i ∧ (i <= capacity)%nat) as Hslot.
  { intros i s Hs. rewrite list_lookup_fmap in Hs.
    destruct (seq 0 (capacity + 1) !! i) eqn:Hi; [| done].
    apply lookup_seq in Hi as [-> Hi]. simpl in Hs. injection Hs as <-.
    split; [done | lia]. }
  assert (∀ n, (n <= capacity)%nat ->
    chain (init_slot target_size capacity <$> seq 0 (capacity + 1))
      (if decide (n = 0%nat) then kNil else capacity - n + 1)%nat
      (seq (capacity - n + 1) n)) as Hchain.
  { induction n as [| n IH]; intros Hn; [done |].
    rewrite decide_False by lia. cbn [seq chain].
    split; [lia |]. split; [unfold kNil; lia |].
    eexists. split.
    { rewrite list_lookup_fmap, lookup_seq_lt by lia. done. }
    simpl. specialize (IH ltac:(lia)).
    replace (S (capacity - S n + 1)) with (capacity - n + 1)%nat by lia.
    destruct (decide (n = 0%nat)) as [-> | Hn0].
    - rewrite bool_decide_eq_false_2 by lia. by rewrite bool_decide_eq_true_2 by lia.
    - rewrite bool_decide_eq_false_2, bool_decide_eq_false_2 by lia.
      by replace (capacity - S n + 1 + 1)%nat with (capacity - n + 1)%nat by lia. }
  specialize (Hchain capacity ltac:(lia)). rewrite Nat.sub_diag in Hchain.
  rewrite decide_False in Hchain by lia. simpl in Hchain.
  split; simpl; try done.
  - by rewrite length_fmap, length_seq.
  - intros i s Hs. destruct (Hslot i s Hs) as [-> _]. simpl.
    rewrite length_replicate. done.
  - destruct capacity as [| n]; [lia |]. rewrite seq_S, last_snoc. simpl. lia.
  - apply NoDup_seq.
  - intros i Hi. apply elem_of_seq in Hi. split; [lia | done].
  - intros h [x Hx]. by rewrite lookup_empty in Hx.
  - rewrite length_seq, map_size_empty. lia.
Qed.

Definition bump (lg : nat -> Z) (i : nat) : nat -> Z :=
  fun j => if decide (j = i) then lg i + 1 else lg j.

Lemma bump_eq lg i : bump lg i i = lg i + 1.
Proof. unfold bump. by rewrite decide_True. Qed.

Lemma bump_ne lg i j : j <> i -> bump lg i j = lg j.
Proof. intros. unfold bump. by rewrite decide_False. Qed.

Lemma bump_ge lg i j : lg j <= bump lg i j.
Proof. unfold bump. case_decide; subst; lia. Qed.

Lemma odd_succ_even x : Z.even x = true -> Z.odd (x + 1) = true.
Proof. intros. by rewrite Z.add_1_r, Z.odd_succ. Qed.

Lemma even_succ_odd x : Z.odd x = true -> Z.even (x + 1) = true.
Proof. intros. by rewrite Z.add_1_r, Z.even_succ. Qed.

Lemma odd_not_even x : Z.odd x = true -> Z.even x = true -> False.
Proof. rewrite <- Z.negb_even. by destruct (Z.even x). Qed.

Lemma odd_lt_top x : Z.odd x = true -> x <= 2 ^ 32 -> x < 2 ^ 32.
Proof. intros Ho Hx. destruct (decide (x = 2 ^ 32)) as [-> |]; [done | lia]. Qed.

(** No live continuation and no read in progress is at a free slot. *)
Lemma inv_free_not_live lg c i h tg :
  inv lg c -> i ∈ busy_slot (owner c) ++ queue c -> live c !! h = Some tg -> hid h <> i.
Proof.
  intros Hi Hf Hl <-. destruct (i_free _ _ Hi _ Hf) as (_ & He & _).
  destruct (i_live _ _ Hi _ _ Hl) as (_ & Hg & Ho & _). rewrite Hg in Ho.
  by eapply odd_not_even.
Qed.

Lemma inv_issue_begin lg c tb' index tg :
  inv lg c -> owner c = OIdle -> valid_target target_size tg ->
  issue_begin (tb c) = Ret (Some index, tb') ->
  inv lg (mk_cstate tb' (OStore index tg 0) (readers c) (live c) (issued c)
            (tail (queue c))).
Proof.
  intros Hi Ho Hv Hb. unfold issue_begin in Hb.
  case_bool_decide as Hh; [done |]. run_inv.
  pose proof (i_chain _ _ Hi) as Hch. pose proof (i_tail _ _ Hi) as Htl.
  destruct (queue c) as [| i q] eqn:Hq; [done |].
  destruct Hch as (He & Hi0 & s & Hs & Hch). simplify_eq.
  destruct Hi as [Hlen Hcap Hslot _ _ Hnd Hfree Hbusy Hlive Hodd Hiss Hli Hrd Hsz Hcnt Hqu].
  rewrite Ho, Hq in *. split; simpl in *; try done.
  - destruct q as [| j q']; simpl in *.
    + subst. by rewrite bool_decide_eq_true_2.
    + destruct Hch as (Hj & Hj0 & _). rewrite bool_decide_eq_false_2 by congruence. done.
  - intros index tg' k [= <- <- <-]. split; [done |]. split; [lia | done].
Qed.

Lemma inv_issue_word lg c tb' index tg i :
  inv lg c -> owner c = OStore index tg i -> (i < kWords)%nat ->
  store_word (tb c) index i (target_word target_size tg i) = Ret tb' ->
  inv lg (mk_cstate tb' (OStore index tg (i + 1)) (readers c) (live c) (issued c) (queue c)).
Proof.
  intros Hi Ho Hk Hst. unfold store_word in Hst. run_inv.
  rename x into slot. rename H into Hs.
  assert (index ∈ busy_slot (owner c) ++ queue c) as Hix by (rewrite Ho; set_solver).
  pose proof (fun h tg => inv_free_not_live _ _ index h tg Hi Hix) as Hnl.
  destruct (i_slot _ _ Hi _ _ Hs) as (Hwl & _ & _).
  destruct Hi as [Hlen Hcap Hslot Hch Htl Hnd Hfree Hbusy Hlive Hodd Hiss Hli Hrd Hsz Hcnt Hqu].
  rewrite Ho in *.
  destruct (Hbusy _ _ _ eq_refl) as (Hv & _ & Htk).
  split; simpl; rewrite ?length_insert; try done.
  - intros j s' Hj. apply list_lookup_insert_Some in Hj as [(<- & <- & _) | [_ Hj]];
      [| by apply Hslot]. simpl. rewrite length_insert. by apply Hslot.
  - eapply chain_ext; [| done]. intros j _. by eapply next_free_insert_same.
  - intros index' tg' k [= <- <- <-]. split; [done |]. split; [lia |].
    intros s' Hs'. apply list_lookup_insert_Some in Hs' as [(_ & <- & _) | [? _]]; [| done].
    simpl. rewrite Nat.add_1_r.
    rewrite (take_S_r _ _ _ (list_lookup_insert_eq (words slot) i _ ltac:(lia))).
    rewrite (take_S_r _ _ _ (encode_lookup target_size tg i Hk)).
    rewrite take_insert_ge by lia. by rewrite (Htk _ Hs).
  - intros h tg' Hl. destruct (Hlive _ _ Hl) as (? & ? & ? & ? & Hw).
    repeat (split; [done |]). intros s' Hs'.
    apply list_lookup_insert_Some in Hs' as [(He & _) | [_ Hs']]; [| by apply Hw].
    by destruct (Hnl _ _ Hl).
  - intros r h acc Hr. destruct (Hrd _ _ _ Hr) as (? & Hod & ? & ? & Hw).
    repeat (split; [done |]). intros Hlg s' Hs'.
    apply list_lookup_insert_Some in Hs' as [(He & _) | [_ Hs']]; [| by apply Hw].
    destruct (Hfree index Hix) as (_ & Hev & _).
    rewrite <- He in Hlg. rewrite <- Hlg in Hod. exfalso. by eapply odd_not_even.
Qed.

Lemma inv_issue_publish lg c tb' index tg h :
  inv lg c -> owner c = OStore index tg kWords ->
  issue_publish (tb c) index = Ret (h, tb') ->
  inv (bump lg index)
    (mk_cstate tb' OIdle (readers c) (<[h:=tg]> (live c)) ({[h]} ∪ issued c) (queue c)) ∧
  h = mk_handle index (lg index + 1) ∧ h ∉ issued c.
Proof.
  intros Hi Ho Hst. unfold issue_publish in Hst. run_inv.
  rename x into slot. rename H into Hs.
  assert (index ∈ busy_slot (owner c) ++ queue c) as Hix by (rewrite Ho; set_solver).
  pose proof (fun h tg => inv_free_not_live _ _ index h tg Hi Hix) as Hnl.
  destruct (i_slot _ _ Hi _ _ Hs) as (Hwl & Hg & Hlg).
  destruct (i_free _ _ Hi _ Hix) as (Hrange & Hev & Htop).
  assert (wrap 32 (generation slot + 1) = lg index + 1) as Hgen.
  { rewrite Hg, (wrap_small 32 (lg index)) by (unfold in_width; lia).
    apply wrap_even_lt; [lia | done]. }
  rewrite Hgen. set (h := mk_handle index (lg index + 1)).
  assert (live c !! h = None) as Hnone.
  { destruct (live c !! h) eqn:Hl; [| done]. by destruct (Hnl _ _ Hl). }
  assert (h ∉ issued c) as Hfresh.
  { intros Hin. destruct (i_issued _ _ Hi _ Hin) as [_ Hle]. simpl in Hle. lia. }
  destruct (i_busy _ _ Hi _ _ _ Ho) as (Hv & _ & Htk).
  split; [| done].
  destruct Hi as [Hlen Hcap Hslot Hch Htl Hnd Hfree Hbusy Hlive Hodd Hiss Hli Hrd Hsz Hcnt Hqu].
  rewrite Ho in *. simpl in *. apply NoDup_cons in Hnd as [Hnq Hnd].
  assert (∀ j, j ∈ queue c -> bump lg index j = lg j) as Hq.
  { intros j Hj. apply bump_ne. by intros ->. }
  split; simpl; rewrite ?length_insert; try done.
  - intros j s' Hj. apply list_lookup_insert_Some in Hj as [(<- & <- & _) | [Hne Hj]].
    + simpl. rewrite bump_eq, wrap_small; [lia |]. unfold in_width.
      assert (lg index <> 2 ^ 32 - 1) by (intros He; by rewrite He in Hev). lia.
    + rewrite bump_ne by done. by apply Hslot.
  - eapply chain_ext; [| done]. intros j _. by eapply next_free_insert_same.
  - intros j Hj. rewrite Hq by done. apply Hfree. apply elem_of_cons. by right.
  - intros h' tg' Hl. destruct (decide (h = h')) as [<- | Hne].
    + rewrite lookup_insert_eq in Hl. injection Hl as <-. simpl.
      rewrite bump_eq. split; [done |]. split; [done |].
      split; [by apply odd_succ_even |]. split; [done |].
      intros s' Hs'. apply list_lookup_insert_Some in Hs' as [(_ & <- & _) | [? _]]; [| done].
      simpl. specialize (Htk _ Hs).
      rewrite !take_ge in Htk by (rewrite ?encode_length; lia). done.
    + rewrite lookup_insert_ne in Hl by done.
      destruct (Hlive _ _ Hl) as (? & ? & ? & ? & Hw).
      rewrite bump_ne by by eapply Hnl. repeat (split; [done |]).
      intros s' Hs'. apply list_lookup_insert_Some in Hs' as [(He & _) | [_ Hs']];
        [by destruct (Hnl _ _ Hl) | by apply Hw].
  - intros j Hj Hod. destruct (decide (j = index)) as [-> | Hne].
    + rewrite bump_eq, lookup_insert_eq. eauto.
    + rewrite bump_ne in * by done. rewrite lookup_insert_ne by (unfold h; congruence).
      by apply Hodd.
  - intros h' Hin. pose proof (bump_ge lg index (hid h')).
    apply elem_of_union in Hin as [->%elem_of_singleton | Hin].
    + simpl. rewrite bump_eq. split; [by apply odd_succ_even | lia].
    + destruct (Hiss _ Hin). split; [done | lia].
  - intros h' Hl. apply elem_of_union. destruct (decide (h = h')) as [<- | Hne].
    + left. by apply elem_of_singleton.
    + rewrite lookup_insert_ne in Hl by done. right. by apply Hli.
  - intros r h' acc Hr. destruct (Hrd _ _ _ Hr) as (? & Hod & Hle & ? & Hw).
    pose proof (bump_ge lg index (hid h')).
    split; [done |]. split; [done |]. split; [lia |]. split; [done |].
    intros Hlg' s' Hs'. destruct (decide (hid h' = index)) as [He | Hne].
    + rewrite He, bump_eq in Hlg'. rewrite He in Hle. lia.
    + rewrite bump_ne in Hlg' by done. rewrite list_lookup_insert_ne in Hs' by done.
      by apply Hw.
  - rewrite map_size_insert_None by done. rewrite Hsz, wrap_small; [lia |].
    unfold in_width. lia.
  - rewrite map_size_insert_None by done. lia.
Qed.

(** The slots after slot [i]'s generation advanced: the words are as before. *)
Definition bumped (lg : nat -> Z) (i : nat) (ss ss' : list Slot) : Prop :=
  length ss' = length ss ∧
  ∀ j s', ss' !! j = Some s' -> ∃ s, ss !! j = Some s ∧
     words s' = words s ∧ generation s' = wrap 32 (bump lg i j).

Lemma bumped_insert lg c i sl s' :
  inv lg c -> slots_ (tb c) !! i = Some sl -> words s' = words sl ->
  generation s' = wrap 32 (lg i + 1) ->
  bumped lg i (slots_ (tb c)) (<[i:=s']> (slots_ (tb c))).
Proof.
  intros Hi Hsl Hw Hg. split; [by rewrite length_insert |]. intros j s2 Hj.
  apply list_lookup_insert_Some in Hj as [(<- & <- & _) | [Hne Hj]].
  - exists sl. rewrite bump_eq. done.
  - exists s2. rewrite bump_ne by done. destruct (i_slot _ _ Hi _ _ Hj) as (_ & ? & _). done.
Qed.

Lemma bumped_relink lg i ss ss' k n sk :
  bumped lg i ss ss' -> ss' !! k = Some sk ->
  bumped lg i ss (<[k:=set_next_free n sk]> ss').
Proof.
  intros [Hl Hb] Hk. split; [by rewrite length_insert |]. intros j s2 Hj.
  apply list_lookup_insert_Some in Hj as [(<- & <- & _) | [Hne Hj]];
    [by apply (Hb _ sk) | by apply Hb].
Qed.

(** What every successful [Retire] does to the history, whatever happens to the
    free list. *)
Lemma inv_retire_core lg c tb' h queue' :
  inv lg c -> owner c = OIdle -> is_Some (live c !! h) ->
  bumped lg (hid h) (slots_ (tb c)) (slots_ tb') -> capacity_ tb' = capacity_ (tb c) ->
  chain (slots_ tb') (free_head_ tb') queue' ->
  free_tail_ tb' = default kNil (last queue') ->
  NoDup queue' ->
  (∀ i, i ∈ queue' -> i ∈ queue c ∨ i = hid h ∧ lg i + 1 < 2 ^ 32) ->
  size_ tb' = wrap 32 (size_ (tb c) - 1) ->
  Z.of_nat (length queue') + quarantined_ tb' =
    Z.of_nat (length (queue c)) + quarantined_ (tb c) + 1 ->
  0 <= quarantined_ tb' ->
  inv (bump lg (hid h)) (mk_cstate tb' OIdle (readers c) (delete h (live c)) (issued c) queue').
Proof.
  intros Hi Ho [tg Hl] [Hlen' Hss] Hcap' Hch' Htl' Hnd' Hq' Hsz' Hcnt' Hqu'.
  destruct (i_live _ _ Hi _ _ Hl) as (Hr & Hg & Hod & _).
  destruct (inv_slot lg c (hid h) Hi ltac:(lia)) as [sl Hsl].
  destruct (i_slot _ _ Hi _ _ Hsl) as (_ & _ & Hlgb).
  pose proof (odd_lt_top (lg (hid h)) ltac:(by rewrite <- Hg) (proj2 Hlgb)) as Htop.
  assert (size (live c) <> 0%nat) as Hpos.
  { intros Hz. apply map_size_empty_inv in Hz. by rewrite Hz in Hl. }
  destruct Hi as [Hlen Hcap Hslot Hch Htl Hnd Hfree Hbusy Hlive Hodd Hiss Hli Hrd Hsz Hcnt Hqu].
  rewrite Ho in *. simpl in *.
  assert (∀ h' tg', live c !! h' = Some tg' -> h' <> h -> hid h' <> hid h) as Hother.
  { intros h' tg' Hl' Hne He. apply Hne. destruct (Hlive _ _ Hl') as (_ & Hg' & _).
    destruct h, h'; simpl in *. congruence. }
  split; simpl; rewrite ?Hlen', ?Hcap'; try done.
  - intros j s' Hj. destruct (Hss _ _ Hj) as (s & Hs & -> & ->).
    destruct (Hslot _ _ Hs) as (? & _ & ?). split; [done |]. split; [done |].
    unfold bump. case_decide; subst; lia.
  - intros j Hj. destruct (Hq' j Hj) as [Hjq | [-> Hlt]].
    + destruct (Hfree j Hjq) as (? & He & ?).
      rewrite bump_ne; [done |]. intros ->. rewrite Hg in Hod. by eapply odd_not_even.
    + rewrite bump_eq. split; [done |]. split; [apply even_succ_odd; congruence | lia].
  - intros h' tg' Hl'. apply lookup_delete_Some in Hl' as [Hne Hl'].
    destruct (Hlive _ _ Hl') as (? & ? & ? & ? & Hw).
    rewrite bump_ne by (by eapply Hother). repeat (split; [done |]).
    intros s' Hs'. destruct (Hss _ _ Hs') as (s & Hs & -> & _). by apply Hw.
  - intros j Hj Hjo. destruct (decide (j = hid h)) as [-> | Hne].
    + rewrite bump_eq in Hjo. exfalso. eapply odd_not_even; [done |].
      apply even_succ_odd. congruence.
    + rewrite bump_ne in * by done. rewrite lookup_delete_ne; [by apply Hodd |].
      intros He. by rewrite He in Hne.
  - intros h' Hin. destruct (Hiss _ Hin). pose proof (bump_ge lg (hid h) (hid h')).
    split; [done | lia].
  - intros h' [x Hx]. apply lookup_delete_Some in Hx as [_ Hx]. by apply Hli; eauto.
  - intros r h' acc Hrr. destruct (Hrd _ _ _ Hrr) as (? & ? & Hle & ? & Hw).
    pose proof (bump_ge lg (hid h) (hid h')).
    split; [done |]. split; [done |]. split; [lia |]. split; [done |].
    intros Hlg' s' Hs'. destruct (Hss _ _ Hs') as (s & Hs & -> & _).
    apply Hw; [| done]. unfold bump in Hlg'. case_decide as He; [| done].
    rewrite He in Hle. lia.
  - rewrite map_size_delete_Some by eauto. rewrite Hsz', Hsz, wrap_small; [lia |].
    unfold in_width. lia.
  - rewrite map_size_delete_Some by eauto. lia.
Qed.

(** The owner's check of a handle agrees with the history. *)
Lemma live_agrees lg c h :
  inv lg c ->
  Live (tb c) h =
  Ret (match live c !! h with Some _ => slots_ (tb c) !! hid h | None => None end).
Proof.
  intros Hi. unfold Live.
  destruct (live c !! h) as [tg |] eqn:Hl.
  - destruct (i_live _ _ Hi _ _ Hl) as (Hr & Hg & Ho & _).
    destruct (inv_slot lg c (hid h) Hi ltac:(lia)) as [sl Hsl].
    destruct (i_slot _ _ Hi _ _ Hsl) as (_ & Hgen & Hb).
    pose proof (odd_lt_top (lg (hid h)) ltac:(by rewrite <- Hg) (proj2 Hb)) as Htop.
    rewrite bool_decide_eq_false_2, bool_decide_eq_false_2 by lia. simpl.
    rewrite (at_lookup _ _ _ Hsl), Hsl. simpl.
    rewrite wrap_small in Hgen by (unfold in_width; lia).
    rewrite bool_decide_eq_true_2 by congruence.
    replace (generation sl) with (hgen h) by congruence. by rewrite Ho.
  - destruct (decide (1 <= hid h <= capacity_ (tb c))%nat) as [Hr | Hr].
    + destruct (inv_slot lg c (hid h) Hi ltac:(lia)) as [sl Hsl].
      destruct (i_slot _ _ Hi _ _ Hsl) as (_ & Hgen & Hb).
      rewrite bool_decide_eq_false_2, bool_decide_eq_false_2 by lia. simpl.
      rewrite (at_lookup _ _ _ Hsl). simpl.
      case_bool_decide as He; [| done]. destruct (Z.odd (generation sl)) eqn:Ho; [| done].
      pose proof (wrap_odd _ _ Hb (eq_sym Hgen) Ho) as Hlg.
      destruct (i_odd _ _ Hi (hid h) Hr) as [tg Htg]; [by rewrite Hlg |].
      replace (mk_handle (hid h) (lg (hid h))) with h in Htg; [congruence |].
      destruct h as [i g]; simpl in *. congruence.
    + destruct (decide (hid h = 0%nat)) as [H0 | H0].
      { by rewrite bool_decide_eq_true_2. }
      by rewrite (bool_decide_eq_true_2 (capacity_ (tb c) < hid h)%nat), orb_true_r by lia.
Qed.

(** The three ways [Retire] ends, for a live handle. *)
Section RetireCases.
Context (lg : nat -> Z) (c : cstate) (h : handle) (sl : Slot).
Hypothesis Hi : inv lg c.
Hypothesis Ho : owner c = OIdle.
Hypothesis Hl : is_Some (live c !! h).
Hypothesis Hsl : slots_ (tb c) !! hid h = Some sl.

Lemma retire_facts :
  (1 <= hid h <= capacity_ (tb c))%nat ∧ generation sl = hgen h ∧
  hgen h = lg (hid h) ∧ 0 <= hgen h < 2 ^ 32 ∧ (hid h ∉ queue c) ∧ NoDup (queue c) ∧
  0 <= quarantined_ (tb c) < 2 ^ 32 - 1.
Proof.
  destruct Hl as [tg Htg]. destruct (i_live _ _ Hi _ _ Htg) as (Hr & Hg & Hod & _).
  destruct (i_slot _ _ Hi _ _ Hsl) as (_ & Hgen & Hb).
  pose proof (odd_lt_top (lg (hid h)) ltac:(by rewrite <- Hg) (proj2 Hb)) as Htop.
  rewrite wrap_small in Hgen by (unfold in_width; lia).
  pose proof (i_nodup _ _ Hi) as Hnd. rewrite Ho in Hnd. simpl in Hnd.
  pose proof (i_count _ _ Hi). pose proof (i_quar _ _ Hi). pose proof (i_cap _ _ Hi).
  split; [done |]. split; [congruence |]. split; [done |]. split; [lia |].
  split; [| split; [done | lia]].
  intros Hin. destruct (i_free _ _ Hi (hid h)) as (_ & He & _).
  - apply elem_of_app. by right.
  - rewrite Hg in Hod. by eapply odd_not_even.
Qed.

Lemma retire_quarantine :
  hgen h = 2 ^ 32 - 1 ->
  inv (bump lg (hid h))
    (mk_cstate (mk (<[hid h:=set_generation 0 sl]> (slots_ (tb c))) (capacity_ (tb c))
                  (free_head_ (tb c)) (free_tail_ (tb c)) (wrap 32 (size_ (tb c) - 1))
                  (wrap 32 (quarantined_ (tb c) + 1)))
       OIdle (readers c) (delete h (live c)) (issued c) (queue c)).
Proof.
  intros Hmax. destruct retire_facts as (Hr & Hgh & Hg & Hb & Hnq & Hnd & Hq).
  apply (inv_retire_core lg c); simpl; try done; try lia; try apply Hi; eauto.
  - eapply bumped_insert; try done. by rewrite <- Hg, Hmax.
  - eapply chain_ext; [| apply (i_chain _ _ Hi)]. intros j _.
    by eapply next_free_insert_same.
  - rewrite wrap_small; [lia | unfold in_width; lia].
  - rewrite wrap_small; [lia | unfold in_width; lia].
Qed.

Definition freed_slot : Slot := set_next_free kNil (set_generation (hgen h + 1) sl).

Lemma freed_bumped :
  hgen h + 1 < 2 ^ 32 ->
  bumped lg (hid h) (slots_ (tb c)) (<[hid h:=freed_slot]> (slots_ (tb c))) ∧
  chain (<[hid h:=freed_slot]> (slots_ (tb c))) (free_head_ (tb c)) (queue c).
Proof.
  intros Hmax. destruct retire_facts as (Hr & Hgh & Hg & Hb & Hnq & Hnd & Hq). split.
  - eapply bumped_insert; try done. simpl. rewrite wrap_small; [congruence |].
    unfold in_width. lia.
  - eapply chain_ext; [| apply (i_chain _ _ Hi)]. intros j Hj.
    rewrite list_lookup_insert_ne; [done |]. by intros <-.
Qed.

Lemma retire_first :
  hgen h + 1 < 2 ^ 32 -> queue c = [] ->
  inv (bump lg (hid h))
    (mk_cstate (mk (<[hid h:=freed_slot]> (slots_ (tb c))) (capacity_ (tb c))
                  (hid h) (hid h) (wrap 32 (size_ (tb c) - 1)) (quarantined_ (tb c)))
       OIdle (readers c) (delete h (live c)) (issued c) [hid h]).
Proof.
  intros Hmax Hqe. destruct retire_facts as (Hr & Hgh & Hg & Hb & Hnq & Hnd & Hq).
  destruct (freed_bumped Hmax) as [Hbump _].
  apply (inv_retire_core lg c); simpl; try done; try lia; eauto.
  - split; [done |]. split; [unfold kNil; lia |]. exists freed_slot.
    by rewrite list_lookup_insert_eq by by eapply lookup_lt_Some.
  - apply NoDup_singleton.
  - intros j ->%list_elem_of_singleton. right. split; [done | lia].
  - rewrite Hqe. simpl. lia.
Qed.

Lemma retire_append q lst ls :
  hgen h + 1 < 2 ^ 32 -> queue c = q ++ [lst] ->
  (<[hid h:=freed_slot]> (slots_ (tb c))) !! lst = Some ls ->
  inv (bump lg (hid h))
    (mk_cstate (mk (<[lst:=set_next_free (hid h) ls]>
                     (<[hid h:=freed_slot]> (slots_ (tb c)))) (capacity_ (tb c))
                  (free_head_ (tb c)) (hid h) (wrap 32 (size_ (tb c) - 1))
                  (quarantined_ (tb c)))
       OIdle (readers c) (delete h (live c)) (issued c) (queue c ++ [hid h])).
Proof.
  intros Hmax Hqe Hls. destruct retire_facts as (Hr & Hgh & Hg & Hb & Hnq & Hnd & Hq).
  destruct (freed_bumped Hmax) as [Hbump Hch].
  assert (NoDup (queue c ++ [hid h])) as Hnd'.
  { apply NoDup_app. split; [done |]. split; [| apply NoDup_singleton].
    intros j Hj ->%list_elem_of_singleton. done. }
  apply (inv_retire_core lg c); simpl; try done; try lia; eauto.
  - by apply bumped_relink.
  - rewrite Hqe, <- (assoc_L (++)) in *. apply chain_append; try done.
    + unfold kNil. lia.
    + exists freed_slot. by rewrite list_lookup_insert_eq by by eapply lookup_lt_Some.
  - by rewrite last_snoc.
  - intros j Hj. apply elem_of_app in Hj as [Hj | ->%list_elem_of_singleton];
      [by left | right; split; [done | lia]].
  - rewrite length_app. simpl. lia.
Qed.

End RetireCases.

Lemma inv_retire lg c tb' h ok :
  inv lg c -> owner c = OIdle -> Retire (tb c) h = Ret (ok, tb') ->
  ok = bool_decide (is_Some (live c !! h)) ∧
  ∃ lg', inv lg' (mk_cstate tb' OIdle (readers c) (delete h (live c)) (issued c)
           (if ok && bool_decide (hgen h <> 2 ^ 32 - 1)
            then queue c ++ [hid h] else queue c)).
Proof.
  intros Hi Ho Hst. unfold Retire in Hst. rewrite (live_agrees _ _ _ Hi) in Hst.
  destruct (live c !! h) as [tg |] eqn:Hl; simpl in Hst.
  2: { run_inv. split; [done |]. exists lg. simpl. rewrite delete_id by done.
       rewrite <- Ho. by destruct c. }
  assert (is_Some (live c !! h)) as His by eauto.
  destruct (i_live _ _ Hi _ _ Hl) as (Hr & _).
  destruct (inv_slot lg c (hid h) Hi ltac:(lia)) as [sl Hsl]. rewrite Hsl in Hst.
  destruct (retire_facts _ _ _ _ Hi Ho His Hsl) as (_ & Hgh & Hg & Hb & _).
  rewrite Hgh in Hst.
  case_bool_decide as Hz.
  - run_inv. split; [done |]. exists (bump lg (hid h)).
    assert (hgen h = 2 ^ 32 - 1) as Hmax.
    { destruct (decide (hgen h = 2 ^ 32 - 1)); [done |].
      rewrite wrap_small in Hz by (unfold in_width; lia). lia. }
    rewrite (bool_decide_eq_false_2 (hgen h <> _)) by tauto.
    rewrite Hz. by apply retire_quarantine.
  - assert (hgen h + 1 < 2 ^ 32) as Hmax.
    { destruct (decide (hgen h = 2 ^ 32 - 1)) as [He |]; [| lia].
      exfalso. apply Hz. by rewrite He. }
    rewrite wrap_small in Hst by (unfold in_width; lia).
    rewrite (bool_decide_eq_true_2 (hgen h <> _)) by lia.
    pose proof (i_tail _ _ Hi) as Htl. case_bool_decide as Ht.
    + assert (queue c = []) as Hqe.
      { destruct (queue c) as [| j q _] eqn:Hqe using rev_ind; [done |]. exfalso.
        rewrite last_snoc in Htl. pose proof (i_chain _ _ Hi) as Hch. rewrite Hqe in Hch.
        destruct (chain_lookup _ _ _ j Hch); [| simpl in Htl; congruence].
        apply elem_of_app. right. by apply list_elem_of_singleton. }
      run_inv. split; [done |]. exists (bump lg (hid h)). rewrite Hqe.
      by apply retire_first.
    + destruct (queue c) as [| lst q _] eqn:Hqe using rev_ind; [done |].
      rewrite last_snoc in Htl. simpl in Htl. rewrite Htl in Hst.
      apply run_bind_Ret in Hst as (ls & Hls & Hst). run_inv.
      split; [done |]. exists (bump lg (hid h)). simpl. rewrite <- Hqe.
      by eapply retire_append.
Qed.

(** ** Readers *)

Lemma resolve_begin_spec lg c h :
  inv lg c ->
  resolve_begin (tb c) h = Ret (bool_decide (is_Some (live c !! h))).
Proof.
  intros Hi. pose proof (live_agrees _ _ h Hi) as Hla. unfold Live in Hla.
  unfold resolve_begin.
  destruct (bool_decide (hid h = 0%nat) || bool_decide (capacity_ (tb c) < hid h)%nat) eqn:Hr;
    simpl.
  - destruct (live c !! h) as [tg |] eqn:Hl; [| done].
    destruct (i_live _ _ Hi _ _ Hl) as ((?&?) & _).
    apply orb_true_iff in Hr as [Hr%bool_decide_eq_true | Hr%bool_decide_eq_true]; lia.
  - apply orb_false_iff in Hr as [H0%bool_decide_eq_false Hc%bool_decide_eq_false].
    destruct (inv_slot lg c (hid h) Hi ltac:(lia)) as [sl Hsl].
    rewrite (at_lookup _ _ _ Hsl) in Hla |- *. simpl in *. injection Hla as Hla.
    destruct (Z.odd (hgen h)) eqn:Ho; simpl.
    + f_equal. case_bool_decide as He.
      * rewrite He, Ho in Hla. simpl in Hla.
        destruct (live c !! h) eqn:Hl; [| done]. by rewrite bool_decide_eq_true_2 by eauto.
      * simpl in Hla. destruct (live c !! h) eqn:Hl; [congruence |].
        by rewrite bool_decide_eq_false_2 by by intros [].
    + destruct (live c !! h) as [tg |] eqn:Hl.
      * destruct (i_live _ _ Hi _ _ Hl) as (_ & _ & Ho' & _). congruence.
      * by rewrite bool_decide_eq_false_2 by by intros [].
Qed.

Lemma load_words_spec (t0 : t) h s i n :
  slots_ t0 !! hid h = Some s -> (i + n <= length (words s))%nat ->
  load_words t0 h i n = Ret (take n (drop i (words s))).
Proof.
  intros Hs. revert i. induction n as [| n IH]; intros i Hle; simpl; [done |].
  unfold load_word. rewrite (at_lookup _ _ _ Hs). simpl.
  destruct (lookup_lt_is_Some_2 (words s) i) as [w Hw]; [lia |].
  rewrite (at_lookup _ _ _ Hw). simpl. rewrite IH by lia. simpl.
  rewrite (drop_S _ _ _ Hw). simpl. by rewrite Nat.add_1_r.
Qed.

(** What the words of a live slot decode to. *)
Lemma live_decode lg c h tg s :
  inv lg c -> live c !! h = Some tg -> slots_ (tb c) !! hid h = Some s ->
  decode target_size (words s) = tg ∧ generation s = hgen h.
Proof.
  intros Hi Hl Hs. destruct (i_live _ _ Hi _ _ Hl) as (_ & Hg & Ho & Hv & Hw).
  rewrite (Hw _ Hs). split; [by apply decode_encode |].
  destruct (i_slot _ _ Hi _ _ Hs) as (_ & -> & Hb).
  pose proof (odd_lt_top (lg (hid h)) ltac:(by rewrite <- Hg) (proj2 Hb)) as Htop.
  rewrite wrap_small; [done | unfold in_width; lia].
Qed.

Lemma resolve_spec lg c h :
  inv lg c -> Resolve target_size (tb c) h = Ret (live c !! h).
Proof.
  intros Hi. unfold Resolve. rewrite (resolve_begin_spec _ _ _ Hi). simpl.
  destruct (live c !! h) as [tg |] eqn:Hl.
  - rewrite bool_decide_eq_true_2 by eauto.
    destruct (i_live _ _ Hi _ _ Hl) as (Hr & _).
    destruct (inv_slot lg c (hid h) Hi ltac:(lia)) as [s Hs].
    destruct (live_decode _ _ _ _ _ Hi Hl Hs) as [Hd Hg].
    destruct (i_slot _ _ Hi _ _ Hs) as (Hlen & _).
    rewrite (load_words_spec _ _ _ _ _ Hs) by lia. simpl.
    unfold resolve_end. rewrite (at_lookup _ _ _ Hs). simpl.
    rewrite bool_decide_eq_true_2 by done. rewrite drop_0, take_ge by lia. by rewrite Hd.
  - rewrite bool_decide_eq_false_2; [done | by intros []].
Qed.

(** A complete read that passes the second check read one live target. *)
Lemma resolve_end_spec lg c r h acc result :
  inv lg c -> readers c !! r = Some (RLoading h acc) -> length acc = kWords ->
  resolve_end target_size (tb c) h acc = Ret result -> result = live c !! h.
Proof.
  intros Hi Hr Hlen Hend. destruct (i_readers _ _ Hi _ _ _ Hr) as (Hrg & Ho & Hle & _ & Hw).
  destruct (inv_slot lg c (hid h) Hi ltac:(lia)) as [s Hs].
  destruct (i_slot _ _ Hi _ _ Hs) as (Hwl & Hgen & Hb).
  unfold resolve_end in Hend. rewrite (at_lookup _ _ _ Hs) in Hend. simpl in Hend.
  injection Hend as <-. case_bool_decide as He.
  - pose proof (wrap_odd _ _ Hb (eq_trans (eq_sym Hgen) He) Ho) as Hlg.
    destruct (i_odd _ _ Hi (hid h) Hrg) as [tg Hl]; [by rewrite Hlg |].
    rewrite Hlg in Hl. replace (mk_handle (hid h) (hgen h)) with h in Hl by by destruct h.
    rewrite (Hw Hlg _ Hs), take_ge by lia.
    destruct (live_decode _ _ _ _ _ Hi Hl Hs) as [-> _]. done.
  - destruct (live c !! h) as [tg |] eqn:Hl; [| done].
    by destruct (live_decode _ _ _ _ _ Hi Hl Hs) as [_ ?].
Qed.

Lemma inv_with_readers lg c rs :
  inv lg c ->
  (∀ r h acc, rs !! r = Some (RLoading h acc) -> readers c !! r = Some (RLoading h acc) ∨
    (1 <= hid h <= capacity_ (tb c))%nat ∧ Z.odd (hgen h) = true ∧
    hgen h <= lg (hid h) ∧ (length acc <= kWords)%nat ∧
    (lg (hid h) = hgen h -> ∀ s, slots_ (tb c) !! hid h = Some s ->
       acc = take (length acc) (words s))) ->
  inv lg (mk_cstate (tb c) (owner c) rs (live c) (issued c) (queue c)).
Proof.
  intros [] Hrs. split; simpl; try done.
  intros r h acc Hr. destruct (Hrs _ _ _ Hr); eauto.
Qed.

Lemma inv_resolve_begin lg c r h :
  inv lg c -> resolve_begin (tb c) h = Ret true ->
  inv lg (mk_cstate (tb c) (owner c) (<[r:=RLoading h []]> (readers c)) (live c)
            (issued c) (queue c)).
Proof.
  intros Hi Hb. rewrite (resolve_begin_spec _ _ _ Hi) in Hb. injection Hb as Hb.
  apply bool_decide_eq_true in Hb as [tg Hl].
  destruct (i_live _ _ Hi _ _ Hl) as (Hr & Hg & Ho & _).
  apply inv_with_readers; [done |]. intros r' h' acc Hr'.
  apply lookup_insert_Some in Hr' as [[_ [= <- <-]] | [_ Hr']]; [right | by left].
  split; [done |]. split; [done |]. split; [lia |]. split; [simpl; lia | done].
Qed.

Lemma inv_resolve_word lg c r h acc w :
  inv lg c -> readers c !! r = Some (RLoading h acc) -> (length acc < kWords)%nat ->
  load_word (tb c) h (length acc) = Ret w ->
  inv lg (mk_cstate (tb c) (owner c) (<[r:=RLoading h (acc ++ [w])]> (readers c))
            (live c) (issued c) (queue c)).
Proof.
  intros Hi Hr Hlt Hw. unfold load_word in Hw. run_inv. rename x into s, H into Hs.
  destruct (i_readers _ _ Hi _ _ _ Hr) as (? & ? & ? & ? & Hacc).
  apply inv_with_readers; [done |]. intros r' h' acc' Hr'.
  apply lookup_insert_Some in Hr' as [[_ [= <- <-]] | [_ Hr']]; [right | by left].
  rewrite length_app. simpl. split; [done |]. split; [done |]. split; [done |].
  split; [lia |]. intros Hlg s' Hs'. simplify_eq.
  rewrite Nat.add_1_r, (take_S_r _ _ _ Hw). by rewrite <- Hacc.
Qed.

Lemma inv_step lg c e c' :
  inv lg c -> cstep target_size c e c' -> ∃ lg', inv lg' c'.
Proof.
  intros Hi Hst. destruct Hst as [c tb' Ho Hb | c tb' index tg Ho Hv Hb |
    c tb' index tg i Ho Hlt Hb | c tb' index tg h Ho Hb | c tb' h ok Ho Hb | c r h Hr Hb |
    c r h Hr Hb | c r h acc w Hr Hlt Hb | c r h acc res Hr Hlen Hb].
  - exists lg. unfold issue_begin in Hb. case_bool_decide; run_inv; [| done].
    rewrite <- Ho. by destruct c.
  - exists lg. by apply inv_issue_begin.
  - exists lg. by apply inv_issue_word.
  - exists (bump lg index). by apply inv_issue_publish.
  - by eapply inv_retire.
  - by exists lg.
  - exists lg. by apply inv_resolve_begin.
  - exists lg. by apply inv_resolve_word.
  - exists lg. apply inv_with_readers; [done |]. intros r' h' acc' Hr'.
    apply lookup_delete_Some in Hr' as [_ Hr']. by left.
Qed.

Lemma reachable_inv capacity c :
  (1 <= capacity)%nat -> Z.of_nat capacity < 2 ^ 32 - 1 ->
  reachable target_size capacity c -> ∃ lg, inv lg c.
Proof.
  intros H1 Hc Hr. induction Hr as [| c e c' _ [lg IH] Hst].
  - exists (fun _ => 0). by apply inv_init.
  - by eapply inv_step.
Qed.

(** ** The sequential [Issue] is a run of the machine's steps *)

Lemma store_words_run lg c index tg k :
  inv lg c -> owner c = OStore index tg k ->
  ∃ tb', store_words (tb c) index k (drop k (encode tg)) = Ret tb' ∧
    inv lg (mk_cstate tb' (OStore index tg kWords) (readers c) (live c) (issued c) (queue c)).
Proof.
  remember (kWords - k)%nat as n eqn:Hn. revert c k Hn.
  induction n as [| n IH]; intros c k Hn Hi Ho;
    destruct (i_busy _ _ Hi _ _ _ Ho) as (_ & Hk & _).
  - replace k with kWords in * by lia.
    rewrite drop_ge by (rewrite encode_length; lia).
    exists (tb c). split; [done |]. rewrite <- Ho. by destruct c.
  - assert (k < kWords)%nat as Hlt by lia.
    rewrite (drop_S _ _ _ (encode_lookup target_size tg k Hlt)). simpl.
    destruct (i_free _ _ Hi index) as (Hr & _); [rewrite Ho; set_solver |].
    destruct (inv_slot lg c index Hi ltac:(lia)) as [s Hs].
    destruct (i_slot _ _ Hi _ _ Hs) as (Hwl & _).
    destruct (lookup_lt_is_Some_2 (words s) k) as [w Hw]; [lia |].
    assert (∃ tb1, store_word (tb c) index k (target_word target_size tg k) = Ret tb1)
      as [tb1 Hst].
    { unfold store_word. rewrite (at_lookup _ _ _ Hs). simpl.
      rewrite (at_lookup _ _ _ Hw). simpl. eauto. }
    rewrite Hst. simpl. pose proof (inv_issue_word _ _ _ _ _ _ Hi Ho Hlt Hst) as Hi'.
    replace (S k) with (k + 1)%nat by lia.
    destruct (IH _ (k + 1)%nat ltac:(lia) Hi' eq_refl) as (tb2 & Hrun & Hinv). eauto.
Qed.

Lemma issue_spec lg c tg :
  inv lg c -> owner c = OIdle -> valid_target target_size tg ->
  match queue c with
  | [] => Issue target_size (tb c) tg = Ret (kNoContinuation, tb c)
  | index :: q =>
      ∃ lg' h tb', Issue target_size (tb c) tg = Ret (h, tb') ∧ hid h = index ∧
        (h ∉ issued c) ∧
        inv lg' (mk_cstate tb' OIdle (readers c) (<[h:=tg]> (live c)) ({[h]} ∪ issued c) q)
  end.
Proof.
  intros Hi Ho Hv. pose proof (i_chain _ _ Hi) as Hch. unfold Issue.
  destruct (queue c) as [| index q] eqn:Hq.
  - unfold issue_begin. by rewrite Hch, bool_decide_eq_true_2.
  - destruct Hch as (Hh & Hi0 & s & Hs & _).
    assert (∃ tb1, issue_begin (tb c) = Ret (Some index, tb1)) as [tb1 Hb].
    { unfold issue_begin. rewrite Hh, bool_decide_eq_false_2 by done.
      rewrite (at_lookup _ _ _ Hs). simpl. eauto. }
    rewrite Hb. simpl. pose proof (inv_issue_begin _ _ _ _ _ Hi Ho Hv Hb) as Hi1.
    rewrite Hq in Hi1. simpl in Hi1.
    destruct (store_words_run _ _ _ _ _ Hi1 eq_refl) as (tb2 & Hrun & Hi2).
    rewrite drop_0 in Hrun. unfold StoreTarget. simpl in Hrun. rewrite Hrun. simpl.
    destruct (i_free _ _ Hi2 index) as (Hr & _); [simpl; set_solver |]. simpl in Hr.
    destruct (inv_slot _ _ index Hi2 ltac:(simpl; lia)) as [s2 Hs2]. simpl in Hs2.
    assert (∃ h tb3, issue_publish tb2 index = Ret (h, tb3)) as (h & tb3 & Hp).
    { unfold issue_publish. rewrite (at_lookup _ _ _ Hs2). simpl. eauto. }
    destruct (inv_issue_publish _ _ _ _ _ _ Hi2 eq_refl Hp) as (Hi3 & Hh' & Hf).
    simpl in *. exists (bump lg index), h, tb3. rewrite Hp, Hh'. rewrite Hh' in Hf, Hi3. done.
Qed.

Lemma retire_returns lg c h :
  inv lg c -> ∃ ok tb', Retire (tb c) h = Ret (ok, tb').
Proof.
  intros Hi. unfold Retire. rewrite (live_agrees _ _ _ Hi). simpl.
  destruct (live c !! h) as [tg |] eqn:Hl; [| eauto].
  destruct (i_live _ _ Hi _ _ Hl) as (Hr & _).
  destruct (inv_slot lg c (hid h) Hi ltac:(lia)) as [s ->].
  case_bool_decide; [eauto |]. case_bool_decide as Ht; [eauto |].
  pose proof (i_tail _ _ Hi) as Htl. pose proof (i_chain _ _ Hi) as Hch.
  destruct (last (queue c)) as [l |] eqn:Hlast; [| done]. simpl in Htl.
  destruct (chain_lookup _ _ _ l Hch) as [_ [x Hx]].
  { apply last_Some in Hlast as [q ->]. apply elem_of_app. right.
    by apply list_elem_of_singleton. }
  match goal with |- context [at_ ?ss _] => set (ss' := ss) end.
  destruct (lookup_lt_is_Some_2 ss' (free_tail_ (tb c))) as [y Hy].
  { unfold ss'. rewrite length_insert, Htl. by eapply lookup_lt_Some. }
  rewrite (at_lookup _ _ _ Hy). simpl. eauto.
Qed.

End Invariant.

(** ** Theorems *)

(** C18. [Resolve] is atomic although it reads word by word: in every
    interleaving of one issuing and retiring owner with any number of readers,
    a [Resolve] that returns gives what an undisturbed [Resolve] would give at
    that moment; a target it returns is, in full, the one issued under exactly
    that handle and not yet retired. *)
Theorem resolve_atomic target_size capacity c r h result c' :
  (1 <= capacity)%nat -> Z.of_nat capacity < 2 ^ 32 - 1 ->
  reachable target_size capacity c ->
  cstep target_size c (EResolved r h result) c' ->
  Resolve target_size (tb c) h = Ret result ∧ result = live c !! h ∧
  (is_Some result -> h ∈ issued c).
Proof.
  intros H1 Hc Hr Hst. destruct (reachable_inv _ _ _ H1 Hc Hr) as [lg Hi].
  rewrite (resolve_spec _ _ _ _ Hi).
  enough (result = live c !! h) as ->.
  { split; [done |]. split; [done |]. apply (i_live_issued _ _ _ Hi). }
  inversion Hst; subst.
  - match goal with H : resolve_begin _ _ = Ret false |- _ => rename H into Hb end.
    rewrite (resolve_begin_spec _ _ _ _ Hi) in Hb. injection Hb as Hb.
    apply bool_decide_eq_false in Hb. by apply eq_None_not_Some in Hb.
  - by eapply resolve_end_spec.
Qed.

(** The owner's contract, in every reachable state of the machine: [Issue]
    takes the slot freed longest ago (or reports a full table) and returns a
    handle never issued before; [Retire] succeeds exactly for a live handle;
    afterwards [Resolve] answers for every handle as the updated history does;
    and every slot is live, free or quarantined. *)
Theorem owner_contract target_size capacity c tg h :
  (1 <= capacity)%nat -> Z.of_nat capacity < 2 ^ 32 - 1 ->
  reachable target_size capacity c -> owner c = OIdle -> valid_target target_size tg ->
  match queue c with
  | [] => Issue target_size (tb c) tg = Ret (kNoContinuation, tb c)
  | index :: _ =>
      ∃ hn tb', Issue target_size (tb c) tg = Ret (hn, tb') ∧ hid hn = index ∧
        (hn ∉ issued c) ∧
        ∀ h', Resolve target_size tb' h' = Ret ((<[hn:=tg]> (live c)) !! h')
  end ∧
  (∃ tb', Retire (tb c) h = Ret (bool_decide (is_Some (live c !! h)), tb') ∧
     ∀ h', Resolve target_size tb' h' = Ret (delete h (live c) !! h')) ∧
  Z.of_nat (length (queue c) + size (live c)) + quarantined_ (tb c) =
    Z.of_nat (capacity_ (tb c)) ∧
  size_ (tb c) = Z.of_nat (size (live c)).
Proof.
  intros H1 Hc Hr Ho Hv. destruct (reachable_inv _ _ _ H1 Hc Hr) as [lg Hi].
  split; [| split; [| split]].
  - pose proof (issue_spec _ _ _ _ Hi Ho Hv) as Hs. destruct (queue c) as [| i q]; [done |].
    destruct Hs as (lg' & hn & tb' & ? & ? & ? & Hinv).
    exists hn, tb'. repeat (split; [done |]). intros h'.
    apply (resolve_spec _ _ _ h' Hinv).
  - destruct (retire_returns _ _ _ h Hi) as (ok & tb' & Hret).
    destruct (inv_retire _ _ _ _ _ _ Hi Ho Hret) as (-> & lg' & Hinv).
    exists tb'. split; [done |]. intros h'. apply (resolve_spec _ _ _ h' Hinv).
  - pose proof (i_count _ _ _ Hi) as Hcnt. rewrite Ho in Hcnt. done.
  - apply (i_size _ _ _ Hi).
Qed.

(** C19. A retired handle is dead for good: after a successful [Retire] no
    continuation of the history, however long, makes the handle live again, so
    it never resolves to whatever reused its slot and never retires it. *)
Theorem retired_handle_stays_dead target_size capacity c h c1 c2 :
  (1 <= capacity)%nat -> Z.of_nat capacity < 2 ^ 32 - 1 ->
  reachable target_size capacity c ->
  cstep target_size c (ERetired h true) c1 ->
  rtc (fun a b => ∃ e, cstep target_size a e b) c1 c2 ->
  Resolve target_size (tb c2) h = Ret None ∧ Retire (tb c2) h = Ret (false, tb c2).
Proof.
  intros H1 Hc Hr Hst Hrun.
  assert (reachable target_size capacity c1) as Hr1 by by eapply reach_step.
  destruct (reachable_inv _ _ _ H1 Hc Hr) as [lg0 Hi0].
  assert (h ∈ issued c1 ∧ live c1 !! h = None) as Hdead.
  { inversion Hst; subst. simpl. split; [| apply lookup_delete_eq].
    apply (i_live_issued _ _ _ Hi0).
    match goal with H : Retire _ _ = _, H' : owner c = _ |- _ =>
      destruct (inv_retire _ _ _ _ _ _ Hi0 H' H) as [He _] end.
    by apply (bool_decide_eq_true_1 _ (eq_sym He)). }
  assert (reachable target_size capacity c2 ∧ h ∈ issued c2 ∧ live c2 !! h = None)
    as (Hr2 & Hd).
  { clear Hst. induction Hrun as [c1 | c1 c3 c2 [e Hs] _ IH]; [done |].
    apply IH; [by eapply reach_step |]. destruct Hdead as [Hin Hnone].
    destruct (reachable_inv _ _ _ H1 Hc Hr1) as [lg1 Hi1].
    destruct Hs; simpl; try done.
    - destruct (inv_issue_publish _ _ _ _ _ _ _ Hi1 H H0) as (_ & _ & Hf).
      split; [apply elem_of_union; by right |].
      rewrite lookup_insert_ne; [done |]. by intros ->.
    - split; [done |]. by rewrite lookup_delete_None; right. }
  destruct (reachable_inv _ _ _ H1 Hc Hr2) as [lg2 Hi2].
  rewrite (resolve_spec _ _ _ _ Hi2). destruct Hd as [_ Hn]. rewrite Hn. split; [done |].
  unfold Retire. rewrite (live_agrees _ _ _ _ Hi2), Hn. done.
Qed.

(** ** Witnesses: one-byte targets in a table of two slots, one continuation
    issued, then read by reader 0 *)

Definition w_get {A} (d : A) (m : run A) : A := match m with Ret a => a | _ => d end.
Definition w_h : handle := mk_handle 1 1.
Definition w_tb0 : t := construct 1 2.
Definition w_tb1 : t := (w_get (None, w_tb0) (issue_begin w_tb0)).2.
Definition w_tb2 : t := w_get w_tb0 (store_word w_tb1 1 0 (target_word 1 [42] 0)).
Definition w_tb3 : t := (w_get (w_h, w_tb0) (issue_publish w_tb2 1)).2.
Definition w_live : gmap handle target := <[w_h:=[42]]> ∅.
Definition w_issd : gset handle := {[w_h]} ∪ ∅.
Definition w_issued : cstate := mk_cstate w_tb3 OIdle ∅ w_live w_issd [2%nat].
Definition w_load (m : gmap nat reader_pc) : cstate :=
  mk_cstate w_tb3 OIdle m w_live w_issd [2%nat].
Definition w_begun : cstate := w_load (<[0%nat:=RLoading w_h []]> ∅).
Definition w_reading : cstate := w_load (<[0%nat:=RLoading w_h [42]]> (readers w_begun)).

Lemma w_valid : valid_target 1 [42].
Proof. split; [done |]. by apply Forall_singleton. Qed.

Definition w_storing (tb' : t) (i : nat) : cstate :=
  mk_cstate tb' (OStore 1 [42] i) ∅ ∅ ∅ [2%nat].

Lemma w_issued_reachable : reachable 1 2 w_issued.
Proof.
  apply (reach_step 1 2 (w_storing w_tb2 1) (EIssued w_h [42]));
    [apply (reach_step 1 2 (w_storing w_tb1 0) EInternal);
     [apply (reach_step 1 2 (cinit 1 2) EInternal); [apply reach_init |] |] |].
  - apply (cs_issue_begin 1 (cinit 1 2) w_tb1 1 [42]); [done | apply w_valid | done].
  - apply (cs_issue_word 1 (w_storing w_tb1 0) w_tb2 1 [42] 0);
      [done | unfold kWords; simpl; lia | done].
  - by apply (cs_issue_publish 1 (w_storing w_tb2 1) w_tb3 1 [42] w_h).
Qed.

Lemma w_reading_reachable : reachable 1 2 w_reading.
Proof.
  apply (reach_step 1 2 w_begun EInternal);
    [apply (reach_step 1 2 w_issued EInternal); [apply w_issued_reachable |] |].
  - by apply (cs_resolve_begin 1 w_issued 0 w_h).
  - apply (cs_resolve_word 1 w_begun 0 w_h [] 42); [done | unfold kWords; simpl; lia | done].
Qed.

Lemma resolve_atomic_witness :
  ∃ c', cstep 1 w_reading (EResolved 0 w_h (Some [42])) c' ∧
    Resolve 1 (tb w_reading) w_h = Ret (Some [42]) ∧
    Some [42] = live w_reading !! w_h ∧ (is_Some (Some [42]) -> w_h ∈ issued w_reading).
Proof.
  assert (cstep 1 w_reading (EResolved 0 w_h (Some [42]))
            (w_load (delete 0%nat (readers w_reading)))) as Hst
    by by apply (cs_resolve_end 1 w_reading 0 w_h [42]).
  eexists. split; [exact Hst |].
  eapply (resolve_atomic 1 2); [lia | lia | apply w_reading_reachable | exact Hst].
Defined.

Lemma owner_contract_witness :
  match queue w_issued with
  | [] => Issue 1 (tb w_issued) [7] = Ret (kNoContinuation, tb w_issued)
  | index :: _ =>
      ∃ hn tb', Issue 1 (tb w_issued) [7] = Ret (hn, tb') ∧ hid hn = index ∧
        (hn ∉ issued w_issued) ∧
        ∀ h', Resolve 1 tb' h' = Ret ((<[hn:=[7]]> (live w_issued)) !! h')
  end ∧
  (∃ tb', Retire (tb w_issued) w_h = Ret (bool_decide (is_Some (live w_issued !! w_h)), tb') ∧
     ∀ h', Resolve 1 tb' h' = Ret (delete w_h (live w_issued) !! h')) ∧
  Z.of_nat (length (queue w_issued) + size (live w_issued)) + quarantined_ (tb w_issued) =
    Z.of_nat (capacity_ (tb w_issued)) ∧
  size_ (tb w_issued) = Z.of_nat (size (live w_issued)).
Proof.
  apply (owner_contract 1 2); [lia | lia | apply w_issued_reachable | done |].
  split; [done |]. by apply Forall_singleton.
Defined.

Lemma retired_handle_stays_dead_witness :
  ∃ c1, cstep 1 w_issued (ERetired w_h true) c1 ∧
    Resolve 1 (tb c1) w_h = Ret None ∧ Retire (tb c1) w_h = Ret (false, tb c1).
Proof.
  assert (cstep 1 w_issued (ERetired w_h true)
            (mk_cstate (w_get (false, w_tb0) (Retire w_tb3 w_h)).2 OIdle ∅
               (delete w_h w_live) w_issd [2%nat; 1%nat])) as Hst
    by by apply (cs_retire 1 w_issued).
  eexists. split; [exact Hst |].
  eapply (retired_handle_stays_dead 1 2 w_issued w_h);
    [lia | lia | apply w_issued_reachable | exact Hst | apply rtc_refl].
Defined.

End Cont.
