(* ===== verification/ExpiryWheel.v ===== *)
(** * The expiry wheel

    Models [core/dataplane/expiry_wheel.h]: timers in a hierarchical timing
    wheel over one array of nodes, linked by index into circular lists, with an
    occupancy word for each level. Ticks are [w]-bit unsigned integers that
    wrap. A callback of [Poll] is a program over the calls it may make
    ([prog]). [trace_] is a history variable: the deliveries made, in order.
    [Bytes] and the other accessors of memory use are not modelled. *)

From S2P Require Import Prelude.
Open Scope Z_scope.

Module Wheel.

(** The template's arguments, with its [requires] clause. *)
Class Config := {
  digits : Z;
  LevelBits : nat;
  Levels : nat;
  bits_ok : (1 <= LevelBits <= 6)%nat;
  levels_ok : (1 <= Levels)%nat;
  digits_ok : Z.of_nat (LevelBits * Levels) < digits
}.

Inductive ExpiryError := kInvalidCapacity | kInvalidGranularity | kOutOfMemory.

Record PollResult := mk_result { fired : Z; moved : Z; exhausted : bool }.

Definition work_of (r : PollResult) : Z := fired r + moved r.

Record ExpiryHandle := mk_handle { id : nat; h_generation : Z }.

#[export] Instance ExpiryHandle_eq_dec : EqDecision ExpiryHandle.
Proof. solve_decision. Defined.

Definition kNoExpiry : ExpiryHandle := mk_handle 0 0.

Section Wheel.
Context `{Config} {Payload : Type} (payload0 : Payload).

(** ** Constants *)

Definition kMaxTimeout : Z := Z.shiftr (2 ^ digits - 1) 2.
Definition kMaxGranularityShift : Z := digits - 1 - Z.of_nat (LevelBits * Levels).

Definition After (now timeout : Z) : Z :=
  wrap digits (now + (if bool_decide (kMaxTimeout < timeout) then kMaxTimeout else timeout)).

Definition kSlots : nat := 2 ^ LevelBits.
Definition kSlotMask : Z := Z.of_nat kSlots - 1.
Definition kWheelNodes : nat := Levels * kSlots.
Definition kReady : nat := kWheelNodes.
Definition kMoving : nat := kWheelNodes + 1.
Definition kFirst : nat := kWheelNodes + 2.
Definition kNil : nat := 0.

(** ** State *)

Record Node := mk_node {
  prev : nat;
  next : nat;
  generation : Z;
  deadline : Z;
  payload : Payload
}.

(** A callback made: the handle delivered, its deadline and the wheel's time. *)
Record delivery := mk_delivery { d_handle : ExpiryHandle; d_deadline : Z; d_at : Z }.

Record t := mk {
  nodes_ : list Node;
  capacity_ : nat;
  shift_ : Z;
  cur_ : Z;
  free_head_ : nat;
  size_ : Z;
  quarantined_ : Z;
  polling_ : bool;
  occupied_ : list Z;
  trace_ : list delivery
}.

Definition with_nodes (ns : list Node) (w : t) : t :=
  mk ns (capacity_ w) (shift_ w) (cur_ w) (free_head_ w) (size_ w) (quarantined_ w)
    (polling_ w) (occupied_ w) (trace_ w).
Definition with_cur (c : Z) (w : t) : t :=
  mk (nodes_ w) (capacity_ w) (shift_ w) c (free_head_ w) (size_ w) (quarantined_ w)
    (polling_ w) (occupied_ w) (trace_ w).
Definition with_free (f : nat) (w : t) : t :=
  mk (nodes_ w) (capacity_ w) (shift_ w) (cur_ w) f (size_ w) (quarantined_ w)
    (polling_ w) (occupied_ w) (trace_ w).
Definition with_size (n q : Z) (w : t) : t :=
  mk (nodes_ w) (capacity_ w) (shift_ w) (cur_ w) (free_head_ w) n q
    (polling_ w) (occupied_ w) (trace_ w).
Definition with_polling (b : bool) (w : t) : t :=
  mk (nodes_ w) (capacity_ w) (shift_ w) (cur_ w) (free_head_ w) (size_ w) (quarantined_ w)
    b (occupied_ w) (trace_ w).
Definition with_occupied (o : list Z) (w : t) : t :=
  mk (nodes_ w) (capacity_ w) (shift_ w) (cur_ w) (free_head_ w) (size_ w) (quarantined_ w)
    (polling_ w) o (trace_ w).
Definition with_trace (d : delivery) (w : t) : t :=
  mk (nodes_ w) (capacity_ w) (shift_ w) (cur_ w) (free_head_ w) (size_ w) (quarantined_ w)
    (polling_ w) (occupied_ w) (trace_ w ++ [d]).

Definition set_prev (i : nat) (n : Node) : Node :=
  mk_node i (next n) (generation n) (deadline n) (payload n).
Definition set_next (i : nat) (n : Node) : Node :=
  mk_node (prev n) i (generation n) (deadline n) (payload n).
Definition set_generation (g : Z) (n : Node) : Node :=
  mk_node (prev n) (next n) g (deadline n) (payload n).
Definition set_deadline (d : Z) (n : Node) : Node :=
  mk_node (prev n) (next n) (generation n) d (payload n).
Definition set_payload (p : Payload) (n : Node) : Node :=
  mk_node (prev n) (next n) (generation n) (deadline n) p.

(** [nodes_[i]], read and written. *)
Definition node (w : t) (i : nat) : run Node := at_ (nodes_ w) i.
Definition upd (w : t) (i : nat) (f : Node -> Node) : run t :=
  n ← node w i; mret (with_nodes (<[i := f n]> (nodes_ w)) w).

(** ** Construction *)

Definition UnitMask (shift : Z) : Z := Z.shiftl 1 shift - 1.
Definition Unit (w : t) : Z := Z.shiftl 1 (shift_ w).

Definition empty_node : Node := mk_node 0 0 0 0 payload0.

Definition head_node (head : nat) : Node := set_prev head (set_next head empty_node).
Definition free_node (capacity i : nat) : Node :=
  set_next (if bool_decide (i + 1 = capacity)%nat then kNil else (kFirst + i + 1)%nat) empty_node.

(** The private constructor. *)
Definition construct (capacity : nat) (start shift : Z) : t :=
  mk ((head_node <$> seq 0 kFirst) ++ (free_node capacity <$> seq 0 capacity))
    capacity shift (Z.ldiff start (UnitMask shift)) kFirst 0 0 false (replicate Levels 0) [].

(** [allocated] says whether both allocations succeeded. *)
Definition Create (allocated : bool) (capacity : nat) (start granularity_shift : Z)
    : ExpiryError + t :=
  if bool_decide (capacity = 0)%nat ||
     bool_decide (2 ^ 32 - 1 - Z.of_nat kFirst < Z.of_nat capacity)
  then inl kInvalidCapacity
  else if bool_decide (kMaxGranularityShift < granularity_shift) then inl kInvalidGranularity
  else if allocated then inr (construct capacity start granularity_shift)
  else inl kOutOfMemory.

(** ** Helpers *)

(** Serial-number difference. *)
Definition Diff (a b : Z) : Z := to_signed digits (wrap digits (a - b)).

(** The index of the timer a live handle names. *)
Definition Resolve (w : t) (handle : ExpiryHandle) : run (option Node) :=
  let index := id handle in
  if bool_decide (index < kFirst)%nat || bool_decide (capacity_ w <= index - kFirst)%nat
  then mret None
  else
    n ← node w index;
    mret (if bool_decide (generation n = h_generation handle) && Z.odd (generation n)
          then Some n else None).

Definition Delivering (w : t) (index : nat) : run bool :=
  n ← node w index; mret (bool_decide (prev n = index)).

Definition EndOf (w : t) (d : Z) : Z :=
  let low := Z.land d (UnitMask (shift_ w)) in
  wrap digits (d - low + (if bool_decide (low <> 0) then Unit w else 0)).

(** ** Lists *)

(** [occupied_[head >> kSlotBits] |= 1 << (head & kSlotMask)], and [&= ~]. *)
Definition occupy (w : t) (head : nat) : run t :=
  o ← at_ (occupied_ w) (head / kSlots);
  mret (with_occupied (<[(head / kSlots)%nat :=
    Z.lor o (Z.shiftl 1 (Z.of_nat (head mod kSlots)))]> (occupied_ w)) w).
Definition vacate (w : t) (head : nat) : run t :=
  o ← at_ (occupied_ w) (head / kSlots);
  mret (with_occupied (<[(head / kSlots)%nat :=
    Z.ldiff o (Z.shiftl 1 (Z.of_nat (head mod kSlots)))]> (occupied_ w)) w).

Definition Link (w : t) (head index : nat) : run t :=
  list ← node w head;
  let last := prev list in
  w ← upd w index (set_prev last);
  w ← upd w index (set_next head);
  w ← upd w last (set_next index);
  w ← upd w head (set_prev index);
  if bool_decide (head < kWheelNodes)%nat then occupy w head else mret w.

Definition Unlink (w : t) (index : nat) : run t :=
  n ← node w index;
  let p := prev n in
  let x := next n in
  w ← upd w p (set_next x);
  w ← upd w x (set_prev p);
  if bool_decide (p = x) && bool_decide (p < kWheelNodes)%nat then vacate w p else mret w.

Definition Splice (w : t) (from to : nat) : run t :=
  src ← node w from;
  if bool_decide (next src = from) then mret w
  else
    dst ← node w to;
    let first := next src in
    let last := prev src in
    let tail := prev dst in
    w ← upd w tail (set_next first);
    w ← upd w first (set_prev tail);
    w ← upd w last (set_next to);
    w ← upd w to (set_prev last);
    w ← upd w from (set_prev from);
    w ← upd w from (set_next from);
    if bool_decide (from < kWheelNodes)%nat then vacate w from else mret w.

Definition Free (w : t) (index : nat) : run t :=
  let w := with_size (wrap 32 (size_ w - 1)) (quarantined_ w) w in
  w ← upd w index (fun n => set_generation (wrap 32 (generation n + 1)) n);
  n ← node w index;
  if bool_decide (generation n = 0)
  then mret (with_size (size_ w) (wrap 32 (quarantined_ w + 1)) w)
  else
    w ← upd w index (set_next (free_head_ w));
    mret (with_free index w).

(** ** Placement *)

(** The loop over the levels of [Place], from [level] on: the slot's head. *)
Fixpoint level_for (w : t) (stop : Z) (todo level : nat) : option nat :=
  match todo with
  | O => None
  | S todo =>
      let sh := shift_ w + Z.of_nat (level * LevelBits) in
      let span_mask := Z.shiftr (2 ^ digits - 1) sh in
      let ahead := Z.land (wrap digits (Z.shiftr stop sh - Z.shiftr (cur_ w) sh)) span_mask in
      if bool_decide (ahead <= kSlotMask)
      then Some (level * kSlots + Z.to_nat (Z.land (wrap 32 (Z.shiftr stop sh)) kSlotMask))%nat
      else level_for w stop todo (level + 1)
  end.

Definition Place (w : t) (index : nat) : run t :=
  n ← node w index;
  let stop := EndOf w (deadline n) in
  if bool_decide (Diff stop (cur_ w) <= 0) then Link w kReady index
  else
    match level_for w stop Levels 0 with
    | Some head => Link w head index
    | None =>
        let sh := shift_ w + Z.of_nat ((Levels - 1) * LevelBits) in
        let slot := Z.land (wrap 32 (wrap 32 (Z.shiftr (cur_ w) sh) + kSlotMask)) kSlotMask in
        Link w ((Levels - 1) * kSlots + Z.to_nat slot) index
    end.

(** ** Arming *)

Definition Schedule (w : t) (d : Z) (p : Payload) : run (ExpiryHandle * t) :=
  if bool_decide (free_head_ w = kNil) then mret (kNoExpiry, w)
  else
    let index := free_head_ w in
    n ← node w index;
    let w := with_free (next n) w in
    w ← upd w index (fun n =>
          set_payload p (set_deadline d (set_generation (wrap 32 (generation n + 1)) n)));
    let w := with_size (wrap 32 (size_ w + 1)) (quarantined_ w) w in
    w ← Place w index;
    n ← node w index;
    mret (mk_handle index (generation n), w).

(** [Refresh], and [Reschedule] with the payload given. *)
Definition rearm (w : t) (handle : ExpiryHandle) (d : Z) (p : option Payload)
    : run (bool * t) :=
  o ← Resolve w handle;
  match o with
  | None => mret (false, w)
  | Some n =>
      delivering ← Delivering w (id handle);
      if (delivering : bool) then mret (false, w)
      else
        let later := bool_decide (0 <= Diff d (deadline n)) in
        w ← upd w (id handle) (fun n =>
              let n := set_deadline d n in
              match p with Some p => set_payload p n | None => n end);
        if later then mret (true, w)
        else
          w ← Unlink w (id handle);
          w ← Place w (id handle);
          mret (true, w)
  end.

Definition Refresh (w : t) (handle : ExpiryHandle) (d : Z) : run (bool * t) :=
  rearm w handle d None.
Definition Reschedule (w : t) (handle : ExpiryHandle) (d : Z) (p : Payload) : run (bool * t) :=
  rearm w handle d (Some p).

Definition Cancel (w : t) (handle : ExpiryHandle) : run (bool * t) :=
  o ← Resolve w handle;
  match o with
  | None => mret (false, w)
  | Some _ =>
      w ← Unlink w (id handle);
      w ← Free w (id handle);
      mret (true, w)
  end.

Definition Alive (w : t) (handle : ExpiryHandle) : run bool :=
  o ← Resolve w handle; mret (match o with Some _ => true | None => false end).

Definition DeadlineOf (w : t) (handle : ExpiryHandle) : run (option Z) :=
  o ← Resolve w handle; mret (match o with Some n => Some (deadline n) | None => None end).

Definition size (w : t) : Z := size_ w.
Definition full (w : t) : bool := bool_decide (free_head_ w = kNil).
Definition wheel_time (w : t) : Z := cur_ w.

(** ** Time *)

Definition SlotsMask : Z := 2 ^ Z.of_nat kSlots - 1.

(** The distance of a level's next event, for a non-zero occupancy word. *)
Definition level_event (w : t) (level : nat) (bits : Z) : Z :=
  let sh := shift_ w + Z.of_nat (level * LevelBits) in
  let here := Z.land (wrap 32 (Z.shiftr (cur_ w) sh)) kSlotMask in
  let start := Z.land (here + 1) kSlotMask in
  let rotated :=
    if bool_decide (start = 0) then bits
    else Z.land (Z.lor (Z.shiftr bits start)
                   (wrap 64 (Z.shiftl bits (Z.of_nat kSlots - start)))) SlotsMask in
  let d := countr_zero 64 rotated + 1 in
  let boundary := wrap digits (Z.shiftl (Z.shiftr (cur_ w) sh + d) sh) in
  wrap digits (boundary - cur_ w).

(** [NextEvent] over the levels from [level] on: the least distance, if any. *)
Fixpoint next_event (w : t) (words : list Z) (level : nat) (best : option Z) : option Z :=
  match words with
  | [] => best
  | bits :: words =>
      if bool_decide (bits = 0) then next_event w words (level + 1) best
      else
        let dist := level_event w level bits in
        next_event w words (level + 1)
          (match best with
           | Some b => if bool_decide (dist < b) then Some dist else Some b
           | None => Some dist
           end)
  end.

Definition NextEvent (w : t) : option Z := next_event w (occupied_ w) 0 None.

(** The loop of [Arrive] over the levels above 0, highest first. *)
Fixpoint arrive_levels (w : t) (now : Z) (level : nat) : run t :=
  match level with
  | O => mret w
  | S below =>
      let sh := shift_ w + Z.of_nat (level * LevelBits) in
      w ← (if bool_decide (Z.land now (Z.shiftl 1 sh - 1) = 0)
           then Splice w (level * kSlots +
                          Z.to_nat (Z.land (wrap 32 (Z.shiftr now sh)) kSlotMask)) kMoving
           else mret w);
      arrive_levels w now below
  end.

Definition Arrive (w : t) (now : Z) : run t :=
  let w := with_cur now w in
  w ← arrive_levels w now (Levels - 1);
  Splice w (Z.to_nat (Z.land (wrap 32 (Z.shiftr now (shift_ w))) kSlotMask)) kReady.

(** ** Polling *)

(** What a callback may do: arm, move and cancel timers, and answer whether the
    delivered timer is spent or armed again. *)
Inductive prog :=
  | PDone (again : option Z)
  | PSchedule (d : Z) (p : Payload) (k : ExpiryHandle -> prog)
  | PRefresh (h : ExpiryHandle) (d : Z) (k : bool -> prog)
  | PReschedule (h : ExpiryHandle) (d : Z) (p : Payload) (k : bool -> prog)
  | PCancel (h : ExpiryHandle) (k : bool -> prog).

Fixpoint run_prog (w : t) (c : prog) : run (option Z * t) :=
  match c with
  | PDone again => mret (again, w)
  | PSchedule d p k => '(h, w) ← Schedule w d p; run_prog w (k h)
  | PRefresh h d k => '(b, w) ← Refresh w h d; run_prog w (k b)
  | PReschedule h d p k => '(b, w) ← Reschedule w h d p; run_prog w (k b)
  | PCancel h k => '(b, w) ← Cancel w h; run_prog w (k b)
  end.

Definition add_fired (r : PollResult) : PollResult := mk_result (fired r + 1) (moved r) (exhausted r).
Definition add_moved (r : PollResult) : PollResult := mk_result (fired r) (moved r + 1) (exhausted r).
Definition set_exhausted (r : PollResult) : PollResult := mk_result (fired r) (moved r) true.

Definition Deliver (w : t) (index : nat) (fn : Payload -> prog) (r : PollResult)
    : run (PollResult * t) :=
  w ← Unlink w index;
  n ← node w index;
  if bool_decide (0 < Diff (EndOf w (deadline n)) (cur_ w))
  then w ← Place w index; mret (add_moved r, w)
  else
    let g := generation n in
    w ← upd w index (fun n => set_prev index (set_next index n));
    let w := with_trace (mk_delivery (mk_handle index g) (deadline n) (cur_ w)) w in
    '(again, w) ← run_prog w (fn (payload n));
    n ← node w index;
    if bool_decide (generation n = g)
    then
      match again with
      | Some d =>
          w ← upd w index (set_deadline d);
          w ← Place w index;
          mret (add_fired r, w)
      | None => w ← Free w index; mret (add_fired r, w)
      end
    else mret (add_fired r, w).

(** The loop of [PollImpl]. *)
Fixpoint poll_loop (fuel : nat) (w : t) (target budget work : Z) (fn : Payload -> prog)
    (r : PollResult) : run (PollResult * t) :=
  match fuel with
  | O => Undef
  | S fuel =>
      ready ← node w kReady;
      if bool_decide (next ready <> kReady) then
        if bool_decide (work = budget) then mret (set_exhausted r, w)
        else
          '(r, w) ← Deliver w (next ready) fn r;
          poll_loop fuel w target budget (work + 1) fn r
      else
        moving ← node w kMoving;
        if bool_decide (next moving <> kMoving) then
          if bool_decide (work = budget) then mret (set_exhausted r, w)
          else
            let index := next moving in
            w ← Unlink w index;
            w ← Place w index;
            poll_loop fuel w target budget (work + 1) fn (add_moved r)
        else
          match NextEvent w with
          | Some dist =>
              if bool_decide (dist <= wrap digits (target - cur_ w))
              then
                w ← Arrive w (wrap digits (cur_ w + dist));
                poll_loop fuel w target budget work fn r
              else mret (r, with_cur target w)
          | None => mret (r, with_cur target w)
          end
  end.

(** Every second round does a unit of work. *)
Definition poll_fuel (budget : Z) : nat := 2 * Z.to_nat budget + 3.

Definition PollImpl (w : t) (now budget : Z) (fn : Payload -> prog) : run (PollResult * t) :=
  let target := Z.ldiff now (UnitMask (shift_ w)) in
  let target := if bool_decide (Diff target (cur_ w) < 0) then cur_ w else target in
  let r := mk_result 0 0 false in
  if bool_decide (budget = 0)
  then
    ready ← node w kReady;
    moving ← node w kMoving;
    let due := match NextEvent w with
               | Some dist => bool_decide (dist <= wrap digits (target - cur_ w))
               | None => false
               end in
    mret (mk_result 0 0 (bool_decide (next ready <> kReady) ||
                         bool_decide (next moving <> kMoving) || due), w)
  else poll_loop (poll_fuel budget) w target budget 0 fn r.

Definition Poll (w : t) (now budget : Z) (fn : Payload -> prog) : run (PollResult * t) :=
  check (negb (polling_ w)) ;;
  let w := with_polling true w in
  '(r, w) ← PollImpl w now budget fn;
  mret (r, with_polling false w).

End Wheel.

Arguments Node : clear implicits.
Arguments t : clear implicits.
Arguments prog : clear implicits.

End Wheel.
