(* ===== verification/ExpiryLists.v ===== *)
(** * Circular lists in the node array

    What [Link], [Unlink], [Splice] and [Free] of [ExpiryWheel.v] do to the
    links: first as updates of the [next] and [prev] of every index, then on
    the lists a path of links spells out. *)

From stdpp Require Import functions.
From S2P Require Import Prelude ExpiryWheel.
Open Scope Z_scope.

Module Rings.
Import Wheel.

(** One function updated at one point, the point decided. *)
Ltac at_point j i :=
  destruct (decide (j = i)) as [-> | ?];
  rewrite ?fn_lookup_insert, ?fn_lookup_insert_ne by done.

Section Rings.
Context {CF : Config} {P : Type}.
Implicit Types (w : Wheel.t P) (i j h : nat).

(** ** Fields of a node *)

Definition nxt w i : option nat := next <$> nodes_ w !! i.
Definition prv w i : option nat := prev <$> nodes_ w !! i.
Definition data w i : option (Z * Z * P) :=
  (fun n => (generation n, deadline n, payload n)) <$> nodes_ w !! i.

Definition in_array w i : Prop := (i < length (nodes_ w))%nat.

(** Only links and occupancy words differ. *)
Record same_rest w w' : Prop := {
  sr_length : length (nodes_ w') = length (nodes_ w);
  sr_data i : data w' i = data w i;
  sr_capacity : capacity_ w' = capacity_ w;
  sr_shift : shift_ w' = shift_ w;
  sr_cur : cur_ w' = cur_ w;
  sr_free : free_head_ w' = free_head_ w;
  sr_size : size_ w' = size_ w;
  sr_quarantined : quarantined_ w' = quarantined_ w;
  sr_polling : polling_ w' = polling_ w;
  sr_trace : trace_ w' = trace_ w
}.

Lemma same_rest_refl w : same_rest w w.
Proof. by split. Qed.

Lemma same_rest_trans w1 w2 w3 : same_rest w1 w2 -> same_rest w2 w3 -> same_rest w1 w3.
Proof. intros [] []. split; intros; congruence. Qed.

Lemma upd_ok w i f n :
  nodes_ w !! i = Some n -> upd w i f = Ret (with_nodes (<[i := f n]> (nodes_ w)) w).
Proof. intros Hn. unfold upd, node. by rewrite (at_lookup _ _ _ Hn). Qed.

Lemma node_ok w i : in_array w i -> ∃ n, nodes_ w !! i = Some n ∧ node w i = Ret n.
Proof.
  intros Hi. destruct (lookup_lt_is_Some_2 _ _ Hi) as [n Hn]. exists n. split; [done |]. by apply at_lookup.
Qed.

Lemma lookup_upd w i j (x n : Node P) :
  nodes_ w !! i = Some x ->
  <[i := n]> (nodes_ w) !! j = if decide (j = i) then Some n else nodes_ w !! j.
Proof.
  intros Hi. case_decide as Hd; [subst j; apply list_lookup_insert_eq; by eapply lookup_lt_Some |].
  by apply list_lookup_insert_ne.
Qed.

Lemma upd_prev w i p :
  in_array w i ->
  ∃ w', upd w i (set_prev p) = Ret w' ∧ same_rest w w' ∧ occupied_ w' = occupied_ w ∧
    (∀ j, nxt w' j = nxt w j) ∧ (∀ j, prv w' j = if decide (j = i) then Some p else prv w j).
Proof.
  intros Hi. destruct (node_ok w i Hi) as (n & Hn & _). rewrite (upd_ok _ _ _ _ Hn).
  eexists. split; [done |]. unfold nxt, prv.
  assert (∀ j, <[i := set_prev p n]> (nodes_ w) !! j =
    if decide (j = i) then Some (set_prev p n) else nodes_ w !! j) as Hl
    by (intros j; by eapply lookup_upd).
  split_and!; simpl; [| done | |].
  - split; try done; simpl; [by rewrite length_insert |]. intros j. unfold data. simpl. rewrite Hl.
    case_decide; [subst j; by rewrite Hn | done].
  - intros j. rewrite Hl. case_decide; [subst j; by rewrite Hn | done].
  - intros j. rewrite Hl. by case_decide.
Qed.

Lemma upd_next w i x :
  in_array w i ->
  ∃ w', upd w i (set_next x) = Ret w' ∧ same_rest w w' ∧ occupied_ w' = occupied_ w ∧
    (∀ j, nxt w' j = if decide (j = i) then Some x else nxt w j) ∧ (∀ j, prv w' j = prv w j).
Proof.
  intros Hi. destruct (node_ok w i Hi) as (n & Hn & _). rewrite (upd_ok _ _ _ _ Hn).
  eexists. split; [done |]. unfold nxt, prv.
  assert (∀ j, <[i := set_next x n]> (nodes_ w) !! j =
    if decide (j = i) then Some (set_next x n) else nodes_ w !! j) as Hl
    by (intros j; by eapply lookup_upd).
  split_and!; simpl; [| done | |].
  - split; try done; simpl; [by rewrite length_insert |]. intros j. unfold data. simpl. rewrite Hl.
    case_decide; [subst j; by rewrite Hn | done].
  - intros j. rewrite Hl. by case_decide.
  - intros j. rewrite Hl. case_decide; [subst j; by rewrite Hn | done].
Qed.

(** ** Occupancy words *)

Definition occ w level : option Z := occupied_ w !! level.

Lemma occupy_spec w h o :
  occupied_ w !! (h / kSlots)%nat = Some o ->
  ∃ w', occupy w h = Ret w' ∧ same_rest w w' ∧ nodes_ w' = nodes_ w ∧
    occupied_ w' = <[(h / kSlots)%nat := Z.lor o (Z.shiftl 1 (Z.of_nat (h mod kSlots)))]> (occupied_ w).
Proof.
  intros Ho. unfold occupy. rewrite (at_lookup _ _ _ Ho). eexists. split; [done |]. by split.
Qed.

Lemma vacate_spec w h o :
  occupied_ w !! (h / kSlots)%nat = Some o ->
  ∃ w', vacate w h = Ret w' ∧ same_rest w w' ∧ nodes_ w' = nodes_ w ∧
    occupied_ w' = <[(h / kSlots)%nat := Z.ldiff o (Z.shiftl 1 (Z.of_nat (h mod kSlots)))]> (occupied_ w).
Proof.
  intros Ho. unfold vacate. rewrite (at_lookup _ _ _ Ho). eexists. split; [done |]. by split.
Qed.

(** The words of [w'] after occupying or vacating [h]. *)
Definition occ_set (b : bool) h w : list Z :=
  if decide (h < kWheelNodes)%nat then
    alter (fun o => (if b then Z.lor else Z.ldiff) o (Z.shiftl 1 (Z.of_nat (h mod kSlots))))
      (h / kSlots)%nat (occupied_ w)
  else occupied_ w.

Lemma alter_as_insert {A} (f : A -> A) (l : list A) i x :
  l !! i = Some x -> alter f i l = <[i := f x]> l.
Proof.
  intros Hx. apply list_eq. intros j. destruct (decide (i = j)) as [<- | Hne].
  - rewrite list_lookup_alter_eq, Hx, list_lookup_insert_eq; [done |]. by eapply lookup_lt_Some.
  - by rewrite list_lookup_alter_ne, list_lookup_insert_ne.
Qed.

Lemma list_alter_Some {A} (f : A -> A) (l : list A) i j y :
  alter f i l !! j = Some y ->
  (i = j ∧ ∃ x, l !! j = Some x ∧ y = f x) ∨ (i <> j ∧ l !! j = Some y).
Proof.
  destruct (decide (i = j)) as [<- | Hne].
  - rewrite list_lookup_alter_eq. intros Hy. apply fmap_Some in Hy as (x & Hx & ->). left. eauto.
  - rewrite list_lookup_alter_ne by done. by right.
Qed.

Lemma kSlots_pos : (0 < kSlots)%nat.
Proof. unfold kSlots. pose proof (Nat.pow_nonzero 2 LevelBits). lia. Qed.

Lemma level_of h : (h < kWheelNodes)%nat -> (h / kSlots < Levels)%nat.
Proof. intros Hh. apply Nat.Div0.div_lt_upper_bound. unfold kWheelNodes in Hh. lia. Qed.

Lemma occupy_if w h :
  length (occupied_ w) = Levels ->
  ∃ w', (if bool_decide (h < kWheelNodes)%nat then occupy w h else mret w) = Ret w' ∧
    same_rest w w' ∧ nodes_ w' = nodes_ w ∧ occupied_ w' = occ_set true h w.
Proof.
  intros Hl. unfold occ_set. case_bool_decide as Hh.
  - rewrite decide_True by done. pose proof (level_of h Hh) as Hlv. rewrite <- Hl in Hlv.
    destruct (lookup_lt_is_Some_2 _ _ Hlv) as [o Ho].
    destruct (occupy_spec w h o Ho) as (w' & -> & Hs & Hn & Hoc). exists w'. split_and!; try done.
    rewrite Hoc. by rewrite (alter_as_insert _ _ _ _ Ho).
  - rewrite decide_False by done. exists w. split_and!; try done.
Qed.

Lemma vacate_ok w h :
  length (occupied_ w) = Levels -> (h < kWheelNodes)%nat ->
  ∃ w', vacate w h = Ret w' ∧ same_rest w w' ∧ nodes_ w' = nodes_ w ∧
    occupied_ w' = occ_set false h w.
Proof.
  intros Hl Hh. unfold occ_set. rewrite decide_True by done. pose proof (level_of h Hh) as Hlv.
  rewrite <- Hl in Hlv. destruct (lookup_lt_is_Some_2 _ _ Hlv) as [o Ho].
  destruct (vacate_spec w h o Ho) as (w' & -> & Hs & Hn & Hoc). exists w'. split_and!; try done.
  rewrite Hoc. by rewrite (alter_as_insert _ _ _ _ Ho).
Qed.

(** ** The links after each operation *)

Lemma nxt_in_array w i x : nxt w i = Some x -> in_array w i.
Proof. unfold nxt. intros Hx. apply fmap_Some in Hx as (n & Hn & _). by eapply lookup_lt_Some. Qed.

Lemma prv_in_array w i x : prv w i = Some x -> in_array w i.
Proof. unfold prv. intros Hx. apply fmap_Some in Hx as (n & Hn & _). by eapply lookup_lt_Some. Qed.

Lemma nodes_links w w' : nodes_ w' = nodes_ w -> (∀ j, nxt w' j = nxt w j) ∧ (∀ j, prv w' j = prv w j).
Proof. intros Hn. unfold nxt, prv. by rewrite Hn. Qed.

Lemma in_array_rest w w' i : same_rest w w' -> in_array w i -> in_array w' i.
Proof. intros [Hl]. unfold in_array. lia. Qed.

(** An index of the array is one after any number of updates of links. *)
Ltac in_array_tac :=
  unfold in_array in *;
  repeat match goal with
  | Hs : same_rest _ _ |- _ => apply sr_length in Hs
  end; lia.

(** A chain of updates, one at a time. *)
Ltac upd_step :=
  match goal with
  | |- context [upd ?w ?i (set_prev ?p)] =>
      let w' := fresh "w" in let Hr := fresh "Hr" in let Ho := fresh "Ho" in
      let Hn := fresh "Hn" in let Hp := fresh "Hp" in
      destruct (upd_prev w i p) as (w' & -> & Hr & Ho & Hn & Hp);
        [in_array_tac |]; cbn [mbind run_bind]
  | |- context [upd ?w ?i (set_next ?p)] =>
      let w' := fresh "w" in let Hr := fresh "Hr" in let Ho := fresh "Ho" in
      let Hn := fresh "Hn" in let Hp := fresh "Hp" in
      destruct (upd_next w i p) as (w' & -> & Hr & Ho & Hn & Hp);
        [in_array_tac |]; cbn [mbind run_bind]
  end.

Lemma occ_set_same b h w w' : occupied_ w' = occupied_ w -> occ_set b h w' = occ_set b h w.
Proof. intros Ho. unfold occ_set. by rewrite Ho. Qed.

Lemma Link_spec w h i last :
  length (occupied_ w) = Levels -> in_array w h -> in_array w i -> in_array w last ->
  prv w h = Some last ->
  ∃ w', Link w h i = Ret w' ∧ same_rest w w' ∧ occupied_ w' = occ_set true h w ∧
    (∀ j, nxt w' j = if decide (j = last) then Some i else if decide (j = i) then Some h else nxt w j) ∧
    (∀ j, prv w' j = if decide (j = h) then Some i else if decide (j = i) then Some last else prv w j).
Proof.
  intros Hl Hh Hi Hla Hp. unfold Link. destruct (node_ok w h Hh) as (n & Hn & ->). cbn [mbind run_bind].
  assert (prev n = last) as -> by (unfold prv in Hp; rewrite Hn in Hp; by injection Hp).
  do 4 upd_step.
  destruct (occupy_if w3 h) as (w' & -> & Hs & Hnd & Hoc); [congruence |].
  destruct (nodes_links _ _ Hnd) as [Hx Hv].
  exists w'. split; [done |]. split; [by eauto using same_rest_trans |]. split_and!.
  - rewrite Hoc. apply occ_set_same. congruence.
  - intros j. rewrite Hx. rewrite Hn3, Hn2, Hn1, Hn0. done.
  - intros j. rewrite Hv. rewrite Hp3, Hp2, Hp1, Hp0. done.
Qed.

Lemma field_ok w i p x :
  prv w i = Some p -> nxt w i = Some x -> ∃ n, node w i = Ret n ∧ prev n = p ∧ next n = x.
Proof.
  unfold prv, nxt. intros Hp Hx. apply fmap_Some in Hp as (n & Hn & ->). rewrite Hn in Hx.
  injection Hx as <-. exists n. split; [by apply at_lookup | done].
Qed.

Lemma Unlink_spec w i p x :
  length (occupied_ w) = Levels -> in_array w p -> in_array w x ->
  prv w i = Some p -> nxt w i = Some x ->
  ∃ w', Unlink w i = Ret w' ∧ same_rest w w' ∧
    occupied_ w' = (if decide (p = x) then occ_set false p w else occupied_ w) ∧
    (∀ j, nxt w' j = if decide (j = p) then Some x else nxt w j) ∧
    (∀ j, prv w' j = if decide (j = x) then Some p else prv w j).
Proof.
  intros Hl Hip Hix Hp Hx. unfold Unlink.
  destruct (field_ok w i p x Hp Hx) as (n & -> & Hnp & Hnx). cbn [mbind run_bind]. rewrite Hnp, Hnx. do 2 upd_step.
  assert (∃ w', (if bool_decide (p = x) && bool_decide (p < kWheelNodes)%nat then vacate w1 p else mret w1)
    = Ret w' ∧ same_rest w1 w' ∧ nodes_ w' = nodes_ w1 ∧
    occupied_ w' = (if decide (p = x) then occ_set false p w else occupied_ w)) as (w' & -> & Hs & Hnd & Hoc).
  { case_bool_decide as Hpx; simpl.
    - rewrite decide_True by done. case_bool_decide as Hk.
      + destruct (vacate_ok w1 p) as (w' & H1 & H2 & H3 & H4); [congruence | done |].
        exists w'. split_and!; [done.. |]. rewrite H4. apply occ_set_same. congruence.
      + exists w1. split_and!; [done | apply same_rest_refl | done |]. unfold occ_set.
        rewrite decide_False by done. congruence.
    - rewrite decide_False by done. exists w1. split_and!; [done | apply same_rest_refl | done | congruence]. }
  destruct (nodes_links _ _ Hnd) as [Hx' Hv].
  exists w'. split; [done |]. split; [by eauto using same_rest_trans |]. split_and!; [done | |].
  - intros j. rewrite Hx'. rewrite Hn0, Hn. done.
  - intros j. rewrite Hv. rewrite Hp1, Hp0. done.
Qed.

Lemma Splice_spec w from to first last tail :
  length (occupied_ w) = Levels ->
  in_array w first -> in_array w last -> in_array w tail -> in_array w to -> from <> to ->
  nxt w from = Some first -> prv w from = Some last -> prv w to = Some tail -> first <> from ->
  ∃ w', Splice w from to = Ret w' ∧ same_rest w w' ∧ occupied_ w' = occ_set false from w ∧
    (∀ j, nxt w' j = if decide (j = from) then Some from else if decide (j = last) then Some to
                     else if decide (j = tail) then Some first else nxt w j) ∧
    (∀ j, prv w' j = if decide (j = from) then Some from else if decide (j = to) then Some last
                     else if decide (j = first) then Some tail else prv w j).
Proof.
  intros Hl Hif Hil Hit Hito Hne Hx Hp Ht Hfr. unfold Splice.
  pose proof (nxt_in_array _ _ _ Hx) as Hifr.
  destruct (field_ok w from last first Hp Hx) as (n & -> & Hnp & Hnx). cbn [mbind run_bind]. rewrite Hnp, Hnx.
  rewrite bool_decide_eq_false_2 by done.
  destruct (node_ok w to Hito) as (m & Hm & ->). cbn [mbind run_bind].
  assert (prev m = tail) as -> by (unfold prv in Ht; rewrite Hm in Ht; by injection Ht).
  do 6 upd_step.
  assert (∃ w', (if bool_decide (from < kWheelNodes)%nat then vacate w5 from else mret w5)
    = Ret w' ∧ same_rest w5 w' ∧ nodes_ w' = nodes_ w5 ∧ occupied_ w' = occ_set false from w)
    as (w' & -> & Hs & Hnd & Hoc).
  { case_bool_decide as Hk.
    - destruct (vacate_ok w5 from) as (w' & H1 & H2 & H3 & H4); [congruence | done |].
      exists w'. split_and!; [done.. |]. rewrite H4. apply occ_set_same. congruence.
    - exists w5. split_and!; [done | apply same_rest_refl | done |]. unfold occ_set.
      rewrite decide_False by done. congruence. }
  destruct (nodes_links _ _ Hnd) as [Hx' Hv].
  exists w'. split; [done |]. split; [by eauto 10 using same_rest_trans |]. split_and!; [done | |].
  - intros j. rewrite Hx'. rewrite Hn4, Hn3, Hn2, Hn1, Hn0, Hn. done.
  - intros j. rewrite Hv. rewrite Hp5, Hp4, Hp3, Hp2, Hp1, Hp0. done.
Qed.

(** ** Lists as paths of links *)

Definition linked w i j : Prop := nxt w i = Some j ∧ prv w j = Some i.

Fixpoint path w i (l : list nat) j : Prop :=
  match l with
  | [] => linked w i j
  | x :: l => linked w i x ∧ path w x l j
  end.

Lemma path_app w i l1 x l2 j : path w i (l1 ++ x :: l2) j <-> path w i l1 x ∧ path w x l2 j.
Proof. revert i. induction l1 as [| y l1 IH]; intros i; simpl; [done |]. rewrite IH. tauto. Qed.

(** A path depends on the links it goes along. *)
Lemma path_frame w w' i l j :
  (∀ x, x ∈ i :: l -> nxt w' x = nxt w x) -> (∀ x, x ∈ l ++ [j] -> prv w' x = prv w x) ->
  path w i l j -> path w' i l j.
Proof.
  revert i. induction l as [| y l IH]; intros i Hn Hp; simpl.
  - intros [H1 H2]. split; [rewrite Hn; [done | by left] | rewrite Hp; [done | by left]].
  - intros [[H1 H2] H3]. split; [split |].
    + rewrite Hn; [done | by left].
    + rewrite Hp; [done | by left].
    + apply IH; [intros x Hx; apply Hn; by right | intros x Hx; apply Hp; by right | done].
Qed.

Lemma path_in_array w i l j x : path w i l j -> x ∈ i :: l -> in_array w x.
Proof.
  revert i. induction l as [| y l IH]; intros i; simpl.
  - intros [H1 _] Hx. apply list_elem_of_singleton in Hx as ->. by eapply nxt_in_array.
  - intros [[H1 _] H2] Hx. apply elem_of_cons in Hx as [-> | Hx]; [by eapply nxt_in_array |]. by eapply IH.
Qed.

Lemma path_first w i l j : path w i l j -> nxt w i = Some (hd j l).
Proof. destruct l; simpl; [by intros [] | by intros [[] _]]. Qed.

Lemma path_last w i l j : path w i l j -> prv w j = Some (List.last l i).
Proof.
  revert i. induction l as [| y l IH]; intros i; simpl; [by intros [] |]. intros [_ H].
  rewrite (IH _ H). destruct l; [done |]. f_equal.
  assert (∀ (k : list nat) a b c, List.last (a :: k) b = List.last (a :: k) c) as E
    by (intros k; induction k as [| d k IHk]; [done |]; intros a b c; apply (IHk d)).
  apply E.
Qed.

(** ** The lists of the wheel *)

(** Where a node is: in the list of a head, in the free list, retired, being
    delivered, between two lists, or no timer at all. *)
Inductive spot := InList (h : nat) | IsFree | IsQuar | IsDeliv | IsLoose | NotTimer.

#[export] Instance spot_eq_dec : EqDecision spot.
Proof. solve_decision. Defined.

Record ghost := mk_ghost {
  lists : nat -> list nat;
  spots : nat -> spot;
  free : list nat
}.

(** The free list, from its head. *)
Fixpoint chain w (f : nat) (l : list nat) : Prop :=
  match l with
  | [] => f = kNil
  | x :: l => f = x ∧ ∃ y, nxt w x = Some y ∧ chain w y l
  end.

(** The occupancy words agree with the lists of the slots. *)
Record words_ok w (L : nat -> list nat) : Prop := {
  wo_length : length (occupied_ w) = Levels;
  wo_range level o : occupied_ w !! level = Some o -> 0 <= o < 2 ^ Z.of_nat kSlots;
  wo_bit level o s :
    occupied_ w !! level = Some o -> (s < kSlots)%nat ->
    Z.testbit o (Z.of_nat s) = negb (bool_decide (L (level * kSlots + s)%nat = []))
}.

(** A node is in exactly one place, and the links spell out the lists. *)
Record links w (g : ghost) : Prop := {
  lk_ring h : (h < kFirst)%nat -> path w h (lists g h) h;
  lk_nodup h : NoDup (lists g h);
  lk_spot i h : i ∈ lists g h <-> spots g i = InList h;
  lk_head i h : spots g i = InList h -> (h < kFirst)%nat;
  lk_timer i : spots g i <> NotTimer <-> (kFirst <= i < length (nodes_ w))%nat;
  lk_deliv i : spots g i = IsDeliv -> nxt w i = Some i ∧ prv w i = Some i;
  lk_free : chain w (free_head_ w) (free g);
  lk_free_nodup : NoDup (free g);
  lk_free_spot i : i ∈ free g <-> spots g i = IsFree;
  lk_words : words_ok w (lists g)
}.

(** The list a node belongs to, as its head or as a member. *)
Definition home (g : ghost) i : option nat :=
  if decide (i < kFirst)%nat then Some i
  else match spots g i with InList h => Some h | _ => None end.

Lemma ring_home w g h x : links w g -> (h < kFirst)%nat -> x ∈ h :: lists g h <-> home g x = Some h.
Proof.
  intros Hk Hh. rewrite elem_of_cons, (lk_spot _ _ Hk). unfold home. case_decide as Hd; split.
  - intros [-> | Hs]; [done |]. pose proof (proj1 (lk_timer _ _ Hk x)) as Ht. rewrite Hs in Ht.
    specialize (Ht ltac:(done)). lia.
  - intros [= ->]. by left.
  - intros [-> | ->]; [lia | done].
  - case_match; intros [= ->]. by right.
Qed.

Lemma list_home w g h x : links w g -> x ∈ lists g h -> home g x = Some h ∧ (kFirst <= x)%nat ∧ (h < kFirst)%nat.
Proof.
  intros Hk Hx. apply (lk_spot _ _ Hk) in Hx as Hs. pose proof (lk_head _ _ Hk _ _ Hs) as Hh.
  split_and!; [| | done]. { apply (ring_home _ _ _ _ Hk Hh). by right. }
  apply (lk_timer _ _ Hk). by rewrite Hs.
Qed.

Lemma ring_in_array w g h x : links w g -> (h < kFirst)%nat -> x ∈ h :: lists g h -> in_array w x.
Proof. intros Hk Hh Hx. by eapply path_in_array; [apply (lk_ring _ _ Hk h Hh) |]. Qed.

Lemma last_elem (l : list nat) d : List.last l d ∈ d :: l.
Proof.
  revert d. induction l as [| x l IH]; intros d; simpl; [by left |]. right.
  destruct l as [| y l]; [by left |]. specialize (IH x).
  replace (List.last (y :: l) d) with (List.last (y :: l) x); [done |].
  clear. revert y. induction l as [| z l IH]; intros y; [done |]. apply (IH z).
Qed.

Lemma hd_elem (l : list nat) d : hd d l ∈ l ++ [d].
Proof. destruct l; simpl; by left. Qed.

(** ** Occupancy words and lists *)

Lemma testbit_one_shift k n : 0 <= k -> 0 <= n -> Z.testbit (Z.shiftl 1 k) n = bool_decide (k = n).
Proof.
  intros Hk Hn. rewrite Z.shiftl_mul_pow2, Z.mul_1_l, Z.pow2_bits_eqb by lia.
  case_bool_decide; [by apply Z.eqb_eq | by apply Z.eqb_neq].
Qed.

Lemma word_set_bit (b : bool) o k n :
  0 <= k -> 0 <= n ->
  Z.testbit ((if b then Z.lor else Z.ldiff) o (Z.shiftl 1 k)) n =
  if bool_decide (k = n) then b else Z.testbit o n.
Proof.
  intros Hk Hn. destruct b.
  - rewrite Z.lor_spec, testbit_one_shift by done. case_bool_decide; by rewrite ?orb_true_r, ?orb_false_r.
  - rewrite Z.ldiff_spec, testbit_one_shift by done. case_bool_decide; by rewrite ?andb_false_r, ?andb_true_r.
Qed.

(** A non-negative number whose bits from [n] on are clear is below [2 ^ n]. *)
Lemma high_bits_clear x n :
  0 <= x -> 0 <= n -> (∀ k, n <= k -> Z.testbit x k = false) -> x < 2 ^ n.
Proof.
  intros Hx Hn Hb. destruct (decide (x = 0)) as [-> | Hne]; [by apply Z.pow_pos_nonneg |].
  apply Z.log2_lt_pow2; [lia |]. destruct (decide (n <= Z.log2 x)) as [Hle | Hgt]; [| lia].
  specialize (Hb _ Hle). rewrite Z.bit_log2 in Hb; [done | lia].
Qed.

Lemma bits_above x n k : 0 <= x < 2 ^ n -> n <= k -> Z.testbit x k = false.
Proof.
  intros Hx Hk. destruct (decide (x = 0)) as [-> | Hne]; [apply Z.bits_0 |].
  apply Z.bits_above_log2; [lia |]. assert (Z.log2 x < n) by (apply Z.log2_lt_pow2; lia). lia.
Qed.

Lemma word_set_range (b : bool) o k n :
  0 <= o < 2 ^ n -> 0 <= k < n ->
  0 <= (if b then Z.lor else Z.ldiff) o (Z.shiftl 1 k) < 2 ^ n.
Proof.
  intros Ho Hk. assert (0 <= Z.shiftl 1 k) by (apply Z.shiftl_nonneg; lia).
  assert (0 <= (if b then Z.lor else Z.ldiff) o (Z.shiftl 1 k)) as Hnn.
  { destruct b; [apply Z.lor_nonneg; lia | apply Z.ldiff_nonneg; lia]. }
  split; [done |]. apply high_bits_clear; [done | lia |]. intros j Hj. rewrite word_set_bit by lia.
  rewrite bool_decide_eq_false_2 by lia. apply (bits_above o n); lia.
Qed.

Lemma slot_level level s : (s < kSlots)%nat ->
  ((level * kSlots + s) / kSlots = level)%nat ∧ ((level * kSlots + s) mod kSlots = s)%nat.
Proof.
  intros Hs. pose proof kSlots_pos. split.
  - rewrite Nat.div_add_l by lia. rewrite Nat.div_small by done. lia.
  - rewrite Nat.add_comm, Nat.Div0.mod_add. by apply Nat.mod_small.
Qed.

Lemma slot_in_wheel level s : (level < Levels)%nat -> (s < kSlots)%nat -> (level * kSlots + s < kWheelNodes)%nat.
Proof. intros Hl Hs. unfold kWheelNodes. nia. Qed.

Lemma words_set b h w w' L L' :
  words_ok w L -> occupied_ w' = occ_set b h w ->
  (∀ h', h' <> h -> (h' < kWheelNodes)%nat -> L' h' = [] <-> L h' = []) ->
  ((h < kWheelNodes)%nat -> L' h = [] <-> b = false) ->
  words_ok w' L'.
Proof.
  intros [Hlen Hr Hb] Ho Hne Hh. unfold occ_set in Ho. pose proof kSlots_pos.
  assert (∀ level o s, occupied_ w !! level = Some o -> (s < kSlots)%nat -> (level * kSlots + s)%nat <> h ->
    Z.testbit o (Z.of_nat s) = negb (bool_decide (L' (level * kSlots + s)%nat = []))) as Hother.
  { intros level o s Hw Hs Hn. rewrite (Hb _ _ _ Hw Hs). f_equal. apply bool_decide_ext. symmetry.
    apply Hne; [done |]. apply slot_in_wheel; [| done]. rewrite <- Hlen. by eapply lookup_lt_Some. }
  case_decide as Hd; [| split; rewrite Ho; [done.. |]; intros level o s Hw Hs; eapply Hother; [done.. |];
    intros <-; apply Hd; apply slot_in_wheel; [rewrite <- Hlen; by eapply lookup_lt_Some | done]].
  specialize (Hh Hd). pose proof (Nat.mod_upper_bound h kSlots).
  split; rewrite Ho; [by rewrite length_alter | |].
  - intros level o Hw. apply list_alter_Some in Hw as [(<- & x & Hx & ->) | [_ Hw]]; [| by eapply Hr].
    apply word_set_range; [by eapply Hr | lia].
  - intros level o s Hw Hs. apply list_alter_Some in Hw as [(<- & x & Hx & ->) | [Hl Hw]].
    + rewrite word_set_bit by lia. case_bool_decide as Hk.
      * replace (_ * kSlots + s)%nat with h; [destruct b; case_bool_decide as Hc; simpl; [by apply Hh in Hc | done | done | by destruct Hc; apply Hh] |].
        rewrite (Nat.div_mod_eq h kSlots) at 1. lia.
      * eapply Hother; [done.. |]. intros Heq. apply Hk. rewrite <- Heq at 1.
        destruct (slot_level (h / kSlots) s Hs) as [_ ->]. done.
    + eapply Hother; [done.. |]. intros <-. apply Hl. by apply slot_level.
Qed.

Lemma words_same w w' L L' :
  words_ok w L -> occupied_ w' = occupied_ w ->
  (∀ h, (h < kWheelNodes)%nat -> L' h = [] <-> L h = []) -> words_ok w' L'.
Proof.
  intros Hw Ho HL. apply (words_set true kWheelNodes w w' L); [done | | intros; by apply HL | lia].
  unfold occ_set. rewrite decide_False; [done | lia].
Qed.

(** ** The lists after each operation *)

(** [i] appended to the list of [h]. *)
Definition push h i (g : ghost) : ghost :=
  mk_ghost (<[h := lists g h ++ [i]]> (lists g)) (<[i := InList h]> (spots g)) (free g).

(** [i] taken out of the list of [h], its neighbours [l1] and [l2]. *)
Definition drop h i (g : ghost) : ghost :=
  mk_ghost (<[h := filter (.≠ i) (lists g h)]> (lists g)) (<[i := IsLoose]> (spots g)) (free g).

(** The list of [from] appended to that of [to]. *)
Definition pour from to (g : ghost) : ghost :=
  mk_ghost (<[to := lists g to ++ lists g from]> (<[from := []]> (lists g)))
    (fun i => if decide (spots g i = InList from) then InList to else spots g i) (free g).

(** The only node whose spot changes is set aside. *)
Definition set_spot i (sp : spot) (g : ghost) : ghost :=
  mk_ghost (lists g) (<[i := sp]> (spots g)) (free g).

Lemma chain_frame w w' f l :
  (∀ x, x ∈ l -> nxt w' x = nxt w x) -> chain w f l -> chain w' f l.
Proof.
  revert f. induction l as [| y l IH]; intros f Hn; simpl; [done |]. intros [-> (z & Hz & Hc)].
  split; [done |]. exists z. split; [rewrite Hn; [done | by left] |]. apply IH; [| done].
  intros x Hx. apply Hn. by right.
Qed.

(** A node outside the lists is no part of a ring. *)
Lemma no_home g i : (kFirst <= i)%nat -> (∀ h, spots g i <> InList h) -> home g i = None.
Proof. intros Hi Hs. unfold home. rewrite decide_False by lia. case_match; naive_solver. Qed.

Lemma spot_ge w g i : links w g -> spots g i <> NotTimer -> (kFirst <= i)%nat ∧ in_array w i.
Proof. intros Hk Hs. apply (lk_timer _ _ Hk) in Hs. unfold in_array. lia. Qed.

(** A ring is kept when the links of its nodes are. *)
Lemma ring_frame w w' g h :
  links w g -> (h < kFirst)%nat ->
  (∀ x, home g x = Some h -> nxt w' x = nxt w x ∧ prv w' x = prv w x) ->
  path w' h (lists g h) h.
Proof.
  intros Hk Hh Hf. eapply path_frame; [| | by apply (lk_ring _ _ Hk)].
  - intros x Hx. apply (ring_home _ _ _ _ Hk Hh) in Hx. by apply Hf.
  - intros x Hx. apply Hf, (ring_home _ _ _ _ Hk Hh).
    rewrite elem_of_app, list_elem_of_singleton in Hx. rewrite elem_of_cons. tauto.
Qed.

(** A ring with a node added at its end. *)
Lemma path_push w w' h l i last :
  path w h l h -> NoDup (h :: l) -> (i ∉ h :: l) -> last = List.last l h ->
  (∀ j, nxt w' j = if decide (j = last) then Some i else if decide (j = i) then Some h else nxt w j) ->
  (∀ j, prv w' j = if decide (j = h) then Some i else if decide (j = i) then Some last else prv w j) ->
  path w' h (l ++ [i]) h.
Proof.
  intros Hp Hnd Hi -> Hn Hv. apply not_elem_of_cons in Hi as [Hih Hil].
  destruct l as [| z l _] using rev_ind; simpl in *.
  - unfold linked. rewrite !Hn, !Hv. split_and!; repeat case_decide; congruence.
  - rewrite List.last_last in *. apply path_app in Hp as [Hp Hl]. rewrite <- app_assoc. simpl.
    apply NoDup_cons in Hnd as [Hh Hnd]. apply NoDup_app in Hnd as (Hnd & Hz & _).
    assert (z <> h) by (intros ->; apply Hh; set_solver).
    assert (z <> i) by (intros ->; apply Hil; set_solver).
    apply path_app. split; [| simpl; unfold linked; rewrite !Hn, !Hv; split_and!; repeat case_decide; congruence].
    eapply path_frame; [| | done].
    + intros x Hx. rewrite Hn. rewrite decide_False, decide_False; [done | |].
      * intros ->. apply elem_of_cons in Hx as [-> | Hx]; [done | set_solver].
      * intros ->. apply elem_of_cons in Hx as [-> | Hx]; [done |]. eapply Hz; [done |]. by left.
    + intros x Hx. rewrite Hv. rewrite decide_False, decide_False; [done | |]; intros ->; set_solver.
Qed.

Lemma ring_nodup w g h : links w g -> (h < kFirst)%nat -> NoDup (h :: lists g h).
Proof.
  intros Hk Hh. apply NoDup_cons. split; [| by apply (lk_nodup _ _ Hk)]. intros Hx.
  destruct (list_home _ _ _ _ Hk Hx) as (_ & H1 & _). lia.
Qed.

(** What a change of the lists must show: nodes outside the lists keep their
    places and their links. *)
Lemma links_update w w' g g' :
  links w g -> same_rest w w' -> free g' = free g ->
  (∀ h, (h < kFirst)%nat -> path w' h (lists g' h) h) ->
  (∀ h, NoDup (lists g' h)) -> (∀ i h, i ∈ lists g' h <-> spots g' i = InList h) ->
  (∀ i h, spots g' i = InList h -> (h < kFirst)%nat) ->
  (∀ i, spots g' i = NotTimer <-> spots g i = NotTimer) ->
  (∀ i, spots g' i = IsDeliv -> spots g i = IsDeliv) ->
  (∀ i, spots g' i = IsFree <-> spots g i = IsFree) ->
  (∀ i, spots g' i = IsFree ∨ spots g' i = IsDeliv -> nxt w' i = nxt w i ∧ prv w' i = prv w i) ->
  words_ok w' (lists g') -> links w' g'.
Proof.
  intros Hk Hs Hfr Hring Hnd Hsp Hhd Hnt Hdl Hf Hfix Hw. split; try done.
  - intros i. rewrite (sr_length _ _ Hs), <- (lk_timer _ _ Hk). by rewrite Hnt.
  - intros i Hi. destruct (Hfix i) as [-> ->]; [by right |]. by apply (lk_deliv _ _ Hk), Hdl.
  - rewrite (sr_free _ _ Hs), Hfr. eapply chain_frame; [| apply (lk_free _ _ Hk)]. intros x Hx.
    apply Hfix. left. by apply Hf, (lk_free_spot _ _ Hk).
  - rewrite Hfr. apply (lk_free_nodup _ _ Hk).
  - intros i. rewrite Hfr, Hf. apply (lk_free_spot _ _ Hk).
Qed.

(** Where [Link] may be given a node from. *)
Definition unlisted (sp : spot) : Prop := sp = IsLoose ∨ sp = IsDeliv.

Lemma outside_home w g i sp :
  links w g -> spots g i = sp -> sp <> NotTimer -> (∀ h, sp <> InList h) -> home g i = None.
Proof.
  intros Hk <- Hn Hl. apply no_home; [| done]. by apply (spot_ge w g i Hk).
Qed.

Lemma Link_links w g h i :
  links w g -> (h < kFirst)%nat -> unlisted (spots g i) ->
  ∃ w', Link w h i = Ret w' ∧ same_rest w w' ∧ links w' (push h i g).
Proof.
  intros Hk Hh Hi.
  assert (home g i = None) as Hih by (destruct Hi; by eapply outside_home).
  assert (∀ k, i ∉ lists g k) as Hil by (intros k Hx; apply (list_home _ _ _ _ Hk) in Hx; naive_solver).
  destruct (spot_ge w g i Hk) as [Hge Hia]; [destruct Hi; congruence |].
  pose proof (path_last _ _ _ _ (lk_ring _ _ Hk h Hh)) as Hlast.
  pose proof (last_elem (lists g h) h) as Hle. set (last := List.last (lists g h) h) in *.
  pose proof (proj1 (ring_home _ _ _ _ Hk Hh) Hle) as Hlh.
  assert (home g h = Some h) as Hhh by (apply (ring_home _ _ _ _ Hk Hh); by left).
  destruct (Link_spec w h i last) as (w' & -> & Hs & Ho & Hn & Hv);
    [apply (lk_words _ _ Hk) | apply (ring_in_array _ _ _ _ Hk Hh); by left | done
    | by apply (ring_in_array _ _ _ _ Hk Hh) | done |].
  exists w'. split; [done |]. split; [done |].
  assert (∀ x, x <> i -> home g x <> Some h -> nxt w' x = nxt w x ∧ prv w' x = prv w x) as Hf
    by (intros x Hx Hhx; rewrite Hn, Hv; split; repeat case_decide; congruence).
  apply (links_update w w' g); [done.. | | | | | | | | |]; simpl.
  - intros k Hk'. at_point k h.
    + eapply path_push; [by apply (lk_ring _ _ Hk) | by eapply ring_nodup | | done..].
      intros Hx. apply (ring_home _ _ _ _ Hk Hh) in Hx. congruence.
    + apply (ring_frame w w' g k); [done.. |]. intros x Hx. apply Hf; congruence.
  - intros k. at_point k h; [| apply (lk_nodup _ _ Hk)]. apply NoDup_app.
    split_and!; [apply (lk_nodup _ _ Hk) | | apply NoDup_singleton].
    intros x Hx ->%list_elem_of_singleton. by eapply Hil.
  - intros j k. specialize (Hil k). at_point k h; at_point j i;
      rewrite ?elem_of_app, ?list_elem_of_singleton, <- ?(lk_spot _ _ Hk); naive_solver.
  - intros j k. at_point j i; [by intros [= <-] | apply (lk_head _ _ Hk)].
  - intros j. at_point j i; [destruct Hi as [-> | ->]; done | done].
  - intros j. by at_point j i.
  - intros j. at_point j i; [destruct Hi as [-> | ->]; done | done].
  - intros j. at_point j i; [by intros [] |]. intros Hj. apply Hf; [done |].
    destruct Hj as [Hj | Hj]; by rewrite (outside_home _ _ _ _ Hk Hj).
  - eapply words_set; [apply (lk_words _ _ Hk) | done | intros; by rewrite fn_lookup_insert_ne |].
    intros _. rewrite fn_lookup_insert. by destruct (lists g h).
Qed.

(** A path entered from another node. *)
Lemma path_enter w w' i p l j :
  path w i l j -> nxt w' p = Some (hd j l) -> prv w' (hd j l) = Some p ->
  (∀ x, x ∈ l -> nxt w' x = nxt w x) -> (∀ x, x ∈ tail (l ++ [j]) -> prv w' x = prv w x) ->
  path w' p l j.
Proof.
  destruct l as [| y l]; simpl; [by split |]. intros [_ Hp] Hn Hv Hn' Hv'. split; [by split |].
  by eapply path_frame.
Qed.

Lemma path_drop w w' h l1 i l2 :
  path w h (l1 ++ i :: l2) h -> NoDup (h :: l1 ++ i :: l2) ->
  (∀ j, nxt w' j = if decide (j = List.last l1 h) then Some (hd h l2) else nxt w j) ->
  (∀ j, prv w' j = if decide (j = hd h l2) then Some (List.last l1 h) else prv w j) ->
  path w' h (l1 ++ l2) h.
Proof.
  intros Hp Hnd Hn Hv. apply path_app in Hp as [Hp1 Hp2].
  assert (∀ x, x ∈ tail (l2 ++ [h]) -> x <> hd h l2) as Htl.
  { destruct l2 as [| y l2]; simpl; [by intros x ?%elem_of_nil |]. intros x Hx ->.
    apply NoDup_cons in Hnd as [Hh Hnd]. apply NoDup_app in Hnd as (_ & _ & Hnd).
    rewrite !NoDup_cons in Hnd. apply elem_of_app in Hx as [Hx | ->%list_elem_of_singleton]; [set_solver |].
    apply Hh. set_solver. }
  assert (∀ x, x ∈ l2 -> x <> List.last l1 h) as Hl2.
  { intros x Hx ->. pose proof (last_elem l1 h) as Hl. apply NoDup_cons in Hnd as [Hh Hnd].
    apply NoDup_app in Hnd as (_ & Hd & _). apply elem_of_cons in Hl as [Heq | Hl].
    - rewrite Heq in Hx. apply Hh. set_solver.
    - apply (Hd _ Hl). by right. }
  assert (path w' (List.last l1 h) l2 h) as Hp'.
  { eapply path_enter; [done | by rewrite Hn, decide_True | by rewrite Hv, decide_True | |].
    - intros x Hx. rewrite Hn, decide_False; [done | by apply Hl2].
    - intros x Hx. rewrite Hv, decide_False; [done | by apply Htl]. }
  destruct l1 as [| z l1 _] using rev_ind; [done |]. rewrite List.last_last in *.
  apply path_app in Hp1 as [Hp1 _]. rewrite <- app_assoc. simpl. apply path_app. split; [| done].
  apply NoDup_cons in Hnd as [Hh Hnd]. apply NoDup_app in Hnd as (Hnd & Hd & _).
  apply NoDup_app in Hnd as (_ & Hd1 & _).
  eapply path_frame; [| | done].
  - intros x Hx. rewrite Hn, decide_False; [done |]. intros ->. apply elem_of_cons in Hx as [-> | Hx]; [set_solver |].
    eapply Hd1; [done |]. by left.
  - intros x Hx. rewrite Hv, decide_False; [done |]. intros ->. pose proof (hd_elem l2 h) as Hhd.
    apply elem_of_app in Hhd as [Hhd | Heq%list_elem_of_singleton]; [eapply Hd; [done |]; by right |].
    rewrite Heq in Hx. apply Hh. set_solver.
Qed.

Lemma filter_keep (l : list nat) i : (i ∉ l) -> filter (.≠ i) l = l.
Proof.
  induction l as [| x l IH]; [done |]. rewrite not_elem_of_cons. intros [Hx Hl].
  rewrite filter_cons_True by done. by rewrite IH.
Qed.

Lemma filter_drop (l1 l2 : list nat) i :
  NoDup (l1 ++ i :: l2) -> filter (.≠ i) (l1 ++ i :: l2) = l1 ++ l2.
Proof.
  intros Hnd. apply NoDup_app in Hnd as (_ & Hd & [Hi _]%NoDup_cons).
  rewrite filter_app, filter_cons_False by (intros Hn; by apply Hn).
  rewrite !filter_keep; [done.. |]. intros Hx. apply (Hd _ Hx). by left.
Qed.

Lemma neighbours h l1 i l2 :
  NoDup (h :: l1 ++ i :: l2) -> List.last l1 h = hd h l2 <-> l1 ++ l2 = [].
Proof.
  intros [Hh (_ & Hd & _)%NoDup_app]%NoDup_cons. split; [| by intros [-> ->]%app_nil]. intros Heq.
  destruct l1 as [| z l1 _] using rev_ind; destruct l2 as [| y l2]; simpl in *; rewrite ?List.last_last in Heq; subst.
  - done.
  - destruct Hh. set_solver.
  - destruct Hh. set_solver.
  - destruct (Hd y); set_solver.
Qed.

Lemma Unlink_links w g h i :
  links w g -> spots g i = InList h ->
  ∃ w', Unlink w i = Ret w' ∧ same_rest w w' ∧ links w' (drop h i g).
Proof.
  intros Hk Hi. pose proof (lk_head _ _ Hk _ _ Hi) as Hh.
  pose proof (proj2 (lk_spot _ _ Hk i h) Hi) as Hin.
  pose proof (ring_nodup w g h Hk Hh) as Hnd. pose proof (lk_ring _ _ Hk h Hh) as Hr.
  pose proof (λ x, proj1 (ring_home w g h x Hk Hh)) as Hhome.
  pose proof (λ x, ring_in_array w g h x Hk Hh) as Hina.
  destruct (list_elem_of_split _ _ Hin) as (l1 & l2 & Hl). rewrite Hl in *.
  apply path_app in Hr as Hr'. destruct Hr' as [Hr1 Hr2].
  set (p := List.last l1 h) in *. set (x := hd h l2) in *.
  assert (p ∈ h :: l1 ++ i :: l2) as Hpin.
  { pose proof (last_elem l1 h) as He. fold p in He. rewrite elem_of_cons, elem_of_app in *. tauto. }
  assert (x ∈ h :: l1 ++ i :: l2) as Hxin.
  { pose proof (hd_elem l2 h) as He. fold x in He.
    rewrite elem_of_app, list_elem_of_singleton in He. rewrite elem_of_cons, elem_of_app, elem_of_cons. tauto. }
  destruct (Unlink_spec w i p x) as (w' & -> & Hs & Ho & Hn & Hv);
    [apply (lk_words _ _ Hk) | by apply Hina | by apply Hina | by apply (path_last _ _ _ _ Hr1)
    | by apply (path_first _ _ _ _ Hr2) |].
  exists w'. split; [done |]. split; [done |].
  assert (∀ y, home g y <> Some h -> nxt w' y = nxt w y ∧ prv w' y = prv w y) as Hf
    by (clear Ho; intros y Hy; rewrite Hn, Hv; split; case_decide as Hd; try done; rewrite Hd in Hy; destruct Hy; by apply Hhome).
  apply NoDup_cons in Hnd as Hnd'. destruct Hnd' as [Hhl Hndl].
  apply (links_update w w' g); [done.. | | | | | | | | |]; simpl.
  - intros k Hk'. at_point k h; [rewrite Hl, filter_drop by done; by eapply path_drop |].
    apply (ring_frame w w' g k); [done.. |]. intros y Hy. apply Hf. congruence.
  - intros k. at_point k h; [apply NoDup_filter |]; apply (lk_nodup _ _ Hk).
  - intros j k. at_point k h; at_point j i; rewrite ?list_elem_of_filter, ?(lk_spot _ _ Hk), ?Hi; naive_solver.
  - intros j k. at_point j i; [done | apply (lk_head _ _ Hk)].
  - intros j. at_point j i; [by rewrite Hi | done].
  - intros j. by at_point j i.
  - intros j. at_point j i; [by rewrite Hi | done].
  - intros j. at_point j i; [by intros [] |]. intros Hj. apply Hf.
    destruct Hj as [Hj | Hj]; by rewrite (outside_home _ _ _ _ Hk Hj).
  - apply neighbours in Hnd. fold p x in Hnd. case_decide as Hpx.
    + apply Hnd in Hpx as Hnil. apply app_nil in Hnil as [-> ->].
      eapply (words_set false h); [apply (lk_words _ _ Hk) | done | intros; by rewrite fn_lookup_insert_ne |].
      intros _. rewrite fn_lookup_insert, Hl, filter_drop by done. done.
    + eapply words_same; [apply (lk_words _ _ Hk) | done |]. intros k _. at_point k h; [| done].
      rewrite Hl, filter_drop by done. split; [by intros ?%Hnd |]. by destruct l1.
Qed.

(** A node outside the lists moves between states that have no list. *)
Lemma links_set_spot w g i sp :
  links w g -> unlisted (spots g i) ∨ spots g i = IsQuar ->
  sp = IsLoose ∨ sp = IsQuar -> links w (set_spot i sp g).
Proof.
  intros Hk Hi Hsp. assert (sp <> NotTimer ∧ sp <> IsFree ∧ sp <> IsDeliv ∧ ∀ h, sp <> InList h)
    as (H1 & H2 & H3 & H4) by (destruct Hsp; naive_solver).
  assert (spots g i <> NotTimer ∧ spots g i <> IsFree ∧ ∀ h, spots g i <> InList h) as (H5 & H6 & H7)
    by (destruct Hi as [[-> | ->] | ->]; naive_solver).
  apply (links_update w w g); simpl; [done.. | | | | | | | | |]; try apply Hk; try (by split).
  - intros j h. rewrite (lk_spot _ _ Hk). at_point j i; naive_solver.
  - intros j h. at_point j i; [naive_solver | apply (lk_head _ _ Hk)].
  - intros j. at_point j i; naive_solver.
  - intros j. at_point j i; naive_solver.
  - intros j. at_point j i; naive_solver.
Qed.

Lemma Unlink_deliv w g i :
  links w g -> spots g i = IsDeliv ->
  ∃ w', Unlink w i = Ret w' ∧ same_rest w w' ∧ links w' (set_spot i IsLoose g).
Proof.
  intros Hk Hi. destruct (lk_deliv _ _ Hk i Hi) as [Hx Hp].
  pose proof (nxt_in_array _ _ _ Hx) as Hia. destruct (spot_ge w g i Hk) as [Hge _]; [by rewrite Hi |].
  destruct (Unlink_spec w i i i) as (w' & -> & Hs & Ho & Hn & Hv); [apply (lk_words _ _ Hk) | done.. |].
  exists w'. split; [done |]. split; [done |].
  assert (∀ j, nxt w' j = nxt w j) as Hn' by (intros j; rewrite Hn; clear Ho; case_decide; congruence).
  assert (∀ j, prv w' j = prv w j) as Hv' by (intros j; rewrite Hv; clear Ho; case_decide; congruence).
  rewrite decide_True in Ho by done. unfold occ_set in Ho.
  rewrite decide_False in Ho by (unfold kFirst in Hge; lia).
  apply links_set_spot; [| left; by right | by left].
  apply (links_update w w' g); [done.. | | | | | | | | |]; try apply Hk; try done.
  - intros h Hh. eapply path_frame; [| | by apply (lk_ring _ _ Hk)]; intros; [apply Hn' | apply Hv'].
  - eapply words_same; [apply (lk_words _ _ Hk) | done..].
Qed.

(** Two rings made one: [l] comes after the members [k] of [to]. *)
Lemma path_pour w w' from to k l :
  path w from l from -> path w to k to -> NoDup (to :: k ++ l) -> (from ∉ to :: k ++ l) -> l <> [] ->
  (∀ j, nxt w' j = if decide (j = from) then Some from else if decide (j = List.last l from) then Some to
                   else if decide (j = List.last k to) then Some (hd from l) else nxt w j) ->
  (∀ j, prv w' j = if decide (j = from) then Some from else if decide (j = to) then Some (List.last l from)
                   else if decide (j = hd from l) then Some (List.last k to) else prv w j) ->
  path w' to (k ++ l) to.
Proof.
  intros Hpl Hpk [Hto Hnd]%NoDup_cons [Hft Hfr]%not_elem_of_cons Hne Hn Hv.
  apply NoDup_app in Hnd as (Hndk & Hkl & Hndl). rewrite not_elem_of_app in Hto, Hfr.
  destruct l as [| z m _] using rev_ind; [done |]. clear Hne. rewrite List.last_last in Hn, Hv.
  apply path_app in Hpl as [Hpm Hlz]. set (tl := List.last k to) in *.
  assert (hd from (m ++ [z]) = hd z m) as Hhd by by destruct m. rewrite Hhd in Hn, Hv.
  assert (tl ∈ to :: k) as Htl by apply last_elem.
  assert (hd z m ∈ m ++ [z]) as Hhm by apply hd_elem.
  assert (∀ x, x ∈ m ++ [z] -> x <> from ∧ x <> to ∧ x <> tl) as Hout.
  { intros x Hx. split_and!; intros ->; [tauto.. |].
    apply elem_of_cons in Htl as [Heq | Hin]; [rewrite Heq in Hx; tauto | by eapply Hkl]. }
  apply NoDup_app in Hndl as (Hndm & Hmz & _).
  assert (tl <> from) as Htf by (intros Heq; rewrite Heq in Htl; apply elem_of_cons in Htl as [? | ?]; tauto).
  assert (z ∈ m ++ [z]) as Hz by (rewrite elem_of_app, list_elem_of_singleton; tauto).
  destruct (Hout _ Hz) as (Hz1 & Hz2 & Hz3). destruct (Hout _ Hhm) as (Hm1 & Hm2 & Hm3).
  assert (path w' tl (m ++ [z]) to) as Hp.
  { apply path_app. split; [| simpl; split; [rewrite Hn | rewrite Hv]; repeat case_decide; congruence].
    eapply path_enter; [done | rewrite Hn; repeat case_decide; congruence
      | rewrite Hv; repeat case_decide; congruence | |].
    - intros x Hx. destruct (Hout x) as (? & ? & ?); [rewrite elem_of_app; tauto |].
      rewrite Hn. repeat case_decide; try congruence. subst x. destruct (Hmz _ Hx). by left.
    - intros x Hx. assert (x ∈ m ++ [z]) as Hx' by (destruct (m ++ [z]); [done | by right]).
      destruct (Hout x Hx') as (? & ? & ?). rewrite Hv. rewrite !decide_False; [done | | done..].
      intros ->. assert (NoDup (m ++ [z])) as Hnd by (apply NoDup_app; split_and!; [done.. | apply NoDup_singleton]).
      destruct m as [| y m]; simpl in *; [by apply elem_of_nil in Hx |]. apply NoDup_cons in Hnd. tauto. }
  destruct k as [| y k _] using rev_ind; [done |]. unfold tl in *. rewrite List.last_last in *.
  apply path_app in Hpk as [Hpk _]. rewrite <- app_assoc. simpl. apply path_app. split; [| done].
  apply NoDup_app in Hndk as (_ & Hky & _). eapply path_frame; [| | done].
  - intros x Hx. rewrite Hn, !decide_False; [done | | |]; intros ->;
      apply elem_of_cons in Hx as [-> | Hx]; try tauto; try (by set_solver).
  - intros x Hx. rewrite Hv, !decide_False; [done | | |]; intros ->; try tauto. by eapply Hkl.
Qed.

Lemma pour_links w w' g from to :
  links w g -> (to < kFirst)%nat -> from <> to -> same_rest w w' ->
  words_ok w' (lists (pour from to g)) ->
  (∀ h, (h < kFirst)%nat -> path w' h (lists (pour from to g) h) h) ->
  (∀ i, spots g i = IsFree ∨ spots g i = IsDeliv -> nxt w' i = nxt w i ∧ prv w' i = prv w i) ->
  links w' (pour from to g).
Proof.
  intros Hk Ht Hne Hs Hw Hr Hfix. apply (links_update w w' g); try done; simpl.
  - intros h. at_point h to; [| at_point h from]; [| constructor | apply (lk_nodup _ _ Hk)].
    apply NoDup_app. split_and!; [apply (lk_nodup _ _ Hk) | | apply (lk_nodup _ _ Hk)].
    intros x Hx1 Hx2. apply (lk_spot _ _ Hk) in Hx1, Hx2. congruence.
  - intros i h. at_point h to; [| at_point h from].
    + rewrite elem_of_app, !(lk_spot _ _ Hk). case_decide; naive_solver.
    + rewrite elem_of_nil. case_decide; naive_solver.
    + rewrite (lk_spot _ _ Hk). case_decide; split; congruence.
  - intros i h. case_decide; [by intros [= <-] | apply (lk_head _ _ Hk)].
  - intros i. case_decide as Hd; [by rewrite Hd | done].
  - intros i. by case_decide.
  - intros i. case_decide as Hd; [by rewrite Hd | done].
  - intros i. case_decide; [by intros [] | apply Hfix].
Qed.

Lemma Splice_links_some w g from to :
  links w g -> (from < kWheelNodes)%nat -> (kWheelNodes <= to < kFirst)%nat -> lists g from <> [] ->
  ∃ w', Splice w from to = Ret w' ∧ same_rest w w' ∧ links w' (pour from to g).
Proof.
  intros Hk Hfw [Htw Ht] Hnn. assert (from <> to) as Hne by lia. assert (from < kFirst)%nat as Hf by lia.
  pose proof (lk_ring _ _ Hk from Hf) as Hrf. pose proof (lk_ring _ _ Hk to Ht) as Hrt.
  pose proof (path_last _ _ _ _ Hrf) as Hpf. pose proof (path_last _ _ _ _ Hrt) as Hpt.
  pose proof (path_first _ _ _ _ Hrf) as Hnf.
  pose proof (last_elem (lists g from) from) as Hlast. pose proof (last_elem (lists g to) to) as Htail.
  assert (hd from (lists g from) ∈ lists g from) as Hfirst by (destruct (lists g from); [done | by left]).
  assert (hd from (lists g from) <> from) as Hff.
  { intros Heq. rewrite Heq in Hfirst. apply (list_home _ _ _ _ Hk) in Hfirst. lia. }
  pose proof (λ x, ring_in_array w g from x Hk Hf) as Hif. pose proof (λ x, ring_in_array w g to x Hk Ht) as Hit.
  destruct (Splice_spec w from to _ _ _ (wo_length _ _ (lk_words _ _ Hk)) (Hif _ ltac:(by right))
    (Hif _ Hlast) (Hit _ Htail) (Hit _ ltac:(by left)) Hne Hnf Hpf Hpt Hff) as (w' & -> & Hs & Ho & Hn & Hv).
  exists w'. split; [done |]. split; [done |].
  apply (ring_home _ _ _ _ Hk Hf) in Hlast. apply (ring_home _ _ _ _ Hk Ht) in Htail.
  pose proof (list_home _ _ _ _ Hk Hfirst) as [Hfh _].
  assert (home g from = Some from) as Hhf by (apply (ring_home _ _ _ _ Hk Hf); by left).
  assert (home g to = Some to) as Hht by (apply (ring_home _ _ _ _ Hk Ht); by left).
  assert (∀ x, home g x <> Some from -> home g x <> Some to -> nxt w' x = nxt w x ∧ prv w' x = prv w x) as Hfx
    by (intros x Hx1 Hx2; rewrite Hn, Hv; split; repeat case_decide; congruence).
  apply (pour_links w); [done.. | | |]; simpl.
  - eapply (words_set false from); [apply (lk_words _ _ Hk) | done | |].
    + intros h Hh Hw. by rewrite !fn_lookup_insert_ne by lia.
    + intros _. by rewrite fn_lookup_insert_ne, fn_lookup_insert by done.
  - intros h Hh. at_point h to; [| at_point h from].
    + eapply (path_pour w w' from); try done.
      * pose proof (ring_nodup w g to Hk Ht) as [Hx Hnd]%NoDup_cons. apply NoDup_cons. rewrite elem_of_app.
        split; [intros [? | Hi]; [done |]; apply (list_home _ _ _ _ Hk) in Hi; naive_solver |].
        apply NoDup_app. split_and!; [done | | apply (lk_nodup _ _ Hk)].
        intros x Hx1 Hx2. apply (lk_spot _ _ Hk) in Hx1, Hx2. congruence.
      * rewrite elem_of_cons, elem_of_app. intros [? | [Hi | Hi]]; [done | |];
          apply (list_home _ _ _ _ Hk) in Hi; lia.
    + split; [by rewrite Hn, decide_True | by rewrite Hv, decide_True].
    + apply (ring_frame w w' g h); [done.. |]. intros x Hx. apply Hfx; congruence.
  - intros i Hi. apply Hfx; destruct Hi as [Hi | Hi]; by rewrite (outside_home _ _ _ _ Hk Hi).
Qed.

Lemma Splice_links w g from to :
  links w g -> (from < kWheelNodes)%nat -> (kWheelNodes <= to < kFirst)%nat ->
  ∃ w', Splice w from to = Ret w' ∧ same_rest w w' ∧ links w' (pour from to g).
Proof.
  intros Hk Hfw Ht. assert (from <> to) as Hne by lia. assert (from < kFirst)%nat as Hf by lia.
  destruct Ht as [Htw Ht].
  pose proof (lk_ring _ _ Hk from Hf) as Hrf. pose proof (lk_ring _ _ Hk to Ht) as Hrt.
  destruct (decide (lists g from = [])) as [Hnil | Hnn].
  - exists w. split; [| split; [apply same_rest_refl |]].
    + unfold Splice. rewrite Hnil in Hrf. destruct Hrf as [Hx Hp].
      destruct (field_ok w from from from Hp Hx) as (n & -> & _ & Hn). simpl. by rewrite Hn, bool_decide_eq_true_2.
    + apply (pour_links w); try done; simpl.
      * eapply words_same; [apply (lk_words _ _ Hk) | done |]. intros h Hh. rewrite fn_lookup_insert_ne by lia.
        at_point h from; [by rewrite Hnil | done].
      * intros h Hh. at_point h to; [by rewrite Hnil, app_nil_r |].
        at_point h from; [by rewrite <- Hnil at 1 | by apply (lk_ring _ _ Hk)].
  - by apply Splice_links_some.
Qed.

End Rings.

End Rings.
