(* ===== verification/ExpiryTime.v ===== *)
(** * Time in the expiry wheel

    The arithmetic of [ExpiryWheel.v] on wrapping ticks: serial differences,
    the distance from the wheel's time to the boundary of a slot, the slot
    that [Place] chooses, the next event and the slots that [Arrive] empties. *)

From S2P Require Import Prelude ExpiryWheel ExpiryLists.
Open Scope Z_scope.

Module Time.
Import Wheel Rings.

(** ** Powers of two *)

Lemma land_mask x k : 0 <= k -> Z.land x (2 ^ k - 1) = x mod 2 ^ k.
Proof. intros Hk. rewrite <- Z.land_ones by done. by rewrite Z.ones_equiv, Z.sub_1_r. Qed.

Lemma mod_mod_pow x a b : 0 <= a <= b -> (x mod 2 ^ b) mod 2 ^ a = x mod 2 ^ a.
Proof.
  intros Hab. apply Z.mod_mod_divide.
  exists (2 ^ (b - a)). rewrite <- Z.pow_add_r by lia. f_equal. lia.
Qed.

Lemma pow_split a b : 0 <= a <= b -> 2 ^ b = 2 ^ a * 2 ^ (b - a).
Proof. intros Hab. rewrite <- Z.pow_add_r by lia. f_equal. lia. Qed.

Lemma pow_pos k : 0 <= k -> 0 < 2 ^ k.
Proof. intros. apply Z.pow_pos_nonneg; lia. Qed.

(** Shifting a value reduced modulo a power. *)
Lemma div_mod_pow x a b : 0 <= a <= b -> (x mod 2 ^ b) / 2 ^ a = (x / 2 ^ a) mod 2 ^ (b - a).
Proof.
  intros Hab. pose proof (pow_pos a ltac:(lia)). pose proof (pow_pos (b - a) ltac:(lia)).
  rewrite (pow_split a b) by done. rewrite Z.rem_mul_r by lia.
  rewrite Z.mul_comm, Z.div_add by lia. rewrite Z.div_small by (apply Z.mod_pos_bound; lia). lia.
Qed.

Lemma mod_sub_mod x y m : (x mod m - y) mod m = (x - y) mod m.
Proof. apply Zminus_mod_idemp_l. Qed.

(** Congruent values differ by a multiple. *)
Lemma mod_eq_iff x y m : 0 < m -> x mod m = y mod m <-> ∃ q, x = y + q * m.
Proof.
  intros Hm. split.
  - intros He. exists (x / m - y / m). pose proof (Z.div_mod x m) as Hx. pose proof (Z.div_mod y m) as Hy.
    rewrite Z.mul_sub_distr_r. lia.
  - intros [q ->]. apply Z_mod_plus_full.
Qed.

Section Time.
Context {CF : Config} {P : Type}.
Implicit Types (w : Wheel.t P).

Lemma digits_big : 2 <= digits.
Proof. pose proof bits_ok. pose proof levels_ok. pose proof digits_ok. nia. Qed.

(** ** Serial differences *)

Lemma Diff_range a b : - 2 ^ (digits - 1) <= Diff a b < 2 ^ (digits - 1).
Proof.
  pose proof digits_big. unfold Diff, to_signed. 
  assert (in_width digits (wrap digits (a - b))) as Hr by (apply wrap_range; lia).
  unfold in_width in Hr. assert (2 ^ digits = 2 * 2 ^ (digits - 1)) as Hp.
  { rewrite <- Z.pow_succ_r by lia. f_equal. lia. }
  case_bool_decide; lia.
Qed.

Lemma Diff_mod a b : Diff a b mod 2 ^ digits = (a - b) mod 2 ^ digits.
Proof.
  unfold Diff, to_signed, wrap. case_bool_decide.
  - apply Zmod_mod.
  - rewrite <- (Z_mod_plus_full _ 1). replace (_ - _ + 1 * _) with ((a - b) mod 2 ^ digits) by lia. apply Zmod_mod.
Qed.

(** The difference is the representative in the signed range. *)
Lemma Diff_unique a b x :
  - 2 ^ (digits - 1) <= x < 2 ^ (digits - 1) -> x mod 2 ^ digits = (a - b) mod 2 ^ digits ->
  Diff a b = x.
Proof.
  intros Hx He. pose proof digits_big. rewrite <- Diff_mod in He. pose proof (Diff_range a b) as Hr.
  assert (2 ^ digits = 2 * 2 ^ (digits - 1)) as Hp.
  { rewrite <- Z.pow_succ_r by lia. f_equal. lia. }
  apply mod_eq_iff in He as [q Hq]; [| apply pow_pos; lia].
  rewrite Hp in Hq. set (M := 2 ^ (digits - 1)) in *. clearbody M.
  assert (q < 1) by nia. assert (-1 < q) by nia. nia.
Qed.

(** ** Shifts of the levels *)

Definition sh w (level : nat) : Z := shift_ w + Z.of_nat (level * LevelBits).

(** The granularity is one that [Create] admits, the wheel's time a multiple of
    it. *)
Record clock_ok w : Prop := {
  ck_shift : 0 <= shift_ w <= kMaxGranularityShift;
  ck_cur : 0 <= cur_ w < 2 ^ digits;
  ck_unit : cur_ w mod 2 ^ shift_ w = 0
}.

Lemma sh_bounds w level :
  clock_ok w -> (level < Levels)%nat ->
  0 <= shift_ w <= sh w level ∧ sh w level + Z.of_nat LevelBits <= digits - 1.
Proof.
  intros [Hs _ _] Hl. unfold sh, kMaxGranularityShift in *.
  assert (level * LevelBits + LevelBits <= LevelBits * Levels)%nat by nia. lia.
Qed.

Lemma kSlots_pow : Z.of_nat kSlots = 2 ^ Z.of_nat LevelBits.
Proof. unfold kSlots. by rewrite Nat2Z.inj_pow. Qed.

Lemma slot_mask x : Z.land x kSlotMask = x mod 2 ^ Z.of_nat LevelBits.
Proof. unfold kSlotMask. rewrite kSlots_pow. apply land_mask. lia. Qed.

(** The slot number of a time at a level. *)
Lemma slot_of x : Z.land (wrap 32 x) kSlotMask = x mod 2 ^ Z.of_nat LevelBits.
Proof. rewrite slot_mask. unfold wrap. pose proof bits_ok. rewrite mod_mod_pow; [done | lia]. Qed.

Lemma slot_range x : 0 <= x mod 2 ^ Z.of_nat LevelBits < Z.of_nat kSlots.
Proof. rewrite kSlots_pow. apply Z.mod_pos_bound, pow_pos. lia. Qed.

(** ** Distances *)

(** The ticks from the wheel's time to the next time slot [s] of [level] begins. *)
Definition dist w (level s : nat) : Z :=
  (Z.of_nat s * 2 ^ sh w level - cur_ w - 1) mod 2 ^ (sh w level + Z.of_nat LevelBits) + 1.

Lemma dist_range w level s :
  clock_ok w -> (level < Levels)%nat ->
  1 <= dist w level s <= 2 ^ (sh w level + Z.of_nat LevelBits).
Proof.
  intros Hc Hl. pose proof (sh_bounds w level Hc Hl). unfold dist.
  pose proof (Z.mod_pos_bound (Z.of_nat s * 2 ^ sh w level - cur_ w - 1)
    (2 ^ (sh w level + Z.of_nat LevelBits)) ltac:(apply pow_pos; lia)). lia.
Qed.

(** It is the least positive distance at which that slot begins. *)
Lemma dist_mod w level s x :
  0 <= sh w level -> (cur_ w + x) mod 2 ^ (sh w level + Z.of_nat LevelBits) =
    (Z.of_nat s * 2 ^ sh w level) mod 2 ^ (sh w level + Z.of_nat LevelBits) ->
  dist w level s = (x - 1) mod 2 ^ (sh w level + Z.of_nat LevelBits) + 1.
Proof.
  intros Hs He. unfold dist. f_equal. set (M := 2 ^ (sh w level + Z.of_nat LevelBits)) in *.
  assert (0 < M) by (apply pow_pos; lia).
  apply mod_eq_iff in He as [q Hq]; [| done]. apply mod_eq_iff; [done |]. exists (- q). lia.
Qed.

Lemma dist_le w level s x :
  0 <= sh w level -> 0 < x -> (cur_ w + x) mod 2 ^ (sh w level + Z.of_nat LevelBits) =
    (Z.of_nat s * 2 ^ sh w level) mod 2 ^ (sh w level + Z.of_nat LevelBits) ->
  dist w level s <= x.
Proof.
  intros Hs Hx He. rewrite (dist_mod _ _ _ _ Hs He).
  pose proof (Z.mod_le (x - 1) (2 ^ (sh w level + Z.of_nat LevelBits)) ltac:(lia) ltac:(apply pow_pos; lia)). lia.
Qed.

(** ** Placement *)

Lemma UnitMask_ones k : UnitMask k = 2 ^ k - 1.
Proof. unfold UnitMask. by rewrite Z.shiftl_1_l. Qed.

(** [EndOf] rounds up to a multiple of the granularity. *)
Lemma EndOf_up w d :
  0 <= shift_ w -> EndOf w d = wrap digits (d + (- d) mod 2 ^ shift_ w).
Proof.
  intros Hs. unfold EndOf, Unit. rewrite UnitMask_ones, land_mask, Z.shiftl_1_l by done. f_equal.
  pose proof (pow_pos _ Hs). case_bool_decide as Hd.
  - rewrite Z_mod_nz_opp_full by done. lia.
  - assert (d mod 2 ^ shift_ w = 0) as Hz by (destruct (decide (d mod 2 ^ shift_ w = 0)); [done | by destruct Hd]).
    rewrite Z_mod_zero_opp_full by done. lia.
Qed.

Lemma EndOf_unit w d :
  clock_ok w -> EndOf w d mod 2 ^ shift_ w = 0 ∧ 0 <= EndOf w d < 2 ^ digits.
Proof.
  intros Hc. pose proof (ck_shift _ Hc) as Hs. pose proof digits_big. pose proof bits_ok. pose proof levels_ok.
  unfold kMaxGranularityShift in Hs. rewrite EndOf_up by lia. split; [| apply wrap_range; lia].
  unfold wrap. rewrite mod_mod_pow by lia. pose proof (pow_pos (shift_ w) ltac:(lia)).
  rewrite Zplus_mod_idemp_r. by replace (d + - d) with 0 by lia.
Qed.

(** The unwrapped time [cur_ + Diff stop cur_] that [stop] stands for. *)
Lemma stop_unwrap w stop :
  clock_ok w -> 0 <= stop < 2 ^ digits -> stop = (cur_ w + Diff stop (cur_ w)) mod 2 ^ digits.
Proof.
  intros Hc Hs. rewrite <- Zplus_mod_idemp_r, Diff_mod, Zplus_mod_idemp_r.
  replace (cur_ w + (stop - cur_ w)) with stop by lia. symmetry. by apply Z.mod_small.
Qed.

Lemma shift_stop w stop level :
  clock_ok w -> (level < Levels)%nat -> 0 <= stop < 2 ^ digits ->
  Z.shiftr stop (sh w level) =
    ((cur_ w + Diff stop (cur_ w)) / 2 ^ sh w level) mod 2 ^ (digits - sh w level).
Proof.
  intros Hc Hl Hs. pose proof (sh_bounds _ _ Hc Hl). rewrite Z.shiftr_div_pow2 by lia.
  rewrite (stop_unwrap w stop) at 1 by done. apply div_mod_pow. lia.
Qed.

(** How many slots ahead [stop] is at a level. *)
Lemma ahead_spec w stop level :
  clock_ok w -> (level < Levels)%nat -> 0 <= stop < 2 ^ digits -> 0 < Diff stop (cur_ w) ->
  Z.land (wrap digits (Z.shiftr stop (sh w level) - Z.shiftr (cur_ w) (sh w level)))
    (Z.shiftr (2 ^ digits - 1) (sh w level)) =
  (cur_ w + Diff stop (cur_ w)) / 2 ^ sh w level - cur_ w / 2 ^ sh w level.
Proof.
  intros Hc Hl Hs He. pose proof (sh_bounds _ _ Hc Hl) as [Hsh Htop]. pose proof (Diff_range stop (cur_ w)) as Hr.
  pose proof (shift_stop w stop level Hc Hl Hs) as Hst.
  set (e := Diff stop (cur_ w)) in *. set (k := sh w level) in *. rewrite Hst. rewrite !Z.shiftr_div_pow2 by lia.
  pose proof (pow_pos k ltac:(lia)) as Hk. pose proof bits_ok.
  assert ((2 ^ digits - 1) / 2 ^ k = 2 ^ (digits - k) - 1) as ->.
  { rewrite (pow_split k digits) by lia. replace (_ * _ - 1) with (2 ^ k - 1 + (2 ^ (digits - k) - 1) * 2 ^ k) by lia.
    rewrite Z.div_add by lia. rewrite Z.div_small by lia. lia. }
  rewrite land_mask by lia. unfold wrap. rewrite mod_mod_pow by lia. rewrite mod_sub_mod. apply Z.mod_small.
  split.
  - assert (cur_ w / 2 ^ k <= (cur_ w + e) / 2 ^ k) by (apply Z.div_le_mono; lia). lia.
  - assert (2 ^ (digits - k) = 2 * 2 ^ (digits - 1 - k)) as ->.
    { rewrite <- Z.pow_succ_r by lia. f_equal. lia. }
    assert (2 ^ (digits - 1) = 2 ^ k * 2 ^ (digits - 1 - k)) as Hp by (apply pow_split; lia).
    assert (0 < 2 ^ (digits - 1 - k)) as Hq by (apply pow_pos; lia).
    assert ((cur_ w + e) / 2 ^ k <= (cur_ w + 2 ^ (digits - 1 - k) * 2 ^ k) / 2 ^ k) as Hle by (apply Z.div_le_mono; lia).
    rewrite Z.div_add in Hle by lia. lia.
Qed.

(** The head that [Place] links a timer with that end to. *)
Definition head_for w (stop : Z) : nat :=
  if bool_decide (Diff stop (cur_ w) <= 0) then kReady
  else
    match level_for w stop Levels 0 with
    | Some head => head
    | None =>
        ((Levels - 1) * kSlots + Z.to_nat (Z.land
          (wrap 32 (wrap 32 (Z.shiftr (cur_ w) (sh w (Levels - 1))) + kSlotMask)) kSlotMask))%nat
    end.

Lemma Place_head w i n :
  node w i = Ret n -> Place w i = Link w (head_for w (EndOf w (deadline n))) i.
Proof.
  intros Hn. unfold Place, head_for. rewrite Hn. simpl. case_bool_decide; [done |].
  by destruct (level_for w (EndOf w (deadline n)) Levels 0).
Qed.

(** A slot whose boundary is between the wheel's time and [stop]. *)
Definition slot_before w (stop : Z) (head : nat) : Prop :=
  ∃ level s, (level < Levels)%nat ∧ (s < kSlots)%nat ∧ head = (level * kSlots + s)%nat ∧
    dist w level s <= Diff stop (cur_ w).

(** A slot reached by rounding a later time down at that level. *)
Lemma slot_before_intro w stop level q :
  clock_ok w -> (level < Levels)%nat ->
  cur_ w / 2 ^ sh w level < q -> q * 2 ^ sh w level <= cur_ w + Diff stop (cur_ w) ->
  slot_before w stop (level * kSlots + Z.to_nat (q mod 2 ^ Z.of_nat LevelBits))%nat.
Proof.
  intros Hc Hl Hq Hle. pose proof (sh_bounds _ _ Hc Hl) as [Hsh _]. pose proof (slot_range q) as Hs.
  exists level, (Z.to_nat (q mod 2 ^ Z.of_nat LevelBits)). split_and!; [done | lia | done |].
  pose proof (pow_pos (sh w level) ltac:(lia)) as Hp.
  trans (q * 2 ^ sh w level - cur_ w); [| lia]. apply dist_le; [lia | |].
  - pose proof (Z.mod_pos_bound (cur_ w) (2 ^ sh w level) Hp). pose proof (Z.div_mod (cur_ w) (2 ^ sh w level)). nia.
  - replace (cur_ w + _) with (q * 2 ^ sh w level) by lia. rewrite Z2Nat.id by lia.
    rewrite Z.pow_add_r by lia. rewrite !(Z.mul_comm _ (2 ^ sh w level)).
    rewrite !Zmult_mod_distr_l. by rewrite Zmod_mod.
Qed.

(** [q] slots of a level are at least one of the level above. *)
Lemma next_level w stop level :
  clock_ok w -> (level + 1 < Levels)%nat ->
  Z.of_nat kSlots <= (cur_ w + Diff stop (cur_ w)) / 2 ^ sh w level - cur_ w / 2 ^ sh w level ->
  0 < (cur_ w + Diff stop (cur_ w)) / 2 ^ sh w (level + 1) - cur_ w / 2 ^ sh w (level + 1).
Proof.
  intros Hc Hl Ha. pose proof (sh_bounds w level Hc ltac:(lia)) as [Hsh _].
  assert (sh w (level + 1) = sh w level + Z.of_nat LevelBits) as -> by (unfold sh; lia).
  rewrite Z.pow_add_r by lia. pose proof (pow_pos (sh w level) ltac:(lia)).
  assert (0 < 2 ^ Z.of_nat LevelBits) as Hp by (apply pow_pos; lia). rewrite <- !Z.div_div by lia.
  rewrite kSlots_pow in Ha. set (x := (cur_ w + _) / _) in *. set (y := cur_ w / _) in *.
  assert ((y + 1 * 2 ^ Z.of_nat LevelBits) / 2 ^ Z.of_nat LevelBits <= x / 2 ^ Z.of_nat LevelBits) as Hle
    by (apply Z.div_le_mono; lia).
  rewrite Z.div_add in Hle by lia. lia.
Qed.

Lemma level_for_spec w stop todo level :
  clock_ok w -> 0 <= stop < 2 ^ digits -> 0 < Diff stop (cur_ w) ->
  (level + todo = Levels)%nat -> (0 < todo)%nat ->
  0 < (cur_ w + Diff stop (cur_ w)) / 2 ^ sh w level - cur_ w / 2 ^ sh w level ->
  match level_for w stop todo level with
  | Some head => slot_before w stop head
  | None => Z.of_nat kSlots <= (cur_ w + Diff stop (cur_ w)) / 2 ^ sh w (Levels - 1) - cur_ w / 2 ^ sh w (Levels - 1)
  end.
Proof.
  intros Hc Hs He. revert level. induction todo as [| todo IH]; intros level Hsum Htodo Ha; [lia |].
  pose proof (sh_bounds w level Hc ltac:(lia)) as [Hsh Htop]. simpl. fold (sh w level).
  rewrite ahead_spec by (done || lia). case_bool_decide as Hd.
  - rewrite slot_of, shift_stop by (done || lia). pose proof bits_ok.
    rewrite mod_mod_pow by lia. apply slot_before_intro; [done | lia | lia |].
    rewrite Z.mul_comm. apply Z.mul_div_le, pow_pos. lia.
  - unfold kSlotMask in Hd. destruct todo as [| todo].
    + simpl. replace (Levels - 1)%nat with level by lia. lia.
    + apply IH; [lia | lia |]. apply next_level; [done | lia | lia].
Qed.

(** A later multiple of the granularity is a whole unit ahead. *)
Lemma unit_ahead w stop :
  clock_ok w -> 0 <= stop < 2 ^ digits -> stop mod 2 ^ shift_ w = 0 -> 0 < Diff stop (cur_ w) ->
  0 < (cur_ w + Diff stop (cur_ w)) / 2 ^ shift_ w - cur_ w / 2 ^ shift_ w.
Proof.
  intros Hc Hs Hu He. pose proof (sh_bounds w 0 Hc levels_ok) as [Hsh Htop].
  rewrite (stop_unwrap w stop Hc Hs) in Hu at 1. unfold sh in *.
  rewrite mod_mod_pow in Hu by lia. pose proof (ck_unit _ Hc) as Hcu.
  pose proof (pow_pos (shift_ w) ltac:(lia)) as Hp.
  apply Z.div_exact in Hu; [| lia]. apply Z.div_exact in Hcu; [| lia].
  set (x := (cur_ w + _) / _) in *. set (y := cur_ w / _) in *. nia.
Qed.

Lemma kSlots_two : 2 <= Z.of_nat kSlots.
Proof.
  rewrite kSlots_pow. pose proof bits_ok. change 2 with (2 ^ 1) at 1. apply Z.pow_le_mono_r; lia.
Qed.

Lemma head_for_spec w stop :
  clock_ok w -> 0 <= stop < 2 ^ digits -> stop mod 2 ^ shift_ w = 0 ->
  if bool_decide (Diff stop (cur_ w) <= 0) then head_for w stop = kReady
  else slot_before w stop (head_for w stop).
Proof.
  intros Hc Hs Hu. unfold head_for. case_bool_decide as Hd; [done |]. pose proof levels_ok as HL.
  pose proof (level_for_spec w stop Levels 0 Hc Hs ltac:(lia) ltac:(lia) ltac:(lia)) as Hspec.
  assert (sh w 0 = shift_ w) as H0 by (unfold sh; lia). rewrite H0 in Hspec.
  specialize (Hspec (unit_ahead w stop Hc Hs Hu ltac:(lia))).
  destruct (level_for w stop Levels 0); [done |]. set (k := sh w (Levels - 1)) in *.
  pose proof (sh_bounds w (Levels - 1) Hc ltac:(lia)) as [Hsh _]. fold k in Hsh.
  rewrite slot_of. unfold wrap. pose proof bits_ok. pose proof kSlots_two.
  rewrite <- (mod_mod_pow _ (Z.of_nat LevelBits) 32) by lia. rewrite Zplus_mod_idemp_l, mod_mod_pow by lia.
  rewrite Z.shiftr_div_pow2 by lia. apply slot_before_intro; [done | lia | fold k; unfold kSlotMask; lia |].
  fold k. trans ((cur_ w + Diff stop (cur_ w)) / 2 ^ k * 2 ^ k).
  - apply Z.mul_le_mono_nonneg_r; [apply Z.lt_le_incl, pow_pos; lia | unfold kSlotMask; lia].
  - rewrite Z.mul_comm. apply Z.mul_div_le, pow_pos. lia.
Qed.

(** ** The next event *)

(** The number of trailing zeros is the least bit set. *)
Lemma countr_zero_spec n x k :
  0 <= k < Z.of_nat n -> Z.testbit x k = true ->
  0 <= countr_zero n x < Z.of_nat n ∧ Z.testbit x (countr_zero n x) = true ∧
  (∀ j, 0 <= j -> Z.testbit x j = true -> countr_zero n x <= j).
Proof.
  revert x k. induction n as [| n IH]; intros x k Hk Hb; [lia |]. simpl.
  destruct (Z.odd x) eqn:Ho.
  - split_and!; [lia | lia | by rewrite Z.bit0_odd | lia].
  - assert (k <> 0) as Hk0 by (intros ->; rewrite Z.bit0_odd in Hb; congruence).
    assert (∀ j, 0 <= j -> Z.testbit (Z.shiftr x 1) j = Z.testbit x (j + 1)) as Hsh
      by (intros; by apply Z.shiftr_spec).
    destruct (IH (Z.shiftr x 1) (k - 1)) as (H1 & H2 & H3); [lia | |].
    { rewrite Hsh by lia. by replace (k - 1 + 1) with k by lia. }
    rewrite Hsh in H2 by lia. split_and!; [lia | lia | by rewrite Z.add_comm |].
    intros j Hj Hbj. destruct (decide (j = 0)) as [-> | Hne]; [rewrite Z.bit0_odd in Hbj; congruence |].
    specialize (H3 (j - 1) ltac:(lia)). rewrite Hsh in H3 by lia.
    replace (j - 1 + 1) with j in H3 by lia. specialize (H3 Hbj). lia.
Qed.

(** The occupancy word rotated so that bit 0 is the slot after [here]. *)
Definition rotated (bits start : Z) : Z :=
  if bool_decide (start = 0) then bits
  else Z.land (Z.lor (Z.shiftr bits start)
                 (wrap 64 (Z.shiftl bits (Z.of_nat kSlots - start)))) SlotsMask.

Lemma kSlots_64 : Z.of_nat kSlots <= 64.
Proof. rewrite kSlots_pow. pose proof bits_ok. change 64 with (2 ^ 6). apply Z.pow_le_mono_r; lia. Qed.

Lemma rotated_bit bits start k :
  0 <= bits < 2 ^ Z.of_nat kSlots -> 0 <= start < Z.of_nat kSlots -> 0 <= k < Z.of_nat kSlots ->
  Z.testbit (rotated bits start) k = Z.testbit bits ((start + k) mod Z.of_nat kSlots).
Proof.
  intros Hb Hs Hk. pose proof kSlots_64. unfold rotated. case_bool_decide as Hd.
  { subst start. by rewrite Z.mod_small by lia. }
  unfold SlotsMask. rewrite land_mask by lia.
  rewrite Z.mod_pow2_bits_low by lia. rewrite Z.lor_spec, Z.shiftr_spec by lia. unfold wrap.
  rewrite Z.mod_pow2_bits_low by lia. destruct (decide (start + k < Z.of_nat kSlots)).
  - rewrite Z.shiftl_spec_low, orb_false_r by lia. rewrite Z.mod_small by lia. f_equal. lia.
  - rewrite (bits_above bits (Z.of_nat kSlots)) by lia. rewrite Z.shiftl_spec by lia. simpl.
    replace ((start + k) mod Z.of_nat kSlots) with (start + k - Z.of_nat kSlots); [f_equal; lia |].
    symmetry. rewrite <- (Z_mod_plus_full _ (-1)). rewrite Z.mod_small; lia.
Qed.

(** The slot [d] after the present one begins where [NextEvent] says. *)
Lemma dist_ahead w level d :
  clock_ok w -> (level < Levels)%nat -> 1 <= d <= Z.of_nat kSlots ->
  dist w level (Z.to_nat ((cur_ w / 2 ^ sh w level + d) mod Z.of_nat kSlots)) =
  (cur_ w / 2 ^ sh w level + d) * 2 ^ sh w level - cur_ w.
Proof.
  intros Hc Hl Hd. pose proof (sh_bounds _ _ Hc Hl) as [Hsh _]. rewrite kSlots_pow in *.
  set (q := cur_ w / 2 ^ sh w level) in *. pose proof (pow_pos (sh w level) ltac:(lia)) as Hp.
  assert (0 < 2 ^ Z.of_nat LevelBits) by (apply pow_pos; lia).
  pose proof (Z.mod_pos_bound (cur_ w) (2 ^ sh w level) Hp) as Hm.
  pose proof (Z.div_mod (cur_ w) (2 ^ sh w level) ltac:(lia)) as Hdm. fold q in Hdm.
  pose proof (Z.mod_pos_bound (q + d) _ H).
  rewrite (dist_mod _ _ _ ((q + d) * 2 ^ sh w level - cur_ w)).
  - rewrite Z.pow_add_r by lia. rewrite Z.mod_small by nia. lia.
  - lia.
  - replace (cur_ w + _) with ((q + d) * 2 ^ sh w level) by lia. rewrite Z2Nat.id by lia.
    rewrite Z.pow_add_r by lia. rewrite !(Z.mul_comm _ (2 ^ sh w level)), !Zmult_mod_distr_l. by rewrite Zmod_mod.
Qed.

(** Every slot is some number of slots, up to a whole turn, after the present. *)
Lemma slot_ahead (q : Z) (s : nat) :
  (s < kSlots)%nat ->
  ∃ k, 0 <= k < Z.of_nat kSlots ∧ s = Z.to_nat ((q + (k + 1)) mod Z.of_nat kSlots) ∧
    Z.of_nat s = ((q + 1) mod Z.of_nat kSlots + k) mod Z.of_nat kSlots.
Proof.
  intros Hs. pose proof kSlots_two. exists ((Z.of_nat s - q - 1) mod Z.of_nat kSlots).
  assert ((q + 1 + (Z.of_nat s - q - 1) mod Z.of_nat kSlots) mod Z.of_nat kSlots = Z.of_nat s) as He.
  { rewrite Zplus_mod_idemp_r. replace (q + 1 + _) with (Z.of_nat s) by lia. apply Z.mod_small. lia. }
  split_and!; [apply Z.mod_pos_bound; lia.. | |].
  - replace (q + (_ + 1)) with (q + 1 + (Z.of_nat s - q - 1) mod Z.of_nat kSlots) by lia. rewrite He. lia.
  - by rewrite Zplus_mod_idemp_l.
Qed.

Lemma level_event_spec w level bits :
  clock_ok w -> (level < Levels)%nat -> 0 <= bits < 2 ^ Z.of_nat kSlots -> bits <> 0 ->
  ∃ s, (s < kSlots)%nat ∧ Z.testbit bits (Z.of_nat s) = true ∧ level_event w level bits = dist w level s ∧
    (∀ s', (s' < kSlots)%nat -> Z.testbit bits (Z.of_nat s') = true -> dist w level s <= dist w level s').
Proof.
  intros Hc Hl Hb Hnz. pose proof (sh_bounds _ _ Hc Hl) as [Hsh Htop]. pose proof kSlots_two. pose proof kSlots_64.
  set (q := cur_ w / 2 ^ sh w level).
  set (start := (q + 1) mod Z.of_nat kSlots).
  assert (0 <= start < Z.of_nat kSlots) as Hst by (apply Z.mod_pos_bound; lia).
  set (c := countr_zero 64 (rotated bits start)).
  assert (level_event w level bits = wrap digits (wrap digits ((q + (c + 1)) * 2 ^ sh w level) - cur_ w)) as Hev.
  { unfold level_event. fold (sh w level). rewrite slot_of, slot_mask, Zplus_mod_idemp_l, <- kSlots_pow.
    rewrite Z.shiftr_div_pow2, Z.shiftl_mul_pow2 by lia. done. }
  assert (∃ s, (s < kSlots)%nat ∧ Z.testbit bits (Z.of_nat s) = true) as (s0 & Hs0 & Hbs0).
  { exists (Z.to_nat (Z.log2 bits)). rewrite Z2Nat.id by apply Z.log2_nonneg.
    split; [| apply Z.bit_log2; lia]. assert (Z.log2 bits < Z.of_nat kSlots) by (apply Z.log2_lt_pow2; lia).
    pose proof (Z.log2_nonneg bits). lia. }
  destruct (slot_ahead q s0 Hs0) as (k0 & Hk0 & _ & He0).
  destruct (countr_zero_spec 64 (rotated bits start) k0) as (H1 & H2 & H3); [lia | |].
  { rewrite rotated_bit by lia. unfold start. by rewrite <- He0. }
  assert (c <= k0) as Hck by (apply H3; [lia |]; rewrite rotated_bit by lia; unfold start; by rewrite <- He0).
  fold c in H1, H2, H3. rewrite rotated_bit in H2 by lia.
  pose proof (dist_ahead w level (c + 1) Hc Hl ltac:(lia)) as Hdist. fold q in Hdist.
  exists (Z.to_nat ((q + (c + 1)) mod Z.of_nat kSlots)).
  assert (0 <= (q + (c + 1)) mod Z.of_nat kSlots < Z.of_nat kSlots) as Hmb by (apply Z.mod_pos_bound; lia).
  split_and!.
  - lia.
  - rewrite Z2Nat.id by lia. unfold start in H2. rewrite Zplus_mod_idemp_l in H2.
    by replace (q + 1 + c) with (q + (c + 1)) in H2 by lia.
  - rewrite Hdist, Hev. unfold wrap. rewrite mod_sub_mod. apply Z.mod_small. rewrite <- Hdist.
    pose proof (dist_range w level (Z.to_nat ((q + (c + 1)) mod Z.of_nat kSlots)) Hc Hl) as Hr.
    assert (2 ^ (sh w level + Z.of_nat LevelBits) < 2 ^ digits) by (apply Z.pow_lt_mono_r; lia). lia.
  - intros s Hs Hbs. destruct (slot_ahead q s Hs) as (k & Hk & -> & He). rewrite He in Hbs. fold start in Hbs.
    rewrite <- rotated_bit in Hbs by lia. specialize (H3 k ltac:(lia) Hbs).
    rewrite Hdist. pose proof (dist_ahead w level (k + 1) Hc Hl ltac:(lia)) as Hk'. fold q in Hk'. rewrite Hk'.
    pose proof (pow_pos (sh w level) ltac:(lia)). nia.
Qed.

(** [best] is the least distance to an occupied slot of the levels below [n]. *)
Definition nearest w (L : nat -> list nat) (n : nat) (best : option Z) : Prop :=
  match best with
  | None => ∀ level s, (level < n)%nat -> (s < kSlots)%nat -> L (level * kSlots + s)%nat = []
  | Some b =>
      (∃ level s, (level < n)%nat ∧ (s < kSlots)%nat ∧ L (level * kSlots + s)%nat <> [] ∧ b = dist w level s) ∧
      (∀ level s, (level < n)%nat -> (s < kSlots)%nat -> L (level * kSlots + s)%nat <> [] -> b <= dist w level s)
  end.

Lemma words_bit w L level o s :
  words_ok w L -> occupied_ w !! level = Some o -> (s < kSlots)%nat ->
  Z.testbit o (Z.of_nat s) = true <-> L (level * kSlots + s)%nat <> [].
Proof.
  intros Hw Ho Hs. rewrite (wo_bit _ _ Hw _ _ _ Ho Hs), negb_true_iff. apply bool_decide_eq_false.
Qed.

Lemma nearest_skip w L n best :
  nearest w L n best -> (∀ s, (s < kSlots)%nat -> L (n * kSlots + s)%nat = []) -> nearest w L (n + 1) best.
Proof.
  intros Hn He.
  assert (∀ level s, (level < n + 1)%nat -> (s < kSlots)%nat -> L (level * kSlots + s)%nat <> [] -> (level < n)%nat) as Hlt.
  { intros level s Hl Hs Hne. destruct (decide (level = n)) as [-> | ?]; [by destruct Hne; apply He | lia]. }
  destruct best as [b |]; simpl in *.
  - destruct Hn as [(level & s & H1 & H2 & H3 & H4) Hmin]. split; [exists level, s; split_and!; [lia | done..] |].
    intros l' s' Hl' Hs' Hne. apply Hmin; eauto.
  - intros level s Hl Hs. destruct (decide (level = n)) as [-> | ?]; [by apply He | apply Hn; lia].
Qed.

Lemma nearest_take w L n best x :
  nearest w L n best ->
  (∃ s, (s < kSlots)%nat ∧ L (n * kSlots + s)%nat <> [] ∧ x = dist w n s) ->
  (∀ s, (s < kSlots)%nat -> L (n * kSlots + s)%nat <> [] -> x <= dist w n s) ->
  nearest w L (n + 1)
    (match best with Some b => if bool_decide (x < b) then Some x else Some b | None => Some x end).
Proof.
  intros Hn (s0 & Hs0 & Hne0 & Hx) Hmin.
  assert (∀ b, b <= x -> (∀ level s, (level < n)%nat -> (s < kSlots)%nat -> L (level * kSlots + s)%nat <> [] -> b <= dist w level s) ->
    ∀ level s, (level < n + 1)%nat -> (s < kSlots)%nat -> L (level * kSlots + s)%nat <> [] -> b <= dist w level s) as Hext.
  { intros b Hb Hlow level s Hl Hs Hne. destruct (decide (level = n)) as [-> | ?]; [trans x; auto |]. apply Hlow; [lia | done..]. }
  assert (∃ level s, (level < n + 1)%nat ∧ (s < kSlots)%nat ∧ L (level * kSlots + s)%nat <> [] ∧ x = dist w level s) as Hat
    by (exists n, s0; split_and!; [lia | done..]).
  destruct best as [b |]; simpl in Hn; [destruct Hn as [(l1 & s1 & Hl1 & Hs1 & Hne1 & Hb) Hlow]; case_bool_decide |]; simpl.
  - split; [done |]. apply Hext; [lia |]. intros level s Hl Hs Hne. specialize (Hlow level s Hl Hs Hne). lia.
  - split; [exists l1, s1; split_and!; [lia | done..] |]. apply Hext; [lia | done].
  - split; [done |]. apply Hext; [lia |]. intros level s Hl Hs Hne. by destruct Hne; apply Hn.
Qed.

Lemma next_event_spec w L words level best :
  clock_ok w -> words_ok w L -> words = list.drop level (occupied_ w) -> (level <= Levels)%nat ->
  nearest w L level best -> nearest w L Levels (next_event w words level best).
Proof.
  intros Hc Hw. revert level best. induction words as [| o words IH]; intros level best Hwords Hl Hn; simpl.
  - assert (level = Levels) as ->; [| done]. assert (length (list.drop level (occupied_ w)) = 0%nat) as Hd by by rewrite <- Hwords.
    rewrite length_drop, (wo_length _ _ Hw) in Hd. lia.
  - assert (occupied_ w !! level = Some o) as Ho.
    { rewrite <- (Nat.add_0_r level), <- lookup_drop, <- Hwords. done. }
    assert (level < Levels)%nat as Hlt by (rewrite <- (wo_length _ _ Hw); by eapply lookup_lt_Some).
    assert (words = list.drop (level + 1) (occupied_ w)) as Hrest.
    { rewrite <- drop_drop, <- Hwords. done. }
    pose proof (λ s, words_bit w L level o s Hw Ho) as Hbit.
    case_bool_decide as Hz; (apply IH; [done | lia |]).
    + apply nearest_skip; [done |]. intros s Hs.
      destruct (decide (L (level * kSlots + s)%nat = [])) as [| Hne]; [done |].
      apply (Hbit s Hs) in Hne. rewrite Hz, Z.bits_0 in Hne. done.
    + destruct (level_event_spec w level o Hc Hlt (wo_range _ _ Hw _ _ Ho) Hz) as (s & Hs & Hbs & -> & Hmin).
      apply nearest_take; [done | exists s; split_and!; [done | by apply Hbit | done] |].
      intros s' Hs' Hne. apply Hmin; [done |]. by apply Hbit.
Qed.

Lemma NextEvent_spec w L :
  clock_ok w -> words_ok w L -> nearest w L Levels (NextEvent w).
Proof. intros Hc Hw. apply next_event_spec; [done.. | lia |]. intros level s Hl. lia. Qed.

(** ** Moving the wheel's time *)

(** At distance [dist] the slot begins. *)
Lemma dist_spec w level s :
  0 <= sh w level ->
  (cur_ w + dist w level s) mod 2 ^ (sh w level + Z.of_nat LevelBits) =
    (Z.of_nat s * 2 ^ sh w level) mod 2 ^ (sh w level + Z.of_nat LevelBits).
Proof.
  intros Hs. unfold dist. rewrite Z.add_assoc, (Z.add_comm (cur_ w)), <- Z.add_assoc, Zplus_mod_idemp_l.
  f_equal. lia.
Qed.

Lemma dist_unit w level s : clock_ok w -> (level < Levels)%nat -> dist w level s mod 2 ^ shift_ w = 0.
Proof.
  intros Hc Hl. pose proof (sh_bounds _ _ Hc Hl) as [Hsh _]. pose proof (ck_unit _ Hc) as Hu.
  pose proof (dist_spec w level s ltac:(lia)) as Hd. set (M := 2 ^ (sh w level + Z.of_nat LevelBits)) in *.
  apply (f_equal (fun x => x mod 2 ^ shift_ w)) in Hd. unfold M in Hd.
  rewrite !mod_mod_pow in Hd by lia. rewrite <- Zplus_mod_idemp_l, Hu, Z.add_0_l in Hd. rewrite Hd.
  rewrite (pow_split (shift_ w) (sh w level)) by lia.
  rewrite (Z.mul_comm (2 ^ shift_ w)), Z.mul_assoc. apply Z_mod_mult.
Qed.

Lemma clock_moved w w' x :
  clock_ok w -> shift_ w' = shift_ w -> cur_ w' = wrap digits (cur_ w + x) -> x mod 2 ^ shift_ w = 0 ->
  clock_ok w'.
Proof.
  intros Hc Hs Hcur Hx. pose proof (sh_bounds w 0 Hc levels_ok) as [Hsh Htop]. unfold sh in *.
  pose proof digits_big. split; rewrite ?Hs, ?Hcur; [apply (ck_shift _ Hc) | apply wrap_range; lia |].
  unfold wrap. rewrite mod_mod_pow by lia. rewrite <- Zplus_mod_idemp_l, (ck_unit _ Hc). done.
Qed.

(** Until a slot begins its distance shrinks by the time that passes. *)
Lemma dist_moved w w' x level s :
  clock_ok w -> shift_ w' = shift_ w -> cur_ w' = wrap digits (cur_ w + x) -> (level < Levels)%nat ->
  0 <= x < dist w level s -> dist w' level s = dist w level s - x.
Proof.
  intros Hc Hs Hcur Hl Hx. pose proof (sh_bounds _ _ Hc Hl) as [Hsh Htop].
  pose proof (dist_range w level s Hc Hl) as Hr. pose proof (dist_spec w level s ltac:(lia)) as Hd.
  assert (sh w' level = sh w level) as He by (unfold sh; by rewrite Hs).
  assert (0 < 2 ^ (sh w level + Z.of_nat LevelBits)) by (apply pow_pos; lia).
  rewrite (dist_mod w' level s (dist w level s - x)).
  - rewrite He, Z.mod_small by lia. lia.
  - lia.
  - rewrite He, <- Hd, Hcur. unfold wrap. rewrite <- Zplus_mod_idemp_l, mod_mod_pow, Zplus_mod_idemp_l by lia.
    f_equal. lia.
Qed.

(** The slots that begin at [now] are those at the distance passed. *)
Lemma slot_begins w x level s now :
  clock_ok w -> (level < Levels)%nat -> (s < kSlots)%nat -> now = wrap digits (cur_ w + x) ->
  1 <= x <= dist w level s ->
  (now mod 2 ^ sh w level = 0 ∧ s = Z.to_nat ((now / 2 ^ sh w level) mod 2 ^ Z.of_nat LevelBits)) <->
  dist w level s = x.
Proof.
  intros Hc Hl Hs Hnow Hx. pose proof (sh_bounds _ _ Hc Hl) as [Hsh Htop].
  pose proof (dist_range w level s Hc Hl) as Hr. pose proof (pow_pos (sh w level) ltac:(lia)) as Hp.
  rewrite <- (Nat2Z.id s) at 1. pose proof (slot_range (now / 2 ^ sh w level)) as Hsr.
  assert (now mod 2 ^ (sh w level + Z.of_nat LevelBits) =
    now mod 2 ^ sh w level + 2 ^ sh w level * ((now / 2 ^ sh w level) mod 2 ^ Z.of_nat LevelBits)) as Hsplit.
  { rewrite Z.pow_add_r by lia. apply Z.rem_mul_r; [lia |]. apply pow_pos. lia. }
  assert (now mod 2 ^ (sh w level + Z.of_nat LevelBits) = (cur_ w + x) mod 2 ^ (sh w level + Z.of_nat LevelBits)) as Hm.
  { rewrite Hnow. unfold wrap. apply mod_mod_pow. lia. }
  assert (Z.of_nat s * 2 ^ sh w level < 2 ^ (sh w level + Z.of_nat LevelBits)) as Hlt.
  { rewrite Z.pow_add_r, <- kSlots_pow by lia. nia. }
  pose proof (Z.mod_pos_bound now (2 ^ sh w level) Hp).
  split.
  - intros [Hz He]. apply Z2Nat.inj in He; [| lia..]. rewrite (dist_mod w level s x); [| lia |].
    + rewrite Z.mod_small by lia. lia.
    + rewrite <- Hm, Hsplit, Hz, <- He. rewrite Z.mod_small by nia. lia.
  - intros <-. pose proof (dist_spec w level s ltac:(lia)) as Hd. rewrite <- Hm, Hsplit in Hd.
    rewrite (Z.mod_small (Z.of_nat s * _)) in Hd by nia.
    set (a := (now / _) mod _) in *. set (p := 2 ^ sh w level) in *. set (r := now mod p) in *.
    assert (Z.of_nat s = a) as Ha.
    { assert (Z.of_nat s < a + 1) by nia. assert (a < Z.of_nat s + 1) by nia. lia. }
    rewrite Ha in *. split; [lia | done].
Qed.

End Time.

End Time.
