(* ===== verification/ExpiryInv.v ===== *)
(** * The invariant of the expiry wheel

    Every node is in exactly one place, generations tell armed timers from free
    nodes, counts agree with the lists, and every operation of [ExpiryWheel.v]
    keeps that, whatever deadlines it is given. *)

From stdpp Require Import functions.
From S2P Require Import Prelude ExpiryWheel ExpiryLists ExpiryTime.
Open Scope Z_scope.

Module WheelInv.
Import Wheel Rings Time.

Section Inv.
Context {CF : Config} {P : Type}.
Implicit Types (w : Wheel.t P) (g : ghost) (i : nat).

(** ** Counting nodes by where they are *)

Definition armed (sp : spot) : bool :=
  match sp with InList _ | IsDeliv | IsLoose => true | _ => false end.
Definition retired (sp : spot) : bool := bool_decide (sp = IsQuar).

Definition count (f : spot -> bool) (s : nat -> spot) (l : list nat) : nat :=
  length (filter (fun i => f (s i) = true) l).

Lemma count_ext f s s' l : (∀ i, f (s' i) = f (s i)) -> count f s' l = count f s l.
Proof.
  intros He. unfold count. induction l as [| x l IH]; [done |]. rewrite !filter_cons, He.
  case_decide; simpl; lia.
Qed.

Lemma count_set_out f s i sp l : (i ∉ l) -> count f (<[i := sp]> s) l = count f s l.
Proof.
  unfold count. induction l as [| x l IH]; [done |]. intros [Hx Hl]%not_elem_of_cons.
  rewrite !filter_cons, fn_lookup_insert_ne by congruence. specialize (IH Hl). case_decide; simpl; lia.
Qed.

Lemma count_set f s i sp l :
  NoDup l -> i ∈ l ->
  (count f (<[i := sp]> s) l + (if f (s i) then 1 else 0) = count f s l + (if f sp then 1 else 0))%nat.
Proof.
  induction l as [| x l IH]; [by intros _ ?%elem_of_nil |]. intros [Hx Hnd]%NoDup_cons Hi.
  destruct (decide (x = i)) as [-> | Hne].
  - pose proof (count_set_out f s i sp l Hx) as Ho. unfold count in *. rewrite !filter_cons, fn_lookup_insert.
    destruct (f (s i)), (f sp); simpl; lia.
  - apply elem_of_cons in Hi as [-> | Hi]; [done |]. specialize (IH Hnd Hi). unfold count in *.
    rewrite !filter_cons, fn_lookup_insert_ne by congruence. destruct (f (s x)); simpl; lia.
Qed.

Lemma count_le f s l : (count f s l <= length l)%nat.
Proof. unfold count. apply length_filter. Qed.

(** ** The invariant *)

Definition timers w : list nat := seq kFirst (capacity_ w).

Record inv w g : Prop := {
  iv_links : links w g;
  iv_clock : clock_ok w;
  iv_length : length (nodes_ w) = (kFirst + capacity_ w)%nat;
  iv_capacity : Z.of_nat (kFirst + capacity_ w) < 2 ^ 32;
  iv_generation i n :
    nodes_ w !! i = Some n -> (kFirst <= i)%nat ->
    in_width 32 (generation n) ∧ Z.odd (generation n) = armed (spots g i) ∧
    (spots g i = IsQuar -> generation n = 0);
  iv_size : size_ w = Z.of_nat (count armed (spots g) (timers w));
  iv_quarantined : quarantined_ w = Z.of_nat (count retired (spots g) (timers w))
}.

Lemma timer_elem w g i : inv w g -> spots g i <> NotTimer <-> i ∈ timers w.
Proof.
  intros Hi. rewrite (lk_timer _ _ (iv_links _ _ Hi)), (iv_length _ _ Hi). unfold timers.
  rewrite elem_of_seq. done.
Qed.

Lemma counts_small f w g : inv w g -> 0 <= Z.of_nat (count f (spots g) (timers w)) < 2 ^ 32 - 1.
Proof.
  intros Hi. pose proof (count_le f (spots g) (timers w)) as Hc. unfold timers in Hc at 2.
  rewrite length_seq in Hc. pose proof (iv_capacity _ _ Hi). unfold kFirst in *. lia.
Qed.

(** The fields of a node that links are not. *)
Lemma data_node w w' i n' :
  data w' i = data w i -> nodes_ w' !! i = Some n' ->
  ∃ n, nodes_ w !! i = Some n ∧ generation n' = generation n ∧ deadline n' = deadline n ∧ payload n' = payload n.
Proof.
  unfold data. intros He Hn. rewrite Hn in He. destruct (nodes_ w !! i) as [n |]; [| done].
  injection He as H1 H2 H3. by exists n.
Qed.

(** Links moved, nothing else. *)
Lemma inv_links w w' g g' :
  inv w g -> same_rest w w' -> links w' g' ->
  (∀ i, armed (spots g' i) = armed (spots g i)) -> (∀ i, spots g' i = IsQuar <-> spots g i = IsQuar) ->
  inv w' g'.
Proof.
  intros Hi Hs Hk Ha Hq. assert (timers w' = timers w) as Ht by (unfold timers; by rewrite (sr_capacity _ _ Hs)).
  split; rewrite ?Ht, ?(sr_capacity _ _ Hs), ?(sr_length _ _ Hs); try apply Hi; try done.
  - destruct (iv_clock _ _ Hi) as [H1 H2 H3]. split; rewrite ?(sr_shift _ _ Hs), ?(sr_cur _ _ Hs); done.
  - intros i n' Hn' Hge. destruct (data_node _ _ _ _ (sr_data _ _ Hs i) Hn') as (n & Hn & -> & _).
    rewrite Ha, Hq. by apply (iv_generation _ _ Hi).
  - rewrite (sr_size _ _ Hs), (iv_size _ _ Hi). by rewrite (count_ext _ (spots g) (spots g')).
  - rewrite (sr_quarantined _ _ Hs), (iv_quarantined _ _ Hi). rewrite (count_ext _ (spots g) (spots g')); [done |].
    intros i. unfold retired. by apply bool_decide_ext.
Qed.

(** Links depend on the array through [next] and [prev] alone. *)
Lemma links_data w w' g :
  links w g -> length (nodes_ w') = length (nodes_ w) -> free_head_ w' = free_head_ w ->
  occupied_ w' = occupied_ w -> (∀ j, nxt w' j = nxt w j) -> (∀ j, prv w' j = prv w j) -> links w' g.
Proof.
  intros Hk Hl Hf Ho Hn Hp. split; rewrite ?Hl, ?Hf; try apply Hk.
  - intros h Hh. eapply path_frame; [| | by apply (lk_ring _ _ Hk)]; intros; [apply Hn | apply Hp].
  - intros i Hi. rewrite Hn, Hp. by apply (lk_deliv _ _ Hk).
  - eapply chain_frame; [| apply (lk_free _ _ Hk)]. intros; apply Hn.
  - eapply words_same; [apply (lk_words _ _ Hk) | done..].
Qed.

(** ** Placing and unlinking *)

Lemma head_for_lt w d : clock_ok w -> (head_for w (EndOf w d) < kFirst)%nat ∧ head_for w (EndOf w d) <> kMoving.
Proof.
  intros Hc. destruct (EndOf_unit w d Hc) as [Hu Hr]. pose proof (head_for_spec w _ Hc Hr Hu) as Hh.
  case_bool_decide.
  - rewrite Hh. unfold kReady, kMoving, kFirst. lia.
  - destruct Hh as (level & s & Hl & Hs & -> & _). pose proof (slot_in_wheel level s Hl Hs).
    unfold kMoving, kFirst. lia.
Qed.

Lemma Place_inv w g i n :
  inv w g -> unlisted (spots g i) -> nodes_ w !! i = Some n ->
  ∃ w', Place w i = Ret w' ∧ same_rest w w' ∧ inv w' (push (head_for w (EndOf w (deadline n))) i g).
Proof.
  intros Hi Hu Hn. rewrite (Place_head w i n) by by apply at_lookup.
  destruct (head_for_lt w (deadline n) (iv_clock _ _ Hi)) as [Hlt _].
  destruct (Link_links w g _ i (iv_links _ _ Hi) Hlt Hu) as (w' & -> & Hs & Hk).
  exists w'. split_and!; [done.. |]. eapply inv_links; [done.. | |].
  - intros j. simpl. at_point j i; [by destruct Hu as [-> | ->] | done].
  - intros j. simpl. at_point j i; [by destruct Hu as [-> | ->] | done].
Qed.

Lemma Unlink_inv w g i h :
  inv w g -> spots g i = InList h ->
  ∃ w', Unlink w i = Ret w' ∧ same_rest w w' ∧ inv w' (drop h i g).
Proof.
  intros Hi Hs. destruct (Unlink_links w g h i (iv_links _ _ Hi) Hs) as (w' & -> & Hr & Hk).
  exists w'. split_and!; [done.. |]. eapply inv_links; [done.. | |]; intros j; simpl; at_point j i; by rewrite ?Hs.
Qed.

Lemma Unlink_deliv_inv w g i :
  inv w g -> spots g i = IsDeliv ->
  ∃ w', Unlink w i = Ret w' ∧ same_rest w w' ∧ inv w' (set_spot i IsLoose g).
Proof.
  intros Hi Hs. destruct (Unlink_deliv w g i (iv_links _ _ Hi) Hs) as (w' & -> & Hr & Hk).
  exists w'. split_and!; [done.. |]. eapply inv_links; [done.. | |]; intros j; simpl; at_point j i; by rewrite ?Hs.
Qed.

(** ** What an operation outside the loop of [Poll] does *)

(** What only [Poll] and [Arrive] change. *)
Record frame w w' : Prop := {
  fr_capacity : capacity_ w' = capacity_ w;
  fr_shift : shift_ w' = shift_ w;
  fr_cur : cur_ w' = cur_ w;
  fr_polling : polling_ w' = polling_ w;
  fr_trace : trace_ w' = trace_ w
}.

Lemma frame_refl w : frame w w.
Proof. by split. Qed.

Lemma frame_trans w1 w2 w3 : frame w1 w2 -> frame w2 w3 -> frame w1 w3.
Proof. intros [] []. split; congruence. Qed.

Lemma frame_rest w w' : same_rest w w' -> frame w w'.
Proof. intros []. by split. Qed.

(** Generations grow, and a retired node stays so. *)
Definition ages w g w' g' : Prop :=
  ∀ i n, nodes_ w !! i = Some n -> (kFirst <= i)%nat ->
    (spots g i = IsQuar -> spots g' i = IsQuar) ∧
    ∃ n', nodes_ w' !! i = Some n' ∧ (spots g' i = IsQuar ∨ generation n <= generation n').

Lemma ages_trans w1 g1 w2 g2 w3 g3 : ages w1 g1 w2 g2 -> ages w2 g2 w3 g3 -> ages w1 g1 w3 g3.
Proof.
  intros H12 H23 i n1 Hn1 Hi. destruct (H12 i n1 Hn1 Hi) as (Hq1 & n2 & Hn2 & Hg1).
  destruct (H23 i n2 Hn2 Hi) as (Hq2 & n3 & Hn3 & Hg2). split; [tauto |]. exists n3. split; [done |].
  destruct Hg1 as [? | ?]; [tauto |]. destruct Hg2; [tauto |]. right. lia.
Qed.

(** The arming that a handle names is over. *)
Definition spent w g (h : ExpiryHandle) : Prop :=
  (kFirst <= id h)%nat ∧ ∃ n, nodes_ w !! id h = Some n ∧ (spots g (id h) = IsQuar ∨ h_generation h < generation n).

Lemma spent_ages w g w' g' h : ages w g w' g' -> spent w g h -> spent w' g' h.
Proof.
  intros Ha (Hi & n & Hn & Hd). destruct (Ha _ _ Hn Hi) as (Hq & n' & Hn' & Hg). split; [done |].
  exists n'. split; [done |]. destruct Hd; [tauto |]. destruct Hg; [tauto |]. right. lia.
Qed.

(** A deadline within the range where serial order is unambiguous, in a list
    that is looked at no later than it: a slot begins before the deadline. *)
Definition placed w (h : nat) (d : Z) : Prop :=
  Diff (EndOf w d) (cur_ w) <= 2 ^ (digits - 2) + 2 ^ shift_ w ∧
  ∀ level s, (level < Levels)%nat -> (s < kSlots)%nat -> h = (level * kSlots + s)%nat ->
    dist w level s <= Diff (EndOf w d) (cur_ w).

Definition timely w g : Prop :=
  ∀ h i n, i ∈ lists g h -> nodes_ w !! i = Some n -> placed w h (deadline n).

(** The deadlines that may be armed at the wheel's time. *)
Definition near w (d : Z) : Prop :=
  2 ^ shift_ w - 2 ^ (digits - 2) < Diff (EndOf w d) (cur_ w) <= 2 ^ (digits - 2) + 2 ^ shift_ w.

Definition no_loose g : Prop := ∀ i, spots g i <> IsLoose.

Record step_ok (Q : Prop) w g w' g' : Prop := {
  so_inv : inv w' g';
  so_frame : frame w w';
  so_ages : ages w g w' g';
  so_delivering i n :
    spots g i = IsDeliv -> nodes_ w !! i = Some n ->
    (spots g' i = IsDeliv ∧ ∃ n', nodes_ w' !! i = Some n' ∧ generation n' = generation n) ∨
    (spent w' g' (mk_handle i (generation n)) ∧ spots g' i <> IsDeliv);
  so_deliv i : spots g' i = IsDeliv -> spots g i = IsDeliv;
  so_loose : no_loose g -> no_loose g';
  so_timely : Q -> timely w g -> timely w' g'
}.

Lemma ages_refl w g : ages w g w g.
Proof. intros i n Hn _. split; [done |]. exists n. split; [done |]. right. lia. Qed.

Lemma step_ok_refl Q w g : inv w g -> step_ok Q w g w g.
Proof.
  intros Hi. split; try done; [apply ages_refl |]. intros i n Hs Hn. left. eauto.
Qed.

Lemma step_ok_trans Q w1 g1 w2 g2 w3 g3 :
  step_ok Q w1 g1 w2 g2 -> step_ok Q w2 g2 w3 g3 -> step_ok Q w1 g1 w3 g3.
Proof.
  intros [I1 F1 A1 D1 V1 L1 T1] [I2 F2 A2 D2 V2 L2 T2]. split; eauto using frame_trans, ages_trans.
  intros i n Hs Hn. destruct (D1 i n Hs Hn) as [(Hs2 & n2 & Hn2 & Hg2) | [Hsp Hnd]].
  - rewrite <- Hg2. by apply D2.
  - right. split; [by eapply spent_ages |]. intros Hd. by apply Hnd, V2.
Qed.

Lemma step_ok_weaken (Q Q' : Prop) w g w' g' : (Q' -> Q) -> step_ok Q w g w' g' -> step_ok Q' w g w' g'.
Proof. intros HQ []. split; eauto. Qed.

(** ** The timers, by handle *)

(** What a handle names: the deadline and the payload of a live timer. *)
Definition node_timer (n : Node P) (generation0 : Z) : option (Z * P) :=
  if bool_decide (generation n = generation0) && Z.odd (generation n)
  then Some (deadline n, payload n) else None.

Definition timer w (h : ExpiryHandle) : option (Z * P) :=
  if decide (kFirst <= id h)%nat then n ← nodes_ w !! id h; node_timer n (h_generation h) else None.

Lemma timer_data w w' h : (∀ j, data w' j = data w j) -> timer w' h = timer w h.
Proof.
  intros Hs. unfold timer. case_decide; [| done]. pose proof (Hs (id h)) as Hd. unfold data in Hd.
  destruct (nodes_ w' !! id h) as [n' |], (nodes_ w !! id h) as [n |]; try done.
  injection Hd as H1 H2 H3. simpl. unfold node_timer. by rewrite H1, H2, H3.
Qed.

Lemma timer_rest w w' h : same_rest w w' -> timer w' h = timer w h.
Proof. intros Hs. apply timer_data, Hs. Qed.

(** One node replaced. *)
Lemma timer_set w w' i n' h :
  nodes_ w' = <[i := n']> (nodes_ w) -> (kFirst <= i < length (nodes_ w))%nat ->
  timer w' h = if decide (id h = i) then node_timer n' (h_generation h) else timer w h.
Proof.
  intros Hn Hi. unfold timer. rewrite Hn. repeat case_decide; try lia; try done; subst.
  - rewrite list_lookup_insert_eq; [done | lia].
  - by rewrite list_lookup_insert_ne.
Qed.

Lemma Resolve_timer w g h :
  inv w g ->
  match timer w h with
  | Some (d, p) => ∃ n, Resolve w h = Ret (Some n) ∧ nodes_ w !! id h = Some n ∧ (kFirst <= id h)%nat ∧
      deadline n = d ∧ payload n = p ∧ generation n = h_generation h ∧ armed (spots g (id h)) = true
  | None => Resolve w h = Ret None
  end.
Proof.
  intros Hi. unfold timer, Resolve. pose proof (iv_length _ _ Hi) as Hl.
  case_decide as Hk; [| by rewrite bool_decide_eq_true_2 by lia].
  rewrite (bool_decide_eq_false_2 (id h < kFirst)%nat) by lia. simpl.
  destruct (nodes_ w !! id h) as [n |] eqn:Hn.
  - pose proof (lookup_lt_Some _ _ _ Hn). rewrite bool_decide_eq_false_2 by lia.
    unfold node. rewrite (at_lookup _ _ _ Hn). simpl. unfold node_timer.
    destruct (bool_decide _) eqn:Hb; simpl; [| done]. apply bool_decide_eq_true in Hb.
    destruct (Z.odd (generation n)) eqn:Ho; [| done].
    destruct (iv_generation _ _ Hi _ _ Hn Hk) as (_ & Ha & _). exists n. split_and!; try done. congruence.
  - apply lookup_ge_None in Hn. by rewrite bool_decide_eq_true_2 by lia.
Qed.

(** A member of a list is not its own neighbour: only a timer being delivered
    is linked to itself. *)
Lemma member_prev w g i h : inv w g -> spots g i = InList h -> prv w i <> Some i.
Proof.
  intros Hi Hs Hp. pose proof (iv_links _ _ Hi) as Hk. pose proof (lk_head _ _ Hk _ _ Hs) as Hh.
  pose proof (ring_nodup _ _ _ Hk Hh) as Hnd. pose proof (lk_ring _ _ Hk h Hh) as Hr.
  apply (lk_spot _ _ Hk) in Hs. apply list_elem_of_split in Hs as (l1 & l2 & Hl). rewrite Hl in *.
  apply path_app in Hr as [Hr _]. rewrite (path_last _ _ _ _ Hr) in Hp. injection Hp as Hp.
  pose proof (last_elem l1 h) as He. rewrite Hp in He. apply NoDup_cons in Hnd as [H1 H2].
  apply NoDup_app in H2 as (_ & H2 & _). apply elem_of_cons in He as [-> | He]; [set_solver |].
  apply (H2 _ He). by left.
Qed.

Lemma Delivering_spec w g i :
  inv w g -> no_loose g -> armed (spots g i) = true ->
  Delivering w i = Ret (bool_decide (spots g i = IsDeliv)).
Proof.
  intros Hi Hnl Ha. pose proof (iv_links _ _ Hi) as Hk.
  destruct (spot_ge w g i Hk) as [_ Hin]; [by destruct (spots g i) |].
  destruct (node_ok w i Hin) as (n & Hn & Hnode). unfold Delivering. rewrite Hnode. simpl. f_equal.
  assert (prv w i = Some (prev n)) as Hp by (unfold prv; by rewrite Hn).
  specialize (Hnl i). destruct (spots g i) as [h | | | | |] eqn:Hs; try done.
  - rewrite (bool_decide_eq_false_2 (InList h = IsDeliv)) by done. apply bool_decide_eq_false_2. intros He.
    apply (member_prev w g i h Hi Hs). by rewrite Hp, He.
  - destruct (lk_deliv _ _ Hk i Hs) as [_ Hd]. rewrite Hp in Hd. injection Hd as ->. by rewrite !bool_decide_eq_true_2.
Qed.

(** ** Arming a free node *)

(** The node taken off the free list, armed but not yet placed. *)
Definition taken w i (n : Node P) (d : Z) (p : P) : Wheel.t P :=
  mk (<[i := mk_node (prev n) (next n) (generation n + 1) d p]> (nodes_ w)) (capacity_ w) (shift_ w) (cur_ w)
    (next n) (size_ w + 1) (quarantined_ w) (polling_ w) (occupied_ w) (trace_ w).

Definition take i (F : list nat) g : ghost := mk_ghost (lists g) (<[i := IsLoose]> (spots g)) F.

(** The generation of a free node can grow. *)
Lemma even_room x : in_width 32 x -> Z.odd x = false -> x + 1 < 2 ^ 32.
Proof.
  intros [H1 H2] Ho. destruct (decide (x = 2 ^ 32 - 1)) as [-> | ?]; [by vm_compute in Ho | lia].
Qed.

Lemma odd_succ x : Z.odd (x + 1) = negb (Z.odd x).
Proof. by rewrite Z.add_1_r, Z.odd_succ, Z.negb_odd. Qed.

Lemma links_same_nodes w w' i n n' :
  nodes_ w' = <[i := n']> (nodes_ w) -> nodes_ w !! i = Some n -> next n' = next n -> prev n' = prev n ->
  (∀ j, nxt w' j = nxt w j) ∧ (∀ j, prv w' j = prv w j).
Proof.
  intros Hw Hn Hx Hp. split; intros j; unfold nxt, prv; rewrite Hw, (lookup_upd _ _ _ _ _ Hn);
    (case_decide; [subst j; rewrite Hn; simpl; congruence | done]).
Qed.

Lemma take_links w g i F n d p :
  inv w g -> free g = i :: F -> nodes_ w !! i = Some n -> links (taken w i n d p) (take i F g).
Proof.
  intros Hi Hf Hn. pose proof (iv_links _ _ Hi) as Hk.
  destruct (links_same_nodes w (taken w i n d p) i n _ eq_refl Hn) as [Hx Hp]; [done.. |].
  pose proof (lk_free _ _ Hk) as Hc. rewrite Hf in Hc. destruct Hc as [Hhd (y & Hy & Hc)].
  assert (y = next n) as -> by (unfold nxt in Hy; rewrite Hn in Hy; by injection Hy).
  pose proof (lk_free_nodup _ _ Hk) as Hnd. rewrite Hf in Hnd. apply NoDup_cons in Hnd as [HiF HndF].
  assert (∀ j, j ∈ i :: F <-> spots g j = IsFree) as Hfree by (intros j; rewrite <- Hf; apply (lk_free_spot _ _ Hk)).
  assert (spots g i = IsFree) as Hs by (apply Hfree; by left).
  split; simpl; try apply Hk.
  - intros h Hh. eapply path_frame; [| | by apply (lk_ring _ _ Hk)]; intros; [apply Hx | apply Hp].
  - intros j h. rewrite (lk_spot _ _ Hk). at_point j i; [split; congruence | done].
  - intros j h. at_point j i; [done | apply (lk_head _ _ Hk)].
  - intros j. rewrite length_insert. at_point j i; [| apply (lk_timer _ _ Hk)].
    rewrite <- (lk_timer _ _ Hk), Hs. done.
  - intros j. rewrite Hx, Hp. at_point j i; [done | apply (lk_deliv _ _ Hk)].
  - eapply chain_frame; [| done]. intros; apply Hx.
  - done.
  - intros j. at_point j i; [done |]. rewrite <- Hfree, elem_of_cons. tauto.
  - eapply words_same; [apply (lk_words _ _ Hk) | done..].
Qed.

Lemma free_node_even w g i n : inv w g -> spots g i = IsFree -> nodes_ w !! i = Some n ->
  (kFirst <= i < kFirst + capacity_ w)%nat ∧ in_width 32 (generation n) ∧ Z.odd (generation n) = false.
Proof.
  intros Hi Hs Hn. assert (i ∈ timers w) as Ht by (apply (timer_elem _ _ _ Hi); by rewrite Hs).
  unfold timers in Ht. rewrite elem_of_seq in Ht.
  destruct (iv_generation _ _ Hi i n Hn) as (H1 & H2 & _); [lia |]. rewrite Hs in H2. done.
Qed.

Lemma take_inv w g i F n d p :
  inv w g -> free g = i :: F -> nodes_ w !! i = Some n -> inv (taken w i n d p) (take i F g).
Proof.
  intros Hi Hf Hn. assert (spots g i = IsFree) as Hs by (apply (lk_free_spot _ _ (iv_links _ _ Hi)); rewrite Hf; by left).
  destruct (free_node_even _ _ _ _ Hi Hs Hn) as (Hr & Hw & Ho). pose proof (even_room _ Hw Ho).
  assert (i ∈ timers w) as Ht by (apply (timer_elem _ _ _ Hi); by rewrite Hs).
  pose proof (count_set armed (spots g) i IsLoose (timers w) (NoDup_seq _ _) Ht) as Ca.
  pose proof (count_set retired (spots g) i IsLoose (timers w) (NoDup_seq _ _) Ht) as Cr. rewrite Hs in Ca, Cr.
  split; simpl; try (by apply Hi).
  - by apply take_links.
  - split; simpl; apply (iv_clock _ _ Hi).
  - rewrite length_insert. apply (iv_length _ _ Hi).
  - intros j m Hm Hj. rewrite (lookup_upd _ _ _ _ _ Hn) in Hm. case_decide as Hji.
    + subst j. injection Hm as <-. rewrite fn_lookup_insert. simpl. rewrite odd_succ, Ho.
      split_and!; [| done..]. unfold in_width in *. lia.
    + rewrite fn_lookup_insert_ne by done. by apply (iv_generation _ _ Hi).
  - rewrite (iv_size _ _ Hi). unfold timers in *. simpl in *. lia.
  - rewrite (iv_quarantined _ _ Hi). unfold timers in *. simpl in *. lia.
Qed.

(** ** Freeing a node *)

Definition retire_node w i (n : Node P) : Wheel.t P :=
  mk (<[i := set_generation 0 n]> (nodes_ w)) (capacity_ w) (shift_ w) (cur_ w)
    (free_head_ w) (size_ w - 1) (quarantined_ w + 1) (polling_ w) (occupied_ w) (trace_ w).
Definition give_back w i (n : Node P) : Wheel.t P :=
  mk (<[i := set_next (free_head_ w) (set_generation (generation n + 1) n)]> (nodes_ w)) (capacity_ w) (shift_ w)
    (cur_ w) i (size_ w - 1) (quarantined_ w) (polling_ w) (occupied_ w) (trace_ w).

Definition give i g : ghost := mk_ghost (lists g) (<[i := IsFree]> (spots g)) (i :: free g).

(** The two ways a node is freed. *)
Definition freed w i (n : Node P) : Wheel.t P :=
  if decide (generation n = 2 ^ 32 - 1) then retire_node w i n else give_back w i n.
Definition free_spot i (n : Node P) g : ghost :=
  if decide (generation n = 2 ^ 32 - 1) then set_spot i IsQuar g else give i g.

Lemma unlisted_armed w g i n :
  inv w g -> unlisted (spots g i) -> nodes_ w !! i = Some n ->
  i ∈ timers w ∧ in_width 32 (generation n) ∧ Z.odd (generation n) = true ∧ 0 < size_ w.
Proof.
  intros Hi Hu Hn. assert (i ∈ timers w) as Ht by (apply (timer_elem _ _ _ Hi); by destruct Hu as [-> | ->]).
  unfold timers in Ht. rewrite elem_of_seq in Ht.
  destruct (iv_generation _ _ Hi i n Hn) as (H1 & H2 & _); [lia |]. rewrite (iv_size _ _ Hi).
  assert (armed (spots g i) = true) as Ha by by destruct Hu as [-> | ->]. rewrite Ha in H2.
  assert (i ∈ filter (fun i => armed (spots g i) = true) (timers w)) as Hf.
  { apply list_elem_of_filter. split; [done |]. unfold timers. rewrite elem_of_seq. lia. }
  unfold timers in *. split; [rewrite elem_of_seq; lia |]. do 2 (split; [done |]).
  unfold count. destruct (filter _ _); [by apply elem_of_nil in Hf | simpl; lia].
Qed.

Lemma Free_freed w g i n :
  inv w g -> unlisted (spots g i) -> nodes_ w !! i = Some n -> Free w i = Ret (freed w i n).
Proof.
  intros Hi Hu Hn. destruct (unlisted_armed _ _ _ _ Hi Hu Hn) as (_ & Hw & Ho & Hsz).
  pose proof (counts_small armed w g Hi) as Hc. rewrite <- (iv_size _ _ Hi) in Hc.
  pose proof (counts_small retired w g Hi) as Hq. rewrite <- (iv_quarantined _ _ Hi) in Hq.
  unfold Free, upd, node. simpl. rewrite (at_lookup _ _ _ Hn). simpl.
  pose proof (lookup_lt_Some _ _ _ Hn) as Hlt.
  rewrite at_lookup with (x := set_generation (wrap 32 (generation n + 1)) n)
    by (by apply list_lookup_insert_eq). simpl.
  rewrite (wrap_small 32 (size_ w - 1)) by (unfold in_width; lia).
  unfold freed. unfold in_width in Hw. case_decide as Hg.
  - rewrite Hg. change (wrap 32 (2 ^ 32 - 1 + 1)) with 0. simpl.
    by rewrite (wrap_small 32 (quarantined_ w + 1)) by (unfold in_width; lia).
  - rewrite (wrap_small 32 (generation n + 1)) by (unfold in_width; lia).
    rewrite bool_decide_eq_false_2 by lia.
    unfold give_back, with_free, with_nodes. simpl. by rewrite list_insert_insert_eq.
Qed.

Lemma give_links w g i n :
  inv w g -> unlisted (spots g i) -> nodes_ w !! i = Some n -> links (give_back w i n) (give i g).
Proof.
  intros Hi Hu Hn. pose proof (iv_links _ _ Hi) as Hk.
  assert (∀ j, nxt (give_back w i n) j = if decide (j = i) then Some (free_head_ w) else nxt w j) as Hx.
  { intros j. unfold nxt. simpl. rewrite (lookup_upd _ _ _ _ _ Hn). by case_decide. }
  assert (∀ j, prv (give_back w i n) j = prv w j) as Hp.
  { intros j. unfold prv. simpl. rewrite (lookup_upd _ _ _ _ _ Hn). case_decide; [subst j; by rewrite Hn | done]. }
  assert (i ∉ free g) as Hif by (rewrite (lk_free_spot _ _ Hk); by destruct Hu as [-> | ->]).
  assert (∀ h, spots g i <> InList h) as Hil by (intros h; by destruct Hu as [-> | ->]).
  assert (home g i = None) as Hh by (destruct Hu as [Hs | Hs]; by eapply outside_home).
  split; simpl; try apply Hk.
  - intros h Hlt. apply (ring_frame w _ g h Hk Hlt). intros x Hxh. rewrite Hx, Hp.
    rewrite decide_False; [done |]. intros ->. congruence.
  - intros j h. rewrite (lk_spot _ _ Hk). at_point j i; [| done]. split; [intros ?; by destruct (Hil h) | done].
  - intros j h. at_point j i; [done | apply (lk_head _ _ Hk)].
  - intros j. rewrite length_insert, <- (lk_timer _ _ Hk). at_point j i; [by destruct Hu as [-> | ->] | done].
  - intros j. at_point j i; [done |]. intros Hd. rewrite Hx, Hp, decide_False by done. by apply (lk_deliv _ _ Hk).
  - split; [done |]. exists (free_head_ w). split; [by rewrite Hx, decide_True |].
    eapply chain_frame; [| apply (lk_free _ _ Hk)]. intros x Hxf. rewrite Hx, decide_False; [done |]. by intros ->.
  - apply NoDup_cons. split; [done | apply (lk_free_nodup _ _ Hk)].
  - intros j. rewrite elem_of_cons, (lk_free_spot _ _ Hk). at_point j i; [tauto |]. naive_solver.
  - eapply words_same; [apply (lk_words _ _ Hk) | done..].
Qed.

Lemma free_links w g i n :
  inv w g -> unlisted (spots g i) -> nodes_ w !! i = Some n -> links (freed w i n) (free_spot i n g).
Proof.
  intros Hi Hu Hn. unfold freed, free_spot. case_decide; [| by apply give_links].
  destruct (links_same_nodes w (retire_node w i n) i n _ eq_refl Hn) as [Hx Hp]; [done.. |].
  apply links_set_spot; [| by left | by right].
  apply (links_data w); simpl; try done; [apply Hi | by rewrite length_insert].
Qed.

Lemma Free_inv w g i n :
  inv w g -> unlisted (spots g i) -> nodes_ w !! i = Some n -> inv (freed w i n) (free_spot i n g).
Proof.
  intros Hi Hu Hn. destruct (unlisted_armed _ _ _ _ Hi Hu Hn) as (Ht & Hw & Ho & Hsz).
  pose proof (free_links _ _ _ _ Hi Hu Hn) as Hl. unfold freed, free_spot in *.
  assert (armed (spots g i) = true ∧ retired (spots g i) = false) as [Ha Hq] by by destruct Hu as [-> | ->].
  pose proof (iv_size _ _ Hi) as Hsize. pose proof (iv_quarantined _ _ Hi) as Hquar.
  pose proof (λ f sp, count_set f (spots g) i sp (timers w) (NoDup_seq _ _) Ht) as Hc.
  assert (∀ n' sp, in_width 32 (generation n') -> Z.odd (generation n') = armed sp -> (sp = IsQuar -> generation n' = 0) ->
    ∀ j m, <[i := n']> (nodes_ w) !! j = Some m -> (kFirst <= j)%nat ->
    in_width 32 (generation m) ∧ Z.odd (generation m) = armed (<[i := sp]> (spots g) j) ∧
    (<[i := sp]> (spots g) j = IsQuar -> generation m = 0)) as Hgen.
  { intros n' sp G1 G2 G3 j m Hm Hj. rewrite (lookup_upd _ _ _ _ _ Hn) in Hm. case_decide as Hji.
    - subst j. injection Hm as <-. by rewrite fn_lookup_insert.
    - rewrite fn_lookup_insert_ne by done. by apply (iv_generation _ _ Hi). }
  unfold in_width in Hw. case_decide as Hg.
  - pose proof (Hc armed IsQuar) as Ca. pose proof (Hc retired IsQuar) as Cr. rewrite Ha, Hq in *.
    split; simpl; try (by apply Hi); [done | split; apply (iv_clock _ _ Hi) | rewrite length_insert; apply (iv_length _ _ Hi) | | |].
    + by apply Hgen.
    + unfold timers in *. simpl in *. lia.
    + unfold timers in *. simpl in *. lia.
  - pose proof (Hc armed IsFree) as Ca. pose proof (Hc retired IsFree) as Cr. rewrite Ha, Hq in *.
    split; simpl; try (by apply Hi); [done | split; apply (iv_clock _ _ Hi) | rewrite length_insert; apply (iv_length _ _ Hi) | | |].
    + apply Hgen; simpl; [unfold in_width; lia | by rewrite odd_succ, Ho | done].
    + unfold timers in *. simpl in *. lia.
    + unfold timers in *. simpl in *. lia.
Qed.

End Inv.

End WheelInv.
