(* ===== verification/ExpiryOps.v ===== *)
(** * Operations of the expiry wheel, by handle

    What [Schedule], [Refresh], [Reschedule], [Cancel] and a callback of [Poll]
    do to the timers their handles name, with the invariant they keep and, for
    deadlines within the documented range, the placement they keep. *)

From stdpp Require Import functions.
From S2P Require Import Prelude ExpiryWheel ExpiryLists ExpiryTime ExpiryInv.
Open Scope Z_scope.

Module Ops.
Import Wheel Rings Time WheelInv.

Section Ops.
Context {CF : Config} {P : Type}.
Implicit Types (w : Wheel.t P) (g : ghost) (i : nat).

(** ** Placement is kept *)

Lemma frame_dist w w' level s : frame w w' -> dist w' level s = dist w level s.
Proof. intros Hf. unfold dist, sh. by rewrite (fr_shift _ _ Hf), (fr_cur _ _ Hf). Qed.

Lemma frame_EndOf w w' d : shift_ w' = shift_ w -> EndOf w' d = EndOf w d.
Proof. intros Hs. unfold EndOf, Unit. by rewrite Hs. Qed.

Lemma frame_near w w' d : frame w w' -> near w' d <-> near w d.
Proof. intros Hf. unfold near. by rewrite (frame_EndOf w w'), (fr_shift _ _ Hf), (fr_cur _ _ Hf) by apply Hf. Qed.

Lemma frame_placed w w' h d : frame w w' -> placed w' h d <-> placed w h d.
Proof.
  intros Hf. unfold placed. rewrite (frame_EndOf w w'), (fr_shift _ _ Hf), (fr_cur _ _ Hf) by apply Hf.
  by setoid_rewrite (λ level s, frame_dist w w' level s Hf).
Qed.

Lemma timely_mono w g w' g' :
  frame w w' -> timely w g ->
  (∀ h j m, j ∈ lists g' h -> nodes_ w' !! j = Some m ->
    j ∈ lists g h ∧ ∃ m0, nodes_ w !! j = Some m0 ∧ deadline m = deadline m0) ->
  timely w' g'.
Proof.
  intros Hf Ht Hsub h j m Hj Hm. destruct (Hsub _ _ _ Hj Hm) as (Hj0 & m0 & Hm0 & ->).
  apply (frame_placed w w'); [done |]. by eapply Ht.
Qed.

Lemma timely_drop w w' g h i :
  same_rest w w' -> timely w g -> timely w' (drop h i g).
Proof.
  intros Hs Ht. eapply timely_mono; [by apply frame_rest | done |]. intros k j m Hj Hm.
  destruct (data_node _ _ _ _ (sr_data _ _ Hs j) Hm) as (m0 & Hm0 & _ & Hd & _). split; [| by exists m0].
  simpl in Hj. revert Hj. at_point k h; [| done]. rewrite list_elem_of_filter. tauto.
Qed.

(** [Place] puts a deadline in range where it is looked at in time. *)
Lemma head_placed w d :
  clock_ok w -> Diff (EndOf w d) (cur_ w) <= 2 ^ (digits - 2) + 2 ^ shift_ w ->
  placed w (head_for w (EndOf w d)) d.
Proof.
  intros Hc Hu. split; [done |]. intros level s Hl Hs He. destruct (EndOf_unit w d Hc) as [Hun Hr].
  pose proof (head_for_spec w _ Hc Hr Hun) as Hh. pose proof (slot_in_wheel level s Hl Hs) as Hw. case_bool_decide.
  - rewrite Hh in He. unfold kReady in He. lia.
  - destruct Hh as (level' & s' & Hl' & Hs' & Hh & Hd). rewrite Hh in He.
    destruct (slot_level level s Hs) as [E1 E2]. destruct (slot_level level' s' Hs') as [E3 E4].
    rewrite <- He in E1, E2. congruence.
Qed.

Lemma timely_push w w' g i n :
  clock_ok w -> timely w g -> Diff (EndOf w (deadline n)) (cur_ w) <= 2 ^ (digits - 2) + 2 ^ shift_ w ->
  nodes_ w !! i = Some n -> same_rest w w' ->
  timely w' (push (head_for w (EndOf w (deadline n))) i g).
Proof.
  intros Hc Ht Hnr Hn Hs k j m Hj Hm. apply (frame_placed w w'); [by apply frame_rest |].
  destruct (data_node _ _ _ _ (sr_data _ _ Hs j) Hm) as (m0 & Hm0 & _ & -> & _).
  simpl in Hj. revert Hj. at_point k (head_for w (EndOf w (deadline n))); [| intros; by eapply Ht].
  rewrite elem_of_app, list_elem_of_singleton. intros [Hj | ->]; [by eapply Ht |].
  assert (m0 = n) as -> by congruence. by apply head_placed.
Qed.

(** A serial difference is the difference up to whole turns. *)
Lemma Diff_turns a b : ∃ q, Diff a b = a - b + q * 2 ^ digits.
Proof. pose proof digits_big. apply mod_eq_iff; [apply pow_pos; lia | apply Diff_mod]. Qed.

(** The end of a deadline, seen from the wheel's time. *)
Lemma EndOf_turns w x :
  clock_ok w ->
  ∃ r q m, Diff (EndOf w x) (cur_ w) = x + r - cur_ w + q * 2 ^ digits ∧ 0 <= r < 2 ^ shift_ w ∧
    Diff (EndOf w x) (cur_ w) = m * 2 ^ shift_ w.
Proof.
  intros Hc. pose proof (sh_bounds w 0 Hc levels_ok) as [Hsh Htop]. unfold sh in *. pose proof digits_big.
  pose proof (pow_pos (shift_ w) ltac:(lia)) as Hu.
  destruct (Diff_turns (EndOf w x) (cur_ w)) as [q Hq]. destruct (EndOf_unit w x Hc) as [He _].
  pose proof (ck_unit _ Hc) as Hcu. apply Z.div_exact in He, Hcu; [| lia..].
  assert (2 ^ digits = 2 ^ (digits - shift_ w) * 2 ^ shift_ w) as Hd.
  { rewrite Z.mul_comm. apply pow_split. lia. }
  pose proof Hq as Hq0. rewrite EndOf_up in Hq at 2 by lia. unfold wrap in Hq. rewrite Z.mod_eq in Hq by (apply Z.pow_nonzero; lia).
  set (r := (- x) mod 2 ^ shift_ w) in *. set (t := (x + r) / 2 ^ digits) in *.
  exists r, (q - t), (EndOf w x / 2 ^ shift_ w - cur_ w / 2 ^ shift_ w + q * 2 ^ (digits - shift_ w)).
  split; [lia |]. split; [by apply Z.mod_pos_bound |].
  rewrite Hq0, Hd. set (a := EndOf w x / _) in *. set (b := cur_ w / _) in *. lia.
Qed.

(** A deadline moved later keeps its timer's place. *)
Lemma later_place w d d0 :
  clock_ok w -> 0 <= Diff (EndOf w d0) (cur_ w) <= 2 ^ (digits - 2) + 2 ^ shift_ w -> 0 <= Diff d d0 -> near w d ->
  Diff (EndOf w d0) (cur_ w) <= Diff (EndOf w d) (cur_ w).
Proof.
  intros Hc H0 Hl [Hn _]. pose proof digits_big. pose proof (Diff_range d d0) as Hb.
  pose proof (sh_bounds w 0 Hc levels_ok) as [Hsh Htop]. pose proof bits_ok. unfold sh in *.
  destruct (EndOf_turns w d Hc) as (r & q & m & E & Hr & Em).
  destruct (EndOf_turns w d0 Hc) as (r0 & q0 & m0 & E0 & Hr0 & Em0). destruct (Diff_turns d d0) as [z Hz].
  set (u := 2 ^ shift_ w) in *. set (N := 2 ^ (digits - 2)) in *.
  assert (2 ^ (digits - 1) = 2 * N) as H2 by (unfold N; rewrite <- Z.pow_succ_r by lia; f_equal; lia).
  assert (2 ^ digits = 4 * N) as H4.
  { unfold N. change 4 with (2 ^ 2). rewrite <- Z.pow_add_r by lia. f_equal. lia. }
  assert (∃ k, N = k * u) as [k Hk].
  { exists (2 ^ (digits - 2 - shift_ w)). unfold N, u. rewrite <- Z.pow_add_r by lia. f_equal. lia. }
  rewrite H4, H2 in *. clearbody u N. set (eps := Diff (EndOf w d) _) in *. set (alpha := Diff (EndOf w d0) _) in *.
  set (b := Diff d d0) in *. clearbody eps alpha b. set (t := q - q0 - z).
  assert (b + (r - r0) = (m - m0 - 4 * k * t) * u) as Hcm by (unfold t; nia).
  set (cm := m - m0 - 4 * k * t) in *. assert (0 <= cm) by nia. assert (cm <= 2 * k) by nia.
  destruct (decide (0 <= t)) as [Ht | Ht]; [nia |]. exfalso. nia.
Qed.

(** ** Schedule *)

Lemma full_spec w g : inv w g -> full w = bool_decide (free g = []).
Proof.
  intros Hi. unfold full. apply bool_decide_ext. pose proof (iv_links _ _ Hi) as Hk.
  pose proof (lk_free _ _ Hk) as Hc. destruct (free g) as [| i F] eqn:Hf; simpl in Hc; [done |].
  destruct Hc as [-> _]. split; [| done]. intros ->. exfalso.
  assert (spots g kNil = IsFree) as Hs by (apply (lk_free_spot _ _ Hk); rewrite Hf; by left).
  destruct (spot_ge w g kNil Hk) as [Hge _]; [by rewrite Hs |]. unfold kNil, kFirst in Hge. lia.
Qed.

Lemma Schedule_taken w g i F n d p :
  inv w g -> free g = i :: F -> nodes_ w !! i = Some n -> 
  Schedule w d p = (w' ← Place (taken w i n d p) i; n' ← node w' i; mret (mk_handle i (generation n'), w')).
Proof.
  intros Hi Hf Hn. pose proof (full_spec w g Hi) as Hfull. rewrite Hf in Hfull. unfold full in Hfull.
  unfold Schedule. rewrite Hfull. simpl. pose proof (lk_free _ _ (iv_links _ _ Hi)) as Hc. rewrite Hf in Hc.
  destruct Hc as [-> _]. unfold upd, node. rewrite (at_lookup _ _ _ Hn). simpl. rewrite (at_lookup _ _ _ Hn). simpl.
  assert (spots g i = IsFree) as Hs by (apply (lk_free_spot _ _ (iv_links _ _ Hi)); rewrite Hf; by left).
  destruct (free_node_even _ _ _ _ Hi Hs Hn) as (_ & Hw & Ho). pose proof (even_room _ Hw Ho) as Hr.
  pose proof (counts_small armed w g Hi) as Hc. rewrite <- (iv_size _ _ Hi) in Hc. unfold in_width in Hw.
  rewrite (wrap_small 32 (generation n + 1)) by (unfold in_width; lia).
  by rewrite (wrap_small 32 (size_ w + 1)) by (unfold in_width; lia).
Qed.

(** Changes of one node that is in no list keep the placement. *)
Lemma timely_unlisted w w' g g' i n' :
  frame w w' -> nodes_ w' = <[i := n']> (nodes_ w) -> lists g' = lists g -> (∀ h, i ∉ lists g h) ->
  timely w g -> timely w' g'.
Proof.
  intros Hf Hn Hl Hi Ht. eapply timely_mono; [done.. |]. intros h j m Hj Hm. rewrite Hl in Hj.
  split; [done |]. exists m. split; [| done]. rewrite Hn, list_lookup_insert_ne in Hm; [done |].
  intros <-. by eapply Hi.
Qed.

Lemma unlisted_lists w g i : inv w g -> (∀ h, spots g i <> InList h) -> ∀ h, i ∉ lists g h.
Proof. intros Hi Hs h Hin. apply (lk_spot _ _ (iv_links _ _ Hi)) in Hin. by eapply Hs. Qed.

(** A step that changes the data of one node and its place. *)
Lemma ages_one w w' g g' i n n' :
  nodes_ w !! i = Some n -> (∀ j, data w' j = if decide (j = i) then Some (generation n', deadline n', payload n') else data w j) ->
  (∀ j, j <> i -> spots g' j = spots g j) ->
  (spots g i = IsQuar -> spots g' i = IsQuar) -> spots g' i = IsQuar ∨ generation n <= generation n' ->
  ages w g w' g'.
Proof.
  intros Hn Hd Hs Hq Hg j m Hm Hj. specialize (Hd j). unfold data in Hd at 1. case_decide as Hji.
  - subst j. assert (m = n) as -> by congruence. split; [done |].
    destruct (nodes_ w' !! i) as [m' |]; [| done]. injection Hd as Hd _ _. exists m'. by rewrite Hd.
  - rewrite (Hs j Hji). split; [done |]. unfold data in Hd. rewrite Hm in Hd.
    destruct (nodes_ w' !! j) as [m' |]; [| done]. injection Hd as Hd _ _. exists m'. split; [done |]. right. lia.
Qed.

Lemma data_set w w' i n' :
  nodes_ w' = <[i := n']> (nodes_ w) -> (i < length (nodes_ w))%nat ->
  ∀ j, data w' j = if decide (j = i) then Some (generation n', deadline n', payload n') else data w j.
Proof.
  intros Hn Hi j. unfold data. rewrite Hn. case_decide; [subst; by rewrite list_lookup_insert_eq |].
  by rewrite list_lookup_insert_ne.
Qed.

Lemma step_one Q w g w' g' i n n' :
  inv w' g' -> frame w w' -> nodes_ w !! i = Some n -> (kFirst <= i)%nat ->
  (∀ j, data w' j = if decide (j = i) then Some (generation n', deadline n', payload n') else data w j) ->
  (∀ j, j <> i -> spots g' j = spots g j) -> spots g i <> IsQuar ->
  spots g' i = IsQuar ∨ generation n <= generation n' ->
  (spots g i = IsDeliv -> spots g' i = IsQuar ∨ generation n < generation n') ->
  spots g' i <> IsDeliv -> spots g' i <> IsLoose -> (Q -> timely w g -> timely w' g') ->
  step_ok Q w g w' g'.
Proof.
  intros Hi Hf Hn Hk Hd Hs Hq Hg Hdl Hnd Hnl Ht.
  pose proof (ages_one w w' g g' i n n' Hn Hd Hs ltac:(done) Hg) as Ha. split; try done.
  - intros j m Hj Hm. specialize (Hd j). unfold data in Hd. rewrite Hm in Hd. case_decide as Hji.
    + subst j. assert (m = n) as -> by congruence. right. split; [| done]. split; [done |]. simpl.
      destruct (nodes_ w' !! i) as [m' |]; [| done]. exists m'. injection Hd as Hd _ _. rewrite Hd. auto.
    + left. rewrite (Hs j Hji). split; [done |]. destruct (nodes_ w' !! j) as [m' |]; [| done].
      exists m'. injection Hd as Hd _ _. done.
  - intros j Hj. destruct (decide (j = i)) as [-> | Hji]; [done |]. by rewrite <- Hs.
  - intros Hl j. destruct (decide (j = i)) as [-> | Hji]; [done |]. by rewrite Hs.
Qed.

(** One node holds one timer, under its generation. *)
Lemma timer_one w w' i n' h' :
  nodes_ w' = <[i := n']> (nodes_ w) -> (kFirst <= i < length (nodes_ w))%nat ->
  (∀ x, x <> generation n' -> timer w (mk_handle i x) = None) -> Z.odd (generation n') = true ->
  timer w' h' = if decide (h' = mk_handle i (generation n')) then Some (deadline n', payload n') else timer w h'.
Proof.
  intros Hn Hi Hx Ho. rewrite (timer_set w w' i n' h' Hn Hi). destruct h' as [j x]. simpl.
  unfold node_timer. rewrite Ho, andb_true_r. 
  destruct (decide (j = i)) as [-> | Hj]; [| rewrite decide_False by congruence; done].
  case_bool_decide as Hg; [subst x; by rewrite decide_True |].
  rewrite decide_False by congruence. symmetry. apply Hx. congruence.
Qed.

(** An arming returns a fresh handle for the deadline and payload; a full wheel
    is unchanged. *)
Lemma Schedule_ok w g d p :
  inv w g ->
  ∃ h w' g', Schedule w d p = Ret (h, w') ∧ step_ok (near w d) w g w' g' ∧
    if full w then h = kNoExpiry ∧ w' = w
    else timer w h = None ∧ ∀ h', timer w' h' = if decide (h' = h) then Some (d, p) else timer w h'.
Proof.
  intros Hi. rewrite (full_spec w g Hi). pose proof (iv_links _ _ Hi) as Hk. case_bool_decide as Hfe.
  { exists kNoExpiry, w, g. split_and!; [| by apply step_ok_refl | done..]. unfold Schedule.
    pose proof (full_spec w g Hi) as Hfull. unfold full in Hfull. by rewrite Hfull, bool_decide_eq_true_2. }
  destruct (free g) as [| i F] eqn:Hf; [done |]. clear Hfe.
  assert (spots g i = IsFree) as Hs by (apply (lk_free_spot _ _ Hk); rewrite Hf; by left).
  destruct (spot_ge w g i Hk) as [Hge Hin]; [by rewrite Hs |]. destruct (node_ok w i Hin) as (n & Hn & _).
  destruct (free_node_even _ _ _ _ Hi Hs Hn) as (_ & Hw & Ho).
  rewrite (Schedule_taken w g i F n d p Hi Hf Hn). set (w1 := taken w i n d p).
  set (n1 := mk_node (prev n) (next n) (generation n + 1) d p).
  assert (nodes_ w1 !! i = Some n1) as Hn1 by (by apply list_lookup_insert_eq).
  destruct (Place_inv w1 (take i F g) i n1) as (w' & -> & Hr & Hi'); [by apply take_inv | left; apply fn_lookup_insert | done |].
  simpl. set (g' := push _ i (take i F g)) in *.
  assert (frame w w') as Hfr by (eapply frame_trans; [| by apply frame_rest]; by split).
  assert (∀ j, data w' j = if decide (j = i) then Some (generation n1, deadline n1, payload n1) else data w j) as Hd.
  { intros j. rewrite (sr_data _ _ Hr). by apply data_set. }
  assert (data w' i = Some (generation n1, deadline n1, payload n1)) as Hdi by (rewrite Hd; by rewrite decide_True).
  unfold data in Hdi. destruct (nodes_ w' !! i) as [n2 |] eqn:Hn2; [| done]. injection Hdi as G2 D2 P2.
  unfold node. rewrite (at_lookup _ _ _ Hn2). simpl. rewrite G2. exists (mk_handle i (generation n + 1)), w', g'.
  split; [done |]. split.
  - eapply (step_one _ w g w' g' i n n1); try done; simpl.
    + intros j Hj. by rewrite !fn_lookup_insert_ne.
    + by rewrite Hs.
    + right. lia.
    + by rewrite Hs.
    + by rewrite fn_lookup_insert.
    + by rewrite fn_lookup_insert.
    + intros Hnr Ht. eapply (timely_push w1); [apply (iv_clock _ _ (take_inv _ _ _ _ _ _ _ Hi Hf Hn)) | | apply Hnr | done..].
      eapply (timely_unlisted w); [by split | done | done | | done]. apply (unlisted_lists w g i Hi). by rewrite Hs.
  - assert (∀ x, node_timer n x = None) as Hnone by (intros x; unfold node_timer; rewrite Ho; by rewrite andb_false_r).
    assert (∀ x, timer w (mk_handle i x) = None) as Hti.
    { intros x. unfold timer. simpl. rewrite Hn. simpl. case_decide; [apply Hnone | done]. }
    split; [apply Hti |]. intros h'. rewrite (timer_rest _ _ _ Hr).
    apply (timer_one w w1 i n1); [done | unfold in_array in Hin; lia | by intros | ].
    simpl. by rewrite odd_succ, Ho.
Qed.

(** ** Refresh and Reschedule *)

(** New contents for a node, its links and generation kept. *)
Lemma inv_set w g i n n' :
  inv w g -> nodes_ w !! i = Some n -> next n' = next n -> prev n' = prev n -> generation n' = generation n ->
  inv (with_nodes (<[i := n']> (nodes_ w)) w) g.
Proof.
  intros Hi Hn Hx Hp Hg. set (w' := with_nodes _ w).
  destruct (links_same_nodes w w' i n n' eq_refl Hn Hx Hp) as [Hx' Hp'].
  split; simpl; try (by apply Hi).
  - apply (links_data w); try done; [apply Hi |]. simpl. by rewrite length_insert.
  - split; apply (iv_clock _ _ Hi).
  - rewrite length_insert. apply (iv_length _ _ Hi).
  - intros j m Hm Hj. rewrite (lookup_upd _ _ _ _ _ Hn) in Hm. case_decide as Hji; [| by apply (iv_generation _ _ Hi)].
    injection Hm as <-. subst j. rewrite Hg. by apply (iv_generation _ _ Hi).
Qed.

(** The node of a live timer with a new deadline and, if given, payload. *)
Definition renew (d : Z) (p : option P) (n : Node P) : Node P :=
  match p with Some p => set_payload p (set_deadline d n) | None => set_deadline d n end.

Lemma renew_fields d p n :
  next (renew d p n) = next n ∧ prev (renew d p n) = prev n ∧ generation (renew d p n) = generation n ∧
  deadline (renew d p n) = d ∧ payload (renew d p n) = default (payload n) p.
Proof. by destruct p. Qed.

(** A live handle's other generations name nothing. *)
Lemma timer_other w i n x :
  nodes_ w !! i = Some n -> x <> generation n -> timer w (mk_handle i x) = None.
Proof.
  intros Hn Hx. unfold timer. simpl. rewrite Hn. simpl. case_decide; [| done]. unfold node_timer.
  rewrite bool_decide_eq_false_2 by congruence. done.
Qed.

Lemma timely_later w g i n d p :
  inv w g -> nodes_ w !! i = Some n -> 0 <= Diff d (deadline n) -> near w d -> timely w g ->
  timely (with_nodes (<[i := renew d p n]> (nodes_ w)) w) g.
Proof.
  intros Hi Hn Hl Hnr Ht h j m Hj Hm. simpl in Hm. rewrite (lookup_upd _ _ _ _ _ Hn) in Hm.
  destruct (renew_fields d p n) as (_ & _ & _ & Hd & _). case_decide as Hji; [| by eapply Ht].
  injection Hm as <-. subst j. rewrite Hd. destruct (Ht h i n Hj Hn) as [Hup Hlow].
  split; [apply Hnr |]. intros level s Hlv Hs Hh. specialize (Hlow level s Hlv Hs Hh).
  change (dist w level s <= Diff (EndOf w d) (cur_ w)).
  pose proof (dist_range w level s (iv_clock _ _ Hi) Hlv) as Hr.
  pose proof (later_place w d (deadline n) (iv_clock _ _ Hi) ltac:(lia) Hl Hnr). lia.
Qed.

(** [timely] but for one node. *)
Definition timely_but i w g : Prop :=
  ∀ h j n, j ∈ lists g h -> i <> j -> nodes_ w !! j = Some n -> placed w h (deadline n).

(** A listed node unlinked and placed again by its deadline. *)
Lemma move_ok w g i h n :
  inv w g -> spots g i = InList h -> nodes_ w !! i = Some n ->
  ∃ w2 w3 g3, Unlink w i = Ret w2 ∧ Place w2 i = Ret w3 ∧ same_rest w w3 ∧ inv w3 g3 ∧
    (∀ j, j <> i -> spots g3 j = spots g j) ∧ (∃ h3, spots g3 i = InList h3) ∧
    (Diff (EndOf w (deadline n)) (cur_ w) <= 2 ^ (digits - 2) + 2 ^ shift_ w -> timely_but i w g -> timely w3 g3).
Proof.
  intros Hi Hs Hn. destruct (Unlink_inv w g i h Hi Hs) as (w2 & Hu & Hr2 & Hi2).
  assert (∃ n2, nodes_ w2 !! i = Some n2 ∧ deadline n2 = deadline n) as (n2 & Hn2 & Hd2).
  { pose proof (sr_data _ _ Hr2 i) as Hd. unfold data in Hd. rewrite Hn in Hd.
    destruct (nodes_ w2 !! i) as [n2 |]; [| done]. injection Hd as _ Hd _. by exists n2. }
  destruct (Place_inv w2 (drop h i g) i n2 Hi2) as (w3 & Hp & Hr3 & Hi3); [left; apply fn_lookup_insert | done |].
  exists w2, w3. eexists. split_and!; [done | done | by eapply same_rest_trans | done | | |].
  - intros j Hj. simpl. by rewrite !fn_lookup_insert_ne.
  - eexists. simpl. apply fn_lookup_insert.
  - intros Hnr Ht. eapply timely_push; [apply (iv_clock _ _ Hi2) | | | done..].
    + intros k j m Hj Hm. simpl in Hj. apply (frame_placed w w2); [by apply frame_rest |].
      destruct (data_node _ _ _ _ (sr_data _ _ Hr2 j) Hm) as (m0 & Hm0 & _ & -> & _).
      assert (j ∈ lists g k ∧ i <> j) as [Hj0 Hji].
      { revert Hj. at_point k h; [rewrite list_elem_of_filter; naive_solver |]. intros Hj. split; [done |].
        intros ->. apply (lk_spot _ _ (iv_links _ _ Hi)) in Hj. congruence. }
      by eapply Ht.
    + rewrite Hd2, (frame_EndOf w w2), (sr_cur _ _ Hr2), (sr_shift _ _ Hr2) by apply (sr_shift _ _ Hr2). done.
Qed.

(** A live timer that is not being delivered gets the deadline and payload; any
    other handle is refused and nothing changes. *)
Lemma rearm_ok w g h d p :
  inv w g -> no_loose g ->
  ∃ b w' g', rearm w h d p = Ret (b, w') ∧ step_ok (near w d) w g w' g' ∧
    match timer w h with
    | Some (_, p0) =>
        if decide (spots g (id h) = IsDeliv) then b = false ∧ w' = w
        else b = true ∧ ∀ h', timer w' h' = if decide (h' = h) then Some (d, default p0 p) else timer w h'
    | None => b = false ∧ w' = w
    end.
Proof.
  intros Hi Hnl. unfold rearm. pose proof (Resolve_timer w g h Hi) as Hres.
  destruct (timer w h) as [[d0 p0] |] eqn:Ht; simpl.
  2: { rewrite Hres. exists false, w, g. split_and!; [done | by apply step_ok_refl | done..]. }
  destruct Hres as (n & -> & Hn & Hge & <- & <- & Hgen & Ha). simpl.
  rewrite (Delivering_spec w g (id h) Hi Hnl Ha). simpl. case_decide as Hdl; case_bool_decide; try done.
  { exists false, w, g. split_and!; [done | by apply step_ok_refl | done..]. }
  assert (∃ hd, spots g (id h) = InList hd) as [hd Hs].
  { specialize (Hnl (id h)). destruct (spots g (id h)); naive_solver. }
  unfold upd at 1. unfold node at 1. rewrite (at_lookup _ _ _ Hn). simpl. fold (renew d p n).
  set (n1 := renew d p n). set (w1 := with_nodes (<[id h := n1]> (nodes_ w)) w).
  destruct (renew_fields d p n) as (Rx & Rp & Rg & Rd & Rpl). fold n1 in Rx, Rp, Rg, Rd, Rpl.
  pose proof (inv_set w g (id h) n n1 Hi Hn Rx Rp Rg) as Hi1. fold w1 in Hi1.
  pose proof (lookup_lt_Some _ _ _ Hn) as Hlt.
  assert (∀ w', same_rest w1 w' -> ∀ h', timer w' h' = if decide (h' = h) then Some (d, default (payload n) p) else timer w h') as Htm.
  { intros w' Hr h'. rewrite (timer_rest _ _ _ Hr), (timer_one w w1 (id h) n1); [| done | lia | |].
    - rewrite Rg, Hgen, Rd, Rpl. by destruct h.
    - intros x Hx. rewrite Rg in Hx. by eapply timer_other.
    - rewrite Rg. destruct (iv_generation _ _ Hi _ _ Hn Hge) as (_ & -> & _). done. }
  assert (∀ w', same_rest w1 w' -> ∀ j, data w' j =
    if decide (j = id h) then Some (generation n1, deadline n1, payload n1) else data w j) as Hdt.
  { intros w' Hr j. rewrite (sr_data _ _ Hr). by apply data_set. }
  assert (∀ w', same_rest w1 w' -> frame w w') as Hfr.
  { intros w' Hr. eapply frame_trans; [| by apply frame_rest]. by split. }
  case_bool_decide as Hlater.
  - exists true, w1, g. split; [done |]. split; [| split; [done | apply Htm, same_rest_refl]].
    eapply (step_one _ w g w1 g (id h) n n1); rewrite ?Hs; try done.
    + apply Hdt, same_rest_refl.
    + right. lia.
    + intros Hnr Htl. by apply (timely_later w g).
  - assert (nodes_ w1 !! id h = Some n1) as Hn1 by (by apply list_lookup_insert_eq).
    destruct (move_ok w1 g (id h) hd n1 Hi1 Hs Hn1) as (w2 & w3 & g3 & -> & Hpl & Hr3 & Hi3 & Hsp & Hat & Htl). simpl. rewrite Hpl. simpl.
    exists true, w3, g3. split; [done |]. split; [| split; [done | by apply Htm]].
    destruct Hat as [h3 Hat].
    eapply (step_one _ w g w3 g3 (id h) n n1); rewrite ?Hs, ?Hat; try done; [by apply Hfr | by apply Hdt | right; lia |].
    intros Hnr Ht0. apply Htl; [rewrite Rd; apply Hnr |]. intros k j m Hj Hji Hm.
    simpl in Hm. rewrite list_lookup_insert_ne in Hm by done. by eapply Ht0.
Qed.

(** ** Cancel *)

(** An armed timer taken out of whatever holds it. *)
Lemma detach_ok w g i :
  inv w g -> no_loose g -> armed (spots g i) = true ->
  ∃ w2 g2, Unlink w i = Ret w2 ∧ same_rest w w2 ∧ inv w2 g2 ∧ spots g2 i = IsLoose ∧
    (∀ j, j <> i -> spots g2 j = spots g j) ∧ (timely w g -> timely w2 g2).
Proof.
  intros Hi Hnl Ha. specialize (Hnl i). destruct (spots g i) as [h | | | | |] eqn:Hs; try done.
  - destruct (Unlink_inv w g i h Hi Hs) as (w2 & Hu & Hr & Hi2). exists w2, (drop h i g).
    split_and!; [done.. | apply fn_lookup_insert | intros; by apply fn_lookup_insert_ne |]. by apply timely_drop.
  - destruct (Unlink_deliv_inv w g i Hi Hs) as (w2 & Hu & Hr & Hi2). exists w2, (set_spot i IsLoose g).
    split_and!; [done.. | apply fn_lookup_insert | intros; by apply fn_lookup_insert_ne |].
    intros Ht. eapply timely_mono; [by apply frame_rest | done |]. intros h j m Hj Hm. split; [done |].
    destruct (data_node _ _ _ _ (sr_data _ _ Hr j) Hm) as (m0 & Hm0 & _ & Hd & _). eauto.
Qed.

(** The node after it is freed. *)
Definition freed_node w (n : Node P) : Node P :=
  if decide (generation n = 2 ^ 32 - 1) then set_generation 0 n
  else set_next (free_head_ w) (set_generation (generation n + 1) n).

Lemma freed_nodes w i n : nodes_ (freed w i n) = <[i := freed_node w n]> (nodes_ w) ∧ frame w (freed w i n).
Proof. unfold freed, freed_node. case_decide; by split. Qed.

Lemma free_spot_other i (n : Node P) g j : j <> i -> spots (free_spot i n g) j = spots g j.
Proof. intros Hj. unfold free_spot. case_decide; simpl; by apply fn_lookup_insert_ne. Qed.

Lemma free_spot_self i (n : Node P) g :
  spots (free_spot i n g) i = if decide (generation n = 2 ^ 32 - 1) then IsQuar else IsFree.
Proof. unfold free_spot. case_decide; simpl; apply fn_lookup_insert. Qed.

Lemma free_spot_lists i (n : Node P) g : lists (free_spot i n g) = lists g.
Proof. unfold free_spot. by case_decide. Qed.

(** A detached timer freed: its handle is dead, every other timer as it was. *)
Lemma free_timers w g i n :
  inv w g -> unlisted (spots g i) -> nodes_ w !! i = Some n ->
  ∀ h', timer (freed w i n) h' = if decide (h' = mk_handle i (generation n)) then None else timer w h'.
Proof.
  intros Hi Hu Hn h'. destruct (unlisted_armed _ _ _ _ Hi Hu Hn) as (Ht & Hw & Ho & _).
  unfold timers in Ht. rewrite elem_of_seq, <- (iv_length _ _ Hi) in Ht.
  destruct (freed_nodes w i n) as [Hnd _]. rewrite (timer_set _ _ _ _ _ Hnd Ht). destruct h' as [j x]. simpl.
  assert (node_timer (freed_node w n) x = None) as Hnone.
  { unfold node_timer, freed_node. case_decide; simpl; [by rewrite andb_false_r |]. rewrite odd_succ, Ho. by rewrite andb_false_r. }
  destruct (decide (j = i)) as [-> | Hj]; [| by rewrite decide_False by congruence]. rewrite Hnone.
  case_decide as Hx; [done |]. symmetry. eapply timer_other; [done |]. congruence.
Qed.

Lemma freed_gen w n : in_width 32 (generation n) ->
  generation n = 2 ^ 32 - 1 ∨ generation n < generation (freed_node w n).
Proof. unfold freed_node. intros Hw. case_decide; [by left |]. right. simpl. lia. Qed.

(** A live timer is disarmed; a dead handle is refused and nothing changes. *)
Lemma Cancel_ok w g h :
  inv w g -> no_loose g ->
  ∃ b w' g', Cancel w h = Ret (b, w') ∧ step_ok True w g w' g' ∧
    match timer w h with
    | Some _ => b = true ∧ ∀ h', timer w' h' = if decide (h' = h) then None else timer w h'
    | None => b = false ∧ w' = w
    end.
Proof.
  intros Hi Hnl. unfold Cancel. pose proof (Resolve_timer w g h Hi) as Hres.
  destruct (timer w h) as [[d0 p0] |] eqn:Ht; simpl.
  2: { rewrite Hres. exists false, w, g. split_and!; [done | by apply step_ok_refl | done..]. }
  destruct Hres as (n & -> & Hn & Hge & _ & _ & Hgen & Ha). simpl.
  destruct (detach_ok w g (id h) Hi Hnl Ha) as (w2 & g2 & -> & Hr2 & Hi2 & Hs2 & Ho2 & Ht2). simpl.
  pose proof (sr_data _ _ Hr2 (id h)) as Hd. unfold data in Hd. rewrite Hn in Hd.
  destruct (nodes_ w2 !! id h) as [n2 |] eqn:Hn2; [| done]. injection Hd as Hg2 _ _.
  assert (unlisted (spots g2 (id h))) as Hu by by left.
  rewrite (Free_freed w2 g2 (id h) n2 Hi2 Hu Hn2). simpl. pose proof (Free_inv w2 g2 (id h) n2 Hi2 Hu Hn2) as Hi3.
  destruct (freed_nodes w2 (id h) n2) as [Hnd Hf]. pose proof (lookup_lt_Some _ _ _ Hn2) as Hlt.
  destruct (unlisted_armed _ _ _ _ Hi2 Hu Hn2) as (_ & Hw & _). pose proof (freed_gen w2 n2 Hw) as Hfg.
  exists true. eexists _, _. split; [done |]. split.
  - eapply (step_one _ w g _ _ (id h) n (freed_node w2 n2) Hi3); try done.
    + eapply frame_trans; [by apply frame_rest | done].
    + intros j. rewrite (data_set _ _ _ _ Hnd Hlt). case_decide; [done |]. apply (sr_data _ _ Hr2).
    + intros j Hj. rewrite free_spot_other by done. by apply Ho2.
    + intros Hq. by rewrite Hq in Ha.
    + rewrite free_spot_self, <- Hg2. case_decide; [by left | right]. destruct Hfg; [done | lia].
    + intros _. rewrite free_spot_self, <- Hg2. case_decide; [by left | right]. by destruct Hfg.
    + rewrite free_spot_self. by case_decide.
    + rewrite free_spot_self. by case_decide.
    + intros _ Htl. eapply (timely_unlisted w2); [done.. | apply free_spot_lists | | by apply Ht2].
      apply (unlisted_lists w2 g2 (id h) Hi2). by rewrite Hs2.
  - split; [done |]. intros h'. rewrite (free_timers w2 g2 _ _ Hi2 Hu Hn2), Hg2, Hgen. destruct h as [i x]. simpl.
    case_decide; [done |]. by apply timer_rest.
Qed.

End Ops.

End Ops.
