(* ===== verification/ExpiryPoll.v ===== *)
(** * Polling the expiry wheel

    The loop of [PollImpl]: callbacks, deliveries, moves between levels and the
    wheel's time. The loop ends within its fuel, does no more work than the
    budget, delivers no timer before its deadline and, when the budget lasts,
    leaves none that is due. *)

From stdpp Require Import functions.
From S2P Require Import Prelude ExpiryWheel ExpiryLists ExpiryTime ExpiryInv ExpiryOps.
Open Scope Z_scope.

Module Polling.
Import Wheel Rings Time WheelInv Ops.

Section Polling.
Context {CF : Config} {P : Type}.
Implicit Types (w : Wheel.t P) (g : ghost) (i : nat).

(** ** Callbacks *)

(** Every deadline a callback arms satisfies [Q]. *)
Fixpoint prog_all (Q : Z -> Prop) (c : prog P) : Prop :=
  match c with
  | PDone again => ∀ d, again = Some d -> Q d
  | PSchedule d _ k => Q d ∧ ∀ h, prog_all Q (k h)
  | PRefresh _ d k => Q d ∧ ∀ b, prog_all Q (k b)
  | PReschedule _ d _ k => Q d ∧ ∀ b, prog_all Q (k b)
  | PCancel _ k => ∀ b, prog_all Q (k b)
  end.

(** A callback that never answers with a new deadline. *)
Fixpoint spends (c : prog P) : Prop :=
  match c with
  | PDone again => again = None
  | PSchedule _ _ k => ∀ h, spends (k h)
  | PRefresh _ _ k => ∀ b, spends (k b)
  | PReschedule _ _ _ k => ∀ b, spends (k b)
  | PCancel _ k => ∀ b, spends (k b)
  end.

Lemma prog_all_impl (Q Q' : Z -> Prop) c : (∀ d, Q d -> Q' d) -> prog_all Q c -> prog_all Q' c.
Proof. intros HQ. induction c; simpl; naive_solver. Qed.

(** What running [c] from [w] does. *)
Definition runs_ok w g (c : prog P) : Prop :=
  ∃ again w' g', run_prog w c = Ret (again, w') ∧ step_ok (prog_all (near w) c) w g w' g' ∧
    (prog_all (near w) c -> ∀ d, again = Some d -> near w d) ∧ (spends c -> again = None).

(** A call followed by the rest of the callback. *)
Lemma run_then (Q : Prop) w g w1 g1 c :
  step_ok Q w g w1 g1 -> no_loose g -> (∀ w g, inv w g -> no_loose g -> runs_ok w g c) ->
  ∃ again w' g', run_prog w1 c = Ret (again, w') ∧ step_ok (Q ∧ prog_all (near w) c) w g w' g' ∧
    (prog_all (near w) c -> ∀ d, again = Some d -> near w d) ∧ (spends c -> again = None).
Proof.
  intros Hs Hnl IH. pose proof (so_frame _ _ _ _ _ Hs) as Hf.
  destruct (IH w1 g1 (so_inv _ _ _ _ _ Hs) (so_loose _ _ _ _ _ Hs Hnl)) as (again & w' & g' & Hr & Hs' & Ha & Hsp).
  assert (prog_all (near w) c -> prog_all (near w1) c) as Hn.
  { apply prog_all_impl. intros x. by apply (frame_near w w1). }
  exists again, w', g'. split_and!; [done | | | done].
  - eapply step_ok_trans; eapply step_ok_weaken; [| done | | done]; tauto.
  - intros Hk x Hx. apply (frame_near w w1); [done |]. by apply Ha; [apply Hn |].
Qed.

Lemma run_prog_ok w g c : inv w g -> no_loose g -> runs_ok w g c.
Proof.
  revert w g. induction c as [again | d p k IH | h d k IH | h d p k IH | h k IH]; intros w g Hi Hnl;
    unfold runs_ok; simpl.
  - exists again, w, g. split_and!; [done | by apply step_ok_refl | done..].
  - destruct (Schedule_ok w g d p Hi) as (h & w1 & g1 & -> & Hs & _).
    destruct (run_then _ _ _ _ _ (k h) Hs Hnl (IH h)) as (again & w' & g' & Hr & Hs' & Ha & Hsp). 
    exists again, w', g'. split_and!; [done | by eapply step_ok_weaken; [| done]; naive_solver | naive_solver..].
  - destruct (rearm_ok w g h d None Hi Hnl) as (b & w1 & g1 & Hrun & Hs & _). unfold Refresh. rewrite Hrun.
    destruct (run_then _ _ _ _ _ (k b) Hs Hnl (IH b)) as (again & w' & g' & Hr & Hs' & Ha & Hsp). 
    exists again, w', g'. split_and!; [done | by eapply step_ok_weaken; [| done]; naive_solver | naive_solver..].
  - destruct (rearm_ok w g h d (Some p) Hi Hnl) as (b & w1 & g1 & Hrun & Hs & _). unfold Reschedule. rewrite Hrun.
    destruct (run_then _ _ _ _ _ (k b) Hs Hnl (IH b)) as (again & w' & g' & Hr & Hs' & Ha & Hsp). 
    exists again, w', g'. split_and!; [done | by eapply step_ok_weaken; [| done]; naive_solver | naive_solver..].
  - destruct (Cancel_ok w g h Hi Hnl) as (b & w1 & g1 & -> & Hs & _).
    destruct (run_then _ _ _ _ _ (k b) Hs Hnl (IH b)) as (again & w' & g' & Hr & Hs' & Ha & Hsp). 
    exists again, w', g'. split_and!; [done | by eapply step_ok_weaken; [| done]; naive_solver | naive_solver..].
Qed.

(** ** A round of the loop *)

(** No timer is being moved or delivered. *)
Definition settled g : Prop := ∀ i, spots g i <> IsLoose ∧ spots g i <> IsDeliv.

(** No arming was delivered twice, and those delivered are over. *)
Definition once w g : Prop :=
  NoDup (d_handle <$> trace_ w) ∧ ∀ x, x ∈ trace_ w -> spent w g (d_handle x).

(** A delivery at or after its deadline, at the wheel's granularity. *)
Definition due w (x : delivery) : Prop := Diff (EndOf w (d_deadline x)) (d_at x) <= 0.

Record round (Q O A : Prop) w g w' g' (new : list delivery) : Prop := {
  rd_inv : inv w' g';
  rd_settled : settled g';
  rd_capacity : capacity_ w' = capacity_ w;
  rd_shift : shift_ w' = shift_ w;
  rd_polling : polling_ w' = polling_ w;
  rd_ages : ages w g w' g';
  rd_trace : trace_ w' = trace_ w ++ new;
  rd_due : Forall (due w) new;
  rd_timely : Q -> timely w g -> timely w' g';
  rd_once : O -> once w g -> once w' g';
  rd_timers : A -> ∀ h, timer w' h = if decide (h ∈ d_handle <$> new) then None else timer w h;
  rd_live : A -> ∀ x, x ∈ new -> ∃ p, timer w (d_handle x) = Some (d_deadline x, p)
}.

Lemma due_shift w w' x : shift_ w' = shift_ w -> due w' x <-> due w x.
Proof. intros Hs. unfold due. by rewrite (frame_EndOf w w'). Qed.

Lemma round_refl Q O A w g : inv w g -> settled g -> round Q O A w g w g [].
Proof.
  intros Hi Hs. split; try done; [apply ages_refl | by rewrite app_nil_r |]. intros _ x Hx. by apply elem_of_nil in Hx.
Qed.

Lemma round_trans Q O A w1 g1 w2 g2 w3 g3 l1 l2 :
  round Q O A w1 g1 w2 g2 l1 -> round Q O A w2 g2 w3 g3 l2 -> round Q O A w1 g1 w3 g3 (l1 ++ l2).
Proof.
  intros [] [? ? ? ? ? ? ? ? ? ? Ht2 Hl2]. split; eauto using ages_trans; try congruence.
  - rewrite app_assoc. congruence.
  - apply Forall_app. split; [done |]. eapply Forall_impl; [done |]. intros x. by apply due_shift.
  - intros Ha h. rewrite Ht2, rd_timers0 by done. rewrite fmap_app.
    destruct (decide (h ∈ d_handle <$> l2)) as [H2 | H2]; [rewrite decide_True; [done |]; rewrite elem_of_app; auto |].
    apply decide_ext. rewrite elem_of_app. tauto.
  - intros Ha x. rewrite elem_of_app. intros [Hx | Hx]; [by apply rd_live0 |]. destruct (Hl2 Ha x Hx) as [p Hp].
    rewrite rd_timers0 in Hp by done. case_decide; [done |]. by exists p.
Qed.

Lemma round_weaken (Q Q' O A : Prop) w g w' g' l : (Q' -> Q) -> round Q O A w g w' g' l -> round Q' O A w g w' g' l.
Proof. intros HQ []. split; eauto. Qed.

(** Links moved, generations and retired nodes kept. *)
Lemma ages_data w w' g g' :
  (∀ j, data w' j = data w j) -> (∀ i, spots g i = IsQuar -> spots g' i = IsQuar) -> ages w g w' g'.
Proof.
  intros Hd Hq i n Hn Hi. split; [apply Hq |]. specialize (Hd i). unfold data in Hd. rewrite Hn in Hd.
  destruct (nodes_ w' !! i) as [n' |]; [| done]. injection Hd as Hd _ _. exists n'. split; [done |]. right. lia.
Qed.

Lemma once_ages w g w' g' : ages w g w' g' -> trace_ w' = trace_ w -> once w g -> once w' g'.
Proof. intros Ha Ht [Hnd Hsp]. split; rewrite Ht; [done |]. intros x Hx. by eapply spent_ages, Hsp. Qed.

Lemma same_rest_node w w' i n : same_rest w w' -> nodes_ w !! i = Some n ->
  ∃ n', nodes_ w' !! i = Some n' ∧ generation n' = generation n ∧ deadline n' = deadline n ∧ payload n' = payload n.
Proof.
  intros Hr Hn. pose proof (sr_data _ _ Hr i) as Hd. unfold data in Hd. rewrite Hn in Hd.
  destruct (nodes_ w' !! i) as [n' |]; [| done]. injection Hd as H1 H2 H3. by exists n'.
Qed.

(** A round that only moves a listed node. *)
Lemma move_round Q O A w g i h n :
  inv w g -> settled g -> spots g i = InList h -> nodes_ w !! i = Some n ->
  ∃ w2 n2 w3 g3, Unlink w i = Ret w2 ∧ same_rest w w2 ∧ nodes_ w2 !! i = Some n2 ∧ deadline n2 = deadline n ∧
    Place w2 i = Ret w3 ∧ cur_ w3 = cur_ w ∧ round Q O A w g w3 g3 [].
Proof.
  intros Hi Hst Hs Hn. destruct (Unlink_inv w g i h Hi Hs) as (w2' & Hu' & Hr2 & _).
  destruct (move_ok w g i h n Hi Hs Hn) as (w2 & w3 & g3 & Hu & Hp & Hr3 & Hi3 & Ho & [h3 Hat] & Htl).
  assert (w2' = w2) as -> by congruence. destruct (same_rest_node _ _ _ _ Hr2 Hn) as (n2 & Hn2 & _ & Hd2 & _).
  exists w2, n2, w3, g3. split_and!; try done; [apply (sr_cur _ _ Hr3) |].
  assert (ages w g w3 g3) as Ha.
  { apply ages_data; [apply (sr_data _ _ Hr3) |]. intros j Hj. rewrite Ho; [done |]. intros ->. congruence. }
  split; try done; try apply Hr3.
  - intros j. destruct (decide (j = i)) as [-> | Hj]; [by rewrite Hat | rewrite Ho by done; apply Hst].
  - rewrite app_nil_r. apply Hr3.
  - intros _ Ht. apply Htl.
    + apply (Ht h i n); [| done]. by apply (lk_spot _ _ (iv_links _ _ Hi)).
    + intros k j m Hj _ Hm. by eapply Ht.
  - intros _. apply once_ages; [done | apply Hr3].
  - intros _ k. by apply timer_rest.
  - intros _ x Hx. by apply elem_of_nil in Hx.
Qed.

(** ** Delivery *)

(** The node linked to itself while its callback runs. *)
Definition self_linked w i (n : Node P) : Wheel.t P :=
  with_nodes (<[i := set_prev i (set_next i n)]> (nodes_ w)) w.

Lemma self_links w g i n :
  inv w g -> spots g i = IsLoose -> nodes_ w !! i = Some n -> links (self_linked w i n) (set_spot i IsDeliv g).
Proof.
  intros Hi Hs Hn. pose proof (iv_links _ _ Hi) as Hk.
  assert (∀ j, nxt (self_linked w i n) j = if decide (j = i) then Some i else nxt w j) as Hx.
  { intros j. unfold nxt. simpl. rewrite (lookup_upd _ _ _ _ _ Hn). by case_decide. }
  assert (∀ j, prv (self_linked w i n) j = if decide (j = i) then Some i else prv w j) as Hp.
  { intros j. unfold prv. simpl. rewrite (lookup_upd _ _ _ _ _ Hn). by case_decide. }
  assert (home g i = None) as Hh by by eapply outside_home.
  split; simpl; try apply Hk.
  - intros h Hlt. apply (ring_frame w _ g h Hk Hlt). intros x Hxh. rewrite Hx, Hp.
    rewrite !decide_False; [done | congruence | congruence].
  - intros j h. rewrite (lk_spot _ _ Hk). at_point j i; [split; congruence | done].
  - intros j h. at_point j i; [done | apply (lk_head _ _ Hk)].
  - intros j. rewrite length_insert, <- (lk_timer _ _ Hk). at_point j i; [by rewrite Hs | done].
  - intros j. rewrite Hx, Hp. at_point j i; [done |]. apply (lk_deliv _ _ Hk).
  - eapply chain_frame; [| apply (lk_free _ _ Hk)]. intros x Hxf. rewrite Hx, decide_False; [done |].
    intros ->. apply (lk_free_spot _ _ Hk) in Hxf. congruence.
  - intros j. rewrite (lk_free_spot _ _ Hk). at_point j i; [split; congruence | done].
  - eapply words_same; [apply (lk_words _ _ Hk) | done..].
Qed.

Lemma self_inv w g i n :
  inv w g -> spots g i = IsLoose -> nodes_ w !! i = Some n -> inv (self_linked w i n) (set_spot i IsDeliv g).
Proof.
  intros Hi Hs Hn. pose proof (self_links _ _ _ _ Hi Hs Hn) as Hk.
  assert (∀ f, f (spots g i) = f IsDeliv -> ∀ j, f (<[i := IsDeliv]> (spots g) j) = f (spots g j) :> bool) as Hf
    by (intros f Hf j; at_point j i; congruence).
  split; simpl; try (by apply Hi); [done | split; apply (iv_clock _ _ Hi) | by rewrite length_insert; apply Hi | | |].
  - intros j m Hm Hj. rewrite (lookup_upd _ _ _ _ _ Hn) in Hm. case_decide as Hji.
    + subst j. injection Hm as <-. rewrite fn_lookup_insert. simpl.
      destruct (iv_generation _ _ Hi i n Hn Hj) as (H1 & H2 & _). rewrite Hs in H2. done.
    + rewrite fn_lookup_insert_ne by done. by apply (iv_generation _ _ Hi).
  - rewrite (iv_size _ _ Hi). by rewrite (count_ext armed (spots g) (<[i := IsDeliv]> (spots g))) by (apply Hf; by rewrite Hs).
  - rewrite (iv_quarantined _ _ Hi).
    by rewrite (count_ext retired (spots g) (<[i := IsDeliv]> (spots g))) by (apply Hf; by rewrite Hs).
Qed.

(** A history variable: nothing depends on it. *)
Lemma inv_trace w g x : inv w g -> inv (with_trace x w) g.
Proof.
  intros Hi. split; simpl; try (by apply Hi); [| split; apply (iv_clock _ _ Hi)].
  apply (links_data w); try done. apply Hi.
Qed.

(** The state in which the callback of [i] runs. *)
Lemma start_delivery w g i h n :
  inv w g -> settled g -> spots g i = InList h -> nodes_ w !! i = Some n ->
  ∃ w2 n2 w3 g3, Unlink w i = Ret w2 ∧ same_rest w w2 ∧ nodes_ w2 !! i = Some n2 ∧
    generation n2 = generation n ∧ deadline n2 = deadline n ∧ payload n2 = payload n ∧
    w3 = self_linked w2 i n2 ∧ inv w3 g3 ∧ frame w w3 ∧ no_loose g3 ∧ ages w g w3 g3 ∧ spots g3 i = IsDeliv ∧
    (∀ j, spots g3 j = IsDeliv -> j = i) ∧ (∃ n3, nodes_ w3 !! i = Some n3 ∧ generation n3 = generation n) ∧
    (timely w g -> timely w3 g3).
Proof.
  intros Hi Hst Hs Hn. destruct (Unlink_inv w g i h Hi Hs) as (w2 & Hu & Hr2 & Hi2).
  destruct (same_rest_node _ _ _ _ Hr2 Hn) as (n2 & Hn2 & Hg2 & Hd2 & Hp2).
  assert (spots (drop h i g) i = IsLoose) as Hl by apply fn_lookup_insert.
  pose proof (self_inv w2 _ i n2 Hi2 Hl Hn2) as Hi3. pose proof (lookup_lt_Some _ _ _ Hn2) as Hlt.
  exists w2, n2. eexists _, _. split_and!; try done.
  - eapply frame_trans; [by apply frame_rest | by split].
  - intros j. simpl. at_point j i; [done |]. apply Hst.
  - apply ages_data; simpl.
    + intros j. rewrite (data_set w2 _ i (set_prev i (set_next i n2))) by done. case_decide; [subst j; simpl |].
      * unfold data. rewrite Hn. simpl. by rewrite Hg2, Hd2, Hp2.
      * apply (sr_data _ _ Hr2).
    + intros j. at_point j i; [congruence | done].
  - simpl. apply fn_lookup_insert.
  - intros j. simpl. at_point j i; [done |]. intros Hj. destruct (Hst j) as [_ Hj']. done.
  - eexists. split; [by apply list_lookup_insert_eq |]. simpl. congruence.
  - intros Ht. eapply (timely_unlisted w2); [by split | done | done | | by eapply timely_drop].
    apply (unlisted_lists w2 _ i Hi2). by rewrite Hl.
Qed.

(** How a delivery ends: [i] leaves [IsDeliv], the rest as it was. *)
Record ends (Q : Prop) w g w' g' i : Prop := {
  en_inv : inv w' g';
  en_frame : frame w w';
  en_ages : ages w g w' g';
  en_other j : j <> i -> spots g' j = spots g j;
  en_self : spots g' i <> IsDeliv ∧ spots g' i <> IsLoose;
  en_timely : Q -> timely w g -> timely w' g'
}.

Lemma end_again w g i n d :
  inv w g -> spots g i = IsDeliv -> nodes_ w !! i = Some n ->
  ∃ w1 w' g', upd w i (set_deadline d) = Ret w1 ∧ Place w1 i = Ret w' ∧ ends (near w d) w g w' g' i.
Proof.
  intros Hi Hs Hn. set (n1 := set_deadline d n). pose proof (inv_set w g i n n1 Hi Hn eq_refl eq_refl eq_refl) as Hi1.
  set (w1 := with_nodes (<[i := n1]> (nodes_ w)) w) in *. pose proof (lookup_lt_Some _ _ _ Hn) as Hlt.
  assert (nodes_ w1 !! i = Some n1) as Hn1 by by apply list_lookup_insert_eq.
  destruct (Place_inv w1 g i n1 Hi1) as (w' & Hp & Hr & Hi'); [by right | done |].
  exists w1, w'. eexists. split; [by apply upd_ok |]. split; [done |]. split; simpl.
  - done.
  - eapply frame_trans; [| by apply frame_rest]. by split.
  - eapply (ages_one _ _ _ _ i n n1); simpl; try done; [| | by rewrite Hs | right; lia].
    + intros j. rewrite (sr_data _ _ Hr). by apply (data_set w w1 i n1).
    + intros j Hj. by apply fn_lookup_insert_ne.
  - intros j Hj. by apply fn_lookup_insert_ne.
  - simpl. by rewrite fn_lookup_insert.
  - intros Hnr Ht. eapply (timely_push w1); [apply (iv_clock _ _ Hi1) | | apply Hnr | done..].
    eapply (timely_unlisted w); [by split | done | done | | done]. apply (unlisted_lists w g i Hi). by rewrite Hs.
Qed.

Lemma end_free w g i n :
  inv w g -> spots g i = IsDeliv -> nodes_ w !! i = Some n ->
  ∃ w' g', Free w i = Ret w' ∧ ends True w g w' g' i ∧ spent w' g' (mk_handle i (generation n)) ∧
    ∀ h', timer w' h' = if decide (h' = mk_handle i (generation n)) then None else timer w h'.
Proof.
  intros Hi Hs Hn. assert (unlisted (spots g i)) as Hu by by right. exists (freed w i n), (free_spot i n g).
  destruct (freed_nodes w i n) as [Hnd Hf]. pose proof (lookup_lt_Some _ _ _ Hn) as Hlt.
  destruct (unlisted_armed _ _ _ _ Hi Hu Hn) as (_ & Hw & _). pose proof (freed_gen w n Hw) as Hg.
  pose proof (free_spot_self i n g) as Hself. destruct (spot_ge w g i (iv_links _ _ Hi)) as [Hge _]; [by rewrite Hs |].
  assert (spots (free_spot i n g) i = IsQuar ∨ generation n < generation (freed_node w n)) as Hor.
  { rewrite Hself. case_decide; [by left |]. right. by destruct Hg. }
  split; [by eapply Free_freed |]. split.
  - split; [by apply Free_inv | done | | intros; by apply free_spot_other | rewrite Hself; by case_decide |].
    + eapply (ages_one _ _ _ _ i n (freed_node w n)); try done; [by apply data_set | intros; by apply free_spot_other
        | by rewrite Hs |]. destruct Hor; [by left | right; lia].
    + intros _ Ht. eapply (timely_unlisted w); [done.. | apply free_spot_lists | | done].
      apply (unlisted_lists w g i Hi). by rewrite Hs.
  - split; [| by eapply free_timers]. split; [done |]. exists (freed_node w n). split; [| done]. simpl. rewrite Hnd.
    by apply list_lookup_insert_eq.
Qed.

(** The end of [Deliver], after the callback's answer. *)
Definition after_callback w i (gen : Z) (again : option Z) : run (Wheel.t P) :=
  n ← node w i;
  if bool_decide (generation n = gen)
  then match again with Some d => w ← upd w i (set_deadline d); Place w i | None => Free w i end
  else mret w.

Lemma Deliver_after w i fn r :
  Deliver w i fn r =
    (w ← Unlink w i; n ← node w i;
     if bool_decide (0 < Diff (EndOf w (deadline n)) (cur_ w)) then w ← Place w i; mret (add_moved r, w)
     else
       w' ← upd w i (fun n => set_prev i (set_next i n));
       '(again, w) ← run_prog (with_trace (mk_delivery (mk_handle i (generation n)) (deadline n) (cur_ w')) w') (fn (payload n));
       w ← after_callback w i (generation n) again; mret (add_fired r, w)).
Proof.
  unfold Deliver. destruct (Unlink w i) as [w1 | |]; [| done..]. cbn [mbind run_bind].
  destruct (node w1 i) as [n | |]; [| done..]. cbn [mbind run_bind]. case_bool_decide; [done |].
  destruct (upd w1 i _) as [w2 | |]; [| done..]. cbn [mbind run_bind].
  destruct (run_prog _ _) as [[again w3] | |]; [| done..]. cbn [mbind run_bind]. unfold after_callback.
  destruct (node w3 i) as [n3 | |]; [| done..]. cbn [mbind run_bind]. case_bool_decide; [| done].
  destruct again as [d |]; [| by destruct (Free w3 i)].
  destruct (upd w3 i _) as [w4 | |]; [| done..]. cbn [mbind run_bind]. by destruct (Place w4 i).
Qed.

(** A timer alive is not spent. *)
Lemma alive_not_spent w g i n :
  inv w g -> armed (spots g i) = true -> nodes_ w !! i = Some n -> ¬ spent w g (mk_handle i (generation n)).
Proof.
  intros Hi Ha Hn (_ & m & Hm & [Hq | Hlt]); simpl in *; [by rewrite Hq in Ha |].
  assert (m = n) as -> by congruence. lia.
Qed.

Lemma after_ok w g i n gen again :
  inv w g -> no_loose g -> nodes_ w !! i = Some n ->
  (spots g i = IsDeliv ∧ generation n = gen) ∨ (spent w g (mk_handle i gen) ∧ spots g i <> IsDeliv) ->
  Z.odd gen = true ->
  ∃ w' g', after_callback w i gen again = Ret w' ∧ ends (∀ d, again = Some d -> near w d) w g w' g' i ∧
    (again = None -> spent w' g' (mk_handle i gen)) ∧
    (again = None -> spots g i = IsDeliv -> ∀ h', timer w' h' = if decide (h' = mk_handle i gen) then None else timer w h').
Proof.
  intros Hi Hnl Hn Hor Hodd. unfold after_callback, node. rewrite (at_lookup _ _ _ Hn). simpl.
  destruct Hor as [[Hs <-] | [Hsp Hnd]].
  - rewrite bool_decide_eq_true_2 by done. destruct again as [d |].
    + destruct (end_again w g i n d Hi Hs Hn) as (w1 & w' & g' & -> & Hp & [E1 E2 E3 E4 E5 E6]). simpl.
      exists w', g'. split; [done |]. split; [| done]. split; try done. intros Hq. apply E6. by apply Hq.
    + destruct (end_free w g i n Hi Hs Hn) as (w' & g' & -> & [E1 E2 E3 E4 E5 E6] & Hsp & Htm).
      exists w', g'. split; [done |]. split; [| done]. split; try done. intros _. by apply E6.
  - rewrite bool_decide_eq_false_2.
    + exists w, g. split; [done |]. split; [| done]. split; try done. apply ages_refl.
    + intros <-. destruct Hsp as (Hge & m & Hm & Hd). simpl in *. assert (m = n) as -> by congruence.
      destruct Hd as [Hq | Hlt]; [| lia]. destruct (iv_generation _ _ Hi _ _ Hn Hge) as (_ & _ & H0).
      rewrite (H0 Hq) in Hodd. done.
Qed.

(** One more arming delivered. *)
Lemma once_more w g w' g' x :
  once w g -> ages w g w' g' -> trace_ w' = trace_ w ++ [x] -> ¬ spent w g (d_handle x) -> spent w' g' (d_handle x) ->
  once w' g'.
Proof.
  intros [Hnd Hsp] Ha Ht Hn Hs. split; rewrite Ht.
  - rewrite fmap_app. apply NoDup_app. split_and!; [done | | apply NoDup_singleton]. intros h Hh Hx.
    apply list_elem_of_singleton in Hx as ->. apply list_elem_of_fmap in Hh as (y & Hy & Hin). rewrite Hy in Hn.
    by apply Hn, Hsp.
  - intros y Hy. apply elem_of_app in Hy as [Hy | ->%list_elem_of_singleton]; [| done]. by eapply spent_ages, Hsp.
Qed.

(** The callback of [i] and what follows it. *)
Lemma callback_ok w g i n x c :
  inv w g -> no_loose g -> spots g i = IsDeliv -> (∀ j, spots g j = IsDeliv -> j = i) -> nodes_ w !! i = Some n ->
  ∃ again w1 w' g', run_prog (with_trace x w) c = Ret (again, w1) ∧
    after_callback w1 i (generation n) again = Ret w' ∧ inv w' g' ∧ settled g' ∧ frame (with_trace x w) w' ∧
    ages w g w' g' ∧ (prog_all (near w) c -> timely w g -> timely w' g') ∧
    (spends c -> spent w' g' (mk_handle i (generation n))) ∧
    (c = PDone None -> ∀ h', timer w' h' = if decide (h' = mk_handle i (generation n)) then None else timer w h').
Proof.
  intros Hi Hnl Hs Hsole Hn. destruct (run_prog_ok (with_trace x w) g c (inv_trace _ _ x Hi) Hnl)
    as (again & w1 & g1 & Hr & [I1 F1 A1 D1 V1 L1 T1] & Ha & Hsp).
  destruct (spot_ge w g i (iv_links _ _ Hi)) as [Hge _]; [by rewrite Hs |].
  destruct (iv_generation _ _ Hi i n Hn Hge) as (_ & Hodd & _). rewrite Hs in Hodd.
  destruct (A1 i n Hn Hge) as (_ & n1 & Hn1 & _).
  destruct (after_ok w1 g1 i n1 (generation n) again I1 (L1 Hnl) Hn1) as (w' & g' & Hc & [E1 E2 E3 E4 E5 E6] & Hend & Htm).
  { destruct (D1 i n Hs Hn) as [(Hs1 & m & Hm & Hg) | Hd]; [left | by right]. split; [done |]. congruence. }
  { done. }
  exists again, w1, w', g'. split_and!; [done.. | | by eapply frame_trans | by eapply ages_trans | | |].
  - intros j. destruct (decide (j = i)) as [-> | Hj]; [tauto |]. rewrite E4 by done. split; [by apply L1 |].
    intros Hd. by apply Hj, Hsole, V1.
  - intros Hq Ht. apply E6; [| by apply T1]. intros d Hd. apply (frame_near (with_trace x w) w1); [done |]. by apply Ha.
  - intros Hq. by apply Hend, Hsp.
  - intros ->. injection Hr as <- <-. apply Htm; [done |]. destruct (D1 i n Hs Hn) as [[? _] | [Hsp1 _]]; [done |].
    exfalso. destruct Hsp1 as (_ & m & Hm & [Hq | Hlt]); simpl in *; assert (m = n) as -> by congruence; [| lia].
    destruct (iv_generation _ _ I1 i n Hm Hge) as (_ & _ & H0). by rewrite (H0 Hq) in Hodd.
Qed.

Lemma Deliver_ok w g i fn r :
  inv w g -> settled g -> spots g i = InList kReady ->
  ∃ r' w' g' new, Deliver w i fn r = Ret (r', w') ∧ cur_ w' = cur_ w ∧
    round (∀ p, prog_all (near w) (fn p)) (∀ p, spends (fn p)) (∀ p, fn p = PDone None) w g w' g' new ∧
    Forall (fun x => d_at x = cur_ w) new ∧
    ((r' = add_moved r ∧ new = []) ∨ (r' = add_fired r ∧ length new = 1%nat)).
Proof.
  intros Hi Hst Hs. destruct (spot_ge w g i (iv_links _ _ Hi)) as [_ Hin]; [by rewrite Hs |].
  destruct (node_ok w i Hin) as (n & Hn & _). rewrite Deliver_after.
  destruct (start_delivery w g i kReady n Hi Hst Hs Hn) as
    (w2 & n2 & w3 & g3 & Hu & Hr2 & Hn2 & Hg2 & Hd2 & Hp2 & Hw3 & Hi3 & Hf3 & Hnl3 & Ha3 & Hs3 & Hsole & (n3 & Hn3 & Hg3) & Ht3).
  rewrite Hu. cbn [mbind run_bind]. unfold node at 1. rewrite (at_lookup _ _ _ Hn2). cbn [mbind run_bind].
  rewrite Hd2, (frame_EndOf w w2), (sr_cur _ _ Hr2) by apply (sr_shift _ _ Hr2). case_bool_decide as Hdue.
  { destruct (move_round (∀ p, prog_all (near w) (fn p)) (∀ p, spends (fn p)) (∀ p, fn p = PDone None) w g i kReady n Hi Hst Hs Hn)
      as (w2' & n2' & w4 & g4 & Hu' & _ & _ & _ & Hp & Hc & Hrd).
    assert (w2' = w2) as -> by congruence. rewrite Hp. exists (add_moved r), w4, g4, []. split_and!; [done.. | by left]. }
  rewrite (upd_ok w2 i _ n2) by done. cbn [mbind run_bind].
  change (with_nodes (<[i := set_prev i (set_next i n2)]> (nodes_ w2)) w2) with (self_linked w2 i n2). rewrite <- Hw3.
  set (x := mk_delivery _ _ _).
  destruct (callback_ok w3 g3 i n3 x (fn (payload n2)) Hi3 Hnl3 Hs3 Hsole Hn3)
    as (again & w4 & w' & g' & Hrun & Haft & Hi' & Hst' & Hf' & Ha' & Ht' & Hsp' & Htm').
  rewrite Hrun. cbn [mbind run_bind]. rewrite Hg2, <- Hg3, Haft. cbn [mbind run_bind].
  pose proof (ages_trans _ _ _ _ _ _ Ha3 Ha') as Ha.
  assert (trace_ w' = trace_ w ++ [x]) as Htr by (rewrite (fr_trace _ _ Hf'); simpl; by rewrite (fr_trace _ _ Hf3)).
  exists (add_fired r), w', g', [x]. split; [done |].
  split; [by rewrite (fr_cur _ _ Hf'), <- (fr_cur _ _ Hf3) |].
  split; [| split; [apply Forall_singleton, (fr_cur _ _ Hf3) | by right]].
  assert (d_handle x = mk_handle i (generation n)) as Hx by (unfold x; simpl; by rewrite Hg2).
  split; try done.
  - by rewrite (fr_capacity _ _ Hf'), <- (fr_capacity _ _ Hf3).
  - by rewrite (fr_shift _ _ Hf'), <- (fr_shift _ _ Hf3).
  - by rewrite (fr_polling _ _ Hf'), <- (fr_polling _ _ Hf3).
  - apply Forall_singleton. unfold due. simpl. rewrite (fr_cur _ _ Hf3). lia.
  - intros Hq Ht. apply Ht'; [| by apply Ht3]. eapply prog_all_impl; [| apply Hq]. intros d. by apply (frame_near w w3).
  - intros Ho Honce. eapply once_more; [done.. | |]; rewrite Hx.
    + apply alive_not_spent; [done | by rewrite Hs | done].
    + rewrite <- Hg3. by apply Hsp'.
  - intros Hpas h. rewrite (Htm' (Hpas _)), Hg3. change (d_handle <$> [x]) with [d_handle x]. rewrite Hx.
    assert (timer w3 h = timer w h) as ->.
    { rewrite Hw3. rewrite <- (timer_rest w w2 h Hr2). apply timer_data. intros j.
      rewrite (data_set w2 _ i (set_prev i (set_next i n2))) by (done || by eapply lookup_lt_Some).
      case_decide; [subst j; simpl; unfold data; by rewrite Hn2 | done]. }
    apply decide_ext. by rewrite list_elem_of_singleton.
  - intros _ y Hy. apply list_elem_of_singleton in Hy as ->. rewrite Hx. exists (payload n).
    destruct (spot_ge w g i (iv_links _ _ Hi)) as [Hge _]; [by rewrite Hs |].
    unfold timer. simpl. rewrite decide_True, Hn by done. simpl. unfold node_timer. rewrite bool_decide_eq_true_2 by done.
    destruct (iv_generation _ _ Hi i n Hn Hge) as (_ & -> & _). by rewrite Hs.
Qed.

(** ** Arriving at a boundary *)

(** The slots of [B] emptied into the lists of work. *)
Definition poured (B : nat -> Prop) g g' : Prop :=
  (∀ j, spots g' j = spots g j ∨
    ∃ h, B h ∧ spots g j = InList h ∧ (spots g' j = InList kMoving ∨ spots g' j = InList kReady)) ∧
  (∀ h, B h -> lists g' h = []).

Lemma poured_trans (B1 B2 B : nat -> Prop) w w1 w2 g g1 g2 :
  inv w g -> inv w1 g1 -> inv w2 g2 ->
  (∀ h, B2 h -> (h < kWheelNodes)%nat) -> (∀ h, B1 h -> (h < kWheelNodes)%nat) -> (∀ h, B h <-> B1 h ∨ B2 h) ->
  poured B1 g g1 -> poured B2 g1 g2 -> poured B g g2.
Proof.
  intros Hi Hi1 Hi2 Hw2 Hw1 HB [Hm1 He1] [Hm2 He2]. split.
  - intros j. destruct (Hm2 j) as [Hj2 | (h2 & HB2 & Hs2 & Ht2)], (Hm1 j) as [Hj1 | (h1 & HB1 & Hs1 & Ht1)].
    + left. congruence.
    + right. exists h1. rewrite HB, Hj2. auto.
    + right. exists h2. rewrite HB, <- Hj1. auto.
    + exfalso. specialize (Hw2 h2 HB2). rewrite Hs2 in Ht1. unfold kMoving, kReady in *.
      destruct Ht1 as [[= ->] | [= ->]]; lia.
  - intros h [H1 | H2]%HB; [| by apply He2]. destruct (lists g2 h) as [| j l] eqn:Hl; [done | exfalso].
    assert (spots g2 j = InList h) as Hj by (apply (lk_spot _ _ (iv_links _ _ Hi2)); rewrite Hl; by left).
    specialize (Hw1 h H1). destruct (Hm2 j) as [Hj2 | (h2 & _ & _ & Ht2)].
    + rewrite Hj in Hj2. symmetry in Hj2. apply (lk_spot _ _ (iv_links _ _ Hi1)) in Hj2. rewrite (He1 h H1) in Hj2.
      by apply elem_of_nil in Hj2.
    + rewrite Hj in Ht2. unfold kMoving, kReady in Ht2. destruct Ht2 as [[= ->] | [= ->]]; lia.
Qed.

Lemma poured_none g : poured (fun _ => False) g g.
Proof. split; [by left | done]. Qed.

Lemma Splice_inv w g from to :
  inv w g -> (from < kWheelNodes)%nat -> to = kMoving ∨ to = kReady ->
  ∃ w' g', Splice w from to = Ret w' ∧ same_rest w w' ∧ inv w' g' ∧ poured (eq from) g g'.
Proof.
  intros Hi Hf Hto. destruct (Splice_links w g from to (iv_links _ _ Hi) Hf) as (w' & Hs & Hr & Hk).
  { unfold kMoving, kReady, kFirst in *. lia. }
  assert (from <> to) as Hne by (unfold kMoving, kReady in *; lia).
  exists w', (pour from to g). split_and!; [done.. | |].
  - eapply inv_links; [done.. | |]; intros j; simpl; case_decide as Hd; by rewrite ?Hd.
  - split; simpl.
    + intros j. case_decide; [| by left]. right. exists from. split_and!; [done.. |]. destruct Hto as [-> | ->]; auto.
    + intros h <-. by rewrite fn_lookup_insert_ne, fn_lookup_insert by done.
Qed.

(** The slot of [level] that begins at [now]. *)
Definition begins w (now : Z) (level s : nat) : Prop :=
  now mod 2 ^ sh w level = 0 ∧ s = Z.to_nat ((now / 2 ^ sh w level) mod 2 ^ Z.of_nat LevelBits).

Definition begun w (now : Z) (lo hi h : nat) : Prop :=
  ∃ level s, (lo <= level <= hi)%nat ∧ begins w now level s ∧ h = (level * kSlots + s)%nat.

Lemma begins_slot w now level s : begins w now level s -> (s < kSlots)%nat.
Proof. intros [_ ->]. pose proof (slot_range (now / 2 ^ sh w level)). lia. Qed.

Lemma begun_lt w now lo hi h : (hi < Levels)%nat -> begun w now lo hi h -> (h < kWheelNodes)%nat.
Proof.
  intros Hh (level & s & Hl & Hb & ->). apply slot_in_wheel; [lia |]. by eapply begins_slot.
Qed.

Lemma begins_rest w w' now level s : shift_ w' = shift_ w -> begins w' now level s <-> begins w now level s.
Proof. intros Hs. unfold begins, sh. by rewrite Hs. Qed.

Lemma arrive_levels_ok w g now level :
  inv w g -> (level < Levels)%nat ->
  ∃ w' g', arrive_levels w now level = Ret w' ∧ same_rest w w' ∧ inv w' g' ∧ poured (begun w now 1 level) g g'.
Proof.
  revert w g. induction level as [| below IH]; intros w g Hi Hl.
  { exists w, g. split_and!; [done | apply same_rest_refl | done |]. split; [by left |].
    intros h (lv & s & Hlv & _). lia. }
  cbn [arrive_levels]. fold (sh w (S below)). pose proof (sh_bounds w (S below) (iv_clock _ _ Hi) Hl) as [Hsh _].
  rewrite Z.shiftl_1_l, land_mask, slot_of, Z.shiftr_div_pow2 by lia.
  set (s0 := Z.to_nat ((now / 2 ^ sh w (S below)) mod 2 ^ Z.of_nat LevelBits)).
  assert (s0 < kSlots)%nat as Hs0 by (pose proof (slot_range (now / 2 ^ sh w (S below))); unfold s0; lia).
  assert (∃ w1 g1, (if bool_decide (now mod 2 ^ sh w (S below) = 0) then Splice w (S below * kSlots + s0) kMoving else mret w) = Ret w1 ∧
    same_rest w w1 ∧ inv w1 g1 ∧ poured (begun w now (S below) (S below)) g g1) as (w1 & g1 & -> & Hr1 & Hi1 & Hp1).
  { case_bool_decide as Hz.
    - destruct (Splice_inv w g (S below * kSlots + s0) kMoving Hi) as (w1 & g1 & Hs & Hr & Hi1 & [Hm He]);
        [by apply slot_in_wheel | by left |].
      assert (∀ h, begun w now (S below) (S below) h <-> (S below * kSlots + s0)%nat = h) as HB.
      { intros h. split.
        - intros (lv & s & Hlv & [_ Hb] & ->). assert (lv = S below) as -> by lia. by rewrite Hb.
        - intros <-. exists (S below), s0. split; [lia |]. done. }
      exists w1, g1. split_and!; [done.. |]. split.
      + intros j. destruct (Hm j) as [Hj | (h & <- & Hj)]; [by left | right]. eexists. split; [by apply HB | done].
      + intros h Hh. apply He. by apply HB.
    - exists w, g. split_and!; [done | apply same_rest_refl | done |]. split; [by left |].
      intros h (lv & s & Hlv & [Hb _] & _). assert (lv = S below) as -> by lia. done. }
  cbn [mbind run_bind]. destruct (IH w1 g1 Hi1 ltac:(lia)) as (w' & g' & Hrun & Hr & Hi' & Hp).
  exists w', g'. split_and!; [done | by eapply same_rest_trans | done |].
  eapply (poured_trans (begun w now (S below) (S below)) (begun w1 now 1 below)); [apply Hi | apply Hi1 | apply Hi' | | | | done..].
  - intros h. apply begun_lt. lia.
  - intros h. by apply begun_lt.
  - intros h. split.
    + intros (lv & s & Hlv & Hb & ->). destruct (decide (lv = S below)) as [-> | Hne].
      * left. exists (S below), s. split; [lia |]. done.
      * right. exists lv, s. split; [lia |]. split; [| done]. apply (begins_rest w w1); [apply Hr1 | done].
    + intros [(lv & s & Hlv & Hb & ->) | (lv & s & Hlv & Hb & ->)]; exists lv, s; (split; [lia |]); (split; [| done]); [done |].
      by apply (begins_rest w w1) in Hb; [| apply Hr1].
Qed.

(** Time passing brings a later time nearer. *)
Lemma Diff_moved e c x : 0 <= x <= Diff e c -> Diff e (wrap digits (c + x)) = Diff e c - x.
Proof.
  intros Hx. pose proof (Diff_range e c). pose proof digits_big. apply Diff_unique; [lia |].
  unfold wrap. rewrite Zminus_mod_idemp_r, <- Zminus_mod_idemp_l, Diff_mod, Zminus_mod_idemp_l. f_equal. lia.
Qed.

Lemma inv_cur w g x :
  inv w g -> x mod 2 ^ shift_ w = 0 -> inv (with_cur (wrap digits (cur_ w + x)) w) g.
Proof.
  intros Hi Hx. split; simpl; try (by apply Hi).
  - apply (links_data w); try done. apply Hi.
  - by apply (clock_moved w _ x (iv_clock _ _ Hi)).
Qed.

(** The time of every listed timer, after time [x] has passed, when no slot
    began in between. *)
Lemma placed_moved w w' x h h' d :
  clock_ok w -> shift_ w' = shift_ w -> cur_ w' = wrap digits (cur_ w + x) -> placed w h d -> (h < kWheelNodes)%nat ->
  (∀ level s, (level < Levels)%nat -> (s < kSlots)%nat -> h = (level * kSlots + s)%nat ->
     0 <= x <= dist w level s ∧ (h' = h -> x < dist w level s)) ->
  h' = h ∨ (kWheelNodes <= h')%nat -> placed w' h' d.
Proof.
  intros Hc Hs Hcur [Hup Hlow] Hh Hx Hor. pose proof (level_of h Hh) as Hl.
  pose proof kSlots_pos. pose proof (Nat.mod_upper_bound h kSlots ltac:(lia)) as Hm.
  assert (h = (h / kSlots * kSlots + h mod kSlots)%nat) as He by (rewrite (Nat.div_mod_eq h kSlots) at 1; lia).
  destruct (Hx _ _ Hl Hm He) as [Hx1 Hx2]. pose proof (Hlow _ _ Hl Hm He) as Hd.
  assert (Diff (EndOf w' d) (cur_ w') = Diff (EndOf w d) (cur_ w) - x) as HD.
  { rewrite Hcur, (frame_EndOf w w') by done. apply Diff_moved. lia. }
  split; rewrite HD; rewrite ?Hs; [lia |]. intros level s Hlv Hsl Hh'.
  destruct Hor as [-> | Hge]; [| pose proof (slot_in_wheel level s Hlv Hsl); lia].
  destruct (Hx level s Hlv Hsl Hh') as [_ Hlt]. specialize (Hlt eq_refl).
  rewrite (dist_moved w w' x) by (done || lia). pose proof (Hlow level s Hlv Hsl Hh'). lia.
Qed.

Lemma Arrive_poured w g now :
  inv (with_cur now w) g ->
  ∃ w' g', Arrive w now = Ret w' ∧ same_rest (with_cur now w) w' ∧ inv w' g' ∧ poured (begun w now 0 (Levels - 1)) g g'.
Proof.
  intros Hi. pose proof levels_ok as HL. unfold Arrive.
  destruct (arrive_levels_ok (with_cur now w) g now (Levels - 1) Hi ltac:(lia)) as (w1 & g1 & -> & Hr1 & Hi1 & Hp1).
  cbn [mbind run_bind]. pose proof (ck_shift _ (iv_clock _ _ Hi)) as Hsh. pose proof (ck_unit _ (iv_clock _ _ Hi)) as Hu.
  simpl in Hsh, Hu. rewrite slot_of, (sr_shift _ _ Hr1). simpl. rewrite Z.shiftr_div_pow2 by lia.
  set (s0 := Z.to_nat ((now / 2 ^ shift_ w) mod 2 ^ Z.of_nat LevelBits)).
  assert (s0 < kSlots)%nat as Hs0 by (pose proof (slot_range (now / 2 ^ shift_ w)); unfold s0; lia).
  assert (s0 < kWheelNodes)%nat as Hw0 by (apply (slot_in_wheel 0 s0); lia).
  destruct (Splice_inv w1 g1 s0 kReady Hi1 Hw0) as (w' & g' & Hs & Hr & Hi' & Hp); [by right |].
  exists w', g'. split_and!; [done | by eapply same_rest_trans | done |].
  assert (sh w 0 = shift_ w) as H0 by (unfold sh; lia).
  eapply (poured_trans (begun w now 1 (Levels - 1)) (eq s0)); [apply Hi | apply Hi1 | apply Hi' | | | | done..].
  - by intros h <-.
  - intros h. apply begun_lt. lia.
  - intros h. split.
    + intros (lv & s & Hlv & [Hb1 Hb2] & ->). destruct (decide (lv = 0)%nat) as [-> | Hne].
      * right. rewrite H0 in Hb2. lia.
      * left. exists lv, s. split; [lia | done].
    + intros [(lv & s & Hlv & Hb & ->) | <-].
      * exists lv, s. split; [lia | done].
      * exists 0%nat, s0. split; [lia |]. unfold begins. rewrite H0. done.
Qed.

(** The placement after an arrival: slots that did not begin are nearer, those
    that began are in the lists of work. *)
Lemma arrive_timely w g w' g' x (B : nat -> Prop) :
  inv w g -> inv w' g' -> lists g kReady = [] -> lists g kMoving = [] ->
  same_rest (with_cur (wrap digits (cur_ w + x)) w) w' -> 0 <= x -> poured B g g' ->
  (∀ level s, (level < Levels)%nat -> (s < kSlots)%nat -> lists g (level * kSlots + s)%nat <> [] -> x <= dist w level s) ->
  (∀ level s, (level < Levels)%nat -> (s < kSlots)%nat -> lists g (level * kSlots + s)%nat <> [] ->
     B (level * kSlots + s)%nat <-> dist w level s = x) ->
  timely w g -> timely w' g'.
Proof.
  intros Hi Hi' Hre Hme Hr Hx [Hmv Hem] Hmin Hbeg Ht h' i n' Hin Hn'.
  destruct (data_node _ _ _ _ (sr_data _ _ Hr i) Hn') as (n & Hn & _ & -> & _). simpl in Hn.
  pose proof (proj1 (lk_spot _ _ (iv_links _ _ Hi') i h') Hin) as Hs'.
  assert (∃ h, spots g i = InList h ∧ (h < kWheelNodes)%nat ∧ (h' = h ∨ (kWheelNodes <= h')%nat)) as (h & Hs & Hh & Hor).
  { destruct (Hmv i) as [Hsame | (h & HB & Hs & Ht')].
    - exists h'. rewrite Hsame in Hs'. split; [done |]. split; [| by left].
      apply (lk_spot _ _ (iv_links _ _ Hi)) in Hs' as Hl. pose proof (lk_head _ _ (iv_links _ _ Hi) _ _ Hs').
      destruct (decide (h' = kReady)) as [-> | ?]; [rewrite Hre in Hl; by apply elem_of_nil in Hl |].
      destruct (decide (h' = kMoving)) as [-> | ?]; [rewrite Hme in Hl; by apply elem_of_nil in Hl |].
      unfold kFirst, kReady, kMoving in *. lia.
    - exists h. split; [done |]. rewrite Hs' in Ht'.
      assert (kWheelNodes <= h')%nat as Hge by (unfold kMoving, kReady in Ht'; destruct Ht' as [[= ->] | [= ->]]; lia).
      split; [| by right]. apply (lk_spot _ _ (iv_links _ _ Hi)) in Hs as Hl. pose proof (lk_head _ _ (iv_links _ _ Hi) _ _ Hs).
      destruct (decide (h = kReady)) as [-> | ?]; [rewrite Hre in Hl; by apply elem_of_nil in Hl |].
      destruct (decide (h = kMoving)) as [-> | ?]; [rewrite Hme in Hl; by apply elem_of_nil in Hl |].
      unfold kFirst, kReady, kMoving in *. lia. }
  apply (lk_spot _ _ (iv_links _ _ Hi)) in Hs as Hl.
  eapply (placed_moved w w' x h h'); [apply Hi | apply (sr_shift _ _ Hr) | apply (sr_cur _ _ Hr) | by eapply Ht | done | | done].
  intros level s Hlv Hsl He. assert (lists g (level * kSlots + s)%nat <> []) as Hne.
  { intros Hnil. rewrite He, Hnil in Hl. by apply elem_of_nil in Hl. }
  specialize (Hmin level s Hlv Hsl Hne). specialize (Hbeg level s Hlv Hsl Hne). split; [lia |]. intros ->.
  destruct (decide (dist w level s = x)) as [Hd | ?]; [| lia]. exfalso. apply Hbeg in Hd. rewrite <- He in Hd.
  rewrite (Hem h Hd) in Hin. by apply elem_of_nil in Hin.
Qed.

Lemma Arrive_ok Q O A w g x :
  inv w g -> settled g -> lists g kReady = [] -> lists g kMoving = [] -> NextEvent w = Some x ->
  ∃ w' g', Arrive w (wrap digits (cur_ w + x)) = Ret w' ∧ cur_ w' = wrap digits (cur_ w + x) ∧
    round Q O A w g w' g' [] ∧ (lists g' kReady <> [] ∨ lists g' kMoving <> []).
Proof.
  intros Hi Hst Hre Hme Hne. set (now := wrap digits (cur_ w + x)).
  pose proof (NextEvent_spec w (lists g) (iv_clock _ _ Hi) (lk_words _ _ (iv_links _ _ Hi))) as Hnear. rewrite Hne in Hnear.
  destruct Hnear as [(lv & sl & Hlv & Hsl & Hocc & Hx) Hmin].
  pose proof (dist_range w lv sl (iv_clock _ _ Hi) Hlv) as Hr. rewrite <- Hx in Hr.
  assert (x mod 2 ^ shift_ w = 0) as Hu by (rewrite Hx; apply dist_unit; [apply Hi | done]).
  pose proof (inv_cur w g x Hi Hu) as Hi0. fold now in Hi0. pose proof levels_ok as HL.
  destruct (Arrive_poured w g now Hi0) as (w' & g' & Hrun & Hr' & Hi' & [Hmv Hem]).
  assert (∀ level s, (level < Levels)%nat -> (s < kSlots)%nat -> lists g (level * kSlots + s)%nat <> [] ->
    begun w now 0 (Levels - 1) (level * kSlots + s)%nat <-> dist w level s = x) as Hbeg.
  { intros level s Hl Hs Hn. specialize (Hmin level s Hl Hs Hn).
    rewrite <- (slot_begins w x level s now (iv_clock _ _ Hi) Hl Hs eq_refl ltac:(lia)). split.
    - intros (l' & s' & Hl' & Hb & He). pose proof (begins_slot _ _ _ _ Hb) as Hs'.
      destruct (slot_level level s Hs) as [E1 E2]. destruct (slot_level l' s' Hs') as [E3 E4].
      rewrite He in E1, E2. assert (l' = level) as -> by congruence. by assert (s' = s) as -> by congruence.
    - intros Hb. exists level, s. split; [lia | done]. }
  exists w', g'. split; [done |]. split; [apply (sr_cur _ _ Hr') |].
  assert (ages w g w' g') as Ha.
  { apply ages_data; [apply (sr_data _ _ Hr') |]. intros j Hj. destruct (Hmv j) as [-> | (h & _ & Hs & _)]; congruence. }
  split.
  - split; try done; try apply Hr'.
    + intros j. destruct (Hmv j) as [-> | (h & _ & _ & [-> | ->])]; [apply Hst | done..].
    + rewrite app_nil_r. apply Hr'.
    + intros _ Ht. by apply (arrive_timely w g w' g' x (begun w now 0 (Levels - 1))); try lia.
    + intros _. apply once_ages; [done | apply Hr'].
    + intros _ h. rewrite (timer_rest _ _ _ Hr'). by apply timer_data.
    + intros _ y Hy. by apply elem_of_nil in Hy.
  - assert (∃ j, spots g j = InList (lv * kSlots + sl)%nat) as [j Hj].
    { destruct (lists g (lv * kSlots + sl)%nat) as [| j l] eqn:Hl; [done |]. exists j.
      apply (lk_spot _ _ (iv_links _ _ Hi)). rewrite Hl. by left. }
    pose proof (λ j h, lk_spot _ _ (iv_links _ _ Hi') j h) as Hsp.
    destruct (Hmv j) as [Hsame | (h & _ & _ & [Hs | Hs])].
    + exfalso. rewrite Hj in Hsame. apply Hsp in Hsame. rewrite Hem in Hsame; [by apply elem_of_nil in Hsame |].
      by apply Hbeg.
    + right. apply Hsp in Hs. intros Hn. rewrite Hn in Hs. by apply elem_of_nil in Hs.
    + left. apply Hsp in Hs. intros Hn. rewrite Hn in Hs. by apply elem_of_nil in Hs.
Qed.

(** ** The loop *)

(** The time left to the end of the poll. *)
Definition ahead w (target : Z) : Z := wrap digits (target - cur_ w).

(** Callbacks arm deadlines that are in range at every time of the poll. *)
Definition in_range w (target : Z) (fn : P -> prog P) : Prop :=
  ∀ p x, 0 <= x <= ahead w target -> prog_all (near (with_cur (wrap digits (target - x)) w)) (fn p).

Definition busy g : bool := negb (bool_decide (lists g kReady = []) && bool_decide (lists g kMoving = [])).

Lemma ahead_cur w target : clock_ok w -> 0 <= ahead w target ∧ wrap digits (cur_ w + ahead w target) = wrap digits target ∧
  wrap digits (target - ahead w target) = cur_ w.
Proof.
  intros Hc. pose proof digits_big. unfold ahead, wrap. split; [apply Z.mod_pos_bound, pow_pos; lia |]. split.
  - rewrite Zplus_mod_idemp_r. f_equal. lia.
  - rewrite Zminus_mod_idemp_r. replace (target - (target - cur_ w)) with (cur_ w) by lia.
    apply Z.mod_small, (ck_cur _ Hc).
Qed.

Lemma in_range_now w target fn : clock_ok w -> in_range w target fn -> ∀ p, prog_all (near w) (fn p).
Proof.
  intros Hc Hq p. destruct (ahead_cur w target Hc) as (H0 & _ & Hcur).
  eapply prog_all_impl; [| apply (Hq p (ahead w target)); lia]. intros d. rewrite Hcur. done.
Qed.

Lemma in_range_same w w' target fn :
  shift_ w' = shift_ w -> ahead w' target <= ahead w target -> in_range w target fn -> in_range w' target fn.
Proof.
  intros Hs Ha Hq p x Hx. eapply prog_all_impl; [| apply (Hq p x); lia]. intros d. unfold near. simpl.
  set (c := wrap digits (target - x)). rewrite (frame_EndOf (with_cur c w) (with_cur c w')) by done. by rewrite Hs.
Qed.

Lemma ahead_moved w w' target x :
  cur_ w' = wrap digits (cur_ w + x) -> 0 <= x <= ahead w target -> ahead w' target = ahead w target - x.
Proof.
  intros Hc Hx. unfold ahead in *. rewrite Hc. pose proof digits_big. unfold wrap in *.
  rewrite Zminus_mod_idemp_r. replace (target - (cur_ w + x)) with (target - cur_ w - x) by lia.
  rewrite <- Zminus_mod_idemp_l. apply Z.mod_small.
  pose proof (Z.mod_pos_bound (target - cur_ w) (2 ^ digits) ltac:(apply pow_pos; lia)). lia.
Qed.

Lemma head_next w g h :
  inv w g -> (h < kFirst)%nat -> ∃ n, node w h = Ret n ∧ next n = hd h (lists g h) ∧
    bool_decide (next n <> h) = negb (bool_decide (lists g h = [])).
Proof.
  intros Hi Hh. pose proof (iv_links _ _ Hi) as Hk. pose proof (path_first _ _ _ _ (lk_ring _ _ Hk h Hh)) as Hf.
  destruct (node_ok w h) as (n & Hn & Hnode); [by eapply nxt_in_array |]. exists n. split; [done |].
  unfold nxt in Hf. rewrite Hn in Hf. injection Hf as Hf. split; [done |]. rewrite Hf.
  destruct (lists g h) as [| y l] eqn:Hl; simpl; [by rewrite bool_decide_eq_false_2 by naive_solver |].
  apply bool_decide_eq_true_2. intros ->. assert (h ∈ lists g h) as Hin by (rewrite Hl; by left).
  apply (list_home _ _ _ _ Hk) in Hin. lia.
Qed.

(** The poll ends: the wheel's time is the target. *)
Lemma finish_ok Q O A w g target :
  inv w g -> settled g -> lists g kReady = [] -> lists g kMoving = [] ->
  0 <= target < 2 ^ digits -> target mod 2 ^ shift_ w = 0 ->
  (∀ level s, (level < Levels)%nat -> (s < kSlots)%nat -> lists g (level * kSlots + s)%nat <> [] ->
    ahead w target < dist w level s) ->
  round Q O A w g (with_cur target w) g [] ∧
  (timely w g -> ∀ h i n, i ∈ lists g h -> nodes_ w !! i = Some n -> 0 < Diff (EndOf w (deadline n)) target).
Proof.
  intros Hi Hst Hre Hme Ht Hu Hfar. destruct (ahead_cur w target (iv_clock _ _ Hi)) as (H0 & Hcur & _).
  rewrite (wrap_small digits target) in Hcur by done.
  assert (ahead w target mod 2 ^ shift_ w = 0) as Hau.
  { pose proof (sh_bounds w 0 (iv_clock _ _ Hi) levels_ok) as [Hsh Htop]. unfold sh, ahead, wrap in *.
    rewrite mod_mod_pow by lia. rewrite Zminus_mod, Hu, (ck_unit _ (iv_clock _ _ Hi)). done. }
  pose proof (inv_cur w g (ahead w target) Hi Hau) as Hi'. rewrite Hcur in Hi'.
  assert (timely w g -> ∀ h i n, i ∈ lists g h -> nodes_ w !! i = Some n ->
    placed (with_cur target w) h (deadline n) ∧ (h < kWheelNodes)%nat) as Hpl.
  { intros Htl h i n Hin Hn. pose proof (list_home _ _ _ _ (iv_links _ _ Hi) Hin) as (_ & _ & Hlt).
    assert (h < kWheelNodes)%nat as Hw.
    { destruct (decide (h = kReady)) as [-> | ?]; [rewrite Hre in Hin; by apply elem_of_nil in Hin |].
      destruct (decide (h = kMoving)) as [-> | ?]; [rewrite Hme in Hin; by apply elem_of_nil in Hin |].
      unfold kFirst, kReady, kMoving in *. lia. }
    split; [| done]. eapply (placed_moved w _ (ahead w target) h h); [apply Hi | done | done | by eapply Htl | done | | by left].
    intros level s Hlv Hsl ->. assert (lists g (level * kSlots + s)%nat <> []) as Hne.
    { intros Hnil. rewrite Hnil in Hin. by apply elem_of_nil in Hin. }
    specialize (Hfar level s Hlv Hsl Hne). lia. }
  split.
  - split; try done; [apply ages_data; done | by rewrite app_nil_r | |].
    + intros _ Htl h i n Hin Hn. by apply (Hpl Htl h i n).
    + intros _ y Hy. by apply elem_of_nil in Hy.
  - intros Htl h i n Hin Hn. destruct (Hpl Htl h i n Hin Hn) as [[_ Hlow] Hw].
    pose proof kSlots_pos. pose proof (Nat.mod_upper_bound h kSlots ltac:(lia)) as Hm.
    specialize (Hlow (h / kSlots)%nat (h mod kSlots)%nat (level_of h Hw) Hm).
    pose proof (dist_range (with_cur target w) (h / kSlots) (h mod kSlots) (iv_clock _ _ Hi') (level_of h Hw)) as Hd.
    change (EndOf (with_cur target w)) with (EndOf w) in Hlow. simpl in Hlow.
    assert (h = (h / kSlots * kSlots + h mod kSlots)%nat) as He by (rewrite (Nat.div_mod_eq h kSlots) at 1; lia).
    specialize (Hlow He). lia.
Qed.

(** What the loop leaves. *)
Record loop_ok w g (target budget : Z) (fn : P -> prog P) (r r' : PollResult) w' g' (new : list delivery) : Prop := {
  lo_round : round (in_range w target fn) (∀ p, spends (fn p)) (∀ p, fn p = PDone None) w g w' g' new;
  lo_at : Forall (fun x => wrap digits (target - d_at x) <= ahead w target) new;
  lo_work : work_of r' <= budget;
  lo_fired : fired r' = fired r + Z.of_nat (length new);
  lo_done :
    exhausted r' = false -> cur_ w' = target ∧
      (in_range w target fn -> timely w g ->
       ∀ h i n, i ∈ lists g' h -> nodes_ w' !! i = Some n -> 0 < Diff (EndOf w' (deadline n)) target);
  lo_exhausted : exhausted r' = true -> work_of r' = budget ∧ busy g' = true
}.

(** A round before the rest of the loop. *)
Lemma loop_step w g w1 g1 target budget fn r r1 r' w' g' l1 l2 :
  round (in_range w target fn) (∀ p, spends (fn p)) (∀ p, fn p = PDone None) w g w1 g1 l1 ->
  Forall (fun x => d_at x = cur_ w) l1 -> ahead w1 target <= ahead w target ->
  fired r1 = fired r + Z.of_nat (length l1) ->
  loop_ok w1 g1 target budget fn r1 r' w' g' l2 -> loop_ok w g target budget fn r r' w' g' (l1 ++ l2).
Proof.
  intros Hrd Hat Hah Hf [L1 LA L2 L3 L4 L5]. pose proof (in_range_same w w1 target fn (rd_shift _ _ _ _ _ _ _ _ Hrd) Hah) as Hq.
  split; try done.
  - eapply round_trans; [done |]. by eapply round_weaken.
  - apply Forall_app. split; [eapply Forall_impl; [exact Hat |]; simpl; intros x ->; unfold ahead; lia |].
    eapply Forall_impl; [exact LA |]. simpl. intros x Hx. lia.
  - rewrite length_app, L3. lia.
  - intros He. destruct (L4 He) as [Hc Hd]. split; [done |]. intros Hqr Ht. apply Hd; [by apply Hq |].
    by apply (rd_timely _ _ _ _ _ _ _ _ Hrd).
Qed.

Lemma busy_ready g : lists g kReady <> [] -> busy g = true.
Proof. intros Hn. unfold busy. by rewrite bool_decide_eq_false_2. Qed.

Lemma busy_moving g : lists g kMoving <> [] -> busy g = true.
Proof. intros Hn. unfold busy. rewrite (bool_decide_eq_false_2 (lists g kMoving = [])) by done. by rewrite andb_false_r. Qed.

Lemma loop_exhausted w g target budget fn r :
  inv w g -> settled g -> work_of r = budget -> busy g = true ->
  loop_ok w g target budget fn r (set_exhausted r) w g [].
Proof.
  intros Hi Hst Hw Hb. split; try done; [by apply round_refl | | simpl; lia]. unfold work_of in *. simpl. lia.
Qed.

Lemma list_head_spot w g h :
  inv w g -> lists g h <> [] -> spots g (hd h (lists g h)) = InList h.
Proof.
  intros Hi Hn. apply (lk_spot _ _ (iv_links _ _ Hi)). destruct (lists g h); [done |]. by left.
Qed.

(** Statement of the loop's lemma for a given fuel. *)
Definition loop_total (fuel : nat) (target budget : Z) (fn : P -> prog P) : Prop :=
  ∀ w g r, inv w g -> settled g -> target mod 2 ^ shift_ w = 0 -> 0 <= work_of r <= budget -> exhausted r = false ->
    (2 * Z.to_nat (budget - work_of r) + (if busy g then 1 else 2) <= fuel)%nat ->
    ∃ r' w' g' new, poll_loop fuel w target budget (work_of r) fn r = Ret (r', w') ∧
      loop_ok w g target budget fn r r' w' g' new.

(** A unit of work, then the rest of the loop. *)
Lemma loop_work fuel w g w1 g1 target budget fn r r1 l1 :
  loop_total fuel target budget fn ->
  round (in_range w target fn) (∀ p, spends (fn p)) (∀ p, fn p = PDone None) w g w1 g1 l1 ->
  Forall (fun x => d_at x = cur_ w) l1 -> cur_ w1 = cur_ w ->
  target mod 2 ^ shift_ w = 0 -> 0 <= work_of r < budget -> work_of r1 = work_of r + 1 -> exhausted r1 = false ->
  fired r1 = fired r + Z.of_nat (length l1) ->
  (2 * Z.to_nat (budget - work_of r) + 1 <= S fuel)%nat ->
  ∃ r' w' g' new, poll_loop fuel w1 target budget (work_of r + 1) fn r1 = Ret (r', w') ∧
    loop_ok w g target budget fn r r' w' g' new.
Proof.
  intros IH Hrd Hat Hc Hu Hw Hw1 He1 Hf1 Hfuel. rewrite <- Hw1.
  destruct (IH w1 g1 r1) as (r' & w' & g' & l2 & Hrun & Hlo).
  - apply Hrd.
  - apply Hrd.
  - by rewrite (rd_shift _ _ _ _ _ _ _ _ Hrd).
  - lia.
  - done.
  - destruct (busy g1); lia.
  - exists r', w', g', (l1 ++ l2). split; [done |]. eapply loop_step; [done | done | | done..]. unfold ahead. rewrite Hc. lia.
Qed.

(** The loop ends within its fuel: at most one arrival comes between two units
    of work. *)
Lemma poll_loop_ok fuel target budget fn :
  0 <= target < 2 ^ digits -> loop_total fuel target budget fn.
Proof.
  intros Ht. induction fuel as [| fuel IH]; intros w g r Hi Hst Hu Hw He Hfuel; [destruct (busy g); lia |].
  cbn [poll_loop]. destruct (head_next w g kReady Hi) as (nr & -> & Hnr & Hbr); [unfold kReady, kFirst; lia |].
  cbn [mbind run_bind]. rewrite Hbr, Hnr. clear Hbr. destruct (bool_decide (lists g kReady = [])) eqn:Hre; cbn [negb].
  2: { apply bool_decide_eq_false in Hre. pose proof (busy_ready g Hre) as Hb. rewrite Hb in Hfuel.
    case_bool_decide as Hbud; [eexists _, _, _, _; split; [done |]; by apply loop_exhausted |].
    destruct (Deliver_ok w g _ fn r Hi Hst (list_head_spot w g kReady Hi Hre)) as (r1 & w1 & g1 & l1 & -> & Hc & Hrd & Hat & Hr).
    cbn [mbind run_bind]. apply (loop_work fuel w g w1 g1 _ _ _ _ r1 l1); try done.
    - eapply round_weaken; [| done]. by apply in_range_now, Hi.
    - lia.
    - unfold work_of in *. destruct Hr as [[-> _] | [-> _]]; simpl; lia.
    - by destruct Hr as [[-> _] | [-> _]].
    - destruct Hr as [[-> ->] | [-> ->]]; simpl; lia. }
  destruct (head_next w g kMoving Hi) as (nm & -> & Hnm & Hbm); [unfold kMoving, kFirst; lia |].
  cbn [mbind run_bind]. rewrite Hbm, Hnm. clear Hbm. destruct (bool_decide (lists g kMoving = [])) eqn:Hme; cbn [negb].
  2: { apply bool_decide_eq_false in Hme. clear Hre. pose proof (busy_moving g Hme) as Hb. rewrite Hb in Hfuel.
    case_bool_decide as Hbud; [eexists _, _, _, _; split; [done |]; by apply loop_exhausted |].
    pose proof (list_head_spot w g kMoving Hi Hme) as Hs. set (i := hd kMoving (lists g kMoving)) in *.
    destruct (spot_ge w g i (iv_links _ _ Hi)) as [_ Hin]; [by rewrite Hs |]. destruct (node_ok w i Hin) as (n & Hn & _).
    destruct (move_round (in_range w target fn) (∀ p, spends (fn p)) (∀ p, fn p = PDone None) w g i kMoving n Hi Hst Hs Hn)
      as (w2 & n2 & w3 & g3 & -> & _ & _ & _ & Hp & Hc & Hrd).
    cbn [mbind run_bind]. rewrite Hp. cbn [mbind run_bind].
    apply (loop_work fuel w g w3 g3 _ _ _ _ (add_moved r) []); try done; [lia | unfold work_of; simpl; lia | simpl; lia]. }
  apply bool_decide_eq_true in Hre, Hme.
  assert (busy g = false) as Hb by (unfold busy; by rewrite !bool_decide_eq_true_2). rewrite Hb in Hfuel.
  pose proof (NextEvent_spec w (lists g) (iv_clock _ _ Hi) (lk_words _ _ (iv_links _ _ Hi))) as Hnear.
  assert (∀ P0, (∀ level s, (level < Levels)%nat -> (s < kSlots)%nat -> lists g (level * kSlots + s)%nat <> [] ->
      ahead w target < dist w level s) -> P0 = mret (r, with_cur target w) ->
    ∃ r' w' g' new, P0 = Ret (r', w') ∧ loop_ok w g target budget fn r r' w' g' new) as Hfin.
  { intros P0 Hfar ->. destruct (finish_ok (in_range w target fn) (∀ p, spends (fn p)) (∀ p, fn p = PDone None) w g target) as [Hrd Hdue]; [done.. |].
    exists r, (with_cur target w), g, []. split; [done |]. split; [done | done | lia | simpl; lia | | congruence].
    intros _. split; [done |]. intros _. apply Hdue. }
  destruct (NextEvent w) as [x |] eqn:Hne.
  2: { apply Hfin; [| done]. intros level s Hl Hs Hn. by destruct Hn; apply Hnear. }
  fold (ahead w target). case_bool_decide as Hx.
  2: { apply Hfin; [| done]. intros level s Hl Hs Hn. destruct Hnear as [_ Hmin]. specialize (Hmin level s Hl Hs Hn). lia. }
  assert (0 <= x) as Hx0.
  { destruct Hnear as [(lv & sl & Hlv & _ & _ & ->) _]. pose proof (dist_range w lv sl (iv_clock _ _ Hi) Hlv). lia. }
  destruct (Arrive_ok (in_range w target fn) (∀ p, spends (fn p)) (∀ p, fn p = PDone None) w g x Hi Hst Hre Hme Hne) as (w1 & g1 & -> & Hc & Hrd & Hbusy).
  cbn [mbind run_bind]. assert (busy g1 = true) as Hb1 by (destruct Hbusy; [by apply busy_ready | by apply busy_moving]).
  destruct (IH w1 g1 r) as (r' & w' & g' & l2 & Hrun & Hlo); [apply Hrd | apply Hrd | by rewrite (rd_shift _ _ _ _ _ _ _ _ Hrd)
    | done | done | rewrite Hb1; lia |].
  exists r', w', g', l2. split; [done |]. apply (loop_step w g w1 g1 target budget fn r r r' w' g' [] l2); [done | done | | simpl; lia | done].
  rewrite (ahead_moved w w1 target x Hc) by lia. lia.
Qed.

End Polling.

End Polling.
