(* ===== verification/ExpiryTheorems.v ===== *)
(** * What the expiry wheel promises

    Histories of calls from [Create] on: no call fails, handles name one arming
    each, the calls implement a map from live handles to timers, and a poll is
    bounded by its budget, never early and, when the budget lasts, complete. *)

From stdpp Require Import functions.
From S2P Require Import Prelude ExpiryWheel ExpiryLists ExpiryTime ExpiryInv ExpiryOps ExpiryPoll.
Open Scope Z_scope.

Module WheelProps.
Import Wheel Rings Time WheelInv Ops Polling.

Section Props.
Context {CF : Config} {P : Type} (payload0 : P).
Implicit Types (w : Wheel.t P) (g : ghost) (i : nat).

(** ** A whole poll *)

(** The time a poll brings the wheel to. *)
Definition poll_target w (now : Z) : Z :=
  let target := Z.ldiff now (UnitMask (shift_ w)) in
  if bool_decide (Diff target (cur_ w) < 0) then cur_ w else target.

Lemma round_down x k : 0 <= k -> Z.ldiff x (UnitMask k) = x / 2 ^ k * 2 ^ k.
Proof.
  intros Hk. rewrite UnitMask_ones. replace (2 ^ k - 1) with (Z.ones k) by (rewrite Z.ones_equiv; lia).
  by rewrite Z.ldiff_ones_r, Z.shiftl_mul_pow2, Z.shiftr_div_pow2.
Qed.

Lemma round_down_ok x k : 0 <= k <= digits -> 0 <= x < 2 ^ digits ->
  0 <= Z.ldiff x (UnitMask k) < 2 ^ digits ∧ Z.ldiff x (UnitMask k) mod 2 ^ k = 0.
Proof.
  intros Hk Hx. rewrite round_down by lia. pose proof (pow_pos k ltac:(lia)).
  pose proof (Z.mul_div_le x (2 ^ k) ltac:(lia)). pose proof (Z.div_pos x (2 ^ k) ltac:(lia) ltac:(lia)).
  split; [nia | apply Z_mod_mult].
Qed.

Lemma poll_target_ok w now :
  clock_ok w -> 0 <= now < 2 ^ digits ->
  0 <= poll_target w now < 2 ^ digits ∧ poll_target w now mod 2 ^ shift_ w = 0.
Proof.
  intros Hc Hn. pose proof (sh_bounds w 0 Hc levels_ok) as [Hs Ht]. unfold poll_target, sh in *.
  case_bool_decide; [split; apply Hc |]. apply round_down_ok; [lia | done].
Qed.

(** The invariant with the history of a quiet wheel. *)
Definition quiet w g : Prop := inv w g ∧ settled g ∧ polling_ w = false.

Lemma inv_polling w g b : inv w g -> inv (with_polling b w) g.
Proof.
  intros Hi. split; simpl; try (by apply Hi); [| split; apply (iv_clock _ _ Hi)].
  apply (links_data w); try done. apply Hi.
Qed.

Lemma PollImpl_ok w g now budget fn :
  inv w g -> settled g -> 0 <= now < 2 ^ digits -> 0 <= budget ->
  ∃ r w' g' new, PollImpl w now budget fn = Ret (r, w') ∧
    round (in_range w (poll_target w now) fn) (∀ p, spends (fn p)) (∀ p, fn p = PDone None) w g w' g' new ∧
    Forall (fun x => wrap digits (poll_target w now - d_at x) <= ahead w (poll_target w now)) new ∧
    work_of r <= budget ∧ fired r = Z.of_nat (length new) ∧
    (exhausted r = false -> (0 < budget -> cur_ w' = poll_target w now) ∧
      (in_range w (poll_target w now) fn -> timely w g ->
       ∀ h i n, i ∈ lists g' h -> nodes_ w' !! i = Some n -> 0 < Diff (EndOf w' (deadline n)) (poll_target w now))).
Proof.
  intros Hi Hst Hn Hb. destruct (poll_target_ok w now (iv_clock _ _ Hi) Hn) as [Ht Hu]. unfold PollImpl.
  fold (poll_target w now). set (target := poll_target w now) in *. case_bool_decide as Hz.
  - destruct (head_next w g kReady Hi) as (nr & -> & _ & Hbr); [unfold kReady, kFirst; lia |].
    destruct (head_next w g kMoving Hi) as (nm & -> & _ & Hbm); [unfold kMoving, kFirst; lia |].
    cbn [mbind run_bind]. rewrite Hbr, Hbm. clear Hbr Hbm. eexists _, w, g, []. split; [done |].
    split; [by apply round_refl |]. split; [done |]. split; [unfold work_of; simpl; lia |]. split; [done |]. simpl. intros He.
    split; [lia |]. apply orb_false_iff in He as [[Hre Hme]%orb_false_iff Hd].
    rewrite negb_false_iff, bool_decide_eq_true in Hre, Hme. intros _.
    apply (finish_ok True True True w g target); [done.. |]. intros level s Hl Hs Hne.
    pose proof (NextEvent_spec w (lists g) (iv_clock _ _ Hi) (lk_words _ _ (iv_links _ _ Hi))) as Hnear.
    destruct (NextEvent w) as [x |]; [| by destruct Hne; apply Hnear]. apply bool_decide_eq_false in Hd.
    destruct Hnear as [_ Hmin]. specialize (Hmin level s Hl Hs Hne). unfold ahead. lia.
  - destruct (poll_loop_ok (poll_fuel budget) target budget fn Ht w g (mk_result 0 0 false)) as (r & w' & g' & new & Hrun & [L1 LA L2 L3 L4 L5]);
      [done.. | unfold work_of; simpl; lia | done | unfold poll_fuel, work_of; simpl; destruct (busy g); lia |].
    exists r, w', g', new. split; [done |]. do 3 (split; [done |]). split; [simpl in L3; lia |].
    intros He. destruct (L4 He). done.
Qed.

(** ** Calls *)

(** A call of the owner, outside a poll. *)
Inductive call :=
  | CSchedule (d : Z) (p : P)
  | CRefresh (h : ExpiryHandle) (d : Z)
  | CReschedule (h : ExpiryHandle) (d : Z) (p : P)
  | CCancel (h : ExpiryHandle)
  | CPoll (now budget : Z) (fn : P -> prog P).

Inductive answer :=
  | AHandle (h : ExpiryHandle)
  | ABool (b : bool)
  | AResult (r : PollResult).

Definition make w (c : call) : run (answer * Wheel.t P) :=
  match c with
  | CSchedule d p => '(h, w) ← Schedule w d p; mret (AHandle h, w)
  | CRefresh h d => '(b, w) ← Refresh w h d; mret (ABool b, w)
  | CReschedule h d p => '(b, w) ← Reschedule w h d p; mret (ABool b, w)
  | CCancel h => '(b, w) ← Cancel w h; mret (ABool b, w)
  | CPoll now budget fn => '(r, w) ← Poll w now budget fn; mret (AResult r, w)
  end.

Fixpoint calls w (l : list call) : run (Wheel.t P) :=
  match l with
  | [] => mret w
  | c :: l => '(_, w) ← make w c; calls w l
  end.

(** Times and budgets are of their types. *)
Definition typed (c : call) : Prop :=
  match c with CPoll now budget _ => 0 <= now < 2 ^ digits ∧ 0 <= budget | _ => True end.

(** Deadlines are within the documented range of the wheel's time, and those
    armed by callbacks at every time of the poll. *)
Definition call_near w (c : call) : Prop :=
  match c with
  | CSchedule d _ | CRefresh _ d | CReschedule _ d _ => near w d
  | CCancel _ => True
  | CPoll now _ fn => in_range w (poll_target w now) fn
  end.

(** Callbacks answer that the timer is spent. *)
Definition call_spends (c : call) : Prop :=
  match c with CPoll _ _ fn => ∀ p, spends (fn p) | _ => True end.

(** What a call does to a quiet wheel. *)
Record call_ok (c : call) w g w' g' : Prop := {
  co_quiet : quiet w' g';
  co_capacity : capacity_ w' = capacity_ w;
  co_shift : shift_ w' = shift_ w;
  co_ages : ages w g w' g';
  co_timely : call_near w c -> timely w g -> timely w' g';
  co_once : call_spends c -> once w g -> once w' g'
}.

Lemma step_call c w g w' g' (Q : Prop) :
  quiet w g -> step_ok Q w g w' g' -> (call_near w c -> Q) -> call_ok c w g w' g'.
Proof.
  intros (Hi & Hst & Hp) [I F A D V L T] HQ. split; [| apply F | apply F | done | auto |].
  - split_and!; [done | | by rewrite (fr_polling _ _ F)]. intros i. split; [apply L; intros j; apply Hst |].
    intros Hd. by apply V, Hst in Hd.
  - intros _. apply once_ages; [done | apply F].
Qed.

Lemma Poll_ok w g now budget fn :
  quiet w g -> 0 <= now < 2 ^ digits -> 0 <= budget ->
  ∃ r w' g' new, Poll w now budget fn = Ret (r, w') ∧ call_ok (CPoll now budget fn) w g w' g' ∧
    trace_ w' = trace_ w ++ new ∧ Forall (due w) new ∧ work_of r <= budget ∧ fired r = Z.of_nat (length new) ∧
    Forall (fun x => wrap digits (poll_target w now - d_at x) <= ahead w (poll_target w now)) new ∧
    ((∀ p, fn p = PDone None) ->
      (∀ h, timer w' h = if decide (h ∈ d_handle <$> new) then None else timer w h) ∧
      (∀ x, x ∈ new -> ∃ p, timer w (d_handle x) = Some (d_deadline x, p))) ∧
    (exhausted r = false -> (0 < budget -> cur_ w' = poll_target w now) ∧
      (in_range w (poll_target w now) fn -> timely w g ->
       ∀ h i n, i ∈ lists g' h -> nodes_ w' !! i = Some n -> 0 < Diff (EndOf w' (deadline n)) (poll_target w now))).
Proof.
  intros (Hi & Hst & Hp) Hn Hb. unfold Poll. rewrite Hp. cbn [check negb mbind run_bind].
  destruct (PollImpl_ok (with_polling true w) g now budget fn (inv_polling _ _ true Hi) Hst Hn Hb)
    as (r & w' & g' & new & -> & [R1 R2 R3 R4 R5 R6 R7 R8 R9 R10 R11 R12] & Hat & Hw & Hf & Hd).
  cbn [mbind run_bind]. exists r, (with_polling false w'), g', new. split; [done |].
  split; [| do 5 (split; [done |]); split; [intros Hpas; split; [by apply R11 | by apply R12] | done]].
  split; simpl; [split; [by apply inv_polling | done] | done..].
Qed.

Lemma call_total w g c :
  quiet w g -> typed c -> ∃ a w' g', make w c = Ret (a, w') ∧ call_ok c w g w' g'.
Proof.
  intros Hq Ht. pose proof Hq as (Hi & Hst & _). assert (no_loose g) as Hnl by (intros i; apply Hst). destruct c; simpl.
  - destruct (Schedule_ok w g d p Hi) as (h & w' & g' & -> & Hs & _). eexists _, w', g'. split; [done |]. by eapply step_call.
  - destruct (rearm_ok w g h d None Hi Hnl) as (b & w' & g' & Hr & Hs & _). unfold Refresh. rewrite Hr.
    eexists _, w', g'. split; [done |]. by eapply step_call.
  - destruct (rearm_ok w g h d (Some p) Hi Hnl) as (b & w' & g' & Hr & Hs & _). unfold Reschedule. rewrite Hr.
    eexists _, w', g'. split; [done |]. by eapply step_call.
  - destruct (Cancel_ok w g h Hi Hnl) as (b & w' & g' & -> & Hs & _). eexists _, w', g'. split; [done |]. by eapply step_call.
  - destruct Ht as [Hn Hb]. destruct (Poll_ok w g now budget fn Hq Hn Hb) as (r & w' & g' & new & -> & Hc & _).
    eexists _, w', g'. done.
Qed.

(** ** A created wheel *)

Definition ghost0 (capacity : nat) : ghost :=
  mk_ghost (fun _ => [])
    (fun i => if decide (kFirst <= i < kFirst + capacity)%nat then IsFree else NotTimer) (seq kFirst capacity).

Lemma construct_node capacity start shift i :
  nodes_ (construct payload0 capacity start shift) !! i =
  if decide (i < kFirst)%nat then Some (head_node payload0 i)
  else if decide (i < kFirst + capacity)%nat then Some (free_node payload0 capacity (i - kFirst)) else None.
Proof.
  simpl. case_decide as Hi.
  - rewrite lookup_app_l by (by rewrite length_fmap, length_seq).
    by rewrite list_lookup_fmap, lookup_seq_lt by done.
  - rewrite lookup_app_r, length_fmap, length_seq by (rewrite length_fmap, length_seq; lia).
    rewrite list_lookup_fmap. case_decide as Hc; [by rewrite lookup_seq_lt by lia |]. by rewrite lookup_seq_ge by lia.
Qed.

Lemma construct_chain capacity start shift k :
  (k <= capacity)%nat ->
  chain (construct payload0 capacity start shift) (if decide (k = capacity) then kNil else (kFirst + k)%nat)
    (seq (kFirst + k) (capacity - k)).
Proof.
  intros Hk. remember (capacity - k)%nat as m eqn:Hm. revert k Hk Hm.
  induction m as [| m IH]; intros k Hk Hm; simpl; [by rewrite decide_True by lia |].
  rewrite decide_False by lia. split; [done |]. specialize (IH (S k) ltac:(lia) ltac:(lia)).
  rewrite Nat.add_succ_r in IH. eexists. split; [| exact IH]. unfold nxt. rewrite construct_node.
  rewrite decide_False, decide_True by lia. simpl. f_equal. replace (kFirst + k - kFirst)%nat with k by lia.
  case_bool_decide; case_decide; lia.
Qed.

Lemma construct_links capacity start shift :
  (0 < capacity)%nat -> links (construct payload0 capacity start shift) (ghost0 capacity).
Proof.
  intros Hc. set (w := construct payload0 capacity start shift).
  assert (length (nodes_ w) = kFirst + capacity)%nat as Hl.
  { simpl. by rewrite length_app, !length_fmap, !length_seq. }
  split; simpl.
  - intros h Hh. unfold linked, nxt, prv, w. rewrite construct_node, decide_True by done. done.
  - constructor.
  - intros i h. rewrite elem_of_nil. by case_decide.
  - intros i h. by case_decide.
  - intros i. simpl in Hl. rewrite Hl. case_decide; [split; [lia | done] |]. split; [done | lia].
  - intros i. by case_decide.
  - pose proof (construct_chain capacity start shift 0 ltac:(lia)) as Hch.
    rewrite decide_False, Nat.add_0_r, Nat.sub_0_r in Hch by lia. exact Hch.
  - apply NoDup_seq.
  - intros i. rewrite elem_of_seq. by case_decide.
  - split; simpl; [by rewrite length_replicate | |].
    + intros level o Ho. apply lookup_replicate in Ho as [-> _]. split; [lia | apply pow_pos; lia].
    + intros level o s Ho Hs. apply lookup_replicate in Ho as [-> _]. apply Z.bits_0.
Qed.

Lemma create_quiet capacity start shift w :
  0 <= start < 2 ^ digits -> 0 <= shift -> Create payload0 true capacity start shift = inr w ->
  quiet w (ghost0 capacity) ∧ timely w (ghost0 capacity) ∧ once w (ghost0 capacity).
Proof.
  intros Hs Hsh. unfold Create. repeat case_bool_decide; simpl; try done. intros [= <-].
  assert (∀ f i, f IsFree = false -> f NotTimer = false -> f (spots (ghost0 capacity) i) = false :> bool) as Hf
    by (intros f i F1 F2; simpl; by case_decide).
  assert (∀ f l, f IsFree = false -> f NotTimer = false -> count f (spots (ghost0 capacity)) l = 0%nat) as Hcount.
  { intros f l F1 F2. unfold count. induction l as [| x l IH]; [done |]. rewrite filter_cons, Hf by done. done. }
  split; [| split; [intros h i n Hin; by apply elem_of_nil in Hin | split; [constructor | intros x Hx; by apply elem_of_nil in Hx]]].
  split; [| split; [intros i; simpl; by case_decide | done]]. split.
  - apply construct_links. lia.
  - destruct (round_down_ok start shift); [unfold kMaxGranularityShift in *; lia | done |]. split; simpl; [lia | done | done].
  - simpl. by rewrite length_app, !length_fmap, !length_seq.
  - simpl. lia.
  - intros i n Hn Hi. rewrite construct_node, decide_False in Hn by lia. rewrite Hf by done.
    case_decide; [| done]. injection Hn as <-. simpl. split; [| done]. split; [done |]. by vm_compute.
  - simpl. by rewrite Hcount.
  - simpl. by rewrite Hcount.
Qed.

(** ** Histories *)

Lemma calls_ok w g l :
  quiet w g -> Forall typed l ->
  ∃ w' g', calls w l = Ret w' ∧ quiet w' g' ∧ capacity_ w' = capacity_ w ∧ ages w g w' g' ∧
    (Forall call_spends l -> once w g -> once w' g').
Proof.
  revert w g. induction l as [| c l IH]; intros w g Hq Ht; simpl.
  { exists w, g. split_and!; [done | apply Hq.. | done | apply ages_refl | done]. }
  apply Forall_cons in Ht as [Hc Hl]. destruct (call_total w g c Hq Hc) as (a & w1 & g1 & -> & [C1 C2 C6 C3 C4 C5]).
  cbn [mbind run_bind]. destruct (IH w1 g1 C1 Hl) as (w' & g' & -> & Hq' & Hcap & Ha & Ho).
  exists w', g'. split; [done |]. split; [done |]. split; [congruence |]. split; [by eapply ages_trans |].
  intros [Hs Hsl]%Forall_cons Hon. auto.
Qed.

(** A wheel and the calls made on it since its creation. *)
Definition after (capacity : nat) (start shift : Z) (l : list call) w : Prop :=
  0 <= start < 2 ^ digits ∧ 0 <= shift ∧ Forall typed l ∧
  ∃ w0, Create payload0 true capacity start shift = inr w0 ∧ calls w0 l = Ret w.

Lemma after_quiet capacity start shift l w :
  after capacity start shift l w ->
  ∃ g, quiet w g ∧ capacity_ w = capacity ∧ (Forall call_spends l -> once w g).
Proof.
  intros (Hs & Hsh & Ht & w0 & Hc & Hl). destruct (create_quiet _ _ _ _ Hs Hsh Hc) as (Hq & _ & Ho).
  destruct (calls_ok w0 _ l Hq Ht) as (w' & g' & Hl' & Hq' & Hcap & _ & Hon). assert (w' = w) as -> by congruence.
  exists g'. split; [done |]. split; [| auto]. rewrite Hcap. revert Hc. unfold Create.
  repeat case_bool_decide; simpl; try done. by intros [= <-].
Qed.

(** ** Counting *)

Definition armed_node w i : bool :=
  match nodes_ w !! i with Some n => Z.odd (generation n) | None => false end.

Lemma count_armed w g l :
  inv w g -> (∀ i, i ∈ l -> i ∈ timers w) ->
  length (filter (fun i => armed_node w i = true) l) = count armed (spots g) l.
Proof.
  intros Hi Hl. unfold count. induction l as [| i l IH]; [done |]. rewrite !filter_cons.
  assert (armed_node w i = armed (spots g i)) as ->.
  { assert (i ∈ timers w) as Ht by (apply Hl; by left). unfold timers in Ht. rewrite elem_of_seq in Ht.
    unfold armed_node. destruct (lookup_lt_is_Some_2 (nodes_ w) i) as [n Hn]; [rewrite (iv_length _ _ Hi); lia |].
    rewrite Hn. apply (iv_generation _ _ Hi i n Hn). lia. }
  specialize (IH ltac:(intros j Hj; apply Hl; by right)). case_decide; simpl; lia.
Qed.

(** Every timer is armed, retired or free. *)
Lemma count_all w g l :
  inv w g -> (∀ i, i ∈ l -> i ∈ timers w) ->
  (count armed (spots g) l + count retired (spots g) l + length (filter (fun i => spots g i = IsFree) l) = length l)%nat.
Proof.
  intros Hi Hl. unfold count. induction l as [| i l IH]; [done |]. rewrite !filter_cons.
  assert (i ∈ timers w) as Ht by (apply Hl; by left). apply (timer_elem _ _ _ Hi) in Ht.
  specialize (IH ltac:(intros j Hj; apply Hl; by right)).
  unfold retired in *. destruct (spots g i); simpl; try done; lia.
Qed.

Lemma full_count w g :
  inv w g -> full w = bool_decide (size_ w + quarantined_ w = Z.of_nat (capacity_ w)).
Proof.
  intros Hi. rewrite (full_spec w g Hi), (iv_size _ _ Hi), (iv_quarantined _ _ Hi).
  pose proof (count_all w g (timers w) Hi ltac:(done)) as Hc. unfold timers at 4 in Hc. rewrite length_seq in Hc.
  apply bool_decide_ext. split.
  - intros Hf. replace (filter _ _) with (@nil nat) in Hc; [simpl in Hc; lia |]. symmetry.
    destruct (filter _ _) as [| x l] eqn:Hl; [done |]. exfalso.
    assert (x ∈ filter (fun i => spots g i = IsFree) (timers w)) as Hx by (rewrite Hl; by left).
    apply list_elem_of_filter in Hx as [Hx _]. apply (lk_free_spot _ _ (iv_links _ _ Hi)) in Hx. rewrite Hf in Hx.
    by apply elem_of_nil in Hx.
  - intros Hs. destruct (free g) as [| x F] eqn:Hf; [done |]. exfalso.
    assert (spots g x = IsFree) as Hx by (apply (lk_free_spot _ _ (iv_links _ _ Hi)); rewrite Hf; by left).
    assert (x ∈ filter (fun i => spots g i = IsFree) (timers w)) as Hin.
    { apply list_elem_of_filter. split; [done |]. apply (timer_elem _ _ _ Hi). by rewrite Hx. }
    destruct (filter _ _) as [| y l]; [by apply elem_of_nil in Hin | simpl in Hc; lia].
Qed.

(** ** The theorems *)


(** What a call other than a poll does to the map from live handles to
    deadlines and payloads, and what it answers. *)
Definition answers (is_full : bool) (m : ExpiryHandle -> option (Z * P)) (c : call) (a : answer)
    (m' : ExpiryHandle -> option (Z * P)) : Prop :=
  match c with
  | CSchedule d p =>
      if is_full then a = AHandle kNoExpiry ∧ ∀ k, m' k = m k
      else ∃ h, a = AHandle h ∧ m h = None ∧ ∀ k, m' k = if decide (k = h) then Some (d, p) else m k
  | CRefresh h d =>
      match m h with
      | Some (_, p) => a = ABool true ∧ ∀ k, m' k = if decide (k = h) then Some (d, p) else m k
      | None => a = ABool false ∧ ∀ k, m' k = m k
      end
  | CReschedule h d p =>
      match m h with
      | Some _ => a = ABool true ∧ ∀ k, m' k = if decide (k = h) then Some (d, p) else m k
      | None => a = ABool false ∧ ∀ k, m' k = m k
      end
  | CCancel h =>
      match m h with
      | Some _ => a = ABool true ∧ ∀ k, m' k = if decide (k = h) then None else m k
      | None => a = ABool false ∧ ∀ k, m' k = m k
      end
  | CPoll _ _ _ => True
  end.

(** C26. Between polls the wheel is a map from live handles to timers:
    [Schedule] adds an entry under a handle that named nothing, or answers
    [kNoExpiry] when full; [Refresh] and [Reschedule] replace the entry of a
    live handle, [Cancel] removes it, and all three refuse any other handle and
    change nothing. *)
Theorem calls_implement_timer_map capacity start shift l w c :
  after capacity start shift l w -> typed c ->
  ∃ a w', make w c = Ret (a, w') ∧ answers (full w) (timer w) c a (timer w').
Proof.
  intros Haf Ht. destruct (after_quiet _ _ _ _ _ Haf) as (g & Hq & _). pose proof Hq as (Hi & Hst & _).
  assert (no_loose g) as Hnl by (intros i; apply Hst). assert (∀ i, spots g i <> IsDeliv) as Hnd by apply Hst. destruct c; simpl.
  - destruct (Schedule_ok w g d p Hi) as (h & w' & g' & -> & _ & Hs). eexists _, w'. split; [done |].
    destruct (full w); [destruct Hs as [-> ->]; done | by exists h].
  - destruct (rearm_ok w g h d None Hi Hnl) as (b & w' & g' & Hr & _ & Hs). unfold Refresh. rewrite Hr.
    eexists _, w'. split; [done |]. destruct (timer w h) as [[d0 p0] |]; [| by destruct Hs as [-> ->]].
    rewrite decide_False in Hs by done. by destruct Hs as [-> Hs].
  - destruct (rearm_ok w g h d (Some p) Hi Hnl) as (b & w' & g' & Hr & _ & Hs). unfold Reschedule. rewrite Hr.
    eexists _, w'. split; [done |]. destruct (timer w h) as [[d0 p0] |]; [| by destruct Hs as [-> ->]].
    rewrite decide_False in Hs by done. by destruct Hs as [-> Hs].
  - destruct (Cancel_ok w g h Hi Hnl) as (b & w' & g' & -> & _ & Hs). eexists _, w'. split; [done |].
    destruct (timer w h) as [[d0 p0] |]; by destruct Hs as [-> Hs]; subst.
  - destruct Ht as [Hn Hb]. destruct (Poll_ok w g now budget fn Hq Hn Hb) as (r & w' & g' & new & -> & _). by eexists _, w'.
Qed.

(** C28. A poll does no more than its budget, makes as many callbacks as it
    reports, and never delivers a timer early: the wheel's time at each delivery
    is a time of the poll, at or after the end of the timer's deadline. *)
Theorem poll_bounded_never_early capacity start shift l w now budget fn :
  after capacity start shift l w -> 0 <= now < 2 ^ digits -> 0 <= budget ->
  ∃ r w' new, Poll w now budget fn = Ret (r, w') ∧ trace_ w' = trace_ w ++ new ∧
    fired r + moved r <= budget ∧ fired r = Z.of_nat (length new) ∧
    Forall (fun x => Diff (EndOf w (d_deadline x)) (d_at x) <= 0 ∧
                     wrap digits (poll_target w now - d_at x) <= wrap digits (poll_target w now - cur_ w)) new.
Proof.
  intros Haf Hn Hb. destruct (after_quiet _ _ _ _ _ Haf) as (g & Hq & _).
  destruct (Poll_ok w g now budget fn Hq Hn Hb) as (r & w' & g' & new & Hrun & _ & Htr & Hdue & Hw & Hf & Hat & _).
  exists r, w', new. do 4 (split; [done |]). rewrite Forall_and. done.
Qed.

(** A wheel reached by calls whose deadlines are in range. *)
Inductive reached : Wheel.t P -> Prop :=
  | reached_create capacity start shift w :
      0 <= start < 2 ^ digits -> 0 <= shift -> Create payload0 true capacity start shift = inr w -> reached w
  | reached_call w c a w' :
      reached w -> typed c -> call_near w c -> make w c = Ret (a, w') -> reached w'.

Lemma reached_timely w : reached w -> ∃ g, quiet w g ∧ timely w g.
Proof.
  induction 1 as [capacity start shift w Hs Hsh Hc | w c a w' _ (g & Hq & Ht) Hty Hn Hm].
  - destruct (create_quiet _ _ _ _ Hs Hsh Hc) as (Hq & Ht & _). eauto.
  - destruct (call_total w g c Hq Hty) as (a' & w1 & g1 & Hm' & Hc). assert (w1 = w') as -> by congruence.
    exists g1. split; [apply Hc |]. by apply (co_timely _ _ _ _ _ Hc).
Qed.

(** A live timer of a quiet wheel is in a list. *)
Lemma live_listed w g h d p :
  quiet w g -> timer w h = Some (d, p) ->
  ∃ k n, id h ∈ lists g k ∧ nodes_ w !! id h = Some n ∧ deadline n = d.
Proof.
  intros (Hi & Hst & _) Ht. pose proof (Resolve_timer w g h Hi) as Hr. rewrite Ht in Hr.
  destruct Hr as (n & _ & Hn & _ & Hd & _ & _ & Ha). destruct (Hst (id h)) as [H1 H2].
  destruct (spots g (id h)) as [k | | | | |] eqn:Hs; try done. exists k, n. split; [| done].
  by apply (lk_spot _ _ (iv_links _ _ Hi)).
Qed.

(** C4. When deadlines stay in the documented range, a poll that does not run
    out of budget leaves no live timer that is due, whatever its callbacks do,
    and has brought the wheel to the time polled. *)
Theorem poll_leaves_none_due w now budget fn r w' :
  reached w -> 0 <= now < 2 ^ digits -> 0 < budget -> in_range w (poll_target w now) fn ->
  Poll w now budget fn = Ret (r, w') -> exhausted r = false ->
  wheel_time w' = poll_target w now ∧
  ∀ h d p, timer w' h = Some (d, p) -> 0 < Diff (EndOf w' d) (poll_target w now).
Proof.
  intros Hre Hn Hb Hin Hrun He. destruct (reached_timely w Hre) as (g & Hq & Ht).
  destruct (Poll_ok w g now budget fn Hq Hn ltac:(lia)) as (r1 & w1 & g' & new & Hrun' & Hco & _ & _ & _ & _ & _ & _ & Hd).
  assert (r1 = r ∧ w1 = w') as [-> ->] by (split; congruence). destruct (Hd He) as [Hc Hdue]. split; [by apply Hc |].
  intros h d p Hti. destruct (live_listed w' g' h d p (co_quiet _ _ _ _ _ Hco) Hti) as (k & n & Hk & Hnd & <-).
  by eapply Hdue.
Qed.

(** C6. A poll whose callbacks only consume their timers removes exactly the
    timers it delivers, and when it does not run out of budget it delivers
    every timer whose deadline has come. *)
Theorem poll_removes_what_it_delivers w now budget fn :
  reached w -> 0 <= now < 2 ^ digits -> 0 < budget -> (∀ p, fn p = PDone None) ->
  ∃ r w' new, Poll w now budget fn = Ret (r, w') ∧ trace_ w' = trace_ w ++ new ∧
    (∀ x, x ∈ new -> ∃ p, timer w (d_handle x) = Some (d_deadline x, p)) ∧
    (∀ h, timer w' h = if decide (h ∈ d_handle <$> new) then None else timer w h) ∧
    (exhausted r = false -> ∀ h d p, timer w h = Some (d, p) ->
       Diff (EndOf w d) (poll_target w now) <= 0 -> h ∈ d_handle <$> new).
Proof.
  intros Hre Hn Hb Hpas. destruct (reached_timely w Hre) as (g & Hq & Ht).
  destruct (Poll_ok w g now budget fn Hq Hn ltac:(lia)) as (r & w' & g' & new & Hrun & Hco & Htr & _ & _ & _ & _ & Hp & Hd).
  destruct (Hp Hpas) as [Htm Hlive]. exists r, w', new. do 4 (split; [done |]). intros He h d p Hti Hdue.
  destruct (decide (h ∈ d_handle <$> new)) as [| Hnin]; [done |]. exfalso.
  assert (in_range w (poll_target w now) fn) as Hin by (intros q x _; by rewrite Hpas).
  destruct (Hd He) as [_ Hall]. specialize (Hall Hin Ht).
  assert (timer w' h = Some (d, p)) as Hti' by (rewrite Htm, decide_False by done; done).
  destruct (live_listed w' g' h d p (co_quiet _ _ _ _ _ Hco) Hti') as (k & n & Hk & Hnd & <-).
  specialize (Hall k (id h) n Hk Hnd). rewrite (frame_EndOf w w') in Hall by apply (co_shift _ _ _ _ _ Hco). lia.
Qed.

(** A timer that lived and does not is spent. *)
Lemma gone_spent w g w' g' h x :
  inv w g -> inv w' g' -> ages w g w' g' -> timer w h = Some x -> timer w' h = None -> spent w' g' h.
Proof.
  intros Hi Hi' Ha Ht Hn. pose proof (Resolve_timer w g h Hi) as Hr. rewrite Ht in Hr. destruct x as [d p].
  destruct Hr as (n & _ & Hnd & Hge & _ & _ & Hg & Harm).
  destruct (Ha _ _ Hnd Hge) as (_ & n' & Hnd' & Hor). split; [done |]. exists n'. split; [done |].
  destruct Hor as [Hq | Hle]; [by left |]. right. rewrite <- Hg.
  destruct (decide (generation n' = generation n)) as [He | ?]; [| lia]. exfalso.
  unfold timer in Hn. rewrite decide_True, Hnd' in Hn by done. simpl in Hn. unfold node_timer in Hn.
  rewrite He, Hg, bool_decide_eq_true_2, <- Hg in Hn by done.
  destruct (iv_generation _ _ Hi _ _ Hnd Hge) as (_ & Hodd & _). rewrite Hodd, Harm in Hn. done.
Qed.

Lemma spent_dead w g h : inv w g -> spent w g h -> timer w h = None.
Proof.
  intros Hi (Hge & n & Hn & Hor). unfold timer. rewrite decide_True, Hn by done. simpl. unfold node_timer.
  destruct (bool_decide _) eqn:Hb; simpl; [| done]. apply bool_decide_eq_true in Hb.
  destruct Hor as [Hq | Hlt]; [| lia]. destruct (iv_generation _ _ Hi _ _ Hn Hge) as (_ & _ & H0). by rewrite (H0 Hq).
Qed.

(** C31. A handle names one arming: once its timer has fired or was cancelled it
    never resolves again, whatever happens to the node, its generation's
    wrap-around included. *)
Theorem handle_dead_for_good capacity start shift l w l1 w1 l2 w2 h x :
  after capacity start shift l w -> Forall typed l1 -> Forall typed l2 ->
  timer w h = Some x -> calls w l1 = Ret w1 -> timer w1 h = None -> calls w1 l2 = Ret w2 ->
  timer w2 h = None.
Proof.
  intros Haf Ht1 Ht2 Hx Hc1 Hd Hc2. destruct (after_quiet _ _ _ _ _ Haf) as (g & Hq & _).
  destruct (calls_ok w g l1 Hq Ht1) as (w1' & g1 & Hc1' & Hq1 & _ & Ha1 & _). assert (w1' = w1) as -> by congruence.
  destruct (calls_ok w1 g1 l2 Hq1 Ht2) as (w2' & g2 & Hc2' & Hq2 & _ & Ha2 & _). assert (w2' = w2) as -> by congruence.
  apply (spent_dead w2 g2); [apply Hq2 |]. eapply spent_ages; [done |].
  by eapply gone_spent; [apply Hq | apply Hq1 | ..].
Qed.

(** Nothing is delivered twice: while callbacks answer that their timers are
    spent, the handles delivered since the creation of the wheel are all
    different, and none of them is alive. *)
Theorem no_arming_delivered_twice capacity start shift l w :
  after capacity start shift l w -> Forall call_spends l ->
  NoDup (d_handle <$> trace_ w) ∧ ∀ x, x ∈ trace_ w -> timer w (d_handle x) = None.
Proof.
  intros Haf Hs. destruct (after_quiet _ _ _ _ _ Haf) as (g & Hq & _ & Ho). destruct (Ho Hs) as [Hnd Hsp].
  split; [done |]. intros x Hx. apply (spent_dead w g); [apply Hq | by apply Hsp].
Qed.

(** Deadlines made with [After] at the time last polled are in range, however
    long the timeout, when the granularity is below a quarter of the range. *)
Lemma After_is_near w now timeout :
  clock_ok w -> shift_ w < digits - 2 ->
  0 <= now < 2 ^ digits -> Z.ldiff now (UnitMask (shift_ w)) = cur_ w -> 0 <= timeout ->
  near w (After now timeout).
Proof.
  intros Hc Hsh Hn Hcur Ht.
  pose proof (ck_shift _ Hc) as [H0 _]. pose proof digits_big. rewrite round_down in Hcur by done.
  pose proof (pow_pos (shift_ w) H0) as Hu. set (u := 2 ^ shift_ w) in *. set (N := 2 ^ (digits - 2)).
  assert (kMaxTimeout = N - 1) as Hmax.
  { unfold kMaxTimeout. rewrite Z.shiftr_div_pow2 by lia. rewrite (pow_split 2 digits) by lia. fold N.
    change (2 ^ 2) with 4. replace (4 * N - 1) with (3 + (N - 1) * 4) by lia. by rewrite Z.div_add by lia. }
  assert (0 < N) by (apply pow_pos; lia).
  set (t := if bool_decide (kMaxTimeout < timeout) then kMaxTimeout else timeout).
  assert (0 <= t <= N - 1) as Htb by (unfold t; case_bool_decide; lia).
  unfold near. fold u N. unfold After. fold t. rewrite EndOf_up by done. fold u.
  assert (u < N ∧ ∃ k, N = k * u) as [Hun [k Hk]].
  { split; [apply Z.pow_lt_mono_r; lia |]. exists (2 ^ (digits - 2 - shift_ w)). unfold N, u. rewrite <- Z.pow_add_r by lia. f_equal. lia. }
  assert ((- wrap digits (now + t)) mod u = (- (now + t)) mod u) as ->.
  { assert (wrap digits (now + t) mod u = (now + t) mod u) as He by (unfold wrap, u; apply mod_mod_pow; lia).
    apply mod_eq_iff in He as [q Hq]; [| done]. apply mod_eq_iff; [done |]. exists (- q). lia. }
  pose proof (Z.mod_pos_bound (- (now + t)) u Hu) as Hm. pose proof (Z.mod_pos_bound now u Hu) as Hr.
  pose proof (Z.div_mod now u ltac:(lia)) as Hdm. pose proof (Z.div_mod (- (now + t)) u ltac:(lia)) as Hdm2.
  set (m := (- (now + t)) mod u) in *. set (b := (- (now + t)) / u) in *. set (a := now / u) in *.
  assert (now + t + m - cur_ w = (- b - a) * u) as Hv by lia. set (c := - b - a) in *.
  assert (c < k + 2) by nia. assert (0 <= c * u <= N + u) by nia.
  assert (Diff (wrap digits (wrap digits (now + t) + m)) (cur_ w) = now + t + m - cur_ w) as ->; [| lia].
  assert (2 ^ (digits - 1) = 2 * N) as Hhalf by (unfold N; rewrite <- Z.pow_succ_r by lia; f_equal; lia).
  apply Diff_unique; [lia |]. unfold wrap.
  by rewrite Zplus_mod_idemp_l, Zminus_mod_idemp_l.
Qed.

End Props.

End WheelProps.
