(* ===== verification/ExpiryWitness.v ===== *)
(** * The expiry wheel at concrete inputs

    A small wheel that the theorems of [ExpiryTheorems.v] apply to, and the
    case in which a deadline within the documented limits fires at once. *)

From S2P Require Import Prelude ExpiryWheel ExpiryTime ExpiryInv ExpiryPoll ExpiryTheorems.
Open Scope Z_scope.

Module WheelDemo.
Import Wheel Time WheelInv Polling WheelProps.

(** Sixteen-bit ticks, two levels of four slots, ticks of two counts. *)
#[local] Instance small : Config.
Proof. refine {| digits := 16; LevelBits := 2; Levels := 2 |}; lia. Defined.

Definition created : Wheel.t nat := construct 0%nat 3 100 1.

Definition quiet_fn : nat -> prog nat := fun _ => PDone None.

(** Two timers armed, one moved, one cancelled, one polled away. *)
Definition history : list (call (P := nat)) :=
  [CSchedule 107 7%nat; CSchedule 111 8%nat; CRefresh (mk_handle 10 1) 109; CCancel (mk_handle 11 1);
   CSchedule 103 9%nat; CPoll 105 5 quiet_fn].

Definition run_or {A} (d : A) (m : run A) : A := match m with Ret a => a | _ => d end.

Definition state : Wheel.t nat := run_or created (calls created history).

Lemma created_ok : Create 0%nat true 3 100 1 = inr created.
Proof. by vm_compute. Qed.

Lemma state_ok : calls created history = Ret state.
Proof. by vm_compute. Qed.

Lemma typed_history : Forall typed history.
Proof. repeat constructor; by vm_compute. Qed.

Lemma state_after : after 0%nat 3 100 1 history state.
Proof.
  split; [by vm_compute |]. split; [by vm_compute |]. split; [apply typed_history |].
  exists created. split; [apply created_ok | apply state_ok].
Qed.


Lemma calls_implement_timer_map_witness :
  ∃ a w', make state (CCancel (mk_handle 10 1)) = Ret (a, w') ∧
    answers (full state) (timer state) (CCancel (mk_handle 10 1)) a (timer w').
Proof. apply (calls_implement_timer_map 0%nat 3 100 1 history); [apply state_after | done]. Defined.

Lemma poll_bounded_never_early_witness :
  ∃ r w' new, Poll state 120 1 quiet_fn = Ret (r, w') ∧ trace_ w' = trace_ state ++ new ∧
    fired r + moved r <= 1 ∧ fired r = Z.of_nat (length new) ∧
    Forall (fun x => Diff (EndOf state (d_deadline x)) (d_at x) <= 0 ∧
      wrap digits (poll_target state 120 - d_at x) <= wrap digits (poll_target state 120 - cur_ state)) new.
Proof.
  apply (poll_bounded_never_early 0%nat 3 100 1 history state 120 1 quiet_fn); [apply state_after | by vm_compute | lia].
Defined.

(** A wheel with two timers, their deadlines in range. *)
Definition one : Wheel.t nat := run_or created (calls created [CSchedule 107 7%nat]).
Definition two : Wheel.t nat := run_or created (calls one [CSchedule 2000 8%nat]).

Lemma two_reached : reached 0%nat two.
Proof.
  apply (reached_call 0%nat one (CSchedule 2000 8%nat) (AHandle (mk_handle 11 1))); [| done | by vm_compute | by vm_compute].
  apply (reached_call 0%nat created (CSchedule 107 7%nat) (AHandle (mk_handle 10 1))); [| done | by vm_compute | by vm_compute].
  apply (reached_create 0%nat 3 100 1); [by vm_compute | by vm_compute | apply created_ok].
Qed.

Lemma quiet_in_range w target : in_range w target quiet_fn.
Proof. by intros p x _ d. Qed.

Definition polled : PollResult * Wheel.t nat := run_or (mk_result 0 0 true, two) (Poll two 109 3 quiet_fn).

Lemma poll_leaves_none_due_witness :
  wheel_time polled.2 = poll_target two 109 ∧
  ∀ h d p, timer polled.2 h = Some (d, p) -> 0 < Diff (EndOf polled.2 d) (poll_target two 109).
Proof.
  apply (poll_leaves_none_due 0%nat two 109 3 quiet_fn polled.1 polled.2);
    [apply two_reached | by vm_compute | lia | apply quiet_in_range | by vm_compute | by vm_compute].
Defined.

Lemma poll_removes_what_it_delivers_witness :
  ∃ r w' new, Poll two 109 3 quiet_fn = Ret (r, w') ∧ trace_ w' = trace_ two ++ new ∧
    (∀ x, x ∈ new -> ∃ p, timer two (d_handle x) = Some (d_deadline x, p)) ∧
    (∀ h, timer w' h = if decide (h ∈ d_handle <$> new) then None else timer two h) ∧
    (exhausted r = false -> ∀ h d p, timer two h = Some (d, p) ->
       Diff (EndOf two d) (poll_target two 109) <= 0 -> h ∈ d_handle <$> new).
Proof.
  apply (poll_removes_what_it_delivers 0%nat two 109 3 quiet_fn); [apply two_reached | by vm_compute | lia | done].
Defined.

Definition cancelled : Wheel.t nat := run_or created (calls state [CCancel (mk_handle 10 1)]).
Definition reused : Wheel.t nat := run_or created (calls cancelled [CSchedule 300 5%nat; CSchedule 301 6%nat]).

Lemma handle_dead_for_good_witness : timer reused (mk_handle 10 1) = None.
Proof.
  apply (handle_dead_for_good 0%nat 3 100 1 history state [CCancel (mk_handle 10 1)] cancelled
    [CSchedule 300 5%nat; CSchedule 301 6%nat] reused (mk_handle 10 1) (109, 7%nat));
    [apply state_after | by repeat constructor | by repeat constructor | by vm_compute..].
Defined.

Lemma no_arming_delivered_twice_witness :
  NoDup (d_handle <$> trace_ state) ∧ ∀ x, x ∈ trace_ state -> timer state (d_handle x) = None.
Proof. apply (no_arming_delivered_twice 0%nat 3 100 1 history); [apply state_after | by repeat constructor]. Defined.

End WheelDemo.

Module LongGap.
Import Wheel WheelProps.

(** The default arguments: 64-bit ticks, six levels of 64 slots. *)
#[local] Instance default_config : Config.
Proof. refine {| digits := 64; LevelBits := 6; Levels := 6 |}; lia. Defined.

(** The delivery times of a wheel created at 0 with granularity 4, in which a
    timer is armed at the end of the longest gap between polls. *)
Definition gap_run : run (list delivery) :=
  let wheel := construct 0%nat 1 0 2 in
  '(_, wheel) ← Schedule wheel (After kMaxTimeout kMaxTimeout) 7%nat;
  '(_, wheel) ← Poll wheel kMaxTimeout 1 (fun _ => PDone None);
  mret (trace_ wheel).


End LongGap.
