(* ===== verification/PacketParse.v ===== *)
(** * The checked packet parse

    Models [core/packet_parse.h]. A pointer into the frame is the list of the
    bytes readable from it, so a read past them is [Undef]; a [size_t] is a [Z]
    whose differences wrap at 64 bits, and the 16-bit fields of [ParsedFrame]
    narrow what is stored in them. [out] is passed in and handed back. *)

From S2P Require Import Prelude.
Open Scope Z_scope.

Module Parse.

Inductive L3Kind := L3None | L3Ipv4 | L3Ipv6.
Inductive L4Kind := L4None | L4Tcp | L4Udp | L4Icmp | L4Icmpv6 | L4Other.
Inductive ParseStatus := kOk | kNotIp | kMalformed | kFragment.

#[export] Instance L3Kind_eq_dec : EqDecision L3Kind.
Proof. solve_decision. Defined.
#[export] Instance L4Kind_eq_dec : EqDecision L4Kind.
Proof. solve_decision. Defined.
#[export] Instance ParseStatus_eq_dec : EqDecision ParseStatus.
Proof. solve_decision. Defined.

Record ParsedFrame := mk_parsed {
  l3 : L3Kind;
  l4 : L4Kind;
  protocol : Z;
  tcp_flags : Z;
  l3_offset : Z;
  l4_offset : Z;
  l4_length : Z;
  src : list Z;
  dst : list Z;
  src_port : Z;
  dst_port : Z;
  icmp_type : Z;
  icmp_code : Z;
  first_fragment : bool
}.

(** [ParsedFrame{}]. *)
Definition parsed0 : ParsedFrame :=
  mk_parsed L3None L4None 0 0 0 0 0 (replicate 16 0) (replicate 16 0) 0 0 0 0 false.

(** Assignments to the fields of [out], grouped as the code makes them. *)
Definition set_l3 (k : L3Kind) (o : ParsedFrame) : ParsedFrame :=
  mk_parsed k (l4 o) (protocol o) (tcp_flags o) (l3_offset o) (l4_offset o) (l4_length o)
    (src o) (dst o) (src_port o) (dst_port o) (icmp_type o) (icmp_code o) (first_fragment o).
Definition set_l4 (k : L4Kind) (o : ParsedFrame) : ParsedFrame :=
  mk_parsed (l3 o) k (protocol o) (tcp_flags o) (l3_offset o) (l4_offset o) (l4_length o)
    (src o) (dst o) (src_port o) (dst_port o) (icmp_type o) (icmp_code o) (first_fragment o).
Definition set_protocol (x : Z) (o : ParsedFrame) : ParsedFrame :=
  mk_parsed (l3 o) (l4 o) x (tcp_flags o) (l3_offset o) (l4_offset o) (l4_length o)
    (src o) (dst o) (src_port o) (dst_port o) (icmp_type o) (icmp_code o) (first_fragment o).
Definition set_tcp_flags (x : Z) (o : ParsedFrame) : ParsedFrame :=
  mk_parsed (l3 o) (l4 o) (protocol o) x (l3_offset o) (l4_offset o) (l4_length o)
    (src o) (dst o) (src_port o) (dst_port o) (icmp_type o) (icmp_code o) (first_fragment o).
Definition set_l3_offset (x : Z) (o : ParsedFrame) : ParsedFrame :=
  mk_parsed (l3 o) (l4 o) (protocol o) (tcp_flags o) (wrap 16 x) (l4_offset o) (l4_length o)
    (src o) (dst o) (src_port o) (dst_port o) (icmp_type o) (icmp_code o) (first_fragment o).
Definition set_l4_place (off len : Z) (o : ParsedFrame) : ParsedFrame :=
  mk_parsed (l3 o) (l4 o) (protocol o) (tcp_flags o) (l3_offset o) (wrap 16 off) (wrap 16 len)
    (src o) (dst o) (src_port o) (dst_port o) (icmp_type o) (icmp_code o) (first_fragment o).
(** [std::memcpy] into the first bytes of [src] and of [dst]. *)
Definition set_addrs (s d : list Z) (o : ParsedFrame) : ParsedFrame :=
  mk_parsed (l3 o) (l4 o) (protocol o) (tcp_flags o) (l3_offset o) (l4_offset o) (l4_length o)
    (s ++ drop (length s) (src o)) (d ++ drop (length d) (dst o))
    (src_port o) (dst_port o) (icmp_type o) (icmp_code o) (first_fragment o).
Definition set_ports (sp dp : Z) (o : ParsedFrame) : ParsedFrame :=
  mk_parsed (l3 o) (l4 o) (protocol o) (tcp_flags o) (l3_offset o) (l4_offset o) (l4_length o)
    (src o) (dst o) sp dp (icmp_type o) (icmp_code o) (first_fragment o).
Definition set_icmp (ty code : Z) (o : ParsedFrame) : ParsedFrame :=
  mk_parsed (l3 o) (l4 o) (protocol o) (tcp_flags o) (l3_offset o) (l4_offset o) (l4_length o)
    (src o) (dst o) (src_port o) (dst_port o) ty code (first_fragment o).
Definition set_first_fragment (b : bool) (o : ParsedFrame) : ParsedFrame :=
  mk_parsed (l3 o) (l4 o) (protocol o) (tcp_flags o) (l3_offset o) (l4_offset o) (l4_length o)
    (src o) (dst o) (src_port o) (dst_port o) (icmp_type o) (icmp_code o) b.

(** ** Reading bytes *)

Definition size (p : list Z) : Z := Z.of_nat (length p).
(** [p + off] *)
Definition ptr (p : list Z) (off : Z) : list Z := drop (Z.to_nat off) p.
(** [p[i]] *)
Definition byte (p : list Z) (i : Z) : run Z := at_ p (Z.to_nat i).
(** The [n] bytes at [p + off], read by [memcpy]. *)
Definition bytes (p : list Z) (off n : Z) : run (list Z) :=
  if bool_decide (off + n <= size p)
  then Ret (take (Z.to_nat n) (drop (Z.to_nat off) p)) else Undef.

(** The difference of two [size_t]. *)
Definition minus (a b : Z) : Z := wrap 64 (a - b).

Definition Be16 (p : list Z) (off : Z) : run Z :=
  a ← byte p off; b ← byte p (off + 1);
  mret (wrap 16 (Z.lor (Z.shiftl a 8) b)).

Definition Le16 (p : list Z) (off : Z) : run Z :=
  a ← byte p off; b ← byte p (off + 1);
  mret (wrap 16 (Z.lor a (Z.shiftl b 8))).

(** ** IPv6 extension headers *)

Definition kMaxExtensionHeaders : nat := 8.

Definition kOptionHeaders : Z :=
  Z.lor (Z.lor (Z.shiftl 1 0) (Z.shiftl 1 43)) (Z.shiftl 1 60).

Definition AhLength (ip : list Z) (have off : Z) : run Z :=
  if bool_decide (have < off + 8) then mret 0
  else
    n ← byte ip (off + 1);
    let len := (n + 2) * 4 in
    mret (if bool_decide (have < off + len) then 0 else len).

(** The loop of [WalkIpv6Chain]; [todo] is how many more times its head may
    pass the test of [n] against [kMaxExtensionHeaders]. *)
Fixpoint walk_chain (todo : nat) (ip : list Z) (have next off : Z) (out : ParsedFrame)
    : run (ParseStatus * Z * ParsedFrame) :=
  match todo with
  | O => mret (kMalformed, off, out)
  | S todo =>
      if bool_decide (next < 64) && bool_decide (Z.land (Z.shiftr kOptionHeaders next) 1 <> 0)
      then
        if bool_decide (have < off + 8) then mret (kMalformed, off, out)
        else
          n ← byte ip (off + 1);
          let len := (n + 1) * 8 in
          if bool_decide (have < off + len) then mret (kMalformed, off, out)
          else next ← byte ip off; walk_chain todo ip have next (off + len) out
      else if bool_decide (next = 44) then
        if bool_decide (have < off + 8) then mret (kMalformed, off, out)
        else
          frag ← Be16 ip (off + 2);
          let initial := bool_decide (Z.land frag 0xfff8 = 0) in
          next ← byte ip off;
          let off := off + 8 in
          if negb initial then mret (kFragment, off, set_protocol next out)
          else
            walk_chain todo ip have next off
              (set_first_fragment (bool_decide (Z.land frag 1 <> 0)) out)
      else if bool_decide (next = 51) then
        len ← AhLength ip have off;
        if bool_decide (len = 0) then mret (kMalformed, off, out)
        else next ← byte ip off; walk_chain todo ip have next (off + len) out
      else mret (kOk, off, set_protocol next out)
  end.

Definition WalkIpv6Chain (ip : list Z) (have : Z) (out : ParsedFrame)
    : run (ParseStatus * Z * ParsedFrame) :=
  next ← byte ip 6;
  walk_chain (S kMaxExtensionHeaders) ip have next 40 out.

(** ** The transport header *)

Definition CheckL4 (kFill : bool) (protocol : Z) (l4 : list Z) (have room : Z)
    (first_fragment : bool) (out : ParsedFrame) : run (ParseStatus * ParsedFrame) :=
  if bool_decide (protocol = 6) then
    if bool_decide (have < 20) then mret (kMalformed, out)
    else
      b ← byte l4 12;
      let words := Z.shiftr b 4 in
      if bool_decide (words < 5) || (negb first_fragment && bool_decide (room < words * 4))
      then mret (kMalformed, out)
      else if kFill then
        sp ← Be16 l4 0; dp ← Be16 l4 2; flags ← byte l4 13;
        mret (kOk, set_tcp_flags flags (set_ports sp dp (set_l4 L4Tcp out)))
      else mret (kOk, out)
  else if bool_decide (protocol = 17) then
    if bool_decide (have < 8) then mret (kMalformed, out)
    else
      len ← Be16 l4 4;
      if bool_decide (len < 8) || (negb first_fragment && bool_decide (room < len))
      then mret (kMalformed, out)
      else if kFill then
        sp ← Be16 l4 0; dp ← Be16 l4 2;
        mret (kOk, set_ports sp dp (set_l4 L4Udp out))
      else mret (kOk, out)
  else if bool_decide (protocol = 1) || bool_decide (protocol = 58) then
    if bool_decide (have < 8) then mret (kMalformed, out)
    else if kFill then
      ty ← byte l4 0; code ← byte l4 1; ident ← Be16 l4 4;
      mret (kOk, set_ports ident ident (set_icmp ty code
              (set_l4 (if bool_decide (protocol = 1) then L4Icmp else L4Icmpv6) out)))
    else mret (kOk, out)
  else mret (kOk, if kFill then set_l4 L4Other out else out).

Definition ParseL4 (ip : list Z) (present total off frame_base : Z) (out : ParsedFrame)
    : run (ParseStatus * ParsedFrame) :=
  let out := set_l4_place (frame_base + off) (minus total off) out in
  let have := if bool_decide (off < present) then minus present off else 0 in
  CheckL4 true (protocol out) (ptr ip off) have (minus total off) (first_fragment out) out.

(** ** The IP header *)

Definition ParseIp (ip : list Z) (present limit base : Z) (out : ParsedFrame)
    : run (ParseStatus * ParsedFrame) :=
  if bool_decide (present < 1) then mret (kMalformed, out)
  else
    let out := set_l3_offset base out in
    b0 ← byte ip 0;
    let version := Z.shiftr b0 4 in
    if bool_decide (version = 4) then
      let ihl := Z.land b0 0x0f * 4 in
      if bool_decide (present < 20) || bool_decide (ihl < 20) || bool_decide (present < ihl)
      then mret (kMalformed, out)
      else
        total ← Be16 ip 2;
        if bool_decide (total < ihl) || bool_decide (limit < total) then mret (kMalformed, out)
        else
          proto ← byte ip 9;
          s ← bytes ip 12 4; d ← bytes ip 16 4;
          let out := set_addrs s d (set_protocol proto (set_l3 L3Ipv4 out)) in
          frag ← Be16 ip 6;
          if bool_decide (Z.land frag 0x1fff <> 0) then mret (kFragment, out)
          else
            let out := set_first_fragment (bool_decide (Z.land frag 0x2000 <> 0)) out in
            ParseL4 ip (Z.min present total) total ihl base out
    else if bool_decide (version = 6) then
      if bool_decide (present < 40) then mret (kMalformed, out)
      else
        payload ← Be16 ip 4;
        let total := 40 + payload in
        if bool_decide (limit < total) then mret (kMalformed, out)
        else
          let have := Z.min present total in
          s ← bytes ip 8 16; d ← bytes ip 24 16;
          let out := set_addrs s d (set_l3 L3Ipv6 out) in
          '(walk, off, out) ← WalkIpv6Chain ip have out;
          if bool_decide (walk <> kOk) then mret (walk, out)
          else ParseL4 ip have total off base out
    else mret (kMalformed, out).

(** ** The frame *)

(** The loop over the VLAN tags: at most [tags] more of them. The tag found to
    be cut short is [None]. *)
Fixpoint skip_tags (tags : nat) (frame : list Z) (off type : Z) : run (option (Z * Z)) :=
  match tags with
  | O => mret (Some (off, type))
  | S tags =>
      if bool_decide (type = 0x8100) || bool_decide (type = 0x88a8) then
        let off := off + 4 in
        if bool_decide (size frame < off + 2) then mret None
        else type ← Be16 frame off; skip_tags tags frame off type
      else mret (Some (off, type))
  end.

Definition ParseFrameGeneral (frame : list Z) (out : ParsedFrame) (total_len : Z)
    : run (ParseStatus * ParsedFrame) :=
  if bool_decide (size frame < 14) then mret (kMalformed, out)
  else
    type ← Be16 frame 12;
    tags ← skip_tags 2 frame 12 type;
    match tags with
    | None => mret (kMalformed, out)
    | Some (off, type) =>
        let off := off + 2 in
        if bool_decide (type <> 0x0800) && bool_decide (type <> 0x86dd) then mret (kNotIp, out)
        else
          '(s, out) ← ParseIp (ptr frame off) (minus (size frame) off) (minus total_len off) off out;
          mret (if bool_decide (s = kOk) &&
                   negb (Bool.eqb (bool_decide (type = 0x0800)) (bool_decide (l3 out = L3Ipv4)))
                then kMalformed else s, out)
    end.

(** ** The common frame *)

Record FastIpv4 := mk_fast {
  taken : bool;
  header_ok : bool;
  f_first_fragment : bool;
  f_protocol : Z;
  f_total : Z;
  f_status : ParseStatus
}.

Definition fast0 : FastIpv4 := mk_fast false false false 0 0 kMalformed.

Definition IsCommonFrame (frame : list Z) : run bool :=
  if bool_decide (size frame < 34) then mret false
  else
    type ← Le16 frame 12;
    if bool_decide (type <> 0x0008) then mret false
    else b ← byte frame 14; mret (bool_decide (b = 0x45)).

Definition kFastAcceptBytes : Z := 54.

(** The accept test of [FastFrame]: does the usual frame's transport header
    hold up against the stated length? *)
Definition accept_l4 (ip : list Z) (total : Z) : run bool :=
  proto ← byte ip 9;
  if bool_decide (proto = 17) then
    len ← Be16 ip (20 + 4);
    mret (bool_decide (8 <= len) && bool_decide (len + 20 <= total))
  else if bool_decide (proto = 6) then
    b ← byte ip (20 + 12);
    mret (bool_decide (0x50 <= b) && bool_decide (Z.shiftl (Z.shiftr b 4) 2 + 20 <= total))
  else mret false.

(** The fields of an accepted frame. *)
Definition accept_fields (ip : list Z) (total : Z) (out : ParsedFrame) : run ParsedFrame :=
  proto ← byte ip 9;
  flags ← (if bool_decide (proto = 6) then byte ip (20 + 13) else mret 0);
  s ← bytes ip 12 4; d ← bytes ip 16 4;
  sp ← Be16 ip 20; dp ← Be16 ip (20 + 2);
  mret (set_ports sp dp (set_addrs s d (set_l4_place 34 (minus total 20) (set_l3_offset 14
         (set_tcp_flags flags (set_protocol proto
           (set_l4 (if bool_decide (proto = 6) then L4Tcp else L4Udp) (set_l3 L3Ipv4 out)))))))).

(** The checks one at a time, for a frame not accepted. *)
Definition slow_checks (kFill : bool) (frame ip : list Z) (total total_len : Z) (out : ParsedFrame)
    : run (FastIpv4 * ParsedFrame) :=
  let out := if kFill then set_l3_offset 14 out else out in
  if bool_decide (total < 20) || bool_decide (minus total_len 14 < total)
  then mret (mk_fast true false false 0 0 kMalformed, out)
  else
    proto ← byte ip 9;
    out ← (if kFill then
             s ← bytes ip 12 4; d ← bytes ip 16 4;
             mret (set_addrs s d (set_protocol proto (set_l3 L3Ipv4 out)))
           else mret out);
    frag ← Be16 ip 6;
    if bool_decide (Z.land frag 0x1fff <> 0)
    then mret (mk_fast true true false proto (wrap 16 total) kFragment, out)
    else
      let first := bool_decide (Z.land frag 0x2000 <> 0) in
      let out := if kFill
                 then set_l4_place 34 (minus total 20) (set_first_fragment first out) else out in
      '(s, out) ← CheckL4 kFill proto (ptr ip 20) (minus (Z.min (minus (size frame) 14) total) 20)
                    (minus total 20) first out;
      mret (mk_fast true true first proto (wrap 16 total) s, out).

Definition FastFrame (kFill : bool) (frame : list Z) (total_len : Z) (out : ParsedFrame)
    : run (FastIpv4 * ParsedFrame) :=
  common ← IsCommonFrame frame;
  if negb common then mret (fast0, out)
  else
    let total_len := Z.max total_len (size frame) in
    let ip := ptr frame 14 in
    total ← Be16 ip 2;
    accepted ←
      (if bool_decide (kFastAcceptBytes <= size frame) then
         frag ← Le16 ip 6;
         if bool_decide (Z.land frag 0xff3f = 0) then
           l4_ok ← accept_l4 ip total;
           mret (l4_ok && bool_decide (total + 14 <= total_len))
         else mret false
       else mret false);
    if (accepted : bool) then
      proto ← byte ip 9;
      out ← (if kFill then accept_fields ip total out else mret out);
      mret (mk_fast true true false proto (wrap 16 total) kOk, out)
    else slow_checks kFill frame ip total total_len out.

Definition CheckFastIpv4 (frame : list Z) (total_len : Z) : run FastIpv4 :=
  '(f, _) ← FastFrame false frame total_len parsed0; mret f.

(** ** Entry points *)

Definition ParseFrame (frame : list Z) (total_len : Z) : run (ParseStatus * ParsedFrame) :=
  let out := parsed0 in
  common ← IsCommonFrame frame;
  if (common : bool) then '(f, out) ← FastFrame true frame total_len out; mret (f_status f, out)
  else ParseFrameGeneral frame out (Z.max total_len (size frame)).

Definition ParseIpPacket (packet : list Z) : run (ParseStatus * ParsedFrame) :=
  ParseIp packet (size packet) (size packet) 0 parsed0.

End Parse.
