(* ===== verification/ParseReads.v ===== *)
(** * Reading a frame

    The value of every read [PacketParse.v] makes inside the frame, the fast
    path of the parse against its general path, and where a parse leaves the
    headers it accepts. *)

From S2P Require Import Prelude PacketParse.
Open Scope Z_scope.

Module Reads.
Import Parse.

Definition octets (p : list Z) : Prop := Forall (in_width 8) p.

(** The byte at [i], and the two bytes there in network order. *)
Definition nb (p : list Z) (i : Z) : Z := nth (Z.to_nat i) p 0.
Definition be (p : list Z) (i : Z) : Z := nb p i * 256 + nb p (i + 1).
Definition slice (p : list Z) (off n : Z) : list Z := take (Z.to_nat n) (drop (Z.to_nat off) p).

Lemma size_nonneg p : 0 <= size p.
Proof. unfold size. lia. Qed.

Lemma nb_range p i : octets p -> 0 <= nb p i < 256.
Proof.
  intros Hp. unfold nb. destruct (nth_in_or_default (Z.to_nat i) p 0) as [Hin | ->]; [| lia].
  unfold octets in Hp. rewrite List.Forall_forall in Hp. apply Hp in Hin. exact Hin.
Qed.

Lemma be_range p i : octets p -> 0 <= be p i < 65536.
Proof. intros Hp. pose proof (nb_range p i Hp). pose proof (nb_range p (i + 1) Hp). unfold be. lia. Qed.

Lemma byte_ok p i : 0 <= i < size p -> byte p i = Ret (nb p i).
Proof.
  intros Hi. unfold byte, nb. apply at_lookup. unfold size in Hi.
  destruct (lookup_lt_is_Some_2 p (Z.to_nat i)) as [x Hx]; [lia |]. rewrite Hx. f_equal.
  symmetry. apply nth_lookup_Some. done.
Qed.

Lemma lor_bytes a b : 0 <= a < 256 -> 0 <= b < 256 -> Z.lor (Z.shiftl a 8) b = a * 256 + b.
Proof.
  intros Ha Hb. rewrite Z.shiftl_mul_pow2 by lia. change (2 ^ 8) with 256.
  rewrite <- Z.lxor_lor; [symmetry; apply Z.add_nocarry_lxor |];
    apply Z.bits_inj'; intros n Hn; rewrite Z.land_spec, Z.bits_0;
    (destruct (Z.lt_ge_cases n 8) as [Hlt | Hge];
     [change 256 with (2 ^ 8); rewrite Z.mul_pow2_bits_low by lia; done
     | rewrite (Z.bits_above_log2 b n); [apply andb_false_r | lia |];
       destruct (Z.eq_dec b 0) as [-> | Hne]; [simpl; lia |];
       apply Z.log2_lt_pow2; [lia |]; apply Z.lt_le_trans with (2 ^ 8); [lia |];
       apply Z.pow_le_mono_r; lia]).
Qed.

Lemma Be16_ok p i : octets p -> 0 <= i -> i + 2 <= size p -> Be16 p i = Ret (be p i).
Proof.
  intros Hp Hi Hs. unfold Be16. rewrite !byte_ok by lia. simpl. f_equal.
  pose proof (nb_range p i Hp). pose proof (nb_range p (i + 1) Hp). rewrite lor_bytes by done.
  unfold be. rewrite wrap_small; [done |]. unfold in_width. lia.
Qed.

Lemma Le16_ok p i : octets p -> 0 <= i -> i + 2 <= size p ->
  Le16 p i = Ret (nb p (i + 1) * 256 + nb p i).
Proof.
  intros Hp Hi Hs. unfold Le16. rewrite !byte_ok by lia. simpl. f_equal.
  pose proof (nb_range p i Hp). pose proof (nb_range p (i + 1) Hp). rewrite Z.lor_comm, lor_bytes by done.
  rewrite wrap_small; [done |]. unfold in_width. lia.
Qed.

Lemma bytes_ok p off n : off + n <= size p -> bytes p off n = Ret (slice p off n).
Proof. intros H. unfold bytes. by rewrite bool_decide_eq_true_2. Qed.

Lemma size_ptr p off : 0 <= off <= size p -> size (ptr p off) = size p - off.
Proof. unfold size, ptr. intros H. rewrite length_drop. lia. Qed.

Lemma octets_app p q : octets (p ++ q) <-> octets p ∧ octets q.
Proof. apply Forall_app. Qed.

Lemma octets_ptr p off : octets p -> octets (ptr p off).
Proof. apply Forall_drop. Qed.

Lemma nb_ptr p off i : 0 <= off -> 0 <= i -> nb (ptr p off) i = nb p (off + i).
Proof.
  intros Ho Hi. unfold nb, ptr. rewrite nth_lookup, nth_lookup, lookup_drop. f_equal. f_equal. lia.
Qed.

Lemma be_ptr p off i : 0 <= off -> 0 <= i -> be (ptr p off) i = be p (off + i).
Proof. intros Ho Hi. unfold be. rewrite !nb_ptr by lia. by rewrite Z.add_assoc. Qed.

Lemma ptr_ptr p a b : 0 <= a -> 0 <= b -> ptr (ptr p a) b = ptr p (a + b).
Proof. intros Ha Hb. unfold ptr. rewrite drop_drop. f_equal. lia. Qed.

Lemma slice_ptr p a off n : 0 <= a -> 0 <= off -> slice (ptr p a) off n = slice p (a + off) n.
Proof. intros Ha Ho. unfold slice, ptr. rewrite drop_drop. do 2 f_equal. lia. Qed.

Lemma minus_small a b : 0 <= b <= a -> a < 2 ^ 64 -> minus a b = a - b.
Proof. intros H Ha. apply wrap_small. unfold in_width. lia. Qed.

End Reads.

(** Sums of numerals. *)
Ltac zconst :=
  repeat match goal with
  | |- context [Z.add (Zpos ?a) (Zpos ?b)] =>
      let r := eval vm_compute in (Z.add (Zpos a) (Zpos b)) in
      change (Z.add (Zpos a) (Zpos b)) with r
  | |- context [Z.add (Zpos ?a) 0] => change (Z.add (Zpos a) 0) with (Zpos a)
  | |- context [Z.add 0 (Zpos ?a)] => change (Z.add 0 (Zpos a)) with (Zpos a)
  end.

(** Evaluates the reads of a goal whose bounds [lia] decides. *)
Ltac reads :=
  repeat first
    [ match goal with |- context [Parse.byte ?p ?i] => rewrite (Reads.byte_ok p i) by lia end
    | match goal with |- context [Parse.Be16 ?p ?i] =>
        rewrite (Reads.Be16_ok p i) by (first [assumption | lia]) end
    | match goal with |- context [Parse.Le16 ?p ?i] =>
        rewrite (Reads.Le16_ok p i) by (first [assumption | lia]) end
    | match goal with |- context [Parse.bytes ?p ?i ?n] => rewrite (Reads.bytes_ok p i n) by lia end
    | progress cbn [mbind mret run_bind run_ret] ]; zconst.

Module Transport.
Import Parse Reads.

(** ** The transport header, without reads

    Whether [CheckL4] accepts the header at [p], and the fields it fills in. *)

Definition l4_ok (proto : Z) (p : list Z) (have room : Z) (first : bool) : bool :=
  if bool_decide (proto = 6) then
    bool_decide (20 <= have) && bool_decide (5 <= nb p 12 / 16) &&
    (first || bool_decide (nb p 12 / 16 * 4 <= room))
  else if bool_decide (proto = 17) then
    bool_decide (8 <= have) && bool_decide (8 <= be p 4) && (first || bool_decide (be p 4 <= room))
  else if bool_decide (proto = 1) || bool_decide (proto = 58) then bool_decide (8 <= have)
  else true.

Definition l4_kind (proto : Z) : L4Kind :=
  if bool_decide (proto = 6) then L4Tcp
  else if bool_decide (proto = 17) then L4Udp
  else if bool_decide (proto = 1) then L4Icmp
  else if bool_decide (proto = 58) then L4Icmpv6
  else L4Other.

Definition l4_fields (proto : Z) (p : list Z) (out : ParsedFrame) : ParsedFrame :=
  let out := set_l4 (l4_kind proto) out in
  match l4_kind proto with
  | L4Tcp => set_tcp_flags (nb p 13) (set_ports (be p 0) (be p 2) out)
  | L4Udp => set_ports (be p 0) (be p 2) out
  | L4Icmp | L4Icmpv6 => set_ports (be p 4) (be p 4) (set_icmp (nb p 0) (nb p 1) out)
  | _ => out
  end.

Lemma nle_decide (a b : Z) : bool_decide (a < b) = negb (bool_decide (b <= a)).
Proof. repeat case_bool_decide; simpl; try done; lia. Qed.

Lemma CheckL4_spec fill proto p have room first out :
  octets p -> 0 <= have <= size p ->
  CheckL4 fill proto p have room first out =
  Ret (if l4_ok proto p have room first then kOk else kMalformed,
       if l4_ok proto p have room first && fill then l4_fields proto p out else out).
Proof.
  intros Hp Hh. unfold CheckL4, l4_ok, l4_fields, l4_kind.
  case_bool_decide as H6; [| case_bool_decide as H17; [| case_bool_decide as H1; [| case_bool_decide as H58]]];
    cbn [orb]; rewrite ?nle_decide.
  - case_bool_decide; [| done]. cbn [andb negb]. reads. rewrite Z.shiftr_div_pow2 by lia. change (2 ^ 4) with 16.
    rewrite !nle_decide. destruct (bool_decide (5 <= _)), (bool_decide (_ <= room)), first, fill; reads; done.
  - case_bool_decide; [| done]. cbn [andb negb]. reads.
    rewrite !nle_decide. destruct (bool_decide (8 <= _)), (bool_decide (_ <= room)), first, fill; reads; done.
  - case_bool_decide; [| done]. destruct fill; reads; done.
  - case_bool_decide; [| done]. destruct fill; reads; done.
  - by destruct fill.
Qed.

Lemma l4_fields_l3 proto p out : l3 (l4_fields proto p out) = l3 out.
Proof. unfold l4_fields. by destruct (l4_kind proto). Qed.

Lemma ParseL4_spec ip present total off base out :
  octets ip -> 0 <= off <= present -> present <= size ip -> present <= total < 2 ^ 64 ->
  ParseL4 ip present total off base out =
  let out := set_l4_place (base + off) (total - off) out in
  let ok := l4_ok (protocol out) (ptr ip off) (present - off) (total - off) (first_fragment out) in
  Ret (if ok then kOk else kMalformed, if ok then l4_fields (protocol out) (ptr ip off) out else out).
Proof.
  intros Hip Ho Hp Ht. unfold ParseL4. rewrite !minus_small by lia.
  replace (if bool_decide _ then _ else 0) with (present - off) by (case_bool_decide; lia).
  rewrite CheckL4_spec; [by rewrite andb_true_r | by apply octets_ptr | rewrite size_ptr; lia].
Qed.

End Transport.
