(* ===== verification/ParseFast.v ===== *)
(** * The fast path of the packet parse

    [ParseFrame] takes the common frame through [FastFrame]: for every frame
    and every stated length it decides, and fills in, what the general path
    would. *)

From S2P Require Import Prelude PacketParse ParseReads.
Open Scope Z_scope.

Module Fast.
Import Parse Reads Transport.

(** ** The frame the fast path takes *)

Definition common (frame : list Z) : Prop :=
  34 <= size frame ∧ nb frame 12 = 8 ∧ nb frame 13 = 0 ∧ nb frame 14 = 0x45.

Lemma IsCommonFrame_spec frame :
  octets frame -> ∃ b, IsCommonFrame frame = Ret b ∧ (b = true <-> common frame).
Proof.
  intros Hf. unfold IsCommonFrame, common. case_bool_decide; [exists false; split; [done | split; [done | lia]] |].
  reads. pose proof (nb_range frame 12 Hf). pose proof (nb_range frame 13 Hf).
  case_bool_decide; [exists false; split; [done | split; [done | lia]] |].
  reads. eexists. split; [done |]. rewrite bool_decide_eq_true. lia.
Qed.

(** A check of every value of two bytes. *)
Lemma two_bytes (f : Z -> Z -> bool) a b :
  forallb (fun a => forallb (f a) (seqZ 0 256)) (seqZ 0 256) = true ->
  0 <= a < 256 -> 0 <= b < 256 -> f a b = true.
Proof.
  intros H Ha Hb. rewrite forallb_forall in H.
  assert (∀ x, 0 <= x < 256 -> In x (seqZ 0 256)) as Hin.
  { intros x Hx. apply list_elem_of_In, elem_of_seqZ. lia. }
  specialize (H a (Hin a Ha)). rewrite forallb_forall in H. apply H, Hin, Hb.
Qed.

(** The masked word of the accept test: neither an offset nor more fragments. *)
Lemma frag_clear a b :
  0 <= a < 256 -> 0 <= b < 256 -> Z.land (b * 256 + a) 0xff3f = 0 ->
  Z.land (a * 256 + b) 0x1fff = 0 ∧ Z.land (a * 256 + b) 0x2000 = 0.
Proof.
  intros Ha Hb H.
  pose proof (two_bytes (fun a b => negb (Z.land (b * 256 + a) 0xff3f =? 0) ||
    ((Z.land (a * 256 + b) 0x1fff =? 0) && (Z.land (a * 256 + b) 0x2000 =? 0))) a b) as Ht.
  specialize (Ht ltac:(vm_compute; reflexivity) Ha Hb). simpl in Ht.
  rewrite H in Ht. simpl in Ht. apply andb_prop in Ht as [H1 H2]. lia.
Qed.

(** ** What both paths compute for a common frame *)

Definition common_parse (frame : list Z) (tl : Z) : FastIpv4 * ParsedFrame :=
  let total := be frame 16 in
  let proto := nb frame 23 in
  let out := set_l3_offset 14 parsed0 in
  if bool_decide (total < 20) || bool_decide (tl - 14 < total)
  then (mk_fast true false false 0 0 kMalformed, out)
  else
    let out := set_addrs (slice frame 26 4) (slice frame 30 4)
                 (set_protocol proto (set_l3 L3Ipv4 out)) in
    if bool_decide (Z.land (be frame 20) 0x1fff <> 0)
    then (mk_fast true true false proto total kFragment, out)
    else
      let first := bool_decide (Z.land (be frame 20) 0x2000 <> 0) in
      let out := set_l4_place 34 (total - 20) (set_first_fragment first out) in
      let ok := l4_ok proto (ptr frame 34) (Z.min (size frame - 14) total - 20) (total - 20) first in
      (mk_fast true true first proto total (if ok then kOk else kMalformed),
       if ok then l4_fields proto (ptr frame 34) out else out).

Section Common.
Context (frame : list Z) (tl : Z).
Context (Hf : octets frame) (Hc : common frame) (Htl : size frame <= tl < 2 ^ 64).

#[local] Lemma at_ip : 34 <= size frame ∧ size (ptr frame 14) = size frame - 14 ∧ octets (ptr frame 14) ∧
  size (ptr frame 34) = size frame - 34 ∧ octets (ptr frame 34) ∧ 0 <= be frame 16 < 65536.
Proof using Hf Hc.
  destruct Hc as [Hs _].
  split_and!; [done | apply size_ptr; lia | by apply octets_ptr | apply size_ptr; lia | by apply octets_ptr | ..];
    by apply be_range.
Qed.

Lemma slow_common fill :
  slow_checks fill frame (ptr frame 14) (be frame 16) tl parsed0 =
  Ret (fst (common_parse frame tl), if fill then snd (common_parse frame tl) else parsed0).
Proof using Hf Hc Htl.
  destruct at_ip as (Hs & Hsz & Hip & Hsz4 & Hl4 & Ht). unfold slow_checks, common_parse.
  rewrite !(minus_small (size frame) 14), !(minus_small tl 14) by lia.
  destruct (bool_decide (be frame 16 < 20) || bool_decide (tl - 14 < be frame 16)) eqn:Hlen; [by destruct fill |].
  apply orb_false_elim in Hlen as [Hl1 Hl2]. apply bool_decide_eq_false in Hl1, Hl2.
  rewrite (wrap_small 16 (be frame 16)) by (unfold in_width; lia).
  reads. rewrite !nb_ptr by lia. zconst. destruct fill; reads;
    rewrite !be_ptr, ?slice_ptr, ?ptr_ptr by lia; zconst;
    (destruct (bool_decide (Z.land _ 0x1fff <> 0)); [done |]); rewrite !minus_small by lia;
    rewrite CheckL4_spec by (first [done | lia]); cbn [mbind mret run_bind run_ret]; [by rewrite andb_true_r |].
  by rewrite andb_false_r.
Qed.

Lemma general_common :
  ParseFrameGeneral frame parsed0 tl =
  Ret (f_status (fst (common_parse frame tl)), snd (common_parse frame tl)).
Proof using Hf Hc Htl.
  destruct at_ip as (Hs & Hsz & Hip & Hsz4 & Hl4 & Ht). destruct Hc as (_ & H12 & H13 & H14).
  unfold ParseFrameGeneral, common_parse.
  rewrite bool_decide_eq_false_2 by lia. reads. unfold be at 1. zconst. rewrite H12, H13.
  change (8 * 256 + 0) with 2048.
  simpl skip_tags. cbn [mbind mret run_bind run_ret]. zconst.
  rewrite (bool_decide_eq_false_2 (2048 <> 2048)) by (intros []; done). cbn [andb].
  unfold ParseIp. rewrite (minus_small (size frame) 14), (minus_small tl 14) by lia.
  rewrite (bool_decide_eq_false_2 (size frame - 14 < 1)) by lia. reads. rewrite nb_ptr by lia. zconst. rewrite H14.
  change (Z.shiftr 69 4) with 4. change (Z.land 69 15 * 4) with 20.
  rewrite (bool_decide_eq_true_2 (4 = 4)) by done.
  rewrite (bool_decide_eq_false_2 (size frame - 14 < 20)) by lia.
  rewrite (bool_decide_eq_false_2 (20 < 20)) by lia. cbn [orb]. reads. rewrite be_ptr by lia. zconst.
  destruct (bool_decide (be frame 16 < 20) || bool_decide (tl - 14 < be frame 16)) eqn:Hlen; [done |].
  apply orb_false_elim in Hlen as [Hl1 Hl2]. apply bool_decide_eq_false in Hl1, Hl2.
  reads. rewrite !nb_ptr, !be_ptr, !slice_ptr by lia. zconst.
  destruct (bool_decide (Z.land _ 0x1fff <> 0)); [done |].
  rewrite ParseL4_spec, ptr_ptr by (first [done | lia]). zconst.
  cbn [mbind mret run_bind run_ret protocol first_fragment set_l4_place set_first_fragment set_addrs
       set_protocol set_l3 set_l3_offset].
  destruct (l4_ok _ _ _ _ _); [| done]. rewrite l4_fields_l3. done.
Qed.

(** ** The accept test *)

Lemma accept_l4_spec total :
  54 <= size frame ->
  ∃ b, accept_l4 (ptr frame 14) total = Ret b ∧
    (b = true ->
     (nb frame 23 = 17 ∧ 8 <= be frame 38 ∧ be frame 38 + 20 <= total) ∨
     (nb frame 23 = 6 ∧ 5 <= nb frame 46 / 16 ∧ nb frame 46 / 16 * 4 + 20 <= total)).
Proof using Hf Hc.
  destruct at_ip as (Hs & Hsz & Hip & _). intros Hb. unfold accept_l4. zconst. reads.
  rewrite nb_ptr by lia. zconst. case_bool_decide as H17.
  - rewrite be_ptr by lia. zconst. eexists. split; [done |]. intros [H1 H2]%andb_prop.
    apply bool_decide_eq_true in H1, H2. left. done.
  - case_bool_decide as H6; [| by eexists]. rewrite nb_ptr by lia. zconst. eexists. split; [done |].
    intros [H1 H2]%andb_prop. apply bool_decide_eq_true in H1, H2.
    rewrite Z.shiftr_div_pow2, Z.shiftl_mul_pow2 in H2 by lia. right. split; [done |].
    change (2 ^ 4) with 16 in H2. split; [| lia]. apply Z.div_le_lower_bound; lia.
Qed.

Lemma accepted_common :
  54 <= size frame -> Z.land (nb frame 21 * 256 + nb frame 20) 0xff3f = 0 ->
  accept_l4 (ptr frame 14) (be frame 16) = Ret true -> be frame 16 + 14 <= tl ->
  ∃ out, accept_fields (ptr frame 14) (be frame 16) parsed0 = Ret out ∧
    common_parse frame tl = (mk_fast true true false (nb frame 23) (be frame 16) kOk, out).
Proof using Hf Hc Htl.
  intros Hb Hfr Hacc Hlen. destruct at_ip as (Hs & Hsz & Hip & Hsz4 & Hl4 & Ht).
  destruct (accept_l4_spec (be frame 16) Hb) as (b & Hb2 & Hcase). rewrite Hb2 in Hacc.
  injection Hacc as ->. specialize (Hcase eq_refl).
  destruct (frag_clear (nb frame 20) (nb frame 21)) as [Hz1 Hz2]; [by apply nb_range.. | done |].
  pose proof (nb_range frame 46 Hf). assert (28 <= be frame 16) by lia.
  unfold common_parse, accept_fields. zconst.
  assert (be frame 20 = nb frame 20 * 256 + nb frame 21) as -> by done.
  rewrite Hz1, Hz2, (bool_decide_eq_false_2 (be frame 16 < 20)), (bool_decide_eq_false_2 (tl - 14 < be frame 16)) by lia.
  cbn [orb]. rewrite !(bool_decide_eq_false_2 (0 <> 0)) by (intros []; done). rewrite minus_small by lia.
  rewrite (byte_ok (ptr frame 14) 9), (nb_ptr frame 14 9) by lia. zconst. cbn [mbind mret run_bind run_ret].
  unfold l4_ok, l4_fields, l4_kind. destruct Hcase as [(Hp & H1 & H2) | (Hp & H1 & H2)]; rewrite Hp;
    change (bool_decide (17 = 6)) with false; change (bool_decide (17 = 17)) with true;
    change (bool_decide (6 = 6)) with true; cbn iota; reads; rewrite !be_ptr, !slice_ptr, ?nb_ptr by lia; zconst;
    rewrite !bool_decide_eq_true_2 by lia; eexists; (split; [done |]); cbn [andb orb];
    rewrite ?be_ptr, ?nb_ptr by lia; done.
Qed.

Lemma FastFrame_common fill tl0 :
  tl = Z.max tl0 (size frame) ->
  FastFrame fill frame tl0 parsed0 =
  Ret (fst (common_parse frame tl), if fill then snd (common_parse frame tl) else parsed0).
Proof using Hf Hc Htl.
  intros Heq. destruct at_ip as (Hs & Hsz & Hip & Hsz4 & Hl4 & Ht). unfold FastFrame.
  destruct (IsCommonFrame_spec frame Hf) as (b & -> & Hb).
  destruct b; [| by apply Hb in Hc]. cbn [mbind mret run_bind run_ret negb]. rewrite <- Heq.
  reads. rewrite be_ptr by lia. zconst. unfold kFastAcceptBytes.
  case_bool_decide as H54; [| apply slow_common]. reads. rewrite !nb_ptr by lia. zconst.
  case_bool_decide as Hfr; [| apply slow_common].
  destruct (accept_l4_spec (be frame 16) H54) as (ok & Hok & _). rewrite Hok. cbn [mbind mret run_bind run_ret].
  destruct ok; [| apply slow_common]. cbn [andb]. case_bool_decide as Hlen; [| apply slow_common].
  destruct (accepted_common H54 Hfr Hok Hlen) as (out & Ho & ->). rewrite Ho. reads.
  rewrite wrap_small by (unfold in_width; lia). by destruct fill.
Qed.

End Common.

(** ** The parse, by its general path *)

Lemma ParseFrame_general frame total_len :
  octets frame -> size frame < 2 ^ 64 -> in_width 64 total_len ->
  ParseFrame frame total_len = ParseFrameGeneral frame parsed0 (Z.max total_len (size frame)).
Proof.
  intros Hf Hs Htl. unfold in_width in Htl. unfold ParseFrame.
  destruct (IsCommonFrame_spec frame Hf) as (b & -> & Hiff). cbn [mbind mret run_bind run_ret].
  destruct b; [| done]. assert (common frame) as Hc by tauto.
  assert (size frame <= Z.max total_len (size frame) < 2 ^ 64) as Ht by lia.
  by rewrite (FastFrame_common frame _ Hf Hc Ht), (general_common frame _ Hf Hc Ht).
Qed.

End Fast.
