(* ===== verification/ParseProps.v ===== *)
(** * What the packet parse promises

    The fast path agrees with the general one on every frame; no frame makes
    the parse read past it, and what it accepts lies inside it. *)

From S2P Require Import Prelude PacketParse ParseReads ParseFast.
Open Scope Z_scope.

Module ParseProps.
Import Parse Reads Transport Fast.

(** ** Where an accepted packet lies *)

Definition header_bytes (k : L4Kind) : Z :=
  match k with
  | L4Tcp => 20
  | L4Udp | L4Icmp | L4Icmpv6 => 8
  | _ => 0
  end.

(** The addresses a header at [off] carries, as [ParsedFrame] stores them. *)
Definition addrs_at (frame : list Z) (off : Z) (k : L3Kind) : list Z * list Z :=
  match k with
  | L3Ipv4 => (slice frame (off + 12) 4 ++ replicate 12 0, slice frame (off + 16) 4 ++ replicate 12 0)
  | L3Ipv6 => (slice frame (off + 8) 16, slice frame (off + 24) 16)
  | L3None => ([], [])
  end.

(** The parse [out] describes a packet whose headers are in [frame] and whose
    bytes end by [limit]; its fields are the ones found there. *)
Record located (frame : list Z) (limit : Z) (out : ParsedFrame) : Prop := {
  loc_version : l3 out = if bool_decide (nb frame (l3_offset out) / 16 = 4) then L3Ipv4 else L3Ipv6;
  loc_addrs : (src out, dst out) = addrs_at frame (l3_offset out) (l3 out);
  loc_kind : l4 out = l4_kind (protocol out);
  loc_order : l3_offset out + 20 <= l4_offset out;
  loc_header : l4_offset out + header_bytes (l4 out) <= size frame;
  loc_end : l4_offset out + l4_length out <= limit;
  loc_fields : l4_fields (protocol out) (ptr frame (l4_offset out)) out = out
}.

Lemma l4_ok_header proto p have room first :
  0 <= have -> l4_ok proto p have room first = true -> header_bytes (l4_kind proto) <= have.
Proof.
  intros Hh. unfold l4_ok, l4_kind. repeat case_bool_decide; simpl; try lia; intros; try done;
    repeat match goal with H : _ && _ = true |- _ => apply andb_prop in H as [? ?] end;
    repeat match goal with H : bool_decide _ = true |- _ => apply bool_decide_eq_true in H end; lia.
Qed.

(** ** The transport *)

Lemma l4_fields_keep proto p out :
  let out' := l4_fields proto p out in
  l3 out' = l3 out ∧ l4 out' = l4_kind proto ∧ protocol out' = protocol out ∧ l3_offset out' = l3_offset out ∧
  l4_offset out' = l4_offset out ∧ l4_length out' = l4_length out ∧ src out' = src out ∧ dst out' = dst out ∧
  l4_fields proto p out' = out'.
Proof. unfold l4_fields. destruct (l4_kind proto) eqn:Hk; simpl; by rewrite ?Hk. Qed.

Section Ip.
Context (frame : list Z) (Hf : octets frame).

(** The transport of a packet at [base] whose other fields are right. *)
Lemma ParseL4_located base present total off out :
  0 <= base -> base + 20 <= base + off -> off <= present -> base + present <= size frame ->
  base + off < 2 ^ 16 -> present <= total -> total - off < 2 ^ 16 ->
  l3_offset out = base ->
  l3 out = (if bool_decide (nb frame base / 16 = 4) then L3Ipv4 else L3Ipv6) ->
  (src out, dst out) = addrs_at frame base (l3 out) ->
  ∃ s out', ParseL4 (ptr frame base) present total off base out = Ret (s, out') ∧
    l3 out' = l3 out ∧ (s = kOk -> l3_offset out' = base ∧ located frame (base + total) out').
Proof using Hf.
  intros Hb Ho Hp Hs H16 Ht H16' Hl3o Hl3 Haddr. pose proof (size_nonneg frame).
  pose proof (size_ptr frame base ltac:(lia)) as Hsz.
  rewrite ParseL4_spec by (first [by apply octets_ptr | lia]). rewrite ptr_ptr by lia. cbv zeta.
  cbn [protocol first_fragment set_l4_place].
  destruct (l4_ok _ _ _ _ _) eqn:Hok; eexists _, _; (split; [done |]); [| done].
  destruct (l4_fields_keep (protocol out) (ptr frame (base + off)) (set_l4_place (base + off) (total - off) out))
    as (H1 & H2 & H3 & H4 & H5 & H6 & H7 & H8 & H9). split; [by rewrite H1 |]. intros _.
  apply l4_ok_header in Hok; [| lia]. split; [by rewrite H4 |].
  cbn [l3 l4 protocol l3_offset l4_offset l4_length src dst set_l4_place] in *.
  rewrite (wrap_small 16 (base + off)) in * by (unfold in_width; lia).
  rewrite (wrap_small 16 (total - off)) in * by (unfold in_width; lia).
  split; rewrite ?H1, ?H2, ?H3, ?H4, ?H5, ?H6, ?H7, ?H8, ?Hl3o; try done; lia.
Qed.

(** ** The extension headers *)

Local Ltac stop := eexists _, _, _; (split; [done |]); split_and!; done.

Lemma walk_located ip have todo next off out :
  octets ip -> 0 <= off <= have -> have <= size ip ->
  ∃ s off' out', walk_chain todo ip have next off out = Ret (s, off', out') ∧
    l3 out' = l3 out ∧ l3_offset out' = l3_offset out ∧ src out' = src out ∧ dst out' = dst out ∧
    (s = kOk -> off <= off' <= have ∧ off' <= off + 2048 * Z.of_nat todo).
Proof.
  intros Hip. revert next off out. induction todo as [| todo IH]; intros next off out Ho Hh; simpl.
  { stop. }
  pose proof (λ i, nb_range ip i Hip) as Hnb.
  assert (∀ next len out', 0 < len <= 2048 -> off + len <= have ->
    l3 out' = l3 out -> l3_offset out' = l3_offset out -> src out' = src out -> dst out' = dst out ->
    ∃ s off' out'', walk_chain todo ip have next (off + len) out' = Ret (s, off', out'') ∧
      l3 out'' = l3 out ∧ l3_offset out'' = l3_offset out ∧ src out'' = src out ∧ dst out'' = dst out ∧
      (s = kOk -> off <= off' <= have ∧ off' <= off + 2048 * Z.of_nat (S todo))) as Hrec.
  { intros nx len out1 Hl Hle E1 E2 E3 E4.
    destruct (IH nx (off + len) out1) as (s & off' & out2 & -> & F1 & F2 & F3 & F4 & F5); [lia.. |].
    eexists _, _, _. split; [done |]. rewrite F1, F2, F3, F4. split_and!; try done.
    intros Hk. specialize (F5 Hk). lia. }
  destruct (_ && _).
  { case_bool_decide as H1; [stop |]. reads.
    case_bool_decide as H2; [stop |]. reads.
    specialize (Hnb (off + 1)). apply Hrec; try done; lia. }
  case_bool_decide as H44.
  { case_bool_decide as H1; [stop |]. reads.
    destruct (negb _); [stop |]. apply Hrec; try done; lia. }
  case_bool_decide as H51.
  { unfold AhLength. case_bool_decide as H1; [stop |]. reads.
    specialize (Hnb (off + 1)). destruct (bool_decide (have < off + _)) eqn:H2; [stop |].
    apply bool_decide_eq_false in H2. rewrite bool_decide_eq_false_2 by lia. reads. apply Hrec; try done; lia. }
  eexists _, _, _. split; [done |]. split_and!; try done; lia.
Qed.

(** ** The IP header *)

Lemma slice_length p off n : 0 <= off -> 0 <= n -> off + n <= size p -> length (slice p off n) = Z.to_nat n.
Proof. intros Ho Hn Hs. unfold slice, size in *. rewrite length_take, length_drop. lia. Qed.

Local Ltac refuse := eexists _, _; (split; [done |]); by intros [=].

(** Case analysis on the test at the head of the run of the goal. *)
Local Ltac head_if H :=
  match goal with
  | |- context [(if ?b then _ else _) = Ret _] => destruct b eqn:H
  | |- context [(mbind _ (if ?b then _ else _)) = Ret _] => destruct b eqn:H
  end;
  try first [apply bool_decide_eq_true in H | apply bool_decide_eq_false in H].

Lemma ParseIp_located base limit :
  0 <= base <= 22 -> base <= size frame -> size frame - base <= limit < 2 ^ 64 ->
  ∃ s out, ParseIp (ptr frame base) (size frame - base) limit base parsed0 = Ret (s, out) ∧
    (s = kOk -> l3_offset out = base ∧ located frame (base + limit) out).
Proof using Hf.
  intros Hb Hs Hl. pose proof (octets_ptr frame base Hf) as Hip. pose proof (size_ptr frame base ltac:(lia)) as Hsz.
  unfold ParseIp. head_if H1; [refuse |]. reads. rewrite nb_ptr by lia. rewrite Z.add_0_r.
  rewrite Z.shiftr_div_pow2 by lia. change (2 ^ 4) with 16. pose proof (nb_range frame base Hf) as Hb0.
  assert (∀ total s out, total <= limit -> (s = kOk -> l3_offset out = base ∧ located frame (base + total) out) ->
    s = kOk -> l3_offset out = base ∧ located frame (base + limit) out) as Hweak.
  { intros total s out Ht Hloc Hk. destruct (Hloc Hk) as [H2 []]. split; [done |]. split; try done. lia. }
  head_if H4.
  - set (ihl := Z.land _ 0x0f * 4). head_if Hc; [refuse |].
    apply orb_false_elim in Hc as [[Hc1 Hc2]%orb_false_elim Hc3].
    apply bool_decide_eq_false in Hc1, Hc2, Hc3. reads.
    head_if Hc; [refuse |]. apply orb_false_elim in Hc as [Hc4 Hc5].
    apply bool_decide_eq_false in Hc4, Hc5. reads. rewrite !slice_ptr by lia.
    head_if Hfr; [refuse |].
    pose proof (be_range _ 2 Hip). assert (ihl <= 60) as H60.
    { unfold ihl. change 0x0f with (Z.ones 4). rewrite Z.land_ones by lia.
      pose proof (Z.mod_pos_bound (nb frame base) (2 ^ 4) ltac:(lia)). lia. }
    match goal with |- context [ParseL4 _ ?a ?b ?c ?d ?o] =>
      destruct (ParseL4_located d a b c o) as (s & out & Hp & _ & Hok) end; try lia.
    + simpl. rewrite wrap_small; [done |]. unfold in_width; lia.
    + by rewrite (bool_decide_eq_true_2 _ H4).
    + simpl. rewrite !slice_length by lia. done.
    + rewrite Hp. eexists _, _. split; [done |]. eapply Hweak; [| done]. lia.
  - head_if H6; [| refuse]. head_if H40; [refuse |]. reads. head_if Hlim; [refuse |]. reads.
    rewrite !slice_ptr by lia. pose proof (be_range _ 4 Hip). unfold WalkIpv6Chain. reads.
    match goal with |- context [walk_chain ?n ?p ?h ?x 40 ?o] =>
      destruct (walk_located p h n x 40 o) as (s & off & out & -> & F1 & F2 & F3 & F4 & F5) end; [done | lia.. |].
    cbn [mbind mret run_bind run_ret]. head_if Hk; [eexists _, _; split; [done | by intros ->] |].
    apply dec_stable in Hk as ->. destruct (F5 eq_refl) as [F6 F7].
    unfold kMaxExtensionHeaders in F7.
    match goal with |- context [ParseL4 _ ?a ?b ?c ?d ?o] =>
      destruct (ParseL4_located d a b c o) as (s & out' & Hp & _ & Hok) end; try lia.
    + rewrite F2. simpl. rewrite wrap_small; [done |]. unfold in_width; lia.
    + by rewrite F1, (bool_decide_eq_false_2 _ H4).
    + rewrite F1, F3, F4. simpl. rewrite !slice_length by lia. rewrite !drop_ge by done. by rewrite !app_nil_r.
    + rewrite Hp. eexists _, _. split; [done |]. eapply Hweak; [| done]. lia.
Qed.

(** ** The frame *)

Lemma skip_tags_ok tags off type :
  0 <= off -> off + 2 <= size frame ->
  ∃ r, skip_tags tags frame off type = Ret r ∧
    ∀ off' type', r = Some (off', type') -> off <= off' <= off + 4 * Z.of_nat tags ∧ off' + 2 <= size frame.
Proof using Hf.
  revert off type. induction tags as [| tags IH]; intros off type Ho Hs; simpl.
  { eexists. split; [done |]. intros off' type' [= <- <-]. lia. }
  destruct (_ || _); [| eexists; split; [done | intros off' type' [= <- <-]; lia]].
  case_bool_decide; [by eexists |]. reads.
  destruct (IH (off + 4) (be frame (off + 4))) as (r & -> & Hr); [lia.. |].
  eexists. split; [done |]. intros off' type' Hr'. specialize (Hr off' type' Hr'). lia.
Qed.

Lemma ParseFrameGeneral_located tl :
  size frame <= tl < 2 ^ 64 ->
  ∃ s out, ParseFrameGeneral frame parsed0 tl = Ret (s, out) ∧
    (s = kOk -> 14 <= l3_offset out ∧ located frame tl out).
Proof using Hf.
  intros Htl. unfold ParseFrameGeneral. case_bool_decide; [by eexists _, _ |]. reads.
  destruct (skip_tags_ok 2 12 (be frame 12)) as (r & -> & Hr); [lia.. |]. cbn [mbind mret run_bind run_ret].
  destruct r as [[off type] |]; [| by eexists _, _]. specialize (Hr _ _ eq_refl).
  destruct (_ && _); [by eexists _, _ |]. rewrite !minus_small by lia.
  destruct (ParseIp_located (off + 2) (tl - (off + 2))) as (s & out & -> & Hok); [lia.. |].
  cbn [mbind mret run_bind run_ret]. eexists _, _. split; [done |]. destruct (_ && _); [done |].
  intros Hs. destruct (Hok Hs) as [H1 H2]. replace (off + 2 + _) with tl in H2 by lia. split; [lia | done].
Qed.

End Ip.

(** C14. The parse decides by its general path: for every frame and every stated
    length [ParseFrame] is [ParseFrameGeneral], and where [CheckFastIpv4] takes
    the frame, its status is the parse's, and the protocol, the addresses and
    the ports at the fixed offsets are the ones the parse records. *)
Theorem parse_fast_path_agrees frame total_len :
  octets frame -> size frame < 2 ^ 64 -> in_width 64 total_len ->
  ParseFrame frame total_len = ParseFrameGeneral frame parsed0 (Z.max total_len (size frame)) ∧
  ∃ f, CheckFastIpv4 frame total_len = Ret f ∧
    (taken f = true ->
     ∃ out, ParseFrame frame total_len = Ret (f_status f, out) ∧
       (header_ok f = true ->
        protocol out = f_protocol f ∧ (src out, dst out) = addrs_at frame 14 L3Ipv4 ∧
        (f_status f = kOk -> l4_kind (f_protocol f) ∈ [L4Tcp; L4Udp] ->
         (src_port out, dst_port out) = (be frame 34, be frame 36)))).
Proof.
  intros Hf Hs Htl. split; [by apply ParseFrame_general |]. unfold in_width in Htl.
  unfold ParseFrame, CheckFastIpv4. destruct (IsCommonFrame_spec frame Hf) as (b & Hb & Hiff). destruct b.
  - assert (common frame) as Hc by tauto. set (tl := Z.max total_len (size frame)).
    assert (size frame <= tl < 2 ^ 64) as Ht by (unfold tl; lia).
    rewrite Hb, !(FastFrame_common frame tl Hf Hc Ht) by done. cbn [mbind mret run_bind run_ret].
    eexists. split; [done |]. intros _. eexists. split; [done |].
    destruct Hc as [Hs34 _]. unfold common_parse. destruct (_ || _); [done |]. intros _.
    case_bool_decide; simpl; rewrite ?slice_length by lia; [done |].
    destruct (l4_ok _ _ _ _ _); simpl; rewrite ?slice_length by lia; [| done].
    unfold l4_fields. destruct (l4_kind (nb frame 23)); simpl; rewrite ?slice_length by lia;
      (split_and!; [done.. |]); intros _ Hk; try (exfalso; set_solver); by rewrite !be_ptr by lia.
  - unfold FastFrame. rewrite Hb. by eexists.
Qed.

(** C16. The parse reads inside the frame, whatever its bytes and the length it
    states: it always returns, and a packet it accepts has its headers in the
    frame and its end by the packet's length, with offsets and lengths that fit
    their 16 bits, and every field is the one found at those offsets. *)
Theorem parse_stays_in_frame frame total_len :
  octets frame -> size frame < 2 ^ 64 -> in_width 64 total_len ->
  ∃ s out, ParseFrame frame total_len = Ret (s, out) ∧
    (s = kOk -> 14 <= l3_offset out ∧ located frame (Z.max total_len (size frame)) out).
Proof.
  intros Hf Hs Htl. rewrite ParseFrame_general by done. unfold in_width in Htl.
  apply ParseFrameGeneral_located; [done | lia].
Qed.
End ParseProps.
