(* ===== verification/ParseRoundtrip.v ===== *)
(** * Packets written out and parsed

    A description of the packets the parse follows (tagged Ethernet, IPv4 with
    options, IPv6 with extension headers, TCP, UDP, ICMP and other transports),
    their bytes as the protocols lay them out, and the fields the parse finds
    in those bytes. *)

From S2P Require Import Prelude PacketParse ParseReads ParseFast ParseProps.
Open Scope Z_scope.

Module Roundtrip.
Import Parse Reads Transport Fast.

Definition be16 (x : Z) : list Z := [x / 256; x mod 256].

(** ** Packets *)

Inductive transport :=
  | Tcp (sport dport seq_hi seq_lo ack_hi ack_lo flags window sum urgent : Z) (options data : list Z)
  | Udp (sport dport sum : Z) (data : list Z)
  | Icmp (v6 : bool) (type code sum ident seq : Z) (data : list Z)
  | Other (proto : Z) (data : list Z).

(** An IPv6 extension header, without its next-header byte. *)
Inductive extension :=
  | Options (kind units : Z) (body : list Z)
  | Fragment0 (reserved : Z) (more : bool) (id_hi id_lo : Z)
  | Auth (units : Z) (body : list Z).

Inductive network :=
  | Ipv4 (tos ident : Z) (df mf : bool) (ttl sum : Z) (source dest options : list Z)
  | Ipv6 (class flow_hi flow_lo hops : Z) (source dest : list Z) (exts : list extension).

Record packet := mk_packet {
  macs : list Z;
  tags : list (bool * Z);      (* 802.1ad or 802.1Q, and the tag *)
  net : network;
  trans : transport;
  padding : list Z
}.

(** ** Their bytes *)

Definition proto_of (t : transport) : Z :=
  match t with
  | Tcp _ _ _ _ _ _ _ _ _ _ _ _ => 6
  | Udp _ _ _ _ => 17
  | Icmp v6 _ _ _ _ _ _ => if v6 then 58 else 1
  | Other p _ => p
  end.

Definition l4_bytes (t : transport) : list Z :=
  match t with
  | Tcp sp dp s1 s2 a1 a2 flags win sum urg options data =>
      be16 sp ++ be16 dp ++ be16 s1 ++ be16 s2 ++ be16 a1 ++ be16 a2 ++
      [(5 + size options / 4) * 16; flags] ++ be16 win ++ be16 sum ++ be16 urg ++ options ++ data
  | Udp sp dp sum data => be16 sp ++ be16 dp ++ be16 (8 + size data) ++ be16 sum ++ data
  | Icmp _ ty code sum ident sq data => [ty; code] ++ be16 sum ++ be16 ident ++ be16 sq ++ data
  | Other _ data => data
  end.

Definition ext_kind (e : extension) : Z :=
  match e with Options k _ _ => k | Fragment0 _ _ _ _ => 44 | Auth _ _ => 51 end.

Definition ext_bytes (next : Z) (e : extension) : list Z :=
  match e with
  | Options _ units body => [next; units] ++ body
  | Fragment0 reserved more i1 i2 =>
      [next; reserved; 0; if more then 1 else 0] ++ be16 i1 ++ be16 i2
  | Auth units body => [next; units] ++ body
  end.

Definition first_next (es : list extension) (final : Z) : Z :=
  match es with [] => final | e :: _ => ext_kind e end.

Fixpoint exts_bytes (es : list extension) (final : Z) : list Z :=
  match es with
  | [] => []
  | e :: es => ext_bytes (first_next es final) e ++ exts_bytes es final
  end.

Definition ip_bytes (n : network) (proto : Z) (payload : list Z) : list Z :=
  match n with
  | Ipv4 tos ident df mf ttl sum s d options =>
      [64 + (5 + size options / 4); tos] ++ be16 (20 + size options + size payload) ++ be16 ident ++
      [(if df then 64 else 0) + (if mf then 32 else 0); 0; ttl; proto] ++ be16 sum ++ s ++ d ++
      options ++ payload
  | Ipv6 class f1 f2 hops s d exts =>
      let body := exts_bytes exts proto ++ payload in
      [96 + class / 16; class mod 16 * 16 + f1] ++ be16 f2 ++ be16 (size body) ++
      [first_next exts proto; hops] ++ s ++ d ++ body
  end.

Definition tag_bytes (t : bool * Z) : list Z := be16 (if t.1 then 0x88a8 else 0x8100) ++ be16 t.2.

Definition ether_type (n : network) : Z :=
  match n with Ipv4 _ _ _ _ _ _ _ _ _ => 0x0800 | Ipv6 _ _ _ _ _ _ _ => 0x86dd end.

Definition frame_bytes (p : packet) : list Z :=
  macs p ++ concat (map tag_bytes (tags p)) ++ be16 (ether_type (net p)) ++
  ip_bytes (net p) (proto_of (trans p)) (l4_bytes (trans p)) ++ padding p.

(** ** Packets whose fields fit *)

Definition u16 (x : Z) : Prop := in_width 16 x.
Definition u8 (x : Z) : Prop := in_width 8 x.

Definition wf_transport (t : transport) : Prop :=
  match t with
  | Tcp sp dp s1 s2 a1 a2 flags win sum urg options data =>
      Forall u16 [sp; dp; s1; s2; a1; a2; win; sum; urg] ∧ u8 flags ∧ octets (options ++ data) ∧
      size options mod 4 = 0 ∧ size options <= 40
  | Udp sp dp sum data => Forall u16 [sp; dp; sum] ∧ octets data ∧ 8 + size data < 65536
  | Icmp _ ty code sum ident sq data => Forall u16 [sum; ident; sq] ∧ Forall u8 [ty; code] ∧ octets data
  | Other p data => u8 p ∧ (p ∉ [6; 17; 1; 58]) ∧ octets data
  end.

Definition wf_ext (e : extension) : Prop :=
  match e with
  | Options k units body => (k ∈ [0; 43; 60]) ∧ u8 units ∧ octets body ∧ size body = units * 8 + 6
  | Fragment0 r _ i1 i2 => u8 r ∧ Forall u16 [i1; i2]
  | Auth units body => u8 units ∧ octets body ∧ size body = units * 4 + 6
  end.

Definition wf_network (n : network) (proto : Z) (payload : list Z) : Prop :=
  match n with
  | Ipv4 tos ident _ _ ttl sum s d options =>
      Forall u16 [ident; sum] ∧ Forall u8 [tos; ttl] ∧ octets (s ++ d ++ options) ∧ length s = 4%nat ∧
      length d = 4%nat ∧ size options mod 4 = 0 ∧ size options <= 40 ∧
      20 + size options + size payload < 65536
  | Ipv6 class f1 f2 hops s d exts =>
      u16 f2 ∧ Forall u8 [class; hops] ∧ 0 <= f1 < 16 ∧ octets (s ++ d) ∧ length s = 16%nat ∧
      length d = 16%nat ∧ Forall wf_ext exts ∧ (length exts <= kMaxExtensionHeaders)%nat ∧
      (proto ∉ [0; 43; 60; 44; 51]) ∧ size (exts_bytes exts proto ++ payload) < 65536
  end.

Definition wf_packet (p : packet) : Prop :=
  length (macs p) = 12%nat ∧ octets (macs p ++ padding p) ∧
  (length (tags p) <= 2)%nat ∧ Forall (fun t => u16 t.2) (tags p) ∧
  wf_transport (trans p) ∧ wf_network (net p) (proto_of (trans p)) (l4_bytes (trans p)).

(** ** The fields a parse should find *)

Definition ports_of (t : transport) : Z * Z :=
  match t with
  | Tcp sp dp _ _ _ _ _ _ _ _ _ _ | Udp sp dp _ _ => (sp, dp)
  | Icmp _ _ _ _ ident _ _ => (ident, ident)
  | Other _ _ => (0, 0)
  end.

Definition flags_of (t : transport) : Z :=
  match t with Tcp _ _ _ _ _ _ flags _ _ _ _ _ => flags | _ => 0 end.

Definition icmp_of (t : transport) : Z * Z :=
  match t with Icmp _ ty code _ _ _ _ => (ty, code) | _ => (0, 0) end.

Definition ext_first (b : bool) (e : extension) : bool :=
  match e with Fragment0 _ more _ _ => more | _ => b end.

(** The kind, the length of the headers before the transport, the addresses and
    whether this is a first fragment. *)
Definition net_fields (n : network) (proto : Z) : L3Kind * Z * (list Z * list Z) * bool :=
  match n with
  | Ipv4 _ _ _ mf _ _ s d options =>
      (L3Ipv4, 20 + size options, (s ++ replicate 12 0, d ++ replicate 12 0), mf)
  | Ipv6 _ _ _ _ s d exts =>
      (L3Ipv6, 40 + size (exts_bytes exts proto), (s, d), fold_left ext_first exts false)
  end.

Definition fields (p : packet) : ParsedFrame :=
  let t := trans p in
  let base := 14 + 4 * size (map snd (tags p)) in
  let '(kind, header, (s, d), first) := net_fields (net p) (proto_of t) in
  mk_parsed kind (l4_kind (proto_of t)) (proto_of t) (flags_of t) base (base + header)
    (size (l4_bytes t)) s d (fst (ports_of t)) (snd (ports_of t)) (fst (icmp_of t)) (snd (icmp_of t)) first.

(** ** Bytes of a concatenation *)

Lemma size_app a b : size (a ++ b) = size a + size b.
Proof. unfold size. rewrite length_app. lia. Qed.

Lemma nb_skip a b i : 0 <= i -> nb (a ++ b) (size a + i) = nb b i.
Proof.
  intros Hi. unfold nb, size. rewrite !nth_lookup, lookup_app_r by lia. do 2 f_equal. lia.
Qed.

Lemma be_skip a b i : 0 <= i -> be (a ++ b) (size a + i) = be b i.
Proof. intros Hi. unfold be. rewrite <- Z.add_assoc, !nb_skip by lia. done. Qed.

Lemma ptr_skip a b : ptr (a ++ b) (size a) = b.
Proof. unfold ptr, size. rewrite Nat2Z.id. apply drop_app_length. Qed.

Lemma octets_be16 x : u16 x -> octets (be16 x).
Proof.
  unfold u16, in_width. intros Hx. pose proof (Z.div_pos x 256 ltac:(lia) ltac:(lia)).
  pose proof (Z.div_lt_upper_bound x 256 256 ltac:(lia) ltac:(lia)).
  pose proof (Z.mod_pos_bound x 256 ltac:(lia)). repeat constructor; lia.
Qed.

Lemma be16_value x : x / 256 * 256 + x mod 256 = x.
Proof. pose proof (Z.div_mod x 256 ltac:(lia)). lia. Qed.

(** ** The transport *)

Definition fresh (out : ParsedFrame) : Prop :=
  tcp_flags out = 0 ∧ src_port out = 0 ∧ dst_port out = 0 ∧ icmp_type out = 0 ∧ icmp_code out = 0.

Definition l4_set (t : transport) (o : ParsedFrame) : ParsedFrame :=
  mk_parsed (l3 o) (l4_kind (proto_of t)) (protocol o) (flags_of t) (l3_offset o) (l4_offset o) (l4_length o)
    (src o) (dst o) (fst (ports_of t)) (snd (ports_of t)) (fst (icmp_of t)) (snd (icmp_of t)) (first_fragment o).

Lemma l4_found t pad first out :
  wf_transport t -> fresh out ->
  l4_ok (proto_of t) (l4_bytes t ++ pad) (size (l4_bytes t)) (size (l4_bytes t)) first = true ∧
  l4_fields (proto_of t) (l4_bytes t ++ pad) out = l4_set t out.
Proof.
  intros Hwf (F1 & F2 & F3 & F4 & F5). destruct out as [o1 o2 o3 o4 o5 o6 o7 o8 o9 o10 o11 o12 o13 o14].
  simpl in *. subst. destruct t as [sp dp s1 s2 a1 a2 fl win sum urg options data | sp dp sum data | v6 ty code sum ident sq data | p data].
  - destruct Hwf as (_ & _ & _ & Hm & H40). unfold l4_ok. cbn [proto_of]. rewrite bool_decide_eq_true_2 by done.
    pose proof (size_nonneg options). pose proof (size_nonneg data).
    assert (size (l4_bytes (Tcp sp dp s1 s2 a1 a2 fl win sum urg options data)) = 20 + size options + size data) as ->
      by (unfold l4_bytes; rewrite !size_app; change (size (be16 _)) with 2; change (size [_; _]) with 2; lia).
    change (nb _ 12) with ((5 + size options / 4) * 16). rewrite Z.div_mul by lia.
    pose proof (Z.div_mod (size options) 4 ltac:(lia)).
    rewrite !bool_decide_eq_true_2 by lia. split; [by rewrite orb_true_r |].
    unfold l4_fields, l4_set. simpl. unfold be. simpl. unfold nb. simpl. by rewrite !be16_value.
  - destruct Hwf as (_ & _ & Hd). unfold l4_ok. cbn [proto_of]. simpl (bool_decide (17 = 6)). cbn iota.
    pose proof (size_nonneg data).
    assert (size (l4_bytes (Udp sp dp sum data)) = 8 + size data) as ->
      by (unfold l4_bytes; rewrite !size_app; change (size (be16 _)) with 2; lia).
    assert (be (l4_bytes (Udp sp dp sum data) ++ pad) 4 = 8 + size data) as -> by apply be16_value.
    rewrite !bool_decide_eq_true_2 by lia. split; [by rewrite orb_true_r |].
    unfold l4_fields, l4_set. simpl. unfold be, nb. simpl. by rewrite !be16_value.
  - assert (8 <= size (l4_bytes (Icmp v6 ty code sum ident sq data))) as H8.
    { unfold l4_bytes. rewrite !size_app. change (size (be16 _)) with 2. change (size [_; _]) with 2.
      pose proof (size_nonneg data). lia. }
    unfold l4_ok. destruct v6; (split; [by apply bool_decide_eq_true_2 |]);
      unfold l4_fields, l4_set; simpl; unfold be, nb; simpl; by rewrite !be16_value.
  - destruct Hwf as (_ & Hp & _). assert (p <> 6 ∧ p <> 17 ∧ p <> 1 ∧ p <> 58) as (N1 & N2 & N3 & N4) by set_solver.
    unfold l4_ok, l4_fields, l4_set, l4_kind. cbn [proto_of].
    rewrite !bool_decide_eq_false_2 by done. done.
Qed.

(** ** The bytes are bytes *)

Lemma l4_octets t : wf_transport t -> octets (l4_bytes t).
Proof.
  destruct t; cbn [wf_transport l4_bytes]; intros Hw; crush_ctx;
    repeat match goal with
    | H : Forall _ (_ :: _) |- _ => apply Forall_cons in H as [? H]
    | H : octets (_ ++ _) |- _ => apply octets_app in H as [? H]
    end;
    repeat match goal with |- octets (_ ++ _) => apply octets_app; split end;
    try done; try (by apply octets_be16).
  - pose proof (size_nonneg options). pose proof (Z.div_pos (size options) 4 ltac:(lia) ltac:(lia)).
    pose proof (Z.div_le_upper_bound (size options) 4 10 ltac:(lia) ltac:(lia)).
    constructor; [unfold in_width; lia |]. by constructor.
  - apply octets_be16. unfold u16, in_width. pose proof (size_nonneg data). lia.
  - apply Forall_cons; split; [done |]. by apply Forall_singleton.
Qed.

Lemma ext_octets next e : u8 next -> wf_ext e -> octets (ext_bytes next e).
Proof.
  intros Hn. destruct e as [k units body | r more i1 i2 | units body]; cbn [wf_ext ext_bytes]; intros Hw; crush_ctx.
  - by repeat (apply Forall_cons; split).
  - repeat match goal with H : Forall _ (_ :: _) |- _ => apply Forall_cons in H as [? H] end.
    apply octets_app; split; [| apply octets_app; split; by apply octets_be16].
    apply Forall_cons; split; [done |]. apply Forall_cons; split; [done |].
    repeat constructor; destruct more; done.
  - by repeat (apply Forall_cons; split).
Qed.

Lemma ext_kind_u8 e : wf_ext e -> u8 (ext_kind e).
Proof.
  destruct e as [k units body | |]; cbn [wf_ext ext_kind]; [| done..]. intros (Hk & _).
  assert (k = 0 ∨ k = 43 ∨ k = 60) as [-> | [-> | ->]] by set_solver; done.
Qed.

Lemma first_next_u8 es final : Forall wf_ext es -> u8 final -> u8 (first_next es final).
Proof. intros Hes Hf. destruct es; [done |]. apply Forall_cons in Hes as [He _]. by apply ext_kind_u8. Qed.

Lemma exts_octets es final : Forall wf_ext es -> u8 final -> octets (exts_bytes es final).
Proof.
  intros Hes Hf. induction Hes as [| e es He Hes IH]; [constructor |]. simpl. apply octets_app.
  split; [| done]. apply ext_octets; [by apply first_next_u8 | done].
Qed.

Lemma exts_size es final : Forall wf_ext es -> size (exts_bytes es final) <= 2048 * Z.of_nat (length es).
Proof.
  intros Hes. induction Hes as [| e es He Hes IH]; [done |]. cbn [exts_bytes length]. rewrite size_app.
  assert (size (ext_bytes (first_next es final) e) <= 2048); [| lia].
  destruct e as [k units body | r more i1 i2 | units body]; cbn [wf_ext ext_bytes] in *; [| done |];
    rewrite size_app; change (size [_; _]) with 2; unfold u8, in_width in He; crush_ctx; lia.
Qed.

(** ** The extension headers *)

(** The bit test of [WalkIpv6Chain], on every byte. *)
Lemma option_test x :
  u8 x ->
  bool_decide (x < 64) && bool_decide (Z.land (Z.shiftr kOptionHeaders x) 1 <> 0) =
  bool_decide (x ∈ [0; 43; 60]).
Proof.
  intros Hx.
  pose proof (two_bytes (fun x _ => Bool.eqb (bool_decide (x < 64) &&
    bool_decide (Z.land (Z.shiftr kOptionHeaders x) 1 <> 0)) (bool_decide (x ∈ [0; 43; 60]))) x 0) as Ht.
  apply Bool.eqb_prop, Ht; [by vm_compute | exact Hx | lia].
Qed.

Section Walk.
Context (final : Z) (post : list Z) (have : Z).
Context (Hu8 : u8 final) (Hlast : final ∉ [0; 43; 60; 44; 51]) (Hpost : octets post).

Lemma walk_exts es : ∀ pre todo out,
  octets pre -> Forall wf_ext es -> (length es < todo)%nat ->
  size pre + size (exts_bytes es final) <= have -> have <= size (pre ++ exts_bytes es final ++ post) ->
  walk_chain todo (pre ++ exts_bytes es final ++ post) have (first_next es final) (size pre) out =
  Ret (kOk, size pre + size (exts_bytes es final),
       set_protocol final (set_first_fragment (fold_left ext_first es (first_fragment out)) out)).
Proof using Hu8 Hlast Hpost.
  induction es as [| e es IH]; intros pre todo out Hpre Hes Htodo Hh Hsz; (destruct todo as [| todo]; [simpl in *; lia |]).
  - cbn [walk_chain first_next]. rewrite option_test by done.
    rewrite !bool_decide_eq_false_2 by set_solver. rewrite Z.add_0_r. by destruct out.
  - apply Forall_cons in Hes as [He Hes]. cbn [exts_bytes] in *.
    set (nx := first_next es final) in *. set (rest := exts_bytes es final) in *.
    pose proof (first_next_u8 es final Hes Hu8) as Hnx. pose proof (exts_octets es final Hes Hu8) as Hrest.
    pose proof (ext_octets nx e Hnx He) as Hext.
    set (ip := pre ++ (ext_bytes nx e ++ rest) ++ post) in *.
    assert (octets ip) as Hip by (unfold ip; rewrite !octets_app; done).
    assert (ip = (pre ++ ext_bytes nx e) ++ rest ++ post) as Heq by (unfold ip; by rewrite <- !app_assoc).
    pose proof (size_nonneg pre). pose proof (size_nonneg rest). rewrite !size_app in Hh.
    assert (octets (pre ++ ext_bytes nx e)) as Hpre' by by apply octets_app.
    assert (∀ out', walk_chain todo ip have nx (size pre + size (ext_bytes nx e)) out' =
      Ret (kOk, size pre + size (ext_bytes nx e ++ rest),
           set_protocol final (set_first_fragment (fold_left ext_first es (first_fragment out')) out'))) as Hrec.
    { intros out'. pose proof (IH (pre ++ ext_bytes nx e) todo out' Hpre' Hes) as Hw.
      rewrite <- Heq, (size_app pre) in Hw. rewrite size_app, Z.add_assoc. apply Hw; simpl in Htodo; lia. }
    assert (∀ i, 0 <= i -> nb ip (size pre + i) = nb (ext_bytes nx e ++ rest ++ post) i) as Hnb.
    { intros i Hi. unfold ip. rewrite <- app_assoc. by apply nb_skip. }
    pose proof (Hnb 0 ltac:(lia)) as Hn0. rewrite Z.add_0_r in Hn0.
    pose proof (Hnb 1 ltac:(lia)) as Hn1. pose proof (Hnb 2 ltac:(lia)) as Hn2. pose proof (Hnb 3 ltac:(lia)) as Hn3.
    cbn [walk_chain first_next]. rewrite option_test by by apply ext_kind_u8.
    destruct e as [k units body | r more i1 i2 | units body]; cbn [ext_kind] in *;
      destruct He as (He1 & He2); simpl in Hn0, Hn1, Hn2, Hn3.
    + destruct He2 as (Hu & Hb & Hlen). assert (size (ext_bytes nx (Options k units body)) = (units + 1) * 8) as Hsize.
      { cbn [ext_bytes]. rewrite size_app, Hlen. change (size [nx; units]) with 2. lia. }
      rewrite Hsize in *. unfold u8, in_width in Hu.
      rewrite bool_decide_eq_true_2, bool_decide_eq_false_2 by (done || lia). reads. rewrite Hn0, Hn1.
      change (nb (nx :: units :: body ++ rest ++ post) 1) with units. change (nb (nx :: _) 0) with nx.
      rewrite bool_decide_eq_false_2 by lia. apply Hrec.
    + rewrite bool_decide_eq_false_2, bool_decide_eq_true_2 by set_solver.
      assert (size (ext_bytes nx (Fragment0 r more i1 i2)) = 8) as Hsize by done. rewrite Hsize in *.
      rewrite bool_decide_eq_false_2 by lia. reads. unfold be. rewrite <- Z.add_assoc, Hn0, Hn2. zconst. rewrite Hn3.
      change (nb (nx :: _) 0) with nx. change (nb (nx :: r :: 0 :: _) 2) with 0.
      change (nb (nx :: r :: 0 :: (if more then 1 else 0) :: _) 3) with (if more then 1 else 0).
      destruct more; simpl; rewrite Hrec; by destruct out.
    + destruct He2 as (Hb & Hlen). assert (size (ext_bytes nx (Auth units body)) = (units + 2) * 4) as Hsize.
      { cbn [ext_bytes]. rewrite size_app, Hlen. change (size [nx; units]) with 2. lia. }
      rewrite Hsize in *. unfold u8, in_width in He1.
      change (bool_decide (51 ∈ [0; 43; 60])) with false. change (bool_decide (51 = 44)) with false.
      change (bool_decide (51 = 51)) with true. cbn iota. unfold AhLength.
      rewrite bool_decide_eq_false_2 by lia. reads. rewrite Hn1.
      change (nb (nx :: units :: body ++ rest ++ post) 1) with units.
      rewrite (bool_decide_eq_false_2 (have < _)) by lia. rewrite bool_decide_eq_false_2 by lia.
      reads. rewrite Hn0. change (nb (nx :: _) 0) with nx. apply Hrec.
Qed.

End Walk.

(** ** The IP header *)

Definition ip_set (n : network) (t : transport) (base : Z) : ParsedFrame :=
  let '(kind, header, (s, d), first) := net_fields n (proto_of t) in
  mk_parsed kind (l4_kind (proto_of t)) (proto_of t) (flags_of t) base (base + header)
    (size (l4_bytes t)) s d (fst (ports_of t)) (snd (ports_of t)) (fst (icmp_of t)) (snd (icmp_of t)) first.

Lemma list_4 (l : list Z) : length l = 4%nat -> ∃ a b c d, l = [a; b; c; d].
Proof. intros H. do 5 (destruct l as [| ? l]; try done). eauto. Qed.

Lemma ParseIp_v4 tos ident df mf ttl sum s d options t pad base limit :
  let n := Ipv4 tos ident df mf ttl sum s d options in
  let ip := ip_bytes n (proto_of t) (l4_bytes t) ++ pad in
  wf_transport t -> wf_network n (proto_of t) (l4_bytes t) -> octets ip -> 0 <= base <= 22 ->
  size ip <= limit < 2 ^ 64 ->
  ParseIp ip (size ip) limit base parsed0 = Ret (kOk, ip_set n t base).
Proof.
  intros n ip Ht (Hu1 & Hu2 & Ho & Hs & Hd & Hm & H40 & Htot) Hip Hb Hl.
  destruct (list_4 s Hs) as (s0 & s1 & s2 & s3 & ->). destruct (list_4 d Hd) as (d0 & d1 & d2 & d3 & ->).
  pose proof (size_nonneg options). pose proof (size_nonneg (l4_bytes t)). pose proof (size_nonneg pad).
  assert (∃ h, ip = (h ++ options) ++ l4_bytes t ++ pad ∧ size h = 20) as (h & Heq & Hh).
  { eexists (_ :: _ :: _ :: _ :: _ :: _ :: _ :: _ :: _ :: _ :: _ :: _ :: _ :: _ :: _ :: _ :: _ :: _ :: _ :: _ :: []).
    split; [unfold ip, n; simpl; rewrite <- ?app_assoc; reflexivity | done]. }
  set (total := 20 + size options + size (l4_bytes t)) in *.
  assert (size ip = total + size pad) as Hsz by (rewrite Heq, !size_app; lia).
  assert (nb ip 0 = 64 + (5 + size options / 4)) as R0 by done.
  assert (be ip 2 = total) as R2 by apply be16_value.
  assert (be ip 6 = ((if df then 64 else 0) + (if mf then 32 else 0)) * 256 + 0) as R6 by done.
  assert (nb ip 9 = proto_of t) as R9 by done.
  assert (slice ip 12 4 = [s0; s1; s2; s3]) as R12 by done.
  assert (slice ip 16 4 = [d0; d1; d2; d3]) as R16 by done.
  pose proof (Z.div_mod (size options) 4 ltac:(lia)) as Hdiv.
  set (q := size options / 4) in *. assert (0 <= q <= 10) as Hq by lia.
  unfold ParseIp. rewrite bool_decide_eq_false_2 by lia. reads. rewrite R0.
  assert (Z.shiftr (64 + (5 + q)) 4 = 4) as ->.
  { rewrite Z.shiftr_div_pow2 by lia. symmetry. apply (Z.div_unique_pos _ _ _ (5 + q)); lia. }
  assert (Z.land (64 + (5 + q)) 15 = 5 + q) as ->.
  { change 15 with (Z.ones 4). rewrite Z.land_ones by lia. symmetry. apply (Z.mod_unique_pos _ _ 4); lia. }
  rewrite bool_decide_eq_true_2 by done. replace ((5 + q) * 4) with (20 + size options) by lia.
  rewrite !(bool_decide_eq_false_2 (size ip < _)), (bool_decide_eq_false_2 (20 + size options < 20)) by lia.
  cbn [orb]. reads. rewrite R2. rewrite !bool_decide_eq_false_2 by lia. cbn [orb]. reads.
  rewrite R9, R12, R16, R6. rewrite bool_decide_eq_false_2 by (destruct df, mf; intros []; done).
  replace (bool_decide (Z.land _ 0x2000 <> 0)) with mf by (destruct df, mf; done).
  rewrite ParseL4_spec by (first [done | lia]). cbv zeta.
  assert (ptr ip (20 + size options) = l4_bytes t ++ pad) as ->.
  { rewrite Heq. replace (20 + size options) with (size (h ++ options)) by (rewrite size_app; lia). apply ptr_skip. }
  cbn [protocol first_fragment set_l4_place set_first_fragment set_addrs set_protocol].
  replace (Z.min (size ip) total - (20 + size options)) with (size (l4_bytes t)) by lia.
  replace (total - (20 + size options)) with (size (l4_bytes t)) by lia.
  match goal with |- context [l4_fields _ _ ?o] => destruct (l4_found t pad mf o Ht) as [-> ->] end; [done |].
  unfold ip_set, l4_set, n. simpl. rewrite !wrap_small by (unfold in_width; lia). done.
Qed.

Lemma slice_mid (a b c : list Z) : slice (a ++ b ++ c) (size a) (size b) = b.
Proof. unfold slice, size. rewrite !Nat2Z.id, drop_app_length. apply take_app_length. Qed.

Lemma ParseIp_v6 class f1 f2 hops s d exts t pad base limit :
  let n := Ipv6 class f1 f2 hops s d exts in
  let ip := ip_bytes n (proto_of t) (l4_bytes t) ++ pad in
  wf_transport t -> u8 (proto_of t) -> wf_network n (proto_of t) (l4_bytes t) -> octets ip -> 0 <= base <= 22 ->
  size ip <= limit < 2 ^ 64 ->
  ParseIp ip (size ip) limit base parsed0 = Ret (kOk, ip_set n t base).
Proof.
  intros n ip Ht Hpr (Hu1 & Hu2 & Hf1 & Ho & Hs & Hd & Hes & Hlen & Hlast & Htot) Hip Hb Hl.
  set (proto := proto_of t) in *. set (eb := exts_bytes exts proto) in *.
  pose proof (size_nonneg eb). pose proof (size_nonneg (l4_bytes t)). pose proof (size_nonneg pad).
  set (h8 := [96 + class / 16; class mod 16 * 16 + f1] ++ be16 f2 ++ be16 (size (eb ++ l4_bytes t)) ++
             [first_next exts proto; hops]) in *.
  assert (ip = h8 ++ s ++ d ++ eb ++ l4_bytes t ++ pad) as Heq
    by (unfold ip, n, ip_bytes, h8; cbv zeta; fold eb; rewrite <- ?app_assoc; reflexivity).
  assert (ip = (h8 ++ s ++ d) ++ eb ++ l4_bytes t ++ pad) as Heq2 by by rewrite Heq, <- !app_assoc.
  assert (size s = 16 ∧ size d = 16) as [Hs16 Hd16] by (unfold size; lia).
  assert (size (h8 ++ s ++ d) = 40) as Hh by (rewrite !size_app, Hs16, Hd16; done).
  rewrite !size_app in Htot.
  assert (size ip = 40 + size eb + size (l4_bytes t) + size pad) as Hsz by (rewrite Heq2, size_app, Hh, !size_app; lia).
  assert (0 <= class < 256) as Hc by (apply Forall_cons in Hu2 as [Hu2 _]; exact Hu2).
  assert (nb ip 0 = 96 + class / 16) as R0 by done.
  assert (be ip 4 = size (eb ++ l4_bytes t)) as R4 by apply be16_value.
  assert (nb ip 6 = first_next exts proto) as R6 by done.
  assert (slice ip 8 16 = s) as R8.
  { rewrite Heq. change 8 with (size h8). rewrite <- Hs16 at 1. apply slice_mid. }
  assert (slice ip 24 16 = d) as R24.
  { rewrite Heq, app_assoc. replace 24 with (size (h8 ++ s)) by (rewrite size_app, Hs16; done).
    rewrite <- Hd16 at 1. apply slice_mid. }
  unfold ParseIp. rewrite bool_decide_eq_false_2 by lia. reads. rewrite R0.
  assert (Z.shiftr (96 + class / 16) 4 = 6) as ->.
  { rewrite Z.shiftr_div_pow2 by lia. pose proof (Z.div_pos class 16 ltac:(lia) ltac:(lia)).
    pose proof (Z.div_lt_upper_bound class 16 16 ltac:(lia) ltac:(lia)).
    symmetry. apply (Z.div_unique_pos _ _ _ (class / 16)); lia. }
  rewrite (bool_decide_eq_false_2 (6 = 4)), (bool_decide_eq_true_2 (6 = 6)), bool_decide_eq_false_2 by (done || lia).
  reads. rewrite R4, size_app. rewrite bool_decide_eq_false_2 by lia. reads. rewrite R8, R24.
  unfold WalkIpv6Chain. reads. rewrite R6.
  pose proof (walk_exts proto (l4_bytes t ++ pad) (Z.min (size ip) (40 + (size eb + size (l4_bytes t)))) Hpr Hlast)
    as Hwalk.
  pose proof Hip as Hsplit. rewrite Heq2 in Hsplit. apply octets_app in Hsplit as [Hip1 [_ Hip2]%octets_app].
  specialize (Hwalk Hip2 exts (h8 ++ s ++ d) (S kMaxExtensionHeaders)
    (set_addrs s d (set_l3 L3Ipv6 (set_l3_offset base parsed0))) Hip1 Hes ltac:(lia)). fold eb in Hwalk.
  rewrite <- Heq2, Hh in Hwalk. rewrite Hwalk by lia. cbn [mbind mret run_bind run_ret].
  rewrite bool_decide_eq_false_2 by (intros []; done).
  rewrite ParseL4_spec by (first [done | lia]). cbv zeta.
  assert (ptr ip (40 + size eb) = l4_bytes t ++ pad) as ->.
  { rewrite Heq2, app_assoc. rewrite <- Hh, <- size_app. apply ptr_skip. }
  cbn [protocol first_fragment set_l4_place set_first_fragment set_addrs set_protocol set_l3 set_l3_offset parsed0].
  replace (Z.min (size ip) (40 + (size eb + size (l4_bytes t))) - (40 + size eb)) with (size (l4_bytes t)) by lia.
  replace (40 + (size eb + size (l4_bytes t)) - (40 + size eb)) with (size (l4_bytes t)) by lia.
  match goal with |- context [l4_fields _ _ ?o] =>
    destruct (l4_found t pad (fold_left ext_first exts false) o Ht) as [Hok Hfl] end; [done |].
  fold proto in Hok, Hfl. rewrite Hok, Hfl.
  unfold ip_set, l4_set, n. simpl. fold proto eb. rewrite Hs, Hd. simpl. rewrite !app_nil_r.
  pose proof (exts_size exts proto Hes) as Hmax. fold eb in Hmax. unfold kMaxExtensionHeaders in Hlen.
  rewrite !wrap_small by (unfold in_width; lia). done.
Qed.

(** ** The frame *)

Lemma octets_ip n t :
  wf_transport t -> u8 (proto_of t) -> wf_network n (proto_of t) (l4_bytes t) ->
  octets (ip_bytes n (proto_of t) (l4_bytes t)).
Proof.
  intros Ht Hp Hn. pose proof (l4_octets t Ht) as Hl4. set (b := l4_bytes t) in *.
  pose proof (size_nonneg b) as Hb.
  destruct n as [tos ident df mf ttl sum s d options | class f1 f2 hops s d exts]; cbn [ip_bytes wf_network] in *.
  - destruct Hn as (Hu1 & Hu2 & Ho & Hs & Hd & Hm & H40 & Htot). pose proof (size_nonneg options).
    repeat match goal with H : Forall _ (_ :: _) |- _ => apply Forall_cons in H as [? H] end.
    apply octets_app in Ho as [Ho1 [Ho2 Ho3]%octets_app].
    repeat match goal with |- octets (_ ++ _) => apply octets_app; split end; try done; try (by apply octets_be16).
    + pose proof (Z.div_pos (size options) 4 ltac:(lia) ltac:(lia)).
      pose proof (Z.div_le_upper_bound (size options) 4 10 ltac:(lia) ltac:(lia)).
      apply Forall_cons; split; [unfold in_width; lia |]. by apply Forall_singleton.
    + apply octets_be16. unfold u16, in_width. lia.
    + apply Forall_cons; split; [by destruct df, mf |]. apply Forall_cons; split; [done |].
      apply Forall_cons; split; [done |]. by apply Forall_singleton.
  - destruct Hn as (Hu1 & Hu2 & Hf1 & Ho & Hs & Hd & Hes & Hlen & Hlast & Htot).
    pose proof (size_nonneg (exts_bytes exts (proto_of t) ++ b)).
    repeat match goal with H : Forall _ (_ :: _) |- _ => apply Forall_cons in H as [? H] end.
    apply octets_app in Ho as [Ho1 Ho2]. pose proof (first_next_u8 exts _ Hes Hp).
    repeat match goal with |- octets (_ ++ _) => apply octets_app; split end; try done; try (by apply octets_be16).
    + unfold u8, in_width in *. pose proof (Z.div_mod class 16 ltac:(lia)).
      pose proof (Z.mod_pos_bound class 16 ltac:(lia)).
      apply Forall_cons; split; [unfold in_width; lia |]. apply Forall_singleton. unfold in_width. lia.
    + apply Forall_cons; split; [done |]. by apply Forall_singleton.
    + by apply exts_octets.
Qed.

Lemma tag_size ts : size (concat (map tag_bytes ts)) = 4 * Z.of_nat (length ts).
Proof.
  induction ts as [| t ts IH]; [done |]. cbn [map concat length]. rewrite size_app, IH.
  change (size (tag_bytes t)) with 4. lia.
Qed.

Lemma tag_octets ts : Forall (fun t => u16 t.2) ts -> octets (concat (map tag_bytes ts)).
Proof.
  induction 1 as [| [ad tci] ts Ht _ IH]; [constructor |]. apply octets_app; split; [| done].
  apply octets_app; split; apply octets_be16; [by destruct ad | done].
Qed.

(** The tags are skipped, and the type after them is found. *)
Lemma skip_tags_found ts : ∀ pre type rest budget,
  octets (pre ++ concat (map tag_bytes ts) ++ be16 type ++ rest) -> (length ts <= budget)%nat ->
  u16 type -> type ∉ [0x8100; 0x88a8] ->
  let frame := pre ++ concat (map tag_bytes ts) ++ be16 type ++ rest in
  skip_tags budget frame (size pre) (be frame (size pre)) = Ret (Some (size pre + 4 * Z.of_nat (length ts), type)).
Proof.
  induction ts as [| [ad tci] ts IH]; intros pre type rest budget Hf Hlen Hu Hty frame.
  - assert (be frame (size pre) = type) as ->.
    { unfold frame. rewrite <- (Z.add_0_r (size pre)), be_skip by lia. apply be16_value. }
    destruct budget; simpl; rewrite Z.add_0_r; [done |]. by rewrite !bool_decide_eq_false_2 by set_solver.
  - destruct budget as [| budget]; [simpl in Hlen; lia |].
    set (pre' := pre ++ tag_bytes (ad, tci)).
    assert (frame = pre' ++ concat (map tag_bytes ts) ++ be16 type ++ rest) as Heq
      by (unfold frame, pre'; cbn [map concat]; by rewrite <- !app_assoc).
    assert (size pre' = size pre + 4) as Hs' by (unfold pre'; by rewrite size_app).
    assert (be frame (size pre) = if ad then 0x88a8 else 0x8100) as ->.
    { unfold frame. rewrite <- (Z.add_0_r (size pre)), be_skip by lia. apply be16_value. }
    pose proof (size_nonneg rest). pose proof (size_nonneg pre). cbn [skip_tags length] in *.
    replace (bool_decide _ || bool_decide _) with true by by destruct ad.
    assert (size pre + 6 <= size frame) as Hsz.
    { rewrite Heq, !size_app, Hs', tag_size. change (size (be16 type)) with 2. lia. }
    rewrite bool_decide_eq_false_2 by lia. rewrite Be16_ok by (done || lia). cbn [mbind run_bind].
    rewrite <- Hs'. fold frame in Hf. rewrite Heq in Hf. rewrite Heq, IH by (done || lia).
    do 3 f_equal. lia.
Qed.

Lemma proto_u8 t : wf_transport t -> u8 (proto_of t).
Proof. destruct t as [| | [] | p data]; try done. by intros []. Qed.

Lemma frame_octets p : wf_packet p -> octets (frame_bytes p).
Proof.
  intros (Hm & [Ho1 Ho2]%octets_app & Htags & Hu & Ht & Hn). unfold frame_bytes. rewrite !octets_app.
  split_and!; [done | by apply tag_octets | apply octets_be16; by destruct (net p) | | done].
  apply octets_ip; [done | by apply proto_u8 | done].
Qed.

(** C17. Parsing inverts writing a packet out: for every well-formed packet with
    up to two VLAN tags, IPv4 with options or IPv6 with up to eight extension
    headers, and any transport, the parse accepts its bytes, whatever padding
    follows and whatever length is stated, and finds exactly its fields. *)
Theorem parse_inverts_encoding p total_len :
  wf_packet p -> size (frame_bytes p) < 2 ^ 64 -> in_width 64 total_len ->
  ParseFrame (frame_bytes p) total_len = Ret (kOk, fields p).
Proof.
  intros Hwf H64 Htl. pose proof (frame_octets p Hwf) as Hf. rewrite ParseFrame_general by done.
  unfold in_width in Htl. assert (size (frame_bytes p) <= Z.max total_len (size (frame_bytes p)) < 2 ^ 64) as Hlim by lia.
  set (limit := Z.max _ _) in *. destruct p as [ms ts n t pad]. destruct Hwf as (Hm & _ & Htags & _ & Ht & Hn).
  unfold frame_bytes in *. cbn [macs tags net trans padding] in *.
  set (ip := ip_bytes n (proto_of t) (l4_bytes t) ++ pad) in *. set (type := ether_type n) in *.
  set (frame := ms ++ _) in *. assert (size ms = 12) as Hm12 by (unfold size; lia).
  set (off := 14 + 4 * Z.of_nat (length ts)). pose proof (size_nonneg ip).
  assert (size frame = off + size ip) as Hsz.
  { unfold frame. rewrite !size_app, tag_size, Hm12. change (size (be16 type)) with 2. unfold off. lia. }
  assert (ptr frame off = ip) as Hptr.
  { unfold frame. rewrite !app_assoc. replace off with (size ((ms ++ concat (map tag_bytes ts)) ++ be16 type));
      [apply ptr_skip |]. rewrite !size_app, tag_size, Hm12. change (size (be16 type)) with 2. unfold off. lia. }
  pose proof (skip_tags_found ts ms type ip 2 Hf Htags ltac:(by destruct n) ltac:(destruct n; set_solver)) as Hskip.
  cbv zeta in Hskip. fold frame in Hskip. rewrite Hm12 in Hskip.
  assert (octets ip) as Hip by (rewrite <- Hptr; by apply octets_ptr).
  unfold ParseFrameGeneral. rewrite bool_decide_eq_false_2 by (unfold off in *; lia). rewrite Be16_ok by (done || (unfold off in *; lia)).
  cbn [mbind run_bind]. rewrite Hskip. cbn [mbind mret run_bind run_ret].
  replace (12 + 4 * Z.of_nat (length ts) + 2) with off by (unfold off; lia).
  replace (bool_decide (type <> 0x800) && bool_decide (type <> 0x86dd)) with false by by destruct n.
  rewrite !minus_small, Hptr by (unfold off in *; lia). replace (size frame - off) with (size ip) by lia.
  assert (ParseIp ip (size ip) (limit - off) off parsed0 = Ret (kOk, ip_set n t off)) as ->.
  { pose proof (proto_u8 t Ht). assert (0 <= off <= 22 ∧ size ip <= limit - off < 2 ^ 64) as [] by (unfold off in *; lia).
    destruct n; [by apply ParseIp_v4 | by apply ParseIp_v6]. }
  cbn [mbind mret run_bind run_ret]. unfold fields, ip_set. cbn [tags net trans].
  replace (14 + 4 * size (map snd ts)) with off by (unfold off, size; by rewrite length_map).
  unfold type. by destruct n.
Qed.

End Roundtrip.
