(* ===== verification/ParseDemo.v ===== *)
(** * Packets parsed

    A tagged IPv6 packet with an extension header and an untagged TCP segment,
    on which the theorems about the parse apply. *)

From S2P Require Import Prelude PacketParse ParseReads ParseFast ParseProps ParseRoundtrip.
Open Scope Z_scope.

Module ParseDemo.
Import Parse Reads Roundtrip ParseProps.

(** A TCP SYN over plain IPv4, and a UDP datagram behind a VLAN tag, IPv6 and a
    hop-by-hop header, with padding. *)
Definition syn_packet : packet :=
  mk_packet (replicate 12 2) [] (Ipv4 0 1 true false 64 0 [10; 0; 0; 1] [10; 0; 0; 2] [])
    (Tcp 40000 80 0 1 0 0 2 1024 0 0 [] []) [].

Definition udp6_packet : packet :=
  mk_packet (replicate 12 2) [(false, 100)]
    (Ipv6 0 0 0 64 (replicate 16 1) (replicate 16 3) [Options 0 0 (replicate 6 0)])
    (Udp 5000 53 0 [1; 2; 3]) [0; 0].

Lemma octets_by_computation (l : list Z) : forallb (fun x => (0 <=? x) && (x <? 256)) l = true -> octets l.
Proof.
  intros H. apply List.Forall_forall. intros x Hx. rewrite forallb_forall in H. apply H in Hx.
  unfold in_width. lia.
Qed.

Lemma parse_fast_path_agrees_witness :
  ∃ f, CheckFastIpv4 (frame_bytes syn_packet) 0 = Ret f ∧ taken f = true ∧ header_ok f = true ∧
    ParseFrame (frame_bytes syn_packet) 0 =
    ParseFrameGeneral (frame_bytes syn_packet) parsed0 (Z.max 0 (size (frame_bytes syn_packet))).
Proof.
  assert (octets (frame_bytes syn_packet)) as Hf by (apply octets_by_computation; vm_compute; reflexivity).
  assert (size (frame_bytes syn_packet) < 2 ^ 64) as Hs by (vm_compute; reflexivity).
  assert (in_width 64 0) as Htl by (unfold in_width; lia).
  destruct (parse_fast_path_agrees (frame_bytes syn_packet) 0 Hf Hs Htl) as [Heq (f & Hc & _)].
  exists f. split; [exact Hc |]. vm_compute in Hc. injection Hc as <-. split; [reflexivity |].
  split; [reflexivity | exact Heq].
Defined.

Lemma parse_stays_in_frame_witness :
  ∃ s out, ParseFrame (frame_bytes udp6_packet) 0 = Ret (s, out) ∧ s = kOk ∧
    located (frame_bytes udp6_packet) (Z.max 0 (size (frame_bytes udp6_packet))) out.
Proof.
  assert (octets (frame_bytes udp6_packet)) as Hf by (apply octets_by_computation; vm_compute; reflexivity).
  assert (size (frame_bytes udp6_packet) < 2 ^ 64) as Hs by (vm_compute; reflexivity).
  assert (in_width 64 0) as Htl by (unfold in_width; lia).
  destruct (parse_stays_in_frame (frame_bytes udp6_packet) 0 Hf Hs Htl) as (s & out & Hp & Hok).
  assert (s = kOk) as Hk by (vm_compute in Hp; congruence).
  exists s, out. split; [exact Hp |]. split; [exact Hk |]. apply (Hok Hk).
Defined.

Lemma parse_inverts_encoding_witness :
  ParseFrame (frame_bytes udp6_packet) 0 = Ret (kOk, fields udp6_packet).
Proof.
  apply parse_inverts_encoding.
  - assert (∀ x, 0 <= x < 65536 -> u16 x) as H16 by (intros x Hx; exact Hx).
    assert (∀ x, 0 <= x < 256 -> u8 x) as H8 by (intros x Hx; exact Hx).
    split; [reflexivity |]. split; [apply octets_by_computation; reflexivity |]. split; [simpl; lia |].
    split; [apply Forall_singleton; simpl; apply H16; lia |].
    split; [split_and!; [repeat (constructor; [apply H16; lia |]); constructor
                        | apply octets_by_computation; reflexivity | reflexivity] |].
    split_and!; try reflexivity; try (apply H16; lia); try lia.
    + repeat (constructor; [apply H8; lia |]). constructor.
    + apply octets_by_computation. reflexivity.
    + apply Forall_singleton. split_and!; [set_solver | apply H8; lia | | reflexivity].
      apply octets_by_computation. reflexivity.
    + unfold kMaxExtensionHeaders. simpl. lia.
    + simpl. set_solver.
  - vm_compute. reflexivity.
  - unfold in_width. lia.
Defined.

End ParseDemo.
