(* ===== verification/Checksum.v ===== *)
(** * The Internet checksum

    Models [core/utils/checksum.h] and the kernels of
    [core/arch/checksum_kernels.h]: vector lanes and the add-with-carry chains
    are written out, at their widths. Memory is the list of bytes from the
    pointer on; a read past its end is undefined. *)

From S2P Require Import Prelude PacketParse.
Open Scope Z_scope.

Module Checksum.
Import Parse.

(** A little-endian word. *)
Fixpoint little (bs : list Z) : Z :=
  match bs with
  | [] => 0
  | b :: bs => b + 256 * little bs
  end.

Definition Load32 (p : list Z) (off : Z) : run Z := bs ← bytes p off 4; mret (little bs).
Definition Load16 (p : list Z) (off : Z) : run Z := bs ← bytes p off 2; mret (little bs).

(** ** Kernels *)

(** What the kernels are compiled for: x86-64 with AVX2, x86-64 without it, and
    other machines. *)
Inductive kernel := Avx2 | X86 | Portable.

Definition low32 (x : Z) : Z := Z.land x 0xFFFFFFFF.

(** A vector of 32 bytes at [p], interleaved with zeroes: four 64-bit lanes. *)
Definition dword (p : list Z) (k : nat) : Z := little (take 4 (drop (4 * k) p)).
Definition unpackhi (p : list Z) : list Z := [dword p 2; dword p 3; dword p 6; dword p 7].
Definition unpacklo (p : list Z) : list Z := [dword p 0; dword p 1; dword p 4; dword p 5].
Definition add_epi64 (a b : list Z) : list Z := zip_with (fun x y => wrap 64 (x + y)) a b.

Record lanes := mk_lanes { a_hi : list Z; a_lo : list Z; b_hi : list Z; b_lo : list Z }.

Definition load_lanes (p : list Z) : lanes :=
  mk_lanes (unpackhi p) (unpacklo p) (unpackhi (drop 32 p)) (unpacklo (drop 32 p)).
Definition add_lanes (l : lanes) (p : list Z) : lanes :=
  mk_lanes (add_epi64 (a_hi l) (unpackhi p)) (add_epi64 (a_lo l) (unpacklo p))
    (add_epi64 (b_hi l) (unpackhi (drop 32 p))) (add_epi64 (b_lo l) (unpacklo (drop 32 p))).

(** The loop over 64 bytes a step; [fuel] is above the number of steps. *)
Fixpoint avx2_loop (fuel : nat) (p : list Z) (l : lanes) : lanes * list Z :=
  match fuel with
  | O => (l, p)
  | S fuel => if bool_decide (64 <= length p)%nat then avx2_loop fuel (drop 64 p) (add_lanes l p) else (l, p)
  end.

Definition extract (l : list Z) (k : nat) : Z := nth k l 0.

Definition avx2_sum (p : list Z) : Z * list Z :=
  let '(l, p) := avx2_loop (length p) (drop 64 p) (load_lanes p) in
  let sum256 := add_epi64 (add_epi64 (a_hi l) (a_lo l)) (add_epi64 (b_hi l) (b_lo l)) in
  let sum128 := add_epi64 (take 2 sum256) (drop 2 sum256) in
  (wrap 64 (0 + wrap 64 (extract sum128 0 + extract sum128 1)), p).

(** [add] and [adc] of a register of [w] bits and its carry, and a chain of
    them that ends by adding the carry. *)
Definition adc (w : Z) (st : Z * Z) (u : Z) : Z * Z :=
  let t := st.1 + u + st.2 in (wrap w t, Z.shiftr t w).
Definition add_chain (w : Z) (us : list Z) (sum : Z) : Z :=
  let '(s, carry) := fold_left (adc w) us (sum, 0) in wrap w (s + carry).

Definition qword (p : list Z) (k : nat) : Z := little (take 8 (drop (8 * k) p)).

(** A loop over [n] words of eight bytes a step. *)
Fixpoint adc_loop (n fuel : nat) (p : list Z) (sum : Z) : Z * list Z :=
  match fuel with
  | O => (sum, p)
  | S fuel =>
      if bool_decide (8 * n <= length p)%nat
      then adc_loop n fuel (drop (8 * n) p) (add_chain 64 (qword p <$> seq 0 n) sum)
      else (sum, p)
  end.

(** The halves of the words, summed apart. *)
Fixpoint halves (todo : nat) (p : list Z) (lo hi : Z) : Z * Z :=
  match todo with
  | O => (lo, hi)
  | S todo =>
      let w := little (take 8 p) in
      halves todo (drop 8 p) (wrap 64 (lo + low32 w)) (wrap 64 (hi + Z.shiftr w 32))
  end.

Definition reduce (sum : Z) : Z := wrap 64 (Z.shiftr sum 32 + low32 sum).

Definition SumWords32 (k : kernel) (p : list Z) : Z :=
  match k with
  | Portable => let '(lo, hi) := halves (length p / 8) p 0 0 in reduce (wrap 64 (lo + hi))
  | _ =>
      let '(sum64, p) :=
        match k with
        | Avx2 => if bool_decide (128 <= length p)%nat then avx2_sum p else (0, p)
        | _ => (0, p)
        end in
      let '(sum64, p) := adc_loop 8 (length p) p sum64 in
      let '(sum64, p) := adc_loop 2 (length p) p sum64 in
      reduce sum64
  end.

Definition AddWords32 (k : kernel) (sum : Z) (w : list Z) : Z :=
  match k with
  | Portable =>
      let s := fold_left (fun s v => wrap 64 (s + v)) w sum in
      let s := reduce s in
      wrap 32 (wrap 64 (s + Z.shiftr s 32))
  | _ => add_chain 32 w sum
  end.

(** ** Sums *)

Definition Fold64 (sum : Z) : Z :=
  let sum := reduce sum in
  wrap 32 (wrap 64 (sum + Z.shiftr sum 32)).

(** The last bytes, fewer than 16: 16-bit words, then the odd byte. *)
Fixpoint sum_tail (tail : list Z) (sum64 : Z) : Z :=
  match tail with
  | a :: b :: tail => sum_tail tail (wrap 64 (sum64 + little [a; b]))
  | [a] => wrap 64 (sum64 + a)
  | [] => sum64
  end.

Definition CalculateSum (k : kernel) (buf : list Z) : Z :=
  let words32_end := (length buf / 16 * 16)%nat in
  let sum64 := SumWords32 k (take words32_end buf) in
  Fold64 (sum_tail (drop words32_end buf) sum64).

Definition FoldChecksum (cksum : Z) : Z :=
  let cksum := wrap 32 (Z.shiftr cksum 16 + Z.land cksum 0xFFFF) in
  let cksum := wrap 32 (cksum + Z.shiftr cksum 16) in
  wrap 16 (Z.lnot cksum).

Definition CalculateGenericChecksum (k : kernel) (buf : list Z) : Z := FoldChecksum (CalculateSum k buf).
Definition VerifyGenericChecksum (k : kernel) (buf : list Z) (cksum : Z) : bool :=
  bool_decide (CalculateGenericChecksum k buf = cksum).

(** ** IPv4 *)

Definition SumIpv4Header (k : kernel) (p : list Z) (skip_checksum : bool) (init : Z) : run Z :=
  w0 ← Load32 p 0; w1 ← Load32 p 4; w2 ← Load32 p 8; w3 ← Load32 p 12; w4 ← Load32 p 16;
  mret (AddWords32 k init [w0; w1; (if skip_checksum then Z.land w2 0xFFFF else w2); w3; w4]).

Definition swap16 (x : Z) : Z := wrap 16 (Z.lor (Z.shiftl x 8) (Z.shiftr x 8)).
Definition PseudoLength (l4_len : Z) : Z := swap16 l4_len.
Definition PseudoProto (proto : Z) : Z := Z.shiftl proto 8.

Definition VerifyIpv4NoOptChecksum (k : kernel) (iph : list Z) : run bool :=
  sum ← SumIpv4Header k iph false 0; mret (bool_decide (FoldChecksum sum = 0)).
Definition CalculateIpv4NoOptChecksum (k : kernel) (iph : list Z) : run Z :=
  sum ← SumIpv4Header k iph true 0; mret (FoldChecksum sum).

(** [iph.header_length << 2] *)
Definition ip_header_len (iph : list Z) : run Z := b ← byte iph 0; mret (Z.shiftl (Z.land b 15) 2).

(** [CalculateSum(p + off, len)] *)
Definition sum_at (k : kernel) (p : list Z) (off len : Z) : run Z :=
  bs ← bytes p off len; mret (CalculateSum k bs).

Definition VerifyIpv4Checksum (k : kernel) (iph : list Z) : run bool :=
  len ← ip_header_len iph;
  if bool_decide (len = 20) then VerifyIpv4NoOptChecksum k iph
  else if bool_decide (len < 20) then mret false
  else
    sum ← sum_at k iph 20 (len - 20);
    sum ← SumIpv4Header k iph false sum;
    mret (bool_decide (FoldChecksum sum = 0)).

Definition CalculateIpv4Checksum (k : kernel) (iph : list Z) : run Z :=
  len ← ip_header_len iph;
  if bool_decide (len = 20) then CalculateIpv4NoOptChecksum k iph
  else if bool_decide (len < 20) then mret 0
  else
    sum ← sum_at k iph 20 (len - 20);
    sum ← SumIpv4Header k iph true sum;
    mret (FoldChecksum sum).

(** ** UDP and TCP over IPv4 *)

Definition kTcp : Z := 6.
Definition kUdp : Z := 17.

Definition VerifyIpv4UdpChecksum (k : kernel) (udph : list Z) (src dst udp_len : Z) : run bool :=
  checksum ← Load16 udph 6;
  if bool_decide (checksum = 0) then mret true
  else
    sum ← sum_at k udph 8 (minus udp_len 8);
    w0 ← Load32 udph 0; w1 ← Load32 udph 4;
    mret (bool_decide (FoldChecksum (AddWords32 k sum [w0; w1; src; dst; PseudoLength udp_len; PseudoProto kUdp]) = 0)).

Definition VerifyIpv4Udp (k : kernel) (iph udph : list Z) : run bool :=
  udp_len ← Be16 udph 4;
  if bool_decide (udp_len < 8) then mret false
  else src ← Load32 iph 12; dst ← Load32 iph 16; VerifyIpv4UdpChecksum k udph src dst udp_len.

Definition CalculateIpv4UdpChecksum (k : kernel) (udph : list Z) (src dst udp_len : Z) : run Z :=
  sum ← sum_at k udph 8 (minus udp_len 8);
  w0 ← Load32 udph 0; w1 ← Load32 udph 4;
  let c := FoldChecksum (AddWords32 k sum
             [w0; Z.land w1 0xFFFF; src; dst; PseudoLength udp_len; PseudoProto kUdp]) in
  mret (if bool_decide (c = 0) then 0xFFFF else c).

Definition CalculateIpv4Udp (k : kernel) (iph udph : list Z) : run Z :=
  udp_len ← Be16 udph 4;
  if bool_decide (udp_len < 8) then mret 0
  else src ← Load32 iph 12; dst ← Load32 iph 16; CalculateIpv4UdpChecksum k udph src dst udp_len.

Definition VerifyIpv4TcpChecksum (k : kernel) (tcph : list Z) (src dst tcp_len : Z) : run bool :=
  sum ← sum_at k tcph 20 (minus tcp_len 20);
  w0 ← Load32 tcph 0; w1 ← Load32 tcph 4; w2 ← Load32 tcph 8; w3 ← Load32 tcph 12; w4 ← Load32 tcph 16;
  mret (bool_decide (FoldChecksum (AddWords32 k sum
          [w0; w1; w2; w3; w4; src; dst; PseudoLength tcp_len; PseudoProto kTcp]) = 0)).

(** The length of the segment, from the IP header. *)
Definition VerifyIpv4Tcp (k : kernel) (iph tcph : list Z) : run bool :=
  ip_len ← Be16 iph 2;
  header_len ← ip_header_len iph;
  if bool_decide (ip_len < header_len + 20) then mret false
  else src ← Load32 iph 12; dst ← Load32 iph 16; VerifyIpv4TcpChecksum k tcph src dst (wrap 16 (ip_len - header_len)).

Definition CalculateIpv4TcpChecksum (k : kernel) (tcph : list Z) (src dst tcp_len : Z) : run Z :=
  sum ← sum_at k tcph 20 (minus tcp_len 20);
  w0 ← Load32 tcph 0; w1 ← Load32 tcph 4; w2 ← Load32 tcph 8; w3 ← Load32 tcph 12; w4 ← Load32 tcph 16;
  mret (FoldChecksum (AddWords32 k sum
          [w0; w1; w2; w3; Z.shiftr w4 16; src; dst; PseudoLength tcp_len; PseudoProto kTcp])).

Definition CalculateIpv4Tcp (k : kernel) (iph tcph : list Z) : run Z :=
  ip_len ← Be16 iph 2;
  header_len ← ip_header_len iph;
  if bool_decide (ip_len < header_len + 20) then mret 0
  else src ← Load32 iph 12; dst ← Load32 iph 16; CalculateIpv4TcpChecksum k tcph src dst (wrap 16 (ip_len - header_len)).

(** ** Incremental update *)

Definition not32 (x : Z) : Z := wrap 32 (Z.lnot x).

Definition ChecksumIncrement32 (old_value new_value : Z) : Z :=
  let sum := wrap 32 (Z.shiftr (not32 old_value) 16 + Z.land (not32 old_value) 0xFFFF) in
  wrap 32 (sum + wrap 32 (Z.shiftr new_value 16 + Z.land new_value 0xFFFF)).

Definition ChecksumIncrement16 (old_value new_value : Z) : Z :=
  Z.land (Z.lnot old_value) 0xFFFF + new_value.

Definition UpdateChecksumWithIncrement (old_checksum increment : Z) : Z :=
  FoldChecksum (wrap 32 (Z.land (Z.lnot old_checksum) 0xFFFF + increment)).

Definition UpdateChecksum32 (old_checksum old_value new_value : Z) : Z :=
  UpdateChecksumWithIncrement old_checksum (ChecksumIncrement32 old_value new_value).
Definition UpdateChecksum16 (old_checksum old_value new_value : Z) : Z :=
  UpdateChecksumWithIncrement old_checksum (ChecksumIncrement16 old_value new_value).

End Checksum.
