(* ===== verification/ChecksumMath.v ===== *)
(** * One's-complement arithmetic

    Sums with end-around carry keep a number's residue modulo [2^w - 1] and
    whether it is zero. Numbers alike in both have one representative in
    [0 .. 2^w - 1], and the bytes of a buffer as one little-endian number are
    alike to the sum of its words. *)

From S2P Require Import Prelude PacketParse ParseReads Checksum.
Open Scope Z_scope.

Module Ones.
Import Parse Reads Checksum.

(** ** Alike modulo [m] *)

Record alike (m x y : Z) : Prop := {
  al_left : 0 <= x;
  al_right : 0 <= y;
  al_zero : x = 0 <-> y = 0;
  al_mod : (m | x - y)
}.

Lemma alike_refl m x : 0 <= x -> alike m x x.
Proof. intros Hx. split; try done. rewrite Z.sub_diag. apply Z.divide_0_r. Qed.

Lemma alike_sym m x y : alike m x y -> alike m y x.
Proof. intros [H1 H2 H3 [c Hc]]. split; [done.. | by symmetry |]. exists (- c). lia. Qed.

Lemma alike_trans m x y z : alike m x y -> alike m y z -> alike m x z.
Proof. intros [H1 H2 H3 [c Hc]] [G1 G2 G3 [d Hd]]. split; [done.. | by rewrite H3 |]. exists (c + d). lia. Qed.

Lemma alike_add m x y x' y' : alike m x y -> alike m x' y' -> alike m (x + x') (y + y').
Proof. intros [H1 H2 H3 [c Hc]] [G1 G2 G3 [d Hd]]. split; [lia | lia | lia |]. exists (c + d). lia. Qed.

Lemma alike_mul m x y c : 0 < c -> alike m x y -> alike m (c * x) (c * y).
Proof. intros Hc [H1 H2 H3 [d Hd]]. split; [nia | nia | nia |]. exists (c * d). nia. Qed.

Lemma alike_divide m m' x y : (m | m') -> alike m' x y -> alike m x y.
Proof. intros Hm [H1 H2 H3 Hd]. split; [done.. |]. by etrans. Qed.

Lemma alike_eq m x y : 0 <= x -> x = y -> alike m x y.
Proof. intros Hx ->. by apply alike_refl. Qed.

#[export] Instance alike_proper_add m x : 0 <= x -> Proper (alike m ==> alike m) (Z.add x).
Proof. intros Hx y z Hyz. apply alike_add; [by apply alike_refl | done]. Qed.

(** ** The representative *)

Definition norm (m x : Z) : Z := if bool_decide (x = 0) then 0 else (x - 1) mod m + 1.

Lemma norm_range m x : 0 < m -> 0 <= norm m x <= m.
Proof. intros Hm. unfold norm. case_bool_decide; [lia |]. pose proof (Z.mod_pos_bound (x - 1) m Hm). lia. Qed.

Lemma norm_alike m x : 0 < m -> 0 <= x -> alike m x (norm m x).
Proof.
  intros Hm Hx. pose proof (norm_range m x Hm). unfold norm in *. case_bool_decide as H0; [subst; by apply alike_refl |].
  pose proof (Z.mod_pos_bound (x - 1) m Hm). split; [lia.. |]. exists ((x - 1) / m). pose proof (Z.div_mod (x - 1) m). lia.
Qed.

(** A number alike to [x] and in range is the representative. *)
Lemma norm_unique m x y : 0 < m -> alike m x y -> y <= m -> norm m x = y.
Proof.
  intros Hm [H1 H2 H3 [c Hc]] Hy. unfold norm. case_bool_decide as H0; [lia |].
  assert (x - 1 = y - 1 + c * m) as -> by lia. rewrite Z.mod_add, Z.mod_small by lia. lia.
Qed.

Lemma norm_eq m x y : 0 < m -> alike m x y -> norm m x = norm m y.
Proof.
  intros Hm Hxy. apply norm_unique; [done | | apply norm_range; done].
  eapply alike_trans; [done |]. apply norm_alike; [done | apply Hxy].
Qed.

(** High and low parts added. *)
Lemma alike_split w x : 0 <= w -> 0 <= x -> alike (2 ^ w - 1) x (Z.shiftr x w + x mod 2 ^ w).
Proof.
  intros Hw Hx. pose proof (Z.pow_pos_nonneg 2 w ltac:(lia) Hw). rewrite Z.shiftr_div_pow2 by done.
  pose proof (Z.div_mod x (2 ^ w) ltac:(lia)). pose proof (Z.mod_pos_bound x (2 ^ w) ltac:(lia)). pose proof (Z.div_pos x (2 ^ w) Hx ltac:(lia)).
  split; [lia | lia | nia |]. exists (x / 2 ^ w). nia.
Qed.

(** The moduli of the widths divide one another. *)
Definition m16 : Z := 2 ^ 16 - 1.
Definition m32 : Z := 2 ^ 32 - 1.
Definition m64 : Z := 2 ^ 64 - 1.

Lemma m16_m32 : (m16 | m32).
Proof. by exists (2 ^ 16 + 1). Qed.
Lemma m32_m64 : (m32 | m64).
Proof. by exists (2 ^ 32 + 1). Qed.

Lemma m16_pos : 0 < m16.
Proof. done. Qed.
Lemma m32_pos : 0 < m32.
Proof. done. Qed.

(** ** Buffers as numbers *)

Lemma little_range p : octets p -> 0 <= little p < 256 ^ size p.
Proof.
  unfold octets, size. induction p as [| b p IH]; [done |]. intros [Hb Hp]%Forall_cons. specialize (IH Hp). unfold in_width in Hb.
  cbn [little length]. rewrite Nat2Z.inj_succ, Z.pow_succ_r by lia. lia.
Qed.

Lemma little_nonneg p : octets p -> 0 <= little p.
Proof. intros Hp. by apply little_range. Qed.

Lemma little_app p q : little (p ++ q) = little p + 256 ^ size p * little q.
Proof.
  unfold size. induction p as [| b p IH]; [simpl; lia |]. cbn [little length app]. rewrite IH, Nat2Z.inj_succ, Z.pow_succ_r by lia. lia.
Qed.

Lemma pow_divide n k : 0 <= n -> 0 <= k -> (256 ^ n - 1 | 256 ^ (n * k) - 1).
Proof.
  intros Hn Hk. revert k Hk. apply natlike_ind; [rewrite Z.mul_0_r; by exists 0 |]. intros k Hk [c Hc].
  rewrite Z.mul_succ_r, Z.pow_add_r by nia. exists (c * 256 ^ n + 1). nia.
Qed.

(** Parts that start at a multiple of the word size may be summed. *)
Lemma little_parts n p q :
  0 < n -> (n | size p) -> octets p -> octets q -> alike (256 ^ n - 1) (little (p ++ q)) (little p + little q).
Proof.
  intros Hn [k Hk] Hp Hq. rewrite little_app. pose proof (little_nonneg p Hp). pose proof (little_nonneg q Hq).
  pose proof (size_nonneg p). pose proof (Z.pow_pos_nonneg 256 (size p) ltac:(lia) ltac:(lia)).
  split; [nia | nia | nia |]. destruct (pow_divide n k) as [c Hc]; [lia | nia |]. rewrite Z.mul_comm, <- Hk in Hc. exists (c * little q). nia.
Qed.

Lemma octets_take n p : octets p -> octets (take n p).
Proof. apply Forall_take. Qed.
Lemma octets_drop n p : octets p -> octets (drop n p).
Proof. apply Forall_drop. Qed.

Lemma size_take n p : (n <= length p)%nat -> size (take n p) = Z.of_nat n.
Proof. intros Hn. unfold size. by rewrite length_take_le. Qed.

(** The parts before and after a cut. *)
Lemma little_cut (n : Z) (k : nat) p :
  0 < n -> (k <= length p)%nat -> (n | Z.of_nat k) -> octets p ->
  alike (256 ^ n - 1) (little p) (little (take k p) + little (drop k p)).
Proof.
  intros Hn Hk Hd Hp. rewrite <- (take_drop k p) at 1. apply little_parts; [done | by rewrite size_take | by apply octets_take | by apply octets_drop].
Qed.

End Ones.
