(* ===== verification/ChecksumKernels.v ===== *)
(** * The kernels of the checksum

    Every kernel computes a number alike to the sum of the 32-bit words; folding
    gives the representative, so all of them agree. *)

From S2P Require Import Prelude PacketParse ParseReads Checksum ChecksumMath.
Open Scope Z_scope.

Module Kernels.
Import Parse Reads Checksum Ones.

(** ** Folding *)

Lemma low32_mod x : low32 x = x mod 2 ^ 32.
Proof. unfold low32. change 0xFFFFFFFF with (Z.ones 32). by rewrite Z.land_ones. Qed.

Lemma shiftr_div x n : 0 <= n -> Z.shiftr x n = x / 2 ^ n.
Proof. apply Z.shiftr_div_pow2. Qed.

Lemma reduce_ok x : in_width 64 x -> alike m32 x (reduce x) ∧ reduce x <= 2 ^ 33 - 2.
Proof.
  unfold in_width. intros Hx. pose proof (alike_split 32 x ltac:(lia) ltac:(lia)) as Ha. unfold reduce. rewrite low32_mod.
  pose proof (Z.mod_pos_bound x (2 ^ 32) ltac:(lia)). rewrite shiftr_div in * by lia.
  assert (0 <= x / 2 ^ 32 < 2 ^ 32) by (split; [apply Z.div_pos; lia | apply Z.div_lt_upper_bound; lia]).
  rewrite wrap_small by (unfold in_width; lia). split; [done | lia].
Qed.

(** The carry added once more. *)
Lemma carry_ok w x :
  0 < w -> 0 <= x <= 2 ^ (w + 1) - 2 -> alike (2 ^ w - 1) x (wrap w (x + Z.shiftr x w)) ∧ wrap w (x + Z.shiftr x w) <= 2 ^ w - 1.
Proof.
  intros Hw. rewrite Z.pow_add_r, shiftr_div by lia. change (2 ^ 1) with 2. intros Hx.
  pose proof (Z.pow_le_mono_r 2 1 w ltac:(lia) ltac:(lia)). change (2 ^ 1) with 2 in *. set (M := 2 ^ w) in *.
  destruct (Z.lt_ge_cases x M) as [Hlt | Hge].
  - rewrite Z.div_small, Z.add_0_r, wrap_small by (unfold in_width; fold M; lia). split; [apply alike_refl |]; lia.
  - assert (x / M = 1) as -> by (symmetry; apply (Z.div_unique x M 1 (x - M)); lia).
    assert (wrap w (x + 1) = x + 1 - M) as ->.
    { unfold wrap. fold M. symmetry. apply (Z.mod_unique (x + 1) M 1); lia. }
    split; [| lia]. split; [lia.. |]. exists 1. lia.
Qed.

Lemma Fold64_norm x : in_width 64 x -> Fold64 x = norm m32 x.
Proof.
  intros Hx. destruct (reduce_ok x Hx) as [Ha Hb]. pose proof (al_right _ _ _ Ha). unfold Fold64.
  destruct (carry_ok 32 (reduce x)) as [Hc Hd]; [lia | simpl in *; lia |].
  assert (0 <= Z.shiftr (reduce x) 32 < 4).
  { rewrite shiftr_div by lia. split; [apply Z.div_pos; lia | apply Z.div_lt_upper_bound; simpl in *; lia]. }
  rewrite (wrap_small 64) by (unfold in_width; simpl in *; lia). symmetry. apply norm_unique; [done | by eapply alike_trans | done].
Qed.

Lemma land16 x : Z.land x 0xFFFF = x mod 2 ^ 16.
Proof. change 0xFFFF with (Z.ones 16). by rewrite Z.land_ones. Qed.

Lemma lnot16 x : wrap 16 (Z.lnot x) = m16 - wrap 16 x.
Proof.
  unfold wrap, m16. pose proof (Z.mod_pos_bound x (2 ^ 16) ltac:(lia)). pose proof (Z.div_mod x (2 ^ 16) ltac:(lia)).
  unfold Z.lnot. symmetry. apply (Z.mod_unique _ _ (- (x / 2 ^ 16) - 1)); [left; lia | lia].
Qed.

Lemma FoldChecksum_norm x : in_width 32 x -> FoldChecksum x = m16 - norm m16 x.
Proof.
  unfold in_width. intros Hx. unfold FoldChecksum. rewrite land16, lnot16. f_equal.
  pose proof (alike_split 16 x ltac:(lia) ltac:(lia)) as Ha. rewrite (shiftr_div x) in * by lia.
  pose proof (Z.mod_pos_bound x (2 ^ 16) ltac:(lia)).
  assert (0 <= x / 2 ^ 16 < 2 ^ 16) by (split; [apply Z.div_pos; lia | apply Z.div_lt_upper_bound; lia]).
  set (y := x / 2 ^ 16 + x mod 2 ^ 16) in *. rewrite (wrap_small 32 y) by (unfold in_width; lia).
  destruct (carry_ok 16 y) as [Hc Hd]; [lia | simpl in *; lia |].
  assert (0 <= Z.shiftr y 16 < 4).
  { rewrite shiftr_div by lia. split; [apply Z.div_pos; lia | apply Z.div_lt_upper_bound; simpl in *; lia]. }
  rewrite (wrap_small 32) by (unfold in_width; simpl in *; lia). symmetry. apply norm_unique; [done | by eapply alike_trans | done].
Qed.

(** ** Chains of additions with carry *)

Definition total (us : list Z) : Z := foldr Z.add 0 us.

Lemma total_nonneg w us : Forall (in_width w) us -> 0 <= total us.
Proof. induction 1 as [| u us [Hu _] _ IH]; simpl; lia. Qed.

Lemma total_app us vs : total (us ++ vs) = total us + total vs.
Proof. induction us as [| u us IH]; simpl; lia. Qed.

(** A register and its carry: the carry leaves room for itself. *)
Definition carried (w : Z) (st : Z * Z) : Prop :=
  in_width w st.1 ∧ (st.2 = 0 ∨ (st.2 = 1 ∧ st.1 <= 2 ^ w - 2)).

Lemma adc_ok w st u :
  0 < w -> carried w st -> in_width w u ->
  carried w (adc w st u) ∧ alike (2 ^ w - 1) (st.1 + st.2 + u) ((adc w st u).1 + (adc w st u).2).
Proof.
  destruct st as [s c]. unfold carried, adc, in_width. cbn [fst snd]. intros Hw [Hs Hc] Hu. set (M := 2 ^ w) in *. set (t := s + u + c).
  rewrite shiftr_div by lia. unfold wrap. fold M. destruct (Z.lt_ge_cases t M) as [Hlt | Hge].
  - rewrite Z.mod_small, Z.div_small by lia. split; [split; [lia | by left] |]. apply alike_eq; lia.
  - assert (t / M = 1) as -> by (symmetry; apply (Z.div_unique t M 1 (t - M)); lia).
    assert (t mod M = t - M) as -> by (symmetry; apply (Z.mod_unique t M 1); lia).
    split; [split; [lia | right; lia] |]. split; [lia.. |]. exists 1. lia.
Qed.

Lemma adc_fold w us st :
  0 < w -> carried w st -> Forall (in_width w) us ->
  carried w (fold_left (adc w) us st) ∧
  alike (2 ^ w - 1) (st.1 + st.2 + total us) ((fold_left (adc w) us st).1 + (fold_left (adc w) us st).2).
Proof.
  intros Hw. revert st. induction us as [| u us IH]; intros st Hst Hus; cbn [fold_left total foldr].
  - split; [done |]. apply alike_eq; [destruct Hst as [[? _] ?]; lia | lia].
  - apply Forall_cons in Hus as [Hu Hus]. destruct (adc_ok w st u Hw Hst Hu) as [Hc Ha]. destruct (IH _ Hc Hus) as [Hc' Ha'].
    split; [done |]. eapply alike_trans; [| exact Ha']. fold (total us). rewrite Z.add_assoc.
    apply alike_add; [done | apply alike_refl; by eapply total_nonneg].
Qed.

Lemma add_chain_norm w us sum :
  0 < w -> in_width w sum -> Forall (in_width w) us -> add_chain w us sum = norm (2 ^ w - 1) (sum + total us).
Proof.
  intros Hw Hs Hus. destruct (adc_fold w us (sum, 0) Hw) as [[Hc1 Hc2] Ha]; [split; [done | by left] | done |].
  unfold add_chain. destruct (fold_left _ _ _) as [s c]. cbn [fst snd] in *. rewrite Z.add_0_r in Ha. unfold in_width in *.
  pose proof (Z.pow_le_mono_r 2 1 w ltac:(lia) ltac:(lia)). change (2 ^ 1) with 2 in *.
  rewrite wrap_small by (unfold in_width; lia). symmetry. apply norm_unique; [lia | done | lia].
Qed.

(** The header words, on every machine. *)
Lemma AddWords32_norm k sum us :
  in_width 32 sum -> Forall (in_width 32) us -> (length us <= 16)%nat -> AddWords32 k sum us = norm m32 (sum + total us).
Proof.
  intros Hs Hus Hlen. destruct k; [by apply add_chain_norm.. |]. cbn [AddWords32].
  assert (∀ us s, Forall (in_width 32) us -> 0 <= s -> s + 2 ^ 32 * Z.of_nat (length us) < 2 ^ 64 ->
    fold_left (fun s v => wrap 64 (s + v)) us s = s + total us) as Hf.
  { clear. induction us as [| u us IH]; intros s Hus Hs Hb; cbn [fold_left total foldr]; [lia |]. apply Forall_cons in Hus as [Hu Hus].
    unfold in_width in Hu. cbn [length] in Hb. rewrite wrap_small by (unfold in_width; lia). rewrite IH by (try done; lia). fold (total us). lia. }
  unfold in_width in Hs. rewrite Hf by (try done; lia). fold (Fold64 (sum + total us)). apply Fold64_norm.
  assert (∀ us, Forall (in_width 32) us -> 0 <= total us <= 2 ^ 32 * Z.of_nat (length us)) as Hb.
  { clear. induction 1 as [| u us [H1 H2] _ IH]; cbn [total foldr length]; [lia |]. fold (total us). lia. }
  specialize (Hb us Hus). unfold in_width. lia.
Qed.

(** ** Words of a buffer *)

Lemma cut4 k p : (4 * k <= length p)%nat -> octets p -> alike m32 (little p) (little (take (4 * k) p) + little (drop (4 * k) p)).
Proof. intros Hk Hp. apply (little_cut 4); [lia | done | exists (Z.of_nat k); lia | done]. Qed.

Lemma cut8 k p : (8 * k <= length p)%nat -> octets p -> alike m64 (little p) (little (take (8 * k) p) + little (drop (8 * k) p)).
Proof. intros Hk Hp. apply (little_cut 8); [lia | done | exists (Z.of_nat k); lia | done]. Qed.

Lemma little_width n p : octets p -> (length p <= n)%nat -> in_width (8 * Z.of_nat n) (little p).
Proof.
  intros Hp Hn. pose proof (little_range p Hp) as Hr. unfold in_width. split; [apply Hr |]. eapply Z.lt_le_trans; [apply Hr |].
  change 256 with (2 ^ 8). rewrite <- Z.pow_mul_r by (unfold size; lia). apply Z.pow_le_mono_r; unfold size; lia.
Qed.

Lemma qword_width p k : octets p -> in_width 64 (qword p k).
Proof. intros Hp. apply (little_width 8); [by apply octets_take, octets_drop | rewrite length_take; lia]. Qed.

Lemma dword_width p k : octets p -> in_width 32 (dword p k).
Proof. intros Hp. apply (little_width 4); [by apply octets_take, octets_drop | rewrite length_take; lia]. Qed.

(** The first words, and the rest. *)
Lemma words8 n p :
  (8 * n <= length p)%nat -> octets p -> alike m64 (little p) (total (qword p <$> seq 0 n) + little (drop (8 * n) p)).
Proof.
  induction n as [| n IH]; intros Hn Hp; [apply alike_refl, little_nonneg; done |].
  eapply alike_trans; [apply IH; [lia | done] |]. rewrite seq_S, fmap_app, total_app. cbn [fmap list_fmap total foldr].
  rewrite Z.add_0_r, <- Z.add_assoc. apply alike_add; [apply alike_refl, (total_nonneg 64), Forall_fmap, Forall_true; intros; by apply qword_width |].
  unfold qword. replace (drop (8 * S n) p) with (drop (8 * 1) (drop (8 * n) p)) by (rewrite drop_drop; f_equal; lia).
  apply (cut8 1); [rewrite length_drop; lia | by apply octets_drop].
Qed.

Lemma words4 n p :
  (4 * n <= length p)%nat -> octets p -> alike m32 (little p) (total (dword p <$> seq 0 n) + little (drop (4 * n) p)).
Proof.
  induction n as [| n IH]; intros Hn Hp; [apply alike_refl, little_nonneg; done |].
  eapply alike_trans; [apply IH; [lia | done] |]. rewrite seq_S, fmap_app, total_app. cbn [fmap list_fmap total foldr].
  rewrite Z.add_0_r, <- Z.add_assoc. apply alike_add; [apply alike_refl, (total_nonneg 32), Forall_fmap, Forall_true; intros; by apply dword_width |].
  unfold dword. replace (drop (4 * S n) p) with (drop (4 * 1) (drop (4 * n) p)) by (rewrite drop_drop; f_equal; lia).
  apply (cut4 1); [rewrite length_drop; lia | by apply octets_drop].
Qed.

(** ** Add-with-carry loops *)

Lemma adc_loop_ok n fuel p sum :
  (0 < n)%nat -> (length p <= fuel)%nat -> octets p -> in_width 64 sum ->
  let '(sum', p') := adc_loop n fuel p sum in
  alike m64 (sum + little p) (sum' + little p') ∧ in_width 64 sum' ∧ octets p' ∧ (length p' < 8 * n)%nat ∧
  ∃ k, length p = (8 * n * k + length p')%nat.
Proof.
  intros Hn. revert p sum. induction fuel as [| fuel IH]; intros p sum Hf Hp Hs; cbn [adc_loop].
  { split_and!; [apply alike_refl; pose proof (little_nonneg p Hp); unfold in_width in *; lia | done | done | lia | by exists 0%nat; lia]. }
  case_bool_decide as Hlen.
  2: { split_and!; [apply alike_refl; pose proof (little_nonneg p Hp); unfold in_width in *; lia | done | done | lia | by exists 0%nat; lia]. }
  set (us := qword p <$> seq 0 n).
  assert (Forall (in_width 64) us) as Hus by (apply Forall_fmap, Forall_true; intros; by apply qword_width).
  rewrite (add_chain_norm 64 us sum) by (try done; lia). fold m64. pose proof (norm_range m64 (sum + total us) ltac:(done)) as Hr.
  specialize (IH (drop (8 * n) p) (norm m64 (sum + total us))). rewrite length_drop in IH.
  destruct (adc_loop n fuel _ _) as [sum' p']. destruct IH as (H1 & H2 & H3 & H4 & k & Hk);
    [lia | by apply octets_drop | unfold in_width, m64 in *; lia |].
  split_and!; try done; [| exists (S k); nia]. eapply alike_trans; [| exact H1]. pose proof (total_nonneg 64 us Hus).
  eapply alike_trans; [apply alike_add; [apply alike_refl, Hs | by apply (words8 n)] |]. fold us. rewrite Z.add_assoc.
  apply alike_add; [apply norm_alike; [done |]; unfold in_width in *; lia | by apply alike_refl, little_nonneg, octets_drop].
Qed.

(** The two loops take everything. *)
Lemma adc_sum_ok p sum :
  octets p -> in_width 64 sum -> (16 | size p) ->
  let '(sum8, p8) := adc_loop 8 (length p) p sum in
  let '(sum2, p2) := adc_loop 2 (length p8) p8 sum8 in
  alike m64 (sum + little p) sum2 ∧ in_width 64 sum2.
Proof.
  intros Hp Hs [c Hc]. pose proof (adc_loop_ok 8 (length p) p sum ltac:(lia) ltac:(lia) Hp Hs) as H8.
  destruct (adc_loop 8 (length p) p sum) as [sum8 p8]. destruct H8 as (Ha & Hs8 & Hp8 & _ & k & Hk).
  pose proof (adc_loop_ok 2 (length p8) p8 sum8 ltac:(lia) ltac:(lia) Hp8 Hs8) as H2.
  destruct (adc_loop 2 (length p8) p8 sum8) as [sum2 p2]. destruct H2 as (Hb & Hs2 & Hp2 & Hl2 & j & Hj).
  split; [| done]. assert (p2 = []) as -> by (apply nil_length_inv; unfold size in Hc; lia).
  simpl in Hb. rewrite Z.add_0_r in Hb. by eapply alike_trans.
Qed.

(** ** Vector lanes *)

Definition lane_ok (B : Z) (l : list Z) : Prop := length l = 4%nat ∧ Forall (fun x => 0 <= x <= B) l.

Lemma add_epi64_ok B B' a b :
  lane_ok B a -> lane_ok B' b -> B + B' < 2 ^ 64 -> lane_ok (B + B') (add_epi64 a b) ∧ total (add_epi64 a b) = total a + total b.
Proof.
  intros [Ha HA] [Hb HB] HM. do 4 (destruct a as [| ? a]; [done |]). do 4 (destruct b as [| ? b]; [done |]).
  destruct a; [| done]. destruct b; [| done]. rewrite !Forall_cons in HA, HB.
  unfold lane_ok, add_epi64. cbn [zip_with length]. rewrite !wrap_small by (unfold in_width; lia). simpl.
  rewrite !Forall_cons. split; [| lia]. split_and!; [lia.. | apply Forall_nil; done].
Qed.

(** [n] vectors of each stream were added. *)
Definition lanes_ok (n : Z) (l : lanes) : Prop :=
  lane_ok (n * m32) (a_hi l) ∧ lane_ok (n * m32) (a_lo l) ∧ lane_ok (n * m32) (b_hi l) ∧ lane_ok (n * m32) (b_lo l).
Definition lanes_total (l : lanes) : Z := total (a_hi l) + total (a_lo l) + total (b_hi l) + total (b_lo l).

Lemma unpack_ok p : octets p -> lane_ok m32 (unpackhi p) ∧ lane_ok m32 (unpacklo p).
Proof.
  intros Hp. assert (∀ k, 0 <= dword p k <= m32) as Hd.
  { intros k. pose proof (dword_width p k Hp) as Hw. unfold in_width, m32 in *. lia. }
  split; (split; [done | unfold unpackhi, unpacklo; rewrite !Forall_cons; split_and!; [apply Hd.. | by apply Forall_nil]]).
Qed.

Lemma load_lanes_ok p : octets p -> lanes_ok 1 (load_lanes p) ∧ lanes_total (load_lanes p) = total (dword p <$> seq 0 16).
Proof.
  intros Hp. pose proof (unpack_ok p Hp) as [H1 H2]. pose proof (unpack_ok (drop 32 p) (octets_drop 32 p Hp)) as [H3 H4].
  unfold lanes_ok, lanes_total. rewrite Z.mul_1_l. split; [done |]. cbn [load_lanes a_hi a_lo b_hi b_lo].
  unfold unpackhi, unpacklo, dword. rewrite !drop_drop. cbn [seq fmap list_fmap total foldr Nat.mul Nat.add]. lia.
Qed.

Lemma add_lanes_ok n l p :
  0 <= n < 2 ^ 31 -> lanes_ok n l -> octets p ->
  lanes_ok (n + 1) (add_lanes l p) ∧ lanes_total (add_lanes l p) = lanes_total l + total (dword p <$> seq 0 16).
Proof.
  intros Hn (H1 & H2 & H3 & H4) Hp. destruct (load_lanes_ok p Hp) as [(L1 & L2 & L3 & L4) <-]. rewrite Z.mul_1_l in *.
  cbn [load_lanes a_hi a_lo b_hi b_lo] in *. unfold m32 in *.
  destruct (add_epi64_ok _ _ _ _ H1 L1) as [A1 T1]; [lia |]. destruct (add_epi64_ok _ _ _ _ H2 L2) as [A2 T2]; [lia |].
  destruct (add_epi64_ok _ _ _ _ H3 L3) as [A3 T3]; [lia |]. destruct (add_epi64_ok _ _ _ _ H4 L4) as [A4 T4]; [lia |].
  unfold lanes_ok, lanes_total, add_lanes. cbn [a_hi a_lo b_hi b_lo]. rewrite T1, T2, T3, T4, Z.mul_add_distr_r, Z.mul_1_l.
  split; [done | cbn [load_lanes a_hi a_lo b_hi b_lo]; lia].
Qed.

Lemma avx2_loop_ok fuel p l n :
  (length p <= fuel)%nat -> octets p -> lanes_ok n l -> 0 <= n -> 64 * n + size p < 2 ^ 33 -> 0 <= lanes_total l ->
  let '(l', p') := avx2_loop fuel p l in
  ∃ n', 0 <= n' < 2 ^ 27 ∧ lanes_ok n' l' ∧ 0 <= lanes_total l' ∧ octets p' ∧
    alike m32 (lanes_total l + little p) (lanes_total l' + little p') ∧ ∃ k, length p = (64 * k + length p')%nat.
Proof.
  revert p l n. induction fuel as [| fuel IH]; intros p l n Hf Hp Hl Hn Hb Ht; cbn [avx2_loop].
  { exists n. unfold size in Hb. split_and!; try done; [lia | apply alike_refl; pose proof (little_nonneg p Hp); lia | by exists 0%nat]. }
  case_bool_decide as Hlen.
  2: { exists n. unfold size in Hb. split_and!; try done; [lia | apply alike_refl; pose proof (little_nonneg p Hp); lia | by exists 0%nat]. }
  destruct (add_lanes_ok n l p) as [Hl' Ht']; [unfold size in Hb; lia | done | done |].
  assert (0 <= total (dword p <$> seq 0 16)) as Hpos
    by (apply (total_nonneg 32), Forall_fmap, Forall_true; intros; by apply dword_width).
  specialize (IH (drop 64 p) (add_lanes l p) (n + 1)). destruct (avx2_loop fuel _ _) as [l' p'].
  destruct IH as (n' & H1 & H2 & H3 & H4 & H5 & k & Hk);
    [rewrite length_drop; lia | by apply octets_drop | done | lia | unfold size in *; rewrite length_drop; lia | lia |].
  exists n'. split_and!; try done; [lia.. | | exists (S k); rewrite length_drop in Hk; lia].
  eapply alike_trans; [| exact H5]. rewrite Ht', <- Z.add_assoc. apply alike_add; [by apply alike_refl |]. by apply (words4 16).
Qed.

Lemma total4 B l : lane_ok B l -> total l = nth 0 l 0 + nth 1 l 0 + nth 2 l 0 + nth 3 l 0.
Proof. intros [Hl _]. do 4 (destruct l as [| ? l]; [done |]). destruct l; [simpl; lia | done]. Qed.

Lemma avx2_sum_ok p :
  (128 <= length p)%nat -> size p < 2 ^ 32 -> octets p ->
  let '(sum, p') := avx2_sum p in
  alike m32 (little p) (sum + little p') ∧ in_width 64 sum ∧ octets p' ∧ ∃ k, length p = (64 * k + length p')%nat.
Proof.
  intros Hlen Hsz Hp. unfold avx2_sum. destruct (load_lanes_ok p Hp) as [Hl Ht].
  assert (0 <= total (dword p <$> seq 0 16)) as Hpos
    by (apply (total_nonneg 32), Forall_fmap, Forall_true; intros; by apply dword_width).
  pose proof (avx2_loop_ok (length p) (drop 64 p) (load_lanes p) 1) as Hloop.
  destruct (avx2_loop _ _ _) as [l p']. destruct Hloop as (n & Hn & (H1 & H2 & H3 & H4) & _ & Hp' & Ha & k & Hk);
    [rewrite length_drop; lia | by apply octets_drop | done | lia | unfold size in *; rewrite length_drop; lia | lia |].
  rewrite length_drop in Hk. unfold m32 in H1, H2, H3, H4.
  destruct (add_epi64_ok _ _ _ _ H1 H2) as [A1 T1]; [lia |]. destruct (add_epi64_ok _ _ _ _ H3 H4) as [A2 T2]; [lia |].
  destruct (add_epi64_ok _ _ _ _ A1 A2) as [A3 T3]; [lia |]. set (sum256 := add_epi64 (add_epi64 (a_hi l) (a_lo l)) (add_epi64 (b_hi l) (b_lo l))) in *. clearbody sum256. pose proof (total4 _ _ A3) as H256.
  destruct A3 as [Hl4 Hb4]. do 4 (destruct sum256 as [| ? sum256]; [done |]). destruct sum256; [| done].
  rewrite !Forall_cons in Hb4. cbn [nth] in H256. cbn [take drop add_epi64 zip_with extract nth].
  rewrite !(wrap_small 64) by (repeat rewrite wrap_small; unfold in_width; lia). rewrite Z.add_0_l.
  split_and!; [| unfold in_width; lia | done | exists (S k); lia].
  eapply alike_trans; [apply (words4 16); [lia | done] |]. rewrite <- Ht. eapply alike_trans; [exact Ha |].
  apply alike_eq; [apply Ha |]. unfold lanes_total. lia.
Qed.

(** ** The portable loop *)

Lemma halves_ok todo p lo hi :
  (8 * todo <= length p)%nat -> octets p -> 0 <= lo -> 0 <= hi ->
  lo + m32 * Z.of_nat todo < 2 ^ 63 -> hi + m32 * Z.of_nat todo < 2 ^ 63 ->
  let '(lo', hi') := halves todo p lo hi in
  alike m32 (lo + hi + little p) (lo' + hi' + little (drop (8 * todo) p)) ∧ 0 <= lo' < 2 ^ 63 ∧ 0 <= hi' < 2 ^ 63.
Proof.
  revert p lo hi. induction todo as [| todo IH]; intros p lo hi Hlen Hp Hlo Hhi Hbl Hbh; cbn [halves].
  { change (drop (8 * 0) p) with p. split; [apply alike_refl; pose proof (little_nonneg p Hp); lia | lia]. }
  set (w := little (take 8 p)). assert (in_width 64 w) as Hw by (apply (qword_width p 0 Hp)). unfold in_width in Hw.
  pose proof (alike_split 32 w ltac:(lia) ltac:(lia)) as Hs. rewrite low32_mod. rewrite shiftr_div in * by lia.
  pose proof (Z.mod_pos_bound w (2 ^ 32) ltac:(lia)).
  assert (0 <= w / 2 ^ 32 < 2 ^ 32) by (split; [apply Z.div_pos; lia | apply Z.div_lt_upper_bound; lia]).
  unfold m32 in Hbl, Hbh. rewrite !wrap_small by (unfold in_width; lia).
  specialize (IH (drop 8 p) (lo + w mod 2 ^ 32) (hi + w / 2 ^ 32)). destruct (halves todo _ _ _) as [lo' hi'].
  destruct IH as (Ha & H1 & H2); [rewrite length_drop; lia | by apply octets_drop | lia | lia | unfold m32; lia.. |].
  split; [| done]. rewrite drop_drop in Ha. replace (8 * S todo)%nat with (8 + 8 * todo)%nat by lia.
  eapply alike_trans; [| exact Ha]. pose proof (little_nonneg _ (octets_drop 8 p Hp)).
  eapply alike_trans; [apply alike_add; [apply alike_refl; lia | apply (cut4 2); [lia | done]] |]. fold w. cbn [Nat.mul Nat.add].
  replace (lo + w mod 2 ^ 32 + (hi + w / 2 ^ 32) + little (drop 8 p)) with (lo + hi + (w / 2 ^ 32 + w mod 2 ^ 32 + little (drop 8 p))) by lia.
  apply alike_add; [apply alike_refl; lia |]. apply alike_add; [done | apply alike_refl; lia].
Qed.

(** ** The sum of 32-bit words, on every machine *)

Lemma SumWords32_ok k p :
  octets p -> size p < 2 ^ 32 -> (16 | size p) -> alike m32 (little p) (SumWords32 k p) ∧ SumWords32 k p <= 2 ^ 33 - 2.
Proof.
  intros Hp Hsz Hdiv.
  assert (∀ sum q, alike m32 (little p) (sum + little q) -> in_width 64 sum -> octets q -> (16 | size q) ->
    ∀ r, r = (let '(sum64, q8) := adc_loop 8 (length q) q sum in
              let '(sum64, q2) := adc_loop 2 (length q8) q8 sum64 in reduce sum64) ->
    alike m32 (little p) r ∧ r <= 2 ^ 33 - 2) as Hx86.
  { intros sum q Ha Hs Hq Hd r ->. pose proof (adc_sum_ok q sum Hq Hs Hd) as H. destruct (adc_loop 8 _ _ _) as [sum8 q8].
    destruct (adc_loop 2 _ _ _) as [sum2 q2]. destruct H as [Hb Hw]. destruct (reduce_ok sum2 Hw) as [Hr Hle]. split; [| done].
    eapply alike_trans; [exact Ha |]. eapply alike_trans; [eapply alike_divide; [apply m32_m64 | exact Hb] | exact Hr]. }
  assert (in_width 64 0) as H0 by (unfold in_width; lia). pose proof (alike_refl m32 _ (little_nonneg p Hp)) as Hrefl.
  destruct k; cbn [SumWords32].
  - case_bool_decide as Hlen; [| by apply (Hx86 0 p)]. pose proof (avx2_sum_ok p Hlen Hsz Hp) as Hav. destruct (avx2_sum p) as [sum q].
    destruct Hav as (Ha & Hs & Hq & j & Hj). apply (Hx86 sum q); try done. destruct Hdiv as [c Hc]. exists (c - 4 * Z.of_nat j). unfold size in *. lia.
  - by apply (Hx86 0 p).
  - destruct Hdiv as [c Hc]. unfold size in Hsz, Hc. assert (8 * (length p / 8) = length p)%nat as H8.
    { symmetry. apply Nat.Div0.div_exact. replace (length p) with (Z.to_nat c * 2 * 8)%nat by lia. apply Nat.Div0.mod_mul. }
    pose proof (halves_ok (length p / 8) p 0 0 ltac:(lia) Hp ltac:(lia) ltac:(lia)) as H. unfold m32 in H at 1 2.
    destruct (halves _ _ _ _) as [lo hi]. destruct H as (Ha & H1 & H2); [lia.. |].
    rewrite H8, drop_all in Ha. cbn [little] in Ha. rewrite !Z.add_0_r, Z.add_0_l in Ha. rewrite wrap_small by (unfold in_width; lia).
    destruct (reduce_ok (lo + hi)) as [Hr Hle]; [unfold in_width; lia |]. split; [by eapply alike_trans | done].
Qed.

(** ** The tail *)

Fixpoint le_words (p : list Z) : list Z :=
  match p with
  | a :: b :: p => little [a; b] :: le_words p
  | [a] => [a]
  | [] => []
  end.

Lemma pairs_ind (Q : list Z -> Prop) :
  Q [] -> (∀ a, Q [a]) -> (∀ a b p, Q p -> Q (a :: b :: p)) -> ∀ p, Q p.
Proof.
  intros H0 H1 H2 p. assert (Q p ∧ ∀ a, Q (a :: p)) as [H _]; [| done]. induction p as [| b p [IH1 IH2]]; [done |]. split; [apply IH2 |].
  intros a. by apply H2.
Qed.

Lemma le_words_width p : octets p -> Forall (in_width 16) (le_words p).
Proof.
  induction p as [| a | a b p IH] using pairs_ind; intros Hp; cbn [le_words].
  - constructor.
  - apply Forall_cons in Hp as [Ha _]. unfold in_width in *. constructor; [unfold in_width; lia | constructor].
  - apply Forall_cons in Hp as [Ha [Hb Hp]%Forall_cons]. unfold in_width in *. constructor; [unfold in_width; simpl; lia | by apply IH].
Qed.

Lemma le_words_alike p : octets p -> alike m16 (little p) (total (le_words p)).
Proof.
  induction p as [| a | a b p IH] using pairs_ind; intros Hp; cbn [le_words].
  - by apply alike_refl.
  - apply alike_eq; [by apply little_nonneg | simpl; lia].
  - change (a :: b :: p) with ([a; b] ++ p). change (octets ([a; b] ++ p)) in Hp. apply octets_app in Hp as [Hab Hp].
    eapply alike_trans; [apply (little_parts 2); [lia | by exists 1 | done | done] |].
    apply (alike_add m16 (little [a; b]) (little [a; b])); [by apply alike_refl, little_nonneg | by apply IH].
Qed.

Lemma le_words_total p : octets p -> total (le_words p) <= 65536 * size p.
Proof.
  unfold size. induction p as [| a | a b p IH] using pairs_ind; intros Hp; cbn [le_words total foldr length].
  - lia.
  - apply Forall_cons in Hp as [Ha _]. unfold in_width in Ha. lia.
  - apply Forall_cons in Hp as [Ha [Hb Hp]%Forall_cons]. unfold in_width in *. specialize (IH Hp). fold (total (le_words p)). cbn [little]. lia.
Qed.

Lemma sum_tail_exact p sum :
  octets p -> 0 <= sum -> sum + 65536 * size p < 2 ^ 64 -> sum_tail p sum = sum + total (le_words p).
Proof.
  revert sum. induction p as [| a | a b p IH] using pairs_ind; intros sum Hp Hs Hb; cbn [le_words sum_tail total foldr].
  - lia.
  - apply Forall_cons in Hp as [Ha _]. unfold in_width, size in *. cbn [length] in *. rewrite wrap_small by (unfold in_width; lia). lia.
  - pose proof (little_range [a; b]) as Hab. change (octets ([a; b] ++ p)) in Hp. apply octets_app in Hp as [Ho Hp]. specialize (Hab Ho).
    unfold size in *. cbn [length] in *. change (256 ^ Z.of_nat 2) with 65536 in Hab.
    rewrite wrap_small by (unfold in_width; lia). rewrite IH by (try done; lia). fold (total (le_words p)). lia.
Qed.

(** ** Sums and checksums *)

Definition whole (buf : list Z) : nat := (length buf / 16 * 16)%nat.

Lemma whole_ok buf : (whole buf <= length buf)%nat ∧ (length buf < whole buf + 16)%nat ∧ (16 | Z.of_nat (whole buf)).
Proof.
  unfold whole. pose proof (Nat.div_mod_eq (length buf) 16). pose proof (Nat.mod_upper_bound (length buf) 16).
  split_and!; [lia.. |]. exists (Z.of_nat (length buf / 16)). lia.
Qed.

(** The sum is the representative of a number that no kernel enters. *)
Lemma CalculateSum_norm k buf :
  octets buf -> size buf < 2 ^ 32 ->
  CalculateSum k buf = norm m32 (little (take (whole buf) buf) + total (le_words (drop (whole buf) buf))).
Proof.
  intros Hb Hs. destruct (whole_ok buf) as (H1 & H2 & H3). unfold CalculateSum. fold (whole buf).
  destruct (SumWords32_ok k (take (whole buf) buf)) as [Ha Hle]; [by apply octets_take | | by rewrite size_take |].
  { rewrite size_take by done. unfold size in Hs. lia. }
  pose proof (al_right _ _ _ Ha). pose proof (le_words_width _ (octets_drop (whole buf) buf Hb)) as Hw. pose proof (total_nonneg _ _ Hw).
  pose proof (size_nonneg (drop (whole buf) buf)) as Hn. assert (size (drop (whole buf) buf) < 16) by (unfold size; rewrite length_drop; lia).
  pose proof (le_words_total _ (octets_drop (whole buf) buf Hb)).
  rewrite sum_tail_exact by (try (by apply octets_drop); lia). rewrite Fold64_norm by (unfold in_width; lia).
  apply norm_eq; [done |]. apply alike_add; [by apply alike_sym | by apply alike_refl].
Qed.

End Kernels.
