(* ===== verification/ChecksumSpec.v ===== *)
(** * The checksum of RFC 1071

    The complement of the one's-complement sum of the 16-bit words in network
    order, and what the sums and folds of [Checksum.v] are to it. *)

From S2P Require Import Prelude PacketParse ParseReads Checksum ChecksumMath ChecksumKernels.
Open Scope Z_scope.

Module Rfc1071.
Import Parse Reads Checksum Ones Kernels.

(** ** The specification *)

Fixpoint be_words (p : list Z) : list Z :=
  match p with
  | a :: b :: p => (256 * a + b) :: be_words p
  | [a] => [256 * a]
  | [] => []
  end.

Definition ones_add (x y : Z) : Z := if bool_decide (x + y <= 65535) then x + y else x + y - 65535.
Definition rfc1071 (p : list Z) : Z := 65535 - fold_left ones_add (be_words p) 0.

(** ** As a representative *)

Lemma be_words_width p : octets p -> Forall (in_width 16) (be_words p).
Proof.
  induction p as [| a | a b p IH] using pairs_ind; intros Hp; cbn [be_words].
  - constructor.
  - apply Forall_cons in Hp as [Ha _]. unfold in_width in *. constructor; [unfold in_width; lia | constructor].
  - apply Forall_cons in Hp as [Ha [Hb Hp]%Forall_cons]. unfold in_width in *. constructor; [unfold in_width; lia | by apply IH].
Qed.

Lemma ones_fold ws acc :
  Forall (in_width 16) ws -> 0 <= acc <= m16 -> fold_left ones_add ws acc = norm m16 (acc + total ws).
Proof.
  revert acc. induction ws as [| w ws IH]; intros acc Hws Hacc; cbn [fold_left total foldr].
  { symmetry. apply norm_unique; [done | apply alike_eq; lia | lia]. }
  apply Forall_cons in Hws as [Hw Hws]. unfold in_width in Hw. fold (total ws). pose proof (total_nonneg _ _ Hws).
  assert (alike m16 (acc + w) (ones_add acc w) ∧ ones_add acc w <= m16) as [Ha Hle].
  { unfold ones_add, m16 in *. case_bool_decide; (split; [| lia]); [apply alike_refl; lia |]. split; [lia.. |]. exists 1. lia. }
  rewrite IH; [| done | split; [apply Ha | done]]. apply norm_eq; [done |]. rewrite Z.add_assoc.
  apply alike_add; [by apply alike_sym | by apply alike_refl].
Qed.

Lemma be_words_alike p : octets p -> alike m16 (256 * little p) (total (be_words p)).
Proof.
  intros Hp. eapply alike_trans; [apply alike_mul; [lia | by apply le_words_alike] |].
  induction p as [| a | a b p IH] using pairs_ind; cbn [le_words be_words total foldr].
  - by apply alike_refl.
  - apply Forall_cons in Hp as [Ha _]. unfold in_width in Ha. apply alike_eq; lia.
  - apply Forall_cons in Hp as [Ha [Hb Hp]%Forall_cons]. unfold in_width in *. fold (total (le_words p)) (total (be_words p)).
    rewrite Z.mul_add_distr_l. apply alike_add; [| by apply IH]. cbn [little]. split; [lia.. |]. exists b. unfold m16. lia.
Qed.

Lemma rfc1071_norm p : octets p -> rfc1071 p = m16 - norm m16 (256 * little p).
Proof.
  intros Hp. unfold rfc1071. rewrite ones_fold by (try (by apply be_words_width); unfold m16; lia). rewrite Z.add_0_l.
  change 65535 with m16. f_equal. apply norm_eq; [done |]. by apply alike_sym, be_words_alike.
Qed.

(** ** Byte order *)

Lemma swap16_val x : in_width 16 x -> swap16 x = x mod 256 * 256 + x / 256.
Proof.
  unfold in_width. intros Hx. unfold swap16, wrap.
  pose proof (Z.div_mod x 256 ltac:(lia)). pose proof (Z.mod_pos_bound x 256 ltac:(lia)).
  assert (0 <= x / 256 < 256) by (split; [apply Z.div_pos; lia | apply Z.div_lt_upper_bound; lia]).
  rewrite shiftr_div by lia. change (2 ^ 8) with 256. rewrite Z.lor_comm, lor_shift by lia.
  change (2 ^ 8) with 256. change (2 ^ 16) with 65536. symmetry. apply (Z.mod_unique _ _ (x / 256)); [left; lia | lia].
Qed.

Lemma swap16_width x : in_width 16 (swap16 x).
Proof. apply wrap_range. lia. Qed.

Lemma norm_swap x : 0 <= x -> norm m16 (256 * x) = swap16 (norm m16 x).
Proof.
  intros Hx. pose proof (norm_range m16 x m16_pos) as Hr. pose proof (norm_alike m16 x m16_pos Hx) as Ha. set (y := norm m16 x) in *.
  unfold m16 in Hr. rewrite swap16_val by (unfold in_width; lia).
  pose proof (Z.div_mod y 256 ltac:(lia)). pose proof (Z.mod_pos_bound y 256 ltac:(lia)).
  assert (0 <= y / 256 < 256) by (split; [apply Z.div_pos; lia | apply Z.div_lt_upper_bound; lia]).
  apply norm_unique; [done | | unfold m16; lia]. eapply alike_trans; [apply alike_mul; [lia | exact Ha] |].
  split; [lia.. |]. exists (y / 256). unfold m16. lia.
Qed.

Lemma swap16_complement x : 0 <= x <= m16 -> swap16 (m16 - x) = m16 - swap16 x.
Proof.
  unfold m16. intros Hx. rewrite !swap16_val by (unfold in_width; lia). Z.div_mod_to_equations. lia.
Qed.

Lemma swap16_twice x : in_width 16 x -> swap16 (swap16 x) = x.
Proof.
  intros Hx. rewrite (swap16_val (swap16 x)) by apply swap16_width. rewrite swap16_val by done. unfold in_width in Hx.
  Z.div_mod_to_equations. lia.
Qed.

(** The complement of a representative, in the order it is stored. *)
Lemma rfc1071_swap p : octets p -> swap16 (rfc1071 p) = m16 - norm m16 (little p).
Proof.
  intros Hp. pose proof (little_nonneg p Hp). pose proof (norm_range m16 (little p) m16_pos).
  rewrite rfc1071_norm, norm_swap, swap16_complement by (try done; pose proof (swap16_width (norm m16 (little p))); unfold in_width, m16 in *; lia).
  rewrite swap16_twice; [done | unfold in_width, m16 in *; lia].
Qed.

Lemma rfc1071_width p : octets p -> in_width 16 (rfc1071 p).
Proof.
  intros Hp. rewrite rfc1071_norm by done. pose proof (norm_range m16 (256 * little p) m16_pos). unfold in_width, m16 in *. lia.
Qed.

Lemma swap16_zero x : in_width 16 x -> swap16 x = 0 <-> x = 0.
Proof. intros Hx. rewrite swap16_val by done. unfold in_width in Hx. Z.div_mod_to_equations. lia. Qed.

(** ** Sums *)

Lemma CalculateSum_ok k p :
  octets p -> size p < 2 ^ 32 -> in_width 32 (CalculateSum k p) ∧ alike m16 (little p) (CalculateSum k p).
Proof.
  intros Hp Hs. rewrite CalculateSum_norm by done. set (x := little _ + total _).
  assert (alike m16 (little p) x) as Ha.
  { destruct (whole_ok p) as (H1 & _ & H3). eapply alike_trans.
    - apply (little_cut 2 (whole p)); [lia | done | etrans; [by exists 8 | exact H3] | done].
    - apply alike_add; [by apply alike_refl, little_nonneg, octets_take | by apply le_words_alike, octets_drop]. }
  pose proof (norm_range m32 x m32_pos). split; [unfold in_width, m32 in *; lia |].
  eapply alike_trans; [exact Ha |]. eapply alike_divide; [apply m16_m32 |]. apply norm_alike; [done | apply Ha].
Qed.

(** A fold of words alike to a buffer is the buffer's checksum. *)
Lemma fold_alike x p : in_width 32 x -> octets p -> alike m16 (little p) x -> FoldChecksum x = swap16 (rfc1071 p).
Proof.
  intros Hx Hp Ha. rewrite FoldChecksum_norm, rfc1071_swap by done. f_equal. symmetry. by apply norm_eq.
Qed.

Lemma fold_words k s ws p :
  in_width 32 s -> Forall (in_width 32) ws -> (length ws <= 16)%nat -> octets p -> alike m16 (little p) (s + total ws) ->
  FoldChecksum (AddWords32 k s ws) = swap16 (rfc1071 p).
Proof.
  intros Hs Hws Hl Hp Ha. rewrite AddWords32_norm by done. pose proof (norm_range m32 (s + total ws) m32_pos).
  apply fold_alike; [unfold in_width, m32 in *; lia | done |]. eapply alike_trans; [exact Ha |].
  eapply alike_divide; [apply m16_m32 |]. apply norm_alike; [done | apply Ha].
Qed.

End Rfc1071.
