(* ===== verification/ChecksumHeaders.v ===== *)
(** * Headers and their checksum fields

    The words the IPv4, UDP and TCP functions add up are those of the bytes the
    protocols cover, with the checksum field in place or zeroed. *)

From S2P Require Import Prelude PacketParse ParseReads Checksum ChecksumMath ChecksumKernels ChecksumSpec.
Open Scope Z_scope.

Module Headers.
Import Parse Reads Checksum Ones Kernels Rfc1071.

(** ** Writing a field *)

(** A 16-bit value stored at [off], as a little-endian machine stores it. *)
Definition put16 (p : list Z) (off : nat) (c : Z) : list Z := take off p ++ [c mod 256; c / 256] ++ drop (off + 2) p.

Lemma put16_length p off c : (off + 2 <= length p)%nat -> length (put16 p off c) = length p.
Proof. intros H. unfold put16. rewrite !length_app, length_take, length_drop. simpl. lia. Qed.

Lemma put16_size p off c : (off + 2 <= length p)%nat -> size (put16 p off c) = size p.
Proof. intros H. unfold size. by rewrite put16_length. Qed.

Lemma put16_octets p off c : octets p -> in_width 16 c -> octets (put16 p off c).
Proof.
  intros Hp Hc. unfold put16. apply octets_app. split; [by apply octets_take |]. apply octets_app. split; [| by apply octets_drop].
  unfold in_width in Hc. unfold octets. repeat constructor; Z.div_mod_to_equations; lia.
Qed.

Lemma put16_take p off c n : (off + 2 <= n)%nat -> take n (put16 p off c) = put16 (take n p) off c.
Proof.
  intros Hn. unfold put16. destruct (Nat.le_gt_cases (length p) off) as [Hl | Hl].
  - rewrite !(take_ge _ off) by (rewrite ?length_take; lia). rewrite !(drop_ge _ (off + 2)) by (rewrite ?length_take; lia).
    rewrite !app_nil_r. rewrite take_app_ge by lia. rewrite (take_ge p) by lia. f_equal. apply take_ge. simpl. lia.
  - rewrite take_app_ge by (rewrite length_take; lia). rewrite length_take_le by lia. rewrite take_take, Nat.min_l by lia.
    f_equal. rewrite take_app_ge by (simpl; lia). f_equal. rewrite skipn_firstn_comm. f_equal. simpl. lia.
Qed.

Lemma put16_drop p off c n : (n <= off)%nat -> (off <= length p)%nat -> drop n (put16 p off c) = put16 (drop n p) (off - n) c.
Proof.
  intros Hn Hl. unfold put16. rewrite drop_app_le by (rewrite length_take; lia). rewrite skipn_firstn_comm, drop_drop. do 3 f_equal. lia.
Qed.

(** Bytes apart from the field. *)
Lemma put16_before p off c n k : (n + k <= off)%nat -> (off <= length p)%nat -> take k (drop n (put16 p off c)) = take k (drop n p).
Proof.
  intros Hn Hl. rewrite put16_drop by lia. unfold put16. rewrite take_app_le by (rewrite length_take, length_drop; lia).
  rewrite take_take. f_equal. lia.
Qed.

Lemma put16_after p off c n : (off + 2 <= n)%nat -> (off <= length p)%nat -> drop n (put16 p off c) = drop n p.
Proof.
  intros Hn Hl. unfold put16. rewrite drop_app_ge by (rewrite length_take; lia). rewrite length_take_le by lia.
  rewrite drop_app_ge by (simpl; lia). rewrite drop_drop. f_equal. simpl. lia.
Qed.

Lemma dword_put16 p off c k : (4 * k + 4 <= off)%nat ∨ (off + 2 <= 4 * k)%nat -> (off <= length p)%nat -> dword (put16 p off c) k = dword p k.
Proof.
  intros Hk Hl. unfold dword. destruct Hk; [by rewrite put16_before by lia | by rewrite put16_after by lia].
Qed.

(** The bytes of a word. *)
Lemma dword_bytes p k :
  (4 * k + 4 <= length p)%nat -> octets p ->
  ∃ a b c d, take 4 (drop (4 * k) p) = [a; b; c; d] ∧ octets [a; b; c; d].
Proof.
  intros Hl Hp. assert (length (take 4 (drop (4 * k) p)) = 4%nat) as Hlen by (rewrite length_take, length_drop; lia).
  assert (octets (take 4 (drop (4 * k) p))) as Ho by (by apply octets_take, octets_drop).
  destruct (take 4 (drop (4 * k) p)) as [| a [| b [| c [| d [|]]]]]; try done. by exists a, b, c, d.
Qed.

(** Masking or shifting a word drops the field in its high or low half. *)
Lemma dword_mask p k :
  (4 * k + 4 <= length p)%nat -> octets p -> Z.land (dword p k) 0xFFFF = dword (put16 p (4 * k + 2) 0) k.
Proof.
  intros Hl Hp. destruct (dword_bytes p k Hl Hp) as (a & b & c & d & He & Ho). unfold dword.
  rewrite put16_drop by lia. replace (4 * k + 2 - 4 * k)%nat with 2%nat by lia. rewrite put16_take by lia. rewrite He, land16.
  unfold octets in Ho. rewrite !Forall_cons in Ho. unfold in_width in Ho. unfold put16. simpl.
  change (0 mod 256) with 0. change (0 / 256) with 0. symmetry. apply (Z.mod_unique _ _ (c + 256 * d)); [left; lia | lia].
Qed.

Lemma dword_shift p k :
  (4 * k + 4 <= length p)%nat -> octets p -> alike m16 (dword (put16 p (4 * k) 0) k) (Z.shiftr (dword p k) 16).
Proof.
  intros Hl Hp. destruct (dword_bytes p k Hl Hp) as (a & b & c & d & He & Ho). unfold dword.
  rewrite put16_drop by lia. rewrite Nat.sub_diag, put16_take by lia. rewrite He, shiftr_div by lia.
  unfold octets in Ho. rewrite !Forall_cons in Ho. unfold in_width in Ho. unfold put16. simpl.
  change (0 mod 256) with 0. change (0 / 256) with 0.
  assert ((a + 256 * (b + 256 * (c + 256 * (d + 256 * 0)))) / 2 ^ 16 = c + 256 * d) as ->.
  { symmetry. apply (Z.div_unique _ _ _ (a + 256 * b)); [left; lia | lia]. }
  split; [lia.. |]. exists (c + 256 * d). unfold m16. lia.
Qed.

(** ** A field counts with its value *)

Lemma put16_little p off c :
  (off + 2 <= length p)%nat -> octets p -> in_width 16 c -> Nat.Even off ->
  alike m16 (little (put16 p off c)) (little (put16 p off 0) + c).
Proof.
  intros Hl Hp Hc [j Hj]. assert (little (put16 p off c) = little (put16 p off 0) + 256 ^ Z.of_nat off * c) as ->.
  { unfold put16. rewrite !little_app. rewrite size_take by lia. unfold in_width in Hc. simpl (size [_; _]). cbn [little].
    pose proof (Z.div_mod c 256 ltac:(lia)). change (0 mod 256) with 0. change (0 / 256) with 0.
    change (256 ^ size _) with 65536. change (256 ^ size [0; 0]) with 65536. nia. }
  apply alike_add; [apply alike_refl, little_nonneg, put16_octets; [done | unfold in_width; lia] |]. unfold in_width in Hc.
  pose proof (Z.pow_pos_nonneg 256 (Z.of_nat off) ltac:(lia) ltac:(lia)).
  split; [nia | lia | nia |]. destruct (pow_divide 2 (Z.of_nat j)) as [q Hq]; [lia.. |].
  replace (2 * Z.of_nat j) with (Z.of_nat off) in Hq by lia. exists (q * c). unfold m16. change (256 ^ 2) with 65536 in Hq. lia.
Qed.

(** Storing the checksum of the bytes with the field zeroed makes the checksum
    of the whole zero. *)
Lemma put16_checksum p off c :
  (off + 2 <= length p)%nat -> octets p -> Nat.Even off ->
  c = swap16 (rfc1071 (put16 p off 0)) ∨ (c = m16 ∧ swap16 (rfc1071 (put16 p off 0)) = 0) -> rfc1071 (put16 p off c) = 0.
Proof.
  intros Hl Hp He Hc. assert (in_width 16 0) as H0 by (unfold in_width; lia).
  assert (octets (put16 p off 0)) as Hz by (by apply put16_octets). rewrite !rfc1071_swap in Hc by done.
  pose proof (norm_range m16 (little (put16 p off 0)) m16_pos) as Hr. set (x := little (put16 p off 0)) in *.
  assert (in_width 16 c) as Hcw by (unfold in_width, m16 in *; lia).
  assert (octets (put16 p off c)) as Ho by (by apply put16_octets).
  apply swap16_zero; [by apply rfc1071_width |]. rewrite rfc1071_swap by done.
  pose proof (put16_little p off c Hl Hp Hcw He) as Ha. fold x in Ha.
  enough (norm m16 (little (put16 p off c)) = m16) by lia. apply norm_unique; [done | | lia]. eapply alike_trans; [exact Ha |].
  pose proof (little_nonneg _ Hz : 0 <= x) as Hx. pose proof (norm_alike m16 x m16_pos Hx) as [_ _ Hn [q Hq]].
  split; [lia | unfold m16; lia | unfold m16 in *; lia |]. destruct Hc as [-> | [-> Hc]]; [exists q; lia |].
  exists (q + 1). lia.
Qed.

End Headers.
