(* ===== verification/ChecksumProps.v ===== *)
(** * Correctness of the checksums

    Whatever kernel is compiled in, the generic, IPv4, UDP and TCP functions
    compute and verify the checksum of RFC 1071 over the bytes the protocols
    cover, and a computed checksum verifies once stored. *)

From S2P Require Import Prelude PacketParse ParseReads Checksum ChecksumMath ChecksumKernels ChecksumSpec ChecksumHeaders.
Open Scope Z_scope.

Module ChecksumProps.
Import Parse Reads Checksum Ones Kernels Rfc1071 Headers.

(** ** What each protocol covers *)

Inductive proto := IpHeader | UdpSegment | TcpSegment.

Definition hlen (iph : list Z) : nat := Z.to_nat (4 * Z.land (nb iph 0) 15).
Definition tcp_len (iph : list Z) : Z := be iph 2 - Z.of_nat (hlen iph).

Definition pseudo (iph : list Z) (protocol len : Z) : list Z :=
  take 4 (drop 12 iph) ++ take 4 (drop 16 iph) ++ [0; protocol] ++ [len / 256; len mod 256].

(** The bytes covered; none if the headers state too short a length. *)
Definition covered (pr : proto) (iph l4 : list Z) : option (list Z) :=
  match pr with
  | IpHeader => if bool_decide (hlen iph < 20)%nat then None else Some (take (hlen iph) iph)
  | UdpSegment =>
      if bool_decide (be l4 4 < 8) then None else Some (pseudo iph 17 (be l4 4) ++ take (Z.to_nat (be l4 4)) l4)
  | TcpSegment =>
      if bool_decide (tcp_len iph < 20) then None else Some (pseudo iph 6 (tcp_len iph) ++ take (Z.to_nat (tcp_len iph)) l4)
  end.

(** The headers, and as many bytes as they state, are in memory. *)
Definition in_memory (pr : proto) (iph l4 : list Z) : Prop :=
  (20 <= length iph)%nat ∧
  match pr with
  | IpHeader => (hlen iph <= length iph)%nat
  | UdpSegment => (8 <= length l4)%nat ∧ be l4 4 <= size l4
  | TcpSegment => (20 <= length l4)%nat ∧ tcp_len iph <= size l4
  end.

Definition calculate (k : kernel) (pr : proto) (iph l4 : list Z) : run Z :=
  match pr with
  | IpHeader => CalculateIpv4Checksum k iph
  | UdpSegment => CalculateIpv4Udp k iph l4
  | TcpSegment => CalculateIpv4Tcp k iph l4
  end.
Definition verify (k : kernel) (pr : proto) (iph l4 : list Z) : run bool :=
  match pr with
  | IpHeader => VerifyIpv4Checksum k iph
  | UdpSegment => VerifyIpv4Udp k iph l4
  | TcpSegment => VerifyIpv4Tcp k iph l4
  end.

(** The checksum field written. *)
Definition store_ip (pr : proto) (iph : list Z) (c : Z) : list Z :=
  match pr with IpHeader => put16 iph 10 c | _ => iph end.
Definition store_l4 (pr : proto) (l4 : list Z) (c : Z) : list Z :=
  match pr with IpHeader => l4 | UdpSegment => put16 l4 6 c | TcpSegment => put16 l4 16 c end.

(** No UDP checksum is sent as zero. *)
Definition sent (pr : proto) (c : Z) : Z :=
  match pr with UdpSegment => if bool_decide (c = 0) then 0xFFFF else c | _ => c end.
Definition unchecked (pr : proto) (l4 : list Z) : bool :=
  match pr with UdpSegment => bool_decide (nb l4 6 = 0) && bool_decide (nb l4 7 = 0) | _ => false end.

(** ** Words and bytes *)

Lemma Load32_ok p off k : off = 4 * Z.of_nat k -> (4 * k + 4 <= length p)%nat -> Load32 p off = Ret (dword p k).
Proof.
  intros -> Hl. unfold Load32, bytes. rewrite bool_decide_eq_true_2 by (unfold size; lia). cbn [mbind run_bind mret run_ret]. unfold dword.
  do 4 f_equal. lia.
Qed.

Lemma sum_at_ok k p off len :
  0 <= off -> 0 <= len -> off + len <= size p -> sum_at k p off len = Ret (CalculateSum k (slice p off len)).
Proof. intros Ho Hl Hs. unfold sum_at, bytes. by rewrite bool_decide_eq_true_2. Qed.

Lemma ip_header_len_ok iph : octets iph -> (1 <= length iph)%nat -> ip_header_len iph = Ret (Z.of_nat (hlen iph)).
Proof.
  intros Hp Hl. unfold ip_header_len. rewrite byte_ok by (unfold size; lia). cbn [mbind run_bind mret run_ret]. f_equal. unfold hlen.
  assert (0 <= Z.land (nb iph 0) 15) by (apply Z.land_nonneg; lia). rewrite Z.shiftl_mul_pow2, Z2Nat.id by lia. lia.
Qed.

Lemma hlen_bound iph : (hlen iph <= 60)%nat.
Proof.
  unfold hlen. assert (0 <= Z.land (nb iph 0) 15 < 16); [| lia].
  change 15 with (Z.ones 4). rewrite Z.land_ones by lia. apply Z.mod_pos_bound. lia.
Qed.

(** The first words of the bytes covered, and the rest. *)
Lemma header_alike n p h :
  (4 * n <= h <= length p)%nat -> octets p ->
  alike m16 (little (take h p)) (total (dword p <$> seq 0 n) + little (take (h - 4 * n) (drop (4 * n) p))).
Proof.
  intros Hh Hp. eapply alike_trans; [eapply alike_divide; [apply m16_m32 |]; apply (words4 n); [rewrite length_take; lia | by apply octets_take] |].
  apply alike_eq.
  - pose proof (little_nonneg _ (octets_drop (4 * n) _ (octets_take h p Hp))).
    assert (0 <= total (dword (take h p) <$> seq 0 n)); [| lia].
    apply (total_nonneg 32), Forall_fmap, Forall_true. intros. by apply dword_width, octets_take.
  - rewrite skipn_firstn_comm. f_equal. f_equal. apply list_fmap_ext. intros i j [-> Hi]%lookup_seq. unfold dword.
    rewrite skipn_firstn_comm, take_take. do 2 f_equal. lia.
Qed.

Lemma words_width (p : list Z) n : octets p -> Forall (in_width 32) (dword p <$> seq 0 n).
Proof. intros Hp. apply Forall_fmap, Forall_true. intros. by apply dword_width. Qed.

Lemma payload_ok k p off len :
  octets p -> 0 <= off -> 0 <= len < 2 ^ 32 -> off + len <= size p ->
  in_width 32 (CalculateSum k (slice p off len)) ∧ alike m16 (little (slice p off len)) (CalculateSum k (slice p off len)).
Proof.
  intros Hp Ho Hl Hs. apply CalculateSum_ok; [by apply octets_take, octets_drop |]. unfold slice, size in *.
  rewrite length_take, length_drop. lia.
Qed.

(** A pseudo-header and a segment. *)
Lemma pseudo_alike iph protocol len seg :
  octets iph -> (20 <= length iph)%nat -> in_width 8 protocol -> in_width 16 len -> octets seg ->
  octets (pseudo iph protocol len ++ seg) ∧
  alike m16 (little (pseudo iph protocol len ++ seg))
    (little seg + (dword iph 3 + dword iph 4 + PseudoLength len + PseudoProto protocol)).
Proof.
  intros Hi Hl Hp Hlen Hs. assert (octets [0; protocol]) as H1 by (repeat constructor; unfold in_width in *; lia).
  assert (octets [len / 256; len mod 256]) as H2 by (unfold in_width in *; repeat constructor; Z.div_mod_to_equations; lia).
  assert (∀ n, octets (take 4 (drop n iph))) as Hd by (intros; by apply octets_take, octets_drop).
  assert (∀ n, (n + 4 <= length iph)%nat -> (2 | size (take 4 (drop n iph)))) as Hsz.
  { intros n Hn. rewrite size_take by (rewrite length_drop; lia). by exists 2. }
  unfold pseudo. rewrite <- !(assoc (++)). split; [repeat (apply octets_app; split; [done || apply Hd |]); done |].
  pose proof (little_nonneg seg Hs).
  eapply alike_trans; [apply (little_parts 2); [lia | apply Hsz; lia | apply Hd |]; repeat (apply octets_app; split; [done || apply Hd |]); done |].
  eapply alike_trans; [apply alike_add; [apply alike_refl, little_nonneg, Hd |]; apply (little_parts 2); [lia | apply Hsz; lia | apply Hd |];
    repeat (apply octets_app; split; [done || apply Hd |]); done |].
  eapply alike_trans; [do 2 (apply alike_add; [apply alike_refl, little_nonneg, Hd |]); apply (little_parts 2); [lia | by exists 1 | done |];
    by apply octets_app |].
  eapply alike_trans; [do 2 (apply alike_add; [apply alike_refl, little_nonneg, Hd |]); apply alike_add; [by apply alike_refl, little_nonneg |];
    apply (little_parts 2); [lia | by exists 1 | done | done] |].
  pose proof (little_nonneg _ (Hd 12%nat)). pose proof (little_nonneg _ (Hd 16%nat)). pose proof (little_nonneg _ H1). pose proof (little_nonneg _ H2).
  apply alike_eq; [lia |]. unfold dword. cbn [Nat.mul Nat.add].
  assert (little [0; protocol] = PseudoProto protocol) as -> by (unfold PseudoProto; rewrite Z.shiftl_mul_pow2 by lia; simpl; lia).
  assert (little [len / 256; len mod 256] = PseudoLength len) as -> by (unfold PseudoLength; rewrite swap16_val by done; simpl; lia).
  lia.
Qed.

(** Words of a header added to the sum of what follows it. *)
Lemma fold_header k n p h s :
  (4 * n <= h <= length p)%nat -> (n <= 16)%nat -> octets p -> in_width 32 s ->
  alike m16 (little (take (h - 4 * n) (drop (4 * n) p))) s ->
  FoldChecksum (AddWords32 k s (dword p <$> seq 0 n)) = swap16 (rfc1071 (take h p)).
Proof.
  intros Hh Hn Hp Hs Ha. apply fold_words; [done | by apply words_width | by rewrite length_fmap, length_seq | by apply octets_take |].
  eapply alike_trans; [by apply (header_alike n) |]. rewrite (Z.add_comm s).
  apply alike_add; [by apply alike_refl, (total_nonneg 32), words_width | done].
Qed.

Lemma fold_segment k n p iph protocol len s ws :
  octets iph -> (20 <= length iph)%nat -> in_width 8 protocol -> in_width 16 len ->
  octets p -> (4 * n <= Z.to_nat len <= length p)%nat -> in_width 32 s -> Forall (in_width 32) ws -> (length ws <= 5)%nat ->
  alike m16 (total (dword p <$> seq 0 n)) (total ws) -> alike m16 (little (take (Z.to_nat len - 4 * n) (drop (4 * n) p))) s ->
  FoldChecksum (AddWords32 k s (ws ++ [dword iph 3; dword iph 4; PseudoLength len; PseudoProto protocol])) =
  swap16 (rfc1071 (pseudo iph protocol len ++ take (Z.to_nat len) p)).
Proof.
  intros Hi Hil Hpr Hlen Hp Hh Hs Hws Hl Hw Ha.
  destruct (pseudo_alike iph protocol len (take (Z.to_nat len) p)) as [Ho Hps]; try done; [by apply octets_take |].
  assert (Forall (in_width 32) [dword iph 3; dword iph 4; PseudoLength len; PseudoProto protocol]) as Hx.
  { repeat constructor; try (by apply dword_width); try (pose proof (swap16_width len); unfold in_width in *; unfold PseudoLength; lia);
      unfold PseudoProto, in_width in *; rewrite Z.shiftl_mul_pow2 by lia; lia. }
  apply fold_words; [done | by apply Forall_app | rewrite length_app; simpl; lia | done |].
  eapply alike_trans; [exact Hps |]. rewrite total_app, (Z.add_assoc s). apply alike_add.
  - eapply alike_trans; [by apply (header_alike n) |]. rewrite (Z.add_comm s). by apply alike_add.
  - apply alike_eq; [| simpl; lia]. pose proof (total_nonneg _ _ Hx). simpl in *. lia.
Qed.

(** ** IPv4 *)

Lemma nb_put16 p off c i : 0 <= i < Z.of_nat off -> (off <= length p)%nat -> nb (put16 p off c) i = nb p i.
Proof.
  intros Hi Hl. unfold nb, put16. rewrite app_nth1 by (rewrite length_take; lia). rewrite <- (take_drop off p) at 2.
  rewrite app_nth1 by (rewrite length_take; lia). done.
Qed.

Lemma hlen_put16 iph c : (20 <= length iph)%nat -> hlen (put16 iph 10 c) = hlen iph.
Proof. intros Hl. unfold hlen. by rewrite nb_put16 by lia. Qed.

Lemma SumIpv4Header_ok k p (b : bool) s :
  octets p -> (20 <= length p)%nat ->
  SumIpv4Header k p b s = Ret (AddWords32 k s (dword (if b then put16 p 10 0 else p) <$> seq 0 5)).
Proof.
  intros Hp Hl. unfold SumIpv4Header.
  rewrite (Load32_ok p 0 0), (Load32_ok p 4 1), (Load32_ok p 8 2), (Load32_ok p 12 3), (Load32_ok p 16 4) by lia.
  cbn [mbind run_bind mret run_ret seq fmap list_fmap]. destruct b; [| done].
  rewrite (dword_mask p 2) by (done || lia).
  rewrite (dword_put16 p 10 0 0), (dword_put16 p 10 0 1), (dword_put16 p 10 0 3), (dword_put16 p 10 0 4) by lia. done.
Qed.

Lemma ip_checksum_ok k iph (b : bool) :
  octets iph -> (20 <= hlen iph <= length iph)%nat ->
  ∃ s, (if bool_decide (Z.of_nat (hlen iph) = 20) then mret 0 else sum_at k iph 20 (Z.of_nat (hlen iph) - 20)) = Ret s ∧
    SumIpv4Header k iph b s = Ret (AddWords32 k s (dword (if b then put16 iph 10 0 else iph) <$> seq 0 5)) ∧
    FoldChecksum (AddWords32 k s (dword (if b then put16 iph 10 0 else iph) <$> seq 0 5)) =
      swap16 (rfc1071 (take (hlen iph) (if b then put16 iph 10 0 else iph))).
Proof.
  intros Hp Hh. assert (in_width 16 0) as H0 by (unfold in_width; lia). set (q := if b then put16 iph 10 0 else iph).
  assert (octets q ∧ length q = length iph ∧ drop 20 q = drop 20 iph) as (Hq & Hlq & Hdq).
  { unfold q. destruct b; [| done]. split_and!; [by apply put16_octets | apply put16_length; lia | apply put16_after; lia]. }
  pose proof (hlen_bound iph). case_bool_decide as Heq.
  - exists 0. split; [done |]. split; [apply SumIpv4Header_ok; [done | lia] |]. apply (fold_header k 5); [lia | lia | done | unfold in_width; lia |].
    replace (hlen iph - 4 * 5)%nat with 0%nat by lia. by apply alike_refl.
  - destruct (payload_ok k iph 20 (Z.of_nat (hlen iph) - 20) Hp) as [Hw Ha]; [lia | lia | unfold size; lia |].
    eexists. split; [apply sum_at_ok; unfold size; lia |]. split; [apply SumIpv4Header_ok; [done | lia] |].
    apply (fold_header k 5); [lia | lia | done | done |]. change (4 * 5)%nat with 20%nat. rewrite Hdq. unfold slice in *.
    replace (Z.to_nat (Z.of_nat (hlen iph) - 20)) with (hlen iph - 20)%nat in * by lia. done.
Qed.

(** ** UDP and TCP *)

Lemma be_put16 p off c i : 0 <= i -> i + 2 <= Z.of_nat off -> (off <= length p)%nat -> be (put16 p off c) i = be p i.
Proof. intros H1 H2 H3. unfold be. by rewrite !nb_put16 by lia. Qed.

Lemma Load16_bytes p off : octets p -> 0 <= off -> off + 2 <= size p -> Load16 p off = Ret (nb p off + 256 * nb p (off + 1)).
Proof.
  intros Hp Ho Hs. unfold Load16, bytes. rewrite bool_decide_eq_true_2 by lia. cbn [mbind run_bind mret run_ret]. f_equal.
  unfold nb, size in *. change (Z.to_nat 2) with 2%nat.
  replace (Z.to_nat (off + 1)) with (S (Z.to_nat off)) by lia. set (i := Z.to_nat off).
  assert (i + 2 <= length p)%nat as Hi by lia. clearbody i. clear -Hi. revert i Hi.
  induction p as [| x p IH]; intros [| i] Hi; simpl in Hi; try lia; [| by apply IH; lia].
  destruct p as [| y p]; [simpl in Hi; lia | simpl; lia].
Qed.

Lemma tail_payload k p len n :
  octets p -> 4 * Z.of_nat n <= len < 2 ^ 16 -> len <= size p ->
  ∃ s, sum_at k p (4 * Z.of_nat n) (minus len (4 * Z.of_nat n)) = Ret s ∧ in_width 32 s ∧
    alike m16 (little (take (Z.to_nat len - 4 * n) (drop (4 * n) p))) s.
Proof.
  intros Hp Hl Hs. assert (minus len (4 * Z.of_nat n) = len - 4 * Z.of_nat n) as -> by (unfold minus; apply wrap_small; unfold in_width; lia).
  destruct (payload_ok k p (4 * Z.of_nat n) (len - 4 * Z.of_nat n) Hp) as [Hw Ha]; [lia.. |].
  eexists. split; [apply sum_at_ok; lia |]. split; [done |]. unfold slice in *.
  replace (Z.to_nat (4 * Z.of_nat n)) with (4 * n)%nat in * by lia.
  replace (Z.to_nat (len - 4 * Z.of_nat n)) with (Z.to_nat len - 4 * n)%nat in * by lia. done.
Qed.

Lemma udp_sum_ok k iph udph len (b : bool) :
  octets iph -> (20 <= length iph)%nat -> octets udph -> 8 <= len < 2 ^ 16 -> len <= size udph ->
  ∃ s w0 w1, sum_at k udph 8 (minus len 8) = Ret s ∧ Load32 udph 0 = Ret w0 ∧ Load32 udph 4 = Ret w1 ∧
    FoldChecksum (AddWords32 k s [w0; (if b then Z.land w1 0xFFFF else w1); dword iph 3; dword iph 4; PseudoLength len; PseudoProto kUdp]) =
      swap16 (rfc1071 (pseudo iph 17 len ++ take (Z.to_nat len) (if b then put16 udph 6 0 else udph))).
Proof.
  intros Hi Hil Hp Hlen Hs. unfold size in Hs. assert (in_width 16 0) as H0 by (unfold in_width; lia).
  destruct (tail_payload k udph len 2) as (s & Hsum & Hw & Ha); [done | lia | unfold size; lia |].
  set (q := if b then put16 udph 6 0 else udph).
  assert (octets q ∧ length q = length udph ∧ drop (4 * 2) q = drop (4 * 2) udph) as (Hq & Hlq & Hdq).
  { unfold q. destruct b; [| done]. split_and!; [by apply put16_octets | apply put16_length; lia | apply put16_after; lia]. }
  exists s, (dword udph 0), (dword udph 1). split_and!; [done | by apply Load32_ok; lia.. |].
  assert ([dword udph 0; if b then Z.land (dword udph 1) 65535 else dword udph 1] = dword q <$> seq 0 2) as Hws.
  { unfold q. destruct b; [| done]. rewrite (dword_mask udph 1) by (done || lia). cbn [seq fmap list_fmap].
    by rewrite (dword_put16 udph 6 0 0) by lia. }
  change [?a; ?b; ?c; ?d; ?e; ?f] with ([a; b] ++ [c; d; e; f]). rewrite Hws.
  apply (fold_segment k 2); try done; [unfold in_width; lia | lia | by apply words_width | cbn; lia | | by rewrite Hdq].
  by apply alike_refl, (total_nonneg 32), words_width.
Qed.

Lemma tcp_sum_ok k iph tcph len (b : bool) :
  octets iph -> (20 <= length iph)%nat -> octets tcph -> 20 <= len < 2 ^ 16 -> len <= size tcph ->
  ∃ s w0 w1 w2 w3 w4, sum_at k tcph 20 (minus len 20) = Ret s ∧ Load32 tcph 0 = Ret w0 ∧ Load32 tcph 4 = Ret w1 ∧
    Load32 tcph 8 = Ret w2 ∧ Load32 tcph 12 = Ret w3 ∧ Load32 tcph 16 = Ret w4 ∧
    FoldChecksum (AddWords32 k s
        [w0; w1; w2; w3; (if b then Z.shiftr w4 16 else w4); dword iph 3; dword iph 4; PseudoLength len; PseudoProto kTcp]) =
      swap16 (rfc1071 (pseudo iph 6 len ++ take (Z.to_nat len) (if b then put16 tcph 16 0 else tcph))).
Proof.
  intros Hi Hil Hp Hlen Hs. unfold size in Hs. assert (in_width 16 0) as H0 by (unfold in_width; lia).
  destruct (tail_payload k tcph len 5) as (s & Hsum & Hw & Ha); [done | lia | unfold size; lia |].
  set (q := if b then put16 tcph 16 0 else tcph).
  assert (octets q ∧ length q = length tcph ∧ drop (4 * 5) q = drop (4 * 5) tcph) as (Hq & Hlq & Hdq).
  { unfold q. destruct b; [| done]. split_and!; [by apply put16_octets | apply put16_length; lia | apply put16_after; lia]. }
  exists s, (dword tcph 0), (dword tcph 1), (dword tcph 2), (dword tcph 3), (dword tcph 4). split_and!; [done | by apply Load32_ok; lia.. |].
  set (w4 := if b then _ else _). change [?a; ?b; ?c; ?d; w4; ?x; ?y; ?z; ?t] with ([a; b; c; d; w4] ++ [x; y; z; t]).
  assert (in_width 32 w4 ∧ alike m16 (dword q 4) w4) as [Hw4 Ha4].
  { unfold w4, q. pose proof (dword_width tcph 4 Hp) as Hd. destruct b; [| split; [done | apply alike_refl; apply Hd]].
    split; [| by apply (dword_shift tcph 4); lia || done]. unfold in_width in *. rewrite shiftr_div by lia. Z.div_mod_to_equations. lia. }
  assert (∀ i, (i < 4)%nat -> dword q i = dword tcph i) as Hdw by (intros i Hlt; unfold q; destruct b; [apply dword_put16; lia | done]).
  apply (fold_segment k 5); try done; [unfold in_width; lia | lia | | | by rewrite Hdq].
  - do 4 (apply Forall_cons; split; [by apply dword_width |]). by apply Forall_singleton.
  - cbn [seq fmap list_fmap total foldr]. rewrite !Hdw by lia.
    repeat (apply alike_add; [apply alike_refl, (dword_width tcph _ Hp) |]). rewrite !Z.add_0_r. done.
Qed.

(** ** Every protocol *)

Lemma zero_swap x : in_width 16 x -> bool_decide (swap16 x = 0) = bool_decide (x = 0).
Proof. intros Hx. apply bool_decide_ext. by apply swap16_zero. Qed.

Lemma be_width p i : octets p -> in_width 16 (be p i).
Proof. intros Hp. pose proof (be_range p i Hp). unfold in_width. lia. Qed.

Lemma covered_octets pr iph l4 bs : octets iph -> octets l4 -> (20 <= length iph)%nat -> covered pr iph l4 = Some bs -> octets bs.
Proof.
  intros Hi Hl Hil. pose proof (be_width iph 2 Hi) as Hw. pose proof (be_width l4 4 Hl) as Hw'. unfold in_width in *.
  unfold covered. destruct pr; case_bool_decide; intros [= <-]; [by apply octets_take | |];
    apply pseudo_alike; try (by apply octets_take); try done; unfold in_width, tcp_len in *; lia.
Qed.

Lemma ip_sums k iph :
  octets iph -> (20 <= length iph)%nat -> (hlen iph <= length iph)%nat ->
  VerifyIpv4Checksum k iph = Ret (match covered IpHeader iph [] with Some bs => bool_decide (rfc1071 bs = 0) | None => false end) ∧
  CalculateIpv4Checksum k iph = Ret (match covered IpHeader (put16 iph 10 0) [] with Some bs => swap16 (rfc1071 bs) | None => 0 end).
Proof.
  intros Hp Hl Hh. unfold VerifyIpv4Checksum, CalculateIpv4Checksum, VerifyIpv4NoOptChecksum, CalculateIpv4NoOptChecksum, covered.
  rewrite hlen_put16, ip_header_len_ok by (done || lia). cbn [mbind run_bind]. destruct (bool_decide (hlen iph < 20)%nat) eqn:H20.
  { apply bool_decide_eq_true in H20. by rewrite (bool_decide_eq_false_2 (_ = 20)), (bool_decide_eq_true_2 (_ < 20)) by lia. }
  apply bool_decide_eq_false in H20. destruct (ip_checksum_ok k iph false Hp ltac:(lia)) as (s & Hs & Hsum & Hf).
  destruct (ip_checksum_ok k iph true Hp ltac:(lia)) as (s' & Hs' & Hsum' & Hf'). rewrite (bool_decide_eq_false_2 (_ < 20)) by lia.
  rewrite <- (zero_swap (rfc1071 (take (hlen iph) iph))) by by apply rfc1071_width, octets_take.
  rewrite <- Hf, <- Hf'. destruct (bool_decide (Z.of_nat (hlen iph) = 20)).
  - injection Hs as <-. injection Hs' as <-. rewrite Hsum, Hsum'. done.
  - rewrite Hs. injection (eq_trans (eq_sym Hs) Hs') as <-. cbn [mbind run_bind]. rewrite Hsum, Hsum'. done.
Qed.

Lemma udp_sums k iph l4 :
  octets iph -> octets l4 -> (20 <= length iph)%nat -> (8 <= length l4)%nat -> be l4 4 <= size l4 ->
  VerifyIpv4Udp k iph l4 = Ret (match covered UdpSegment iph l4 with
                                | Some bs => unchecked UdpSegment l4 || bool_decide (rfc1071 bs = 0) | None => false end) ∧
  CalculateIpv4Udp k iph l4 = Ret (match covered UdpSegment iph (put16 l4 6 0) with
                                   | Some bs => sent UdpSegment (swap16 (rfc1071 bs)) | None => 0 end).
Proof.
  intros Hi Hp Hil Hl Hlen. pose proof (be_range l4 4 Hp) as Hr.
  unfold VerifyIpv4Udp, CalculateIpv4Udp, VerifyIpv4UdpChecksum, CalculateIpv4UdpChecksum, covered.
  rewrite be_put16, Be16_ok by (done || unfold size; lia). cbn [mbind run_bind]. destruct (bool_decide (be l4 4 < 8)) eqn:H8; [done |].
  apply bool_decide_eq_false in H8. rewrite (Load32_ok iph 12 3), (Load32_ok iph 16 4) by lia. cbn [mbind run_bind].
  destruct (udp_sum_ok k iph l4 (be l4 4) false) as (s & w0 & w1 & Hs & H0 & H1 & Hf); try done; [lia |].
  destruct (udp_sum_ok k iph l4 (be l4 4) true) as (s' & w0' & w1' & Hs' & H0' & H1' & Hf'); try done; [lia |].
  injection (eq_trans (eq_sym Hs) Hs') as <-. injection (eq_trans (eq_sym H0) H0') as <-. injection (eq_trans (eq_sym H1) H1') as <-.
  rewrite Load16_bytes by (done || unfold size; lia). rewrite Hs. cbn [mbind run_bind]. rewrite H0, H1. cbn [mbind run_bind mret run_ret].
  split.
  - unfold unchecked. pose proof (nb_range l4 6 Hp). pose proof (nb_range l4 7 Hp).
    rewrite Hf, zero_swap by (apply rfc1071_width, (covered_octets UdpSegment iph l4); try done; unfold covered; by rewrite bool_decide_eq_false_2).
    change (6 + 1) with 7. destruct (decide (nb l4 6 = 0 ∧ nb l4 7 = 0)) as [[-> ->] | Hne]; [done |].
    rewrite bool_decide_eq_false_2 by lia. f_equal.
    destruct (bool_decide (nb l4 6 = 0)) eqn:E6; [| done]. destruct (bool_decide (nb l4 7 = 0)) eqn:E7; [| done].
    apply bool_decide_eq_true in E6, E7. by destruct Hne.
  - by rewrite Hf'.
Qed.

Lemma tcp_sums k iph l4 :
  octets iph -> octets l4 -> (20 <= length iph)%nat -> (20 <= length l4)%nat -> tcp_len iph <= size l4 ->
  VerifyIpv4Tcp k iph l4 = Ret (match covered TcpSegment iph l4 with Some bs => bool_decide (rfc1071 bs = 0) | None => false end) ∧
  CalculateIpv4Tcp k iph l4 = Ret (match covered TcpSegment iph (put16 l4 16 0) with Some bs => swap16 (rfc1071 bs) | None => 0 end).
Proof.
  intros Hi Hp Hil Hl Hlen. pose proof (be_range iph 2 Hi) as Hr.
  unfold VerifyIpv4Tcp, CalculateIpv4Tcp, VerifyIpv4TcpChecksum, CalculateIpv4TcpChecksum, covered.
  rewrite Be16_ok by (done || unfold size; lia). cbn [mbind run_bind]. rewrite ip_header_len_ok by (done || lia). cbn [mbind run_bind].
  fold (tcp_len iph). destruct (bool_decide (tcp_len iph < 20)) eqn:H20.
  { apply bool_decide_eq_true in H20. unfold tcp_len in H20. by rewrite (bool_decide_eq_true_2 (_ < _ + 20)) by lia. }
  apply bool_decide_eq_false in H20. rewrite (bool_decide_eq_false_2 (_ < _ + 20)) by (unfold tcp_len in H20; lia).
  rewrite (Load32_ok iph 12 3), (Load32_ok iph 16 4) by lia. cbn [mbind run_bind].
  assert (20 <= tcp_len iph < 2 ^ 16) as Ht by (unfold tcp_len in *; lia). rewrite wrap_small by (unfold in_width; lia).
  destruct (tcp_sum_ok k iph l4 (tcp_len iph) false) as (s & w0 & w1 & w2 & w3 & w4 & Hs & H0 & H1 & H2 & H3 & H4 & Hf); try done.
  destruct (tcp_sum_ok k iph l4 (tcp_len iph) true) as (s' & w0' & w1' & w2' & w3' & w4' & Hs' & H0' & H1' & H2' & H3' & H4' & Hf'); try done.
  rewrite Hs in *. rewrite H0, H1, H2, H3, H4 in *. simplify_eq. cbn [mbind run_bind mret run_ret].
  rewrite Hf, Hf', zero_swap by (apply rfc1071_width, (covered_octets TcpSegment iph l4); try done; unfold covered; by rewrite bool_decide_eq_false_2 by lia).
  done.
Qed.

Lemma verify_ok k pr iph l4 :
  octets iph -> octets l4 -> in_memory pr iph l4 ->
  verify k pr iph l4 =
    Ret (match covered pr iph l4 with Some bs => unchecked pr l4 || bool_decide (rfc1071 bs = 0) | None => false end).
Proof.
  intros Hi Hl [Hil Hm]. destruct pr; cbn [verify in_memory] in *.
  - by destruct (ip_sums k iph Hi Hil Hm) as [-> _].
  - destruct Hm. by apply udp_sums.
  - destruct Hm. by apply tcp_sums.
Qed.

Lemma calculate_ok k pr iph l4 :
  octets iph -> octets l4 -> in_memory pr iph l4 ->
  calculate k pr iph l4 =
    Ret (match covered pr (store_ip pr iph 0) (store_l4 pr l4 0) with Some bs => sent pr (swap16 (rfc1071 bs)) | None => 0 end).
Proof.
  intros Hi Hl [Hil Hm]. destruct pr; cbn [calculate store_ip store_l4 sent in_memory] in *.
  - by destruct (ip_sums k iph Hi Hil Hm) as [_ ->].
  - destruct Hm. by apply udp_sums.
  - destruct Hm. by apply tcp_sums.
Qed.

(** ** The field in the bytes covered *)

Definition field (pr : proto) : nat := match pr with IpHeader => 10 | UdpSegment => 18 | TcpSegment => 28 end.

Lemma put16_app a p off c : put16 (a ++ p) (length a + off) c = a ++ put16 p off c.
Proof.
  unfold put16. rewrite take_app_ge by lia. rewrite drop_app_ge by lia. rewrite <- (assoc (++)). do 2 f_equal; [f_equal; lia |]. do 2 f_equal. lia.
Qed.

Lemma pseudo_length iph protocol len : (20 <= length iph)%nat -> length (pseudo iph protocol len) = 12%nat.
Proof. intros Hl. unfold pseudo. rewrite !length_app, !length_take, !length_drop. cbn [length]. lia. Qed.

Lemma covered_store pr iph l4 c :
  in_memory pr iph l4 ->
  covered pr (store_ip pr iph c) (store_l4 pr l4 c) = (fun bs => put16 bs (field pr) c) <$> covered pr iph l4 ∧
  ∀ bs, covered pr iph l4 = Some bs -> (field pr + 2 <= length bs)%nat.
Proof.
  intros [Hil Hm]. destruct pr; cbn [covered store_ip store_l4 field in_memory] in *.
  - rewrite hlen_put16 by done. case_bool_decide as Hh; [done |]. rewrite put16_take by lia. split; [done |]. intros ? [= <-].
    rewrite length_take. lia.
  - destruct Hm as [Hl Hlen]. rewrite be_put16 by (done || lia). case_bool_decide as Hh; [done |]. simpl.
    pose proof (pseudo_length iph 17 (be l4 4) Hil) as Hps. unfold size in Hlen. split.
    + f_equal. rewrite put16_take by lia. by rewrite <- put16_app, Hps.
    + intros ? [= <-]. rewrite length_app, length_take, Hps. lia.
  - destruct Hm as [Hl Hlen]. case_bool_decide as Hh; [done |]. simpl. pose proof (pseudo_length iph 6 (tcp_len iph) Hil) as Hps.
    unfold size in Hlen. split.
    + f_equal. rewrite put16_take by lia. by rewrite <- put16_app, Hps.
    + intros ? [= <-]. rewrite length_app, length_take, Hps. lia.
Qed.

Lemma in_memory_store pr iph l4 c : in_memory pr iph l4 -> in_memory pr (store_ip pr iph c) (store_l4 pr l4 c).
Proof.
  intros [Hil Hm]. destruct pr; cbn [in_memory store_ip store_l4] in *.
  - unfold in_memory. by rewrite put16_length, hlen_put16 by lia.
  - destruct Hm. split; [done |]. rewrite put16_size, put16_length, be_put16 by lia. done.
  - destruct Hm. split; [done |]. rewrite put16_size, put16_length by lia. done.
Qed.

Lemma store_octets pr iph l4 c :
  octets iph -> octets l4 -> in_width 16 c -> octets (store_ip pr iph c) ∧ octets (store_l4 pr l4 c).
Proof. intros Hi Hl Hc. destruct pr; cbn [store_ip store_l4]; split; try done; by apply put16_octets. Qed.

(** ** Theorems *)

(** C9. The generic checksum is that of RFC 1071 on every machine: [CalculateSum]
    and the header additions give the same 32-bit value whichever kernel is
    compiled in (AVX2 lanes, add-with-carry chains or the portable loops), the
    checksum stored in memory is the complement of the one's-complement sum of
    the 16-bit words in network order, an odd last byte padded with zero, and
    verification accepts exactly that checksum. *)
Theorem checksum_is_rfc1071 k k' buf s ws c :
  octets buf -> size buf < 2 ^ 32 -> in_width 32 s -> Forall (in_width 32) ws -> (length ws <= 16)%nat -> in_width 16 c ->
  CalculateSum k buf = CalculateSum k' buf ∧ AddWords32 k s ws = AddWords32 k' s ws ∧
  swap16 (CalculateGenericChecksum k buf) = rfc1071 buf ∧
  (VerifyGenericChecksum k buf c = true <-> swap16 c = rfc1071 buf).
Proof.
  intros Hb Hs Hsw Hws Hl Hc. destruct (CalculateSum_ok k buf Hb Hs) as [Hw Ha].
  assert (CalculateGenericChecksum k buf = swap16 (rfc1071 buf)) as Hg by by apply fold_alike.
  pose proof (rfc1071_width buf Hb) as Hr. split_and!.
  - by rewrite !CalculateSum_norm.
  - by rewrite !AddWords32_norm.
  - rewrite Hg. by apply swap16_twice.
  - unfold VerifyGenericChecksum. rewrite bool_decide_eq_true, Hg. split; [intros <-; by apply swap16_twice |].
    intros <-. by apply swap16_twice.
Qed.

(** C32. The IPv4 header, UDP and TCP functions compute and verify the checksum
    of RFC 1071 over the bytes those protocols cover, pseudo-header and options
    included, on every machine and without reading past the stated lengths:
    verification accepts exactly when the checksum of the bytes with the field
    in place is zero (or UDP's field says there is none), computation gives the
    checksum of the bytes with the field zeroed, never a zero for UDP, and a
    header that states too short a length is refused. *)
Theorem header_checksum_is_rfc1071 k pr iph l4 :
  octets iph -> octets l4 -> in_memory pr iph l4 ->
  verify k pr iph l4 =
    Ret (match covered pr iph l4 with Some bs => unchecked pr l4 || bool_decide (rfc1071 bs = 0) | None => false end) ∧
  calculate k pr iph l4 =
    Ret (match covered pr (store_ip pr iph 0) (store_l4 pr l4 0) with Some bs => sent pr (swap16 (rfc1071 bs)) | None => 0 end).
Proof. intros Hi Hl Hm. split; [by apply verify_ok | by apply calculate_ok]. Qed.

(** C34. A checksum computed on one machine, once stored in its field, verifies
    on any machine, for the IPv4 header, UDP and TCP. *)
Theorem stored_checksum_verifies k k' pr iph l4 c :
  octets iph -> octets l4 -> in_memory pr iph l4 -> is_Some (covered pr iph l4) -> calculate k pr iph l4 = Ret c ->
  verify k' pr (store_ip pr iph c) (store_l4 pr l4 c) = Ret true.
Proof.
  intros Hi Hl Hm [bs Hbs]. rewrite calculate_ok by done. destruct (covered_store pr iph l4 0 Hm) as [H0 Hlen]. rewrite H0, Hbs.
  specialize (Hlen bs Hbs). assert (octets bs) as Hob by (eapply covered_octets; [exact Hi | exact Hl | apply Hm | exact Hbs]).
  intros [= <-]. cbn [fmap option_fmap option_map]. set (x := swap16 (rfc1071 (put16 bs (field pr) 0))).
  pose proof (swap16_width (rfc1071 (put16 bs (field pr) 0)) : in_width 16 x) as Hx.
  assert (in_width 16 (sent pr x)) as Hsx by (unfold sent; destruct pr; [done | case_bool_decide; [unfold in_width; lia | done] | done]).
  destruct (store_octets pr iph l4 (sent pr x) Hi Hl Hsx). rewrite verify_ok by (try done; by apply in_memory_store).
  destruct (covered_store pr iph l4 (sent pr x) Hm) as [-> _]. rewrite Hbs. cbn [fmap option_fmap option_map]. f_equal.
  rewrite (bool_decide_eq_true_2 (rfc1071 _ = 0)); [apply orb_true_r |].
  apply put16_checksum; [done | done | destruct pr; [by exists 5%nat | by exists 9%nat | by exists 14%nat] |].
  fold x. unfold sent. destruct pr; [by left | | by left]. case_bool_decide as Hz; [by right | by left].
Qed.

End ChecksumProps.
