(* ===== verification/ChecksumUpdate.v ===== *)
(** * Incremental checksum updates

    The usage [core/utils/checksum.h] describes: fields are overwritten one
    after another, their increments added up, and the old checksum updated
    once. *)

From S2P Require Import Prelude PacketParse ParseReads.
From S2P Require Import Checksum ChecksumMath ChecksumKernels ChecksumSpec ChecksumHeaders ChecksumProps.
Open Scope Z_scope.

Module ChecksumUpdate.
Import Parse Reads Checksum Ones Kernels Rfc1071 Headers.

(** A 16-bit or 32-bit field, in the order it is stored. *)
Inductive change := Change16 (off : nat) (v : Z) | Change32 (off : nat) (v : Z).

Definition read (p : list Z) (off n : nat) : Z := little (take n (drop off p)).
Definition put32 (p : list Z) (off : nat) (v : Z) : list Z := put16 (put16 p off (v mod 65536)) (off + 2) (v / 65536).

Definition overwrite (p : list Z) (ch : change) : list Z :=
  match ch with Change16 off v => put16 p off v | Change32 off v => put32 p off v end.
Definition increment (p : list Z) (ch : change) : Z :=
  match ch with
  | Change16 off v => ChecksumIncrement16 (read p off 2) v
  | Change32 off v => ChecksumIncrement32 (read p off 4) v
  end.

(** The bytes after the changes, and the sum of the increments. *)
Fixpoint changed (p : list Z) (cs : list change) (inc : Z) : list Z * Z :=
  match cs with
  | [] => (p, inc)
  | ch :: cs => changed (overwrite p ch) cs (wrap 32 (inc + increment p ch))
  end.

(** A field on a 16-bit boundary of [n] bytes. *)
Definition change_ok (n : nat) (ch : change) : Prop :=
  match ch with
  | Change16 off v => Nat.Even off ∧ (off + 2 <= n)%nat ∧ in_width 16 v
  | Change32 off v => Nat.Even off ∧ (off + 4 <= n)%nat ∧ in_width 32 v
  end.

(** ** One field *)

Lemma read_width p off n : octets p -> in_width (8 * Z.of_nat n) (read p off n).
Proof. intros Hp. apply little_width; [by apply octets_take, octets_drop | rewrite length_take; lia]. Qed.

Lemma put16_read p off : (off + 2 <= length p)%nat -> octets p -> put16 p off (read p off 2) = p.
Proof.
  intros Hl Hp. unfold put16, read. transitivity (take off p ++ drop off p); [| apply take_drop]. f_equal. rewrite <- (drop_drop p 2 off).
  assert (octets (drop off p)) as Ho by by apply octets_drop. assert (2 <= length (drop off p))%nat as Hd by (rewrite length_drop; lia).
  destruct (drop off p) as [| a [| b q]]; simpl in Hd; try lia. apply Forall_cons in Ho as [Ha [Hb _]%Forall_cons]. unfold in_width in *.
  cbn [take drop little app]. repeat f_equal; rewrite Z.mul_0_r, Z.add_0_r, Z.mul_comm.
  - rewrite Z.mod_add, Z.mod_small by lia. done.
  - rewrite Z.div_add, Z.div_small by lia. lia.
Qed.

Lemma increment16_val old v : in_width 16 old -> ChecksumIncrement16 old v = m16 - old + v.
Proof. intros Ho. unfold ChecksumIncrement16. rewrite land16. fold (wrap 16 (Z.lnot old)). by rewrite lnot16, wrap_small. Qed.

(** The increment is what the number the bytes are grows by. *)
Lemma change16_ok p off v :
  octets p -> change_ok (length p) (Change16 off v) ->
  let i := ChecksumIncrement16 (read p off 2) v in
  0 <= i <= 2 * m16 ∧ (m16 | little (put16 p off v) - little p - i) ∧ (little p = 0 -> 0 < i).
Proof.
  intros Hp (He & Hl & Hv). pose proof (read_width p off 2 Hp) as Hr. change (8 * Z.of_nat 2) with 16 in Hr. rewrite increment16_val by done.
  pose proof (put16_little p off v Hl Hp Hv He) as [_ _ _ [c Hc]].
  pose proof (put16_little p off (read p off 2) Hl Hp Hr He) as [_ _ _ [d Hd]]. rewrite put16_read in Hd by done.
  unfold in_width in *. split_and!; [unfold m16; lia.. | exists (c - d - 1); unfold m16 in *; lia |].
  intros H0. assert (read p off 2 = 0); [| unfold m16; lia]. unfold read.
  rewrite <- (take_drop off p), little_app in H0. rewrite <- (take_drop 2 (drop off p)), little_app in H0.
  pose proof (little_nonneg _ (octets_take off p Hp)). pose proof (little_nonneg _ (octets_take 2 _ (octets_drop off p Hp))).
  pose proof (little_nonneg _ (octets_drop 2 _ (octets_drop off p Hp))).
  pose proof (Z.pow_pos_nonneg 256 (size (take off p)) ltac:(lia) ltac:(unfold size; lia)).
  pose proof (Z.pow_pos_nonneg 256 (size (take 2 (drop off p))) ltac:(lia) ltac:(unfold size; lia)). nia.
Qed.

Lemma read_pair p off : (off + 4 <= length p)%nat -> octets p -> read p off 4 = read p off 2 + 65536 * read p (off + 2) 2.
Proof.
  intros Hl Hp. unfold read. rewrite <- (drop_drop p 2 off). assert (4 <= length (drop off p))%nat as Hd by (rewrite length_drop; lia).
  destruct (drop off p) as [| a [| b [| c [| d q]]]]; simpl in Hd; try lia. cbn [take drop little]. lia.
Qed.

Lemma increment32_val p off v :
  (off + 4 <= length p)%nat -> octets p -> in_width 32 v ->
  ChecksumIncrement32 (read p off 4) v =
    ChecksumIncrement16 (read p off 2) (v mod 65536) + ChecksumIncrement16 (read p (off + 2) 2) (v / 65536).
Proof.
  intros Hl Hp Hv. pose proof (read_width p off 2 Hp) as H1. pose proof (read_width p (off + 2) 2 Hp) as H2.
  rewrite !increment16_val by done. rewrite read_pair by done. change (8 * Z.of_nat 2) with 16 in *. unfold in_width in *.
  set (lo := read p off 2) in *. set (hi := read p (off + 2) 2) in *.
  assert (not32 (lo + 65536 * hi) = (m16 - lo) + 65536 * (m16 - hi)) as Hn.
  { unfold not32, wrap, Z.lnot, m16. symmetry. apply (Z.mod_unique _ _ (-1)); [left; lia | lia]. }
  unfold ChecksumIncrement32. rewrite Hn, !land16, !shiftr_div by lia. change (2 ^ 16) with 65536 in *. unfold m16 in *.
  assert (∀ a b, 0 <= a < 65536 -> (a + 65536 * b) / 65536 = b) as Hdiv
    by (intros a b Ha; symmetry; apply (Z.div_unique _ _ _ a); [left; lia | lia]).
  assert (∀ a b, 0 <= a < 65536 -> (a + 65536 * b) mod 65536 = a) as Hmod
    by (intros a b Ha; symmetry; apply (Z.mod_unique _ _ b); [left; lia | lia]).
  rewrite Hdiv, Hmod by lia. assert (0 <= v / 65536 < 65536) by (Z.div_mod_to_equations; lia).
  pose proof (Z.mod_pos_bound v 65536 ltac:(lia)). rewrite !wrap_small by (unfold in_width; repeat rewrite wrap_small; unfold in_width; lia). lia.
Qed.

Lemma read_put16 p off v : (off + 4 <= length p)%nat -> read (put16 p off v) (off + 2) 2 = read p (off + 2) 2.
Proof. intros Hl. unfold read. by rewrite put16_after by lia. Qed.

Lemma change_step p ch :
  octets p -> change_ok (length p) ch ->
  octets (overwrite p ch) ∧ length (overwrite p ch) = length p ∧ 0 <= increment p ch <= 4 * m16 ∧
  (m16 | little (overwrite p ch) - little p - increment p ch) ∧ (little p = 0 -> 0 < increment p ch).
Proof.
  intros Hp Hok. destruct ch as [off v | off v]; cbn [overwrite increment] in *.
  - destruct (change16_ok p off v Hp Hok) as (H1 & H2 & H3). destruct Hok as (He & Hl & Hv).
    split_and!; [by apply put16_octets | by apply put16_length | lia.. | done | done].
  - destruct Hok as (He & Hl & Hv). assert (in_width 16 (v mod 65536)) as Hlo by (unfold in_width; apply Z.mod_pos_bound; lia).
    assert (in_width 16 (v / 65536)) as Hhi by (unfold in_width in *; Z.div_mod_to_equations; lia).
    set (q := put16 p off (v mod 65536)). assert (octets q) as Hq by by apply put16_octets.
    assert (length q = length p) as Hlq by (apply put16_length; lia).
    destruct (change16_ok p off (v mod 65536)) as (H1 & [c Hc] & H3); [done | split_and!; [done | lia | done] |].
    destruct (change16_ok q (off + 2) (v / 65536)) as (G1 & [d Hd] & G3);
      [done | split_and!; [destruct He as [j ->]; exists (S j); lia | lia | done] |].
    unfold put32. fold q. rewrite increment32_val by done. unfold q in Hd, G1. rewrite read_put16 in Hd, G1 by lia. fold q in Hd. fold q in Hc.
    split_and!; [by apply put16_octets | rewrite put16_length by lia; done | lia.. | exists (c + d); lia | intros H0; specialize (H3 H0); lia].
Qed.

(** ** All fields *)

Lemma changed_ok cs : ∀ p inc p' inc',
  octets p -> Forall (change_ok (length p)) cs -> 0 <= inc -> inc + 4 * m16 * Z.of_nat (length cs) < 2 ^ 32 - m16 ->
  changed p cs inc = (p', inc') ->
  octets p' ∧ length p' = length p ∧ inc <= inc' < 2 ^ 32 - m16 ∧ (m16 | little p' - little p - (inc' - inc)) ∧
  (little p = 0 -> cs <> [] -> inc < inc').
Proof.
  induction cs as [| ch cs IH]; intros p inc p' inc' Hp Hcs Hi Hb Hrun; cbn [changed] in Hrun.
  { injection Hrun as <- <-. split_and!; [done | done | lia | simpl in Hb; lia | exists 0; lia | done]. }
  apply Forall_cons in Hcs as [Hch Hcs]. destruct (change_step p ch Hp Hch) as (Ho & Hl & Hr & [c Hc] & Hpos).
  cbn [length] in Hb. unfold m16 in Hr, Hb. rewrite wrap_small in Hrun by (unfold in_width; lia).
  destruct (IH (overwrite p ch) (inc + increment p ch) p' inc' Ho ltac:(by rewrite Hl) ltac:(lia) ltac:(unfold m16; lia) Hrun) as (H1 & H2 & H3 & [d Hd] & _).
  split_and!; [done | congruence | lia | lia | exists (c + d); lia |]. intros H0 _. specialize (Hpos H0). lia.
Qed.


End ChecksumUpdate.
