(* ===== verification/ChecksumDemo.v ===== *)
(** * Checksums computed

    The header and segment of a TCP SYN, on which the theorems about checksums
    apply, and the values of the kernels where they differ. *)

From S2P Require Import Prelude PacketParse ParseReads ParseRoundtrip ParseDemo.
From S2P Require Import Checksum ChecksumSpec ChecksumHeaders ChecksumProps ChecksumUpdate.
Open Scope Z_scope.

Module ChecksumDemo.
Import Parse Reads Checksum Rfc1071 Headers ChecksumProps ChecksumUpdate.

Definition frame : list Z := Roundtrip.frame_bytes ParseDemo.syn_packet.
Definition iph : list Z := drop 14 frame.
Definition tcph : list Z := drop 34 frame.

Lemma iph_octets : octets iph.
Proof. apply ParseDemo.octets_by_computation. vm_compute. reflexivity. Qed.

Lemma tcph_octets : octets tcph.
Proof. apply ParseDemo.octets_by_computation. vm_compute. reflexivity. Qed.

Lemma tcp_in_memory : in_memory TcpSegment iph tcph.
Proof. vm_compute. repeat split; congruence || lia. Qed.

(** 201 bytes: three vector steps, a chain and an odd byte. *)
Definition long_buffer : list Z := Z.of_nat <$> (seq 0 201).

Lemma checksum_is_rfc1071_witness :
  CalculateSum Avx2 long_buffer = CalculateSum Portable long_buffer ∧
  swap16 (CalculateGenericChecksum X86 long_buffer) = rfc1071 long_buffer ∧ rfc1071 long_buffer = 0x64c8.
Proof.
  assert (octets long_buffer) as Ho by (apply ParseDemo.octets_by_computation; vm_compute; reflexivity).
  assert (size long_buffer < 2 ^ 32) as Hs by (vm_compute; reflexivity).
  assert (in_width 32 0) as H0 by (unfold in_width; lia). assert (in_width 16 0) as H1 by (unfold in_width; lia).
  assert (Forall (in_width 32) []) as Hn by constructor.
  destruct (checksum_is_rfc1071 Avx2 Portable long_buffer 0 [] 0 Ho Hs H0 Hn ltac:(simpl; lia) H1) as (Ha & _).
  destruct (checksum_is_rfc1071 X86 Portable long_buffer 0 [] 0 Ho Hs H0 Hn ltac:(simpl; lia) H1) as (_ & _ & Hb & _).
  split; [exact Ha |]. split; [exact Hb |]. vm_compute. reflexivity.
Defined.

Lemma header_checksum_is_rfc1071_witness : verify Avx2 TcpSegment iph tcph = Ret false ∧ verify X86 IpHeader iph tcph = Ret false.
Proof.
  destruct (header_checksum_is_rfc1071 Avx2 TcpSegment iph tcph iph_octets tcph_octets tcp_in_memory) as [Hv _]. rewrite Hv.
  split; vm_compute; reflexivity.
Defined.

Lemma stored_checksum_verifies_witness :
  ∃ c, calculate Avx2 TcpSegment iph tcph = Ret c ∧ verify Portable TcpSegment iph (put16 tcph 16 c) = Ret true.
Proof.
  eexists. split; [vm_compute; reflexivity |].
  apply (stored_checksum_verifies Avx2 Portable TcpSegment iph tcph _ iph_octets tcph_octets tcp_in_memory).
  - vm_compute. eexists. reflexivity.
  - vm_compute. reflexivity.
Defined.

(** A translated source address and a decremented time to live. *)
Definition rewritten : list change := [Change32 12 0x0100a8c0; Change16 8 0x063f].


(** The kernels differ before the fold. *)
Example kernels_alike_not_equal :
  SumWords32 X86 (replicate 16 255) = 0x1fffffffe ∧ SumWords32 Portable (replicate 16 255) = 0xffffffff.
Proof. split; vm_compute; reflexivity. Qed.

End ChecksumDemo.
