(* ===== verification/FlowIndex.v ===== *)
(** * The directory of a flow table

    Models [core/flow/flow_index.h] and the tag compare it uses from
    [core/arch/tag_match.h] (its portable loop, which is the definition of the
    vector path too): buckets of eight tagged key ids, probed from a key's home
    bucket on, with a count in each bucket of the inserts that passed it. The
    functor passed to [Find] is a function from ids to runs. *)

From S2P Require Import Prelude.
Open Scope Z_scope.

Module Index.

Definition kSlots : nat := 8.

Record Bucket := mk_bucket {
  tags : list Z;        (* 0 marks an empty slot *)
  ids : list Z;
  overflow : Z          (* 8 bits; 255 sticks *)
}.

Definition empty_bucket : Bucket := mk_bucket (replicate kSlots 0) (replicate kSlots 0) 0.

(** ** Tags *)

Fixpoint match_tags (todo i : nat) (tags : list Z) (tag mask : Z) : run Z :=
  match todo with
  | O => mret mask
  | S todo =>
      t ← at_ tags i;
      match_tags todo (S i) tags tag
        (Z.lor mask (Z.shiftl (if bool_decide (t = tag) then 1 else 0) (Z.of_nat i)))
  end.

Definition MatchTags (tags : list Z) (tag : Z) : run Z := match_tags kSlots 0 tags tag 0.

(** The loop over the set bits of [m]: the first slot whose id passes [test].
    A mask of eight bits is empty after eight rounds. *)
Fixpoint first_match (fuel : nat) (m : Z) (b : Bucket) (test : Z -> run bool) : run (option nat) :=
  match fuel with
  | O => Undef
  | S fuel =>
      if bool_decide (m = 0) then mret None
      else
        let slot := Z.to_nat (countr_zero 32 m) in
        id ← at_ (ids b) slot;
        yes ← test id;
        if (yes : bool) then mret (Some slot)
        else first_match fuel (Z.land m (m - 1)) b test
  end.

(** ** Hashes *)

Definition Mix (h : Z) : Z :=
  let h := wrap 64 (Z.lxor h (Z.shiftr h 32) * 0xd6e8feb86659fd93) in
  let h := Z.lxor h (Z.shiftr h 32) in
  wrap 64 (h * 0x9e3779b97f4a7c15).

Record Hashed := mk_hashed { bucket : nat; tag : Z }.

#[export] Instance Hashed_eq_dec : EqDecision Hashed.
Proof. solve_decision. Defined.

Definition kNone : Z := 0xffffffff.
Definition kEntriesPerBucket : Z := 4.

Definition BucketsFor (max_keys : Z) : Z :=
  wrap 64 (max_keys + kEntriesPerBucket - 1) / kEntriesPerBucket +
  (if bool_decide (max_keys = 0) then 1 else 0).

Record t := mk { buckets_ : list Bucket; count_ : nat }.

(** A zeroed directory of [count] buckets. *)
Definition construct (count : nat) : t := mk (replicate count empty_bucket) count.

Definition Split (ix : t) (user_hash : Z) : Hashed :=
  let m := Mix user_hash in
  let b := wrap 32 (Z.shiftr (wrap 64 (Z.shiftr m 32 * Z.of_nat (count_ ix))) 32) in
  let tag := wrap 16 (Z.shiftr m 8) in
  mk_hashed (Z.to_nat b) (wrap 16 (tag + (if bool_decide (tag = 0) then 1 else 0))).

(** [(b + 1 == count_) ? 0 : b + 1] *)
Definition after (ix : t) (b : nat) : nat :=
  if bool_decide (b + 1 = count_ ix)%nat then 0%nat else (b + 1)%nat.

Definition set_bucket (b : nat) (x : Bucket) (ix : t) : t := mk (<[b := x]> (buckets_ ix)) (count_ ix).

(** ** Lookup *)

Fixpoint find_from (todo : nat) (ix : t) (h : Hashed) (b : nat) (eq : Z -> run bool) : run Z :=
  match todo with
  | O => mret kNone
  | S todo =>
      x ← at_ (buckets_ ix) b;
      m ← MatchTags (tags x) (tag h);
      hit ← first_match (S kSlots) m x eq;
      match hit with
      | Some slot => at_ (ids x) slot
      | None =>
          if bool_decide (overflow x = 0) then mret kNone
          else find_from todo ix h (after ix b) eq
      end
  end.

Definition Find (ix : t) (h : Hashed) (eq : Z -> run bool) : run Z :=
  find_from (count_ ix) ix h (bucket h) eq.

Definition FirstCandidate (ix : t) (h : Hashed) : run Z :=
  x ← at_ (buckets_ ix) (bucket h);
  m ← MatchTags (tags x) (tag h);
  if bool_decide (m <> 0) then at_ (ids x) (Z.to_nat (countr_zero 32 m)) else mret kNone.

(** ** Insertion and removal *)

(** The loop over the [todo] buckets from [b] that an id skipped. *)
Fixpoint passed (todo : nat) (ix : t) (b : nat) (delta : Z) : run t :=
  match todo with
  | O => mret ix
  | S todo =>
      x ← at_ (buckets_ ix) b;
      let ix := if bool_decide (overflow x <> 255)
                then set_bucket b (mk_bucket (tags x) (ids x) (wrap 8 (overflow x + delta))) ix
                else ix in
      passed todo ix (after ix b) delta
  end.

Fixpoint insert_from (todo step : nat) (ix : t) (h : Hashed) (b : nat) (id : Z) : run (bool * t) :=
  match todo with
  | O => mret (false, ix)
  | S todo =>
      x ← at_ (buckets_ ix) b;
      empty ← MatchTags (tags x) 0;
      if bool_decide (empty <> 0) then
        let slot := Z.to_nat (countr_zero 32 empty) in
        let ix := set_bucket b (mk_bucket (<[slot := tag h]> (tags x)) (<[slot := id]> (ids x)) (overflow x)) ix in
        ix ← passed step ix (bucket h) 1;
        mret (true, ix)
      else insert_from todo (S step) ix h (after ix b) id
  end.

Definition Insert (ix : t) (h : Hashed) (id : Z) : run (bool * t) :=
  insert_from (count_ ix) 0 ix h (bucket h) id.

Fixpoint erase_from (todo step : nat) (ix : t) (h : Hashed) (b : nat) (id : Z) : run (bool * t) :=
  match todo with
  | O => mret (false, ix)
  | S todo =>
      x ← at_ (buckets_ ix) b;
      m ← MatchTags (tags x) (tag h);
      hit ← first_match (S kSlots) m x (fun i => mret (bool_decide (i = id)));
      match hit with
      | Some slot =>
          let ix := set_bucket b (mk_bucket (<[slot := 0]> (tags x)) (ids x) (overflow x)) ix in
          ix ← passed step ix (bucket h) (-1);
          mret (true, ix)
      | None =>
          if bool_decide (overflow x = 0) then mret (false, ix)
          else erase_from todo (S step) ix h (after ix b) id
      end
  end.

Definition Erase (ix : t) (h : Hashed) (id : Z) : run (bool * t) :=
  erase_from (count_ ix) 0 ix h (bucket h) id.

Definition bucket_count (ix : t) : nat := count_ ix.

(** The loop of [ProbeLength]. *)
Fixpoint probe_from (todo : nat) (ix : t) (b steps : nat) : run nat :=
  match todo with
  | O => mret steps
  | S todo =>
      if bool_decide (steps < count_ ix)%nat then
        x ← at_ (buckets_ ix) b;
        if bool_decide (overflow x <> 0) then probe_from todo ix (after ix b) (S steps)
        else mret steps
      else mret steps
  end.

Definition ProbeLength (ix : t) (h : Hashed) : run nat := probe_from (count_ ix) ix (bucket h) 1.

End Index.
