(* ===== verification/FlowProbe.v ===== *)
(** * Probing the flow directory

    The directory holds a finite map from key ids to the hash they were
    inserted under and where they sit. [Find], [Insert] and [Erase] of
    [FlowIndex.v] look up, extend and shrink that map, and an index sized by
    [BucketsFor] is never full. *)

From S2P Require Import Prelude FlowIndex.
Open Scope Z_scope.

Module Probe.
Import Index.

(** ** The ring of buckets *)

Section Ring.
Context (n : nat).
Implicit Types (a b k : nat).

(** The bucket [k] steps after [a], and the steps from [a] to [b]. *)
Definition hop a k : nat := if bool_decide (a + k < n)%nat then (a + k)%nat else (a + k - n)%nat.
Definition dist a b : nat := if bool_decide (a <= b)%nat then (b - a)%nat else (b + n - a)%nat.

Lemma hop_lt a k : (a < n)%nat -> (k <= n)%nat -> (hop a k < n)%nat.
Proof. unfold hop. case_bool_decide; lia. Qed.

Lemma dist_lt a b : (a < n)%nat -> (b < n)%nat -> (dist a b < n)%nat.
Proof. unfold dist. case_bool_decide; lia. Qed.

Lemma dist_hop a k : (a < n)%nat -> (k < n)%nat -> dist a (hop a k) = k.
Proof. unfold dist, hop. repeat case_bool_decide; lia. Qed.

Lemma hop_dist a b : (a < n)%nat -> (b < n)%nat -> hop a (dist a b) = b.
Proof. unfold dist, hop. repeat case_bool_decide; lia. Qed.

Lemma hop_0 a : (a < n)%nat -> hop a 0 = a.
Proof. unfold hop. case_bool_decide; lia. Qed.

End Ring.

Lemma after_hop ix a k :
  (a < count_ ix)%nat -> (k < count_ ix)%nat -> after ix (hop (count_ ix) a k) = hop (count_ ix) a (S k).
Proof. unfold after, hop. repeat case_bool_decide; lia. Qed.

(** ** Masks *)

Definition bits (m : Z) : list nat := filter (fun i => Z.testbit m (Z.of_nat i) = true) (seq 0 kSlots).

(** A check of every eight-bit mask. *)
Lemma all_masks (P : Z -> Prop) {HP : ∀ m, Decision (P m)} :
  forallb (fun m => bool_decide (P m)) (seqZ 0 256) = true -> ∀ m, 0 <= m < 256 -> P m.
Proof.
  intros H m Hm. rewrite forallb_forall in H. eapply bool_decide_eq_true_1, H, list_elem_of_In, elem_of_seqZ. lia.
Qed.

Lemma bits_step m :
  0 <= m < 256 -> m <> 0 ->
  bits m = Z.to_nat (countr_zero 32 m) :: bits (Z.land m (m - 1)) ∧ 0 <= Z.land m (m - 1) < 256.
Proof.
  intros Hm. apply (all_masks (fun m => m <> 0 -> bits m = Z.to_nat (countr_zero 32 m) :: bits (Z.land m (m - 1)) ∧
    0 <= Z.land m (m - 1) < 256)); [vm_compute; reflexivity | done].
Qed.

Lemma bits_length m : (length (bits m) <= kSlots)%nat.
Proof. unfold bits. etrans; [apply length_filter |]. by rewrite length_seq. Qed.

Lemma match_tags_spec todo : ∀ i l tag mask,
  (i + todo <= length l)%nat -> 0 <= mask ->
  ∃ m, match_tags todo i l tag mask = Ret m ∧ 0 <= m ∧
    ∀ j : nat, Z.testbit m (Z.of_nat j) = Z.testbit mask (Z.of_nat j) ||
      (bool_decide (i <= j < i + todo)%nat && bool_decide (l !! j = Some tag)).
Proof.
  induction todo as [| todo IH]; intros i l tag mask Hl Hm; cbn [match_tags].
  { exists mask. split_and!; [done.. |]. intros j. rewrite bool_decide_eq_false_2 by lia. by rewrite orb_false_r. }
  destruct (lookup_lt_is_Some_2 l i) as [x Hx]; [lia |]. rewrite (at_lookup _ _ _ Hx). cbn [mbind run_bind].
  set (bit := if bool_decide (x = tag) then 1 else 0).
  assert (∀ j : nat, Z.testbit (Z.shiftl bit (Z.of_nat i)) (Z.of_nat j) =
            bool_decide (j = i) && bool_decide (l !! j = Some tag)) as Hbit.
  { intros j. rewrite Z.shiftl_spec by lia. unfold bit. destruct (decide (j = i)) as [-> | Hne].
    - rewrite Z.sub_diag, Hx. rewrite (bool_decide_eq_true_2 (i = i)) by done. simpl.
      repeat case_bool_decide; simplify_eq; done.
    - rewrite (bool_decide_eq_false_2 (j = i)) by done. simpl. case_bool_decide; [| apply Z.bits_0].
      change 1 with (2 ^ 0). rewrite Z.pow2_bits_eqb by lia. apply Z.eqb_neq. lia. }
  destruct (IH (S i) l tag (Z.lor mask (Z.shiftl bit (Z.of_nat i)))) as (m & -> & Hm' & Hj); [lia | |].
  { apply Z.lor_nonneg. split; [done |]. apply Z.shiftl_nonneg. unfold bit. case_bool_decide; lia. }
  exists m. split_and!; [done.. |]. intros j. rewrite Hj, Z.lor_spec, Hbit, <- orb_assoc. f_equal.
  destruct (bool_decide (l !! j = Some tag)); [| by rewrite !andb_false_r]. rewrite !andb_true_r.
  repeat case_bool_decide; simpl; try done; lia.
Qed.

Lemma MatchTags_spec l tag :
  length l = kSlots ->
  ∃ m, MatchTags l tag = Ret m ∧ 0 <= m < 256 ∧ ∀ i, i ∈ bits m <-> l !! i = Some tag.
Proof.
  intros Hl. destruct (match_tags_spec kSlots 0 l tag 0) as (m & Hm & Hnn & Hj); [lia.. |].
  exists m. split; [done |]. setoid_rewrite Z.bits_0 in Hj. simpl in Hj. split.
  - split; [done |]. destruct (Z.eq_dec m 0) as [-> | Hne]; [lia |]. apply Z.log2_lt_pow2 with (b := 8); [lia |].
    destruct (Z.lt_ge_cases (Z.log2 m) 8) as [? | Hge]; [done |]. pose proof (Z.bit_log2 m ltac:(lia)) as Hb.
    rewrite <- (Z2Nat.id (Z.log2 m)), Hj in Hb by lia. apply andb_prop in Hb as [Hb _].
    apply bool_decide_eq_true in Hb. unfold kSlots in Hb. lia.
  - intros i. unfold bits. rewrite list_elem_of_filter, elem_of_seq, Hj. split.
    + intros [[H1 H2]%andb_prop _]. by apply bool_decide_eq_true in H2.
    + intros Hi. pose proof (lookup_lt_Some _ _ _ Hi). rewrite !bool_decide_eq_true_2 by (done || lia). split; [done | lia].
Qed.

(** ** Scanning a bucket *)

(** What the loop over a mask finds, for a test that answers on the ids there. *)
Lemma first_match_spec fuel m x (test : Z -> run bool) (P : Z -> bool) :
  0 <= m < 256 -> (length (bits m) < fuel)%nat ->
  (∀ s, s ∈ bits m -> ∃ i, ids x !! s = Some i ∧ test i = Ret (P i)) ->
  ∃ hit, first_match fuel m x test = Ret hit ∧
    match hit with
    | Some s => s ∈ bits m ∧ ∃ i, ids x !! s = Some i ∧ P i = true
    | None => ∀ s i, s ∈ bits m -> ids x !! s = Some i -> P i = false
    end.
Proof.
  revert m. induction fuel as [| fuel IH]; intros m Hm Hf Hids; [lia |]. cbn [first_match].
  case_bool_decide as H0.
  { exists None. split; [done |]. subst m. intros s i Hs. by apply elem_of_nil in Hs. }
  destruct (bits_step m Hm H0) as [Hb Hm']. rewrite Hb in *. simpl in Hf.
  destruct (Hids (Z.to_nat (countr_zero 32 m))) as (i & Hi & Ht); [by left |].
  rewrite (at_lookup _ _ _ Hi). cbn [mbind run_bind]. rewrite Ht. cbn [mbind run_bind].
  destruct (P i) eqn:HP; [exists (Some (Z.to_nat (countr_zero 32 m))); split; [done |]; split; [by left | eauto] |].
  destruct (IH (Z.land m (m - 1))) as (hit & -> & Hhit); [done | lia | intros s Hs; apply Hids; by right |].
  exists hit. split; [done |]. destruct hit as [s |].
  - destruct Hhit as [Hs Hi']. split; [by right | done].
  - intros s j [-> | Hs]%elem_of_cons Hj; [congruence | by eapply Hhit].
Qed.

(** ** The directory as a map *)

(** Where an id sits, and the hash it was inserted under. *)
Record place := mk_place { p_hash : Hashed; p_bucket : nat; p_slot : nat }.

Section Map.
Implicit Types (ix : t) (g : gmap Z place).

(** The entry is beyond bucket [b] on the way from its home. *)
Definition passes (n b : nat) (e : Z * place) : Prop :=
  (dist n (bucket (p_hash e.2)) b < dist n (bucket (p_hash e.2)) (p_bucket e.2))%nat.

#[export] Instance passes_dec n b e : Decision (passes n b e).
Proof. unfold passes. apply _. Defined.

Record shaped (x : Bucket) : Prop := {
  sh_tags : length (tags x) = kSlots;
  sh_ids : length (ids x) = kSlots
}.

Record sits ix (i : Z) (p : place) : Prop := {
  st_tag : tag (p_hash p) <> 0;
  st_home : (bucket (p_hash p) < count_ ix)%nat;
  st_at : ∃ x, buckets_ ix !! p_bucket p = Some x ∧ tags x !! p_slot p = Some (tag (p_hash p)) ∧
            ids x !! p_slot p = Some i
}.

Record holds ix g : Prop := {
  ho_length : length (buckets_ ix) = count_ ix;
  ho_count : (0 < count_ ix)%nat;
  ho_shape b x : buckets_ ix !! b = Some x -> shaped x;
  ho_sits i p : g !! i = Some p -> sits ix i p;
  ho_owned b x s tg :
    buckets_ ix !! b = Some x -> tags x !! s = Some tg -> tg <> 0 ->
    ∃ i p, g !! i = Some p ∧ p_bucket p = b ∧ p_slot p = s;
  ho_passed b x :
    buckets_ ix !! b = Some x ->
    overflow x = 255 ∨ overflow x = Z.of_nat (size (filter (passes (count_ ix) b) g)) ∧ overflow x < 255
}.

Lemma holds_empty n : (0 < n)%nat -> holds (construct n) ∅.
Proof.
  intros Hn. assert (∀ b x, buckets_ (construct n) !! b = Some x -> x = empty_bucket) as Hall.
  { intros b x Hx. by apply lookup_replicate in Hx as [-> _]. }
  split; simpl.
  - apply length_replicate.
  - done.
  - intros b x ->%Hall. done.
  - intros i p H. by rewrite lookup_empty in H.
  - intros b x s tg ->%Hall Ht Hne. apply lookup_replicate in Ht as [-> _]. done.
  - intros b x ->%Hall. right. by rewrite map_filter_empty.
Qed.

Lemma bucket_at ix g b : holds ix g -> (b < count_ ix)%nat -> ∃ x, buckets_ ix !! b = Some x ∧ shaped x.
Proof.
  intros Hh Hb. destruct (lookup_lt_is_Some_2 (buckets_ ix) b) as [x Hx].
  { by rewrite (ho_length _ _ Hh). }
  exists x. split; [done | by apply (ho_shape _ _ Hh b)].
Qed.

Lemma place_lt ix g i p : holds ix g -> g !! i = Some p -> (p_bucket p < count_ ix)%nat.
Proof.
  intros Hh Hi. destruct (st_at _ _ _ (ho_sits _ _ Hh i p Hi)) as (x & Hx & _).
  rewrite <- (ho_length _ _ Hh). by eapply lookup_lt_Some.
Qed.

(** An occupied slot names an entry of the map. *)
Lemma owned_id ix g b x s tg :
  holds ix g -> buckets_ ix !! b = Some x -> tags x !! s = Some tg -> tg <> 0 ->
  ∃ i p, ids x !! s = Some i ∧ g !! i = Some p ∧ tag (p_hash p) = tg ∧ p_bucket p = b ∧ p_slot p = s.
Proof.
  intros Hh Hx Ht Hne. destruct (ho_owned _ _ Hh b x s tg Hx Ht Hne) as (i & p & Hi & <- & <-).
  destruct (st_at _ _ _ (ho_sits _ _ Hh i p Hi)) as (x' & Hx' & Ht' & Hi'). simplify_eq. eauto 8.
Qed.

(** Two ids cannot sit in one slot. *)
Lemma place_inj ix g i j p q :
  holds ix g -> g !! i = Some p -> g !! j = Some q -> p_bucket p = p_bucket q -> p_slot p = p_slot q -> i = j.
Proof.
  intros Hh Hi Hj Hb Hs. destruct (st_at _ _ _ (ho_sits _ _ Hh i p Hi)) as (x & Hx & _ & Hi').
  destruct (st_at _ _ _ (ho_sits _ _ Hh j q Hj)) as (y & Hy & _ & Hj'). congruence.
Qed.

(** A bucket passed by an entry says so. *)
Lemma passed_nonzero ix g b x i p :
  holds ix g -> buckets_ ix !! b = Some x -> g !! i = Some p -> passes (count_ ix) b (i, p) -> overflow x <> 0.
Proof.
  intros Hh Hx Hi Hp. destruct (ho_passed _ _ Hh b x Hx) as [-> | [-> _]]; [done |].
  assert (filter (passes (count_ ix) b) g !! i = Some p) as Hf by by apply map_lookup_filter_Some.
  assert (size (filter (passes (count_ ix) b) g) <> 0)%nat; [| lia].
  intros Hz. apply map_size_empty_inv in Hz. by rewrite Hz in Hf.
Qed.

(** ** Lookup *)

(** What a scan of one bucket finds among the entries there. *)
Lemma scan_bucket ix g b x (tg : Z) (test : Z -> run bool) (P : Z -> bool) :
  holds ix g -> buckets_ ix !! b = Some x -> tg <> 0 ->
  (∀ i p, g !! i = Some p -> test i = Ret (P i)) ->
  ∃ m hit, MatchTags (tags x) tg = Ret m ∧ first_match (S kSlots) m x test = Ret hit ∧
    match hit with
    | Some s => ∃ i p, ids x !! s = Some i ∧ tags x !! s = Some tg ∧ g !! i = Some p ∧ p_bucket p = b ∧
                  p_slot p = s ∧ P i = true
    | None => ∀ i p, g !! i = Some p -> p_bucket p = b -> tag (p_hash p) = tg -> P i = false
    end.
Proof.
  intros Hh Hx Htg Htest. destruct (ho_shape _ _ Hh b x Hx) as [Hlt Hli].
  destruct (MatchTags_spec (tags x) tg Hlt) as (m & Hm & Hr & Hbits).
  destruct (first_match_spec (S kSlots) m x test P) as (hit & Hhit & Hspec); [done | | |].
  - pose proof (bits_length m). lia.
  - intros s Hs%Hbits. destruct (owned_id _ _ _ _ _ _ Hh Hx Hs Htg) as (i & p & Hi & Hg & _). eauto.
  - exists m, hit. split_and!; [done.. |]. destruct hit as [s |].
    + destruct Hspec as [Hs%Hbits (i & Hi & HP)].
      destruct (owned_id _ _ _ _ _ _ Hh Hx Hs Htg) as (j & p & Hj & Hg & _ & <- & <-).
      simplify_eq. eauto 12.
    + intros i p Hg <- <-. destruct (st_at _ _ _ (ho_sits _ _ Hh i p Hg)) as (y & Hy & Hty & Hiy). simplify_eq.
      apply (Hspec (p_slot p) i); [by apply Hbits | done].
Qed.

(** The result of a lookup: the one entry that passes the test. *)
Definition found g (P : Z -> bool) (r : Z) : Prop :=
  (∃ p, g !! r = Some p ∧ P r = true) ∨ (r = kNone ∧ ∀ i p, g !! i = Some p -> P i = false).

Section Search.
Context (ix : t) (g : gmap Z place) (h : Hashed) (test : Z -> run bool) (P : Z -> bool).
Context (Hh : holds ix g) (Hhome : (bucket h < count_ ix)%nat) (Htag : tag h <> 0).
Context (Htest : ∀ i p, g !! i = Some p -> test i = Ret (P i)).
Context (Hsame : ∀ i p, g !! i = Some p -> P i = true -> p_hash p = h).

(** Every entry that passes the test is still ahead. *)
Definition ahead (k : nat) : Prop :=
  ∀ i p, g !! i = Some p -> P i = true -> (k <= dist (count_ ix) (bucket h) (p_bucket p))%nat.

Lemma scan_step k x :
  ahead k -> (k < count_ ix)%nat -> buckets_ ix !! hop (count_ ix) (bucket h) k = Some x ->
  ∃ m hit, MatchTags (tags x) (tag h) = Ret m ∧ first_match (S kSlots) m x test = Ret hit ∧
    match hit with
    | Some s => ∃ i p, ids x !! s = Some i ∧ g !! i = Some p ∧ p_bucket p = hop (count_ ix) (bucket h) k ∧
                  p_slot p = s ∧ P i = true
    | None => ahead (S k) ∧ (overflow x = 0 -> ∀ i p, g !! i = Some p -> P i = false)
    end.
Proof using Hh Hhome Htag Htest Hsame.
  intros Ha Hk Hx. destruct (scan_bucket ix g _ x (tag h) test P Hh Hx Htag Htest) as (m & hit & Hm & Hhit & Hspec).
  exists m, hit. split_and!; [done.. |]. destruct hit as [s |].
  - destruct Hspec as (i & p & Hi & _ & Hg & Hb & Hs & HP). eauto 10.
  - assert (ahead (S k)) as HaS.
    { intros i p Hg HP. pose proof (Ha i p Hg HP) as Hle. pose proof (Hsame i p Hg HP) as Hp.
      destruct (decide (k = dist (count_ ix) (bucket h) (p_bucket p))) as [Heq | Hne]; [| lia]. exfalso.
      assert (p_bucket p = hop (count_ ix) (bucket h) k) as Hb.
      { rewrite Heq, hop_dist; [done.. | by eapply place_lt]. }
      rewrite (Hspec i p Hg Hb) in HP; [done | by rewrite Hp]. }
    split; [done |]. intros Ho i p Hg. destruct (P i) eqn:HP; [exfalso | done].
    eapply (passed_nonzero ix g _ x i p Hh Hx Hg); [| done]. unfold passes. simpl.
    rewrite (Hsame i p Hg HP), dist_hop by done. pose proof (HaS i p Hg HP). lia.
Qed.

Lemma find_from_spec k todo :
  (k + todo = count_ ix)%nat -> ahead k ->
  ∃ r, find_from todo ix h (hop (count_ ix) (bucket h) k) test = Ret r ∧ found g P r.
Proof using Hh Hhome Htag Htest Hsame.
  revert k. induction todo as [| todo IH]; intros k Hk Ha; cbn [find_from].
  { eexists. split; [done |]. right. split; [done |]. intros i p Hg. destruct (P i) eqn:HP; [exfalso | done].
    pose proof (Ha i p Hg HP). pose proof (dist_lt (count_ ix) (bucket h) (p_bucket p) Hhome (place_lt _ _ _ _ Hh Hg)). lia. }
  destruct (bucket_at ix g (hop (count_ ix) (bucket h) k) Hh) as (x & Hx & _); [apply hop_lt; lia |].
  rewrite (at_lookup _ _ _ Hx). cbn [mbind run_bind].
  destruct (scan_step k x Ha ltac:(lia) Hx) as (m & hit & -> & Hhit & Hspec). cbn [mbind run_bind]. rewrite Hhit.
  cbn [mbind run_bind]. destruct hit as [s |].
  - destruct Hspec as (i & p & Hi & Hg & _ & _ & HP). rewrite (at_lookup _ _ _ Hi). eexists. split; [done |]. left. eauto.
  - destruct Hspec as [HaS Hz]. case_bool_decide as Ho; [eexists; split; [done |]; right; split; [done | by apply Hz] |].
    rewrite after_hop by lia. apply IH; [lia | done].
Qed.

Lemma Find_spec : ∃ r, Find ix h test = Ret r ∧ found g P r.
Proof using Hh Hhome Htag Htest Hsame.
  unfold Find. rewrite <- (hop_0 (count_ ix) (bucket h)) by done. apply find_from_spec; [lia |]. intros i p _ _. lia.
Qed.

End Search.
(** ** The counts of the buckets passed *)

Definition bump (delta : Z) (x : Bucket) : Bucket :=
  if bool_decide (overflow x <> 255) then mk_bucket (tags x) (ids x) (wrap 8 (overflow x + delta)) else x.

(** The directory with the first [k] buckets from [a] counted by [delta]. *)
Record counted_to ix a (j k : nat) (delta : Z) ix' : Prop := {
  ct_count : count_ ix' = count_ ix;
  ct_length : length (buckets_ ix') = length (buckets_ ix);
  ct_at b x : buckets_ ix !! b = Some x ->
    buckets_ ix' !! b = Some (if bool_decide (j <= dist (count_ ix) a b < k)%nat then bump delta x else x)
}.

Lemma passed_spec todo : ∀ ix a j delta,
  length (buckets_ ix) = count_ ix -> (a < count_ ix)%nat -> (j + todo <= count_ ix)%nat ->
  ∃ ix', passed todo ix (hop (count_ ix) a j) delta = Ret ix' ∧ counted_to ix a j (j + todo) delta ix'.
Proof.
  induction todo as [| todo IH]; intros ix a j delta Hl Ha Hj; cbn [passed].
  { exists ix. split; [done |]. split; try done. intros b x Hx. by rewrite bool_decide_eq_false_2 by lia. }
  set (b0 := hop (count_ ix) a j). assert (b0 < count_ ix)%nat as Hb0 by (apply hop_lt; lia).
  destruct (lookup_lt_is_Some_2 (buckets_ ix) b0) as [x0 Hx0]; [lia |].
  rewrite (at_lookup _ _ _ Hx0). cbn [mbind run_bind].
  set (ix1 := if bool_decide (overflow x0 <> 255) then _ else ix).
  assert (count_ ix1 = count_ ix ∧ buckets_ ix1 = <[b0 := bump delta x0]> (buckets_ ix)) as [Hc1 Hb1].
  { unfold ix1, bump. case_bool_decide; [done |]. split; [done |]. by rewrite list_insert_id. }
  replace (after ix1 b0) with (hop (count_ ix1) a (S j))
    by (unfold b0; rewrite <- Hc1; symmetry; apply after_hop; lia).
  destruct (IH ix1 a (S j) delta) as (ix' & -> & [H1 H2 H3]).
  { by rewrite Hb1, length_insert, Hc1. }
  1, 2: lia.
  exists ix'. split; [done |]. split.
  - congruence.
  - by rewrite H2, Hb1, length_insert.
  - intros b x Hx. destruct (decide (b = b0)) as [-> | Hne].
    + rewrite (H3 b0 (bump delta x0)) by (rewrite Hb1; apply list_lookup_insert_eq; lia). rewrite Hc1.
      assert (dist (count_ ix) a b0 = j) as Hd by (apply dist_hop; lia). rewrite Hd. simplify_eq.
      by rewrite bool_decide_eq_false_2, bool_decide_eq_true_2 by lia.
    + rewrite (H3 b x) by (by rewrite Hb1, list_lookup_insert_ne). rewrite Hc1. f_equal.
      assert (b < count_ ix)%nat by (rewrite <- Hl; by eapply lookup_lt_Some).
      assert (dist (count_ ix) a b <> j).
      { intros <-. apply Hne. unfold b0. symmetry. by apply hop_dist. }
      repeat case_bool_decide; done || lia.
Qed.

Lemma bump_tags delta x : tags (bump delta x) = tags x ∧ ids (bump delta x) = ids x.
Proof. unfold bump. by case_bool_decide. Qed.

(** ** One slot changes *)

(** The directory after slot [s] of bucket [b], holding [x], got the tag [tg]
    and the id [i], and the buckets before it from home [a] were counted. *)
Record changed ix a b s x (tg i delta : Z) ix' : Prop := {
  cg_count : count_ ix' = count_ ix;
  cg_length : length (buckets_ ix') = length (buckets_ ix);
  cg_at : buckets_ ix' !! b = Some (mk_bucket (<[s := tg]> (tags x)) (<[s := i]> (ids x)) (overflow x));
  cg_other b' x' : b' <> b -> buckets_ ix !! b' = Some x' ->
    buckets_ ix' !! b' = Some (if bool_decide (dist (count_ ix) a b' < dist (count_ ix) a b)%nat then bump delta x' else x')
}.

Lemma change_slot ix a b s x tg i delta :
  length (buckets_ ix) = count_ ix -> (a < count_ ix)%nat -> buckets_ ix !! b = Some x ->
  ∃ ix', passed (dist (count_ ix) a b)
           (set_bucket b (mk_bucket (<[s := tg]> (tags x)) (<[s := i]> (ids x)) (overflow x)) ix) a delta = Ret ix' ∧
    changed ix a b s x tg i delta ix'.
Proof.
  intros Hl Ha Hb. pose proof (lookup_lt_Some _ _ _ Hb) as Hlt. set (y := mk_bucket _ _ _).
  pose proof (dist_lt (count_ ix) a b Ha ltac:(lia)) as Hd.
  destruct (passed_spec (dist (count_ ix) a b) (set_bucket b y ix) a 0 delta) as (ix' & Hp & [H1 H2 H3]).
  { simpl. by rewrite length_insert. }
  { done. }
  { simpl. lia. }
  cbn [set_bucket count_ buckets_] in *. rewrite hop_0 in Hp by done. exists ix'. split; [done |]. split.
  - done.
  - by rewrite H2, length_insert.
  - rewrite (H3 b y) by by apply list_lookup_insert_eq. by rewrite bool_decide_eq_false_2 by lia.
  - intros b' x' Hne Hx'. rewrite (H3 b' x') by by rewrite list_lookup_insert_ne. f_equal.
    repeat case_bool_decide; done || lia.
Qed.

(** Tags and ids after the change. *)
Lemma changed_data ix a b s x tg i delta ix' b' x' :
  changed ix a b s x tg i delta ix' -> length (buckets_ ix) = count_ ix -> buckets_ ix !! b = Some x ->
  buckets_ ix' !! b' = Some x' ->
  ∃ y, buckets_ ix !! b' = Some y ∧
    tags x' = (if decide (b' = b) then <[s := tg]> (tags y) else tags y) ∧
    ids x' = (if decide (b' = b) then <[s := i]> (ids y) else ids y) ∧
    overflow x' = overflow (if bool_decide (dist (count_ ix) a b' < dist (count_ ix) a b)%nat then bump delta y else y).
Proof.
  intros [H1 H2 H3 H4] Hl Hb Hx'. destruct (decide (b' = b)) as [-> | Hne].
  - rewrite H3 in Hx'. injection Hx' as <-. exists x. rewrite bool_decide_eq_false_2 by lia. done.
  - destruct (lookup_lt_is_Some_2 (buckets_ ix) b') as [y Hy].
    { rewrite <- H2. by eapply lookup_lt_Some. }
    exists y. split; [done |]. rewrite (H4 b' y Hne Hy) in Hx'. injection Hx' as <-.
    case_bool_decide; [| done]. destruct (bump_tags delta y) as [-> ->]. done.
Qed.

Lemma count_new (P : Z * place -> Prop) `{!∀ e, Decision (P e)} g i p :
  g !! i = None -> size (filter P (<[i := p]> g)) = (size (filter P g) + (if decide (P (i, p)) then 1 else 0))%nat.
Proof.
  intros Hi. rewrite map_filter_insert. case_decide.
  - rewrite map_size_insert_None; [lia |]. apply map_lookup_filter_None. by left.
  - rewrite delete_id by done. lia.
Qed.

Lemma count_gone (P : Z * place -> Prop) `{!∀ e, Decision (P e)} g i p :
  g !! i = Some p -> (size (filter P (delete i g)) + (if decide (P (i, p)) then 1 else 0) = size (filter P g))%nat.
Proof.
  intros Hi. rewrite <- (insert_delete_id g i p Hi) at 2. rewrite count_new by apply lookup_delete_eq. done.
Qed.

Section Changes.
Context (ix : t) (g : gmap Z place) (Hh : holds ix g).

Lemma bump_up b x : buckets_ ix !! b = Some x -> overflow (bump 1 x) = 255 ∨
  overflow (bump 1 x) = Z.of_nat (size (filter (passes (count_ ix) b) g) + 1) ∧ overflow (bump 1 x) < 255.
Proof using Hh.
  intros Hx. unfold bump. destruct (ho_passed _ _ Hh b x Hx) as [Ho | [Ho Hlt]].
  - rewrite bool_decide_eq_false_2 by (rewrite Ho; intros []; done). by left.
  - rewrite bool_decide_eq_true_2 by lia. simpl. rewrite wrap_small by (unfold in_width; lia). lia.
Qed.

Lemma bump_down b x : buckets_ ix !! b = Some x -> (0 < size (filter (passes (count_ ix) b) g))%nat ->
  overflow (bump (-1) x) = 255 ∨
  overflow (bump (-1) x) = Z.of_nat (size (filter (passes (count_ ix) b) g) - 1) ∧ overflow (bump (-1) x) < 255.
Proof using Hh.
  intros Hx Hpos. unfold bump. destruct (ho_passed _ _ Hh b x Hx) as [Ho | [Ho Hlt]].
  - rewrite bool_decide_eq_false_2 by (rewrite Ho; intros []; done). by left.
  - rewrite bool_decide_eq_true_2 by lia. simpl. rewrite wrap_small by (unfold in_width; lia). lia.
Qed.

Lemma holds_insert i h b s x ix' :
  g !! i = None -> tag h <> 0 -> (bucket h < count_ ix)%nat ->
  buckets_ ix !! b = Some x -> tags x !! s = Some 0 ->
  changed ix (bucket h) b s x (tag h) i 1 ix' -> holds ix' (<[i := mk_place h b s]> g).
Proof using Hh.
  intros Hi Htag Hhome Hb Hs Hc. pose proof (ho_length _ _ Hh) as Hl. pose proof (cg_count _ _ _ _ _ _ _ _ _ Hc) as Hn.
  pose proof (fun b' x' => changed_data _ _ _ _ _ _ _ _ _ b' x' Hc Hl Hb) as Hd.
  destruct (ho_shape _ _ Hh b x Hb) as [Hlt Hli]. pose proof (lookup_lt_Some _ _ _ Hs) as Hslt.
  split; rewrite ?Hn.
  - by rewrite (cg_length _ _ _ _ _ _ _ _ _ Hc).
  - apply Hh.
  - intros b' x' Hx'. destruct (Hd b' x' Hx') as (y & Hy & Ht & Hid & _).
    destruct (ho_shape _ _ Hh b' y Hy). split; [rewrite Ht | rewrite Hid]; case_decide; by rewrite ?length_insert.
  - intros j p [[<- <-] | [Hne Hj]]%lookup_insert_Some.
    + split; rewrite ?Hn; [done.. |]. simpl. eexists. split; [apply (cg_at _ _ _ _ _ _ _ _ _ Hc) |]. simpl.
      rewrite !list_lookup_insert_eq by lia. done.
    + destruct (ho_sits _ _ Hh j p Hj) as [Q1 Q2 (y & Hy & Q3 & Q4)]. split; rewrite ?Hn; [done.. |].
      destruct (decide (p_bucket p = b)) as [Heq | Hnb].
      * rewrite Heq in *. simplify_eq. eexists. split; [apply (cg_at _ _ _ _ _ _ _ _ _ Hc) |]. simpl.
        assert (s <> p_slot p) by congruence. by rewrite !list_lookup_insert_ne.
      * eexists. split; [by apply (cg_other _ _ _ _ _ _ _ _ _ Hc) |].
        case_bool_decide; [| done]. destruct (bump_tags 1 y) as [-> ->]. done.
  - intros b' x' s' tg Hx' Ht' Hne. destruct (Hd b' x' Hx') as (y & Hy & Ht & _). rewrite Ht in Ht'.
    destruct (decide (b' = b ∧ s' = s)) as [[-> ->] | Hns].
    { exists i, (mk_place h b s). by rewrite lookup_insert_eq. }
    assert (tags y !! s' = Some tg) as Hty.
    { case_decide; [| done]. rewrite list_lookup_insert_ne in Ht'; [done | naive_solver]. }
    destruct (ho_owned _ _ Hh b' y s' tg Hy Hty Hne) as (j & p & Hj & Q1 & Q2).
    exists j, p. rewrite lookup_insert_ne; [done | congruence].
  - intros b' x' Hx'. destruct (Hd b' x' Hx') as (y & Hy & _ & _ & ->).
    rewrite count_new by done. unfold passes at 2. simpl.
    case_bool_decide; case_decide; try lia; [by apply bump_up |]. rewrite Nat.add_0_r. by apply (ho_passed _ _ Hh).
Qed.

Lemma holds_erase i p x ix' :
  g !! i = Some p -> buckets_ ix !! p_bucket p = Some x ->
  changed ix (bucket (p_hash p)) (p_bucket p) (p_slot p) x 0 i (-1) ix' -> holds ix' (delete i g).
Proof using Hh.
  intros Hi Hb Hc. pose proof (ho_length _ _ Hh) as Hl. pose proof (cg_count _ _ _ _ _ _ _ _ _ Hc) as Hn.
  pose proof (fun b' x' => changed_data _ _ _ _ _ _ _ _ _ b' x' Hc Hl Hb) as Hd.
  destruct (st_at _ _ _ (ho_sits _ _ Hh i p Hi)) as (x0 & Hx0 & Htx & Hix). simplify_eq.
  destruct (ho_shape _ _ Hh _ x Hb) as [Hlt Hli]. pose proof (lookup_lt_Some _ _ _ Htx) as Hslt.
  split; rewrite ?Hn.
  - by rewrite (cg_length _ _ _ _ _ _ _ _ _ Hc).
  - apply Hh.
  - intros b' x' Hx'. destruct (Hd b' x' Hx') as (y & Hy & Ht & Hid & _).
    destruct (ho_shape _ _ Hh b' y Hy). split; [rewrite Ht | rewrite Hid]; case_decide; by rewrite ?length_insert.
  - intros j q [Hne Hj]%lookup_delete_Some. destruct (ho_sits _ _ Hh j q Hj) as [Q1 Q2 (y & Hy & Q3 & Q4)].
    split; rewrite ?Hn; [done.. |]. destruct (decide (p_bucket q = p_bucket p)) as [Heq | Hnb].
    + rewrite Heq in *. simplify_eq. eexists. split; [apply (cg_at _ _ _ _ _ _ _ _ _ Hc) |]. simpl.
      assert (p_slot p <> p_slot q).
      { intros Hs. apply Hne. by eapply (place_inj ix g i j p q Hh). }
      by rewrite !list_lookup_insert_ne.
    + eexists. split; [by apply (cg_other _ _ _ _ _ _ _ _ _ Hc) |].
      case_bool_decide; [| done]. destruct (bump_tags (-1) y) as [-> ->]. done.
  - intros b' x' s' tg Hx' Ht' Hne. destruct (Hd b' x' Hx') as (y & Hy & Ht & _). rewrite Ht in Ht'.
    assert (¬ (b' = p_bucket p ∧ s' = p_slot p)) as Hns.
    { intros [-> ->]. rewrite decide_True in Ht' by done. simplify_eq. rewrite list_lookup_insert_eq in Ht' by lia. congruence. }
    assert (tags y !! s' = Some tg) as Hty.
    { case_decide; [| done]. rewrite list_lookup_insert_ne in Ht'; [done | naive_solver]. }
    destruct (ho_owned _ _ Hh b' y s' tg Hy Hty Hne) as (j & q & Hj & Q1 & Q2).
    exists j, q. rewrite lookup_delete_ne; [done |]. intros ->. apply Hns. simplify_eq. done.
  - intros b' x' Hx'. destruct (Hd b' x' Hx') as (y & Hy & _ & _ & ->).
    pose proof (count_gone (passes (count_ ix) b') g i p Hi) as Hcnt. unfold passes at 2 in Hcnt. simpl in Hcnt.
    case_bool_decide; case_decide; try lia.
    + destruct (bump_down b' y Hy) as [? | [-> ?]]; [lia | by left |]. right. lia.
    + rewrite Nat.add_0_r in Hcnt. rewrite Hcnt. by apply (ho_passed _ _ Hh).
Qed.

(** ** Insertion *)

(** Every slot taken is an entry. *)
Lemma full_size :
  (∀ b x, buckets_ ix !! b = Some x -> 0 ∉ tags x) -> (kSlots * count_ ix <= size g)%nat.
Proof using Hh.
  intros Hfull. set (pos := (fun e : Z * place => p_bucket e.2 * kSlots + p_slot e.2)%nat).
  assert (seq 0 (kSlots * count_ ix) ⊆+ map pos (map_to_list g)) as Hsub.
  { apply NoDup_submseteq; [apply NoDup_seq |]. intros k Hk%elem_of_seq.
    pose proof (Nat.div_mod_eq k kSlots) as Hdiv. pose proof (Nat.mod_upper_bound k kSlots ltac:(done)) as Hmod.
    assert (k / kSlots < count_ ix)%nat as Hb by (apply Nat.Div0.div_lt_upper_bound; lia).
    destruct (bucket_at ix g (k / kSlots) Hh Hb) as (x & Hx & [Hlt _]).
    destruct (lookup_lt_is_Some_2 (tags x) (k mod kSlots)) as [tg Htg]; [lia |].
    destruct (ho_owned _ _ Hh _ x _ tg Hx Htg) as (i & p & Hi & Q1 & Q2).
    { intros ->. eapply Hfull; [done |]. by eapply list_elem_of_lookup_2. }
    apply list_elem_of_In, in_map_iff. exists (i, p). split; [unfold pos; simpl; lia |].
    by apply list_elem_of_In, elem_of_map_to_list. }
  apply submseteq_length in Hsub. rewrite length_seq, length_map in Hsub. by rewrite length_map_to_list in Hsub.
Qed.

(** A bucket with an empty slot, as the mask tells. *)
Lemma empty_slot b x :
  buckets_ ix !! b = Some x ->
  ∃ m, MatchTags (tags x) 0 = Ret m ∧
    (m <> 0 -> tags x !! Z.to_nat (countr_zero 32 m) = Some 0) ∧ (m = 0 -> 0 ∉ tags x).
Proof using Hh.
  intros Hx. destruct (ho_shape _ _ Hh b x Hx) as [Hlt _].
  destruct (MatchTags_spec (tags x) 0 Hlt) as (m & Hm & Hr & Hbits). exists m. split; [done |]. split.
  - intros Hne. destruct (bits_step m Hr Hne) as [Hb _]. apply Hbits. rewrite Hb. by left.
  - intros -> [i Hi]%list_elem_of_lookup_1. apply Hbits in Hi. by apply elem_of_nil in Hi.
Qed.

Section Home.
Context (h : Hashed) (Hhome : (bucket h < count_ ix)%nat) (Htag : tag h <> 0).

Lemma insert_from_spec i todo k :
  g !! i = None -> (k + todo = count_ ix)%nat ->
  (∀ j x, (j < k)%nat -> buckets_ ix !! hop (count_ ix) (bucket h) j = Some x -> 0 ∉ tags x) ->
  (size g < kSlots * count_ ix)%nat ->
  ∃ ix' b s, insert_from todo k ix h (hop (count_ ix) (bucket h) k) i = Ret (true, ix') ∧
    holds ix' (<[i := mk_place h b s]> g) ∧ count_ ix' = count_ ix.
Proof using Hh Hhome Htag.
  intros Hi. revert k. induction todo as [| todo IH]; intros k Hk Hfull Hroom; cbn [insert_from].
  { exfalso. pose proof (full_size) as Hf. enough (kSlots * count_ ix <= size g)%nat by lia. apply Hf.
    intros b x Hx. assert (b < count_ ix)%nat as Hb by (rewrite <- (ho_length _ _ Hh); by eapply lookup_lt_Some).
    apply (Hfull (dist (count_ ix) (bucket h) b) x); [pose proof (dist_lt _ _ _ Hhome Hb); lia | by rewrite hop_dist]. }
  set (b := hop (count_ ix) (bucket h) k). assert (b < count_ ix)%nat as Hb by (apply hop_lt; lia).
  destruct (bucket_at ix g b Hh Hb) as (x & Hx & _). rewrite (at_lookup _ _ _ Hx). cbn [mbind run_bind].
  destruct (empty_slot b x Hx) as (m & -> & Hyes & Hno). cbn [mbind run_bind]. case_bool_decide as Hm.
  - destruct (change_slot ix (bucket h) b (Z.to_nat (countr_zero 32 m)) x (tag h) i 1) as (ix' & Hp & Hc);
      [apply Hh | done.. |].
    replace k with (dist (count_ ix) (bucket h) b) by (apply dist_hop; lia). rewrite Hp. cbn [mbind mret run_bind run_ret].
    eexists ix', b, _. split; [done |]. split; [| apply Hc]. eapply holds_insert; try done. by apply Hyes.
  - replace (after ix b) with (hop (count_ ix) (bucket h) (S k)) by (symmetry; apply after_hop; lia).
    apply IH; [lia | | done]. intros j y Hj Hy. destruct (decide (j = k)) as [-> | Hne]; [| apply (Hfull j); [lia | done]].
    fold b in Hy. simplify_eq. by apply Hno.
Qed.

Lemma Insert_spec i :
  g !! i = None -> (size g < kSlots * count_ ix)%nat ->
  ∃ ix' b s, Insert ix h i = Ret (true, ix') ∧ holds ix' (<[i := mk_place h b s]> g) ∧ count_ ix' = count_ ix.
Proof using Hh Hhome Htag.
  intros Hi Hroom. unfold Insert. rewrite <- (hop_0 (count_ ix) (bucket h)) by done.
  apply insert_from_spec; [done | lia | intros; lia | done].
Qed.

(** ** Removal *)

Lemma erase_from_spec i p todo k :
  g !! i = Some p -> p_hash p = h -> (k + todo = count_ ix)%nat ->
  ahead ix g h (fun j => bool_decide (j = i)) k ->
  ∃ ix', erase_from todo k ix h (hop (count_ ix) (bucket h) k) i = Ret (true, ix') ∧
    holds ix' (delete i g) ∧ count_ ix' = count_ ix.
Proof using Hh Hhome Htag.
  intros Hi Hph. revert k. induction todo as [| todo IH]; intros k Hk Ha; cbn [erase_from].
  { exfalso. pose proof (Ha i p Hi ltac:(by apply bool_decide_eq_true)).
    pose proof (dist_lt (count_ ix) (bucket h) (p_bucket p) Hhome (place_lt _ _ _ _ Hh Hi)). lia. }
  set (b := hop (count_ ix) (bucket h) k). assert (b < count_ ix)%nat as Hb by (apply hop_lt; lia).
  destruct (bucket_at ix g b Hh Hb) as (x & Hx & _). rewrite (at_lookup _ _ _ Hx). cbn [mbind run_bind].
  destruct (scan_step ix g h (fun j => mret (bool_decide (j = i))) (fun j => bool_decide (j = i)) Hh Hhome Htag)
    with (k := k) (x := x) as (m & hit & -> & Hhit & Hspec); try done; [| lia |].
  { intros j q Hj ->%bool_decide_eq_true. congruence. }
  cbn [mbind run_bind]. rewrite Hhit. cbn [mbind run_bind]. destruct hit as [s |].
  - destruct Hspec as (j & q & Hjx & Hj & Hq & Hs & ->%bool_decide_eq_true). simplify_eq. fold b in Hq.
    destruct (change_slot ix (bucket (p_hash p)) b (p_slot p) x 0 i (-1)) as (ix' & Hp & Hc); [apply Hh | done.. |].
    rewrite (list_insert_id (ids x)) in Hp by done.
    replace k with (dist (count_ ix) (bucket (p_hash p)) b) by (apply dist_hop; lia). rewrite Hp. cbn [mbind mret run_bind run_ret].
    exists ix'. split; [done |]. split; [| apply Hc]. eapply holds_erase; [done | by rewrite Hq | by rewrite Hq].
  - destruct Hspec as [HaS Hz]. case_bool_decide as Ho.
    { specialize (Hz Ho i p Hi). simpl in Hz. by rewrite bool_decide_eq_true_2 in Hz. }
    replace (after ix b) with (hop (count_ ix) (bucket h) (S k)) by (symmetry; apply after_hop; lia).
    apply IH; [lia | done].
Qed.

Lemma Erase_spec i p :
  g !! i = Some p -> p_hash p = h ->
  ∃ ix', Erase ix h i = Ret (true, ix') ∧ holds ix' (delete i g) ∧ count_ ix' = count_ ix.
Proof using Hh Hhome Htag.
  intros Hi Hph. unfold Erase. rewrite <- (hop_0 (count_ ix) (bucket h)) by done.
  apply (erase_from_spec i p); [done.. | lia |]. intros j q _ _. lia.
Qed.

End Home.


End Changes.

(** ** Hashes and sizes *)

Lemma Mix_range h : in_width 64 (Mix h).
Proof. apply wrap_range. lia. Qed.

Lemma Split_ok ix u :
  (0 < count_ ix)%nat -> Z.of_nat (count_ ix) < 2 ^ 32 ->
  (bucket (Split ix u) < count_ ix)%nat ∧ tag (Split ix u) <> 0.
Proof.
  intros Hc Hw. pose proof (Mix_range u) as Hm. unfold Split. set (m := Mix u) in *. cbn [bucket tag].
  unfold in_width in Hm. rewrite !Z.shiftr_div_pow2 by lia. split.
  - pose proof (Z.div_pos m (2 ^ 32) ltac:(lia) ltac:(lia)).
    pose proof (Z.div_lt_upper_bound m (2 ^ 32) (2 ^ 32) ltac:(lia) ltac:(lia)).
    set (q := m / 2 ^ 32) in *. set (c := Z.of_nat (count_ ix)) in *.
    assert (0 <= q * c < 2 ^ 64) by nia. rewrite (wrap_small 64) by done.
    assert (0 <= q * c / 2 ^ 32 < c).
    { split; [apply Z.div_pos; lia |]. apply Z.div_lt_upper_bound; nia. }
    rewrite wrap_small by (unfold in_width; lia). lia.
  - pose proof (wrap_range 16 (m / 2 ^ 8) ltac:(lia)) as Hr. unfold in_width in Hr.
    case_bool_decide; rewrite wrap_small by (unfold in_width; lia); lia.
Qed.

(** An index sized for its keys has room for twice as many. *)
Lemma BucketsFor_room k :
  0 <= k < 2 ^ 63 -> 0 < BucketsFor k ∧ 2 * k <= Z.of_nat kSlots * BucketsFor k ∧ BucketsFor k <= k + 1.
Proof.
  intros Hk. unfold BucketsFor, kEntriesPerBucket, kSlots. rewrite wrap_small by (unfold in_width; lia).
  pose proof (Z.div_mod (k + 4 - 1) 4 ltac:(lia)). pose proof (Z.mod_pos_bound (k + 4 - 1) 4 ltac:(lia)).
  case_bool_decide; lia.
Qed.

End Map.

End Probe.
