(* ===== verification/FlowFree.v ===== *)
(** * The free slots of a flow table

    Models [FreeList] of [core/flow/flow_storage.h]: a stack (LIFO) or a ring
    (FIFO) of slot numbers in an array of fixed size. *)

From S2P Require Import Prelude.
Open Scope Z_scope.

Module FreeList.

Inductive SlotReuse := kLifo | kFifo.

#[export] Instance SlotReuse_eq_dec : EqDecision SlotReuse.
Proof. solve_decision. Defined.

Record t := mk {
  items_ : list nat;
  capacity_ : nat;
  head_ : nat;
  count_ : nat;
  reuse_ : SlotReuse
}.

Definition Init (capacity : nat) (reuse : SlotReuse) : t :=
  mk (match reuse with
      | kLifo => map (fun i => (capacity - 1 - i)%nat) (seq 0 capacity)
      | kFifo => seq 0 capacity
      end) capacity 0 capacity reuse.

Definition empty (f : t) : bool := bool_decide (count_ f = 0%nat).
Definition size (f : t) : nat := count_ f.

Definition Peek (f : t) : run nat :=
  match reuse_ f with
  | kLifo => at_ (items_ f) (count_ f - 1)
  | kFifo => at_ (items_ f) (head_ f)
  end.

Definition Pop (f : t) : t :=
  match reuse_ f with
  | kLifo => mk (items_ f) (capacity_ f) (head_ f) (count_ f - 1) (reuse_ f)
  | kFifo => mk (items_ f) (capacity_ f)
               (if bool_decide (head_ f + 1 = capacity_ f)%nat then 0%nat else (head_ f + 1)%nat)
               (count_ f - 1) (reuse_ f)
  end.

Definition store (i : nat) (slot : nat) (f : t) : run t :=
  _ ← at_ (items_ f) i;
  mret (mk (<[i := slot]> (items_ f)) (capacity_ f) (head_ f) (count_ f + 1) (reuse_ f)).

Definition Push (slot : nat) (f : t) : run t :=
  match reuse_ f with
  | kLifo => store (count_ f) slot f
  | kFifo =>
      let tail := (head_ f + count_ f)%nat in
      let tail := if bool_decide (capacity_ f <= tail)%nat then (tail - capacity_ f)%nat else tail in
      store tail slot f
  end.

End FreeList.
