(* ===== verification/FlowOwner.v ===== *)
(** * The owner check of a flow table

    Models [core/flow/owner.h]: the first context to call binds the table, and
    a call from another aborts. [kChecked] is the policy's. *)

From S2P Require Import Prelude.
Open Scope Z_scope.

Module Owned.

Definition OwnerToken : Type := Z.
Definition kNoOwner : OwnerToken := 0.

Definition TokenOf (worker : Z) : OwnerToken := wrap 64 (worker + 1).

Definition Check (kChecked : bool) (owner caller : OwnerToken) : run OwnerToken :=
  if negb kChecked then mret owner
  else if bool_decide (owner = kNoOwner) then mret caller
  else if bool_decide (owner <> caller) then Fatal
  else mret owner.

Definition Release (kChecked : bool) (owner caller : OwnerToken) : run OwnerToken :=
  if negb kChecked then mret owner
  else _ ← Check kChecked owner caller; mret kNoOwner.

Definition owner (kChecked : bool) (o : OwnerToken) : OwnerToken := if kChecked then o else kNoOwner.

(** A member of the table called from [caller]: the check, then the member. *)
Definition call {T R} (kChecked : bool) (caller : OwnerToken) (member : T -> run (R * T))
    (s : OwnerToken * T) : run (R * (OwnerToken * T)) :=
  o ← Check kChecked s.1 caller;
  '(r, tb) ← member s.2;
  mret (r, (o, tb)).

End Owned.
