(* ===== verification/FlowTable.v ===== *)
(** * The worker-owned flow table

    Models [core/flow/worker_flow_table.h] with the slot record it uses from
    [core/flow/flow_storage.h], the handles and results of
    [core/flow/flow_types.h] and the observers of [core/flow/flow_observer.h].
    A [State *] is the number of the slot it points into. The bytes of a key
    slot never constructed, and the state of a free slot, are [None]: reading
    them is [Undef]. [owner_.Check], which opens every member, is
    [Owned.call] of [FlowOwner.v]. *)

From S2P Require Import Prelude FlowIndex FlowFree.
Open Scope Z_scope.

Module Flow.
Import FreeList.

Record FlowHandle := mk_handle { id : Z; h_generation : Z }.

#[export] Instance FlowHandle_eq_dec : EqDecision FlowHandle.
Proof. solve_decision. Defined.

Definition kNoFlow : FlowHandle := mk_handle 0 0.

Inductive EmplaceStatus := kCreated | kExists | kFull | kAliasExists | kPlacementFailed.
(** [AliasStatus::kExists] and [kPlacementFailed] are [kAliasTaken] and
    [kAliasPlacementFailed] here. *)
Inductive AliasStatus := kAdded | kStale | kAliasTaken | kNoRoom | kAliasPlacementFailed.
Inductive FlowTableError := kInvalidCapacity | kTooLarge | kOutOfMemory | kBackendFailed.

#[export] Instance EmplaceStatus_eq_dec : EqDecision EmplaceStatus.
Proof. solve_decision. Defined.

Record EmplaceResult := mk_emplaced { e_state : option nat; e_handle : FlowHandle; e_status : EmplaceStatus }.
Record FlowRef := mk_ref { state : option nat; handle : FlowHandle; via_alias : bool }.

Definition no_ref : FlowRef := mk_ref None kNoFlow false.
Definition created (r : EmplaceResult) : bool := bool_decide (e_status r = kCreated).

(** [Traits]: the aliases of a flow, how slots are reused, whether a batch
    prefetches slots. *)
Class Traits := {
  kAliases : nat;
  kReuse : SlotReuse;
  kPrefetchSlots : bool;
  aliases_ok : (kAliases <= 14)%nat
}.

(** [Hash] and [Equal]. *)
Class KeyOps (Key : Type) := {
  hash : Key -> Z;
  equal : Key -> Key -> bool
}.

(** What the table relies on: an equivalence, and equal keys hash alike. *)
Class KeyLaws (Key : Type) `{KeyOps Key} := {
  equal_refl k : equal k k = true;
  equal_sym k1 k2 : equal k1 k2 = true -> equal k2 k1 = true;
  equal_trans k1 k2 k3 : equal k1 k2 = true -> equal k2 k3 = true -> equal k1 k3 = true;
  equal_hash k1 k2 : equal k1 k2 = true -> hash k1 = hash k2
}.

(** An observer over the table's [State]: it may write the state it is shown. *)
Class FlowObserver (State : Type) := {
  observer : Type;
  OnCreate : observer -> FlowHandle -> State -> observer * State;
  OnErase : observer -> FlowHandle -> State -> observer;
  OnFull : observer -> observer
}.

(** [NoFlowObserver] and [FlowCounters]. *)
Definition NoFlowObserver {State} : FlowObserver State := {|
  observer := ();
  OnCreate o _ v := (o, v);
  OnErase o _ _ := o;
  OnFull o := o
|}.

Record FlowCounters := mk_counters { created_ : Z; erased_ : Z; rejected_full : Z }.

Definition CountingObserver {State} : FlowObserver State := {|
  observer := FlowCounters;
  OnCreate o _ v := (mk_counters (wrap 64 (created_ o + 1)) (erased_ o) (rejected_full o), v);
  OnErase o _ _ := mk_counters (created_ o) (wrap 64 (erased_ o + 1)) (rejected_full o);
  OnFull o := mk_counters (created_ o) (erased_ o) (wrap 64 (rejected_full o + 1))
|}.

Section Table.
Context {TR : Traits} {Key State : Type} {KO : KeyOps Key} {OB : FlowObserver State}.

Definition kKeysPerSlot : nat := 1 + kAliases.
Definition kMaxBatch : nat := 64.

Record Slot := mk_slot {
  keys : list (option Key);
  generation : Z;
  key_mask : Z;
  value : option State
}.

Definition empty_slot : Slot := mk_slot (replicate kKeysPerSlot None) 0 0 None.

Record t := mk {
  index_ : Index.t;
  slots_ : list Slot;
  free_ : FreeList.t;
  capacity_ : nat;
  size_ : Z;
  quarantined_ : Z;
  observer_ : observer
}.

Definition with_index (ix : Index.t) (tb : t) : t :=
  mk ix (slots_ tb) (free_ tb) (capacity_ tb) (size_ tb) (quarantined_ tb) (observer_ tb).
Definition with_slots (l : list Slot) (tb : t) : t :=
  mk (index_ tb) l (free_ tb) (capacity_ tb) (size_ tb) (quarantined_ tb) (observer_ tb).
Definition with_free (f : FreeList.t) (tb : t) : t :=
  mk (index_ tb) (slots_ tb) f (capacity_ tb) (size_ tb) (quarantined_ tb) (observer_ tb).
Definition with_size (n q : Z) (tb : t) : t :=
  mk (index_ tb) (slots_ tb) (free_ tb) (capacity_ tb) n q (observer_ tb).
Definition with_observer (o : observer) (tb : t) : t :=
  mk (index_ tb) (slots_ tb) (free_ tb) (capacity_ tb) (size_ tb) (quarantined_ tb) o.

(** [slots_[n]], read and written. *)
Definition slot (tb : t) (n : nat) : run Slot := at_ (slots_ tb) n.
Definition upd (tb : t) (n : nat) (f : Slot -> Slot) : run t :=
  s ← slot tb n; mret (with_slots (<[n := f s]> (slots_ tb)) tb).

Definition StoreKey (j : nat) (k : Key) (s : Slot) : Slot :=
  mk_slot (<[j := Some k]> (keys s)) (generation s) (key_mask s) (value s).
Definition set_mask (m : Z) (s : Slot) : Slot := mk_slot (keys s) (generation s) (wrap 16 m) (value s).
Definition set_value (v : option State) (s : Slot) : Slot := mk_slot (keys s) (generation s) (key_mask s) v.
Definition set_generation (g : Z) (s : Slot) : Slot := mk_slot (keys s) (wrap 32 g) (key_mask s) (value s).

(** [*key_ptr(j)] and [*state_ptr()]. *)
Definition key_at (s : Slot) (j : nat) : run Key :=
  k ← at_ (keys s) j;
  match k with Some k => mret k | None => Undef end.
Definition state_of (s : Slot) : run State :=
  match value s with Some v => mret v | None => Undef end.

(** A [State *] read and written by the application. *)
Definition load (tb : t) (p : nat) : run State := s ← slot tb p; state_of s.
Definition store (tb : t) (p : nat) (v : State) : run t :=
  s ← slot tb p; _ ← state_of s; upd tb p (set_value (Some v)).

(** [generation & 1] *)
Definition is_live (s : Slot) : bool := Z.odd (generation s).

(** ** Construction *)

Definition mul_overflows (a b : Z) : bool := bool_decide (2 ^ 64 <= a * b).

(** [allocates i] says whether the [i]-th allocation succeeds. *)
Definition Create (allocates : nat -> bool) (sizeof_Slot capacity : Z) (o : observer) : FlowTableError + t :=
  let keys := wrap 64 (capacity * Z.of_nat kKeysPerSlot) in
  if bool_decide (capacity = 0) || mul_overflows capacity (Z.of_nat kKeysPerSlot) ||
     bool_decide (Index.kNone <= keys)
  then inl kInvalidCapacity
  else
    let bucket_count := Index.BucketsFor keys in
    if bool_decide (Index.kNone <= bucket_count) then inl kInvalidCapacity
    else if mul_overflows bucket_count 64 || mul_overflows capacity sizeof_Slot || mul_overflows capacity 4
    then inl kTooLarge
    else if negb (allocates 0%nat) || negb (allocates 1%nat) || negb (allocates 2%nat) then inl kOutOfMemory
    else if negb (allocates 3%nat) then inl kOutOfMemory
    else inr (mk (Index.construct (Z.to_nat bucket_count)) (replicate (Z.to_nat capacity) empty_slot)
                (FreeList.Init (Z.to_nat capacity) kReuse) (Z.to_nat capacity) 0 0 o).

(** What [Create] allocates; [sizeof_table] is the size of the table's own
    record. *)
Definition Bytes (sizeof_Slot sizeof_table capacity : Z) : Z :=
  wrap 64 (Index.BucketsFor (wrap 64 (capacity * Z.of_nat kKeysPerSlot)) * 64 +
           capacity * (sizeof_Slot + 4) + sizeof_table).

(** The destructor: the states destroyed. *)
Definition Destroy (tb : t) : list State := omap (fun s => if is_live s then value s else None) (slots_ tb).

(** ** Lookup *)

Definition Locate (tb : t) (k : Key) : Index.Hashed := Index.Split (index_ tb) (hash k).

Definition kid_slot (kid : Z) : nat := Z.to_nat (kid / Z.of_nat kKeysPerSlot).
Definition kid_key (kid : Z) : nat := Z.to_nat (kid mod Z.of_nat kKeysPerSlot).
Definition kid_of (n j : nat) : Z := wrap 32 (Z.of_nat n * Z.of_nat kKeysPerSlot + Z.of_nat j).

Definition same_key (tb : t) (k : Key) (kid : Z) : run bool :=
  s ← slot tb (kid_slot kid);
  k' ← key_at s (kid_key kid);
  mret (equal k' k).

Definition FindKid (tb : t) (h : Index.Hashed) (k : Key) : run Z :=
  Index.Find (index_ tb) h (same_key tb k).

Definition HandleOf (tb : t) (n : nat) : run FlowHandle :=
  s ← slot tb n; mret (mk_handle (wrap 32 (Z.of_nat n + 1)) (generation s)).

Definition SlotOf (tb : t) (h : FlowHandle) : run (option nat) :=
  let n := wrap 32 (id h - 1) in
  if bool_decide (Z.of_nat (capacity_ tb) <= n) then mret None
  else
    s ← slot tb (Z.to_nat n);
    mret (if bool_decide (generation s = h_generation h) && is_live s then Some (Z.to_nat n) else None).

Definition Find (tb : t) (k : Key) : run (option nat) :=
  kid ← FindKid tb (Locate tb k) k;
  mret (if bool_decide (kid = Index.kNone) then None else Some (kid_slot kid)).

(** What [FindRef] and [FindRefBatch] give for a key id. *)
Definition ref_of (tb : t) (kid : Z) : run FlowRef :=
  if bool_decide (kid = Index.kNone) then mret no_ref
  else h ← HandleOf tb (kid_slot kid);
       mret (mk_ref (Some (kid_slot kid)) h (negb (bool_decide (kid_key kid = 0%nat)))).

Definition FindRef (tb : t) (k : Key) : run FlowRef :=
  kid ← FindKid tb (Locate tb k) k; ref_of tb kid.

(** [promise(b)] *)
Definition promise (b : bool) : run () := if b then Ret () else Undef.

(** The prefetch phase of a batch: it reads the home bucket of each key. *)
Fixpoint prefetch (tb : t) (hs : list Index.Hashed) : run () :=
  match hs with
  | [] => mret ()
  | h :: hs => _ ← Index.FirstCandidate (index_ tb) h; prefetch tb hs
  end.

Definition PrefetchBatch (tb : t) (ks : list Key) : run (list Index.Hashed) :=
  let hashed := map (Locate tb) ks in
  (if kPrefetchSlots then prefetch tb hashed else mret ()) ;;
  mret hashed.

(** The loops over a batch: the results, and bit [i] of [hits] for a hit. *)
Fixpoint find_batch (tb : t) (i : nat) (hks : list (Index.Hashed * Key)) (hits : Z)
    : run (list (option nat) * Z) :=
  match hks with
  | [] => mret ([], hits)
  | (h, k) :: hks =>
      kid ← FindKid tb h k;
      let out := if bool_decide (kid = Index.kNone) then None else Some (kid_slot kid) in
      let hits := if bool_decide (kid = Index.kNone) then hits
                  else Z.lor hits (wrap 64 (Z.shiftl 1 (Z.of_nat i))) in
      '(outs, hits) ← find_batch tb (S i) hks hits;
      mret (out :: outs, hits)
  end.

Definition FindBatch (tb : t) (ks : list Key) : run (list (option nat) * Z) :=
  promise (bool_decide (length ks <= kMaxBatch)%nat) ;;
  hashed ← PrefetchBatch tb ks;
  find_batch tb 0 (zip hashed ks) 0.

Fixpoint find_ref_batch (tb : t) (i : nat) (hks : list (Index.Hashed * Key)) (hits : Z)
    : run (list FlowRef * Z) :=
  match hks with
  | [] => mret ([], hits)
  | (h, k) :: hks =>
      kid ← FindKid tb h k;
      out ← ref_of tb kid;
      let hits := if bool_decide (kid = Index.kNone) then hits
                  else Z.lor hits (wrap 64 (Z.shiftl 1 (Z.of_nat i))) in
      '(outs, hits) ← find_ref_batch tb (S i) hks hits;
      mret (out :: outs, hits)
  end.

Definition FindRefBatch (tb : t) (ks : list Key) : run (list FlowRef * Z) :=
  promise (bool_decide (length ks <= kMaxBatch)%nat) ;;
  hashed ← PrefetchBatch tb ks;
  find_ref_batch tb 0 (zip hashed ks) 0.

Definition Lookup (tb : t) (h : FlowHandle) : run (option nat) := SlotOf tb h.

Definition Alive (tb : t) (h : FlowHandle) : run bool :=
  n ← SlotOf tb h; mret (match n with Some _ => true | None => false end).

Definition KeyOf (tb : t) (h : FlowHandle) : run (option Key) :=
  n ← SlotOf tb h;
  match n with
  | Some n => s ← slot tb n; k ← key_at s 0; mret (Some k)
  | None => mret None
  end.

(** The alias slot [i] of a flow: a stored key, or bytes never written. *)
Definition AliasOf (tb : t) (h : FlowHandle) (i : nat) : run (option (option Key)) :=
  n ← SlotOf tb h;
  match n with
  | Some n => if bool_decide (kAliases <= i)%nat then mret None
              else s ← slot tb n; k ← at_ (keys s) (1 + i); mret (Some k)
  | None => mret None
  end.

(** ** Creation and removal *)

Definition insert_key (tb : t) (h : Index.Hashed) (kid : Z) : run t :=
  '(inserted, ix) ← Index.Insert (index_ tb) h kid;
  check inserted ;;
  mret (with_index ix tb).

(** The alias of [CreateImpl], when there is one: a reason to refuse. *)
Definition alias_refused (tb : t) (k : Key) (alias : option Key) : run bool :=
  match alias with
  | None => mret false
  | Some a =>
      if equal k a then mret true
      else kid ← FindKid tb (Locate tb a) a; mret (negb (bool_decide (kid = Index.kNone)))
  end.

Definition CreateImpl (tb : t) (k : Key) (alias : option Key) (v : State) : run (EmplaceResult * t) :=
  let locate := Locate tb in
  let hashed := locate k in
  kid ← FindKid tb hashed k;
  if negb (bool_decide (kid = Index.kNone)) then
    h ← HandleOf tb (kid_slot kid);
    mret (mk_emplaced (Some (kid_slot kid)) h kExists, tb)
  else
    refused ← alias_refused tb k alias;
    if (refused : bool) then mret (mk_emplaced None kNoFlow kAliasExists, tb)
    else if FreeList.empty (free_ tb) then
      mret (mk_emplaced None kNoFlow kFull, with_observer (OnFull (observer_ tb)) tb)
    else
      n ← FreeList.Peek (free_ tb);
      tb ← upd tb n (set_value (Some v));
      let tb := with_free (FreeList.Pop (free_ tb)) tb in
      tb ← upd tb n (fun s => set_mask 1 (StoreKey 0 k s));
      tb ← insert_key tb hashed (kid_of n 0);
      tb ← match alias with
           | None => mret tb
           | Some a =>
               tb ← upd tb n (fun s => set_mask 3 (StoreKey 1 a s));
               insert_key tb (locate a) (kid_of n 1)
           end;
      tb ← upd tb n (fun s => set_generation (generation s + 1) s);
      let tb := with_size (wrap 32 (size_ tb + 1)) (quarantined_ tb) tb in
      h ← HandleOf tb n;
      let '(o, v) := OnCreate (observer_ tb) h v in
      tb ← upd tb n (set_value (Some v));
      mret (mk_emplaced (Some n) h kCreated, with_observer o tb).

Definition Emplace (tb : t) (k : Key) (v : State) : run (EmplaceResult * t) := CreateImpl tb k None v.
Definition EmplaceAliased (tb : t) (k alias : Key) (v : State) : run (EmplaceResult * t) :=
  CreateImpl tb k (Some alias) v.

(** [record.key_mask >> j & 1] *)
Definition has_key (s : Slot) (j : nat) : bool := Z.testbit (key_mask s) (Z.of_nat j).

(** The loop of [AddAlias]: the first alias not in use from [j] on. *)
Fixpoint free_alias (todo j : nat) (s : Slot) : nat :=
  match todo with
  | O => j
  | S todo => if bool_decide (j <= kAliases)%nat && has_key s j then free_alias todo (S j) s else j
  end.

Definition AddAlias (tb : t) (h : FlowHandle) (a : Key) : run (AliasStatus * t) :=
  n ← SlotOf tb h;
  match n with
  | None => mret (kStale, tb)
  | Some n =>
      let hashed := Locate tb a in
      kid ← FindKid tb hashed a;
      if negb (bool_decide (kid = Index.kNone)) then mret (kAliasTaken, tb)
      else
        s ← slot tb n;
        let j := free_alias kAliases 1 s in
        if bool_decide (kAliases < j)%nat then mret (kNoRoom, tb)
        else
          tb ← upd tb n (StoreKey j a);
          tb ← insert_key tb hashed (kid_of n j);
          tb ← upd tb n (fun s => set_mask (Z.lor (key_mask s) (Z.shiftl 1 (Z.of_nat j))) s);
          mret (kAdded, tb)
  end.

Definition erase_key (tb : t) (h : Index.Hashed) (kid : Z) : run t :=
  '(erased, ix) ← Index.Erase (index_ tb) h kid;
  check erased ;;
  mret (with_index ix tb).

Definition RemoveAlias (tb : t) (k : Key) : run (bool * t) :=
  let hashed := Locate tb k in
  kid ← FindKid tb hashed k;
  if bool_decide (kid = Index.kNone) || bool_decide (kid_key kid = 0%nat) then mret (false, tb)
  else
    tb ← erase_key tb hashed kid;
    tb ← upd tb (kid_slot kid)
           (fun s => set_mask (Z.ldiff (key_mask s) (Z.shiftl 1 (Z.of_nat (kid_key kid)))) s);
    mret (true, tb).

(** The loop of [EraseSlot] over the keys of slot [n]. *)
Fixpoint erase_keys (todo j : nat) (tb : t) (n : nat) : run t :=
  match todo with
  | O => mret tb
  | S todo =>
      s ← slot tb n;
      tb ← (if has_key s j then k ← key_at s j; erase_key tb (Locate tb k) (kid_of n j) else mret tb);
      erase_keys todo (S j) tb n
  end.

Definition EraseSlot (tb : t) (n : nat) : run t :=
  s ← slot tb n;
  v ← state_of s;
  h ← HandleOf tb n;
  let tb := with_observer (OnErase (observer_ tb) h v) tb in
  tb ← erase_keys kKeysPerSlot 0 tb n;
  tb ← upd tb n (fun s => set_value None (set_mask 0 s));
  s ← slot tb n;
  let next := wrap 32 (generation s + 1) in
  tb ← upd tb n (set_generation next);
  let tb := with_size (wrap 32 (size_ tb - 1)) (quarantined_ tb) tb in
  if bool_decide (next = 0) then mret (with_size (size_ tb) (wrap 32 (quarantined_ tb + 1)) tb)
  else f ← FreeList.Push n (free_ tb); mret (with_free f tb).

Definition Erase (tb : t) (k : Key) : run (bool * t) :=
  kid ← FindKid tb (Locate tb k) k;
  if bool_decide (kid = Index.kNone) then mret (false, tb)
  else tb ← EraseSlot tb (kid_slot kid); mret (true, tb).

Definition EraseHandle (tb : t) (h : FlowHandle) : run (bool * t) :=
  n ← SlotOf tb h;
  match n with
  | None => mret (false, tb)
  | Some n => tb ← EraseSlot tb n; mret (true, tb)
  end.

(** ** Visits *)

(** The loop of [VisitRange] and [ForEach] over [todo] slots from [n]; [fn] may
    write the state it is shown. *)
Fixpoint visit (todo n : nat) (tb : t) (fn : FlowHandle -> Key -> State -> State) : run t :=
  match todo with
  | O => mret tb
  | S todo =>
      s ← slot tb n;
      tb ← (if is_live s then
              h ← HandleOf tb n; k ← key_at s 0; v ← state_of s;
              upd tb n (set_value (Some (fn h k v)))
            else mret tb);
      visit todo (S n) tb fn
  end.

Definition VisitRange (tb : t) (first count : Z) (fn : FlowHandle -> Key -> State -> State) : run (Z * t) :=
  let end_ := Z.min (Z.of_nat (capacity_ tb)) (wrap 64 (first + count)) in
  tb ← visit (Z.to_nat (end_ - first)) (Z.to_nat first) tb fn;
  mret (end_, tb).

Definition ForEach (tb : t) (fn : FlowHandle -> Key -> State -> State) : run t :=
  visit (capacity_ tb) 0 tb fn.

(** ** State of the table *)

Definition size (tb : t) : Z := size_ tb.
Definition capacity (tb : t) : nat := capacity_ tb.
Definition usable_capacity (tb : t) : Z := wrap 64 (Z.of_nat (capacity_ tb) - quarantined_ tb).
Definition quarantined_slots (tb : t) : Z := quarantined_ tb.
Definition full (tb : t) : bool := FreeList.empty (free_ tb).

(** For tests only: no history of [FlowHistory.v] calls it. *)
Definition SetFreeSlotGenerationForTesting (tb : t) (n : nat) (gen : Z) : run t :=
  check (bool_decide (n < capacity_ tb)%nat) ;;
  s ← slot tb n;
  check (negb (is_live s)) ;;
  check (negb (Z.odd gen)) ;;
  upd tb n (set_generation gen).

End Table.

Arguments Slot : clear implicits.
Arguments t Key State {OB}.

End Flow.
