(* ===== verification/FlowSlots.v ===== *)
(** * The free slots of a flow table

    [FreeList] of [FlowTable.v] holds a sequence of slots: [Peek] and [Pop] take
    its first, [Push] gives one back, at the front for LIFO and at the end for
    FIFO. *)

From S2P Require Import Prelude FlowIndex FlowFree FlowTable.
Open Scope nat_scope.

Module Slots.
Import FreeList.

(** ** Rings *)

Definition rotated {A} (l : list A) (h : nat) : list A := drop h l ++ take h l.

Definition around (n h i : nat) : nat := if bool_decide (n <= h + i) then h + i - n else h + i.

Lemma rotated_length {A} (l : list A) h : h <= length l -> length (rotated l h) = length l.
Proof. intros H. unfold rotated. rewrite length_app, length_drop, length_take. lia. Qed.

Lemma rotated_lookup {A} (l : list A) h i :
  h <= length l -> i < length l -> rotated l h !! i = l !! around (length l) h i.
Proof.
  intros Hh Hi. unfold rotated, around. case_bool_decide.
  - rewrite lookup_app_r by (rewrite length_drop; lia). rewrite length_drop, lookup_take_lt by lia. f_equal. lia.
  - rewrite lookup_app_l by (rewrite length_drop; lia). apply lookup_drop.
Qed.

Lemma rotated_insert {A} (l : list A) h i x :
  h <= length l -> i < length l -> rotated (<[around (length l) h i := x]> l) h = <[i := x]> (rotated l h).
Proof.
  intros Hh Hi. apply list_eq. intros j. pose proof (rotated_length l h Hh) as Hl.
  destruct (decide (j < length l)) as [Hj | Hj].
  - rewrite rotated_lookup by (rewrite length_insert; lia). rewrite length_insert.
    assert (around (length l) h i < length l) by (unfold around; case_bool_decide; lia).
    destruct (decide (j = i)) as [-> | Hne].
    + rewrite !list_lookup_insert_eq by lia. done.
    + rewrite list_lookup_insert_ne, list_lookup_insert_ne, rotated_lookup; try done; try lia.
      unfold around. repeat case_bool_decide; lia.
  - rewrite !lookup_ge_None_2; [done | rewrite length_insert; lia |]. rewrite rotated_length; rewrite length_insert; lia.
Qed.

Lemma rotated_next {A} (l : list A) h x :
  l !! h = Some x -> ∃ r, rotated l h = x :: r ∧
    rotated l (if bool_decide (h + 1 = length l) then 0 else h + 1) = r ++ [x].
Proof.
  intros Hx. pose proof (lookup_lt_Some _ _ _ Hx). unfold rotated. rewrite (drop_S _ _ _ Hx). simpl.
  exists (drop (S h) l ++ take h l). split; [done |]. rewrite <- app_assoc, <- (take_S_r l h x Hx).
  case_bool_decide; [| by rewrite Nat.add_1_r].
  rewrite drop_0, app_nil_r, (drop_ge l), (take_ge l) by lia. done.
Qed.

(** ** The sequence of free slots *)

Definition contents (f : t) : list nat :=
  match reuse_ f with
  | kLifo => reverse (take (count_ f) (items_ f))
  | kFifo => take (count_ f) (rotated (items_ f) (head_ f))
  end.

Record wf (f : t) : Prop := {
  wf_items : length (items_ f) = capacity_ f;
  wf_count : count_ f <= capacity_ f;
  wf_head : head_ f < capacity_ f
}.

Lemma contents_length f : wf f -> length (contents f) = count_ f.
Proof.
  intros [H1 H2 H3]. unfold contents. destruct (reuse_ f).
  - rewrite length_reverse, length_take. lia.
  - rewrite length_take, rotated_length; lia.
Qed.

Lemma Init_ok n r : 0 < n -> wf (Init n r) ∧ contents (Init n r) ≡ₚ seq 0 n.
Proof.
  intros Hn. assert (length (items_ (Init n r)) = n) as Hl.
  { destruct r; simpl; [by rewrite length_map, length_seq | apply length_seq]. }
  split; [by split | ]. unfold contents. destruct r; simpl.
  - rewrite take_ge by (rewrite length_map, length_seq; lia). rewrite reverse_Permutation.
    apply NoDup_Permutation.
    + apply NoDup_fmap_2_strong; [| apply NoDup_seq]. intros x y Hx%elem_of_seq Hy%elem_of_seq. lia.
    + apply NoDup_seq.
    + intros x. rewrite list_elem_of_fmap, elem_of_seq. split.
      * intros (y & -> & Hy%elem_of_seq). lia.
      * intros Hx. exists (n - 1 - x). rewrite elem_of_seq. lia.
  - unfold rotated. rewrite drop_0, app_nil_r, take_ge; [done | rewrite length_seq; lia].
Qed.

Lemma empty_spec f : wf f -> empty f = bool_decide (contents f = []).
Proof.
  intros Hf. pose proof (contents_length f Hf) as Hl. unfold empty. apply bool_decide_ext. split.
  - intros H0. apply nil_length_inv. lia.
  - intros H0. by rewrite H0 in Hl.
Qed.

Lemma take_one f :
  wf f -> contents f <> [] ->
  ∃ n rest, Peek f = Ret n ∧ contents f = n :: rest ∧ wf (Pop f) ∧ contents (Pop f) = rest.
Proof.
  intros Hf Hne. pose proof (contents_length f Hf) as Hl. destruct Hf as [H1 H2 H3].
  assert (0 < count_ f) as Hpos by (destruct (contents f); simpl in Hl; [done | lia]).
  unfold Peek, Pop, contents in *. destruct (reuse_ f).
  - destruct (lookup_lt_is_Some_2 (items_ f) (count_ f - 1)) as [n Hn]; [lia |].
    exists n, (reverse (take (count_ f - 1) (items_ f))). split; [by apply at_lookup |].
    replace (count_ f) with (S (count_ f - 1)) at 1 by lia.
    rewrite (take_S_r _ _ _ Hn), reverse_app. split; [done |]. split; [split; simpl; lia | done].
  - destruct (lookup_lt_is_Some_2 (items_ f) (head_ f)) as [n Hn]; [lia |].
    destruct (rotated_next _ _ _ Hn) as (r & Hr & Hr'). rewrite H1 in Hr'. cbn [reuse_ items_ head_ count_]. rewrite Hr.
    pose proof (rotated_length (items_ f) (head_ f) ltac:(lia)) as Hlen. rewrite Hr in Hlen. simpl in Hlen.
    exists n, (take (count_ f - 1) r). split; [by apply at_lookup |].
    destruct (count_ f) as [| c] eqn:Hc; [lia |]. simpl. rewrite Nat.sub_0_r in *. split; [done |].
    split; [split; simpl; [lia.. |]; case_bool_decide; lia |]. rewrite Hr'. apply take_app_le. lia.
Qed.

Lemma give_back f n :
  wf f -> count_ f < capacity_ f ->
  ∃ f', Push n f = Ret f' ∧ wf f' ∧ contents f' ≡ₚ n :: contents f ∧ capacity_ f' = capacity_ f.
Proof.
  intros [H1 H2 H3] Hroom. unfold Push, contents. destruct (reuse_ f) eqn:Hr.
  - unfold store. destruct (lookup_lt_is_Some_2 (items_ f) (count_ f)) as [x Hx]; [lia |].
    rewrite (at_lookup _ _ _ Hx). eexists. split; [done |]. simpl. rewrite Hr. split_and!; [split; simpl; rewrite ?length_insert; lia | | done].
    rewrite Nat.add_1_r, (take_S_r _ _ n) by by apply list_lookup_insert_eq; lia.
    rewrite take_insert_ge by lia. rewrite reverse_app. done.
  - change (if bool_decide (capacity_ f <= head_ f + count_ f) then _ else _) with (around (capacity_ f) (head_ f) (count_ f)).
    assert (around (capacity_ f) (head_ f) (count_ f) < capacity_ f) by (unfold around; case_bool_decide; lia).
    unfold store. destruct (lookup_lt_is_Some_2 (items_ f) (around (capacity_ f) (head_ f) (count_ f))) as [x Hx]; [lia |].
    rewrite (at_lookup _ _ _ Hx). eexists. split; [done |]. simpl. rewrite Hr. split_and!; [split; simpl; rewrite ?length_insert; lia | | done].
    rewrite <- H1, rotated_insert by lia. rewrite Nat.add_1_r, (take_S_r _ _ n).
    + rewrite take_insert_ge by lia. by rewrite Permutation_app_comm.
    + apply list_lookup_insert_eq. rewrite rotated_length; lia.
Qed.

End Slots.
