(* ===== verification/FlowInv.v ===== *)
(** * The invariant of the flow table

    The keys in use and the directory name each other, every key names one
    slot, generations tell live slots from free ones, and the free list holds
    the free slots that are not retired. *)

From stdpp Require Import functions.
From S2P Require Import Prelude FlowIndex FlowProbe FlowFree FlowTable FlowSlots.
Open Scope Z_scope.

Module FlowInv.
Import Probe Flow.

Section Inv.
Context {TR : Traits} {Key State : Type} {KO : KeyOps Key} {KL : KeyLaws Key} {OB : FlowObserver State}.
Implicit Types (tb : t Key State) (s : Slot Key State) (n j : nat) (k : Key) (g : gmap Z place).

Local Abbreviation K := kKeysPerSlot.

(** ** Key ids *)

Section Kids.
Context (cap : nat) (Hcap : Z.of_nat cap * Z.of_nat K < Index.kNone).

Lemma kid_of_value n j : (n < cap)%nat -> (j < K)%nat -> kid_of n j = Z.of_nat n * Z.of_nat K + Z.of_nat j.
Proof using Hcap.
  intros Hn Hj. apply wrap_small. unfold in_width, Index.kNone in *. nia.
Qed.

Lemma kid_parts n j :
  (n < cap)%nat -> (j < K)%nat ->
  kid_slot (kid_of n j) = n ∧ kid_key (kid_of n j) = j ∧ kid_of n j <> Index.kNone ∧
  0 <= kid_of n j < Z.of_nat (cap * K).
Proof using Hcap.
  intros Hn Hj. unfold kid_slot, kid_key. rewrite kid_of_value by done.
  rewrite (Z.add_comm (Z.of_nat n * _)), Z.div_add, Z.mod_add, Z.div_small, Z.mod_small by lia.
  unfold Index.kNone in *. split_and!; nia || lia.
Qed.

Lemma kid_inj n j n' j' :
  (n < cap)%nat -> (j < K)%nat -> (n' < cap)%nat -> (j' < K)%nat -> kid_of n j = kid_of n' j' -> n = n' ∧ j = j'.
Proof using Hcap.
  intros Hn Hj Hn' Hj' Heq. destruct (kid_parts n j Hn Hj) as (H1 & H2 & _).
  destruct (kid_parts n' j' Hn' Hj') as (H3 & H4 & _). rewrite Heq in *. lia.
Qed.

End Kids.

(** ** Keys and the directory

    [hk n j] says that key [j] of slot [n] is in use. *)

Definition here (l : list (Slot Key State)) (hk : nat -> nat -> bool) n j k : Prop :=
  hk n j = true ∧ ∃ s, l !! n = Some s ∧ keys s !! j = Some (Some k).

Record keyed (ix : Index.t) (l : list (Slot Key State)) (hk : nat -> nat -> bool) g : Prop := {
  kd_index : holds ix g;
  kd_some : (0 < length l)%nat;
  kd_cap : Z.of_nat (length l) * Z.of_nat K < Index.kNone;
  kd_room : (length l * K <= 4 * Index.count_ ix)%nat;
  kd_count : Z.of_nat (Index.count_ ix) < 2 ^ 32;
  kd_shape n s : l !! n = Some s -> length (keys s) = K;
  kd_dom n j : hk n j = true -> ∃ k, here l hk n j k;
  kd_kids i p : g !! i = Some p ->
    ∃ n j k, i = kid_of n j ∧ here l hk n j k ∧ p_hash p = Index.Split ix (hash k);
  kd_keys n j k : here l hk n j k -> ∃ p, g !! kid_of n j = Some p;
  kd_unique n j k n' j' k' :
    here l hk n j k -> here l hk n' j' k' -> equal k k' = true -> n = n' ∧ j = j'
}.

Section Keyed.
Context (ix : Index.t) (l : list (Slot Key State)) (hk : nat -> nat -> bool) (g : gmap Z place).
Context (Hk : keyed ix l hk g).

Lemma here_lt n j k : here l hk n j k -> (n < length l)%nat ∧ (j < K)%nat.
Proof using Hk.
  intros (_ & s & Hs & Hj). split; [by eapply lookup_lt_Some |].
  rewrite <- (kd_shape _ _ _ _ Hk n s Hs). by eapply lookup_lt_Some.
Qed.

Lemma here_fun n j k k' : here l hk n j k -> here l hk n j k' -> k = k'.
Proof using. intros (_ & s & Hs & H1) (_ & s' & Hs' & H2). simplify_eq. done. Qed.

Lemma here_kid n j k :
  here l hk n j k -> kid_slot (kid_of n j) = n ∧ kid_key (kid_of n j) = j ∧ kid_of n j <> Index.kNone.
Proof using Hk.
  intros [H1 H2]%here_lt. by destruct (kid_parts (length l) (kd_cap _ _ _ _ Hk) n j H1 H2) as (? & ? & ? & _).
Qed.

Lemma hashed_ok u : (Index.bucket (Index.Split ix u) < Index.count_ ix)%nat ∧ Index.tag (Index.Split ix u) <> 0.
Proof using Hk. apply Split_ok; [apply (kd_index _ _ _ _ Hk) | apply (kd_count _ _ _ _ Hk)]. Qed.

(** A place's hash is that of the key there. *)
Lemma kid_hash n j k p : here l hk n j k -> g !! kid_of n j = Some p -> p_hash p = Index.Split ix (hash k).
Proof using Hk.
  intros Hh Hp. destruct (kd_kids _ _ _ _ Hk _ _ Hp) as (n' & j' & k' & Heq & Hh' & ->).
  destruct (here_lt _ _ _ Hh), (here_lt _ _ _ Hh').
  destruct (kid_inj (length l) (kd_cap _ _ _ _ Hk) n j n' j') as [-> ->]; [done.. |].
  by rewrite (here_fun _ _ _ _ Hh Hh').
Qed.

Lemma directory_small : (base.size g <= length l * K)%nat.
Proof using Hk.
  assert (map fst (map_to_list g) ⊆+ map Z.of_nat (seq 0 (length l * K))) as Hsub.
  { apply NoDup_submseteq; [apply NoDup_fst_map_to_list |]. intros i Hi.
    apply list_elem_of_fmap in Hi as ([i' p] & -> & Hp%elem_of_map_to_list).
    destruct (kd_kids _ _ _ _ Hk _ _ Hp) as (n & j & k & -> & Hh & _). destruct (here_lt _ _ _ Hh) as [Hn Hj].
    destruct (kid_parts (length l) (kd_cap _ _ _ _ Hk) n j Hn Hj) as (_ & _ & _ & Hr).
    apply list_elem_of_fmap. exists (Z.to_nat (kid_of n j)). rewrite elem_of_seq. simpl. lia. }
  apply submseteq_length in Hsub. by rewrite !length_map, length_seq, length_map_to_list in Hsub.
Qed.

Lemma directory_room : (base.size g < Index.kSlots * Index.count_ ix)%nat.
Proof using Hk.
  pose proof directory_small. pose proof (kd_room _ _ _ _ Hk). pose proof (kd_some _ _ _ _ Hk).
  pose proof (ho_count _ _ (kd_index _ _ _ _ Hk)). unfold Index.kSlots. lia.
Qed.

(** The keys in use after one more. *)
Lemma here_add n j k s s' :
  l !! n = Some s -> (j < K)%nat -> hk n j = false -> keys s' = <[j := Some k]> (keys s) ->
  ∀ n' j' k', here (<[n := s']> l) (<[n := <[j := true]> (hk n)]> hk) n' j' k' <->
    (n' = n ∧ j' = j ∧ k' = k) ∨ here l hk n' j' k'.
Proof using Hk.
  intros Hs Hj Hno Hs' n' j' k'. pose proof (lookup_lt_Some _ _ _ Hs) as Hn.
  pose proof (kd_shape _ _ _ _ Hk n s Hs) as Hlen. unfold here.
  destruct (decide (n' = n)) as [-> | Hne].
  - rewrite fn_lookup_insert, list_lookup_insert_eq by done. destruct (decide (j' = j)) as [-> | Hnj].
    + rewrite fn_lookup_insert. split.
      * intros (_ & s0 & [= <-] & Hk'). rewrite Hs', list_lookup_insert_eq in Hk' by lia. injection Hk' as <-. by left.
      * intros [(_ & _ & ->) | [Hcon _]]; [| congruence]. split; [done |]. exists s'. split; [done |].
        rewrite Hs'. apply list_lookup_insert_eq. lia.
    + rewrite fn_lookup_insert_ne by done. split.
      * intros (H1 & s0 & [= <-] & Hk'). right. split; [done |]. exists s. split; [done |].
        by rewrite Hs', list_lookup_insert_ne in Hk'.
      * intros [(_ & -> & _) | (H1 & s0 & Hs0 & Hk')]; [done |]. simplify_eq. split; [done |]. exists s'. split; [done |].
        by rewrite Hs', list_lookup_insert_ne.
  - rewrite fn_lookup_insert_ne, list_lookup_insert_ne by done. split; [by right |].
    by intros [(-> & _) | Hh'].
Qed.

(** One more key. *)
Lemma keyed_add n j k s s' :
  l !! n = Some s -> (j < K)%nat -> hk n j = false -> keys s' = <[j := Some k]> (keys s) ->
  (∀ n' j' k', here l hk n' j' k' -> equal k' k = false) ->
  ∃ ix' g', Index.Insert ix (Index.Split ix (hash k)) (kid_of n j) = Ret (true, ix') ∧
    keyed ix' (<[n := s']> l) (<[n := <[j := true]> (hk n)]> hk) g' ∧ Index.count_ ix' = Index.count_ ix.
Proof using Hk KL.
  intros Hs Hj Hno Hs' Hnew. pose proof (lookup_lt_Some _ _ _ Hs) as Hn.
  assert (g !! kid_of n j = None) as Hg.
  { destruct (g !! kid_of n j) as [p |] eqn:Hp; [exfalso | done].
    destruct (kd_kids _ _ _ _ Hk _ _ Hp) as (n' & j' & k' & Heq & Hh' & _). destruct (here_lt _ _ _ Hh').
    destruct (kid_inj (length l) (kd_cap _ _ _ _ Hk) n j n' j') as [-> ->]; [done.. |]. destruct Hh'. congruence. }
  destruct (hashed_ok (hash k)) as [Hb Ht].
  destruct (Insert_spec ix g (kd_index _ _ _ _ Hk) _ Hb Ht (kid_of n j) Hg directory_room) as (ix' & b & sl & Hi & Hh & Hc).
  pose proof (here_add n j k s s' Hs Hj Hno Hs') as Hhere.
  assert (∀ u, Index.Split ix' u = Index.Split ix u) as Hsplit by (intros u; unfold Index.Split; by rewrite Hc).
  eexists ix', _. split; [done |]. split; [| done]. split; rewrite ?Hc, ?length_insert; try apply Hk; try done.
  - intros n' s0 [[<- [<- _]] | [_ Hs0]]%list_lookup_insert_Some; [| by apply (kd_shape _ _ _ _ Hk n')].
    rewrite Hs', length_insert. by apply (kd_shape _ _ _ _ Hk n).
  - intros n' j' Hj'. destruct (decide (n' = n ∧ j' = j)) as [[-> ->] | Hne].
    { exists k. apply Hhere. by left. }
    assert (hk n' j' = true) as Hold.
    { destruct (decide (n' = n)) as [-> | ?]; [| by rewrite fn_lookup_insert_ne in Hj'].
      rewrite fn_lookup_insert, fn_lookup_insert_ne in Hj'; [done | naive_solver]. }
    destruct (kd_dom _ _ _ _ Hk n' j' Hold) as [k' Hk']. exists k'. apply Hhere. by right.
  - intros i p [[<- <-] | [Hne Hp]]%lookup_insert_Some.
    + exists n, j, k. split; [done |]. split; [apply Hhere; by left |]. by rewrite Hsplit.
    + destruct (kd_kids _ _ _ _ Hk i p Hp) as (n' & j' & k' & -> & Hh' & ->). exists n', j', k'.
      split; [done |]. split; [apply Hhere; by right |]. by rewrite Hsplit.
  - intros n' j' k' [(-> & -> & ->) | Hh']%Hhere; [rewrite lookup_insert_eq; eauto |].
    destruct (kd_keys _ _ _ _ Hk n' j' k' Hh') as [p Hp]. exists p. rewrite lookup_insert_ne; [done |]. congruence.
  - intros n1 j1 k1 n2 j2 k2 [(-> & -> & ->) | H1]%Hhere [(-> & -> & ->) | H2]%Hhere He; [done | | | by eapply (kd_unique _ _ _ _ Hk)].
    + apply equal_sym in He. by rewrite (Hnew _ _ _ H2) in He.
    + by rewrite (Hnew _ _ _ H1) in He.
Qed.

(** One key less. *)
Lemma keyed_remove n j k :
  here l hk n j k ->
  ∃ ix', Index.Erase ix (Index.Split ix (hash k)) (kid_of n j) = Ret (true, ix') ∧
    keyed ix' l (<[n := <[j := false]> (hk n)]> hk) (delete (kid_of n j) g) ∧ Index.count_ ix' = Index.count_ ix.
Proof using Hk.
  intros Hkey. destruct (here_lt _ _ _ Hkey) as [Hn Hj]. destruct (kd_keys _ _ _ _ Hk n j k Hkey) as [p Hp].
  destruct (hashed_ok (hash k)) as [Hb Ht].
  destruct (Erase_spec ix g (kd_index _ _ _ _ Hk) _ Hb Ht (kid_of n j) p Hp) as (ix' & He & Hh & Hc).
  { by apply (kid_hash n j k). }
  assert (∀ n' j' k', here l (<[n := <[j := false]> (hk n)]> hk) n' j' k' <->
            ¬ (n' = n ∧ j' = j) ∧ here l hk n' j' k') as Hhere.
  { intros n' j' k'. unfold here. destruct (decide (n' = n)) as [-> | Hne].
    - rewrite fn_lookup_insert. destruct (decide (j' = j)) as [-> | Hnj].
      + rewrite fn_lookup_insert. naive_solver.
      + rewrite fn_lookup_insert_ne by done. naive_solver.
    - rewrite fn_lookup_insert_ne by done. naive_solver. }
  assert (∀ u, Index.Split ix' u = Index.Split ix u) as Hsplit by (intros u; unfold Index.Split; by rewrite Hc).
  exists ix'. split; [done |]. split; [| done]. split; rewrite ?Hc; try apply Hk; try done.
  - intros n' j' Hj'. assert (¬ (n' = n ∧ j' = j) ∧ hk n' j' = true) as [Hne Hold].
    { destruct (decide (n' = n)) as [-> | Hne]; [| rewrite fn_lookup_insert_ne in Hj' by done; naive_solver].
      rewrite fn_lookup_insert in Hj'. destruct (decide (j' = j)) as [-> | Hnj]; [by rewrite fn_lookup_insert in Hj' |].
      rewrite fn_lookup_insert_ne in Hj' by done. naive_solver. }
    destruct (kd_dom _ _ _ _ Hk n' j' Hold) as [k' Hk']. exists k'. by apply Hhere.
  - intros i q [Hne Hq]%lookup_delete_Some. destruct (kd_kids _ _ _ _ Hk i q Hq) as (n' & j' & k' & -> & Hh' & ->).
    exists n', j', k'. split; [done |]. split; [| by rewrite Hsplit]. apply Hhere. split; [| done]. by intros [-> ->].
  - intros n' j' k' [Hne Hh']%Hhere. destruct (kd_keys _ _ _ _ Hk n' j' k' Hh') as [q Hq]. exists q.
    rewrite lookup_delete_ne; [done |]. intros Heq. apply Hne. destruct (here_lt _ _ _ Hh').
    destruct (kid_inj (length l) (kd_cap _ _ _ _ Hk) n j n' j'); [done.. |]. naive_solver.
  - intros n1 j1 k1 n2 j2 k2 [_ H1]%Hhere [_ H2]%Hhere. by eapply (kd_unique _ _ _ _ Hk).
Qed.

End Keyed.
(** Only the keys in use matter. *)
Lemma index_keyed_ext ix l l' hk hk' g :
  keyed ix l hk g -> length l' = length l ->
  (∀ n s s', l !! n = Some s -> l' !! n = Some s' -> keys s' = keys s) ->
  (∀ n j, hk' n j = hk n j) -> keyed ix l' hk' g.
Proof using.
  intros Hk Hl Hs Hhk. assert (∀ n j k, here l' hk' n j k <-> here l hk n j k) as Hhere.
  { intros n j k. unfold here. rewrite Hhk. split; intros (H1 & s & H2 & H3); (split; [done |]).
    - destruct (lookup_lt_is_Some_2 l n) as [s0 Hs0]; [rewrite <- Hl; by eapply lookup_lt_Some |].
      exists s0. split; [done |]. by rewrite <- (Hs n s0 s Hs0 H2).
    - destruct (lookup_lt_is_Some_2 l' n) as [s0 Hs0]; [rewrite Hl; by eapply lookup_lt_Some |].
      exists s0. split; [done |]. by rewrite (Hs n s s0 H2 Hs0). }
  split; rewrite ?Hl; try apply Hk.
  - intros n s' Hs'. destruct (lookup_lt_is_Some_2 l n) as [s0 Hs0]; [rewrite <- Hl; by eapply lookup_lt_Some |].
    rewrite (Hs n s0 s' Hs0 Hs'). by apply (kd_shape _ _ _ _ Hk n).
  - intros n j. rewrite Hhk. intros [k Hk']%(kd_dom _ _ _ _ Hk). exists k. by apply Hhere.
  - intros i p Hp. destruct (kd_kids _ _ _ _ Hk i p Hp) as (n & j & k & ? & ? & ?).
    exists n, j, k. by rewrite Hhere.
  - intros n j k Hh%Hhere. by apply (kd_keys _ _ _ _ Hk n j k).
  - intros n j k n' j' k' H1%Hhere H2%Hhere. by apply (kd_unique _ _ _ _ Hk).
Qed.

(** ** The table *)

Definition in_use (l : list (Slot Key State)) n j : bool :=
  match l !! n with Some s => has_key s j | None => false end.

Record slot_ok s : Prop := {
  so_generation : in_width 32 (generation s);
  so_mask : in_width 16 (key_mask s);
  so_live : is_live s = true -> has_key s 0 = true ∧ is_Some (value s);
  so_free : is_live s = false -> key_mask s = 0
}.

Definition live_count (l : list (Slot Key State)) : nat := length (filter (fun s => is_live s = true) l).

Record lived tb : Prop := {
  lv_length : length (slots_ tb) = capacity_ tb;
  lv_list : Slots.wf (free_ tb);
  lv_capacity : FreeList.capacity_ (free_ tb) = capacity_ tb;
  lv_nodup : NoDup (Slots.contents (free_ tb));
  lv_slot n s : slots_ tb !! n = Some s -> slot_ok s;
  lv_free n : n ∈ Slots.contents (free_ tb) -> ∃ s, slots_ tb !! n = Some s ∧ is_live s = false;
  lv_retired n s : slots_ tb !! n = Some s -> is_live s = false -> (n ∉ Slots.contents (free_ tb)) -> generation s = 0;
  lv_size : size_ tb = Z.of_nat (live_count (slots_ tb));
  lv_quarantined : 0 <= quarantined_ tb;
  lv_total : Z.of_nat (length (Slots.contents (free_ tb))) + size_ tb + quarantined_ tb = Z.of_nat (capacity_ tb)
}.

Definition inv tb : Prop := ∃ g, keyed (index_ tb) (slots_ tb) (in_use (slots_ tb)) g ∧ lived tb.

(** What a handle names: the keys in use and the state of a live flow. *)
Definition used s : list (option Key) := imap (fun j o => if has_key s j then o else None) (keys s).

Definition flow tb (h : FlowHandle) : option (list (option Key) * State) :=
  if bool_decide (1 <= id h <= Z.of_nat (capacity_ tb)) then
    s ← slots_ tb !! Z.to_nat (id h - 1);
    if bool_decide (generation s = h_generation h) && is_live s
    then v ← value s; Some (used s, v) else None
  else None.

(** [k] is key [j] of the flow [h]. *)
Definition names tb k (h : FlowHandle) j : Prop :=
  ∃ ks v k', flow tb h = Some (ks, v) ∧ ks !! j = Some (Some k') ∧ equal k' k = true.

(** The slot of a flow, and its pointer. *)
Definition pointer (h : FlowHandle) : nat := Z.to_nat (id h - 1).

Lemma capacity_small tb : inv tb -> (0 < capacity_ tb)%nat ∧ Z.of_nat (capacity_ tb) < 2 ^ 32 - 1.
Proof using.
  intros (g & Hk & Hl). rewrite <- (lv_length _ Hl). split; [apply Hk |].
  pose proof (kd_cap _ _ _ _ Hk). unfold Index.kNone, kKeysPerSlot in *. nia.
Qed.

Lemma live_small tb : lived tb -> (live_count (slots_ tb) <= capacity_ tb)%nat.
Proof using. intros Hl. rewrite <- (lv_length _ Hl). apply length_filter. Qed.

(** A live slot, as a handle names it. *)
Definition handle_of n s : FlowHandle := mk_handle (Z.of_nat n + 1) (generation s).

Lemma flow_at tb n s :
  inv tb -> slots_ tb !! n = Some s -> is_live s = true ->
  ∃ v, value s = Some v ∧ flow tb (handle_of n s) = Some (used s, v) ∧ pointer (handle_of n s) = n.
Proof using.
  intros Hi Hs Hlive. destruct Hi as (g & Hk & Hl). destruct (so_live _ (lv_slot _ Hl n s Hs) Hlive) as [_ [v Hv]].
  exists v. split; [done |]. unfold flow, pointer, handle_of. cbn [id h_generation].
  assert (n < capacity_ tb)%nat by (rewrite <- (lv_length _ Hl); by eapply lookup_lt_Some).
  rewrite bool_decide_eq_true_2 by lia. replace (Z.of_nat n + 1 - 1) with (Z.of_nat n) by lia.
  rewrite Nat2Z.id, Hs. simpl. rewrite bool_decide_eq_true_2, Hlive by done. simpl. by rewrite Hv.
Qed.

Lemma flow_Some tb h ks v :
  flow tb h = Some (ks, v) ->
  ∃ s, slots_ tb !! pointer h = Some s ∧ is_live s = true ∧ value s = Some v ∧ ks = used s ∧
    h = handle_of (pointer h) s ∧ 1 <= id h <= Z.of_nat (capacity_ tb).
Proof using.
  unfold flow, pointer. case_bool_decide as Hr; [| done]. destruct (slots_ tb !! Z.to_nat (id h - 1)) as [s |] eqn:Hs; [| done].
  simpl. case_bool_decide as Hg; [| done]. simpl. destruct (is_live s) eqn:Hlive; [| done].
  destruct (value s) as [v0 |] eqn:Hv; [| done]. simpl. intros [= <- <-]. exists s. split_and!; try done; [| lia..].
  destruct h as [i gen]. unfold handle_of. simpl in *. rewrite Hg, Z2Nat.id by lia. f_equal. lia.
Qed.

Lemma used_lookup s j : used s !! j = (if has_key s j then keys s !! j else (fun _ => None) <$> keys s !! j).
Proof using. unfold used. rewrite list_lookup_imap. destruct (keys s !! j); simpl; by destruct (has_key s j). Qed.

Lemma here_names tb n j k k' :
  inv tb -> here (slots_ tb) (in_use (slots_ tb)) n j k' -> equal k' k = true ->
  ∃ s, slots_ tb !! n = Some s ∧ is_live s = true ∧ names tb k (handle_of n s) j.
Proof using.
  intros Hi (Hu & s & Hs & Hj) He. exists s. split; [done |]. pose proof Hi as (g & Hk & Hl).
  unfold in_use in Hu. rewrite Hs in Hu. assert (is_live s = true) as Hlive.
  { destruct (is_live s) eqn:Hlive; [done |]. unfold has_key in Hu.
    rewrite (so_free _ (lv_slot _ Hl n s Hs) Hlive), Z.bits_0 in Hu. done. }
  split; [done |]. destruct (flow_at tb n s Hi Hs Hlive) as (v & _ & Hf & _). exists (used s), v, k'.
  split; [done |]. by rewrite used_lookup, Hu.
Qed.

Lemma names_here tb k h j :
  names tb k h j ->
  ∃ k' s, slots_ tb !! pointer h = Some s ∧ is_live s = true ∧ h = handle_of (pointer h) s ∧
    here (slots_ tb) (in_use (slots_ tb)) (pointer h) j k' ∧ equal k' k = true.
Proof using.
  intros (ks & v & k' & Hf & Hj & He). destruct (flow_Some _ _ _ _ Hf) as (s & Hs & Hlive & _ & -> & Hh & _).
  exists k', s. split_and!; try done. rewrite used_lookup in Hj. unfold here, in_use. rewrite Hs.
  destruct (has_key s j) eqn:Hu; [split; [done |]; eauto |]. by destruct (keys s !! j).
Qed.

(** A key names at most one flow. *)
Lemma names_unique tb k h j h' j' : inv tb -> names tb k h j -> names tb k h' j' -> h = h' ∧ j = j'.
Proof using KL.
  intros (g & Hk & _) (k1 & s1 & Hs1 & _ & Hh1 & H1 & He1)%names_here (k2 & s2 & Hs2 & _ & Hh2 & H2 & He2)%names_here.
  destruct (kd_unique _ _ _ _ Hk _ _ _ _ _ _ H1 H2) as [Hp ->].
  - eapply equal_trans; [done | by apply equal_sym].
  - split; [| done]. rewrite Hh1, Hh2. rewrite Hp in *. congruence.
Qed.

End Inv.
End FlowInv.
