(* ===== verification/FlowFind.v ===== *)
(** * Lookups in the flow table

    By key, by handle and in batches: what they return in terms of the flows a
    table holds, and that a batch is its lookups one by one. *)

From S2P Require Import Prelude FlowIndex FlowProbe FlowFree FlowTable FlowSlots FlowInv.
Open Scope Z_scope.

Module FlowFind.
Import Probe Flow FlowInv.

Section Find.
Context {TR : Traits} {Key State : Type} {KO : KeyOps Key} {KL : KeyLaws Key} {OB : FlowObserver State}.
Implicit Types (tb : t Key State) (s : Slot Key State) (n j : nat) (k : Key).

Lemma slot_at tb n s : slots_ tb !! n = Some s -> slot tb n = Ret s.
Proof using. apply at_lookup. Qed.

Lemma slot_upd_ok tb n s f : slots_ tb !! n = Some s -> upd tb n f = Ret (with_slots (<[n := f s]> (slots_ tb)) tb).
Proof using. intros Hs. unfold upd. by rewrite (slot_at _ _ _ Hs). Qed.

(** ** Key ids *)

Definition key_found tb k (kid : Z) : Prop :=
  (∃ n j k', kid = kid_of n j ∧ here (slots_ tb) (in_use (slots_ tb)) n j k' ∧ equal k' k = true) ∨
  (kid = Index.kNone ∧ ∀ n j k', here (slots_ tb) (in_use (slots_ tb)) n j k' -> equal k' k = false).

Lemma same_key_here tb g k n j k' :
  keyed (index_ tb) (slots_ tb) (in_use (slots_ tb)) g ->
  here (slots_ tb) (in_use (slots_ tb)) n j k' -> same_key tb k (kid_of n j) = Ret (equal k' k).
Proof using.
  intros Hk Hh. destruct (here_kid _ _ _ _ Hk _ _ _ Hh) as (Hn & Hj & _). destruct Hh as (_ & s & Hs & Hkey).
  unfold same_key. rewrite Hn, Hj, (slot_at _ _ _ Hs). cbn [mbind run_bind]. unfold key_at.
  by rewrite (at_lookup _ _ _ Hkey).
Qed.

Lemma FindKid_spec tb k : inv tb -> ∃ kid, FindKid tb (Locate tb k) k = Ret kid ∧ key_found tb k kid.
Proof using KL.
  intros (g & Hk & Hl). unfold FindKid, Locate.
  set (P := fun i => match same_key tb k i with Ret b => b | _ => false end).
  destruct (hashed_ok _ _ _ _ Hk (hash k)) as [Hb Ht].
  assert (∀ i p, g !! i = Some p -> ∃ n j k', i = kid_of n j ∧ here (slots_ tb) (in_use (slots_ tb)) n j k' ∧
            p_hash p = Index.Split (index_ tb) (hash k') ∧ same_key tb k i = Ret (equal k' k)) as Hg.
  { intros i p Hp. destruct (kd_kids _ _ _ _ Hk i p Hp) as (n & j & k' & -> & Hh & Hph). exists n, j, k'.
    split_and!; [done.. |]. by eapply same_key_here. }
  destruct (Find_spec (index_ tb) g _ (same_key tb k) P (kd_index _ _ _ _ Hk) Hb Ht) as (r & Hr & Hf).
  - intros i p Hp. destruct (Hg i p Hp) as (n & j & k' & _ & _ & _ & He). unfold P. by rewrite He.
  - intros i p Hp HP. destruct (Hg i p Hp) as (n & j & k' & _ & _ & -> & He). unfold P in HP. rewrite He in HP.
    by rewrite (equal_hash k' k HP).
  - exists r. split; [done |]. destruct Hf as [(p & Hp & HP) | [-> Hno]].
    + left. destruct (Hg r p Hp) as (n & j & k' & -> & Hh & _ & He). unfold P in HP. rewrite He in HP. eauto 8.
    + right. split; [done |]. intros n j k' Hh. destruct (kd_keys _ _ _ _ Hk n j k' Hh) as [p Hp].
      specialize (Hno _ _ Hp). unfold P in Hno. by rewrite (same_key_here tb g k n j k' Hk Hh) in Hno.
Qed.

Lemma HandleOf_ok tb n s : inv tb -> slots_ tb !! n = Some s -> HandleOf tb n = Ret (handle_of n s).
Proof using.
  intros Hi Hs. destruct (capacity_small _ Hi) as [_ Hc]. destruct Hi as (g & _ & Hl).
  assert (n < capacity_ tb)%nat by (rewrite <- (lv_length _ Hl); by eapply lookup_lt_Some).
  unfold HandleOf. rewrite (slot_at _ _ _ Hs). cbn [mbind run_bind]. rewrite wrap_small by (unfold in_width; lia). done.
Qed.

(** ** By key *)

Definition ref_found tb k (r : FlowRef) : Prop :=
  match state r with
  | Some p => ∃ j, names tb k (handle r) j ∧ p = pointer (handle r) ∧ via_alias r = negb (bool_decide (j = 0%nat))
  | None => r = no_ref ∧ ∀ h j, ¬ names tb k h j
  end.

(** Nothing named: no key in use is equal. *)
Lemma unnamed tb k :
  inv tb -> (∀ h j, ¬ names tb k h j) <->
  (∀ n j k', here (slots_ tb) (in_use (slots_ tb)) n j k' -> equal k' k = false).
Proof using.
  intros Hi. split.
  - intros Hno n j k' Hh. destruct (equal k' k) eqn:He; [exfalso | done].
    destruct (here_names tb n j k k' Hi Hh He) as (s & _ & _ & Hn). by eapply Hno.
  - intros Hno h j (k' & s & _ & _ & _ & Hh & He)%names_here. by rewrite (Hno _ _ _ Hh) in He.
Qed.

Lemma ref_of_spec tb k kid :
  inv tb -> key_found tb k kid ->
  ∃ r, ref_of tb kid = Ret r ∧ ref_found tb k r ∧ (state r = None <-> kid = Index.kNone) ∧
    (kid <> Index.kNone -> state r = Some (kid_slot kid)).
Proof using.
  intros Hi [(n & j & k' & -> & Hh & He) | [-> Hno]]; unfold ref_of.
  - pose proof Hi as (g & Hk & _). destruct (here_kid _ _ _ _ Hk _ _ _ Hh) as (Hn & Hj & Hne).
    rewrite bool_decide_eq_false_2 by done. rewrite Hn, Hj.
    destruct (here_names tb n j k k' Hi Hh He) as (s & Hs & Hlive & Hnames).
    rewrite (HandleOf_ok _ _ _ Hi Hs). eexists. split; [done |]. cbn [state].
    destruct (flow_at tb n s Hi Hs Hlive) as (v & _ & _ & Hp). split; [| done].
    unfold ref_found. cbn [state handle via_alias]. exists j. by rewrite Hp.
  - rewrite bool_decide_eq_true_2 by done. eexists. split; [done |]. split; [| done].
    split; [done |]. by apply unnamed.
Qed.

Lemma FindRef_spec tb k : inv tb -> ∃ r, FindRef tb k = Ret r ∧ ref_found tb k r.
Proof using KL.
  intros Hi. destruct (FindKid_spec tb k Hi) as (kid & Hkid & Hf). unfold FindRef. rewrite Hkid. cbn [mbind run_bind].
  destruct (ref_of_spec tb k kid Hi Hf) as (r & Hr & Hrf & _). eauto.
Qed.

(** The result is determined by the flows. *)
Lemma ref_found_fun tb k r r' : inv tb -> ref_found tb k r -> ref_found tb k r' -> r = r'.
Proof using KL.
  intros Hi. unfold ref_found. destruct r as [[p |] h a], r' as [[p' |] h' a']; cbn [state handle via_alias].
  - intros (j & Hn & -> & ->) (j' & Hn' & -> & ->). by destruct (names_unique tb k h j h' j' Hi Hn Hn') as [-> ->].
  - intros (j & Hn & _) [_ Hno]. by destruct (Hno h j).
  - intros [_ Hno] (j & Hn & _). by destruct (Hno h' j).
  - intros [-> _] [-> _]. done.
Qed.

Lemma Find_spec' tb k : inv tb -> ∃ r, Find tb k = Ret (state r) ∧ FindRef tb k = Ret r ∧ ref_found tb k r.
Proof using KL.
  intros Hi. destruct (FindKid_spec tb k Hi) as (kid & Hkid & Hf).
  destruct (ref_of_spec tb k kid Hi Hf) as (r & Hr & Hrf & Hnone & Hsome). exists r.
  unfold Find, FindRef. rewrite Hkid. cbn [mbind mret run_bind run_ret]. rewrite Hr. split_and!; try done. f_equal.
  case_bool_decide as Hk; [by rewrite (proj2 Hnone Hk) | by rewrite Hsome].
Qed.

(** ** Batches *)

Lemma testbit_hit hits i m :
  (i < 64)%nat -> 0 <= m ->
  Z.testbit (Z.lor hits (wrap 64 (Z.shiftl 1 (Z.of_nat i)))) m = Z.testbit hits m || bool_decide (m = Z.of_nat i).
Proof using.
  intros Hi Hm. rewrite Z.lor_spec, Z.shiftl_1_l, wrap_small.
  - rewrite Z.pow2_bits_eqb by lia. f_equal. case_bool_decide as H; [apply Z.eqb_eq; lia | apply Z.eqb_neq; lia].
  - unfold in_width. split; [lia |]. apply Z.pow_lt_mono_r; lia.
Qed.

(** Which bits of a batch are set. *)
Definition hits_of (hit : nat -> Prop) (i : nat) (hits hits' : Z) : Prop :=
  ∀ m, 0 <= m -> Z.testbit hits' m = true <->
    Z.testbit hits m = true ∨ ∃ d, m = Z.of_nat (i + d) ∧ hit d.

Lemma hits_step (hit : nat -> Prop) (b : bool) i hits hits1 hits' :
  (i < 64)%nat -> (b = true <-> hit 0%nat) ->
  hits1 = (if b then Z.lor hits (wrap 64 (Z.shiftl 1 (Z.of_nat i))) else hits) ->
  hits_of (fun d => hit (S d)) (S i) hits1 hits' -> hits_of hit i hits hits'.
Proof using.
  intros Hi Hb -> Hh m Hm. rewrite (Hh m Hm). assert (Z.testbit (if b then Z.lor hits (wrap 64 (Z.shiftl 1 (Z.of_nat i))) else hits) m
    = true <-> Z.testbit hits m = true ∨ (m = Z.of_nat i ∧ hit 0%nat)) as ->.
  { destruct b; [rewrite testbit_hit, orb_true_iff, bool_decide_eq_true by done | ]; naive_solver. }
  split.
  - intros [[? | [-> ?]] | (d & -> & ?)]; [by left | right; exists 0%nat | right; exists (S d)]; (split; [lia | done]).
  - intros [? | ([| d] & -> & ?)]; [by left; left | left; right | right; exists d]; (split; [lia | done]).
Qed.

Lemma find_ref_batch_spec tb : inv tb -> ∀ ks i hits,
  (i + length ks <= 64)%nat ->
  ∃ rs hits', find_ref_batch tb i (zip (map (Locate tb) ks) ks) hits = Ret (rs, hits') ∧
    Forall2 (fun k r => FindRef tb k = Ret r) ks rs ∧
    hits_of (fun d => ∃ r p, rs !! d = Some r ∧ state r = Some p) i hits hits'.
Proof using KL.
  intros Hi. induction ks as [| k ks IH]; intros i hits Hlen; cbn [map zip zip_with find_ref_batch].
  { eexists _, _. split; [done |]. split; [constructor |]. intros m Hm. naive_solver. }
  destruct (FindKid_spec tb k Hi) as (kid & Hkid & Hf). rewrite Hkid. cbn [mbind run_bind].
  destruct (ref_of_spec tb k kid Hi Hf) as (r & Hr & _ & Hnone & Hsome). rewrite Hr. cbn [mbind run_bind].
  set (hits1 := if bool_decide (kid = Index.kNone) then _ else _).
  destruct (IH (S i) hits1) as (rs & hits' & Hgo & Hrs & Hbits); [simpl in Hlen; lia |].
  rewrite Hgo. cbn [mbind mret run_bind run_ret]. eexists _, _. split; [done |]. split.
  - constructor; [| done]. unfold FindRef. by rewrite Hkid.
  - eapply (hits_step _ (negb (bool_decide (kid = Index.kNone)))); [simpl in Hlen; lia | | | done].
    + rewrite negb_true_iff, bool_decide_eq_false. split; [| naive_solver].
      intros Hne. exists r, (kid_slot kid). split; [done | by apply Hsome].
    + unfold hits1. by case_bool_decide.
Qed.

Lemma FirstCandidate_ok tb g k :
  keyed (index_ tb) (slots_ tb) (in_use (slots_ tb)) g -> ∃ c, Index.FirstCandidate (index_ tb) (Locate tb k) = Ret c.
Proof using.
  intros Hk. destruct (hashed_ok _ _ _ _ Hk (hash k)) as [Hb _]. pose proof (kd_index _ _ _ _ Hk) as Hh.
  destruct (bucket_at _ _ _ Hh Hb) as (x & Hx & [Hlt Hli]). unfold Index.FirstCandidate, Locate.
  rewrite (at_lookup _ _ _ Hx). cbn [mbind run_bind].
  destruct (MatchTags_spec (Index.tags x) (Index.tag (Index.Split (index_ tb) (hash k))) Hlt) as (m & -> & Hr & Hbits).
  cbn [mbind run_bind]. case_bool_decide as Hm; [| by eexists]. destruct (bits_step m Hr Hm) as [Hb2 _].
  destruct (lookup_lt_is_Some_2 (Index.ids x) (Z.to_nat (countr_zero 32 m))) as [i Hi'].
  - rewrite Hli, <- Hlt. eapply lookup_lt_Some, Hbits. rewrite Hb2. by left.
  - exists i. by apply at_lookup.
Qed.

Lemma PrefetchBatch_ok tb ks : inv tb -> PrefetchBatch tb ks = Ret (map (Locate tb) ks).
Proof using.
  intros (g & Hk & _). unfold PrefetchBatch. destruct kPrefetchSlots; [| done].
  assert (prefetch tb (map (Locate tb) ks) = Ret ()) as ->; [| done].
  induction ks as [| k ks IH]; [done |]. simpl. destruct (FirstCandidate_ok tb g k Hk) as [c ->]. done.
Qed.

(** A batch of references is the references one by one. *)
Lemma FindRefBatch_spec tb ks :
  inv tb -> (length ks <= kMaxBatch)%nat ->
  ∃ rs hits, FindRefBatch tb ks = Ret (rs, hits) ∧ Forall2 (fun k r => FindRef tb k = Ret r) ks rs ∧
    hits_of (fun d => ∃ r p, rs !! d = Some r ∧ state r = Some p) 0 0 hits.
Proof using KL.
  intros Hi Hlen. unfold FindRefBatch, promise. rewrite bool_decide_eq_true_2 by done. cbn [mbind run_bind].
  rewrite PrefetchBatch_ok by done. cbn [mbind run_bind]. by apply find_ref_batch_spec.
Qed.

(** Both batches find the same. *)
Lemma find_batch_states tb : inv tb -> ∀ ks i hits rs hits',
  find_ref_batch tb i (zip (map (Locate tb) ks) ks) hits = Ret (rs, hits') ->
  find_batch tb i (zip (map (Locate tb) ks) ks) hits = Ret (map state rs, hits').
Proof using KL.
  intros Hi. induction ks as [| k ks IH]; intros i hits rs hits'; cbn [map zip zip_with find_ref_batch find_batch].
  { by intros [= <- <-]. }
  destruct (FindKid_spec tb k Hi) as (kid & Hkid & Hf). rewrite Hkid. cbn [mbind run_bind].
  destruct (ref_of_spec tb k kid Hi Hf) as (r & Hr & _ & Hnone & Hsome). rewrite Hr. cbn [mbind run_bind].
  intros Hgo. run_inv. destruct x as [rs0 hits0]. run_inv. rewrite (IH _ _ _ _ H). cbn [mbind mret run_bind run_ret map].
  do 3 f_equal. case_bool_decide as Hk; [by rewrite (proj2 Hnone Hk) | by rewrite Hsome].
Qed.

Lemma FindBatch_states tb ks rs hits :
  inv tb -> FindRefBatch tb ks = Ret (rs, hits) -> FindBatch tb ks = Ret (map state rs, hits).
Proof using KL.
  intros Hi. unfold FindBatch, FindRefBatch. destruct (promise _); [| done..]. cbn [mbind run_bind].
  rewrite PrefetchBatch_ok by done. cbn [mbind run_bind]. by apply find_batch_states.
Qed.

(** ** By handle *)

Lemma SlotOf_spec tb h :
  inv tb -> in_width 32 (id h) ->
  SlotOf tb h = Ret (match flow tb h with Some _ => Some (pointer h) | None => None end).
Proof using.
  intros Hi Hw. destruct (capacity_small _ Hi) as [_ Hc]. pose proof Hi as (g & _ & Hl). unfold in_width in Hw.
  unfold SlotOf, flow, pointer. destruct (Z.eq_dec (id h) 0) as [H0 | Hne].
  { rewrite H0. change (wrap 32 (0 - 1)) with (2 ^ 32 - 1). rewrite bool_decide_eq_true_2 by lia.
    by rewrite bool_decide_eq_false_2 by lia. }
  rewrite wrap_small by (unfold in_width; lia). case_bool_decide as H1.
  - by rewrite bool_decide_eq_false_2 by lia.
  - rewrite bool_decide_eq_true_2 by lia.
    destruct (lookup_lt_is_Some_2 (slots_ tb) (Z.to_nat (id h - 1))) as [s Hs]; [rewrite (lv_length _ Hl); lia |].
    rewrite (slot_at _ _ _ Hs), Hs. simpl. case_bool_decide; simpl; [| done].
    destruct (is_live s) eqn:Hlive; [| done]. by destruct (so_live _ (lv_slot _ Hl _ s Hs) Hlive) as [_ [v ->]].
Qed.

(** The state a flow's pointer reads. *)
Lemma load_spec tb h ks v : flow tb h = Some (ks, v) -> load tb (pointer h) = Ret v.
Proof using.
  intros (s & Hs & _ & Hv & _)%flow_Some. unfold load. rewrite (slot_at _ _ _ Hs). cbn [mbind run_bind].
  unfold state_of. by rewrite Hv.
Qed.

Lemma KeyOf_spec tb h :
  inv tb -> in_width 32 (id h) ->
  ∃ r, KeyOf tb h = Ret r ∧
    match flow tb h with
    | Some (ks, _) => ∃ k, r = Some k ∧ ks !! 0%nat = Some (Some k)
    | None => r = None
    end.
Proof using.
  intros Hi Hw. unfold KeyOf. rewrite SlotOf_spec by done. cbn [mbind run_bind].
  destruct (flow tb h) as [[ks v] |] eqn:Hf; [| by eexists].
  destruct (flow_Some _ _ _ _ Hf) as (s & Hs & Hlive & _ & -> & _ & _). rewrite (slot_at _ _ _ Hs). cbn [mbind run_bind].
  destruct Hi as (g & Hk & Hl). destruct (so_live _ (lv_slot _ Hl _ s Hs) Hlive) as [H0 _].
  destruct (kd_dom _ _ _ _ Hk (pointer h) 0%nat) as (k & _ & s' & Hs' & Hk'); [unfold in_use; by rewrite Hs |].
  simplify_eq. unfold key_at. rewrite (at_lookup _ _ _ Hk'). eexists. split; [done |]. exists k. split; [done |].
  by rewrite used_lookup, H0.
Qed.

End Find.
End FlowFind.
