(* ===== verification/FlowChange.v ===== *)
(** * Changing one slot of the flow table

    Every operation that changes the table changes one slot. What that does to
    the invariant, to the flows that handles name, and to handles that name no
    flow any more. *)

From stdpp Require Import functions.
From S2P Require Import Prelude FlowIndex FlowProbe FlowFree FlowTable FlowSlots FlowInv FlowFind.
Open Scope Z_scope.

Module FlowChange.
Import Probe Flow FlowInv FlowFind.

Section Change.
Context {TR : Traits} {Key State : Type} {KO : KeyOps Key} {KL : KeyLaws Key} {OB : FlowObserver State}.
Implicit Types (tb : t Key State) (s : Slot Key State) (n j : nat) (k : Key) (h : FlowHandle).

(** ** What handles name *)

Lemma handle_inj n s h :
  pointer h = n -> 1 <= id h -> h_generation h = generation s -> h = handle_of n s.
Proof using. destruct h as [i gen]. unfold pointer, handle_of. simpl. intros <- Hi ->. rewrite Z2Nat.id by lia. f_equal. lia. Qed.

Section Flows.
Context (tb tb' : t Key State) (n : nat) (s s' : Slot Key State).
Context (Hs : slots_ tb !! n = Some s) (Hs' : slots_ tb' = <[n := s']> (slots_ tb)).
Context (Hcap : capacity_ tb' = capacity_ tb) (Hlen : length (slots_ tb) = capacity_ tb).

Lemma flow_other h : pointer h <> n -> flow tb' h = flow tb h.
Proof using Hs' Hcap.
  intros Hne. unfold flow. rewrite Hcap, Hs'. unfold pointer in Hne. by rewrite list_lookup_insert_ne.
Qed.

Lemma flow_here h :
  pointer h = n -> 1 <= id h ->
  flow tb' h = if bool_decide (generation s' = h_generation h) && is_live s'
               then v ← value s'; Some (used s', v) else None.
Proof using Hs Hs' Hcap Hlen.
  intros Hp Hid. pose proof (lookup_lt_Some _ _ _ Hs). unfold flow, pointer in *.
  rewrite Hcap, Hs', bool_decide_eq_true_2 by lia. rewrite Hp, list_lookup_insert_eq by lia. done.
Qed.

(** The slot holds a flow afterwards. *)
Lemma flow_set v :
  is_live s' = true -> value s' = Some v -> (is_live s = true -> generation s' = generation s) ->
  ∀ h, flow tb' h = if decide (h = handle_of n s') then Some (used s', v) else flow tb h.
Proof using Hs Hs' Hcap Hlen.
  intros Hlive Hv Hg h. case_decide as Hh.
  - rewrite flow_here, Hh; cbn [handle_of id h_generation]; [| by rewrite Hh; unfold pointer, handle_of; simpl; lia | by rewrite Hh; simpl; lia].
    by rewrite bool_decide_eq_true_2, Hlive, Hv.
  - destruct (decide (pointer h = n)) as [Hp |]; [| by apply flow_other].
    destruct (decide (1 <= id h)) as [Hid | Hid].
    + rewrite flow_here by done. rewrite bool_decide_eq_false_2; [simpl | intros He; by apply Hh, handle_inj].
      symmetry. destruct (flow tb h) as [[ks v0] |] eqn:Hf; [exfalso | done].
      destruct (flow_Some _ _ _ _ Hf) as (s0 & Hs0 & Hl0 & _ & _ & Hh0 & _). rewrite Hp in *. simplify_eq.
      apply Hh. unfold handle_of. by rewrite Hg.
    + unfold flow. rewrite !bool_decide_eq_false_2 by lia. done.
Qed.

(** The slot holds no flow afterwards. *)
Lemma flow_drop :
  is_live s' = false -> ∀ h, flow tb' h = if decide (h = handle_of n s) then None else flow tb h.
Proof using Hs Hs' Hcap Hlen.
  intros Hdead h. case_decide as Hh.
  - rewrite flow_here, Hdead, andb_false_r; [done | by rewrite Hh; unfold pointer, handle_of; simpl; lia | by rewrite Hh; simpl; lia].
  - destruct (decide (pointer h = n)) as [Hp |]; [| by apply flow_other].
    destruct (decide (1 <= id h)) as [Hid | Hid].
    + rewrite flow_here, Hdead, andb_false_r by done. symmetry.
      destruct (flow tb h) as [[ks v0] |] eqn:Hf; [exfalso | done].
      destruct (flow_Some _ _ _ _ Hf) as (s0 & Hs0 & _ & _ & _ & Hh0 & _). rewrite Hp in *. by simplify_eq.
    + unfold flow. rewrite !bool_decide_eq_false_2 by lia. done.
Qed.

Lemma live_count_change :
  (live_count (slots_ tb') + (if is_live s then 1 else 0) = live_count (slots_ tb) + (if is_live s' then 1 else 0))%nat.
Proof using Hs Hs'.
  clear Hcap Hlen. unfold live_count. rewrite Hs'. pose proof (count_insert (fun s => is_live s = true) _ _ _ s' Hs) as Hc.
  repeat case_decide; destruct (is_live s), (is_live s'); simplify_eq; lia.
Qed.

End Flows.

(** ** Handles that name nothing any more *)

Definition retired tb n : Prop :=
  (n ∉ Slots.contents (free_ tb)) ∧ ∃ s, slots_ tb !! n = Some s ∧ is_live s = false.

(** Generations grow until a slot is retired. *)
Definition ages tb tb' : Prop :=
  capacity_ tb' = capacity_ tb ∧
  ∀ n s, slots_ tb !! n = Some s ->
    (retired tb n -> retired tb' n) ∧
    ∃ s', slots_ tb' !! n = Some s' ∧ (retired tb' n ∨ generation s <= generation s').

Lemma flow_ages_refl tb : ages tb tb.
Proof using. split; [done |]. intros n s Hs. split; [done |]. exists s. split; [done |]. right. lia. Qed.

Lemma flow_ages_trans tb1 tb2 tb3 : ages tb1 tb2 -> ages tb2 tb3 -> ages tb1 tb3.
Proof using.
  intros [C1 H12] [C2 H23]. split; [congruence |]. intros n s1 Hs1. destruct (H12 n s1 Hs1) as (R1 & s2 & Hs2 & G1).
  destruct (H23 n s2 Hs2) as (R2 & s3 & Hs3 & G2). split; [tauto |]. exists s3. split; [done |].
  destruct G1; [tauto |]. destruct G2; [tauto |]. right. lia.
Qed.

(** The flow a handle named is gone for good. *)
Definition dead tb h : Prop :=
  1 <= id h ∧ ∃ s, slots_ tb !! pointer h = Some s ∧ (retired tb (pointer h) ∨ h_generation h < generation s).

Lemma dead_ages tb tb' h : ages tb tb' -> dead tb h -> dead tb' h.
Proof using.
  intros [_ Ha] (Hid & s & Hs & Hd). destruct (Ha _ s Hs) as (Hr & s' & Hs' & Hg). split; [done |].
  exists s'. split; [done |]. destruct Hd; [tauto |]. destruct Hg; [tauto |]. right. lia.
Qed.

Lemma dead_flow tb h : dead tb h -> flow tb h = None.
Proof using.
  intros (Hid & s & Hs & Hd). destruct (flow tb h) as [[ks v] |] eqn:Hf; [exfalso | done].
  destruct (flow_Some _ _ _ _ Hf) as (s0 & Hs0 & Hlive & _ & _ & Hh & _). simplify_eq.
  destruct Hd as [(_ & s1 & Hs1 & Hdead) | Hlt]; [congruence |]. rewrite Hh in Hlt. simpl in Hlt. lia.
Qed.

(** ** The invariant *)

(** A slot whose generation, and so whose place among live and free slots,
    stays. *)
Lemma lived_same tb tb' n s s' :
  lived tb -> slots_ tb !! n = Some s -> slots_ tb' = <[n := s']> (slots_ tb) ->
  capacity_ tb' = capacity_ tb -> free_ tb' = free_ tb -> size_ tb' = size_ tb -> quarantined_ tb' = quarantined_ tb ->
  generation s' = generation s -> slot_ok s' -> lived tb' ∧ ages tb tb'.
Proof using.
  intros Hl Hs Hs' Hc Hf Hz Hq Hg Hok. pose proof (lookup_lt_Some _ _ _ Hs) as Hn.
  assert (is_live s' = is_live s) as Hlive by (unfold is_live; by rewrite Hg).
  pose proof (live_count_change tb tb' n s s' Hs Hs') as Hcount. rewrite Hlive in Hcount.
  assert (∀ m, retired tb m <-> retired tb' m) as Hret.
  { intros m. unfold retired. rewrite Hf, Hs'. destruct (decide (m = n)) as [-> | Hne];
      [rewrite list_lookup_insert_eq, Hs by done | by rewrite list_lookup_insert_ne].
    split; intros (H1 & s0 & [= <-] & H2); (split; [done |]); eexists; (split; [done |]); congruence. }
  split.
  - split; rewrite ?Hc, ?Hf, ?Hz, ?Hq; try apply Hl.
    + rewrite Hs', length_insert. apply Hl.
    + intros m s0. rewrite Hs'. intros [[_ [-> _]] | [_ Hs0]]%list_lookup_insert_Some; [done | by apply (lv_slot _ Hl m)].
    + intros m Hm. destruct (lv_free _ Hl m Hm) as (s0 & Hs0 & Hd). rewrite Hs'.
      destruct (decide (m = n)) as [-> | Hne]; [rewrite list_lookup_insert_eq by done | rewrite list_lookup_insert_ne by done; eauto].
      exists s'. split; [done |]. simplify_eq. congruence.
    + intros m s0. rewrite Hs'. intros [[<- [-> _]] | [_ Hs0]]%list_lookup_insert_Some; [| by apply (lv_retired _ Hl m)].
      rewrite Hlive, Hg. by apply (lv_retired _ Hl n).
    + rewrite (lv_size _ Hl). lia.
  - split; [done |]. intros m s0 Hs0. split; [by rewrite Hret |]. rewrite Hs'.
    destruct (decide (m = n)) as [-> | Hne]; [rewrite list_lookup_insert_eq by done | rewrite list_lookup_insert_ne by done].
    + exists s'. split; [done |]. right. simplify_eq. lia.
    + exists s0. split; [done |]. right. lia.
Qed.

(** A free slot taken for a flow. *)
Lemma lived_take tb tb' n rest s s' :
  lived tb -> slots_ tb !! n = Some s -> slots_ tb' = <[n := s']> (slots_ tb) ->
  capacity_ tb' = capacity_ tb -> Slots.contents (free_ tb) = n :: rest ->
  Slots.wf (free_ tb') -> FreeList.capacity_ (free_ tb') = capacity_ tb -> Slots.contents (free_ tb') = rest ->
  size_ tb' = wrap 32 (size_ tb + 1) -> quarantined_ tb' = quarantined_ tb -> Z.of_nat (capacity_ tb) < 2 ^ 32 - 1 ->
  generation s' = generation s + 1 -> slot_ok s' -> lived tb' ∧ ages tb tb' ∧ is_live s' = true.
Proof using.
  clear KL KO. intros Hl Hs Hs' Hc Hcont Hwf Hfc Hrest Hz Hq Hsmall Hg Hok. pose proof (lookup_lt_Some _ _ _ Hs) as Hn.
  pose proof (lv_nodup _ Hl) as Hnd. rewrite Hcont in Hnd. apply NoDup_cons in Hnd as [Hnin Hnd].
  destruct (lv_free _ Hl n) as (s0 & Hs0 & Hdead); [rewrite Hcont; by left |]. simplify_eq.
  assert (is_live s' = true) as Hlive.
  { unfold is_live in *. by rewrite Hg, Z.odd_add, Hdead. }
  pose proof (live_count_change tb tb' n s s' Hs Hs') as Hcount. rewrite Hlive, Hdead in Hcount.
  pose proof (live_small _ Hl). pose proof (lv_size _ Hl) as Hsz. pose proof (lv_total _ Hl) as Ht. rewrite Hcont in Ht.
  rewrite wrap_small in Hz by (unfold in_width; lia). split_and!; [| | done].
  - split; rewrite ?Hc, ?Hq; try done; try apply Hl.
    + rewrite Hs', length_insert. apply Hl.
    + intros m s1. rewrite Hs'. intros [[_ [-> _]] | [_ Hs1]]%list_lookup_insert_Some; [done | by apply (lv_slot _ Hl m)].
    + intros m Hm. destruct (lv_free _ Hl m) as (s1 & Hs1 & Hd); [rewrite Hcont; by right |]. rewrite Hs'.
      rewrite list_lookup_insert_ne; [eauto | by intros ->].
    + intros m s1. rewrite Hs'. intros [[<- [-> _]] | [Hne Hs1]]%list_lookup_insert_Some; [congruence |].
      intros Hd Hm. apply (lv_retired _ Hl m s1 Hs1 Hd). rewrite Hcont. apply not_elem_of_cons. done.
    + lia.
    + simpl in Ht. lia.
  - split; [done |]. intros m s1 Hs1. rewrite Hs'. unfold retired. rewrite Hs', Hcont.
    destruct (decide (m = n)) as [-> | Hne]; [rewrite list_lookup_insert_eq by done | rewrite list_lookup_insert_ne by done].
    + split; [set_solver |]. exists s'. split; [done |]. right. simplify_eq. lia.
    + split; [set_solver |]. exists s1. split; [done |]. right. lia.
Qed.

(** A flow's slot given up: to the free list, or retired when its generation
    has wrapped. *)
Lemma lived_give tb tb' n s s' :
  lived tb -> slots_ tb !! n = Some s -> is_live s = true -> slots_ tb' = <[n := s']> (slots_ tb) ->
  capacity_ tb' = capacity_ tb -> Z.of_nat (capacity_ tb) < 2 ^ 32 - 1 ->
  size_ tb' = wrap 32 (size_ tb - 1) -> generation s' = wrap 32 (generation s + 1) -> slot_ok s' ->
  (generation s' = 0 ∧ free_ tb' = free_ tb ∧ quarantined_ tb' = wrap 32 (quarantined_ tb + 1)) ∨
  (generation s' <> 0 ∧ Slots.wf (free_ tb') ∧ FreeList.capacity_ (free_ tb') = capacity_ tb ∧
   Slots.contents (free_ tb') ≡ₚ n :: Slots.contents (free_ tb) ∧ quarantined_ tb' = quarantined_ tb) ->
  lived tb' ∧ ages tb tb' ∧ is_live s' = false ∧ dead tb' (handle_of n s).
Proof using.
  clear KL KO. intros Hl Hs Hlive Hs' Hc Hsmall Hz Hg Hok Hcase. pose proof (lookup_lt_Some _ _ _ Hs) as Hn.
  destruct (so_generation _ (lv_slot _ Hl n s Hs)) as [Hg0 Hg1].
  assert (is_live s' = false) as Hdead.
  { unfold is_live, wrap in *. rewrite Hg. destruct (Z.eq_dec (generation s) (2 ^ 32 - 1)) as [-> | Hne]; [done |].
    rewrite Z.mod_small by lia. by rewrite Z.odd_add, Hlive. }
  assert (generation s' = 0 ∨ generation s < generation s') as Hgrow.
  { unfold wrap in Hg. destruct (Z.eq_dec (generation s) (2 ^ 32 - 1)) as [Hm | Hne]; [rewrite Hm in Hg; by left |].
    rewrite Z.mod_small in Hg by lia. lia. }
  pose proof (live_count_change tb tb' n s s' Hs Hs') as Hcount. rewrite Hlive, Hdead in Hcount.
  pose proof (live_small _ Hl). pose proof (lv_size _ Hl) as Hsz. pose proof (lv_total _ Hl) as Ht.
  pose proof (lv_quarantined _ Hl) as Hq0. rewrite wrap_small in Hz by (unfold in_width; lia).
  assert (n ∉ Slots.contents (free_ tb)) as Hnin.
  { intros Hin. destruct (lv_free _ Hl n Hin) as (s0 & Hs0 & Hd). congruence. }
  assert (∀ m, m <> n -> m ∈ Slots.contents (free_ tb') <-> m ∈ Slots.contents (free_ tb)) as Hcont.
  { intros m Hm. destruct Hcase as [(_ & -> & _) | (_ & _ & _ & -> & _)]; [done |]. rewrite elem_of_cons. naive_solver. }
  assert (∀ m, m <> n -> slots_ tb' !! m = slots_ tb !! m) as Hother by (intros m Hm; rewrite Hs'; by apply list_lookup_insert_ne).
  assert (slots_ tb' !! n = Some s') as Hat by (rewrite Hs'; by apply list_lookup_insert_eq).
  assert (generation s' = 0 -> retired tb' n) as Hret.
  { intros H0. destruct Hcase as [(_ & Hf & _) | (? & _)]; [| done]. split; [by rewrite Hf | eauto]. }
  split_and!; [| | done |].
  - split; rewrite ?Hc.
    + rewrite Hs', length_insert. apply Hl.
    + destruct Hcase as [(_ & -> & _) | (_ & ? & _)]; [apply Hl | done].
    + destruct Hcase as [(_ & -> & _) | (_ & _ & ? & _)]; [apply Hl | done].
    + destruct Hcase as [(_ & -> & _) | (_ & _ & _ & -> & _)]; [apply Hl |]. apply NoDup_cons. split; [done | apply Hl].
    + intros m s0 Hs0. destruct (decide (m = n)) as [-> | Hne]; [by simplify_eq |].
      rewrite Hother in Hs0 by done. by apply (lv_slot _ Hl m).
    + intros m Hm. destruct (decide (m = n)) as [-> | Hne]; [eauto |]. rewrite Hother by done. by apply (lv_free _ Hl), Hcont.
    + intros m s0 Hs0 Hd Hm. destruct (decide (m = n)) as [-> | Hne].
      * simplify_eq. destruct Hcase as [(? & _) | (_ & _ & _ & Hp & _)]; [done |]. exfalso. apply Hm. rewrite Hp. by left.
      * rewrite Hother in Hs0 by done. apply (lv_retired _ Hl m s0 Hs0 Hd). by rewrite <- Hcont.
    + lia.
    + destruct Hcase as [(_ & _ & ->) | (_ & _ & _ & _ & ->)]; [| done]. apply wrap_range. lia.
    + destruct Hcase as [(_ & -> & ->) | (_ & _ & _ & -> & ->)]; [rewrite wrap_small by (unfold in_width; lia); lia |].
      simpl. lia.
  - split; [done |]. intros m s0 Hs0. destruct (decide (m = n)) as [-> | Hne].
    + simplify_eq. split; [intros (_ & s1 & ? & ?); congruence |]. exists s'. split; [done |].
      destruct Hgrow; [left; auto | right; lia].
    + rewrite Hother by done. split; [| exists s0; split; [done |]; right; lia].
      intros (H1 & s1 & ? & ?). split; [by rewrite Hcont |]. exists s1. by rewrite Hother.
  - unfold dead, pointer, handle_of. simpl. replace (Z.to_nat (Z.of_nat n + 1 - 1)) with n by lia.
    split; [lia |]. exists s'. split; [done |]. destruct Hgrow; [left; auto | by right].
Qed.

End Change.
End FlowChange.
