(* ===== verification/FlowOps.v ===== *)
(** * The operations of the flow table

    Creation, aliases, removal and writes through a state pointer, each on every
    branch: the result, and the flows that handles name afterwards. *)

From stdpp Require Import functions.
From S2P Require Import Prelude FlowIndex FlowProbe FlowFree FlowTable FlowSlots FlowInv FlowFind FlowChange.
Open Scope Z_scope.

Module FlowOps.
Import Probe Flow FlowInv FlowFind FlowChange.

Section Ops.
Context {TR : Traits} {Key State : Type} {KO : KeyOps Key} {KL : KeyLaws Key} {OB : FlowObserver State}.
Implicit Types (tb : t Key State) (s : Slot Key State) (n j : nat) (k : Key) (h : FlowHandle) (v : State).

(** ** One flow changes *)

Record flow_change tb h (x : option (list (option Key) * State)) tb' : Prop := {
  fc_inv : inv tb';
  fc_ages : ages tb tb';
  fc_flow h' : flow tb' h' = if decide (h' = h) then x else flow tb h'
}.

Record unchanged tb tb' : Prop := {
  un_inv : inv tb';
  un_ages : ages tb tb';
  un_flow h : flow tb' h = flow tb h
}.

(** The observer and the free slots stay. *)
Definition kept tb tb' : Prop := observer_ tb' = observer_ tb ∧ free_ tb' = free_ tb.

Definition room tb : nat := length (Slots.contents (free_ tb)).

Lemma unchanged_refl tb : inv tb -> unchanged tb tb.
Proof using. intros Hi. split; [done | apply flow_ages_refl | done]. Qed.

(** Only the observer's own state differs. *)
Lemma unchanged_observer tb o : inv tb -> unchanged tb (with_observer o tb).
Proof using.
  intros (g & Hk & Hl). split; [exists g; split; [done |]; destruct Hl; by split | | done].
  split; [done |]. intros n s Hs. split; [done |]. exists s. split; [done |]. right. lia.
Qed.

(** ** Masks of keys *)

Lemma mask_bits (m : Z) j : 0 <= m < 4 ->
  Z.testbit m (Z.of_nat j) = match j with O => Z.testbit m 0 | 1%nat => Z.testbit m 1 | _ => false end.
Proof using.
  intros Hm. destruct j as [| [| j]]; [done.. |].
  assert (m = 0 ∨ m = 1 ∨ m = 2 ∨ m = 3) as [-> | [-> | [-> | ->]]] by lia;
    rewrite ?Z.bits_0; try done; apply Z.bits_above_log2; simpl; lia.
Qed.

Lemma in_use_insert (l : list (Slot Key State)) n s n' j :
  (n < length l)%nat -> in_use (<[n := s]> l) n' j = if decide (n' = n) then has_key s j else in_use l n' j.
Proof using.
  intros Hn. unfold in_use. destruct (decide (n' = n)) as [-> | Hne]; [by rewrite list_lookup_insert_eq |].
  by rewrite list_lookup_insert_ne.
Qed.

(** ** Writes through a pointer *)

Lemma slot_ok_value s v : slot_ok s -> is_live s = true -> slot_ok (set_value (Some v) s).
Proof using.
  intros [H1 H2 H3 H4] Hl. split; try done. intros Hl'. split; [by apply H3 | by eexists].
Qed.

Lemma store_spec tb h ks v0 v :
  inv tb -> flow tb h = Some (ks, v0) ->
  ∃ tb', store tb (pointer h) v = Ret tb' ∧ flow_change tb h (Some (ks, v)) tb' ∧ kept tb tb'.
Proof using.
  intros Hi Hf. destruct (flow_Some _ _ _ _ Hf) as (s & Hs & Hlive & Hv & -> & Hh & _).
  destruct Hi as (g & Hk & Hl). unfold store. rewrite (slot_at _ _ _ Hs). cbn [mbind run_bind].
  unfold state_of. rewrite Hv. cbn [mbind mret run_bind run_ret]. rewrite (slot_upd_ok _ _ _ _ Hs).
  eexists. split; [done |]. pose proof (lookup_lt_Some _ _ _ Hs) as Hn.
  set (s' := set_value (Some v) s). set (tb' := with_slots _ tb).
  destruct (lived_same tb tb' (pointer h) s s' Hl Hs) as [Hl' Ha]; try done;
    [apply slot_ok_value; [by apply (lv_slot _ Hl (pointer h)) | done] |].
  split; [| done]. split; [exists g; split; [| done] | done |].
  - eapply index_keyed_ext; [done | apply length_insert | |].
    + intros n s0 s1 Hs0 [[<- [<- _]] | [_ Hs1]]%list_lookup_insert_Some; simplify_eq; done.
    + intros n j. cbn [slots_ tb' with_slots]. rewrite in_use_insert by done. case_decide; [subst n; unfold in_use; by rewrite Hs | done].
  - intros h'. pose proof (flow_set tb tb' (pointer h) s s' Hs eq_refl eq_refl (lv_length _ Hl) v Hlive eq_refl (fun _ => eq_refl) h') as ->.
    change (handle_of (pointer h) s') with (handle_of (pointer h) s). by rewrite <- Hh.
Qed.

(** ** Creation *)

Section Creation.
Context (tb : t Key State) (g : gmap Z place) (n : nat) (s : Slot Key State) (k : Key) (v : State).
Context (Hk : keyed (index_ tb) (slots_ tb) (in_use (slots_ tb)) g) (Hl : lived tb).
Context (Hs : slots_ tb !! n = Some s) (Hdead : is_live s = false).
Context (Hnew : ∀ n' j' k', here (slots_ tb) (in_use (slots_ tb)) n' j' k' -> equal k' k = false).

(** The slot and the directory once the keys are stored. *)
Definition keys_stored (alias : option Key) (ix : Index.t) (s' : Slot Key State) : Prop :=
  Index.count_ ix = Index.count_ (index_ tb) ∧
  (∃ g', keyed ix (<[n := s']> (slots_ tb)) (in_use (<[n := s']> (slots_ tb))) g') ∧
  generation s' = generation s ∧ value s' = Some v ∧
  key_mask s' = (match alias with None => 1 | Some _ => 3 end) ∧
  keys s' = (match alias with None => <[0%nat := Some k]> (keys s)
                            | Some a => <[1%nat := Some a]> (<[0%nat := Some k]> (keys s)) end).

Lemma free_mask j : has_key s j = false.
Proof using Hl Hs Hdead.
  unfold has_key. by rewrite (so_free _ (lv_slot _ Hl n s Hs) Hdead), Z.bits_0.
Qed.

Lemma store_first :
  ∃ ix, Index.Insert (index_ tb) (Locate tb k) (kid_of n 0) = Ret (true, ix) ∧
    keys_stored None ix (set_mask 1 (StoreKey 0 k (set_value (Some v) s))).
Proof using Hk Hl Hs Hdead Hnew KL.
  set (s' := set_mask 1 _). pose proof (lookup_lt_Some _ _ _ Hs) as Hn.
  destruct (keyed_add _ _ _ _ Hk n 0 k s s') as (ix & g' & Hi & Hk' & Hc); try done.
  { unfold kKeysPerSlot. lia. }
  { unfold in_use. rewrite Hs. apply free_mask. }
  exists ix. split; [done |]. split; [done |]. split; [| done]. exists g'.
  eapply index_keyed_ext; [done | done | by intros; simplify_eq |]. intros n' j. rewrite in_use_insert by done.
  case_decide as Hd; [subst n'; rewrite fn_lookup_insert | by rewrite fn_lookup_insert_ne].
  change (has_key s' j) with (Z.testbit 1 (Z.of_nat j)). rewrite mask_bits by lia. destruct j as [| [| j]]; [by rewrite fn_lookup_insert | ..];
    (rewrite fn_lookup_insert_ne by done); unfold in_use; by rewrite Hs, free_mask.
Qed.

Lemma store_second ix s1 a :
  (0 < kAliases)%nat -> keys_stored None ix s1 -> equal k a = false ->
  (∀ n' j' k', here (slots_ tb) (in_use (slots_ tb)) n' j' k' -> equal k' a = false) ->
  ∃ ix', Index.Insert ix (Locate tb a) (kid_of n 1) = Ret (true, ix') ∧
    keys_stored (Some a) ix' (set_mask 3 (StoreKey 1 a s1)).
Proof using Hs Hl Hdead KL.
  intros Hal (Hc & (g' & Hk') & Hg & Hv & Hm & Hkeys) Hka Hna. set (s' := set_mask 3 _).
  pose proof (lookup_lt_Some _ _ _ Hs) as Hn.
  assert (∀ j, has_key s1 j = match j with O => true | _ => false end) as Hbits.
  { intros j. unfold has_key. rewrite Hm, mask_bits by lia. by destruct j as [| [| j]]. }
  destruct (keyed_add _ _ _ _ Hk' n 1 a s1 s') as (ix' & g2 & Hi & Hk2 & Hc2); try done.
  { by apply list_lookup_insert_eq. }
  { unfold kKeysPerSlot. lia. }
  { rewrite in_use_insert by done. rewrite decide_True by done. apply Hbits. }
  { intros n' j' k' (Hu & s0 & Hs0 & Hk0). rewrite in_use_insert in Hu by done.
    destruct (decide (n' = n)) as [-> | Hne].
    - rewrite list_lookup_insert_eq in Hs0 by done. injection Hs0 as <-. rewrite Hbits in Hu.
      destruct j'; [| done]. rewrite Hkeys in Hk0. apply list_lookup_insert_Some in Hk0 as [(_ & [= <-] & _) | [? _]]; done.
    - rewrite list_lookup_insert_ne in Hs0 by done. apply (Hna n' j' k'). split; [done |]. eauto. }
  exists ix'. unfold Locate. replace (Index.Split (index_ tb) (hash a)) with (Index.Split ix (hash a))
    by (unfold Index.Split; by rewrite Hc).
  split; [done |]. split; [congruence |]. split; [| split_and!; try done; simpl; by rewrite Hkeys].
  exists g2. rewrite list_insert_insert_eq in Hk2. eapply index_keyed_ext; [done | done | by intros; simplify_eq |].
  intros n' j. rewrite in_use_insert by done.
  case_decide as Hd; [subst n'; rewrite fn_lookup_insert |
    rewrite fn_lookup_insert_ne, in_use_insert by done; by rewrite decide_False].
  change (has_key s' j) with (Z.testbit 3 (Z.of_nat j)). rewrite mask_bits by lia. destruct j as [| [| j]]; [| by rewrite fn_lookup_insert |];
    (rewrite fn_lookup_insert_ne by done); rewrite in_use_insert, decide_True, Hbits by done; done.
Qed.

End Creation.
(** The keys of a new flow. *)
Definition new_keys k (alias : option Key) : list (option Key) :=
  let l := <[0%nat := Some k]> (replicate kKeysPerSlot None) in
  match alias with None => l | Some a => <[1%nat := Some a]> l end.

Lemma used_new tb n s k v alias ix s' :
  length (keys s) = kKeysPerSlot -> keys_stored tb n s k v alias ix s' -> used s' = new_keys k alias.
Proof using.
  intros Hlen (_ & _ & _ & _ & Hm & Hkeys). apply list_eq. intros j. rewrite used_lookup. unfold has_key.
  assert (keys s' !! j = match alias, j with _, O => (<[0%nat := Some k]> (keys s)) !! 0%nat
    | Some a, 1%nat => (<[1%nat := Some a]> (keys s)) !! 1%nat | _, _ => keys s !! j end) as Hj.
  { rewrite Hkeys. destruct alias, j as [| [| j]]; rewrite ?(list_lookup_insert_ne _ 1), ?(list_lookup_insert_ne _ 0) by done; try done.
    destruct (decide (1 < length (keys s))%nat); [rewrite !list_lookup_insert_eq; rewrite ?length_insert; done |].
    rewrite !lookup_ge_None_2; rewrite ?length_insert; try done; lia. }
  assert (∀ i x (l1 l2 : list (option Key)), length l1 = length l2 -> (<[i := x]> l1) !! i = (<[i := x]> l2) !! i) as Hins.
  { intros i x l1 l2 Hl12. destruct (decide (i < length l1)%nat); [rewrite !list_lookup_insert_eq by lia; done |].
    rewrite !lookup_ge_None_2; rewrite ?length_insert; done || lia. }
  assert (∀ i, (fun _ : option Key => None) <$> keys s !! i = (replicate kKeysPerSlot (@None Key)) !! i) as Hrep.
  { intros i. destruct (keys s !! i) eqn:Hi.
    - transitivity (Some (@None Key)); [done |]. symmetry. apply lookup_replicate_2. rewrite <- Hlen. by eapply lookup_lt_Some.
    - transitivity (@None (option Key)); [done |]. symmetry. apply lookup_ge_None_2. rewrite length_replicate, <- Hlen. by apply lookup_ge_None. }
  rewrite Hm, Hj. unfold new_keys. destruct alias as [a |]; rewrite mask_bits by lia; destruct j as [| [| j]]; simpl Z.testbit; cbn iota;
    rewrite ?(list_lookup_insert_ne _ 1), ?(list_lookup_insert_ne _ 0) by done; try apply Hrep;
    try (apply Hins; rewrite ?length_insert, length_replicate; done).
Qed.

Definition alias_bad tb k (alias : option Key) : Prop :=
  match alias with None => False | Some a => equal k a = true ∨ ∃ h j, names tb a h j end.

Lemma found_none tb k kid : inv tb -> key_found tb k kid -> kid = Index.kNone <-> ∀ h j, ¬ names tb k h j.
Proof using.
  intros Hi Hf. rewrite unnamed by done. destruct Hf as [(n & j & k' & -> & Hh & He) | [-> Hno]]; [| done].
  pose proof Hi as (g & Hk & _). destruct (here_kid _ _ _ _ Hk _ _ _ Hh) as (_ & _ & Hne). split; [done |].
  intros Hno. by rewrite (Hno _ _ _ Hh) in He.
Qed.

Lemma alias_refused_spec tb k alias :
  inv tb -> ∃ b, alias_refused tb k alias = Ret b ∧ (b = true <-> alias_bad tb k alias).
Proof using KL.
  intros Hi. destruct alias as [a |]; simpl; [| by exists false].
  destruct (equal k a) eqn:He; [exists true; split; [done |]; naive_solver |].
  destruct (FindKid_spec tb a Hi) as (kid & Hkid & Hf). rewrite Hkid. eexists. split; [done |].
  rewrite negb_true_iff, bool_decide_eq_false, (found_none tb a kid Hi Hf). split.
  - intros Hn. right. destruct Hf as [(n & j & k' & _ & Hh & Hek) | [-> Hno]].
    + destruct (here_names tb n j a k' Hi Hh Hek) as (s & _ & _ & Hnm). eauto.
    + exfalso. apply Hn. by apply unnamed.
  - intros [? | (h & j & Hn)] Hno; [done | by apply (Hno h j)].
Qed.

(** ** [Emplace] and [EmplaceAliased] *)

Definition emplaced tb k alias v (r : EmplaceResult) tb' : Prop :=
  match e_status r with
  | kExists => ∃ j, names tb k (e_handle r) j ∧ e_state r = Some (pointer (e_handle r)) ∧ tb' = tb
  | kAliasExists => (∀ h j, ¬ names tb k h j) ∧ alias_bad tb k alias ∧
                    r = mk_emplaced None kNoFlow kAliasExists ∧ tb' = tb
  | kFull => (∀ h j, ¬ names tb k h j) ∧ ¬ alias_bad tb k alias ∧ full tb = true ∧
             r = mk_emplaced None kNoFlow kFull ∧ tb' = with_observer (OnFull (observer_ tb)) tb
  | kCreated => (∀ h j, ¬ names tb k h j) ∧ ¬ alias_bad tb k alias ∧ full tb = false ∧
                in_width 32 (id (e_handle r)) ∧ id (e_handle r) <> 0 ∧ Z.odd (h_generation (e_handle r)) = true ∧
                room tb = S (room tb') ∧ e_state r = Some (pointer (e_handle r)) ∧ ¬ dead tb (e_handle r) ∧ flow tb (e_handle r) = None ∧
                ∃ v', (observer_ tb', v') = OnCreate (observer_ tb) (e_handle r) v ∧
                      flow_change tb (e_handle r) (Some (new_keys k alias, v')) tb'
  | kPlacementFailed => False
  end.

Lemma insert_key_ok tb hs kid ix :
  Index.Insert (index_ tb) hs kid = Ret (true, ix) -> insert_key tb hs kid = Ret (with_index ix tb).
Proof using. intros Hi. unfold insert_key. by rewrite Hi. Qed.

(** Storing the keys in a free slot, as the code goes about it. *)
Lemma keys_put {R} tb g n s k v alias f (rest : t Key State -> run R) :
  keyed (index_ tb) (slots_ tb) (in_use (slots_ tb)) g -> lived tb -> slots_ tb !! n = Some s -> is_live s = false ->
  (∀ n' j' k', here (slots_ tb) (in_use (slots_ tb)) n' j' k' -> equal k' k = false) ->
  match alias with
  | None => True
  | Some a => (0 < kAliases)%nat ∧ equal k a = false ∧
              ∀ n' j' k', here (slots_ tb) (in_use (slots_ tb)) n' j' k' -> equal k' a = false
  end ->
  ∃ ix s', keys_stored tb n s k v alias ix s' ∧
    (tb1 ← upd (with_free f (with_slots (<[n := set_value (Some v) s]> (slots_ tb)) tb)) n
             (fun s => set_mask 1 (StoreKey 0 k s));
     tb2 ← insert_key tb1 (Locate tb k) (kid_of n 0);
     tb4 ← match alias with
           | None => mret tb2
           | Some a => tb3 ← upd tb2 n (fun s => set_mask 3 (StoreKey 1 a s)); insert_key tb3 (Locate tb a) (kid_of n 1)
           end;
     rest tb4) = rest (with_index ix (with_free f (with_slots (<[n := s']> (slots_ tb)) tb))).
Proof using KL.
  intros Hk Hl Hs Hdead Hnew Hal. pose proof (lookup_lt_Some _ _ _ Hs) as Hn.
  destruct (store_first tb g n s k v Hk Hl Hs Hdead Hnew) as (ix & Hix & Hst).
  erewrite slot_upd_ok by (cbn [slots_ with_free with_slots]; by apply list_lookup_insert_eq). cbn [mbind mret run_bind run_ret].
  erewrite insert_key_ok by exact Hix. cbn [mbind mret run_bind run_ret slots_ with_free with_slots].
  rewrite list_insert_insert_eq. destruct alias as [a |]; [| by exists ix, (set_mask 1 (StoreKey 0 k (set_value (Some v) s)))].
  destruct Hal as (Ha & Hka & Hna). destruct (store_second tb n s k v Hl Hs Hdead ix _ a Ha Hst Hka Hna) as (ix' & Hix' & Hst').
  eexists ix', _. split; [done |].
  erewrite slot_upd_ok by (cbn [slots_ with_index with_free with_slots]; by apply list_lookup_insert_eq). cbn [mbind mret run_bind run_ret].
  erewrite insert_key_ok by exact Hix'. cbn [mbind mret run_bind run_ret slots_ with_index with_free with_slots].
  by rewrite list_insert_insert_eq.
Qed.

Lemma stored_ok tb n s k v alias ix s' v' :
  slot_ok s -> is_live s = false -> keys_stored tb n s k v alias ix s' ->
  generation (set_generation (generation s' + 1) s') = generation s + 1 ∧
  slot_ok (set_value (Some v') (set_generation (generation s' + 1) s')).
Proof using.
  intros [[Hg0 Hg1] _ _ _] Hdead (_ & _ & Hg & _ & Hm & _). unfold is_live in Hdead.
  assert (generation (set_generation (generation s' + 1) s') = generation s + 1) as He.
  { simpl. rewrite Hg. apply wrap_small. unfold in_width. destruct (Z.eq_dec (generation s) (2 ^ 32 - 1)) as [H1 |]; [by rewrite H1 in Hdead | lia]. }
  split; [done |]. assert (is_live (set_generation (generation s' + 1) s') = true) as Hlive.
  { unfold is_live. by rewrite He, Z.odd_add, Hdead. }
  split.
  - simpl. apply wrap_range. lia.
  - simpl. rewrite Hm. destruct alias; unfold in_width; lia.
  - intros _. split; [unfold has_key; simpl; rewrite Hm; by destruct alias | by eexists].
  - intros Hd. exfalso. unfold is_live in *. simpl in *. congruence.
Qed.

Lemma alias_fresh tb k alias :
  inv tb -> (alias <> None -> (0 < kAliases)%nat) -> ¬ alias_bad tb k alias ->
  match alias with
  | None => True
  | Some a => (0 < kAliases)%nat ∧ equal k a = false ∧
              ∀ n' j' k', here (slots_ tb) (in_use (slots_ tb)) n' j' k' -> equal k' a = false
  end.
Proof using.
  intros Hi Ha Hbad. destruct alias as [a |]; [| done]. simpl in Hbad. split; [by apply Ha |]. split.
  - destruct (equal k a); [exfalso; auto | done].
  - apply unnamed; [done |]. intros h j Hn. apply Hbad. right. eauto.
Qed.

(** The slot once its flow is created. *)
Lemma created_flow tb n s k v alias ix s' rest f v' o tb' :
  inv tb -> slots_ tb !! n = Some s -> Slots.contents (free_ tb) = n :: rest ->
  Slots.wf f -> FreeList.capacity_ f = capacity_ tb -> Slots.contents f = rest ->
  keys_stored tb n s k v alias ix s' ->
  tb' = mk ix (<[n := set_value (Some v') (set_generation (generation s' + 1) s')]> (slots_ tb)) f (capacity_ tb)
          (wrap 32 (size_ tb + 1)) (quarantined_ tb) o ->
  let h := handle_of n (set_generation (generation s' + 1) s') in
  flow_change tb h (Some (new_keys k alias, v')) tb' ∧ Z.odd (h_generation h) = true ∧ ¬ dead tb h ∧ flow tb h = None.
Proof using.
  clear KL. intros Hi Hs Hcont Hwf Hfc Hrest Hst Htb' h. destruct (capacity_small _ Hi) as [_ Hcap].
  destruct Hi as (g & Hk & Hl). pose proof (lookup_lt_Some _ _ _ Hs) as Hn.
  destruct (lv_free _ Hl n) as (s0 & Hs0 & Hdead); [rewrite Hcont; by left |]. rewrite Hs in Hs0. injection Hs0 as <-.
  destruct (stored_ok _ _ _ _ _ _ _ _ v' (lv_slot _ Hl n s Hs) Hdead Hst) as [Hg Hok].
  set (s2 := set_value (Some v') _) in *. pose proof Hst as (_ & (g' & Hk') & _ & _ & Hm & Hkeys).
  destruct (lived_take tb tb' n rest s s2) as (Hl' & Ha & Hlive); subst tb'; try done.
  pose proof (flow_set tb (mk ix (<[n := s2]> (slots_ tb)) f (capacity_ tb) (wrap 32 (size_ tb + 1)) (quarantined_ tb) o)
                n s s2 Hs eq_refl eq_refl (lv_length _ Hl) v' Hlive eq_refl ltac:(congruence)) as Hflow.
  change (handle_of n s2) with h in Hflow.
  assert (used s2 = new_keys k alias) as Hu.
  { rewrite <- (used_new tb n s k v alias ix s' (kd_shape _ _ _ _ Hk n s Hs) Hst). done. }
  rewrite Hu in Hflow. split_and!; [split; [exists g' | ..]; try done | done | |].
  - split; [| done]. cbn [slots_ index_]. eapply index_keyed_ext; [exact Hk' | by rewrite !length_insert | |].
    + intros m a b Ha1 Hb1. cbn [slots_] in Hb1.
      destruct (decide (m = n)) as [-> | Hne]; [rewrite list_lookup_insert_eq in Ha1, Hb1 by done | rewrite list_lookup_insert_ne in Ha1, Hb1 by done];
        simplify_eq; done.
    + intros m j. cbn [slots_]. rewrite !in_use_insert by done. by case_decide.
  - unfold dead, pointer, h, handle_of. cbn [id h_generation]. replace (Z.to_nat (Z.of_nat n + 1 - 1)) with n by lia.
    intros (_ & s1 & Hs1 & [(Hnin & _) | Hlt]); [apply Hnin; rewrite Hcont; by left |]. rewrite Hs in Hs1. injection Hs1 as <-. rewrite Hg in Hlt. lia.
  - destruct (flow tb h) as [[ks v0] |] eqn:Hf; [exfalso | done]. apply flow_Some in Hf as (s1 & Hs1 & Hl1 & _).
    unfold pointer, h, handle_of in Hs1. cbn [id] in Hs1. replace (Z.to_nat (Z.of_nat n + 1 - 1)) with n in Hs1 by lia. congruence.
Qed.

Lemma found_exists tb k kid :
  inv tb -> key_found tb k kid -> kid <> Index.kNone ->
  ∃ h j, names tb k h j ∧ kid_slot kid = pointer h ∧ kid_key kid = j ∧ HandleOf tb (kid_slot kid) = Ret h.
Proof using.
  intros Hi [(n & j & k' & -> & Hh & He) | [-> _]] Hne; [| done]. pose proof Hi as (g & Hk & _).
  destruct (here_kid _ _ _ _ Hk _ _ _ Hh) as (-> & -> & _). destruct (here_names tb n j k k' Hi Hh He) as (s & Hs & Hlive & Hn).
  exists (handle_of n s), j. destruct (flow_at tb n s Hi Hs Hlive) as (_ & _ & _ & Hp). split; [done |]. rewrite (HandleOf_ok _ _ _ Hi Hs).
  split_and!; [by symmetry | done | done].
Qed.

Lemma CreateImpl_spec tb k alias v :
  inv tb -> (alias <> None -> (0 < kAliases)%nat) ->
  ∃ r tb', CreateImpl tb k alias v = Ret (r, tb') ∧ emplaced tb k alias v r tb'.
Proof using KL.
  intros Hi Hal. unfold CreateImpl. destruct (FindKid_spec tb k Hi) as (kid & Hkid & Hf). rewrite Hkid.
  cbn [mbind mret run_bind run_ret]. destruct (bool_decide (kid = Index.kNone)) eqn:Hnone; cbn [negb].
  2: { apply bool_decide_eq_false in Hnone. destruct (found_exists tb k kid Hi Hf Hnone) as (h & j & Hn & Hp & _ & Hh).
    rewrite Hh. eexists _, _. split; [done |]. exists j. by rewrite Hp. }
  apply bool_decide_eq_true in Hnone. pose proof (proj1 (found_none tb k kid Hi Hf) Hnone) as Hno.
  destruct (alias_refused_spec tb k alias Hi) as (b & -> & Hb). cbn [mbind mret run_bind run_ret].
  destruct b; [eexists _, _; split; [done |]; split_and!; try done; by apply Hb |].
  assert (¬ alias_bad tb k alias) as Hgood by (intros Hbad; by apply Hb in Hbad).
  destruct (FreeList.empty (free_ tb)) eqn:Hfull; [eexists _, _; split; [done |]; by split_and! |].
  pose proof Hi as (g & Hk & Hl). pose proof Hfull as Hcont. rewrite (Slots.empty_spec _ (lv_list _ Hl)), bool_decide_eq_false in Hcont.
  destruct (Slots.take_one _ (lv_list _ Hl) Hcont) as (n & rest & Hpeek & Hc & Hwf & Hrest).
  destruct (lv_free _ Hl n) as (s & Hs & Hdead); [rewrite Hc; by left |].
  rewrite Hpeek. cbn [mbind mret run_bind run_ret]. rewrite (slot_upd_ok _ _ _ _ Hs). cbn [mbind mret run_bind run_ret].
  match goal with |- ∃ r tb', (upd _ n _ ≫= fun tb1 => insert_key tb1 _ _ ≫= fun tb2 => _ ≫= ?rest') = _ ∧ _ =>
    destruct (keys_put tb g n s k v alias (FreeList.Pop (free_ tb)) rest' Hk Hl Hs Hdead
                (proj1 (unnamed tb k Hi) Hno) (alias_fresh tb k alias Hi Hal Hgood)) as (ix & s' & Hst & Hrun) end.
  cbn [free_ with_slots] in *. unfold Locate in *. rewrite Hrun. clear Hrun. pose proof (lookup_lt_Some _ _ _ Hs) as Hn.
  erewrite slot_upd_ok by (cbn [slots_ with_index with_free with_slots]; by apply list_lookup_insert_eq). cbn [mbind mret run_bind run_ret].
  cbn [slots_ with_index with_free with_slots with_size size_ quarantined_ observer_]. rewrite list_insert_insert_eq.
  set (s2 := set_generation _ s'). destruct (capacity_small _ Hi) as [_ Hcap]. pose proof (lv_length _ Hl) as Hlen.
  unfold HandleOf at 1. erewrite slot_at by (cbn [slots_ with_size with_slots]; by apply list_lookup_insert_eq).
  cbn [mbind mret run_bind run_ret]. rewrite wrap_small by (unfold in_width; lia). change (mk_handle _ _) with (handle_of n s2).
  destruct (OnCreate (observer_ tb) (handle_of n s2) v) as [o v'] eqn:Hobs.
  erewrite slot_upd_ok by (cbn [slots_ with_size with_slots]; by apply list_lookup_insert_eq). cbn [mbind mret run_bind run_ret].
  eexists _, _. split; [done |]. cbn [slots_ with_index with_free with_slots with_size size_ quarantined_ observer_].
  rewrite list_insert_insert_eq.
  assert (FreeList.capacity_ (FreeList.Pop (free_ tb)) = capacity_ tb) as Hfc.
  { rewrite <- (lv_capacity _ Hl). unfold FreeList.Pop. by destruct (FreeList.reuse_ (free_ tb)). }
  destruct (created_flow tb n s k v alias ix s' rest _ v' o _ Hi Hs Hc Hwf Hfc Hrest Hst eq_refl) as (Hch & Hodd & Hnd & Hnf).
  unfold emplaced. cbn [e_status e_handle e_state]. split_and!; try done.
  - unfold in_width, handle_of. cbn [id]. lia.
  - unfold handle_of. cbn [id]. lia.
  - unfold room. rewrite Hc, <- Hrest. done.
  - unfold pointer, handle_of. cbn [id]. f_equal. lia.
  - exists v'. split; [done | exact Hch].
Qed.

End Ops.
End FlowOps.
