(* ===== verification/FlowErase.v ===== *)
(** * Removing flows and aliases

    Adding and removing an alias, and removing a flow by key or by handle, on
    every branch. *)

From stdpp Require Import functions.
From S2P Require Import Prelude FlowIndex FlowProbe FlowFree FlowTable FlowSlots FlowInv FlowFind FlowChange FlowOps.
Open Scope Z_scope.

Module FlowErase.
Import Probe Flow FlowInv FlowFind FlowChange FlowOps.

Section Erase.
Context {TR : Traits} {Key State : Type} {KO : KeyOps Key} {KL : KeyLaws Key} {OB : FlowObserver State}.
Implicit Types (tb : t Key State) (s : Slot Key State) (n j : nat) (k : Key) (h : FlowHandle) (v : State).

Lemma erase_key_ok tb hs kid ix :
  Index.Erase (index_ tb) hs kid = Ret (true, ix) -> erase_key tb hs kid = Ret (with_index ix tb).
Proof using. intros Hi. unfold erase_key. by rewrite Hi. Qed.

(** ** The keys of a slot *)

Lemma erase_keys_spec tb n s : slots_ tb !! n = Some s ->
  ∀ todo j ix hk g,
  keyed ix (slots_ tb) hk g -> Index.count_ ix = Index.count_ (index_ tb) ->
  (∀ n' j', hk n' j' = in_use (slots_ tb) n' j' && negb (bool_decide (n' = n ∧ (j' < j)%nat))) ->
  ∃ ix' hk' g', erase_keys todo j (with_index ix tb) n = Ret (with_index ix' tb) ∧ keyed ix' (slots_ tb) hk' g' ∧
    (∀ n' j', hk' n' j' = in_use (slots_ tb) n' j' && negb (bool_decide (n' = n ∧ (j' < j + todo)%nat))).
Proof using.
  intros Hs. induction todo as [| todo IH]; intros j ix hk g Hk Hc Hhk.
  { exists ix, hk, g. split; [done |]. split; [done |]. intros n' j'. by rewrite Nat.add_0_r. }
  cbn [erase_keys]. erewrite slot_at by exact Hs. cbn [mbind run_bind].
  replace (j + S todo)%nat with (S j + todo)%nat by lia. destruct (has_key s j) eqn:Hj.
  - assert (hk n j = true) as Hu.
    { rewrite Hhk. unfold in_use. rewrite Hs, Hj. rewrite bool_decide_eq_false_2 by lia. done. }
    destruct (kd_dom _ _ _ _ Hk n j Hu) as [k Hh]. pose proof Hh as (_ & s0 & Hs0 & Hkey). simplify_eq.
    destruct (keyed_remove _ _ _ _ Hk n j k Hh) as (ix' & Hix & Hk' & Hc'). unfold key_at. rewrite (at_lookup _ _ _ Hkey).
    cbn [mbind run_bind mret run_ret]. unfold Locate. erewrite erase_key_ok by exact Hix. cbn [mbind run_bind].
    apply (IH (S j) ix' _ _ Hk' ltac:(congruence)). intros n' j'.
    destruct (decide (n' = n)) as [-> | Hne]; [rewrite fn_lookup_insert | rewrite fn_lookup_insert_ne, Hhk by done; f_equal; f_equal; apply bool_decide_ext; naive_solver].
    destruct (decide (j' = j)) as [-> | Hnj]; [rewrite fn_lookup_insert, bool_decide_eq_true_2, andb_false_r by lia; done |].
    rewrite fn_lookup_insert_ne, Hhk by done. f_equal. f_equal. apply bool_decide_ext. lia.
  - apply (IH (S j) ix hk g Hk Hc). intros n' j'. rewrite Hhk.
    destruct (decide (n' = n ∧ j' = j)) as [[-> ->] | Hne]; [unfold in_use; by rewrite Hs, Hj |].
    f_equal. f_equal. apply bool_decide_ext. destruct (decide (n' = n)); [| naive_solver]. assert (j' <> j) by naive_solver. lia.
Qed.

(** ** The slot *)

Definition freed s : Slot Key State :=
  set_generation (generation s + 1) (set_value None (set_mask 0 s)).

Lemma freed_ok s : is_live (freed s) = false -> slot_ok (freed s).
Proof using.
  intros Hd. split; simpl; [apply wrap_range; lia | apply wrap_range; lia | by rewrite Hd | done].
Qed.

Lemma freed_dead s : in_width 32 (generation s) -> is_live s = true -> is_live (freed s) = false.
Proof using.
  unfold is_live, freed, in_width. simpl. intros Hw Hl. unfold wrap.
  destruct (Z.eq_dec (generation s) (2 ^ 32 - 1)) as [-> | Hne]; [done |].
  rewrite Z.mod_small by lia. by rewrite Z.odd_add, Hl.
Qed.

Definition erased tb h v tb' : Prop :=
  flow_change tb h None tb' ∧ dead tb' h ∧ observer_ tb' = OnErase (observer_ tb) h v ∧
  room tb' = if bool_decide (h_generation h = 2 ^ 32 - 1) then room tb else S (room tb).

Lemma erased_slot tb g n s ix f z q o tb' :
  inv tb -> slots_ tb !! n = Some s -> is_live s = true ->
  keyed ix (slots_ tb) (fun n' j' => in_use (slots_ tb) n' j' && negb (bool_decide (n' = n))) g ->
  tb' = mk ix (<[n := freed s]> (slots_ tb)) f (capacity_ tb) z q o ->
  z = wrap 32 (size_ tb - 1) ->
  (wrap 32 (generation s + 1) = 0 ∧ f = free_ tb ∧ q = wrap 32 (quarantined_ tb + 1)) ∨
  (wrap 32 (generation s + 1) <> 0 ∧ Slots.wf f ∧ FreeList.capacity_ f = capacity_ tb ∧
   Slots.contents f ≡ₚ n :: Slots.contents (free_ tb) ∧ q = quarantined_ tb) ->
  flow_change tb (handle_of n s) None tb' ∧ dead tb' (handle_of n s).
Proof using.
  clear KL. intros Hi Hs Hlive Hk Htb' Hz Hcase. destruct (capacity_small _ Hi) as [_ Hcap].
  destruct Hi as (g0 & _ & Hl). pose proof (lookup_lt_Some _ _ _ Hs) as Hn.
  pose proof (freed_dead s (so_generation _ (lv_slot _ Hl n s Hs)) Hlive) as Hdead.
  destruct (lived_give tb tb' n s (freed s)) as (Hl' & Ha & _ & Hd); try (subst tb'; done); [by apply freed_ok |].
  assert (slots_ tb' = <[n := freed s]> (slots_ tb)) as Hs' by by subst tb'.
  split; [split; [exists g | done |] | done].
  - split; [| done]. rewrite Hs'. subst tb'. cbn [index_]. eapply index_keyed_ext; [exact Hk | apply length_insert | |].
    + intros m a b Ha1 Hb1. destruct (decide (m = n)) as [-> | Hne];
        [rewrite list_lookup_insert_eq in Hb1 by done | rewrite list_lookup_insert_ne in Hb1 by done]; simplify_eq; done.
    + intros m j. rewrite in_use_insert by done. case_decide as Hm.
      * rewrite bool_decide_eq_true_2, andb_false_r by done. unfold has_key. apply Z.bits_0.
      * by rewrite bool_decide_eq_false_2, andb_true_r by done.
  - apply (flow_drop tb tb' n s (freed s) Hs Hs'); [by subst tb' | apply Hl | done].
Qed.

Lemma free_room tb n s :
  lived tb -> slots_ tb !! n = Some s -> is_live s = true -> (FreeList.count_ (free_ tb) < FreeList.capacity_ (free_ tb))%nat.
Proof using.
  clear KL. intros Hl Hs Hlive. rewrite <- (Slots.contents_length _ (lv_list _ Hl)), (lv_capacity _ Hl).
  pose proof (lv_total _ Hl). pose proof (lv_size _ Hl). pose proof (lv_quarantined _ Hl).
  assert (s ∈ filter (fun s => is_live s = true) (slots_ tb)) as Hin.
  { apply list_elem_of_filter. split; [done |]. by eapply list_elem_of_lookup_2. }
  unfold live_count in *. destruct (filter _ _); [by apply not_elem_of_nil in Hin |]. simpl in *. lia.
Qed.

(** A slot is retired when its last generation ends. *)
Lemma retires s : in_width 32 (generation s) -> bool_decide (generation s = 2 ^ 32 - 1) = true <-> wrap 32 (generation s + 1) = 0.
Proof using.
  unfold in_width, wrap. intros Hw. rewrite bool_decide_eq_true. split; [by intros -> |]. intros H0.
  destruct (Z.eq_dec (generation s) (2 ^ 32 - 1)); [done |]. rewrite Z.mod_small in H0 by lia. lia.
Qed.

Lemma EraseSlot_spec tb h ks v :
  inv tb -> flow tb h = Some (ks, v) -> ∃ tb', EraseSlot tb (pointer h) = Ret tb' ∧ erased tb h v tb'.
Proof using.
  clear KL. intros Hi Hf. destruct (flow_Some _ _ _ _ Hf) as (s & Hs & Hlive & Hv & _ & Hh & _). set (n := pointer h) in *. clearbody n. subst h.
  unfold EraseSlot. rewrite (slot_at _ _ _ Hs). cbn [mbind run_bind]. unfold state_of. rewrite Hv. cbn [mbind mret run_bind run_ret].
  rewrite (HandleOf_ok _ _ _ Hi Hs). cbn [mbind run_bind]. set (o := OnErase _ _ _).
  pose proof Hi as (g & Hk & Hl). pose proof (lookup_lt_Some _ _ _ Hs) as Hn.
  destruct (erase_keys_spec (with_observer o tb) n s Hs kKeysPerSlot 0 (index_ tb) _ g Hk eq_refl) as (ix & hk' & g' & Hrun & Hk' & Hhk).
  { intros n' j'. by rewrite bool_decide_eq_false_2, andb_true_r by lia. }
  change (with_index (index_ tb) _) with (with_observer o tb) in Hrun. rewrite Hrun. cbn [mbind run_bind slots_ with_observer] in *. clear Hrun.
  assert (keyed ix (slots_ tb) (fun n' j' => in_use (slots_ tb) n' j' && negb (bool_decide (n' = n))) g') as Hk2.
  { eapply index_keyed_ext; [exact Hk' | done | by intros; simplify_eq |]. intros n' j'. rewrite Hhk. destruct (in_use (slots_ tb) n' j') eqn:Hu; [| done].
    destruct (kd_dom _ _ _ _ Hk n' j' Hu) as [k Hh]. destruct (here_lt _ _ _ _ Hk _ _ _ Hh) as [_ Hj]. cbn [andb]. f_equal. apply bool_decide_ext. lia. }
  erewrite slot_upd_ok by exact Hs. cbn [mbind run_bind].
  erewrite slot_at by (cbn [slots_ with_slots with_index with_observer]; by apply list_lookup_insert_eq). cbn [mbind run_bind].
  erewrite slot_upd_ok by (cbn [slots_ with_slots with_index with_observer]; by apply list_lookup_insert_eq). cbn [mbind run_bind].
  cbn [slots_ with_slots with_index with_observer]. rewrite list_insert_insert_eq. cbn [generation set_value set_mask].
  replace (set_generation _ _) with (freed s) by (unfold freed, set_generation; cbn [generation keys key_mask value set_value set_mask]; by rewrite wrap_wrap).
  cbn [size_ quarantined_ free_ with_slots with_index with_observer with_size].
  pose proof (so_generation _ (lv_slot _ Hl n s Hs)) as Hw.
  destruct (bool_decide (wrap 32 (generation s + 1) = 0)) eqn:Hzero.
  - apply bool_decide_eq_true in Hzero. eexists. split; [done |]. apply (proj1 (Logic.and_assoc _ _ _)). split.
    { by eapply (erased_slot tb g' n s ix); try done; left. }
    split; [done |]. cbn [h_generation handle_of]. by rewrite (proj2 (retires s Hw)).
  - apply bool_decide_eq_false in Hzero. destruct (Slots.give_back (free_ tb) n (lv_list _ Hl) (free_room _ _ _ Hl Hs Hlive)) as (f' & Hp & Hwf & Hc & Hcap).
    rewrite Hp. eexists. split; [done |]. apply (proj1 (Logic.and_assoc _ _ _)). split.
    { eapply (erased_slot tb g' n s ix); try done. right. split_and!; try done. by rewrite Hcap, (lv_capacity _ Hl). }
    split; [done |]. cbn [h_generation handle_of]. destruct (bool_decide (generation s = 2 ^ 32 - 1)) eqn:Hr; [by apply (retires s Hw) in Hr |].
    unfold room. cbn [free_ with_free]. by rewrite Hc.
Qed.

Lemma Erase_key_spec tb k :
  inv tb ->
  (∃ h j ks v tb', names tb k h j ∧ flow tb h = Some (ks, v) ∧ Erase tb k = Ret (true, tb') ∧ erased tb h v tb') ∨
  ((∀ h j, ¬ names tb k h j) ∧ Erase tb k = Ret (false, tb)).
Proof using KL.
  intros Hi. unfold Erase. destruct (FindKid_spec tb k Hi) as (kid & -> & Hf). cbn [mbind run_bind].
  destruct (bool_decide (kid = Index.kNone)) eqn:Hnone.
  - right. split; [| done]. apply (found_none tb k kid Hi Hf). by apply bool_decide_eq_true in Hnone.
  - left. apply bool_decide_eq_false in Hnone. destruct (found_exists tb k kid Hi Hf Hnone) as (h & j & Hn & -> & _ & _).
    pose proof Hn as (ks & v & k' & Hfl & _ & _). destruct (EraseSlot_spec tb h ks v Hi Hfl) as (tb' & -> & He).
    exists h, j, ks, v, tb'. by split_and!.
Qed.

Lemma EraseHandle_spec tb h :
  inv tb -> in_width 32 (id h) ->
  match flow tb h with
  | Some (ks, v) => ∃ tb', EraseHandle tb h = Ret (true, tb') ∧ erased tb h v tb'
  | None => EraseHandle tb h = Ret (false, tb)
  end.
Proof using.
  intros Hi Hw. unfold EraseHandle. rewrite (SlotOf_spec tb h Hi Hw). destruct (flow tb h) as [[ks v] |] eqn:Hf; [| done].
  cbn [mbind run_bind]. destruct (EraseSlot_spec tb h ks v Hi Hf) as (tb' & -> & He). by exists tb'.
Qed.

(** ** Aliases *)

Lemma free_alias_spec s todo j :
  let r := free_alias todo j s in
  (j <= r <= j + todo)%nat ∧ (∀ i, (j <= i < r)%nat -> has_key s i = true) ∧
  ((r < j + todo)%nat -> (r <= kAliases)%nat -> has_key s r = false).
Proof using.
  revert j. induction todo as [| todo IH]; intros j; simpl; [split_and!; intros; lia |].
  destruct (bool_decide (j <= kAliases)%nat && has_key s j) eqn:Hb.
  - apply andb_true_iff in Hb as [_ Hj]. destruct (IH (S j)) as (H1 & H2 & H3). split_and!; [lia | lia | | ].
    + intros i Hi. destruct (decide (i = j)) as [-> | Hne]; [done |]. apply H2. lia.
    + intros H4. apply H3. lia.
  - split_and!; [lia | lia | intros; lia |]. intros _ Hj. rewrite bool_decide_eq_true_2 in Hb by done. done.
Qed.

(** One key of a live flow changes: [b] says whether it is in use afterwards. *)
Lemma alias_change tb g n s j ix s' (b : bool) (x : option Key) :
  inv tb -> slots_ tb !! n = Some s -> is_live s = true -> (0 < j < kKeysPerSlot)%nat ->
  keyed ix (<[n := s']> (slots_ tb)) (<[n := <[j := b]> (in_use (slots_ tb) n)]> (in_use (slots_ tb))) g ->
  generation s' = generation s -> value s' = value s -> in_width 16 (key_mask s') ->
  (∀ i, has_key s' i = if decide (i = j) then b else has_key s i) ->
  (∀ i, i <> j -> keys s' !! i = keys s !! i) -> (if b then keys s' !! j = Some x else x = None) ->
  ∃ v, flow tb (handle_of n s) = Some (used s, v) ∧
    flow_change tb (handle_of n s) (Some (<[j := x]> (used s), v)) (with_index ix (with_slots (<[n := s']> (slots_ tb)) tb)).
Proof using.
  clear KL. intros Hi Hs Hlive Hj Hk' Hg Hv Hm Hbits Hkeys Hx. destruct (flow_at tb n s Hi Hs Hlive) as (v & Hval & Hf & _).
  exists v. split; [done |]. pose proof Hi as (g0 & Hk & Hl). pose proof (lookup_lt_Some _ _ _ Hs) as Hn.
  pose proof (kd_shape _ _ _ _ Hk n s Hs) as Hlen.
  assert (length (keys s') = kKeysPerSlot) as Hlen' by (apply (kd_shape _ _ _ _ Hk' n); by apply list_lookup_insert_eq).
  assert (is_live s' = true) as Hlive' by (unfold is_live; by rewrite Hg).
  pose proof (lv_slot _ Hl n s Hs) as [Hok1 _ Hok3 Hok4].
  destruct (lived_same tb (with_index ix (with_slots (<[n := s']> (slots_ tb)) tb)) n s s' Hl Hs) as [Hl' Ha]; try done.
  { split; [by rewrite Hg | done | | by rewrite Hlive']. intros _. rewrite Hbits, decide_False by lia. rewrite Hv. by apply Hok3. }
  split; [exists g; split; [| done] | done |].
  - cbn [slots_ index_ with_index with_slots]. eapply index_keyed_ext; [exact Hk' | done | by intros; simplify_eq |].
    intros m i. rewrite in_use_insert by done. case_decide as Hd; [subst m; rewrite fn_lookup_insert | by rewrite fn_lookup_insert_ne].
    rewrite Hbits. case_decide as Hd; [subst i; by rewrite fn_lookup_insert |]. rewrite fn_lookup_insert_ne by done. unfold in_use. by rewrite Hs.
  - intros h'. rewrite (flow_set tb (with_index ix (with_slots (<[n := s']> (slots_ tb)) tb)) n s s' Hs eq_refl eq_refl
      (lv_length _ Hl) v Hlive' ltac:(congruence) (fun _ => Hg) h').
    unfold handle_of. rewrite Hg. case_decide; [| done]. do 2 f_equal. apply list_eq. intros i.
    assert (length (used s) = kKeysPerSlot) as Hul by (unfold used; by rewrite length_imap).
    rewrite used_lookup, Hbits. destruct (decide (i = j)) as [-> | Hne].
    + rewrite list_lookup_insert_eq by lia. destruct b; [done |]. subst x.
      destruct (lookup_lt_is_Some_2 (keys s') j) as [y ->]; [lia | done].
    + rewrite list_lookup_insert_ne, used_lookup, Hkeys by done. done.
Qed.

Lemma bit_of j i : Z.testbit (Z.shiftl 1 (Z.of_nat j)) (Z.of_nat i) = bool_decide (i = j).
Proof using.
  rewrite Z.shiftl_1_l. case_bool_decide as Hd; [subst; apply Z.pow2_bits_true; lia | apply Z.pow2_bits_false; lia].
Qed.

Lemma has_key_mask s m i :
  in_width 16 (key_mask s) -> Z.testbit m (Z.of_nat i) = Z.testbit (key_mask s) (Z.of_nat i) ->
  has_key (set_mask m s) i = has_key s i.
Proof using.
  intros [H0 H1] Hm. unfold has_key. cbn [key_mask set_mask]. unfold wrap. destruct (decide (Z.of_nat i < 16)) as [Hi | Hi].
  { by rewrite Z.mod_pow2_bits_low by lia. }
  rewrite Z.mod_pow2_bits_high by lia. symmetry. destruct (Z.eq_dec (key_mask s) 0) as [-> | Hne]; [apply Z.bits_0 |].
  apply Z.bits_above_log2; [lia |]. apply Z.log2_lt_pow2; [lia |]. pose proof (Z.pow_le_mono_r 2 16 (Z.of_nat i)). lia.
Qed.

Lemma mask_set s j : (j < 16)%nat -> in_width 16 (key_mask s) ->
  ∀ i, has_key (set_mask (Z.lor (key_mask s) (Z.shiftl 1 (Z.of_nat j))) s) i = if decide (i = j) then true else has_key s i.
Proof using.
  intros Hj Hw i. case_decide as Hd.
  - subst i. unfold has_key. cbn [key_mask set_mask]. unfold wrap.
    by rewrite Z.mod_pow2_bits_low, Z.lor_spec, bit_of, bool_decide_eq_true_2, orb_true_r by lia.
  - apply has_key_mask; [done |]. by rewrite Z.lor_spec, bit_of, bool_decide_eq_false_2, orb_false_r.
Qed.

Lemma mask_clear s j : in_width 16 (key_mask s) ->
  ∀ i, has_key (set_mask (Z.ldiff (key_mask s) (Z.shiftl 1 (Z.of_nat j))) s) i = if decide (i = j) then false else has_key s i.
Proof using.
  intros Hw i. case_decide as Hd.
  - subst i. unfold has_key. cbn [key_mask set_mask]. unfold wrap. destruct (decide (Z.of_nat j < 16)) as [Hi | Hi].
    + by rewrite Z.mod_pow2_bits_low, Z.ldiff_spec, bit_of, bool_decide_eq_true_2, andb_false_r by lia.
    + by rewrite Z.mod_pow2_bits_high by lia.
  - apply has_key_mask; [done |]. by rewrite Z.ldiff_spec, bit_of, bool_decide_eq_false_2, andb_true_r.
Qed.

(** ** [RemoveAlias] *)

Lemma RemoveAlias_spec tb k :
  inv tb ->
  (∃ h j ks v tb', (0 < j)%nat ∧ names tb k h j ∧ flow tb h = Some (ks, v) ∧ RemoveAlias tb k = Ret (true, tb') ∧
     flow_change tb h (Some (<[j := None]> ks, v)) tb' ∧ kept tb tb') ∨
  ((∀ h j, names tb k h j -> j = 0%nat) ∧ RemoveAlias tb k = Ret (false, tb)).
Proof using KL.
  intros Hi. unfold RemoveAlias. destruct (FindKid_spec tb k Hi) as (kid & -> & Hf). cbn [mbind run_bind].
  destruct (bool_decide (kid = Index.kNone)) eqn:Hnone.
  { right. split; [| done]. intros h j Hn. exfalso. apply bool_decide_eq_true in Hnone. by eapply (found_none tb k kid Hi Hf). }
  apply bool_decide_eq_false in Hnone. destruct (found_exists tb k kid Hi Hf Hnone) as (h & j & Hn & Hp & Hj & _).
  destruct (bool_decide (kid_key kid = 0%nat)) eqn:H0; cbn [orb].
  { right. split; [| done]. intros h' j' Hn'. apply bool_decide_eq_true in H0. destruct (names_unique tb k _ _ _ _ Hi Hn Hn'). congruence. }
  apply bool_decide_eq_false in H0. left. destruct (names_here tb k h j Hn) as (k' & s & Hs & Hlive & Hh & Hhere & He).
  pose proof Hi as (g & Hk & Hl). assert (kid = kid_of (pointer h) j) as Hkid.
  { destruct Hf as [(n & i & k2 & -> & Hh2 & _) | [-> _]]; [| done]. destruct (here_kid _ _ _ _ Hk _ _ _ Hh2) as (H1 & H2 & _). congruence. }
  destruct (keyed_remove _ _ _ _ Hk _ _ _ Hhere) as (ix & Hix & Hk' & _). rewrite Hkid in *.
  destruct (here_kid _ _ _ _ Hk _ _ _ Hhere) as (_ & Hkey & _). destruct (here_lt _ _ _ _ Hk _ _ _ Hhere) as [_ Hlt].
  unfold Locate. rewrite <- (equal_hash k' k He). erewrite erase_key_ok by exact Hix. cbn [mbind run_bind]. rewrite Hp, Hj.
  erewrite slot_upd_ok by exact Hs. cbn [mbind mret run_bind run_ret]. set (s' := set_mask _ s).
  destruct (alias_change tb (delete (kid_of (pointer h) j) g) (pointer h) s j ix s' false None) as (v & Hfl & Hch); try done.
  - lia.
  - eapply index_keyed_ext; [exact Hk' | apply length_insert | | done]. intros m a b Ha1 Hb1.
    destruct (decide (m = pointer h)) as [-> | Hne]; [rewrite list_lookup_insert_eq in Hb1 by (by eapply lookup_lt_Some) | rewrite list_lookup_insert_ne in Hb1 by done]; simplify_eq; done.
  - apply wrap_range. lia.
  - apply mask_clear. apply (lv_slot _ Hl _ _ Hs).
  - exists h, j, (used s), v. eexists. rewrite <- Hh in Hfl, Hch. split_and!; try done. lia.
Qed.

(** ** [AddAlias] *)

Definition alias_added tb h a (r : AliasStatus) tb' : Prop :=
  match r with
  | kStale => flow tb h = None ∧ tb' = tb
  | kAliasTaken => is_Some (flow tb h) ∧ (∃ h' j, names tb a h' j) ∧ tb' = tb
  | kNoRoom => (∃ ks v, flow tb h = Some (ks, v) ∧ ∀ j, (j < length ks)%nat -> ∃ k, ks !! j = Some (Some k)) ∧
               (∀ h' j, ¬ names tb a h' j) ∧ tb' = tb
  | kAdded => (∀ h' j, ¬ names tb a h' j) ∧
              ∃ ks v j, flow tb h = Some (ks, v) ∧ (0 < j)%nat ∧ ks !! j = Some None ∧
                flow_change tb h (Some (<[j := Some a]> ks, v)) tb' ∧ kept tb tb'
  | kAliasPlacementFailed => False
  end.

(** All the keys of a slot are in use. *)
Lemma no_room tb n s :
  inv tb -> slots_ tb !! n = Some s -> is_live s = true -> (kAliases < free_alias kAliases 1 s)%nat ->
  ∀ j, (j < length (used s))%nat -> ∃ k, used s !! j = Some (Some k).
Proof using.
  clear KL. intros Hi Hs Hlive Hr j Hj. pose proof Hi as (g & Hk & Hl).
  unfold used in Hj. rewrite length_imap, (kd_shape _ _ _ _ Hk n s Hs) in Hj. unfold kKeysPerSlot in Hj.
  destruct (free_alias_spec s kAliases 1) as (_ & Hall & _).
  assert (has_key s j = true) as Hkey.
  { destruct j; [apply (so_live _ (lv_slot _ Hl n s Hs) Hlive) | apply Hall; lia]. }
  destruct (kd_dom _ _ _ _ Hk n j) as (k & _ & s0 & Hs0 & Hk0); [unfold in_use; by rewrite Hs |].
  exists k. rewrite used_lookup, Hkey. congruence.
Qed.

Lemma AddAlias_spec tb h a :
  inv tb -> in_width 32 (id h) -> ∃ r tb', AddAlias tb h a = Ret (r, tb') ∧ alias_added tb h a r tb'.
Proof using KL.
  intros Hi Hw. unfold AddAlias. rewrite (SlotOf_spec tb h Hi Hw). destruct (flow tb h) as [[ks v] |] eqn:Hf;
    cbn [mbind run_bind]; [| by exists kStale, tb].
  destruct (FindKid_spec tb a Hi) as (kid & -> & Hfound). cbn [mbind run_bind].
  destruct (bool_decide (kid = Index.kNone)) eqn:Hnone; cbn [negb].
  2: { apply bool_decide_eq_false in Hnone. destruct (found_exists tb a kid Hi Hfound Hnone) as (h' & j & Hn & _).
    exists kAliasTaken, tb. split; [done |]. split; [by rewrite Hf | eauto]. }
  apply bool_decide_eq_true in Hnone. pose proof (proj1 (found_none tb a kid Hi Hfound) Hnone) as Hno.
  destruct (flow_Some _ _ _ _ Hf) as (s & Hs & Hlive & Hv & -> & Hh & _). rewrite (slot_at _ _ _ Hs). cbn [mbind run_bind].
  destruct (bool_decide (kAliases < free_alias kAliases 1 s)%nat) eqn:Hr.
  { apply bool_decide_eq_true in Hr. exists kNoRoom, tb. split; [done |]. split_and!; [| done | done]. exists (used s), v.
    split; [done |]. by eapply no_room. }
  apply bool_decide_eq_false in Hr. destruct (free_alias_spec s kAliases 1) as (Hj & _ & Hfree). set (j := free_alias kAliases 1 s) in *.
  pose proof Hi as (g & Hk & Hl). pose proof (lookup_lt_Some _ _ _ Hs) as Hn. pose proof (kd_shape _ _ _ _ Hk _ _ Hs) as Hlen.
  assert (has_key s j = false) as Hkey by (apply Hfree; lia). pose proof aliases_ok as Hal.
  erewrite slot_upd_ok by exact Hs. cbn [mbind run_bind]. unfold Locate.
  set (s' := set_mask (Z.lor (key_mask s) (Z.shiftl 1 (Z.of_nat j))) (StoreKey j a s)).
  destruct (keyed_add _ _ _ _ Hk (pointer h) j a s s') as (ix & g' & Hix & Hk' & _); try done.
  { unfold kKeysPerSlot. lia. }
  { unfold in_use. by rewrite Hs. }
  { by apply unnamed. }
  erewrite insert_key_ok by exact Hix. cbn [mbind run_bind].
  erewrite slot_upd_ok by (cbn [slots_ with_slots with_index]; by apply list_lookup_insert_eq). cbn [mbind mret run_bind run_ret].
  cbn [slots_ with_slots with_index]. rewrite list_insert_insert_eq. exists kAdded. eexists. split; [done |]. split; [done |].
  destruct (alias_change tb g' (pointer h) s j ix s' true (Some a)) as (v' & Hfl & Hch); try done.
  - unfold kKeysPerSlot. lia.
  - apply wrap_range. lia.
  - apply (mask_set (StoreKey j a s)); [lia | apply (lv_slot _ Hl _ _ Hs)].
  - intros i Hne. by apply list_lookup_insert_ne.
  - apply list_lookup_insert_eq. rewrite Hlen. unfold kKeysPerSlot. lia.
  - rewrite <- Hh in Hfl, Hch. exists (used s), v', j. split_and!; try done; [lia |]. rewrite used_lookup, Hkey.
    destruct (lookup_lt_is_Some_2 (keys s) j) as [y ->]; [rewrite Hlen; unfold kKeysPerSlot; lia | done].
Qed.

End Erase.
End FlowErase.
