(* ===== verification/FlowVisit.v ===== *)
(** * Creation and visits of the flow table

    A new table satisfies the invariant and holds no flow; [VisitRange] and
    [ForEach] show every live flow of their range once and keep what the
    callback writes. *)

From S2P Require Import Prelude FlowIndex FlowProbe FlowFree FlowTable FlowSlots FlowInv FlowFind FlowChange FlowOps.
Open Scope Z_scope.

Module FlowVisit.
Import Probe Flow FlowInv FlowFind FlowChange FlowOps.

Section Visit.
Context {TR : Traits} {Key State : Type} {KO : KeyOps Key} {KL : KeyLaws Key} {OB : FlowObserver State}.
Implicit Types (tb : t Key State) (s : Slot Key State) (n : nat) (k : Key) (h : FlowHandle) (v : State).

(** ** [Create] *)

Lemma live_count_new n : live_count (replicate n (@empty_slot TR Key State)) = 0%nat.
Proof using. unfold live_count. induction n as [| n IH]; [done |]. simpl. by rewrite filter_cons_False. Qed.

Lemma Create_inr allocates sizeof capacity o tb :
  Create allocates sizeof capacity o = inr tb ->
  capacity <> 0 ∧ wrap 64 (capacity * Z.of_nat kKeysPerSlot) < Index.kNone ∧ capacity * Z.of_nat kKeysPerSlot < 2 ^ 64 ∧
  Index.BucketsFor (wrap 64 (capacity * Z.of_nat kKeysPerSlot)) < Index.kNone ∧
  tb = mk (Index.construct (Z.to_nat (Index.BucketsFor (wrap 64 (capacity * Z.of_nat kKeysPerSlot)))))
         (replicate (Z.to_nat capacity) empty_slot) (FreeList.Init (Z.to_nat capacity) kReuse) (Z.to_nat capacity) 0 0 o.
Proof using.
  unfold Create, mul_overflows. destruct (bool_decide (capacity = 0)) eqn:H0; [done |].
  destruct (bool_decide (2 ^ 64 <= capacity * Z.of_nat kKeysPerSlot)) eqn:H1; [done |].
  destruct (bool_decide (Index.kNone <= wrap 64 (capacity * Z.of_nat kKeysPerSlot))) eqn:H2; [done |]. cbn [orb].
  destruct (bool_decide (Index.kNone <= Index.BucketsFor _)) eqn:H3; [done |].
  destruct (_ || _ || bool_decide (2 ^ 64 <= capacity * 4)); [done |].
  destruct (negb (allocates 0%nat) || _ || _); [done |]. destruct (negb (allocates 3%nat)); [done |].
  intros [= <-]. apply bool_decide_eq_false in H0, H1, H2, H3. split_and!; try done; lia.
Qed.

Lemma Create_spec allocates sizeof capacity o tb :
  0 <= capacity -> Create allocates sizeof capacity o = inr tb ->
  inv tb ∧ (∀ h, flow tb h = None) ∧ capacity_ tb = Z.to_nat capacity ∧ observer_ tb = o.
Proof using.
  clear KL. intros Hpos (Hne & Hkeys & Hover & Hb & ->)%Create_inr. rewrite wrap_small in * by (unfold in_width; nia).
  set (K := Z.of_nat kKeysPerSlot) in *. assert (1 <= K) as HK by (unfold K, kKeysPerSlot; lia).
  unfold Index.kNone in *. destruct (BucketsFor_room (capacity * K)) as (B0 & B1 & _); [nia |].
  destruct (Slots.Init_ok (Z.to_nat capacity) kReuse) as [Hwf Hcont]; [lia |].
  assert (∀ n s, replicate (Z.to_nat capacity) (@empty_slot TR Key State) !! n = Some s -> s = empty_slot) as Hall.
  { intros n s Hs. by apply lookup_replicate in Hs as [-> _]. }
  assert (∀ n j, in_use (replicate (Z.to_nat capacity) (@empty_slot TR Key State)) n j = false) as Hnone.
  { intros n j. unfold in_use. destruct (_ !! n) as [s |] eqn:Hs; [| done]. apply Hall in Hs as ->. apply Z.bits_0. }
  split_and!; [| | done | done].
  - exists ∅. split.
    + split; cbn [slots_ index_]; rewrite ?length_replicate; fold K; unfold Index.kNone; try lia.
      * apply holds_empty. lia.
      * unfold Index.construct. cbn [Index.count_]. unfold Index.kSlots in B1. unfold K in *. nia.
      * cbn [Index.construct Index.count_]. lia.
      * intros n s ->%Hall. apply length_replicate.
      * intros n j. by rewrite Hnone.
      * intros i p Hp. by rewrite lookup_empty in Hp.
      * intros n j k [Hu _]. by rewrite Hnone in Hu.
      * intros n j k n' j' k' [Hu _]. by rewrite Hnone in Hu.
    + split; cbn [slots_ free_ capacity_ size_ quarantined_]; try done.
      * apply length_replicate.
      * rewrite Hcont. apply NoDup_seq.
      * intros n s ->%Hall. split; [unfold in_width; simpl; lia | unfold in_width; simpl; lia | done | done].
      * intros n Hn. rewrite Hcont, elem_of_seq in Hn. exists empty_slot. split; [apply lookup_replicate_2; lia | done].
      * intros n s ->%Hall. done.
      * by rewrite live_count_new.
      * rewrite Hcont, length_seq. lia.
  - intros h. destruct (flow _ h) as [[ks v] |] eqn:Hf; [exfalso | done]. apply flow_Some in Hf as (s & Hs%Hall & Hl & _). by subst s.
Qed.

(** ** Visits *)

Lemma upd_value tb h ks v0 v :
  inv tb -> flow tb h = Some (ks, v0) ->
  ∃ tb', upd tb (pointer h) (set_value (Some v)) = Ret tb' ∧ flow_change tb h (Some (ks, v)) tb' ∧ kept tb tb'.
Proof using.
  intros Hi Hf. destruct (store_spec tb h ks v0 v Hi Hf) as (tb' & Hst & Hch & Hkept). exists tb'.
  apply flow_Some in Hf as (s & Hs & _ & Hv & _). unfold store in Hst. rewrite (slot_at _ _ _ Hs) in Hst. cbn [mbind run_bind] in Hst.
  unfold state_of in Hst. rewrite Hv in Hst. cbn [mbind mret run_bind run_ret] in Hst. rewrite (slot_upd_ok _ _ _ _ Hs) in *. by injection Hst as <-.
Qed.

Definition primary (ks : list (option Key)) : option Key := mjoin (ks !! 0%nat).

(** What a visit of the slots from [first] to [last] leaves. *)
Definition shown (first last : nat) (fn : FlowHandle -> Key -> State -> State) h (x : list (option Key) * State) :=
  if bool_decide (first <= pointer h < last)%nat
  then match primary x.1 with Some k => (x.1, fn h k x.2) | None => x end
  else x.

Record visited first last fn tb tb' : Prop := {
  vi_inv : inv tb';
  vi_ages : ages tb tb';
  vi_flow h : flow tb' h = shown first last fn h <$> flow tb h;
  vi_kept : kept tb tb'
}.

Lemma live_keys tb h ks v : inv tb -> flow tb h = Some (ks, v) ->
  ∃ s k, slots_ tb !! pointer h = Some s ∧ key_at s 0 = Ret k ∧ primary ks = Some k.
Proof using.
  intros Hi Hf. apply flow_Some in Hf as (s & Hs & Hlive & _ & -> & _). destruct Hi as (g & Hk & Hl).
  destruct (so_live _ (lv_slot _ Hl _ s Hs) Hlive) as [H0 _].
  destruct (kd_dom _ _ _ _ Hk (pointer h) 0%nat) as (k & _ & s' & Hs' & Hk'); [unfold in_use; by rewrite Hs |]. simplify_eq.
  exists s, k. split; [done |]. unfold key_at, primary. rewrite (at_lookup _ _ _ Hk'), used_lookup, H0, Hk'. done.
Qed.

Lemma flow_dead_slot tb n s h : slots_ tb !! n = Some s -> is_live s = false -> pointer h = n -> flow tb h = None.
Proof using.
  intros Hs Hd <-. destruct (flow tb h) as [[ks v] |] eqn:Hf; [exfalso | done]. apply flow_Some in Hf as (s' & Hs' & Hl & _). congruence.
Qed.

Lemma visit_one tb n s fn :
  inv tb -> slots_ tb !! n = Some s ->
  ∃ tb', (if is_live s then
            h ← HandleOf tb n; k ← key_at s 0; v ← state_of s; upd tb n (set_value (Some (fn h k v)))
          else mret tb) = Ret tb' ∧ visited n (S n) fn tb tb'.
Proof using.
  intros Hi Hs. destruct (is_live s) eqn:Hlive.
  - destruct (flow_at tb n s Hi Hs Hlive) as (v & Hv & Hf & Hp). destruct (live_keys _ _ _ _ Hi Hf) as (s0 & k & Hs0 & Hk & Hpr).
    rewrite Hp in Hs0. simplify_eq. rewrite (HandleOf_ok _ _ _ Hi Hs). cbn [mbind run_bind]. rewrite Hk. cbn [mbind run_bind].
    unfold state_of. rewrite Hv. cbn [mbind mret run_bind run_ret].
    destruct (upd_value tb _ _ _ (fn (handle_of n s) k v) Hi Hf) as (tb' & Hu & [H1 H2 H3] & H4). rewrite Hp in Hu.
    exists tb'. split; [done |]. split; try done. intros h. rewrite H3. case_decide as Hd.
    + subst h. rewrite Hf. simpl. unfold shown. rewrite Hp, bool_decide_eq_true_2 by lia. cbn [fst snd]. by rewrite Hpr.
    + destruct (flow tb h) as [[ks v1] |] eqn:Hf1; [| done]. simpl. unfold shown. rewrite bool_decide_eq_false_2; [done |].
      intros Hr. apply flow_Some in Hf1 as (s1 & Hs1 & _ & _ & _ & Hh & _). assert (pointer h = n) as Hpn by lia. rewrite Hpn in *. congruence.
  - exists tb. split; [done |]. split; [done | apply flow_ages_refl | | done]. intros h.
    destruct (decide (pointer h = n)) as [Hp | Hp]; [by rewrite (flow_dead_slot tb n s h) |].
    destruct (flow tb h) as [x |]; [simpl | done]. unfold shown. rewrite bool_decide_eq_false_2 by lia. done.
Qed.

Lemma visited_trans n m l fn tb1 tb2 tb3 :
  (n <= m <= l)%nat -> visited n m fn tb1 tb2 -> visited m l fn tb2 tb3 -> visited n l fn tb1 tb3.
Proof using.
  intros Hr [I1 A1 F1 [O1 R1]] [I2 A2 F2 [O2 R2]]. split; [done | by eapply flow_ages_trans | | split; congruence].
  intros h. rewrite F2, F1. destruct (flow tb1 h) as [[ks v] |]; [simpl | done]. f_equal. unfold shown. cbn [fst snd].
  destruct (decide (n <= pointer h < m)%nat).
  - rewrite (bool_decide_eq_true_2 (n <= pointer h < m)%nat), (bool_decide_eq_false_2 (m <= pointer h < l)%nat),
      (bool_decide_eq_true_2 (n <= pointer h < l)%nat) by lia. done.
  - rewrite (bool_decide_eq_false_2 (n <= pointer h < m)%nat) by lia. cbn [fst snd].
    by replace (bool_decide (m <= pointer h < l)%nat) with (bool_decide (n <= pointer h < l)%nat) by (apply bool_decide_ext; lia).
Qed.

Lemma visited_none n m fn tb : inv tb -> (m <= n)%nat -> visited n m fn tb tb.
Proof using.
  intros Hi Hm. split; [done | apply flow_ages_refl | | done]. intros h. destruct (flow tb h) as [x |]; [simpl | done].
  unfold shown. by rewrite bool_decide_eq_false_2 by lia.
Qed.

Lemma visit_spec fn todo n tb :
  inv tb -> (todo = 0 ∨ n + todo <= capacity_ tb)%nat ->
  ∃ tb', visit todo n tb fn = Ret tb' ∧ visited n (n + todo) fn tb tb'.
Proof using.
  revert n tb. induction todo as [| todo IH]; intros n tb Hi Hlen; cbn [visit].
  { exists tb. split; [done |]. apply visited_none; [done | lia]. }
  pose proof Hi as (g & _ & Hl). destruct (lookup_lt_is_Some_2 (slots_ tb) n) as [s Hs]; [rewrite (lv_length _ Hl); lia |].
  rewrite (slot_at _ _ _ Hs). cbn [mbind run_bind]. destruct (visit_one tb n s fn Hi Hs) as (tb1 & Hone & Hv1).
  setoid_rewrite Hone. cbn [mbind run_bind]. destruct (IH (S n) tb1) as (tb2 & Hgo & Hv2); [apply Hv1 | destruct (vi_ages _ _ _ _ _ Hv1); lia |].
  exists tb2. split; [done |]. replace (n + S todo)%nat with (S n + todo)%nat by lia. eapply visited_trans; [| done..]. lia.
Qed.

Lemma VisitRange_spec tb first count fn :
  inv tb -> 0 <= first -> let last := Z.min (Z.of_nat (capacity_ tb)) (wrap 64 (first + count)) in
  ∃ tb', VisitRange tb first count fn = Ret (last, tb') ∧ visited (Z.to_nat first) (Z.to_nat last) fn tb tb'.
Proof using.
  intros Hi Hf last. unfold VisitRange. fold last. assert (0 <= last) by (pose proof (wrap_range 64 (first + count)); unfold in_width in *; lia).
  destruct (visit_spec fn (Z.to_nat (last - first)) (Z.to_nat first) tb Hi) as (tb' & Hrun & Hv); [lia |].
  rewrite Hrun. exists tb'. split; [done |]. destruct (decide (first <= last)).
  - by replace (Z.to_nat first + Z.to_nat (last - first))%nat with (Z.to_nat last) in Hv by lia.
  - replace (Z.to_nat (last - first)) with 0%nat in Hrun by lia. injection Hrun as <-. apply visited_none; [done | lia].
Qed.

Lemma ForEach_spec tb fn :
  inv tb -> ∃ tb', ForEach tb fn = Ret tb' ∧ visited 0 (capacity_ tb) fn tb tb'.
Proof using. intros Hi. unfold ForEach. apply (visit_spec fn (capacity_ tb) 0 tb Hi). lia. Qed.

End Visit.
End FlowVisit.
