(* ===== verification/FlowHistory.v ===== *)
(** * The flow table's contract

    What the table promises its caller, as a relation between the flows before
    a call, the call's answer and the flows afterwards; and that every call of
    every history meets it. *)

From S2P Require Import Prelude FlowIndex FlowProbe FlowFree FlowTable FlowSlots FlowInv FlowFind FlowChange FlowOps FlowErase FlowVisit.
Open Scope Z_scope.

Module FlowHistory.
Import Flow FlowInv FlowFind FlowChange FlowOps FlowErase FlowVisit.

Section History.
Context {TR : Traits} {Key State : Type} {KO : KeyOps Key} {KL : KeyLaws Key} {OB : FlowObserver State}.
Implicit Types (tb : t Key State) (n : nat) (k : Key) (h : FlowHandle) (v : State).

(** ** Calls *)

Inductive call :=
  | CFind (k : Key)
  | CFindRef (k : Key)
  | CFindBatch (ks : list Key)
  | CFindRefBatch (ks : list Key)
  | CLookup (h : FlowHandle)
  | CAlive (h : FlowHandle)
  | CKeyOf (h : FlowHandle)
  | CEmplace (k : Key) (v : State)
  | CEmplaceAliased (k a : Key) (v : State)
  | CAddAlias (h : FlowHandle) (a : Key)
  | CRemoveAlias (k : Key)
  | CErase (k : Key)
  | CEraseHandle (h : FlowHandle)
  | CVisitRange (first count : Z) (fn : FlowHandle -> Key -> State -> State)
  | CForEach (fn : FlowHandle -> Key -> State -> State)
  | CRead (p : nat)
  | CWrite (p : nat) (v : State).

Inductive answer :=
  | APointer (p : option nat)
  | ARef (r : FlowRef)
  | APointers (ps : list (option nat)) (hits : Z)
  | ARefs (rs : list FlowRef) (hits : Z)
  | ABool (b : bool)
  | AKey (k : option Key)
  | AEmplaced (r : EmplaceResult)
  | AAliased (r : AliasStatus)
  | ANext (n : Z)
  | AState (v : State)
  | ADone.

Definition exec tb (c : call) : run (answer * t Key State) :=
  match c with
  | CFind k => p ← Find tb k; mret (APointer p, tb)
  | CFindRef k => r ← FindRef tb k; mret (ARef r, tb)
  | CFindBatch ks => '(ps, hits) ← FindBatch tb ks; mret (APointers ps hits, tb)
  | CFindRefBatch ks => '(rs, hits) ← FindRefBatch tb ks; mret (ARefs rs hits, tb)
  | CLookup h => p ← Lookup tb h; mret (APointer p, tb)
  | CAlive h => b ← Alive tb h; mret (ABool b, tb)
  | CKeyOf h => k ← KeyOf tb h; mret (AKey k, tb)
  | CEmplace k v => '(r, tb') ← Emplace tb k v; mret (AEmplaced r, tb')
  | CEmplaceAliased k a v => '(r, tb') ← EmplaceAliased tb k a v; mret (AEmplaced r, tb')
  | CAddAlias h a => '(r, tb') ← AddAlias tb h a; mret (AAliased r, tb')
  | CRemoveAlias k => '(b, tb') ← RemoveAlias tb k; mret (ABool b, tb')
  | CErase k => '(b, tb') ← Erase tb k; mret (ABool b, tb')
  | CEraseHandle h => '(b, tb') ← EraseHandle tb h; mret (ABool b, tb')
  | CVisitRange first count fn => '(n, tb') ← VisitRange tb first count fn; mret (ANext n, tb')
  | CForEach fn => tb' ← ForEach tb fn; mret (ADone, tb')
  | CRead p => v ← load tb p; mret (AState v, tb)
  | CWrite p v => tb' ← store tb p v; mret (ADone, tb')
  end.

(** ** The contract *)

Definition entry : Type := list (option Key) * State.

(** What the caller can tell of a table: its flows, how many more it takes, and
    the observer. *)
Record view := mk_view { flows : FlowHandle -> option entry; free_slots : nat; seen : observer }.

Definition view_of tb : view := mk_view (flow tb) (room tb) (observer_ tb).

Definition named (m : view) k h (j : nat) : Prop :=
  ∃ ks v k', flows m h = Some (ks, v) ∧ ks !! j = Some (Some k') ∧ equal k' k = true.

Definition absent (m : view) k : Prop := ∀ h j, ¬ named m k h j.

Definition is_ref (m : view) k (r : FlowRef) : Prop :=
  match state r with
  | Some p => ∃ j, named m k (handle r) j ∧ p = pointer (handle r) ∧ via_alias r = negb (bool_decide (j = 0%nat))
  | None => r = no_ref ∧ absent m k
  end.

(** Nothing changes; one flow changes. *)
Definition same (m m' : view) : Prop := (∀ h, flows m' h = flows m h) ∧ free_slots m' = free_slots m ∧ seen m' = seen m.
Definition put (m : view) h (x : option entry) (m' : view) : Prop :=
  ∀ h', flows m' h' = if decide (h' = h) then x else flows m h'.

Definition removed (m : view) h v (m' : view) : Prop :=
  put m h None m' ∧ seen m' = OnErase (seen m) h v ∧
  free_slots m' = if bool_decide (h_generation h = 2 ^ 32 - 1) then free_slots m else S (free_slots m).

Definition alias_clash (m : view) k (alias : option Key) : Prop :=
  match alias with None => False | Some a => equal k a = true ∨ ∃ h j, named m a h j end.

Definition creates (m : view) k (alias : option Key) v (r : EmplaceResult) (m' : view) : Prop :=
  match e_status r with
  | kExists => ∃ j, named m k (e_handle r) j ∧ e_state r = Some (pointer (e_handle r)) ∧ same m m'
  | kAliasExists => absent m k ∧ alias_clash m k alias ∧ e_state r = None ∧ same m m'
  | kFull => absent m k ∧ ¬ alias_clash m k alias ∧ free_slots m = 0%nat ∧ e_state r = None ∧
             (∀ h, flows m' h = flows m h) ∧ free_slots m' = 0%nat ∧ seen m' = OnFull (seen m)
  | kCreated => absent m k ∧ ¬ alias_clash m k alias ∧ free_slots m = S (free_slots m') ∧
                flows m (e_handle r) = None ∧ in_width 32 (id (e_handle r)) ∧ e_state r = Some (pointer (e_handle r)) ∧
                ∃ v', OnCreate (seen m) (e_handle r) v = (seen m', v') ∧ put m (e_handle r) (Some (new_keys k alias, v')) m'
  | kPlacementFailed => False
  end.

Definition aliases (m : view) h a (r : AliasStatus) (m' : view) : Prop :=
  match r with
  | kStale => flows m h = None ∧ same m m'
  | kAliasTaken => is_Some (flows m h) ∧ (∃ h' j, named m a h' j) ∧ same m m'
  | kNoRoom => absent m a ∧ (∃ ks v, flows m h = Some (ks, v) ∧ ∀ j, (j < length ks)%nat -> ∃ k, ks !! j = Some (Some k)) ∧ same m m'
  | kAdded => absent m a ∧ free_slots m' = free_slots m ∧ seen m' = seen m ∧
              ∃ ks v j, flows m h = Some (ks, v) ∧ (0 < j)%nat ∧ ks !! j = Some None ∧ put m h (Some (<[j := Some a]> ks, v)) m'
  | kAliasPlacementFailed => False
  end.

Definition hits_ok (rs : list (option nat)) (hits : Z) : Prop :=
  ∀ i, 0 <= i -> Z.testbit hits i = true <-> ∃ p, rs !! Z.to_nat i = Some (Some p).

Definition visits (m : view) (first last : nat) fn (m' : view) : Prop :=
  (∀ h, flows m' h = shown first last fn h <$> flows m h) ∧ free_slots m' = free_slots m ∧ seen m' = seen m.

Definition promises (cap : nat) (m : view) (c : call) (r : answer) (m' : view) : Prop :=
  match c, r with
  | CFind k, APointer p => (∃ r, is_ref m k r ∧ p = state r) ∧ same m m'
  | CFindRef k, ARef r => is_ref m k r ∧ same m m'
  | CFindBatch ks, APointers ps hits =>
      (∃ rs, Forall2 (is_ref m) ks rs ∧ ps = map state rs) ∧ hits_ok ps hits ∧ same m m'
  | CFindRefBatch ks, ARefs rs hits => Forall2 (is_ref m) ks rs ∧ hits_ok (map state rs) hits ∧ same m m'
  | CLookup h, APointer p => p = ((fun _ => pointer h) <$> flows m h) ∧ same m m'
  | CAlive h, ABool b => b = bool_decide (is_Some (flows m h)) ∧ same m m'
  | CKeyOf h, AKey k => k = (x ← flows m h; primary x.1) ∧ (is_Some (flows m h) -> is_Some k) ∧ same m m'
  | CEmplace k v, AEmplaced r => creates m k None v r m'
  | CEmplaceAliased k a v, AEmplaced r => creates m k (Some a) v r m'
  | CAddAlias h a, AAliased r => aliases m h a r m'
  | CRemoveAlias k, ABool true =>
      ∃ h j ks v, (0 < j)%nat ∧ named m k h j ∧ flows m h = Some (ks, v) ∧ put m h (Some (<[j := None]> ks, v)) m' ∧
        free_slots m' = free_slots m ∧ seen m' = seen m
  | CRemoveAlias k, ABool false => (∀ h j, named m k h j -> j = 0%nat) ∧ same m m'
  | CErase k, ABool true => ∃ h j ks v, named m k h j ∧ flows m h = Some (ks, v) ∧ removed m h v m'
  | CErase k, ABool false => absent m k ∧ same m m'
  | CEraseHandle h, ABool true => ∃ ks v, flows m h = Some (ks, v) ∧ removed m h v m'
  | CEraseHandle h, ABool false => flows m h = None ∧ same m m'
  | CVisitRange first count fn, ANext n =>
      n = Z.min (Z.of_nat cap) (wrap 64 (first + count)) ∧ visits m (Z.to_nat first) (Z.to_nat n) fn m'
  | CForEach fn, ADone => visits m 0 cap fn m'
  | CRead p, AState v => (∃ h ks, p = pointer h ∧ flows m h = Some (ks, v)) ∧ same m m'
  | CWrite p v, ADone =>
      ∃ h ks v0, p = pointer h ∧ flows m h = Some (ks, v0) ∧ put m h (Some (ks, v)) m' ∧
        free_slots m' = free_slots m ∧ seen m' = seen m
  | _, _ => False
  end.

(** What the caller owes: handles as 32-bit fields, batches the table takes,
    aliases where the table has them, and pointers of live flows. *)
Definition allowed (m : view) (c : call) : Prop :=
  match c with
  | CFindBatch ks | CFindRefBatch ks => (length ks <= kMaxBatch)%nat
  | CLookup h | CAlive h | CKeyOf h | CEraseHandle h => in_width 32 (id h)
  | CAddAlias h _ => in_width 32 (id h)
  | CEmplaceAliased _ _ _ => (0 < kAliases)%nat
  | CVisitRange first _ _ => 0 <= first
  | CRead p | CWrite p _ => ∃ h, p = pointer h ∧ is_Some (flows m h)
  | _ => True
  end.

(** ** Every call meets the contract *)

Definition meets tb (c : call) : Prop :=
  ∃ r tb', exec tb c = Ret (r, tb') ∧ promises (capacity_ tb) (view_of tb) c r (view_of tb') ∧ inv tb' ∧ ages tb tb'.

Lemma same_refl m : same m m.
Proof using. done. Qed.

(** A call that changes nothing. *)
Lemma meets_reads tb c r :
  inv tb -> exec tb c = Ret (r, tb) -> promises (capacity_ tb) (view_of tb) c r (view_of tb) -> meets tb c.
Proof using. intros Hi He Hp. exists r, tb. split_and!; [done.. | apply flow_ages_refl]. Qed.

Lemma meets_lookup tb k : inv tb -> meets tb (CFind k) ∧ meets tb (CFindRef k).
Proof using KL.
  intros Hi. destruct (Find_spec' tb k Hi) as (r & Hf & Hr & Hok). split.
  - eapply (meets_reads tb _ (APointer (state r))); [done | unfold exec; by rewrite Hf |]. split; [| done]. by exists r.
  - eapply (meets_reads tb _ (ARef r)); [done | unfold exec; by rewrite Hr | done].
Qed.

Lemma batch_refs tb ks rs hits :
  inv tb -> Forall2 (fun k r => FindRef tb k = Ret r) ks rs ->
  hits_of (fun d => ∃ r p, rs !! d = Some r ∧ state r = Some p) 0 0 hits ->
  Forall2 (is_ref (view_of tb)) ks rs ∧ hits_ok (map state rs) hits.
Proof using KL.
  intros Hi Hrs Hbits. split.
  - eapply Forall2_impl; [done |]. intros k r Hr. simpl in Hr. destruct (FindRef_spec tb k Hi) as (r' & Hr' & Hok).
    rewrite Hr in Hr'. by injection Hr' as <-.
  - intros i Hi0. rewrite (Hbits i Hi0). rewrite Z.bits_0. setoid_rewrite list_lookup_fmap. split.
    + intros [? | (d & -> & r & p & Hr & Hp)]; [done |]. exists p. rewrite Nat2Z.id. simpl. by rewrite Hr, <- Hp.
    + intros [p Hp]. apply fmap_Some in Hp as (r & Hr & Hp). right. exists (Z.to_nat i). simpl. rewrite Z2Nat.id by done. eauto.
Qed.

Lemma meets_batch tb ks :
  inv tb -> (length ks <= kMaxBatch)%nat -> meets tb (CFindBatch ks) ∧ meets tb (CFindRefBatch ks).
Proof using KL.
  intros Hi Hlen. destruct (FindRefBatch_spec tb ks Hi Hlen) as (rs & hits & Hrun & Hrs & Hbits).
  destruct (batch_refs tb ks rs hits Hi Hrs Hbits) as [Hok Hh]. split.
  - eapply (meets_reads tb _ (APointers (map state rs) hits)); [done | unfold exec; by rewrite (FindBatch_states _ _ _ _ Hi Hrun) |].
    split_and!; try done. by exists rs.
  - eapply (meets_reads tb _ (ARefs rs hits)); [done | unfold exec; by rewrite Hrun | done].
Qed.

Lemma meets_handle tb h :
  inv tb -> in_width 32 (id h) -> meets tb (CLookup h) ∧ meets tb (CAlive h) ∧ meets tb (CKeyOf h).
Proof using.
  intros Hi Hw. pose proof (SlotOf_spec tb h Hi Hw) as Hs. split_and!.
  - eapply meets_reads; [done | unfold exec, Lookup; by rewrite Hs |]. split; [| done]. simpl. by destruct (flow tb h).
  - eapply meets_reads; [done | unfold exec, Alive; by rewrite Hs |]. split; [| done]. simpl. by destruct (flow tb h).
  - destruct (KeyOf_spec tb h Hi Hw) as (r & Hr & Hok). eapply (meets_reads tb _ (AKey r)); [done | unfold exec; by rewrite Hr |].
    simpl. destruct (flow tb h) as [[ks v] |]; simpl; [| split_and!; [done | by intros [] | done]].
    destruct Hok as (k & -> & Hk). unfold primary. rewrite Hk. done.
Qed.

Lemma meets_create tb k alias v :
  inv tb -> (alias <> None -> (0 < kAliases)%nat) ->
  ∃ r tb', CreateImpl tb k alias v = Ret (r, tb') ∧ creates (view_of tb) k alias v r (view_of tb') ∧ inv tb' ∧ ages tb tb'.
Proof using KL.
  intros Hi Ha. destruct (CreateImpl_spec tb k alias v Hi Ha) as (r & tb' & Hrun & He). exists r, tb'. split; [done |].
  unfold emplaced in He. unfold creates. destruct (e_status r).
  - destruct He as (Hno & Hal & _ & Hw & _ & _ & Hroom & Hst & _ & Hnf & v' & Hv & [Hi' Hag Hfl]).
    split_and!; try done. exists v'. split; [by symmetry | done].
  - destruct He as (j & Hn & Hst & ->). split_and!; [by exists j | done | apply flow_ages_refl].
  - destruct He as (Hno & Hal & Hfull & -> & ->). destruct (unchanged_observer tb (OnFull (observer_ tb)) Hi) as [Hi' Hag _].
    assert (room tb = 0%nat) as H0.
    { destruct Hi as (g & _ & Hl). unfold full in Hfull. rewrite (Slots.empty_spec _ (lv_list _ Hl)), bool_decide_eq_true in Hfull.
      unfold room. by rewrite Hfull. }
    split_and!; done.
  - destruct He as (Hno & Hal & -> & ->). split_and!; try done. apply flow_ages_refl.
  - done.
Qed.

Lemma meets_erase tb h ks v tb' :
  flow tb h = Some (ks, v) -> erased tb h v tb' -> removed (view_of tb) h v (view_of tb') ∧ inv tb' ∧ ages tb tb'.
Proof using. intros Hf ([Hi Ha Hfl] & _ & Ho & Hr). done. Qed.

Lemma meets_alias tb h a k :
  inv tb -> (in_width 32 (id h) -> meets tb (CAddAlias h a)) ∧ meets tb (CRemoveAlias k).
Proof using KL.
  intros Hi. split; [intros Hw |].
  - destruct (AddAlias_spec tb h a Hi Hw) as (r & tb' & Hrun & Hok). unfold meets, exec. rewrite Hrun. exists (AAliased r), tb'.
    split; [done |]. destruct r; simpl in Hok |- *.
    + destruct Hok as (Hno & ks & v & j & Hf & Hj & Hk & [Hi' Ha Hfl] & [Ho Hr]).
      split_and!; try done; [unfold room; by rewrite Hr |]. by exists ks, v, j.
    + destruct Hok as (Hf & ->). split_and!; try done. apply flow_ages_refl.
    + destruct Hok as (Hf & Hn & ->). split_and!; try done. apply flow_ages_refl.
    + destruct Hok as (Hf & Hn & ->). split_and!; try done. apply flow_ages_refl.
    + done.
  - destruct (RemoveAlias_spec tb k Hi) as [(h' & j & ks & v & tb' & Hj & Hn & Hf & Hrun & [Hi' Ha Hfl] & [Ho Hr]) | [Hno Hrun]];
      unfold meets, exec; rewrite Hrun.
    + exists (ABool true), tb'. split_and!; try done. exists h', j, ks, v. split_and!; try done. simpl. unfold room. by rewrite Hr.
    + exists (ABool false), tb. split_and!; try done. apply flow_ages_refl.
Qed.

Lemma meets_remove tb :
  inv tb -> (∀ k, meets tb (CErase k)) ∧ (∀ h, in_width 32 (id h) -> meets tb (CEraseHandle h)).
Proof using KL.
  intros Hi. split; [intros k | intros h Hw].
  - unfold meets, exec. destruct (Erase_key_spec tb k Hi) as [(h' & j & ks & v & tb' & Hn & Hf & Hrun & He) | [Hno Hrun]]; rewrite Hrun.
    + exists (ABool true), tb'. split; [done |]. destruct (meets_erase _ _ _ _ _ Hf He) as (Hr & Hi' & Ha). split_and!; try done.
      exists h', j, ks, v. done.
    + exists (ABool false), tb. split_and!; try done. apply flow_ages_refl.
  - unfold meets, exec. pose proof (EraseHandle_spec tb h Hi Hw) as Hs. destruct (flow tb h) as [[ks v] |] eqn:Hf.
    + destruct Hs as (tb' & Hrun & He). rewrite Hrun. exists (ABool true), tb'. split; [done |].
      destruct (meets_erase _ _ _ _ _ Hf He) as (Hr & Hi' & Ha). split_and!; try done. by exists ks, v.
    + rewrite Hs. exists (ABool false), tb. split_and!; try done. apply flow_ages_refl.
Qed.

Lemma visits_of tb tb' first last fn :
  visited first last fn tb tb' -> visits (view_of tb) first last fn (view_of tb') ∧ inv tb' ∧ ages tb tb'.
Proof using. intros [Hi Ha Hf [Ho Hr]]. split_and!; try done. split_and!; try done. simpl. unfold room. by rewrite Hr. Qed.

Lemma meets_visit tb first count fn :
  inv tb -> (0 <= first -> meets tb (CVisitRange first count fn)) ∧ meets tb (CForEach fn).
Proof using.
  intros Hi. split; [intros Hf |]; unfold meets, exec.
  - destruct (VisitRange_spec tb first count fn Hi Hf) as (tb' & Hrun & Hv). rewrite Hrun. eexists _, tb'. split; [done |].
    destruct (visits_of _ _ _ _ _ Hv) as (H1 & H2 & H3). by split_and!.
  - destruct (ForEach_spec tb fn Hi) as (tb' & Hrun & Hv). rewrite Hrun. exists ADone, tb'. split; [done |]. by apply visits_of.
Qed.

Lemma meets_pointer tb p v :
  inv tb -> (∃ h, p = pointer h ∧ is_Some (flow tb h)) -> meets tb (CRead p) ∧ meets tb (CWrite p v).
Proof using.
  intros Hi (h & -> & [[ks v0] Hf]). split.
  - eapply (meets_reads tb _ (AState v0)); [done | unfold exec; by rewrite (load_spec _ _ _ _ Hf) |]. split; [| done]. by exists h, ks.
  - destruct (store_spec tb h ks v0 v Hi Hf) as (tb' & Hrun & [Hi' Ha Hfl] & [Ho Hr]). unfold meets, exec. rewrite Hrun.
    exists ADone, tb'. split_and!; try done. exists h, ks, v0. split_and!; try done. simpl. unfold room. by rewrite Hr.
Qed.

Lemma exec_meets tb c : inv tb -> allowed (view_of tb) c -> meets tb c.
Proof using KL.
  intros Hi Hc. destruct c; simpl in Hc.
  - by apply meets_lookup.
  - by apply meets_lookup.
  - by apply meets_batch.
  - by apply meets_batch.
  - by apply meets_handle.
  - by apply meets_handle.
  - by apply meets_handle.
  - destruct (meets_create tb k None v Hi ltac:(done)) as (r & tb' & Hrun & H). unfold meets, exec, Emplace. rewrite Hrun. by exists (AEmplaced r), tb'.
  - destruct (meets_create tb k (Some a) v Hi (fun _ => Hc)) as (r & tb' & Hrun & H). unfold meets, exec, EmplaceAliased. rewrite Hrun. by exists (AEmplaced r), tb'.
  - by apply (meets_alias tb h a a).
  - by apply (meets_alias tb kNoFlow k k).
  - by apply meets_remove.
  - by apply meets_remove.
  - by apply meets_visit.
  - by apply (meets_visit tb 0 0 fn).
  - destruct Hc as (h & -> & [[ks v] Hf]). apply (meets_pointer tb (pointer h) v Hi). eauto.
  - by apply meets_pointer.
Qed.

End History.
End FlowHistory.
