(* ===== verification/FlowTheorems.v ===== *)
(** * Correctness of the worker-owned flow table

    Over every history of calls from creation: the contract of [FlowHistory.v]
    holds, and a handle whose flow is gone never resolves again. *)

From S2P Require Import Prelude FlowIndex FlowProbe FlowFree FlowOwner FlowTable FlowSlots FlowInv FlowFind FlowChange FlowOps FlowErase FlowVisit FlowHistory.
Open Scope Z_scope.

Module FlowTheorems.
Import Flow FlowInv FlowFind FlowChange FlowOps FlowErase FlowVisit FlowHistory.

Section Theorems.
Context {TR : Traits} {Key State : Type} {KO : KeyOps Key} {KL : KeyLaws Key} {OB : FlowObserver State}.
Context (kChecked : bool).
Implicit Types (tb : t Key State) (k : Key) (h : FlowHandle) (v : State) (c : call (Key := Key) (State := State)).

(** A table with its owner, and what its callers may do. *)
Definition owned : Type := Owned.OwnerToken * t Key State.

Definition call_as (caller : Owned.OwnerToken) c (s : owned) : run (answer * owned) :=
  Owned.call kChecked caller (fun tb => exec tb c) s.

Inductive step (s : owned) : owned -> Prop :=
  | step_call caller c r s' : allowed (view_of s.2) c -> call_as caller c s = Ret (r, s') -> step s s'
  | step_release caller o : Owned.Release kChecked s.1 caller = Ret o -> step s (o, s.2).

Lemma step_inv s s' : step s s' -> inv s.2 -> inv s'.2 ∧ ages s.2 s'.2.
Proof using KL.
  intros [caller c r s1 Hc Hrun | caller o Hrun] Hi; [| split; [done | apply flow_ages_refl]].
  destruct (exec_meets s.2 c Hi Hc) as (r' & tb' & He & _ & Hi' & Ha). unfold call_as, Owned.call in Hrun.
  destruct (Owned.Check kChecked s.1 caller); [| done..]. cbn [mbind run_bind] in Hrun. rewrite He in Hrun. by injection Hrun as <- <-.
Qed.

Lemma steps_inv s s' : rtc step s s' -> inv s.2 -> inv s'.2 ∧ ages s.2 s'.2.
Proof using KL.
  induction 1 as [s | s s1 s' Hs _ IH]; intros Hi; [split; [done | apply flow_ages_refl] |].
  destruct (step_inv _ _ Hs Hi) as [Hi1 Ha1]. destruct (IH Hi1) as [Hi2 Ha2]. split; [done | by eapply flow_ages_trans].
Qed.

(** A flow that is gone is gone for good. *)
Lemma gone_dead tb tb' h : inv tb' -> ages tb tb' -> is_Some (flow tb h) -> flow tb' h = None -> dead tb' h.
Proof using.
  intros Hi [Hc Ha] [[ks v] Hf] Hn. apply flow_Some in Hf as (s & Hs & Hlive & _ & _ & Hh & Hr).
  destruct (Ha _ _ Hs) as (_ & s' & Hs' & Hg). split; [lia |]. exists s'. split; [done |].
  destruct Hg as [Hg | Hg]; [by left | right]. assert (h_generation h = generation s) as Hgh by by rewrite Hh.
  destruct (Z.eq_dec (generation s') (generation s)) as [He | Hne]; [exfalso | lia].
  assert (is_live s' = true) as Hl' by (unfold is_live in *; congruence).
  destruct (flow_at tb' (pointer h) s' Hi Hs' Hl') as (v' & _ & Hf' & _).
  assert (h = handle_of (pointer h) s') as Hh' by (rewrite Hh at 1; unfold handle_of; congruence). rewrite <- Hh' in Hf'. congruence.
Qed.

Section Reached.
Context (allocates : nat -> bool) (sizeof capacity : Z) (o : observer) (tb0 : t Key State).
Context (Hpos : 0 <= capacity) (Hcreate : Create allocates sizeof capacity o = inr tb0).

(** C7. Every call of every history of a worker-owned flow table returns and
    meets the contract: no [CHECK] fails and no slot is read out of bounds, a
    new table is empty with room for [capacity] flows, and lookups (single and
    batched), creation with and without an alias, aliasing, removal, visits and
    writes through state pointers act as on a map from handles to flows. With
    the owner check on, a call from a context other than the owner aborts. *)
Theorem flow_table_meets_contract ow tb caller c :
  rtc step (Owned.kNoOwner, tb0) (ow, tb) -> allowed (view_of tb) c ->
  (∀ h, flows (view_of tb0) h = None) ∧ free_slots (view_of tb0) = Z.to_nat capacity ∧
  if bool_decide (kChecked = true ∧ ow <> Owned.kNoOwner ∧ ow <> caller)
  then call_as caller c (ow, tb) = Fatal
  else ∃ r tb', call_as caller c (ow, tb) = Ret (r, (if kChecked then caller else ow, tb')) ∧
         promises (Z.to_nat capacity) (view_of tb) c r (view_of tb').
Proof using KL Hpos Hcreate.
  intros Hreach Hc. destruct (Create_spec _ _ _ _ _ Hpos Hcreate) as (Hi & Hnone & Hcap & _).
  destruct (steps_inv _ _ Hreach Hi) as [Hi' [Hcap' _]]. simpl in Hi', Hcap'.
  assert (free_slots (view_of tb0) = Z.to_nat capacity) as Hroom.
  { apply Create_inr in Hcreate as (? & _ & _ & _ & ->). simpl. unfold room. cbn [free_].
    destruct (Slots.Init_ok (Z.to_nat capacity) kReuse) as [_ ->]; [lia |]. apply length_seq. }
  split_and!; [done | done |]. destruct (exec_meets tb c Hi' Hc) as (r & tb' & Hrun & Hp & _). rewrite Hcap', Hcap in Hp.
  unfold call_as, Owned.call, Owned.Check. cbn [fst snd]. destruct kChecked; cbn [negb].
  - destruct (bool_decide (ow = Owned.kNoOwner)) eqn:Ho.
    + apply bool_decide_eq_true in Ho as ->. rewrite bool_decide_eq_false_2 by naive_solver.
      cbn [mbind mret run_bind run_ret]. rewrite Hrun. by exists r, tb'.
    + apply bool_decide_eq_false in Ho. destruct (decide (ow = caller)) as [-> | Hne].
      * rewrite !bool_decide_eq_false_2 by naive_solver. cbn [mbind mret run_bind run_ret]. rewrite Hrun. by exists r, tb'.
      * by rewrite !bool_decide_eq_true_2.
  - rewrite bool_decide_eq_false_2 by naive_solver. cbn [mbind mret run_bind run_ret]. rewrite Hrun. by exists r, tb'.
Qed.

(** C12. A handle is safe to keep: once the flow it named is gone, no later call
    makes it resolve again, even when its slot holds another flow. *)
Theorem stale_handle_never_resolves ow1 tb1 ow2 tb2 ow3 tb3 h :
  rtc step (Owned.kNoOwner, tb0) (ow1, tb1) -> rtc step (ow1, tb1) (ow2, tb2) -> rtc step (ow2, tb2) (ow3, tb3) ->
  Lookup tb1 h <> Ret None -> Lookup tb2 h = Ret None -> in_width 32 (id h) -> Lookup tb3 h = Ret None.
Proof using KL Hpos Hcreate.
  intros H1 H2 H3 Hl Hn Hw. destruct (Create_spec _ _ _ _ _ Hpos Hcreate) as (Hi & _).
  destruct (steps_inv _ _ H1 Hi) as [Hi1 _]. destruct (steps_inv _ _ H2 Hi1) as [Hi2 Ha2]. destruct (steps_inv _ _ H3 Hi2) as [Hi3 Ha3].
  simpl in *. unfold Lookup in *. rewrite SlotOf_spec in * by done.
  assert (flow tb3 h = None) as ->; [| done]. apply dead_flow. eapply dead_ages; [done |]. eapply (gone_dead tb1 tb2 h); try done.
  - destruct (flow tb1 h); [by eexists | done].
  - by destruct (flow tb2 h).
Qed.

End Reached.
End Theorems.
End FlowTheorems.
