(* ===== verification/FlowDemo.v ===== *)
(** * Runs of the flow table

    A table of two slots with one alias per flow, driven through a creation, a
    removal and a second creation in the same slot. *)

From S2P Require Import Prelude FlowIndex FlowProbe FlowFree FlowOwner FlowTable FlowInv FlowHistory FlowTheorems.
Open Scope Z_scope.

Module FlowDemo.
Import Flow FlowHistory FlowTheorems.

#[local] Instance demo_traits : Traits := {
  kAliases := 1; kReuse := FreeList.kLifo; kPrefetchSlots := true; aliases_ok := ltac:(lia)
}.

#[local] Instance demo_keys : KeyOps Z := { hash := fun k => k; equal := Z.eqb }.

#[local] Instance demo_laws : KeyLaws Z.
Proof.
  split; simpl.
  - apply Z.eqb_refl.
  - intros k1 k2 H%Z.eqb_eq. by apply Z.eqb_eq.
  - intros k1 k2 k3 H1%Z.eqb_eq H2%Z.eqb_eq. apply Z.eqb_eq. congruence.
  - intros k1 k2 H%Z.eqb_eq. done.
Qed.

(** An observer that counts the flows created. *)
#[local] Instance demo_observer : FlowObserver Z := {
  observer := Z; OnCreate o _ v := (o + 1, v); OnErase o _ _ := o; OnFull o := o
}.

Abbreviation table := (t Z Z).

Definition new_table : FlowTableError + table := Create (fun _ => true) 64 2 0.

Definition table0 : table :=
  match new_table with inr tb => tb | inl _ => mk (Index.construct 0) [] (FreeList.Init 0 FreeList.kLifo) 0 0 0 0 end.

Lemma created0 : new_table = inr table0.
Proof. reflexivity. Qed.

(** The table after some calls of worker 0. *)
Fixpoint after (cs : list (call (Key := Z) (State := Z))) (s : owned) : owned :=
  match cs with
  | [] => s
  | c :: cs => match call_as true (Owned.TokenOf 0) c s with Ret (_, s') => after cs s' | _ => s end
  end.

Definition table1 : owned := after [CEmplaceAliased 5 6 70] (Owned.kNoOwner, table0).
Definition table2 : owned := after [CErase 6] table1.
Definition table3 : owned := after [CEmplace 5 71] table2.
Definition first_handle : FlowHandle := mk_handle 1 1.

Lemma step_to (c : call (Key := Z) (State := Z)) (r : answer) (s s' : owned) :
  allowed (view_of s.2) c -> call_as true (Owned.TokenOf 0) c s = Ret (r, s') -> rtc (step true) s s'.
Proof. intros Hc Hrun. eapply rtc_once, step_call; done. Qed.

Lemma reach1 : rtc (step true) (Owned.kNoOwner, table0) (1, table1.2).
Proof.
  eapply (step_to (CEmplaceAliased 5 6 70)); [simpl; unfold kAliases; simpl; lia |]. vm_compute. reflexivity.
Qed.

Lemma reach2 : rtc (step true) (1, table1.2) (1, table2.2).
Proof. eapply (step_to (CErase 6)); [done |]. vm_compute. reflexivity. Qed.

Lemma reach3 : rtc (step true) (1, table2.2) (1, table3.2).
Proof. eapply (step_to (CEmplace 5 71)); [done |]. vm_compute. reflexivity. Qed.

(** The owner's lookup by alias meets the contract; another worker's aborts. *)
Lemma flow_table_meets_contract_witness :
  (∃ r tb', call_as true 1 (CFind 6) (1, table1.2) = Ret (r, (1, tb')) ∧
            promises 2 (view_of table1.2) (CFind 6) r (view_of tb')) ∧
  call_as true 2 (CFind 6) (1, table1.2) = Fatal.
Proof.
  assert (¬ (true = true ∧ 1 <> Owned.kNoOwner ∧ 1 <> 1)) as Hmine by (intros (_ & _ & Hne); by apply Hne).
  assert (true = true ∧ 1 <> Owned.kNoOwner ∧ 1 <> 2) as Hother by (split_and!; done).
  split.
  - destruct (flow_table_meets_contract true _ 64 2 _ table0 ltac:(lia) created0 1 table1.2 1 (CFind 6) reach1 I) as (_ & _ & H).
    rewrite (bool_decide_eq_false_2 _ Hmine) in H. exact H.
  - destruct (flow_table_meets_contract true _ 64 2 _ table0 ltac:(lia) created0 1 table1.2 2 (CFind 6) reach1 I) as (_ & _ & H).
    rewrite (bool_decide_eq_true_2 _ Hother) in H. exact H.
Defined.

(** It finds the flow in slot 0. *)
Example alias_finds_flow : Find table1.2 6 = Ret (Some 0%nat).
Proof. vm_compute. reflexivity. Qed.

(** The removed flow's handle does not name the flow that took its slot. *)
Lemma stale_handle_never_resolves_witness :
  Lookup table3.2 first_handle = Ret None ∧ Lookup table3.2 (mk_handle 1 3) = Ret (Some 0%nat).
Proof.
  split; [| vm_compute; reflexivity].
  apply (stale_handle_never_resolves true _ 64 2 _ table0 ltac:(lia) created0
    _ _ _ _ _ _ first_handle reach1 reach2 reach3).
  - vm_compute. congruence.
  - vm_compute. reflexivity.
  - unfold in_width. simpl. lia.
Defined.

End FlowDemo.
