(* ===== verification/FlowKey.v ===== *)
(** * The default hash of a flow key

    Models [HashFixedBytes] and [DefaultFlowHash] of [core/flow/flow_key.h]: the
    hash of a key's bytes, eight at a time. *)

From S2P Require Import Prelude.
Open Scope Z_scope.

Module FlowKey.

Definition kHashMul : Z := 0x9e3779b97f4a7c15.

(** A word of up to eight bytes, as [memcpy] reads it on a little-endian
    machine. *)
Fixpoint word (bytes : list Z) : Z :=
  match bytes with
  | [] => 0
  | b :: bytes => Z.lor b (Z.shiftl (word bytes) 8)
  end.

Definition hash_word (h w : Z) : Z :=
  let h := wrap 64 (Z.lxor h w * kHashMul) in
  Z.lxor h (Z.shiftr h 32).

(** The loop over the whole words, and the rest. [todo] is one more than the
    number of words. *)
Fixpoint hash_words (todo : nat) (bytes : list Z) (h : Z) : Z :=
  match todo, bytes with
  | S todo, _ :: _ => hash_words todo (drop 8 bytes) (hash_word h (word (take 8 bytes)))
  | _, _ => h
  end.

Definition HashFixedBytes (bytes : list Z) : Z :=
  hash_words (length bytes / 8 + 1) bytes (Z.lxor kHashMul (Z.of_nat (length bytes))).

End FlowKey.
