(* ===== verification/ConnStores.v ===== *)
(** * What connection tracking asks of its stores

    The members of the flow table and of the expiry wheel that
    [core/conntrack/conntrack.h] calls, and what it relies on: a table is a map
    from handles to keys and states in which a key occurs once, and a wheel a
    map from handles to deadlines and payloads. [FlowTable.v] and
    [ExpiryWheel.v] provide both ([ConnInstances.v]). *)

From S2P Require Import Prelude FlowTable ExpiryWheel.
Open Scope Z_scope.

Module Stores.
#[local] Existing Instance Wheel.ExpiryHandle_eq_dec.
Import Flow.

(** ** The connection table *)

Class Table (Key State T : Type) := {
  Find : T -> Key -> run (option nat);
  FindRef : T -> Key -> run FlowRef;
  FindRefBatch : T -> list Key -> run (list FlowRef * Z);
  Lookup : T -> FlowHandle -> run (option nat);
  KeyOf : T -> FlowHandle -> run (option Key);
  Emplace : T -> Key -> State -> run (EmplaceResult * T);
  EraseHandle : T -> FlowHandle -> run (bool * T);
  load : T -> nat -> run State;
  store : T -> nat -> State -> run T;
  table_size : T -> Z;
  table_capacity : T -> nat;
  table_full : T -> bool
}.

(** The slot a handle names, which is the pointer to its state. *)
Definition pointer (h : FlowHandle) : nat := Z.to_nat (id h - 1).

Section Laws.
Context {Key State T : Type} {TB : Table Key State T}.

(** What a lookup of [k] gives when the flows are [m]. *)
Definition is_ref (m : FlowHandle -> option (Key * State)) (k : Key) (r : FlowRef) : Prop :=
  match state r with
  | Some p => p = pointer (handle r) ∧ ∃ v, m (handle r) = Some (k, v)
  | None => r = no_ref ∧ ∀ h v, m h <> Some (k, v)
  end.

Class TableLaws := {
  ok : T -> Prop;
  entry : T -> FlowHandle -> option (Key * State);
  entry_width t h x : ok t -> entry t h = Some x -> in_width 32 (id h);
  entry_unique t h h' k v v' : ok t -> entry t h = Some (k, v) -> entry t h' = Some (k, v') -> h = h';
  find_ref t k : ok t -> ∃ r, FindRef t k = Ret r ∧ Find t k = Ret (state r) ∧ is_ref (entry t) k r;
  find_ref_batch t ks : ok t -> (length ks <= kMaxBatch)%nat ->
    ∃ rs hits, FindRefBatch t ks = Ret (rs, hits) ∧ Forall2 (fun k r => FindRef t k = Ret r) ks rs;
  lookup t h : ok t -> in_width 32 (id h) -> Lookup t h = Ret ((fun _ => pointer h) <$> entry t h);
  key_of t h : ok t -> in_width 32 (id h) -> KeyOf t h = Ret (fst <$> entry t h);
  load_entry t h k v : ok t -> entry t h = Some (k, v) -> load t (pointer h) = Ret v;
  store_entry t h k v v' : ok t -> entry t h = Some (k, v) ->
    ∃ t', store t (pointer h) v' = Ret t' ∧ ok t' ∧ table_capacity t' = table_capacity t ∧
      ∀ h', entry t' h' = if decide (h' = h) then Some (k, v') else entry t h';
  emplace t k v : ok t -> (∀ h v, entry t h <> Some (k, v)) ->
    ∃ r t', Emplace t k v = Ret (r, t') ∧ ok t' ∧ table_capacity t' = table_capacity t ∧
      if table_full t then e_status r = kFull ∧ ∀ h, entry t' h = entry t h
      else e_status r = kCreated ∧ e_state r = Some (pointer (e_handle r)) ∧ entry t (e_handle r) = None ∧
           ∀ h, entry t' h = if decide (h = e_handle r) then Some (k, v) else entry t h;
  erase t h : ok t -> in_width 32 (id h) ->
    match entry t h with
    | Some _ => ∃ t', EraseHandle t h = Ret (true, t') ∧ ok t' ∧ table_capacity t' = table_capacity t ∧
                  ∀ h', entry t' h' = if decide (h' = h) then None else entry t h'
    | None => EraseHandle t h = Ret (false, t)
    end
}.

End Laws.

Arguments TableLaws : clear implicits.
Arguments TableLaws Key State T {TB}.

(** ** The timers *)

(** [Poll] with a callback that makes no call of the wheel and consumes its
    timer: the result, and the payloads in the order of their callbacks. *)
Class Timers (P W : Type) := {
  After : Z -> Z -> Z;
  Schedule : W -> Z -> P -> run (Wheel.ExpiryHandle * W);
  Refresh : W -> Wheel.ExpiryHandle -> Z -> run (bool * W);
  Cancel : W -> Wheel.ExpiryHandle -> run (bool * W);
  Poll : W -> Z -> Z -> run (Wheel.PollResult * list P * W);
  wheel_full : W -> bool
}.

Section TimerLaws.
Context {P W : Type} {TM : Timers P W}.

(** [m] after the timers [hs] are gone. *)
Definition without (m : Wheel.ExpiryHandle -> option (Z * P)) (hs : list Wheel.ExpiryHandle) h : option (Z * P) :=
  if decide (h ∈ hs) then None else m h.

Class TimerLaws := {
  wheel_ok : W -> Prop;
  timer : W -> Wheel.ExpiryHandle -> option (Z * P);
  (** Deadlines in the range the wheel documents, seen from its time; every
      live deadline was when it was armed. *)
  near : W -> Z -> Prop;
  timely : W -> Prop;
  (** A deadline that had passed at a time of a poll to [now]; one that has
      passed by its end; times of the clock. *)
  passed : W -> Z -> Z -> Prop;
  due : W -> Z -> Z -> Prop;
  time : Z -> Prop;
  no_timer w : wheel_ok w -> timer w Wheel.kNoExpiry = None;
  schedule w d p : wheel_ok w ->
    ∃ h w', Schedule w d p = Ret (h, w') ∧ wheel_ok w' ∧ (near w d -> timely w -> timely w') ∧
      if wheel_full w then h = Wheel.kNoExpiry ∧ w' = w
      else timer w h = None ∧ ∀ h', timer w' h' = if decide (h' = h) then Some (d, p) else timer w h';
  refresh w h d : wheel_ok w ->
    ∃ b w', Refresh w h d = Ret (b, w') ∧ wheel_ok w' ∧ (near w d -> timely w -> timely w') ∧
      match timer w h with
      | Some (_, p) => b = true ∧ ∀ h', timer w' h' = if decide (h' = h) then Some (d, p) else timer w h'
      | None => b = false ∧ w' = w
      end;
  cancel w h : wheel_ok w ->
    ∃ b w', Cancel w h = Ret (b, w') ∧ wheel_ok w' ∧ (timely w -> timely w') ∧
      match timer w h with
      | Some _ => b = true ∧ ∀ h', timer w' h' = if decide (h' = h) then None else timer w h'
      | None => b = false ∧ w' = w
      end;
  poll w now budget : wheel_ok w -> time now -> 0 <= budget ->
    ∃ r hs ps w', Poll w now budget = Ret (r, ps, w') ∧ wheel_ok w' ∧ (timely w -> timely w') ∧
      NoDup hs ∧ Forall2 (fun h p => ∃ d, timer w h = Some (d, p) ∧ passed w now d) hs ps ∧
      (∀ h, timer w' h = without (timer w) hs h) ∧
      (Wheel.exhausted r = false -> timely w -> ∀ h d p, timer w' h = Some (d, p) -> ¬ due w now d)
}.

End TimerLaws.

Arguments TimerLaws : clear implicits.
Arguments TimerLaws P W {TM}.

End Stores.
