(* ===== verification/ConnTypes.v ===== *)
(** * Connections: keys, flags and the TCP state table

    Models the parts of [core/conntrack/conntrack.h] above [class Conntrack]:
    the canonical key of a packet, the timeout policy, the flag combinations and
    the state table of TCP, ICMP quotes, and what a packet does to an existing
    connection. Addresses are lists of 16 bytes. *)

From S2P Require Import Prelude PacketParse.
Open Scope Z_scope.

Module ConnTypes.
Import Parse.

Inductive Direction := kOriginal | kReply.

Definition kTcpFin : Z := 0x01.
Definition kTcpSyn : Z := 0x02.
Definition kTcpRst : Z := 0x04.
Definition kTcpAck : Z := 0x10.

Inductive TcpState :=
  | kNone | kSynSent | kSynRecv | kEstablished | kFinWait | kCloseWait | kLastAck | kTimeWait | kClose | kSynSent2.

#[export] Instance Direction_eq_dec : EqDecision Direction.
Proof. solve_decision. Defined.
#[export] Instance TcpState_eq_dec : EqDecision TcpState.
Proof. solve_decision. Defined.

Definition kTcpStates : nat := 10.

(** ** Keys *)

Record CtKey := mk_key {
  addr_a : list Z;
  addr_b : list Z;
  port_a : Z;
  port_b : Z;
  k_protocol : Z;
  family : Z;
  zone : Z
}.

#[export] Instance CtKey_eq_dec : EqDecision CtKey.
Proof. solve_decision. Defined.

Record CanonicalKey := mk_canonical { key : CtKey; src_is_a : bool }.

(** A word of eight bytes after [__builtin_bswap64]. *)
Fixpoint big (bytes : list Z) (acc : Z) : Z :=
  match bytes with
  | [] => acc
  | b :: bytes => big bytes (acc * 256 + b)
  end.

Definition MakeKey (p : ParsedFrame) (zone : Z) : CanonicalKey :=
  let s0 := big (take 8 (src p)) 0 in
  let d0 := big (take 8 (dst p)) 0 in
  let s1 := big (take 8 (drop 8 (src p))) 0 in
  let d1 := big (take 8 (drop 8 (dst p))) 0 in
  let src_is_a :=
    bool_decide (s0 < d0) ||
    (bool_decide (s0 = d0) &&
       (bool_decide (s1 < d1) || (bool_decide (s1 = d1) && bool_decide (src_port p <= dst_port p)))) in
  let a := if src_is_a then src p else dst p in
  let b := if src_is_a then dst p else src p in
  let port_a := if src_is_a then src_port p else dst_port p in
  let port_b := if src_is_a then dst_port p else src_port p in
  let tail := Z.lor (Z.lor (Z.lor (Z.lor port_a (Z.shiftl port_b 16)) (Z.shiftl (protocol p) 32))
                       (Z.shiftl (if bool_decide (l3 p = L3Ipv4) then 4 else 6) 40)) (Z.shiftl zone 48) in
  mk_canonical
    (mk_key a b (wrap 16 tail) (wrap 16 (Z.shiftr tail 16)) (wrap 8 (Z.shiftr tail 32))
       (wrap 8 (Z.shiftr tail 40)) (wrap 16 (Z.shiftr tail 48)))
    src_is_a.

(** ** Timeouts *)

Record TimeoutPolicy := mk_policy {
  tcp : list Z;
  udp_unreplied : Z;
  udp_replied : Z;
  icmp : Z;
  other : Z;
  tcp_pickup : bool
}.

Definition policy0 : TimeoutPolicy :=
  mk_policy [10; 120; 60; 432000; 120; 60; 30; 120; 10; 120] 30 120 30 600 false.

Definition Scaled (p : TimeoutPolicy) (ticks_per_second : Z) : TimeoutPolicy :=
  let scale t := wrap 64 (t * ticks_per_second) in
  mk_policy (scale <$> tcp p) (scale (udp_unreplied p)) (scale (udp_replied p)) (scale (icmp p))
    (scale (other p)) (tcp_pickup p).

Inductive TrackStatus := kNew | kExisting | kRelated | kInvalid | kUntracked | kFull.

#[export] Instance TrackStatus_eq_dec : EqDecision TrackStatus.
Proof. solve_decision. Defined.

(** ** The TCP state table *)

Definition kIv : Z := 0xfe.
Definition kIg : Z := 0xff.

Inductive FlagClass := kSyn | kSynAck | kFin | kAck | kRst | kNoFlags.

#[export] Instance FlagClass_eq_dec : EqDecision FlagClass.
Proof. solve_decision. Defined.

(** [static_cast<uint8_t>(x)] and back. *)
Definition s (x : TcpState) : Z :=
  match x with
  | kNone => 0 | kSynSent => 1 | kSynRecv => 2 | kEstablished => 3 | kFinWait => 4
  | kCloseWait => 5 | kLastAck => 6 | kTimeWait => 7 | kClose => 8 | kSynSent2 => 9
  end.

Definition state_of (x : Z) : run TcpState :=
  at_ [kNone; kSynSent; kSynRecv; kEstablished; kFinWait; kCloseWait; kLastAck; kTimeWait; kClose; kSynSent2]
    (Z.to_nat x).

Definition dir_index (d : Direction) : nat := match d with kOriginal => 0 | kReply => 1 end.
Definition class_index (c : FlagClass) : nat :=
  match c with kSyn => 0 | kSynAck => 1 | kFin => 2 | kAck => 3 | kRst => 4 | kNoFlags => 5 end.

Definition kTcpTable : list (list (list Z)) := [
  [ (* syn *)    [s kSynSent; s kSynSent; kIg; kIg; kIg; kIg; kIg; s kSynSent; s kSynSent; s kSynSent2];
    (* synack *) [kIv; kIv; s kSynRecv; kIv; kIv; kIv; kIv; kIv; kIv; s kSynRecv];
    (* fin *)    [kIv; kIv; s kFinWait; s kFinWait; s kLastAck; s kLastAck; s kLastAck; s kTimeWait; s kClose; kIv];
    (* ack *)    [s kEstablished; kIv; s kEstablished; s kEstablished; s kCloseWait; s kCloseWait; s kTimeWait; s kTimeWait; s kClose; kIv];
    (* rst *)    [kIv; s kClose; s kClose; s kClose; s kClose; s kClose; s kClose; s kClose; s kClose; s kClose];
    (* none *)   [kIv; kIv; kIv; kIv; kIv; kIv; kIv; kIv; kIv; kIv] ];
  [ (* syn *)    [kIv; s kSynSent2; kIv; kIv; kIv; kIv; kIv; s kSynSent; kIv; s kSynSent2];
    (* synack *) [kIv; s kSynRecv; kIg; kIg; kIg; kIg; kIg; kIg; kIg; s kSynRecv];
    (* fin *)    [kIv; kIv; s kFinWait; s kFinWait; s kLastAck; s kLastAck; s kLastAck; s kTimeWait; s kClose; kIv];
    (* ack *)    [kIv; kIg; s kSynRecv; s kEstablished; s kCloseWait; s kCloseWait; s kTimeWait; s kTimeWait; s kClose; kIg];
    (* rst *)    [kIv; s kClose; s kClose; s kClose; s kClose; s kClose; s kClose; s kClose; s kClose; s kClose];
    (* none *)   [kIv; kIv; kIv; kIv; kIv; kIv; kIv; kIv; kIv; kIv] ]
].

Definition tcp_next (d : Direction) (c : FlagClass) (x : TcpState) : run Z :=
  rows ← at_ kTcpTable (dir_index d);
  row ← at_ rows (class_index c);
  at_ row (Z.to_nat (s x)).

Definition set (flags bit : Z) : bool := bool_decide (Z.land flags bit <> 0).

Definition ClassOf (flags : Z) : FlagClass :=
  if set flags kTcpRst then kRst
  else if set flags kTcpSyn then (if set flags kTcpAck then kSynAck else kSyn)
  else if set flags kTcpFin then kFin
  else if set flags kTcpAck then kAck
  else kNoFlags.

Definition kTcpUrg : Z := 0x20.
Definition kCheckedFlags : Z := Z.lor (Z.lor (Z.lor (Z.lor kTcpFin kTcpSyn) kTcpRst) kTcpAck) kTcpUrg.
Definition FlagSet (flags : Z) : Z := Z.shiftl 1 flags.
Definition kValidFlagSets : Z :=
  fold_right Z.lor 0
    [FlagSet kTcpSyn; FlagSet (Z.lor kTcpSyn kTcpUrg); FlagSet (Z.lor kTcpSyn kTcpAck); FlagSet kTcpRst;
     FlagSet (Z.lor kTcpRst kTcpAck); FlagSet (Z.lor kTcpFin kTcpAck);
     FlagSet (Z.lor (Z.lor kTcpFin kTcpAck) kTcpUrg); FlagSet kTcpAck; FlagSet (Z.lor kTcpAck kTcpUrg)].
Definition ValidFlags (flags : Z) : bool :=
  bool_decide (Z.land (Z.shiftr kValidFlagSets (Z.land flags kCheckedFlags)) 1 <> 0).

(** ** ICMP *)

Definition IsIcmpError (k : L4Kind) (type : Z) : bool :=
  if bool_decide (k = L4Icmp)
  then bool_decide (type = 3) || bool_decide (type = 4) || bool_decide (type = 5) || bool_decide (type = 11) ||
       bool_decide (type = 12)
  else bool_decide (1 <= type) && bool_decide (type <= 4).
Definition IsEchoRequest (k : L4Kind) (type : Z) : bool :=
  if bool_decide (k = L4Icmp) then bool_decide (type = 8) else bool_decide (type = 128).
Definition IsEchoReply (k : L4Kind) (type : Z) : bool :=
  if bool_decide (k = L4Icmp) then bool_decide (type = 0) else bool_decide (type = 129).

(** The ports of a quoted packet, which are an echo's identifier for ICMP. *)
Definition quoted_ports (q : list Z) (off : Z) (out : ParsedFrame) : run (bool * ParsedFrame) :=
  if bool_decide (protocol out = 6) || bool_decide (protocol out = 17) then
    if bool_decide (size q < off + 4) then mret (false, out)
    else sp ← Be16 q off; dp ← Be16 q (off + 2); mret (true, set_ports sp dp out)
  else if bool_decide (protocol out = 1) || bool_decide (protocol out = 58) then
    if bool_decide (size q < off + 8) then mret (false, out)
    else
      t ← byte q off;
      if (if bool_decide (protocol out = 1) then bool_decide (t <> 0) && bool_decide (t <> 8)
          else bool_decide (t <> 128) && bool_decide (t <> 129))
      then mret (false, out)
      else ident ← Be16 q (off + 4); mret (true, set_ports ident ident out)
  else mret (true, out).

(** The packet quoted by an ICMP error, and whether its key can be read. *)
Definition ParseQuoted (q : list Z) (v6 : bool) : run (bool * ParsedFrame) :=
  let out := parsed0 in
  if negb v6 then
    if bool_decide (size q < 20) then mret (false, out)
    else
      b0 ← byte q 0;
      if bool_decide (Z.shiftr b0 4 <> 4) then mret (false, out)
      else
        let off := Z.land b0 0x0f * 4 in
        if bool_decide (off < 20) || bool_decide (size q < off) then mret (false, out)
        else
          proto ← byte q 9;
          sa ← bytes q 12 4; da ← bytes q 16 4;
          let out := set_addrs sa da (set_protocol proto (set_l3 L3Ipv4 out)) in
          frag ← Be16 q 6;
          if bool_decide (Z.land frag 0x1fff <> 0) then mret (false, out)
          else quoted_ports q off out
  else
    if bool_decide (size q < 40) then mret (false, out)
    else
      b0 ← byte q 0;
      if bool_decide (Z.shiftr b0 4 <> 6) then mret (false, out)
      else
        '(status, off, out) ← WalkIpv6Chain q (size q) (set_l3 L3Ipv6 out);
        if bool_decide (status <> kOk) then mret (false, out)
        else
          sa ← bytes q 8 16; da ← bytes q 24 16;
          quoted_ports q off (set_addrs sa da out).

(** ** Existing connections *)

Inductive Step := StepInvalid | StepKept | StepReopen.

(** [StepExisting] on the fields of the entry it may change, its TCP state and
    whether a reply was seen. *)
Definition StepExisting (e_tcp : TcpState) (e_replied : bool) (p : ParsedFrame) (dir : Direction)
    (may_create : bool) : run (Step * TcpState * bool) :=
  let seen (e_tcp : TcpState) :=
    mret (StepKept, e_tcp, if bool_decide (dir = kReply) then true else e_replied) in
  if bool_decide (l4 p = L4Tcp) then
    if negb (ValidFlags (tcp_flags p)) then mret (StepInvalid, e_tcp, e_replied)
    else
      next ← tcp_next dir (ClassOf (tcp_flags p)) e_tcp;
      if bool_decide (next = kIv) then mret (StepInvalid, e_tcp, e_replied)
      else if bool_decide (next = s kSynSent) &&
              (bool_decide (e_tcp = kTimeWait) || bool_decide (e_tcp = kClose))
      then mret (if may_create then StepReopen else StepInvalid, e_tcp, e_replied)
      else if bool_decide (next <> kIg) then e_tcp ← state_of next; seen e_tcp
      else seen e_tcp
  else seen e_tcp.

Definition TimeoutFor (policy : TimeoutPolicy) (k : L4Kind) (e_tcp : TcpState) (e_replied : bool) : run Z :=
  match k with
  | L4Tcp => at_ (tcp policy) (Z.to_nat (s e_tcp))
  | L4Udp => mret (if e_replied then udp_replied policy else udp_unreplied policy)
  | L4Icmp | L4Icmpv6 => mret (icmp policy)
  | _ => mret (other policy)
  end.

Definition Keyed (p : ParsedFrame) : bool :=
  if bool_decide (l3 p = L3None) || bool_decide (l4 p = L4None) then false
  else if bool_decide (l4 p = L4Icmp) || bool_decide (l4 p = L4Icmpv6)
  then IsEchoRequest (l4 p) (icmp_type p) || IsEchoReply (l4 p) (icmp_type p)
  else true.

Definition QuotedKey (frame : list Z) (p : ParsedFrame) (zone : Z) : run (option CanonicalKey) :=
  let quote := l4_offset p + 8 in
  if bool_decide (size frame < quote) then mret None
  else
    let ip_end := Z.min (size frame) (l4_offset p + l4_length p) in
    if bool_decide (ip_end < quote) then mret None
    else
      '(good, inner) ← ParseQuoted (take (Z.to_nat (ip_end - quote)) (ptr frame quote))
                         (bool_decide (l3 p = L3Ipv6));
      if negb good || bool_decide (l3 inner <> l3 p) then mret None
      else mret (Some (MakeKey inner zone)).

End ConnTypes.
