(* ===== verification/ConnKeys.v ===== *)
(** * Canonical connection keys

    [MakeKey] gives the two directions of a connection one key, and different
    connections different keys. *)

From S2P Require Import Prelude PacketParse ConnTypes.
Open Scope Z_scope.

Module ConnKeys.
Import Parse ConnTypes.

(** A parse whose fields are of their types. *)
Record typed (p : ParsedFrame) : Prop := {
  ty_src : length (src p) = 16%nat ∧ Forall (in_width 8) (src p);
  ty_dst : length (dst p) = 16%nat ∧ Forall (in_width 8) (dst p);
  ty_ports : in_width 16 (src_port p) ∧ in_width 16 (dst_port p);
  ty_protocol : in_width 8 (protocol p)
}.

(** ** Words *)

Lemma big_acc l acc : big l acc = acc * 256 ^ Z.of_nat (length l) + big l 0.
Proof.
  revert acc. induction l as [| b l IH]; intros acc; [simpl; lia |]. cbn [big length]. rewrite IH, (IH (0 * 256 + b)).
  rewrite Nat2Z.inj_succ, Z.pow_succ_r by lia. lia.
Qed.

Lemma big_range l : Forall (in_width 8) l -> 0 <= big l 0 < 256 ^ Z.of_nat (length l).
Proof.
  induction l as [| b l IH]; [done |]. intros [Hb Hl]%Forall_cons. specialize (IH Hl). unfold in_width in Hb.
  cbn [big length]. rewrite big_acc, Nat2Z.inj_succ, Z.pow_succ_r by lia. nia.
Qed.

Lemma big_inj l l' :
  length l = length l' -> Forall (in_width 8) l -> Forall (in_width 8) l' -> big l 0 = big l' 0 -> l = l'.
Proof.
  revert l'. induction l as [| b l IH]; intros [| b' l'] Hlen Hl Hl' He; try done. injection Hlen as Hlen.
  apply Forall_cons in Hl as [Hb Hl]. apply Forall_cons in Hl' as [Hb' Hl']. unfold in_width in *. cbn [big] in He.
  rewrite big_acc, (big_acc l'), <- Hlen in He. pose proof (big_range l Hl). pose proof (big_range l' Hl').
  rewrite <- Hlen in *. set (N := 256 ^ Z.of_nat (length l)) in *. assert (b = b') as -> by nia. f_equal. apply IH; try done. lia.
Qed.

(** The words of an address give it back. *)
Lemma addr_words a a' :
  length a = 16%nat ∧ Forall (in_width 8) a -> length a' = 16%nat ∧ Forall (in_width 8) a' ->
  big (take 8 a) 0 = big (take 8 a') 0 -> big (take 8 (drop 8 a)) 0 = big (take 8 (drop 8 a')) 0 -> a = a'.
Proof.
  intros [Hl Ha] [Hl' Ha'] H0 H1. rewrite <- (take_drop 8 a), <- (take_drop 8 a').
  rewrite <- (take_ge (drop 8 a) 8), <- (take_ge (drop 8 a') 8) by (rewrite length_drop; lia). f_equal.
  - apply big_inj; try done; [rewrite !length_take; lia | by apply Forall_take..].
  - apply big_inj; try done; [rewrite !length_take, !length_drop; lia | by apply Forall_take, Forall_drop..].
Qed.

(** ** The tail word *)

Lemma tail_fields pa pb pr fam z :
  in_width 16 pa -> in_width 16 pb -> in_width 8 pr -> in_width 8 fam -> in_width 16 z ->
  let tail := Z.lor (Z.lor (Z.lor (Z.lor pa (Z.shiftl pb 16)) (Z.shiftl pr 32)) (Z.shiftl fam 40)) (Z.shiftl z 48) in
  wrap 16 tail = pa ∧ wrap 16 (Z.shiftr tail 16) = pb ∧ wrap 8 (Z.shiftr tail 32) = pr ∧
  wrap 8 (Z.shiftr tail 40) = fam ∧ wrap 16 (Z.shiftr tail 48) = z.
Proof.
  intros Ha Hb Hp Hf Hz tail. unfold in_width in Ha, Hb, Hp, Hf, Hz.
  assert (tail = pa + pb * 2 ^ 16 + pr * 2 ^ 32 + fam * 2 ^ 40 + z * 2 ^ 48) as ->.
  { unfold tail. rewrite (lor_shift pa pb 16), (lor_shift _ pr 32), (lor_shift _ fam 40), (lor_shift _ z 48) by lia. done. }
  unfold wrap. rewrite !Z.shiftr_div_pow2 by lia. cbn [Z.pow Z.pow_pos Pos.iter Z.mul Pos.mul] in *.
  split_and!; Z.div_mod_to_equations; lia.
Qed.

(** ** The key *)

Definition is_v4 (p : ParsedFrame) : bool := bool_decide (l3 p = L3Ipv4).

(** The order of the two endpoints, as three numbers each. *)
Definition rank (a : list Z) (port : Z) : Z * Z * Z := (big (take 8 a) 0, big (take 8 (drop 8 a)) 0, port).
Definition below (x y : Z * Z * Z) : Prop :=
  x.1.1 < y.1.1 ∨ (x.1.1 = y.1.1 ∧ (x.1.2 < y.1.2 ∨ (x.1.2 = y.1.2 ∧ x.2 <= y.2))).

Lemma below_total x y : below x y ∨ below y x.
Proof. unfold below. lia. Qed.

Lemma below_antisym x y : below x y -> below y x -> x = y.
Proof. destruct x as [[x1 x2] x3], y as [[y1 y2] y3]. unfold below. simpl. intros. f_equal; [f_equal |]; lia. Qed.

Lemma MakeKey_spec p z :
  typed p -> in_width 16 z ->
  (src_is_a (MakeKey p z) = true <-> below (rank (src p) (src_port p)) (rank (dst p) (dst_port p))) ∧
  key (MakeKey p z) =
    (if src_is_a (MakeKey p z)
     then mk_key (src p) (dst p) (src_port p) (dst_port p) (protocol p) (if is_v4 p then 4 else 6) z
     else mk_key (dst p) (src p) (dst_port p) (src_port p) (protocol p) (if is_v4 p then 4 else 6) z).
Proof.
  intros [_ _ [Hs Hd] Hp] Hz. unfold MakeKey. cbn [key src_is_a]. set (b := _ || _).
  assert (b = true <-> below (rank (src p) (src_port p)) (rank (dst p) (dst_port p))) as Hb.
  { unfold b, below, rank. cbn [fst snd]. rewrite orb_true_iff, andb_true_iff, orb_true_iff, andb_true_iff, !bool_decide_eq_true. done. }
  clearbody b. split; [done |].
  destruct (tail_fields (if b then src_port p else dst_port p) (if b then dst_port p else src_port p) (protocol p)
    (if is_v4 p then 4 else 6) z) as (H1 & H2 & H3 & H4 & H5); try done; try (by destruct b).
  { destruct (is_v4 p); unfold in_width; lia. }
  unfold is_v4 in *. rewrite H1, H2, H3, H4, H5. by destruct b.
Qed.

(** Equal ranks are equal endpoints. *)
Lemma rank_inj a x a' x' :
  length a = 16%nat ∧ Forall (in_width 8) a -> length a' = 16%nat ∧ Forall (in_width 8) a' ->
  rank a x = rank a' x' -> a = a' ∧ x = x'.
Proof. intros Ha Ha' [= H0 H1 ->]. split; [by apply addr_words | done]. Qed.

(** Two packets with the same endpoints, in this order. *)
Definition same_way (p q : ParsedFrame) : Prop :=
  src p = src q ∧ src_port p = src_port q ∧ dst p = dst q ∧ dst_port p = dst_port q.
Definition other_way (p q : ParsedFrame) : Prop :=
  src p = dst q ∧ src_port p = dst_port q ∧ dst p = src q ∧ dst_port p = src_port q.

(** C29. A connection's key names the connection: two packets have the same key
    exactly when they agree on zone, protocol and address family and have the
    same two endpoints in either order. Of two such packets the key tells the
    direction: both have their source as endpoint A or neither exactly when they
    go the same way. *)
Theorem key_names_connection p q z z' :
  typed p -> typed q -> in_width 16 z -> in_width 16 z' ->
  (key (MakeKey p z) = key (MakeKey q z') <->
     z = z' ∧ protocol p = protocol q ∧ is_v4 p = is_v4 q ∧ (same_way p q ∨ other_way p q)) ∧
  (key (MakeKey p z) = key (MakeKey q z') ->
     src_is_a (MakeKey p z) = src_is_a (MakeKey q z') <-> same_way p q).
Proof.
  intros Hp Hq Hz Hz'. destruct (MakeKey_spec p z Hp Hz) as [Hsp Hkp]. destruct (MakeKey_spec q z' Hq Hz') as [Hsq Hkq].
  set (bp := src_is_a (MakeKey p z)) in *. set (bq := src_is_a (MakeKey q z')) in *. clearbody bp bq.
  assert (∀ x y : bool, (if x then 4 else 6) = (if y then 4 else 6) <-> x = y) as Hfam by (intros [] []; naive_solver).
  assert (same_way p q -> bp = bq) as Hsame.
  { intros (H1 & H2 & H3 & H4). rewrite H1, H2, H3, H4 in Hsp. destruct bp, bq; naive_solver. }
  assert (other_way p q -> bp = bq -> same_way p q) as Hother.
  { intros (H1 & H2 & H3 & H4) ->. rewrite H1, H2, H3, H4 in Hsp.
    assert (rank (dst q) (dst_port q) = rank (src q) (src_port q)) as Hr.
    { destruct (below_total (rank (dst q) (dst_port q)) (rank (src q) (src_port q))), bq; apply below_antisym; naive_solver. }
    apply rank_inj in Hr as [Ha Hb]; [| apply Hq..]. unfold same_way. split_and!; congruence. }
  rewrite Hkp, Hkq. unfold same_way, other_way in *. split.
  - split.
    + destruct bp, bq; intros [= ? ? ? ? ? Hf ?]; apply Hfam in Hf; naive_solver.
    + intros (-> & Hpr & Hv & Hend). rewrite Hpr, Hv. destruct Hend as [He | He].
      * rewrite (Hsame He). destruct He as (-> & -> & -> & ->). done.
      * destruct (decide (bp = bq)) as [Hb | Hb]; [specialize (Hother He Hb) as (-> & -> & -> & ->); by rewrite Hb |].
        destruct He as (-> & -> & -> & ->). by destruct bp, bq.
  - intros Hk. split; [| done]. intros ->. destruct bq; injection Hk as H1 H2 H3 H4 _ _ _; by split_and!.
Qed.

End ConnKeys.
