(* ===== verification/Conntrack.v ===== *)
(** * Connection tracking

    Models [class Conntrack] of [core/conntrack/conntrack.h] over the stores of
    [ConnStores.v]. An [Entry *] is the slot number the table gives for it, read
    and written through [load] and [store]. The callback of [Expire] erases from
    the table and the wheel's poll does not touch the table, so the erasures
    follow the poll, in the order of the callbacks. *)

From S2P Require Import Prelude PacketParse FlowTable ExpiryWheel ConnStores ConnTypes.
Open Scope Z_scope.

Module Conntrack.
Import Parse Stores ConnTypes.
#[local] Existing Instances Wheel.ExpiryHandle_eq_dec.

Inductive CreateError := kInvalidConfig | kOutOfMemory.
Inductive LookupBody := kAuto | kPlain | kStaged.

#[export] Instance LookupBody_eq_dec : EqDecision LookupBody.
Proof. solve_decision. Defined.

Section Conntrack.
Context {U : Type} (user0 : U).

Record Entry := mk_entry {
  e_tcp : TcpState;
  initiator_is_a : bool;
  replied : bool;
  e_timer : Wheel.ExpiryHandle;
  user : U
}.

Definition entry0 : Entry := mk_entry kNone true false Wheel.kNoExpiry user0.

Definition set_timer (h : Wheel.ExpiryHandle) (e : Entry) : Entry :=
  mk_entry (e_tcp e) (initiator_is_a e) (replied e) h (user e).
Definition set_user (u : U) (e : Entry) : Entry :=
  mk_entry (e_tcp e) (initiator_is_a e) (replied e) (e_timer e) u.

Context {T W : Type} {TB : Table CtKey Entry T} {TM : Timers Flow.FlowHandle W}.

Record t := mk {
  table_ : T;
  wheel_ : W;
  body_ : LookupBody;
  policy_ : TimeoutPolicy
}.

Definition with_table (tb : T) (ct : t) : t := mk tb (wheel_ ct) (body_ ct) (policy_ ct).
Definition with_wheel (w : W) (ct : t) : t := mk (table_ ct) w (body_ ct) (policy_ ct).

Record Result := mk_result {
  status : TrackStatus;
  direction : Direction;
  r_handle : Flow.FlowHandle;
  r_entry : option nat
}.

(** [{status}] and [{status, direction}]. *)
Definition answer (st : TrackStatus) : Result := mk_result st kOriginal Flow.kNoFlow None.
Definition answer_dir (st : TrackStatus) (d : Direction) : Result := mk_result st d Flow.kNoFlow None.

(** ** Creation *)

(** [table] and [wheel] are what [Table::Create] and [Wheel::Create] give,
    [forced] the override of the environment. *)
Definition Create (table : Flow.FlowTableError + T) (wheel : Wheel.ExpiryError + W) (allocated : bool)
    (forced : LookupBody) (table_bytes l2_bytes : Z) (policy : TimeoutPolicy) : CreateError + t :=
  match table with
  | inl e => inl (match e with Flow.kOutOfMemory => kOutOfMemory | _ => kInvalidConfig end)
  | inr tb =>
      match wheel with
      | inl e => inl (match e with Wheel.kOutOfMemory => kOutOfMemory | _ => kInvalidConfig end)
      | inr w =>
          if negb allocated then inl kOutOfMemory
          else
            let body := if bool_decide (forced <> kAuto) then forced
                        else if bool_decide (l2_bytes < table_bytes) then kStaged else kPlain in
            inr (mk tb w body policy)
      end
  end.

(** ** One packet *)

Definition TimeoutOf (ct : t) (k : L4Kind) (e : Entry) : run Z :=
  TimeoutFor (policy_ ct) k (e_tcp e) (replied e).

Definition dir_of (c_src_is_a e_initiator_is_a : bool) : Direction :=
  if bool_decide (c_src_is_a = e_initiator_is_a) then kOriginal else kReply.

Definition Related (ct : t) (frame : list Z) (p : ParsedFrame) (zone : Z) : run Result :=
  c ← QuotedKey frame p zone;
  match c with
  | None => mret (answer kInvalid)
  | Some c =>
      ref ← FindRef (table_ ct) (key c);
      match Flow.state ref with
      | None => mret (answer kInvalid)
      | Some at_entry =>
          e ← load (table_ ct) at_entry;
          let quoted := dir_of (src_is_a c) (initiator_is_a e) in
          let dir := match quoted with kOriginal => kReply | kReply => kOriginal end in
          mret (mk_result kRelated dir (Flow.handle ref) (Some at_entry))
      end
  end.

Definition Unkeyed (ct : t) (frame : list Z) (p : ParsedFrame) (zone : Z) : run Result :=
  if bool_decide (l3 p <> L3None) && bool_decide (l4 p <> L4None) &&
     (bool_decide (l4 p = L4Icmp) || bool_decide (l4 p = L4Icmpv6)) &&
     IsIcmpError (l4 p) (icmp_type p)
  then Related ct frame p zone
  else mret (answer kUntracked).

(** [wheel_->Refresh(e.timer, Wheel::After(now, TimeoutOf(p.l4, e)))] *)
Definition refresh_timer (ct : t) (k : L4Kind) (e : Entry) (now : Z) : run t :=
  timeout ← TimeoutOf ct k e;
  '(_, w) ← Refresh (wheel_ ct) (e_timer e) (After now timeout);
  mret (with_wheel w ct).

(** The TCP state a packet starts a connection in, if it may start one. *)
Definition fresh_tcp (policy : TimeoutPolicy) (p : ParsedFrame) : option TcpState :=
  if bool_decide (l4 p = L4Tcp) then
    let cls := ClassOf (tcp_flags p) in
    if negb (ValidFlags (tcp_flags p)) then None
    else if bool_decide (cls = kSyn) then Some kSynSent
    else if bool_decide (cls = kAck) && tcp_pickup policy then Some kEstablished
    else None
  else if (bool_decide (l4 p = L4Icmp) || bool_decide (l4 p = L4Icmpv6)) &&
          negb (IsEchoRequest (l4 p) (icmp_type p))
  then None
  else Some kNone.

Definition Resolve (ct : t) (p : ParsedFrame) (c : CanonicalKey) (ref : Flow.FlowRef) (now : Z)
    (may_create : bool) : run (Result * t) :=
  match Flow.state ref with
  | Some at_entry =>
      e ← load (table_ ct) at_entry;
      let dir := dir_of (src_is_a c) (initiator_is_a e) in
      '(step, tcp, rep) ← StepExisting (e_tcp e) (replied e) p dir may_create;
      let e := mk_entry tcp (initiator_is_a e) rep (e_timer e) (user e) in
      match step with
      | StepInvalid => mret (answer_dir kInvalid dir, ct)
      | StepReopen =>
          let e := mk_entry kSynSent (src_is_a c) false (e_timer e) user0 in
          tb ← store (table_ ct) at_entry e;
          ct ← refresh_timer (with_table tb ct) (l4 p) e now;
          mret (mk_result kNew kOriginal (Flow.handle ref) (Some at_entry), ct)
      | StepKept =>
          tb ← store (table_ ct) at_entry e;
          ct ← refresh_timer (with_table tb ct) (l4 p) e now;
          mret (mk_result kExisting dir (Flow.handle ref) (Some at_entry), ct)
      end
  | None =>
      match fresh_tcp (policy_ ct) p with
      | None => mret (answer kInvalid, ct)
      | Some tcp =>
          let fresh := mk_entry tcp (src_is_a c) false Wheel.kNoExpiry user0 in
          if negb may_create then mret (answer kInvalid, ct)
          else if wheel_full (wheel_ ct) then mret (answer kFull, ct)
          else
            '(made, tb) ← Emplace (table_ ct) (key c) fresh;
            let ct := with_table tb ct in
            if negb (Flow.created made) then mret (answer kFull, ct)
            else
              match Flow.e_state made with
              | None => Undef
              | Some at_entry =>
                  e ← load (table_ ct) at_entry;
                  timeout ← TimeoutOf ct (l4 p) e;
                  '(timer, w) ← Schedule (wheel_ ct) (After now timeout) (Flow.e_handle made);
                  tb ← store (table_ ct) at_entry (set_timer timer e);
                  let ct := with_wheel w (with_table tb ct) in
                  if bool_decide (timer = Wheel.kNoExpiry) then
                    '(_, tb) ← EraseHandle (table_ ct) (Flow.e_handle made);
                    mret (answer kFull, with_table tb ct)
                  else mret (mk_result kNew kOriginal (Flow.e_handle made) (Some at_entry), ct)
              end
      end
  end.

Definition Track (ct : t) (frame : list Z) (p : ParsedFrame) (now zone : Z) (may_create : bool)
    : run (Result * t) :=
  if negb (Keyed p) then r ← Unkeyed ct frame p zone; mret (r, ct)
  else
    let c := MakeKey p zone in
    ref ← FindRef (table_ ct) (key c);
    Resolve ct p c ref now may_create.

(** ** A batch *)

(** The packets of a batch, each with its frame. *)
Definition packet : Type := list Z * ParsedFrame.

Fixpoint track_each (ct : t) (ps : list packet) (now zone : Z) (may_create : bool) : run (list Result * t) :=
  match ps with
  | [] => mret ([], ct)
  | (frame, p) :: ps =>
      '(r, ct) ← Track ct frame p now zone may_create;
      '(rs, ct) ← track_each ct ps now zone may_create;
      mret (r :: rs, ct)
  end.

(** The loop that resolves the packets: [found] holds the keys of the keyed
    packets still to come with what the batch lookup gave for them. *)
Fixpoint resolve_each (ct : t) (ps : list packet) (found : list (CanonicalKey * Flow.FlowRef)) (now zone : Z)
    (may_create : bool) : run (list Result * t) :=
  match ps with
  | [] => mret ([], ct)
  | (frame, p) :: ps =>
      match Keyed p, found with
      | true, (c, looked) :: found =>
          ref ← (match Flow.state looked with Some _ => mret looked | None => FindRef (table_ ct) (key c) end);
          '(r, ct) ← Resolve ct p c ref now may_create;
          '(rs, ct) ← resolve_each ct ps found now zone may_create;
          mret (r :: rs, ct)
      | _, _ =>
          r ← Unkeyed ct frame p zone;
          '(rs, ct) ← resolve_each ct ps found now zone may_create;
          mret (r :: rs, ct)
      end
  end.

Definition kMaxBatch : nat := Flow.kMaxBatch.

Definition TrackBatch (ct : t) (ps : list packet) (now zone : Z) (may_create : bool) : run (list Result * t) :=
  Flow.promise (bool_decide (length ps <= kMaxBatch)%nat) ;;
  if bool_decide (body_ ct = kPlain) then track_each ct ps now zone may_create
  else
    let keys := (fun fp => MakeKey fp.2 zone) <$> filter (fun fp => Keyed fp.2 = true) ps in
    '(refs, _) ← FindRefBatch (table_ ct) (key <$> keys);
    resolve_each ct ps (zip keys refs) now zone may_create.

(** ** Expiry and management *)

(** The erasures of [Expire]'s callbacks. *)
Fixpoint erase_each (tb : T) (hs : list Flow.FlowHandle) (removed : Z) : run (Z * T) :=
  match hs with
  | [] => mret (removed, tb)
  | h :: hs =>
      '(gone, tb) ← EraseHandle tb h;
      erase_each tb hs (removed + (if (gone : bool) then 1 else 0))
  end.

Definition Expire (ct : t) (now budget : Z) : run (Z * t) :=
  '(_, hs, w) ← Poll (wheel_ ct) now budget;
  '(removed, tb) ← erase_each (table_ ct) hs 0;
  mret (removed, with_wheel w (with_table tb ct)).

Definition Find (ct : t) (k : CtKey) : run (option nat) := Stores.Find (table_ ct) k.
Definition Lookup (ct : t) (h : Flow.FlowHandle) : run (option nat) := Stores.Lookup (table_ ct) h.
Definition KeyOf (ct : t) (h : Flow.FlowHandle) : run (option CtKey) := Stores.KeyOf (table_ ct) h.

Definition Remove (ct : t) (h : Flow.FlowHandle) : run (bool * t) :=
  at_entry ← Stores.Lookup (table_ ct) h;
  match at_entry with
  | None => mret (false, ct)
  | Some at_entry =>
      e ← load (table_ ct) at_entry;
      '(_, w) ← Cancel (wheel_ ct) (e_timer e);
      '(gone, tb) ← EraseHandle (table_ ct) h;
      mret (gone, with_wheel w (with_table tb ct))
  end.

Definition SetDeadline (ct : t) (h : Flow.FlowHandle) (deadline : Z) : run (bool * t) :=
  at_entry ← Stores.Lookup (table_ ct) h;
  match at_entry with
  | None => mret (false, ct)
  | Some at_entry =>
      e ← load (table_ ct) at_entry;
      '(b, w) ← Refresh (wheel_ ct) (e_timer e) deadline;
      mret (b, with_wheel w ct)
  end.

(** The application writes its data through [Result::entry]. *)
Definition write_user (ct : t) (at_entry : nat) (u : U) : run t :=
  e ← load (table_ ct) at_entry;
  tb ← store (table_ ct) at_entry (set_user u e);
  mret (with_table tb ct).

Definition size (ct : t) : Z := table_size (table_ ct).
Definition capacity (ct : t) : nat := table_capacity (table_ ct).
Definition batch_body (ct : t) : LookupBody := body_ ct.
Definition policy (ct : t) : TimeoutPolicy := policy_ ct.
Definition SetBatchBodyForTesting (ct : t) (b : LookupBody) : t := mk (table_ ct) (wheel_ ct) b (policy_ ct).

End Conntrack.

Arguments Entry : clear implicits.
Arguments t : clear implicits.
Arguments packet : clear implicits.

End Conntrack.
