(* ===== verification/ConnInv.v ===== *)
(** * The invariant of connection tracking

    Every connection has one live timer, whose payload is the connection, and
    every live timer belongs to a connection. What the caller sees is a map from
    handles to connections, each with its deadline; the steps of the operations
    change it at one handle. *)

From S2P Require Import Prelude PacketParse ParseReads ParseProps FlowTable ExpiryWheel ConnStores ConnTypes Conntrack.
Open Scope Z_scope.

Module ConnInv.
Import Parse Reads Stores ConnTypes Conntrack.
#[local] Existing Instances Wheel.ExpiryHandle_eq_dec Flow.FlowHandle_eq_dec.

(** ** Reads of a quoted packet *)

Lemma quoted_ports_total q off out : octets q -> 0 <= off -> ∃ r, quoted_ports q off out = Ret r.
Proof.
  intros Hq Ho. unfold quoted_ports. destruct (bool_decide (protocol out = 6) || _).
  { case_bool_decide; [by eexists |]. reads. by eexists. }
  destruct (bool_decide (protocol out = 1) || _); [| by eexists]. case_bool_decide; [by eexists |]. reads.
  destruct (if bool_decide (protocol out = 1) then _ else _); [by eexists |]. reads. by eexists.
Qed.

Lemma ParseQuoted_total q v6 : octets q -> ∃ r, ParseQuoted q v6 = Ret r.
Proof.
  intros Hq. unfold ParseQuoted. destruct v6; cbn [negb].
  - case_bool_decide; [by eexists |]. reads. case_bool_decide; [by eexists |]. unfold WalkIpv6Chain. reads.
    destruct (ParseProps.walk_located q (Parse.size q) (S kMaxExtensionHeaders) (nb q 6) 40 (set_l3 L3Ipv6 parsed0) Hq)
      as (st & off & out & -> & _ & _ & _ & _ & Hoff); [lia.. |]. cbn [mbind run_bind].
    case_bool_decide as Hst; [by eexists |]. reads. apply quoted_ports_total; [done |].
    assert (st = kOk) as Hk by (destruct (decide (st = kOk)); done). destruct (Hoff Hk). lia.
  - case_bool_decide; [by eexists |]. reads. case_bool_decide; [by eexists |].
    destruct (bool_decide (Z.land (nb q 0) 15 * 4 < 20)) eqn:H20; [by eexists |]. cbn [orb].
    apply bool_decide_eq_false in H20. case_bool_decide; [by eexists |]. reads. case_bool_decide; [by eexists |]. apply quoted_ports_total; [done | lia].
Qed.

Lemma QuotedKey_total frame p z : octets frame -> 0 <= l4_offset p -> ∃ o, QuotedKey frame p z = Ret o.
Proof.
  intros Hf Ho. unfold QuotedKey. case_bool_decide; [by eexists |]. case_bool_decide; [by eexists |].
  destruct (ParseQuoted_total (take (Z.to_nat (Z.min (Parse.size frame) (l4_offset p + l4_length p) - (l4_offset p + 8)))
    (ptr frame (l4_offset p + 8))) (bool_decide (l3 p = L3Ipv6))) as [[good inner] ->]; [by apply Forall_take, Forall_drop |].
  cbn [mbind run_bind]. destruct (negb good || _); by eexists.
Qed.

(** ** The state machine *)

Lemma tcp_next_ok d c x : ∃ v, tcp_next d c x = Ret v ∧ (v = kIv ∨ v = kIg ∨ ∃ y, v = s y).
Proof. destruct d, c, x; eexists; (split; [reflexivity |]); eauto; right; right; eexists; reflexivity. Qed.

Lemma state_of_s x : ConnTypes.state_of (s x) = Ret x.
Proof. by destruct x. Qed.

Lemma s_values x : s x <> kIv ∧ s x <> kIg.
Proof. destruct x; done. Qed.

Lemma StepExisting_total x rep p dir may : ∃ st x' rep', StepExisting x rep p dir may = Ret (st, x', rep').
Proof.
  unfold StepExisting. destruct (bool_decide (l4 p = L4Tcp)); [| by eexists _, _, _].
  destruct (negb _); [by eexists _, _, _ |]. destruct (tcp_next_ok dir (ClassOf (tcp_flags p)) x) as (v & -> & Hv).
  cbn [mbind run_bind]. destruct (bool_decide (v = kIv)) eqn:Hiv; [by eexists _, _, _ |].
  destruct (_ && _); [by eexists _, _, _ |]. destruct (bool_decide (v <> kIg)) eqn:Hig; [| by eexists _, _, _].
  apply bool_decide_eq_false in Hiv. apply bool_decide_eq_true in Hig. destruct Hv as [-> | [-> | [y ->]]]; [done.. |].
  rewrite state_of_s. by eexists _, _, _.
Qed.

(** A policy whose fields are of their types. *)
Record policy_ok (pol : TimeoutPolicy) : Prop := {
  po_states : length (tcp pol) = kTcpStates;
  po_tcp : Forall (in_width 64) (tcp pol);
  po_udp : in_width 64 (udp_unreplied pol) ∧ in_width 64 (udp_replied pol);
  po_rest : in_width 64 (icmp pol) ∧ in_width 64 (other pol)
}.

Lemma TimeoutFor_total pol k x rep : policy_ok pol -> ∃ d, TimeoutFor pol k x rep = Ret d ∧ in_width 64 d.
Proof.
  intros [Hl Ht [Hu Hr] [Hi Ho]].
  destruct k; simpl; try (eexists; split; [reflexivity |]; by try destruct rep).
  destruct (lookup_lt_is_Some_2 (tcp pol) (Z.to_nat (s x))) as [d Hd].
  - rewrite Hl. unfold kTcpStates. destruct x; simpl; lia.
  - exists d. split; [by apply at_lookup | by eapply Forall_lookup_1].
Qed.

(** ** Connections and their timers *)

Section Inv.
Context {U T W : Type} (user0 : U).
Context {TB : Table CtKey (Entry U) T} {TL : TableLaws CtKey (Entry U) T}.
Context {TM : Timers Flow.FlowHandle W} {WL : TimerLaws Flow.FlowHandle W}.
Implicit Types (ct : Conntrack.t T W) (h : Flow.FlowHandle) (e : Entry U) (k : CtKey).

Record conn := mk_conn {
  c_key : CtKey;
  c_tcp : TcpState;
  c_initiator : bool;
  c_replied : bool;
  c_user : U;
  c_deadline : Z
}.

Definition to_conn k e (d : Z) : conn := mk_conn k (e_tcp e) (initiator_is_a e) (replied e) (user e) d.

Definition view : Type := Flow.FlowHandle -> option conn.

Definition conns ct : view := fun h =>
  match entry (table_ ct) h with
  | Some (k, e) => '(d, _) ← timer (wheel_ ct) (e_timer e); Some (to_conn k e d)
  | None => None
  end.

Record ct_ok ct : Prop := {
  co_table : ok (table_ ct);
  co_wheel : wheel_ok (wheel_ ct);
  co_armed h k e : entry (table_ ct) h = Some (k, e) -> ∃ d, timer (wheel_ ct) (e_timer e) = Some (d, h);
  co_owned th d h : timer (wheel_ ct) th = Some (d, h) -> ∃ k e, entry (table_ ct) h = Some (k, e) ∧ e_timer e = th;
  co_policy : policy_ok (policy_ ct)
}.

Definition put (m : view) h (x : option conn) (m' : view) : Prop := ∀ h', m' h' = if decide (h' = h) then x else m h'.
Definition same (m m' : view) : Prop := ∀ h, m' h = m h.

Lemma conns_entry ct h k e :
  ct_ok ct -> entry (table_ ct) h = Some (k, e) ->
  ∃ d, timer (wheel_ ct) (e_timer e) = Some (d, h) ∧ conns ct h = Some (to_conn k e d).
Proof using.
  intros Hok He. destruct (co_armed _ Hok h k e He) as [d Hd]. exists d. split; [done |]. unfold conns. by rewrite He, Hd.
Qed.

Lemma conns_Some ct h c :
  conns ct h = Some c -> ∃ k e d p, entry (table_ ct) h = Some (k, e) ∧ timer (wheel_ ct) (e_timer e) = Some (d, p) ∧ c = to_conn k e d.
Proof using.
  unfold conns. destruct (entry (table_ ct) h) as [[k e] |]; [| done]. destruct (timer (wheel_ ct) (e_timer e)) as [[d p] |] eqn:Hd; [| done].
  intros [= <-]. by exists k, e, d, p.
Qed.

Lemma conns_None ct h : ct_ok ct -> conns ct h = None <-> entry (table_ ct) h = None.
Proof using.
  intros Hok. split; [| unfold conns; by intros ->]. intros Hn. destruct (entry (table_ ct) h) as [[k e] |] eqn:He; [| done].
  destruct (conns_entry _ _ _ _ Hok He) as (d & _ & Hc). congruence.
Qed.

(** A timer belongs to one connection. *)
Lemma timer_owner ct h k e h' k' e' :
  ct_ok ct -> entry (table_ ct) h = Some (k, e) -> entry (table_ ct) h' = Some (k', e') -> e_timer e = e_timer e' -> h = h'.
Proof using.
  intros Hok He He' Ht. destruct (co_armed _ Hok _ _ _ He) as [d Hd]. destruct (co_armed _ Hok _ _ _ He') as [d' Hd'].
  rewrite Ht in Hd. congruence.
Qed.

(** A connection's entry written and its timer moved. *)
Lemma conn_changed ct ct' h k e e' d' :
  ct_ok ct -> entry (table_ ct) h = Some (k, e) -> e_timer e' = e_timer e ->
  ok (table_ ct') -> wheel_ok (wheel_ ct') -> policy_ ct' = policy_ ct ->
  (∀ h', entry (table_ ct') h' = if decide (h' = h) then Some (k, e') else entry (table_ ct) h') ->
  (∀ th, timer (wheel_ ct') th = if decide (th = e_timer e) then Some (d', h) else timer (wheel_ ct) th) ->
  ct_ok ct' ∧ put (conns ct) h (Some (to_conn k e' d')) (conns ct').
Proof using.
  intros Hok He Hte Hot How Hpol Hen Hti. split.
  - split; [done | done | | | by rewrite Hpol; apply Hok].
    + intros h1 k1 e1. rewrite Hen. case_decide as Hd.
      * intros [= <- <-]. subst h1. exists d'. rewrite Hti, Hte. by rewrite decide_True.
      * intros He1. destruct (co_armed _ Hok _ _ _ He1) as [d1 Hd1]. exists d1. rewrite Hti, decide_False; [done |].
        intros Heq. by eapply Hd, timer_owner.
    + intros th d1 h1. rewrite Hti. case_decide as Hd.
      * intros [= <- <-]. exists k, e'. rewrite Hen, decide_True by done. split; [done | congruence].
      * intros Ht. destruct (co_owned _ Hok _ _ _ Ht) as (k1 & e1 & He1 & Hte1). exists k1, e1. rewrite Hen, decide_False; [done |].
        intros ->. rewrite He in He1. injection He1 as <- <-. congruence.
  - intros h'. unfold conns. rewrite Hen. case_decide as Hd.
    + by rewrite Hti, Hte, decide_True by done.
    + destruct (entry (table_ ct) h') as [[k1 e1] |] eqn:He1; [| done]. rewrite Hti, decide_False; [done |].
      intros Heq. by eapply Hd, timer_owner.
Qed.

(** A new connection with a new timer. *)
Lemma conn_added ct ct' h k e th d :
  ct_ok ct -> entry (table_ ct) h = None -> timer (wheel_ ct) th = None -> e_timer e = th ->
  ok (table_ ct') -> wheel_ok (wheel_ ct') -> policy_ ct' = policy_ ct ->
  (∀ h', entry (table_ ct') h' = if decide (h' = h) then Some (k, e) else entry (table_ ct) h') ->
  (∀ th', timer (wheel_ ct') th' = if decide (th' = th) then Some (d, h) else timer (wheel_ ct) th') ->
  ct_ok ct' ∧ put (conns ct) h (Some (to_conn k e d)) (conns ct').
Proof using.
  intros Hok He Hnt <- Hot How Hpol Hen Hti.
  assert (∀ h1 k1 e1, entry (table_ ct) h1 = Some (k1, e1) -> e_timer e1 <> e_timer e) as Hne.
  { intros h1 k1 e1 He1 Heq. destruct (co_armed _ Hok _ _ _ He1) as [d1 Hd1]. congruence. }
  split.
  - split; [done | done | | | by rewrite Hpol; apply Hok].
    + intros h1 k1 e1. rewrite Hen. case_decide as Hd; [intros [= <- <-]; subst h1; exists d; by rewrite Hti, decide_True |].
      intros He1. destruct (co_armed _ Hok _ _ _ He1) as [d1 Hd1]. exists d1. rewrite Hti, decide_False; [done | by eapply Hne].
    + intros th d1 h1. rewrite Hti. case_decide as Hd; [intros [= <- <-]; subst th; exists k, e; by rewrite Hen, decide_True |].
      intros Ht. destruct (co_owned _ Hok _ _ _ Ht) as (k1 & e1 & He1 & Hte1). exists k1, e1. rewrite Hen, decide_False; [done | by intros ->; congruence].
  - intros h'. unfold conns. rewrite Hen. case_decide as Hd; [by rewrite Hti, decide_True |].
    destruct (entry (table_ ct) h') as [[k1 e1] |] eqn:He1; [| done]. rewrite Hti, decide_False; [done | by eapply Hne].
Qed.

(** Connections that go with their timers. *)
Definition timers_of ct (ths : list Wheel.ExpiryHandle) (hs : list Flow.FlowHandle) : Prop :=
  Forall2 (fun th h => ∃ d, timer (wheel_ ct) th = Some (d, h)) ths hs.

Lemma timers_match ct ths hs h k e :
  ct_ok ct -> timers_of ct ths hs -> entry (table_ ct) h = Some (k, e) -> h ∈ hs <-> e_timer e ∈ ths.
Proof using.
  intros Hok Hf He. destruct (co_armed _ Hok _ _ _ He) as [d Hd]. split; intros Hin.
  - apply list_elem_of_lookup in Hin as [i Hi]. destruct (Forall2_lookup_r _ _ _ _ _ Hf Hi) as (th & Hth & d' & Hd').
    destruct (co_owned _ Hok _ _ _ Hd') as (k' & e' & He' & <-). rewrite He in He'. injection He' as <- <-. by eapply list_elem_of_lookup_2.
  - apply list_elem_of_lookup in Hin as [i Hi]. destruct (Forall2_lookup_l _ _ _ _ _ Hf Hi) as (h' & Hh' & d' & Hd').
    rewrite Hd in Hd'. injection Hd' as <- <-. by eapply list_elem_of_lookup_2.
Qed.

Lemma conns_removed ct ct' ths hs :
  ct_ok ct -> timers_of ct ths hs -> ok (table_ ct') -> wheel_ok (wheel_ ct') -> policy_ ct' = policy_ ct ->
  (∀ h, entry (table_ ct') h = if decide (h ∈ hs) then None else entry (table_ ct) h) ->
  (∀ th, timer (wheel_ ct') th = without (timer (wheel_ ct)) ths th) ->
  ct_ok ct' ∧ ∀ h, conns ct' h = if decide (h ∈ hs) then None else conns ct h.
Proof using.
  intros Hok Hf Hot How Hpol Hen Hti. split.
  - split; [done | done | | | by rewrite Hpol; apply Hok].
    + intros h k e. rewrite Hen. case_decide as Hd; [done |]. intros He. destruct (co_armed _ Hok _ _ _ He) as [d Hdl]. exists d.
      rewrite Hti. unfold without. rewrite decide_False; [done |]. by rewrite <- (timers_match ct ths hs h k e).
    + intros th d h. rewrite Hti. unfold without. case_decide as Hd; [done |]. intros Ht.
      destruct (co_owned _ Hok _ _ _ Ht) as (k & e & He & <-). exists k, e. split; [| done]. rewrite Hen, decide_False; [done |].
      by rewrite (timers_match ct ths hs h k e).
  - intros h. unfold conns. rewrite Hen. case_decide as Hd; [done |]. destruct (entry (table_ ct) h) as [[k e] |] eqn:He; [| done].
    rewrite Hti. unfold without. rewrite decide_False; [done |]. by rewrite <- (timers_match ct ths hs h k e).
Qed.

(** Different timers are of different connections. *)
Lemma timers_of_nodup ct ths hs : ct_ok ct -> timers_of ct ths hs -> NoDup ths -> NoDup hs.
Proof using.
  intros Hok Hf Hnd. apply NoDup_alt. intros i j h Hi Hj.
  destruct (Forall2_lookup_r _ _ _ _ _ Hf Hi) as (t1 & Ht1 & d1 & Hd1). destruct (Forall2_lookup_r _ _ _ _ _ Hf Hj) as (t2 & Ht2 & d2 & Hd2).
  destruct (co_owned _ Hok _ _ _ Hd1) as (k1 & e1 & He1 & <-). destruct (co_owned _ Hok _ _ _ Hd2) as (k2 & e2 & He2 & <-).
  rewrite He1 in He2. injection He2 as <- <-. rewrite NoDup_alt in Hnd. by eapply Hnd.
Qed.

End Inv.
End ConnInv.
