(* ===== verification/ConnOps.v ===== *)
(** * The operations of connection tracking

    Every operation returns, keeps the invariant and does to the connections
    what its comment in [core/conntrack/conntrack.h] says, on every branch. *)

From S2P Require Import Prelude PacketParse ParseReads FlowTable ExpiryWheel ConnStores ConnTypes Conntrack ConnInv.
Open Scope Z_scope.

Module ConnOps.
Import Parse Stores ConnTypes Conntrack ConnInv.
#[local] Existing Instances Wheel.ExpiryHandle_eq_dec Flow.FlowHandle_eq_dec Flow.EmplaceStatus_eq_dec.

Section Ops.
Context {U T W : Type} (user0 : U).
Context {TB : Table CtKey (Entry U) T} {TL : TableLaws CtKey (Entry U) T}.
Context {TM : Timers Flow.FlowHandle W} {WL : TimerLaws Flow.FlowHandle W}.
Implicit Types (ct : Conntrack.t T W) (h : Flow.FlowHandle) (e : Entry U) (k : CtKey) (m : view (U := U)).

(** ** What a packet does *)

Definition absent m k : Prop := ∀ h cn, m h = Some cn -> c_key cn <> k.

Definition arms (pol : TimeoutPolicy) (p : ParsedFrame) (x : TcpState) (rep : bool) (now d : Z) : Prop :=
  ∃ timeout, TimeoutFor pol (l4 p) x rep = Ret timeout ∧ d = After now timeout.

(** A packet of the connection [cn] under handle [h]. *)
Definition existing (pol : TimeoutPolicy) m (p : ParsedFrame) (c : CanonicalKey) h (cn : conn) (now : Z) (may : bool)
    (r : Result) m' : Prop :=
  let dir := dir_of (src_is_a c) (c_initiator cn) in
  ∃ st x rep, StepExisting (c_tcp cn) (c_replied cn) p dir may = Ret (st, x, rep) ∧
    match st with
    | StepInvalid => r = answer_dir kInvalid dir ∧ same m m'
    | StepReopen => r = mk_result kNew kOriginal h (Some (pointer h)) ∧
        ∃ d, arms pol p kSynSent false now d ∧
          put m h (Some (mk_conn (key c) kSynSent (src_is_a c) false user0 d)) m'
    | StepKept => r = mk_result kExisting dir h (Some (pointer h)) ∧
        ∃ d, arms pol p x rep now d ∧
          put m h (Some (mk_conn (key c) x (c_initiator cn) rep (c_user cn) d)) m'
    end.

(** A packet of no connection. *)
Definition starts (pol : TimeoutPolicy) (full : bool) m (p : ParsedFrame) (c : CanonicalKey) (now : Z) (may : bool)
    (r : Result) m' : Prop :=
  match fresh_tcp pol p with
  | None => r = answer kInvalid ∧ same m m'
  | Some x =>
      if negb may then r = answer kInvalid ∧ same m m'
      else if full then r = answer kFull ∧ same m m'
      else ∃ h d, r = mk_result kNew kOriginal h (Some (pointer h)) ∧ m h = None ∧ arms pol p x false now d ∧
             put m h (Some (mk_conn (key c) x (src_is_a c) false user0 d)) m'
  end.

Definition resolves (pol : TimeoutPolicy) (full : bool) m p c now may r m' : Prop :=
  (∃ h cn, m h = Some cn ∧ c_key cn = key c ∧ existing pol m p c h cn now may r m') ∨
  (absent m (key c) ∧ starts pol full m p c now may r m').

(** A packet without a key: an ICMP error about a connection, or untracked. *)
Definition is_error (p : ParsedFrame) : bool :=
  bool_decide (l3 p <> L3None) && bool_decide (l4 p <> L4None) &&
  (bool_decide (l4 p = L4Icmp) || bool_decide (l4 p = L4Icmpv6)) && IsIcmpError (l4 p) (icmp_type p).

Definition opposite (d : Direction) : Direction := match d with kOriginal => kReply | kReply => kOriginal end.

Definition relates m (frame : list Z) (p : ParsedFrame) (z : Z) (r : Result) : Prop :=
  if is_error p then
    ∃ o, QuotedKey frame p z = Ret o ∧
      match o with
      | None => r = answer kInvalid
      | Some c =>
          (∃ h cn, m h = Some cn ∧ c_key cn = key c ∧
             r = mk_result kRelated (opposite (dir_of (src_is_a c) (c_initiator cn))) h (Some (pointer h))) ∨
          (absent m (key c) ∧ r = answer kInvalid)
      end
  else r = answer kUntracked.

Definition no_room ct : bool := wheel_full (wheel_ ct) || table_full (table_ ct).

Definition tracks (pol : TimeoutPolicy) (full : bool) m (frame : list Z) (p : ParsedFrame) (now z : Z) (may : bool)
    (r : Result) m' : Prop :=
  if Keyed p then resolves pol full m p (MakeKey p z) now may r m'
  else relates m frame p z r ∧ same m m'.

(** The deadlines a packet at [now] may arm are in the wheel's range. *)
Definition clock_near ct (now : Z) : Prop := ∀ timeout, in_width 64 timeout -> near (wheel_ ct) (After now timeout).

Record keeps ct (in_range : Prop) ct' : Prop := {
  kp_ok : ct_ok ct';
  kp_policy : policy_ ct' = policy_ ct;
  kp_body : body_ ct' = body_ ct;
  kp_capacity : table_capacity (table_ ct') = table_capacity (table_ ct);
  kp_timely : in_range -> timely (wheel_ ct) -> timely (wheel_ ct')
}.

Lemma keeps_refl ct Q : ct_ok ct -> keeps ct Q ct.
Proof using. by split. Qed.

(** ** Lookup *)

Lemma find_conn ct k :
  ct_ok ct -> ∃ r, FindRef (table_ ct) k = Ret r ∧ Stores.Find (table_ ct) k = Ret (Flow.state r) ∧
    match Flow.state r with
    | Some p => p = pointer (Flow.handle r) ∧
        ∃ e d, entry (table_ ct) (Flow.handle r) = Some (k, e) ∧ load (table_ ct) p = Ret e ∧
          timer (wheel_ ct) (e_timer e) = Some (d, Flow.handle r) ∧ conns ct (Flow.handle r) = Some (to_conn k e d)
    | None => absent (conns ct) k
    end.
Proof using.
  intros Hok. destruct (find_ref (table_ ct) k (co_table _ Hok)) as (r & Hr & Hf & Hi). exists r. split; [done |]. split; [done |].
  unfold is_ref in Hi. destruct (Flow.state r) as [p |].
  - destruct Hi as (-> & e & He). split; [done |]. destruct (conns_entry _ _ _ _ Hok He) as (d & Hd & Hc).
    exists e, d. split_and!; try done. by eapply load_entry; [apply Hok |].
  - destruct Hi as (_ & Hno). intros h cn (k' & e & d & q & He & _ & ->)%conns_Some Hk. simpl in Hk. subst k'. by eapply Hno.
Qed.

Lemma Related_spec ct frame p z :
  ct_ok ct -> Reads.octets frame -> 0 <= l4_offset p -> ∃ r, Unkeyed ct frame p z = Ret r ∧ relates (conns ct) frame p z r.
Proof using.
  intros Hok Hf Ho. unfold Unkeyed, relates. fold (is_error p). destruct (is_error p); [| by eexists].
  unfold Related. destruct (QuotedKey_total frame p z Hf Ho) as [[c |] ->]; cbn [mbind run_bind].
  2: { eexists. split; [done |]. by eexists. }
  destruct (find_conn ct (key c) Hok) as (r & -> & _ & Hr). cbn [mbind run_bind]. destruct (Flow.state r) as [q |].
  - destruct Hr as (-> & e & d & He & Hl & _ & Hc). rewrite Hl. cbn [mbind run_bind mret run_ret]. eexists. split; [done |].
    exists (Some c). split; [done |]. left. eexists _, _. split; [exact Hc |]. split; [done |]. simpl. by destruct (dir_of _ _).
  - eexists. split; [done |]. exists (Some c). split; [done |]. by right.
Qed.

(** ** A packet of a connection *)

Lemma rearm_conn ct h k e e' kind now :
  ct_ok ct -> entry (table_ ct) h = Some (k, e) -> e_timer e' = e_timer e ->
  ∃ tb ct' d, store (table_ ct) (pointer h) e' = Ret tb ∧ refresh_timer (with_table tb ct) kind e' now = Ret ct' ∧
    (∃ timeout, TimeoutFor (policy_ ct) kind (e_tcp e') (replied e') = Ret timeout ∧ d = After now timeout) ∧
    keeps ct (clock_near ct now) ct' ∧ put (conns ct) h (Some (to_conn k e' d)) (conns ct').
Proof using.
  intros Hok He Ht. destruct (store_entry (table_ ct) h k e e' (co_table _ Hok) He) as (tb & Hst & Hot & Hcap & Hen).
  destruct (TimeoutFor_total (policy_ ct) kind (e_tcp e') (replied e') (co_policy _ Hok)) as (timeout & Hto & Hwt).
  destruct (refresh (wheel_ ct) (e_timer e') (After now timeout) (co_wheel _ Hok)) as (b & w & Hre & How & Hti & Hm).
  destruct (co_armed _ Hok _ _ _ He) as [d0 Hd0]. rewrite Ht, Hd0 in Hm. destruct Hm as [-> Hm].
  eexists tb, _, (After now timeout). split; [done |]. unfold refresh_timer, TimeoutOf. cbn [policy_ wheel_ with_table].
  rewrite Hto. cbn [mbind run_bind]. rewrite Hre. split; [done |]. split; [by eexists |].
  destruct (conn_changed ct (with_wheel w (with_table tb ct)) h k e e' (After now timeout)) as [Hok' Hput]; try done.
  split; [| done]. split; try done. intros Hn. by apply Hti, Hn.
Qed.

Lemma Resolve_existing ct p c ref now may h e d :
  ct_ok ct -> Flow.state ref = Some (pointer h) -> Flow.handle ref = h -> entry (table_ ct) h = Some (key c, e) ->
  conns ct h = Some (to_conn (key c) e d) ->
  ∃ r ct', Resolve user0 ct p c ref now may = Ret (r, ct') ∧ keeps ct (clock_near ct now) ct' ∧
    existing (policy_ ct) (conns ct) p c h (to_conn (key c) e d) now may r (conns ct').
Proof using.
  intros Hok Hst <- He Hc. set (h := Flow.handle ref) in *. unfold Resolve. rewrite Hst.
  rewrite (load_entry (table_ ct) h (key c) e (co_table _ Hok) He). cbn [mbind run_bind].
  unfold existing. cbn [c_tcp c_replied c_initiator c_user to_conn]. set (dir := dir_of _ _).
  destruct (StepExisting_total (e_tcp e) (replied e) p dir may) as (st & x & rep & Hstep). rewrite Hstep. cbn [mbind run_bind].
  destruct st.
  - eexists _, ct. split; [done |]. split; [by apply keeps_refl |]. by eexists _, _, _.
  - destruct (rearm_conn ct h (key c) e (mk_entry x (initiator_is_a e) rep (e_timer e) (user e)) (l4 p) now Hok He eq_refl)
      as (tb & ct' & d' & Hs & Hr & Ha & Hk & Hp).
    rewrite Hs. cbn [mbind run_bind]. rewrite Hr. cbn [mbind run_bind mret run_ret]. eexists _, ct'. split; [done |]. split; [done |].
    eexists _, _, _. split; [done |]. split; [done |]. exists d'. by split.
  - destruct (rearm_conn ct h (key c) e (mk_entry kSynSent (src_is_a c) false (e_timer e) user0) (l4 p) now Hok He eq_refl)
      as (tb & ct' & d' & Hs & Hr & Ha & Hk & Hp).
    cbn [e_timer]. rewrite Hs. cbn [mbind run_bind]. rewrite Hr. cbn [mbind run_bind mret run_ret]. eexists _, ct'. split; [done |]. split; [done |].
    eexists _, _, _. split; [done |]. split; [done |]. exists d'. by split.
Qed.

(** ** A packet that starts a connection *)

Lemma absent_entry ct k : ct_ok ct -> absent (conns ct) k -> ∀ h e, entry (table_ ct) h <> Some (k, e).
Proof using.
  intros Hok Hno h e He. destruct (conns_entry _ _ _ _ Hok He) as (d & _ & Hc). by apply (Hno h _ Hc).
Qed.

(** A table that refuses keeps its connections. *)
Lemma same_conns ct ct' :
  ct_ok ct -> wheel_ ct' = wheel_ ct -> policy_ ct' = policy_ ct -> ok (table_ ct') ->
  (∀ h, entry (table_ ct') h = entry (table_ ct) h) -> ct_ok ct' ∧ same (conns ct) (conns ct').
Proof using.
  intros Hok Hw Hp Hot Hen. split.
  - split; [done | rewrite Hw; apply Hok | | | rewrite Hp; apply Hok].
    + intros h k e. rewrite Hen, Hw. apply Hok.
    + intros th d h. rewrite Hw. intros Ht. setoid_rewrite Hen. by apply (co_owned _ Hok th d h).
  - intros h. unfold conns. by rewrite Hen, Hw.
Qed.

Lemma create_conn ct p c now x :
  ct_ok ct -> absent (conns ct) (key c) -> wheel_full (wheel_ ct) = false -> table_full (table_ ct) = false ->
  let fresh := mk_entry x (src_is_a c) false Wheel.kNoExpiry user0 in
  ∃ made tb timeout th w tb', Emplace (table_ ct) (key c) fresh = Ret (made, tb) ∧ Flow.created made = true ∧
    Flow.e_state made = Some (pointer (Flow.e_handle made)) ∧ load tb (pointer (Flow.e_handle made)) = Ret fresh ∧
    TimeoutFor (policy_ ct) (l4 p) x false = Ret timeout ∧
    Schedule (wheel_ ct) (After now timeout) (Flow.e_handle made) = Ret (th, w) ∧ th <> Wheel.kNoExpiry ∧
    store tb (pointer (Flow.e_handle made)) (set_timer th fresh) = Ret tb' ∧ conns ct (Flow.e_handle made) = None ∧
    keeps ct (clock_near ct now) (with_wheel w (with_table tb' ct)) ∧
    put (conns ct) (Flow.e_handle made) (Some (mk_conn (key c) x (src_is_a c) false user0 (After now timeout)))
      (conns (with_wheel w (with_table tb' ct))).
Proof using.
  intros Hok Hno Hwf Htf fresh.
  destruct (emplace (table_ ct) (key c) fresh (co_table _ Hok) (absent_entry ct _ Hok Hno)) as (made & tb & Hem & Hot & Hcap & Hm).
  rewrite Htf in Hm. destruct Hm as (Hst & Hptr & Hnone & Hen). set (h := Flow.e_handle made) in *.
  assert (entry tb h = Some (key c, fresh)) as Heh by (rewrite Hen; by rewrite decide_True).
  destruct (TimeoutFor_total (policy_ ct) (l4 p) x false (co_policy _ Hok)) as (timeout & Hto & Hwt).
  destruct (schedule (wheel_ ct) (After now timeout) h (co_wheel _ Hok)) as (th & w & Hsc & How & Hti & Hs). rewrite Hwf in Hs.
  destruct Hs as [Htn Htm].
  assert (th <> Wheel.kNoExpiry) as Hne.
  { intros ->. pose proof (no_timer w How) as Hn. rewrite Htm, decide_True in Hn by done. done. }
  destruct (store_entry tb h (key c) fresh (set_timer th fresh) Hot Heh) as (tb' & Hsto & Hot' & Hcap' & Hen').
  exists made, tb, timeout, th, w, tb'. split_and!; try done.
  - unfold Flow.created. by apply bool_decide_eq_true.
  - by eapply load_entry.
  - by apply conns_None.
  - split; try done; [| cbn [table_ with_wheel with_table]; congruence | intros Hn; by apply Hti, Hn].
    eapply (conn_added ct _ h (key c) (set_timer th fresh) th); try done.
    intros h'. cbn [table_ with_wheel with_table]. rewrite Hen', Hen. by case_decide.
  - eapply (conn_added ct (with_wheel w (with_table tb' ct)) h (key c) (set_timer th fresh) th); try done.
    intros h'. cbn [table_ with_wheel with_table]. rewrite Hen', Hen. by case_decide.
Qed.

Lemma Resolve_new ct p c ref now may :
  ct_ok ct -> Flow.state ref = None -> absent (conns ct) (key c) ->
  ∃ r ct', Resolve user0 ct p c ref now may = Ret (r, ct') ∧ keeps ct (clock_near ct now) ct' ∧
    starts (policy_ ct) (no_room ct) (conns ct) p c now may r (conns ct').
Proof using.
  intros Hok Hst Hno. unfold Resolve, starts, no_room. rewrite Hst.
  destruct (fresh_tcp (policy_ ct) p) as [x |]; [| eexists _, ct; split; [done |]; split; [by apply keeps_refl | done]].
  destruct (negb may); [eexists _, ct; split; [done |]; split; [by apply keeps_refl | done] |].
  destruct (wheel_full (wheel_ ct)) eqn:Hwf; [eexists _, ct; split; [done |]; split; [by apply keeps_refl | done] |]. cbn [orb].
  destruct (table_full (table_ ct)) eqn:Htf.
  - destruct (emplace (table_ ct) (key c) (mk_entry x (src_is_a c) false Wheel.kNoExpiry user0) (co_table _ Hok) (absent_entry ct _ Hok Hno))
      as (made & tb & -> & Hot & Hcap & Hm). rewrite Htf in Hm. destruct Hm as [Hs Hen]. cbn [mbind run_bind].
    unfold Flow.created. rewrite bool_decide_eq_false_2 by (by rewrite Hs). cbn [negb]. eexists _, (with_table tb ct). split; [done |].
    destruct (same_conns ct (with_table tb ct) Hok) as [Hok' Hsame]; done.
  - destruct (create_conn ct p c now x Hok Hno Hwf Htf) as
      (made & tb & timeout & th & w & tb' & Hem & Hcr & Hp & Hl & Hto & Hsc & Hne & Hs & Hnc & Hk & Hput).
    rewrite Hem. cbn [mbind run_bind]. rewrite Hcr. cbn [negb]. rewrite Hp. cbn [table_ with_table]. rewrite Hl. cbn [mbind run_bind].
    unfold TimeoutOf. cbn [policy_ with_table e_tcp replied]. rewrite Hto. cbn [mbind run_bind wheel_ with_table]. rewrite Hsc.
    cbn [mbind run_bind]. rewrite Hs. cbn [mbind run_bind]. rewrite bool_decide_eq_false_2 by done.
    eexists _, (with_wheel w (with_table tb' ct)). split; [done |]. split; [done |]. eexists _, _. split; [done |]. split; [done |].
    split; [by eexists | done].
Qed.

(** What [Resolve] does with what a lookup of the key now gives. *)
Lemma resolve_conn ct p c ref now may :
  ct_ok ct -> FindRef (table_ ct) (key c) = Ret ref ->
  ∃ r ct', Resolve user0 ct p c ref now may = Ret (r, ct') ∧ keeps ct (clock_near ct now) ct' ∧
    resolves (policy_ ct) (no_room ct) (conns ct) p c now may r (conns ct').
Proof using.
  intros Hok Hr. destruct (find_conn ct (key c) Hok) as (ref' & Hr' & _ & Hm). assert (ref' = ref) as -> by congruence.
  destruct (Flow.state ref) as [q |] eqn:Hst.
  - destruct Hm as (-> & e & d & He & _ & _ & Hc).
    destruct (Resolve_existing ct p c ref now may (Flow.handle ref) e d Hok Hst eq_refl He Hc) as (r & ct' & Hrun & Hk & Hex).
    exists r, ct'. split; [done |]. split; [done |]. left. by eexists _, _.
  - destruct (Resolve_new ct p c ref now may Hok Hst Hm) as (r & ct' & Hrun & Hk & Hs). exists r, ct'. split; [done |]. split; [done |]. by right.
Qed.

Lemma Track_spec ct frame p now z may :
  ct_ok ct -> Reads.octets frame -> 0 <= l4_offset p ->
  ∃ r ct', Track user0 ct frame p now z may = Ret (r, ct') ∧ keeps ct (clock_near ct now) ct' ∧
    tracks (policy_ ct) (no_room ct) (conns ct) frame p now z may r (conns ct').
Proof using.
  intros Hok Hf Ho. unfold Track, tracks. destruct (Keyed p); cbn [negb].
  - destruct (find_conn ct (key (MakeKey p z)) Hok) as (ref & Hr & _). rewrite Hr. cbn [mbind run_bind]. by apply resolve_conn.
  - destruct (Related_spec ct frame p z Hok Hf Ho) as (r & -> & Hrel). exists r, ct. split; [done |]. split; [by apply keeps_refl | done].
Qed.

(** ** Batches *)

(** A connection found before stays findable while packets are resolved. *)
Definition grows ct ct' : Prop :=
  ∀ h k e, entry (table_ ct) h = Some (k, e) -> ∃ e', entry (table_ ct') h = Some (k, e').

Lemma tracks_grow pol full m p c now may r m' h cn :
  resolves pol full m p c now may r m' -> m h = Some cn -> ∃ cn', m' h = Some cn' ∧ c_key cn' = c_key cn.
Proof using.
  intros [(h0 & cn0 & Hm0 & Hk0 & st & x & rep & _ & Hst) | [Hno Hs]] Hm.
  - assert (∀ y, c_key y = key c -> put m h0 (Some y) m' -> ∃ cn', m' h = Some cn' ∧ c_key cn' = c_key cn) as Hput.
    { intros y Hy Hp. rewrite (Hp h). case_decide; [subst h0; exists y; split; [done |] | by exists cn]. congruence. }
    destruct st; [destruct Hst as [_ Hs]; exists cn; by rewrite Hs | ..]; destruct Hst as (_ & d & _ & Hp); (eapply Hput; [| exact Hp]; done).
  - unfold starts in Hs. destruct (fresh_tcp pol p); [| destruct Hs as [_ Hs]; exists cn; by rewrite Hs].
    destruct (negb may); [destruct Hs as [_ Hs]; exists cn; by rewrite Hs |].
    destruct full; [destruct Hs as [_ Hs]; exists cn; by rewrite Hs |]. destruct Hs as (h0 & d & _ & Hn & _ & Hp).
    rewrite (Hp h). case_decide; [congruence | by exists cn].
Qed.

Lemma Resolve_grows ct p c ref now may r ct' :
  ct_ok ct -> FindRef (table_ ct) (key c) = Ret ref -> Resolve user0 ct p c ref now may = Ret (r, ct') ->
  ct_ok ct' ∧ grows ct ct'.
Proof using.
  intros Hok Hr Hrun. destruct (resolve_conn ct p c ref now may Hok Hr) as (r' & ct1 & Hrun' & Hk & Hres).
  assert (ct1 = ct') as -> by congruence. split; [apply Hk |]. intros h k e He.
  destruct (conns_entry _ _ _ _ Hok He) as (d & _ & Hc). destruct (tracks_grow _ _ _ _ _ _ _ _ _ _ _ Hres Hc) as (cn & Hc' & Hkey).
  apply conns_Some in Hc' as (k' & e' & d' & q & He' & _ & ->). simpl in Hkey. subst k'. by exists e'.
Qed.

(** What an earlier lookup found, the key's lookup finds now. *)
Lemma found_again ct ct' k ref :
  ct_ok ct -> ct_ok ct' -> grows ct ct' -> FindRef (table_ ct) k = Ret ref -> Flow.state ref <> None ->
  ∃ ref', FindRef (table_ ct') k = Ret ref' ∧ Flow.state ref' = Flow.state ref ∧ Flow.handle ref' = Flow.handle ref.
Proof using.
  intros Hok Hok' Hg Hr Hs. destruct (find_conn ct k Hok) as (r0 & Hr0 & _ & Hm). assert (r0 = ref) as -> by congruence.
  destruct (Flow.state ref) as [q |] eqn:Hq; [| done]. destruct Hm as (-> & e & d & He & _).
  destruct (Hg _ _ _ He) as [e' He']. destruct (find_conn ct' k Hok') as (r' & Hr' & _ & Hm'). exists r'. split; [done |].
  destruct (Flow.state r') as [q' |] eqn:Hq'.
  - destruct Hm' as (-> & e2 & d2 & He2 & _). assert (Flow.handle r' = Flow.handle ref) as Hh by (by eapply entry_unique; [apply Hok' | ..]).
    by rewrite Hh.
  - exfalso. destruct (conns_entry _ _ _ _ Hok' He') as (d' & _ & Hc'). by apply (Hm' _ _ Hc').
Qed.

Lemma grows_trans ct1 ct2 ct3 : grows ct1 ct2 -> grows ct2 ct3 -> grows ct1 ct3.
Proof using. intros H1 H2 h k e He. destruct (H1 _ _ _ He) as [e' He']. by eapply H2. Qed.

(** [Resolve] reads the pointer and the handle of a reference. *)
Lemma Resolve_ref ct p c ref ref' now may :
  Flow.state ref' = Flow.state ref -> Flow.handle ref' = Flow.handle ref ->
  Resolve user0 ct p c ref' now may = Resolve user0 ct p c ref now may.
Proof using. intros Hs Hh. unfold Resolve. by rewrite Hs, Hh. Qed.

Definition keys_of (ps : list packet) (z : Z) : list CanonicalKey :=
  (fun fp => MakeKey fp.2 z) <$> filter (fun fp => Keyed fp.2 = true) ps.

Lemma keys_of_cons frame p ps z :
  keys_of ((frame, p) :: ps) z = if Keyed p then MakeKey p z :: keys_of ps z else keys_of ps z.
Proof using. unfold keys_of. rewrite filter_cons. cbn [snd]. destruct (Keyed p); by case_decide. Qed.

Lemma resolve_each_tracks ct0 ps now z may : ∀ ct refs,
  ct_ok ct0 -> ct_ok ct -> grows ct0 ct ->
  Forall2 (fun k r => FindRef (table_ ct0) k = Ret r) (key <$> keys_of ps z) refs ->
  resolve_each user0 ct ps (zip (keys_of ps z) refs) now z may = track_each user0 ct ps now z may.
Proof using.
  induction ps as [| [frame p] ps IH]; intros ct refs Hok0 Hok Hg Hf; [done |]. cbn [resolve_each track_each]. unfold Track.
  rewrite keys_of_cons in *. destruct (Keyed p) eqn:Hkey; cbn [negb].
  - rewrite fmap_cons in Hf.
    destruct refs as [| looked refs]; [by inversion Hf |]. apply Forall2_cons in Hf as [Hl Hf]. cbn [zip_with].
    set (c := MakeKey p z) in *. destruct (find_conn ct (key c) Hok) as (ref & Hr & _).
    assert (∃ ref1, match Flow.state looked with Some _ => mret looked | None => FindRef (table_ ct) (key c) end = Ret ref1 ∧
              Resolve user0 ct p c ref1 now may = Resolve user0 ct p c ref now may) as (ref1 & -> & Heq).
    { destruct (Flow.state looked) as [q |] eqn:Hq; [| by exists ref]. exists looked. split; [done |].
      destruct (found_again ct0 ct (key c) looked Hok0 Hok Hg Hl) as (ref' & Hr' & Hs & Hh); [by rewrite Hq |].
      assert (ref' = ref) as -> by congruence. by apply Resolve_ref. }
    rewrite Hr. cbn [mbind run_bind]. rewrite Heq.
    destruct (Resolve user0 ct p c ref now may) as [[r ct'] | |] eqn:Hrun; [| done..]. cbn [mbind run_bind].
    destruct (Resolve_grows ct p c ref now may r ct' Hok Hr Hrun) as [Hok' Hg'].
    rewrite (IH ct' refs); [done.. | by eapply grows_trans | done].
  - rewrite (IH ct refs) by done. destruct (Unkeyed ct frame p z); done.
Qed.

Lemma TrackBatch_tracks ct ps now z may :
  ct_ok ct -> (length ps <= kMaxBatch)%nat -> TrackBatch user0 ct ps now z may = track_each user0 ct ps now z may.
Proof using.
  intros Hok Hlen. unfold TrackBatch, Flow.promise. rewrite (bool_decide_eq_true_2 (length ps <= kMaxBatch)%nat) by done. cbn [mbind run_bind].
  destruct (bool_decide (body_ ct = kPlain)); [done |].
  destruct (find_ref_batch (table_ ct) (key <$> keys_of ps z) (co_table _ Hok)) as (refs & hits & Hb & Hf).
  { unfold keys_of. rewrite !length_fmap. etrans; [apply length_filter | done]. }
  unfold keys_of in Hb. rewrite Hb. cbn [mbind run_bind]. apply (resolve_each_tracks ct); try done. intros h k e He. by exists e.
Qed.

(** ** Expiry *)

Lemma erase_each_spec tb hs n :
  ok tb -> NoDup hs -> Forall (fun h => is_Some (entry tb h)) hs ->
  ∃ tb', erase_each tb hs n = Ret (n + Z.of_nat (length hs), tb') ∧ ok tb' ∧ table_capacity tb' = table_capacity tb ∧
    ∀ h, entry tb' h = if decide (h ∈ hs) then None else entry tb h.
Proof using.
  revert tb n. induction hs as [| h hs IH]; intros tb n Hok Hnd Hall; cbn [erase_each].
  { exists tb. split; [rewrite Z.add_0_r; done |]. by split_and!. }
  apply NoDup_cons in Hnd as [Hnin Hnd]. apply Forall_cons in Hall as [[x Hx] Hall].
  pose proof (erase tb h Hok (entry_width tb h x Hok Hx)) as He. rewrite Hx in He. destruct He as (tb1 & -> & Hok1 & Hcap1 & Hen1).
  cbn [mbind run_bind]. destruct (IH tb1 (n + 1) Hok1 Hnd) as (tb' & -> & Hok' & Hcap' & Hen').
  { eapply Forall_impl; [apply Forall_and; split; [exact Hall |]; apply Forall_forall; intros y Hy; exact Hy |].
    intros y [[v Hv] Hy]. rewrite Hen1, decide_False; [by eexists | by intros ->]. }
  exists tb'. split; [do 2 f_equal; cbn [length]; lia |]. split_and!; [done | congruence |].
  intros h'. rewrite Hen', Hen1. destruct (decide (h' = h)) as [-> | Hne].
  - rewrite decide_False by done. by rewrite decide_True by by left.
  - destruct (decide (h' ∈ hs)); [by rewrite decide_True by by right |]. rewrite decide_False; [done |]. by intros [|]%elem_of_cons.
Qed.

(** The connections [hs] go; those left are not due, when the budget lasted and
    deadlines were in range. *)
Definition expires (in_range : Prop) ct (now budget removed : Z) ct' : Prop :=
  ∃ r ps w hs, Poll (wheel_ ct) now budget = Ret (r, ps, w) ∧ removed = Z.of_nat (length hs) ∧ NoDup hs ∧
    (∀ h, h ∈ hs -> ∃ cn, conns ct h = Some cn ∧ passed (wheel_ ct) now (c_deadline cn)) ∧
    (∀ h, conns ct' h = if decide (h ∈ hs) then None else conns ct h) ∧
    (Wheel.exhausted r = false -> in_range ->
     ∀ h cn, conns ct' h = Some cn -> ¬ due (wheel_ ct) now (c_deadline cn)).

Lemma Expire_spec ct now budget :
  ct_ok ct -> time now -> 0 <= budget ->
  ∃ n ct', Expire ct now budget = Ret (n, ct') ∧ keeps ct True ct' ∧ expires (timely (wheel_ ct)) ct now budget n ct'.
Proof using.
  intros Hok Hn Hb. destruct (poll (wheel_ ct) now budget (co_wheel _ Hok) Hn Hb) as (r & ths & hs & w & Hp & How & Hti & Hnd & Hf & Htm & Hdue).
  assert (timers_of ct ths hs) as Hto by (eapply Forall2_impl; [exact Hf |]; intros th h (d & Hd & _); by exists d).
  pose proof (timers_of_nodup ct ths hs Hok Hto Hnd) as Hndh.
  assert (∀ h, h ∈ hs -> ∃ k e d, entry (table_ ct) h = Some (k, e) ∧ timer (wheel_ ct) (e_timer e) = Some (d, h) ∧ passed (wheel_ ct) now d) as Hlive.
  { intros h [i Hi]%list_elem_of_lookup. destruct (Forall2_lookup_r _ _ _ _ _ Hf Hi) as (th & _ & d & Hd & Hps).
    destruct (co_owned _ Hok _ _ _ Hd) as (k & e & He & <-). by exists k, e, d. }
  destruct (erase_each_spec (table_ ct) hs 0 (co_table _ Hok) Hndh) as (tb & Her & Hot & Hcap & Hen).
  { apply Forall_forall. intros h Hh. destruct (Hlive h Hh) as (k & e & d & He & _). by eexists. }
  unfold Expire. rewrite Hp. cbn [mbind run_bind]. rewrite Her. cbn [mbind run_bind mret run_ret].
  destruct (conns_removed ct (with_wheel w (with_table tb ct)) ths hs Hok Hto) as [Hok' Hc]; try done.
  eexists _, _. split; [done |]. split; [by split; [..| intros _] |]. exists r, hs, w, hs. split_and!; try done.
  - intros h Hh. destruct (Hlive h Hh) as (k & e & d & He & Hd & Hps). exists (to_conn k e d). split; [| done].
    unfold conns. by rewrite He, Hd.
  - intros Hex Hty h cn (k & e & d & q & He & Hd & ->)%conns_Some. cbn [c_deadline to_conn]. by eapply Hdue.
Qed.

(** ** Management *)

Lemma lookup_conn ct h :
  ct_ok ct -> in_width 32 (Flow.id h) -> Stores.Lookup (table_ ct) h = Ret ((fun _ => pointer h) <$> conns ct h).
Proof using.
  intros Hok Hw. rewrite (lookup (table_ ct) h (co_table _ Hok) Hw). destruct (entry (table_ ct) h) as [[k e] |] eqn:He.
  - destruct (conns_entry _ _ _ _ Hok He) as (d & _ & ->). done.
  - by rewrite (proj2 (conns_None ct h Hok) He).
Qed.

Lemma Remove_spec ct h :
  ct_ok ct -> in_width 32 (Flow.id h) ->
  ∃ ct', Remove ct h = Ret (bool_decide (is_Some (conns ct h)), ct') ∧ keeps ct True ct' ∧ put (conns ct) h None (conns ct').
Proof using.
  intros Hok Hw. unfold Remove. rewrite (lookup_conn ct h Hok Hw). destruct (entry (table_ ct) h) as [[k e] |] eqn:He.
  - destruct (conns_entry _ _ _ _ Hok He) as (d & Hd & Hc). rewrite Hc. cbn [mbind run_bind fmap option_fmap option_map].
    rewrite (load_entry _ h k e (co_table _ Hok) He). cbn [mbind run_bind].
    destruct (cancel (wheel_ ct) (e_timer e) (co_wheel _ Hok)) as (b & w & -> & How & Hti & Hm). rewrite Hd in Hm. destruct Hm as [_ Hm].
    cbn [mbind run_bind]. pose proof (erase (table_ ct) h (co_table _ Hok) Hw) as Her. rewrite He in Her.
    destruct Her as (tb & -> & Hot & Hcap & Hen). cbn [mbind run_bind mret run_ret]. eexists. split; [done |].
    destruct (conns_removed ct (with_wheel w (with_table tb ct)) [e_timer e] [h] Hok) as [Hok' Hput]; try done.
    + constructor; [by exists d | constructor].
    + intros h'. cbn [table_ with_wheel with_table]. rewrite Hen. destruct (decide (h' = h)) as [-> | Hne];
        [by rewrite decide_True by by apply list_elem_of_singleton | by rewrite decide_False by by rewrite list_elem_of_singleton].
    + intros th. cbn [wheel_ with_wheel]. rewrite Hm. unfold without. destruct (decide (th = e_timer e)) as [-> | Hne];
        [by rewrite decide_True by by apply list_elem_of_singleton | by rewrite decide_False by by rewrite list_elem_of_singleton].
    + split; [by split; [..| intros _] |]. intros h'. rewrite Hput. destruct (decide (h' = h)) as [-> | Hne];
        [by rewrite decide_True by by apply list_elem_of_singleton | by rewrite decide_False by by rewrite list_elem_of_singleton].
  - pose proof (proj2 (conns_None ct h Hok) He) as Hc. rewrite Hc. exists ct. split; [done |]. split; [by apply keeps_refl |].
    intros h'. case_decide; [by subst | done].
Qed.

Lemma SetDeadline_spec ct h d :
  ct_ok ct -> in_width 32 (Flow.id h) ->
  ∃ ct', SetDeadline ct h d = Ret (bool_decide (is_Some (conns ct h)), ct') ∧ keeps ct (near (wheel_ ct) d) ct' ∧
    put (conns ct) h ((fun cn => mk_conn (c_key cn) (c_tcp cn) (c_initiator cn) (c_replied cn) (c_user cn) d) <$> conns ct h) (conns ct').
Proof using.
  intros Hok Hw. unfold SetDeadline. rewrite (lookup_conn ct h Hok Hw). destruct (entry (table_ ct) h) as [[k e] |] eqn:He.
  - destruct (conns_entry _ _ _ _ Hok He) as (d0 & Hd & Hc). rewrite Hc. cbn [mbind run_bind fmap option_fmap option_map].
    rewrite (load_entry _ h k e (co_table _ Hok) He). cbn [mbind run_bind].
    destruct (refresh (wheel_ ct) (e_timer e) d (co_wheel _ Hok)) as (b & w & -> & How & Hti & Hm). rewrite Hd in Hm. destruct Hm as [-> Hm].
    cbn [mbind run_bind mret run_ret]. eexists. split; [done |].
    destruct (conn_changed ct (with_wheel w ct) h k e e d) as [Hok' Hput]; try done; [apply Hok | by intros h'; case_decide; subst].
  - pose proof (proj2 (conns_None ct h Hok) He) as Hc. rewrite Hc. exists ct. split; [done |]. split; [by apply keeps_refl |].
    intros h'. case_decide; [by subst | done].
Qed.

Lemma write_user_spec ct h u cn :
  ct_ok ct -> conns ct h = Some cn ->
  ∃ ct', write_user ct (pointer h) u = Ret ct' ∧ keeps ct True ct' ∧
    put (conns ct) h (Some (mk_conn (c_key cn) (c_tcp cn) (c_initiator cn) (c_replied cn) u (c_deadline cn))) (conns ct').
Proof using.
  intros Hok (k & e & d & q & He & Hd & ->)%conns_Some. unfold write_user. rewrite (load_entry _ h k e (co_table _ Hok) He).
  cbn [mbind run_bind]. destruct (store_entry (table_ ct) h k e (set_user u e) (co_table _ Hok) He) as (tb & -> & Hot & Hcap & Hen).
  cbn [mbind run_bind mret run_ret]. eexists. split; [done |]. destruct (co_armed _ Hok _ _ _ He) as [d' Hd']. rewrite Hd in Hd'. injection Hd' as <- ->.
  destruct (conn_changed ct (with_table tb ct) h k e (set_user u e) d) as [Hok' Hput]; try done;
    [apply Hok | by intros th; case_decide; subst].
Qed.

End Ops.
End ConnOps.
