(* ===== verification/ConnInstances.v ===== *)
(** * The stores of connection tracking

    The worker-owned flow table and the expiry wheel, as [conntrack.h]
    instantiates them, keep the promises of [ConnStores.v]. *)

From S2P Require Import Prelude FlowIndex FlowFree FlowTable FlowSlots FlowInv FlowFind FlowChange FlowOps FlowErase FlowVisit FlowKey.
From S2P Require Import ExpiryWheel ExpiryLists ExpiryTime ExpiryInv ExpiryOps ExpiryPoll ExpiryTheorems.
From S2P Require Import PacketParse ConnStores ConnTypes Conntrack.
Open Scope Z_scope.

Module ConnInstances.
Import ConnTypes.
#[local] Existing Instances Wheel.ExpiryHandle_eq_dec Flow.FlowHandle_eq_dec.

(** ** The connection table *)

(** The 40 bytes of a key. *)
Definition key_bytes (k : CtKey) : list Z :=
  addr_a k ++ addr_b k ++
  [Z.land (port_a k) 255; Z.shiftr (port_a k) 8; Z.land (port_b k) 255; Z.shiftr (port_b k) 8;
   k_protocol k; family k; Z.land (zone k) 255; Z.shiftr (zone k) 8].

(** [DefaultFlowTableTraits], [DefaultFlowHash] and [DefaultFlowEqual]; a key
    has one representation, so comparing its bytes compares the key. *)
#[export] Instance ct_traits : Flow.Traits := {
  Flow.kAliases := 0; Flow.kReuse := FreeList.kLifo; Flow.kPrefetchSlots := false; Flow.aliases_ok := ltac:(lia)
}.

#[export] Instance ct_keys : Flow.KeyOps CtKey := {
  Flow.hash k := FlowKey.HashFixedBytes (key_bytes k);
  Flow.equal k1 k2 := bool_decide (k1 = k2)
}.

#[export] Instance ct_key_laws : Flow.KeyLaws CtKey.
Proof.
  split; simpl.
  - intros k. by apply bool_decide_eq_true.
  - intros k1 k2 H%bool_decide_eq_true. by apply bool_decide_eq_true.
  - intros k1 k2 k3 H1%bool_decide_eq_true H2%bool_decide_eq_true. apply bool_decide_eq_true. congruence.
  - intros k1 k2 H%bool_decide_eq_true. by subst.
Qed.

Section FlowStore.
Context {State : Type}.
#[local] Instance no_observer : Flow.FlowObserver State := Flow.NoFlowObserver.

Import Stores.

Abbreviation table := (Flow.t CtKey State).

#[export] Instance flow_store : Table CtKey State table := {
  Find := Flow.Find;
  FindRef := Flow.FindRef;
  FindRefBatch := Flow.FindRefBatch;
  Lookup := Flow.Lookup;
  KeyOf := Flow.KeyOf;
  Emplace := Flow.Emplace;
  EraseHandle := Flow.EraseHandle;
  load := Flow.load;
  store := Flow.store;
  table_size := Flow.size;
  table_capacity := Flow.capacity;
  table_full := Flow.full
}.

Import FlowInv FlowFind FlowChange FlowOps FlowErase FlowVisit.

Definition flow_entry (tb : table) (h : Flow.FlowHandle) : option (CtKey * State) :=
  '(ks, v) ← flow tb h; k ← primary ks; Some (k, v).

(** A flow has one key. *)
Lemma one_key (tb : table) h ks v : inv tb -> flow tb h = Some (ks, v) -> ∃ k, ks = [Some k].
Proof.
  intros Hi Hf. destruct (live_keys tb h ks v Hi Hf) as (s & k & Hs & _ & Hp). exists k.
  apply flow_Some in Hf as (s' & Hs' & _ & _ & -> & _). destruct Hi as (g & Hk & _).
  assert (length (used s') = 1%nat) as Hl by (unfold used; rewrite length_imap; by eapply (kd_shape _ _ _ _ Hk)).
  unfold primary in Hp. destruct (used s') as [| o [|]]; try done. simpl in Hp. by subst o.
Qed.

Lemma entry_flow (tb : table) h k v : inv tb -> flow_entry tb h = Some (k, v) <-> flow tb h = Some ([Some k], v).
Proof.
  intros Hi. unfold flow_entry. destruct (flow tb h) as [[ks v'] |] eqn:Hf; [| done].
  destruct (one_key tb h ks v' Hi Hf) as [k' ->]. simpl. naive_solver.
Qed.

Lemma entry_none (tb : table) h : inv tb -> flow_entry tb h = None <-> flow tb h = None.
Proof.
  intros Hi. unfold flow_entry. destruct (flow tb h) as [[ks v'] |] eqn:Hf; [| done].
  destruct (one_key tb h ks v' Hi Hf) as [k' ->]. done.
Qed.

Lemma names_entry (tb : table) k h : inv tb -> (∃ j, names tb k h j) <-> ∃ v, flow_entry tb h = Some (k, v).
Proof.
  intros Hi. split.
  - intros (j & ks & v & k' & Hf & Hj & He). destruct (one_key tb h ks v Hi Hf) as [k0 ->]. exists v. apply entry_flow; [done |].
    apply bool_decide_eq_true in He. subst k'. destruct j as [| []]; naive_solver.
  - intros (v & Hv). apply entry_flow in Hv; [| done]. exists 0%nat, [Some k], v, k. split_and!; try done. by apply bool_decide_eq_true.
Qed.

(** One flow changed. *)
Lemma entry_change (tb tb' : table) h x :
  flow_change tb h x tb' ->
  inv tb' ∧ Flow.capacity tb' = Flow.capacity tb ∧
  ∀ h', flow_entry tb' h' = if decide (h' = h) then ('(ks, v) ← x; k ← primary ks; Some (k, v)) else flow_entry tb h'.
Proof.
  intros [Hi Ha Hf]. split_and!; [done | apply Ha |]. intros h'. unfold flow_entry. rewrite Hf. by case_decide.
Qed.

#[export] Instance flow_store_laws : TableLaws CtKey State table.
Proof.
  refine {| ok := inv; entry := flow_entry |}.
  - intros t h [k v] Hi He. apply entry_flow in He; [| done]. destruct (capacity_small _ Hi) as [_ Hc].
    apply flow_Some in He as (_ & _ & _ & _ & _ & _ & Hr). unfold in_width. lia.
  - intros t h h' k v v' Hi He He'.
    destruct (proj2 (names_entry t k h Hi)) as [j Hj]; [by exists v |]. destruct (proj2 (names_entry t k h' Hi)) as [j' Hj']; [by exists v' |].
    by destruct (names_unique t k h j h' j' Hi Hj Hj').
  - intros t k Hi. destruct (Find_spec' t k Hi) as (r & Hf & Hr & Hok). exists r. split; [done |]. split; [done |].
    unfold ref_found in Hok. unfold is_ref. destruct (Flow.state r) as [p |].
    + destruct Hok as (j & Hn & -> & _). split; [done |]. apply names_entry; [done |]. by exists j.
    + destruct Hok as [-> Hno]. split; [done |]. intros h v Hv. destruct (proj2 (names_entry t k h Hi)) as [j Hj]; [by exists v |]. by eapply Hno.
  - intros t ks Hi Hl. destruct (FindRefBatch_spec t ks Hi Hl) as (rs & hits & Hb & Hf & _). by exists rs, hits.
  - intros t h Hi Hw. simpl. unfold Flow.Lookup. rewrite (SlotOf_spec t h Hi Hw). f_equal. destruct (flow_entry t h) as [[k v] |] eqn:He.
    + apply entry_flow in He; [| done]. by rewrite He.
    + apply entry_none in He; [| done]. by rewrite He.
  - intros t h Hi Hw. simpl. destruct (KeyOf_spec t h Hi Hw) as (r & -> & Hr). f_equal. destruct (flow_entry t h) as [[k v] |] eqn:He.
    + apply entry_flow in He; [| done]. rewrite He in Hr. destruct Hr as (k' & -> & [= <-]). done.
    + apply entry_none in He; [| done]. rewrite He in Hr. by subst.
  - intros t h k v Hi He. apply entry_flow in He; [| done]. by apply (load_spec t h [Some k]).
  - intros t h k v v' Hi He. apply entry_flow in He; [| done]. destruct (store_spec t h [Some k] v v' Hi He) as (t' & Hs & Hch & _).
    exists t'. split; [done |]. apply entry_change in Hch as (Hi' & Hc & Hen). split; [done |]. split; [done |]. exact Hen.
  - intros t k v Hi Hno. simpl. unfold Flow.Emplace. destruct (CreateImpl_spec t k None v Hi ltac:(done)) as (r & t' & Hrun & Hem).
    exists r, t'. split; [done |]. unfold emplaced in Hem. destruct (Flow.e_status r) eqn:Hst.
    + destruct Hem as (_ & _ & Hfull & _ & _ & _ & _ & Hptr & _ & Hnf & v' & Hob & Hch). rewrite Hfull. injection Hob as _ ->.
      apply entry_change in Hch as (Hi' & Hc & Hen). split_and!; try done. by apply entry_none.
    + destruct Hem as (j & Hn & _). destruct (proj1 (names_entry t k (Flow.e_handle r) Hi)) as [v0 Hv0]; [by exists j |]. by destruct (Hno _ _ Hv0).
    + destruct Hem as (_ & _ & Hfull & -> & ->). rewrite Hfull. destruct (unchanged_observer t (Flow.OnFull (Flow.observer_ t)) Hi) as [Hi' [Hc _] Hfl].
      split_and!; try done.
    + by destruct Hem as (_ & [] & _).
    + done.
  - intros t h Hi Hw. simpl. pose proof (EraseHandle_spec t h Hi Hw) as Hs. destruct (flow_entry t h) as [[k v] |] eqn:He.
    + apply entry_flow in He; [| done]. rewrite He in Hs. destruct Hs as (t' & -> & Hch & _). exists t'. split; [done |].
      apply entry_change in Hch as (Hi' & Hc & Hen). split; [done |]. split; [done |]. exact Hen.
    + apply entry_none in He; [| done]. by rewrite He in Hs.
Defined.

End FlowStore.
(** ** The timers *)

(** [dataplane::ExpiryWheel<flow::FlowHandle, uint64_t>]. *)
#[export] Instance ct_wheel : Wheel.Config := {
  Wheel.digits := 64; Wheel.LevelBits := 6; Wheel.Levels := 6; Wheel.bits_ok := ltac:(lia); Wheel.levels_ok := ltac:(lia);
  Wheel.digits_ok := ltac:(vm_compute; reflexivity)
}.

Section WheelStore.
Context {P : Type}.
Import Stores.

Abbreviation wheel := (Wheel.t P).

(** The payloads of the timers that [ds] names, which a poll that arms nothing
    does not change. *)
Fixpoint payloads (w : wheel) (ds : list Wheel.delivery) : run (list P) :=
  match ds with
  | [] => mret []
  | d :: ds =>
      n ← Wheel.node w (Wheel.id (Wheel.d_handle d));
      ps ← payloads w ds;
      mret (Wheel.payload n :: ps)
  end.

Definition poll_consuming (w : wheel) (now budget : Z) : run (Wheel.PollResult * list P * wheel) :=
  '(r, w') ← Wheel.Poll w now budget (fun _ => Wheel.PDone None);
  ps ← payloads w (drop (length (Wheel.trace_ w)) (Wheel.trace_ w'));
  mret (r, ps, w').

#[export] Instance wheel_store : Timers P wheel := {
  After := Wheel.After;
  Schedule := Wheel.Schedule;
  Refresh := Wheel.Refresh;
  Cancel := Wheel.Cancel;
  Poll := poll_consuming;
  wheel_full := Wheel.full
}.

Import WheelInv Ops Polling WheelProps.

Definition settled_wheel (w : wheel) (g : Rings.ghost) : Prop := quiet w g ∧ once w g.
Definition wheel_in_order (w : wheel) : Prop := ∃ g, settled_wheel w g.
Definition wheel_timely (w : wheel) : Prop := ∃ g, settled_wheel w g ∧ WheelInv.timely w g.

(** The time of some moment of a poll to [now] is at or after the end of [d]. *)
Definition has_passed (w : wheel) (now d : Z) : Prop :=
  ∃ at_time, Wheel.Diff (Wheel.EndOf w d) at_time <= 0 ∧
    wrap Wheel.digits (poll_target w now - at_time) <= wrap Wheel.digits (poll_target w now - Wheel.cur_ w).

Definition is_due (w : wheel) (now d : Z) : Prop := Wheel.Diff (Wheel.EndOf w d) (poll_target w now) <= 0.

(** A step of a settled wheel. *)
Lemma step_settled (w w' : wheel) g g' Q :
  settled_wheel w g -> step_ok Q w g w' g' -> settled_wheel w' g' ∧ (Q -> WheelInv.timely w g -> WheelInv.timely w' g').
Proof.
  intros [(Hi & Hst & Hp) Ho] [I F A D V L T]. split; [split |]; [| | done].
  - split_and!; [done | | by rewrite (fr_polling _ _ F)]. intros i. split; [apply L; intros j; apply Hst |].
    intros Hd. by apply V, Hst in Hd.
  - apply (once_ages w g); [done | apply F | done].
Qed.

Lemma payloads_ok (w : wheel) g ds :
  inv w g -> (∀ x, x ∈ ds -> ∃ p, WheelInv.timer w (Wheel.d_handle x) = Some (Wheel.d_deadline x, p)) ->
  ∃ ps, payloads w ds = Ret ps ∧
    Forall2 (fun x p => WheelInv.timer w (Wheel.d_handle x) = Some (Wheel.d_deadline x, p)) ds ps.
Proof.
  intros Hi. induction ds as [| x ds IH]; intros Hall; [by exists []; split |].
  destruct (Hall x) as [p Hp]; [by left |]. destruct IH as (ps & Hps & Hf); [intros y Hy; apply Hall; by right |].
  pose proof (Resolve_timer w g (Wheel.d_handle x) Hi) as Hr. rewrite Hp in Hr. destruct Hr as (n & _ & Hn & _ & _ & <- & _).
  exists (Wheel.payload n :: ps). split; [| by constructor]. cbn [payloads]. unfold Wheel.node. rewrite (at_lookup _ _ _ Hn).
  cbn [mbind run_bind]. by rewrite Hps.
Qed.

(** What a poll that consumes does to a settled wheel. *)
Lemma poll_consuming_ok (w : wheel) g now budget :
  settled_wheel w g -> 0 <= now < 2 ^ Wheel.digits -> 0 <= budget ->
  ∃ r new ps w' g', poll_consuming w now budget = Ret (r, ps, w') ∧ settled_wheel w' g' ∧
    (WheelInv.timely w g -> WheelInv.timely w' g') ∧ NoDup (Wheel.d_handle <$> new) ∧
    Forall2 (fun x p => WheelInv.timer w (Wheel.d_handle x) = Some (Wheel.d_deadline x, p)) new ps ∧
    Forall (fun x => has_passed w now (Wheel.d_deadline x)) new ∧
    (∀ h, WheelInv.timer w' h = without (WheelInv.timer w) (Wheel.d_handle <$> new) h) ∧
    (Wheel.exhausted r = false -> WheelInv.timely w g -> ∀ h d p, WheelInv.timer w' h = Some (d, p) -> ¬ is_due w now d).
Proof.
  intros [Hq Ho] Hn Hb.
  destruct (Poll_ok w g now budget (fun _ => Wheel.PDone None) Hq Hn Hb) as (r & w' & g' & new & Hrun & Hco & Htr & Hdue & _ & _ & Hat & Hp & Hd).
  destruct (Hp ltac:(done)) as [Htm Hlive]. destruct (payloads_ok w g new (proj1 Hq) Hlive) as (ps & Hps & Hf).
  assert (once w' g') as Ho' by (apply (co_once _ _ _ _ _ Hco); done).
  exists r, new, ps, w', g'. unfold poll_consuming. rewrite Hrun. cbn [mbind run_bind]. rewrite Htr, drop_app_length, Hps.
  assert (in_range w (poll_target w now) (fun _ : P => Wheel.PDone None)) as Hin by (intros q x _; done).
  split_and!; try done.
  - split; [apply Hco | done].
  - by apply (co_timely _ _ _ _ _ Hco).
  - destruct Ho' as [Hnd _]. rewrite Htr, fmap_app in Hnd. by apply NoDup_app in Hnd as (_ & _ & Hnd).
  - apply Forall_forall. intros x Hx. rewrite Forall_forall in Hdue, Hat. exists (Wheel.d_at x). split; [by apply Hdue | by apply Hat].
  - intros He Hty h d p Hti Hd'. destruct (Hd He) as [_ Hall]. specialize (Hall Hin Hty).
    destruct (live_listed w' g' h d p (co_quiet _ _ _ _ _ Hco) Hti) as (k & n & Hk & Hnd & <-).
    specialize (Hall k (Wheel.id h) n Hk Hnd). unfold is_due in Hd'. rewrite (frame_EndOf w w') in Hall by apply (co_shift _ _ _ _ _ Hco). lia.
Qed.

(** A call whose effect is [E] keeps the wheel in order, and timely if its
    deadlines are near: [F] is what it does from each ghost state. *)
Lemma wheel_call {A : Type} (run_of : run (A * wheel)) (w : wheel) (Q : Prop) (E : A -> wheel -> Prop) :
  (∀ g, settled_wheel w g -> ∃ a w' g', run_of = Ret (a, w') ∧ settled_wheel w' g' ∧
     (Q -> WheelInv.timely w g -> WheelInv.timely w' g') ∧ E a w') ->
  wheel_in_order w ->
  ∃ a w', run_of = Ret (a, w') ∧ wheel_in_order w' ∧ (Q -> wheel_timely w -> wheel_timely w') ∧ E a w'.
Proof.
  intros F [g Hg]. destruct (F g Hg) as (a & w' & g' & Hr & Hs & _ & He). exists a, w'. split_and!; [done | by exists g' | | done].
  intros HQ (g2 & Hg2 & Ht). destruct (F g2 Hg2) as (a2 & w2 & g2' & Hr2 & Hs2 & Ht2 & _).
  assert (w2 = w') as -> by congruence. exists g2'. auto.
Qed.

Lemma settled_no_loose (w : wheel) g : settled_wheel w g -> inv w g ∧ no_loose g ∧ ∀ i, Rings.spots g i <> Rings.IsDeliv.
Proof. intros [(Hi & Hst & _) _]. split_and!; [done | intros i; apply Hst..]. Qed.

Lemma wheel_schedule (w : wheel) d p :
  wheel_in_order w ->
  ∃ h w', Wheel.Schedule w d p = Ret (h, w') ∧ wheel_in_order w' ∧ (WheelInv.near w d -> wheel_timely w -> wheel_timely w') ∧
    if Wheel.full w then h = Wheel.kNoExpiry ∧ w' = w
    else WheelInv.timer w h = None ∧ ∀ h', WheelInv.timer w' h' = if decide (h' = h) then Some (d, p) else WheelInv.timer w h'.
Proof.
  apply wheel_call. intros g Hg. destruct (settled_no_loose w g Hg) as (Hi & _).
  destruct (Schedule_ok w g d p Hi) as (h & w' & g' & Hr & Hs & He). destruct (step_settled _ _ _ _ _ Hg Hs). by exists h, w', g'.
Qed.

Lemma wheel_refresh (w : wheel) h d :
  wheel_in_order w ->
  ∃ b w', Wheel.Refresh w h d = Ret (b, w') ∧ wheel_in_order w' ∧ (WheelInv.near w d -> wheel_timely w -> wheel_timely w') ∧
    match WheelInv.timer w h with
    | Some (_, p) => b = true ∧ ∀ h', WheelInv.timer w' h' = if decide (h' = h) then Some (d, p) else WheelInv.timer w h'
    | None => b = false ∧ w' = w
    end.
Proof.
  apply wheel_call. intros g Hg. destruct (settled_no_loose w g Hg) as (Hi & Hl & Hd).
  destruct (rearm_ok w g h d None Hi Hl) as (b & w' & g' & Hr & Hs & He). destruct (step_settled _ _ _ _ _ Hg Hs).
  exists b, w', g'. split_and!; [done.. |]. destruct (WheelInv.timer w h) as [[]|]; [| done].
  by rewrite decide_False in He by apply Hd.
Qed.

Lemma wheel_cancel (w : wheel) h :
  wheel_in_order w ->
  ∃ b w', Wheel.Cancel w h = Ret (b, w') ∧ wheel_in_order w' ∧ (wheel_timely w -> wheel_timely w') ∧
    match WheelInv.timer w h with
    | Some _ => b = true ∧ ∀ h', WheelInv.timer w' h' = if decide (h' = h) then None else WheelInv.timer w h'
    | None => b = false ∧ w' = w
    end.
Proof.
  intros Ho. edestruct (wheel_call (Wheel.Cancel w h) w True) as (b & w' & Hr & Ho' & Ht & He); [| done | exists b, w'; split_and!; [done | done | auto | exact He]].
  intros g Hg. destruct (settled_no_loose w g Hg) as (Hi & Hl & _).
  destruct (Cancel_ok w g h Hi Hl) as (b & w' & g' & Hr & Hs & He). destruct (step_settled _ _ _ _ _ Hg Hs). by exists b, w', g'.
Qed.

Lemma wheel_poll (w : wheel) now budget :
  wheel_in_order w -> 0 <= now < 2 ^ Wheel.digits -> 0 <= budget ->
  ∃ r hs ps w', poll_consuming w now budget = Ret (r, ps, w') ∧ wheel_in_order w' ∧ (wheel_timely w -> wheel_timely w') ∧
    NoDup hs ∧ Forall2 (fun h p => ∃ d, WheelInv.timer w h = Some (d, p) ∧ has_passed w now d) hs ps ∧
    (∀ h, WheelInv.timer w' h = without (WheelInv.timer w) hs h) ∧
    (Wheel.exhausted r = false -> wheel_timely w -> ∀ h d p, WheelInv.timer w' h = Some (d, p) -> ¬ is_due w now d).
Proof.
  intros [g Hg] Hn Hb. destruct (poll_consuming_ok w g now budget Hg Hn Hb) as (r & new & ps & w' & g' & Hr & Hs & _ & Hnd & Hf & Hpa & Ht & _).
  assert (∀ g2, settled_wheel w g2 -> WheelInv.timely w g2 -> wheel_timely w' ∧
    (Wheel.exhausted r = false -> ∀ h d p, WheelInv.timer w' h = Some (d, p) -> ¬ is_due w now d)) as Hty.
  { intros g2 Hg2 Ht2. destruct (poll_consuming_ok w g2 now budget Hg2 Hn Hb) as (r2 & ? & ? & w2 & g2' & Hr2 & Hs2 & Hk & _ & _ & _ & _ & Hd).
    rewrite Hr2 in Hr. simplify_eq. split; [exists g2'; auto |]. intros He. exact (Hd He Ht2). }
  exists r, (Wheel.d_handle <$> new), ps, w'. split_and!; [done | by exists g' | | done | | done |].
  { intros (g2 & Hg2 & Ht2). by apply (Hty g2). }
  2: { intros He (g2 & Hg2 & Ht2). by apply (Hty g2). }
  rewrite Forall2_fmap_l. clear -Hf Hpa. induction Hf; inversion_clear Hpa; constructor; eauto.
Qed.

#[export] Instance wheel_store_laws : TimerLaws P wheel.
Proof.
  refine {|
    Stores.wheel_ok := wheel_in_order; Stores.timer := WheelInv.timer; Stores.near := WheelInv.near; Stores.timely := wheel_timely;
    Stores.passed := has_passed; Stores.due := is_due; Stores.time now := 0 <= now < 2 ^ Wheel.digits;
    Stores.schedule := wheel_schedule; Stores.refresh := wheel_refresh; Stores.cancel := wheel_cancel; Stores.poll := wheel_poll
  |}.
  intros w _. done.
Defined.

End WheelStore.
End ConnInstances.
