(* ===== verification/ConnHistory.v ===== *)
(** * Histories of connection tracking

    The calls a worker makes, what each promises about the connections, and the
    states they reach. The stores are any that keep their laws. *)

From S2P Require Import Prelude PacketParse ParseReads FlowTable ExpiryWheel ConnStores ConnTypes ConnKeys Conntrack ConnInv ConnOps.
Open Scope Z_scope.

Module ConnHistory.
Import Parse Stores ConnTypes Conntrack ConnInv ConnOps.
#[local] Existing Instances Wheel.ExpiryHandle_eq_dec Flow.FlowHandle_eq_dec.

(** A packet and its parse, as [ParseFrame] gives it. *)
Record packet_ok (fp : packet) : Prop := {
  pk_octets : Reads.octets fp.1;
  pk_offset : 0 <= l4_offset fp.2;
  pk_typed : ConnKeys.typed fp.2;
  pk_tcp : l4 fp.2 = L4Tcp <-> protocol fp.2 = 6
}.

Section History.
Context {U T W : Type} (user0 : U).
Context {TB : Table CtKey (Entry U) T} {TL : TableLaws CtKey (Entry U) T}.
Context {TM : Timers Flow.FlowHandle W} {WL : TimerLaws Flow.FlowHandle W}.
Implicit Types (ct : Conntrack.t T W) (h : Flow.FlowHandle) (k : CtKey) (m : view (U := U)).

(** ** Calls *)

Inductive call :=
  | CTrack (fp : packet) (now z : Z) (may : bool)
  | CTrackBatch (ps : list packet) (now z : Z) (may : bool)
  | CExpire (now budget : Z)
  | CRemove (h : Flow.FlowHandle)
  | CSetDeadline (h : Flow.FlowHandle) (d : Z)
  | CWriteUser (h : Flow.FlowHandle) (u : U)
  | CFind (k : CtKey)
  | CLookup (h : Flow.FlowHandle)
  | CKeyOf (h : Flow.FlowHandle).

Inductive reply :=
  | AResult (r : Result)
  | AResults (rs : list Result)
  | ACount (n : Z)
  | ABool (b : bool)
  | ADone
  | APointer (o : option nat)
  | AKey (o : option CtKey).

Definition exec ct (c : call) : run (reply * Conntrack.t T W) :=
  match c with
  | CTrack fp now z may => '(r, ct) ← Track user0 ct fp.1 fp.2 now z may; mret (AResult r, ct)
  | CTrackBatch ps now z may => '(rs, ct) ← TrackBatch user0 ct ps now z may; mret (AResults rs, ct)
  | CExpire now budget => '(n, ct) ← Expire ct now budget; mret (ACount n, ct)
  | CRemove h => '(b, ct) ← Remove ct h; mret (ABool b, ct)
  | CSetDeadline h d => '(b, ct) ← SetDeadline ct h d; mret (ABool b, ct)
  | CWriteUser h u => ct ← write_user ct (pointer h) u; mret (ADone, ct)
  | CFind k => o ← Conntrack.Find ct k; mret (APointer o, ct)
  | CLookup h => o ← Conntrack.Lookup ct h; mret (APointer o, ct)
  | CKeyOf h => o ← Conntrack.KeyOf ct h; mret (AKey o, ct)
  end.

(** Arguments of their types; writes go through the pointer of a connection. *)
Definition allowed m (c : call) : Prop :=
  match c with
  | CTrack fp _ z _ => packet_ok fp ∧ in_width 16 z
  | CTrackBatch ps _ z _ => Forall packet_ok ps ∧ in_width 16 z ∧ (length ps <= kMaxBatch)%nat
  | CExpire now budget => time now ∧ 0 <= budget
  | CRemove h | CSetDeadline h _ | CLookup h | CKeyOf h => in_width 32 (Flow.id h)
  | CWriteUser h _ => is_Some (m h)
  | CFind _ => True
  end.

(** The deadlines a call arms are in the wheel's range when it arms them. *)
Fixpoint batch_near ct (ps : list packet) (now z : Z) (may : bool) : Prop :=
  match ps with
  | [] => True
  | fp :: ps => clock_near ct now ∧
      ∀ r ct', Track user0 ct fp.1 fp.2 now z may = Ret (r, ct') -> batch_near ct' ps now z may
  end.

Definition in_range ct (c : call) : Prop :=
  match c with
  | CTrack _ now _ _ => clock_near ct now
  | CTrackBatch ps now z may => batch_near ct ps now z may
  | CSetDeadline _ d => near (wheel_ ct) d
  | _ => True
  end.

(** ** What a call promises *)

(** The packets tracked one after another. *)
Fixpoint tracked ct (ps : list packet) (now z : Z) (may : bool) (rs : list Result) ct' : Prop :=
  match ps, rs with
  | [], [] => ct' = ct
  | fp :: ps, r :: rs => ∃ ct1,
      Track user0 ct fp.1 fp.2 now z may = Ret (r, ct1) ∧
      tracks user0 (policy_ ct) (no_room ct) (conns ct) fp.1 fp.2 now z may r (conns ct1) ∧
      tracked ct1 ps now z may rs ct'
  | _, _ => False
  end.

Definition set_deadline (d : Z) (cn : conn (U := U)) : conn :=
  mk_conn (c_key cn) (c_tcp cn) (c_initiator cn) (c_replied cn) (c_user cn) d.
Definition set_data (u : U) (cn : conn (U := U)) : conn :=
  mk_conn (c_key cn) (c_tcp cn) (c_initiator cn) (c_replied cn) u (c_deadline cn).

(** [punctual]: every deadline was in range when it was armed. *)
Definition promises (punctual : Prop) ct (c : call) (a : reply) ct' : Prop :=
  match c, a with
  | CTrack fp now z may, AResult r =>
      tracks user0 (policy_ ct) (no_room ct) (conns ct) fp.1 fp.2 now z may r (conns ct')
  | CTrackBatch ps now z may, AResults rs => tracked ct ps now z may rs ct'
  | CExpire now budget, ACount n => expires punctual ct now budget n ct'
  | CRemove h, ABool b => b = bool_decide (is_Some (conns ct h)) ∧ put (conns ct) h None (conns ct')
  | CSetDeadline h d, ABool b =>
      b = bool_decide (is_Some (conns ct h)) ∧ put (conns ct) h (set_deadline d <$> conns ct h) (conns ct')
  | CWriteUser h u, ADone => put (conns ct) h (set_data u <$> conns ct h) (conns ct')
  | CFind k, APointer o => ct' = ct ∧
      match o with
      | Some q => ∃ h cn, conns ct h = Some cn ∧ c_key cn = k ∧ q = pointer h
      | None => absent (conns ct) k
      end
  | CLookup h, APointer o => ct' = ct ∧ o = (fun _ => pointer h) <$> conns ct h
  | CKeyOf h, AKey o => ct' = ct ∧ o = c_key <$> conns ct h
  | _, _ => False
  end.

Lemma keeps_trans ct ct1 ct2 (Q Q1 Q2 : Prop) :
  keeps ct Q1 ct1 -> keeps ct1 Q2 ct2 -> (Q -> Q1 ∧ Q2) -> keeps ct Q ct2.
Proof using. intros [A1 A2 A3 A4 A5] [B1 B2 B3 B4 B5] HQ. split; [done | congruence.. |]. intros [H1 H2]%HQ Ht. auto. Qed.

Lemma track_each_tracked ps now z may : ∀ ct,
  ct_ok ct -> Forall packet_ok ps ->
  ∃ rs ct', track_each user0 ct ps now z may = Ret (rs, ct') ∧ keeps ct (batch_near ct ps now z may) ct' ∧
    tracked ct ps now z may rs ct'.
Proof using.
  induction ps as [| [frame p] ps IH]; intros ct Hok Hps; [exists [], ct; split_and!; [done | by apply keeps_refl | done] |].
  apply Forall_cons in Hps as [[Hf Ho _ _] Hps]. cbn [track_each batch_near tracked fst snd] in *.
  destruct (Track_spec user0 ct frame p now z may Hok Hf Ho) as (r & ct1 & Hrun & Hk & Ht). rewrite Hrun. cbn [mbind run_bind].
  destruct (IH ct1 (kp_ok _ _ _ Hk) Hps) as (rs & ct' & -> & Hk' & Ht'). exists (r :: rs), ct'. split_and!; [done | | by exists ct1].
  eapply keeps_trans; [exact Hk | exact Hk' |]. intros [Hn Hb]. split; [done | by apply (Hb r)].
Qed.

Lemma keyof_conn ct h : ct_ok ct -> in_width 32 (Flow.id h) -> Stores.KeyOf (table_ ct) h = Ret (c_key <$> conns ct h).
Proof using.
  intros Hok Hw. rewrite (key_of (table_ ct) h (co_table _ Hok) Hw). destruct (entry (table_ ct) h) as [[k e] |] eqn:He.
  - destruct (conns_entry _ _ _ _ Hok He) as (d & _ & ->). done.
  - by rewrite (proj2 (conns_None ct h Hok) He).
Qed.

(** Every call returns, keeps the invariant and keeps its promise. *)
Lemma conn_exec_meets ct c :
  ct_ok ct -> allowed (conns ct) c ->
  ∃ a ct', exec ct c = Ret (a, ct') ∧ keeps ct (in_range ct c) ct' ∧ promises (timely (wheel_ ct)) ct c a ct'.
Proof using.
  intros Hok Ha. destruct c; cbn [exec allowed in_range promises] in *.
  - destruct Ha as [[Hf Ho _ _] _]. destruct (Track_spec user0 ct fp.1 fp.2 now z may Hok Hf Ho) as (r & ct' & -> & Hk & Ht).
    by exists (AResult r), ct'.
  - destruct Ha as (Hps & _ & Hlen). rewrite (TrackBatch_tracks user0 ct ps now z may Hok Hlen).
    destruct (track_each_tracked ps now z may ct Hok Hps) as (rs & ct' & -> & Hk & Ht). by exists (AResults rs), ct'.
  - destruct Ha as [Hn Hb]. destruct (Expire_spec ct now budget Hok Hn Hb) as (n & ct' & -> & Hk & He). by exists (ACount n), ct'.
  - destruct (Remove_spec ct h Hok Ha) as (ct' & -> & Hk & Hp). by eexists (ABool _), ct'.
  - destruct (SetDeadline_spec ct h d Hok Ha) as (ct' & -> & Hk & Hp). by eexists (ABool _), ct'.
  - destruct Ha as [cn Hc]. destruct (write_user_spec ct h u cn Hok Hc) as (ct' & -> & Hk & Hp). exists ADone, ct'. by rewrite Hc.
  - unfold Conntrack.Find. destruct (find_conn ct k Hok) as (r & _ & -> & Hm). exists (APointer (Flow.state r)), ct.
    split_and!; [done | by apply keeps_refl | done |]. destruct (Flow.state r) as [q |]; [| done].
    destruct Hm as (-> & e & d & _ & _ & _ & Hc). by eexists _, _.
  - unfold Conntrack.Lookup. rewrite (lookup_conn ct h Hok Ha). eexists (APointer _), ct. split_and!; [done | by apply keeps_refl | done..].
  - unfold Conntrack.KeyOf. rewrite (keyof_conn ct h Hok Ha). eexists (AKey _), ct. split_and!; [done | by apply keeps_refl | done..].
Qed.

(** ** Histories *)

(** A call; in a punctual history its deadlines are in range. *)
Inductive step (punctual : bool) ct : Conntrack.t T W -> Prop :=
  | step_call c a ct' :
      allowed (conns ct) c -> (punctual = true -> in_range ct c) -> exec ct c = Ret (a, ct') -> step punctual ct ct'.

Lemma steps_keep b ct ct' : rtc (step b) ct ct' -> ct_ok ct -> keeps ct (b = true) ct'.
Proof using.
  induction 1 as [ct | ct ct1 ct' [c a ct1' Ha Hr Hrun] _ IH]; intros Hok; [by apply keeps_refl |].
  destruct (conn_exec_meets ct c Hok Ha) as (a' & ct2 & Hrun' & Hk & _). assert (ct2 = ct1') as -> by congruence.
  eapply keeps_trans; [exact Hk | apply IH, Hk |]. auto.
Qed.

Lemma promises_mono (Q Q' : Prop) ct c a ct' : (Q' -> Q) -> promises Q ct c a ct' -> promises Q' ct c a ct'.
Proof using.
  intros HQ. destruct c, a; cbn [promises]; try done. intros (r & ps & w & hs & H1 & H2 & H3 & H4 & H5 & H6).
  exists r, ps, w, hs. split_and!; try done. intros He Hq. by apply H6, HQ.
Qed.

(** A connection has one handle. *)
Lemma one_handle ct h h' cn cn' :
  ct_ok ct -> conns ct h = Some cn -> conns ct h' = Some cn' -> c_key cn = c_key cn' -> h = h'.
Proof using.
  intros Hok (k & e & d & q & He & _ & ->)%conns_Some (k' & e' & d' & q' & He' & _ & ->)%conns_Some. cbn [c_key to_conn]. intros ->.
  by eapply (entry_unique (table_ ct)); [apply Hok | |].
Qed.

End History.
End ConnHistory.
