(* ===== verification/ConnTcp.v ===== *)
(** * The TCP state of a connection

    A TCP connection beyond its first SYN has been answered, when packets in the
    middle of a connection may not start one ([tcp_pickup] off). *)

From S2P Require Import Prelude PacketParse FlowTable ExpiryWheel ConnStores ConnTypes ConnKeys Conntrack ConnInv ConnOps ConnHistory.
Open Scope Z_scope.

Module ConnTcp.
Import Parse Stores ConnTypes Conntrack ConnInv ConnOps ConnHistory.
#[local] Existing Instances Wheel.ExpiryHandle_eq_dec Flow.FlowHandle_eq_dec.

(** The state and reply flag of a connection of [proto]. *)
Definition answered (proto : Z) (x : TcpState) (rep : bool) : Prop :=
  if bool_decide (proto = 6) then x = kSynSent ∨ x = kClose ∨ (x <> kNone ∧ rep = true) else x = kNone.

Lemma next_answered d c x rep v :
  answered 6 x rep -> tcp_next d c x = Ret v -> v <> kIv -> v <> kIg ->
  ∃ y, state_of v = Ret y ∧ answered 6 y (if bool_decide (d = kReply) then true else rep).
Proof.
  unfold answered. simpl. intros Hx Hv H1 H2. destruct d, c, x; vm_compute in Hv; injection Hv as <-; try done;
    eexists; (split; [vm_compute; reflexivity |]); destruct rep; naive_solver.
Qed.

Lemma seen_answered proto x rep (d : Direction) :
  answered proto x rep -> answered proto x (if bool_decide (d = kReply) then true else rep).
Proof. unfold answered. case_bool_decide; [| done]. destruct (bool_decide (d = kReply)); naive_solver. Qed.

Lemma StepExisting_answered x rep p d may st y rep' :
  (l4 p = L4Tcp <-> protocol p = 6) -> answered (protocol p) x rep ->
  StepExisting x rep p d may = Ret (st, y, rep') -> answered (protocol p) y rep'.
Proof.
  intros Htcp Ha. unfold StepExisting. case_bool_decide as Hl; [| intros [= <- <- <-]; by apply seen_answered].
  rewrite (proj1 Htcp Hl) in *. destruct (negb _); [by intros [= <- <- <-] |].
  destruct (tcp_next_ok d (ClassOf (tcp_flags p)) x) as (v & Hv & _). rewrite Hv. cbn [mbind run_bind].
  destruct (bool_decide (v = kIv)) eqn:Hiv; [by intros [= <- <- <-] |]. apply bool_decide_eq_false in Hiv.
  destruct (_ && _); [by intros [= <- <- <-] |]. destruct (bool_decide (v <> kIg)) eqn:Hig.
  - apply bool_decide_eq_true in Hig. destruct (next_answered d _ x rep v Ha Hv Hiv Hig) as (z & -> & Hz). by intros [= <- <- <-].
  - intros [= <- <- <-]. by apply seen_answered.
Qed.

Lemma fresh_answered pol p x :
  (l4 p = L4Tcp <-> protocol p = 6) -> tcp_pickup pol = false -> fresh_tcp pol p = Some x -> answered (protocol p) x false.
Proof.
  intros Htcp Hp. unfold fresh_tcp, answered. rewrite Hp, andb_false_r. case_bool_decide as Hl.
  - rewrite (bool_decide_eq_true_2 (protocol p = 6)) by by apply Htcp. repeat case_match; naive_solver.
  - rewrite (bool_decide_eq_false_2 (protocol p = 6)) by naive_solver. case_match; naive_solver.
Qed.

Section Tcp.
Context {U T W : Type} (user0 : U).
Context {TB : Table CtKey (Entry U) T} {TL : TableLaws CtKey (Entry U) T}.
Context {TM : Timers Flow.FlowHandle W} {WL : TimerLaws Flow.FlowHandle W}.
Implicit Types (ct : Conntrack.t T W) (h : Flow.FlowHandle) (m : view (U := U)).

Definition all_answered m : Prop :=
  ∀ h cn, m h = Some cn -> answered (k_protocol (c_key cn)) (c_tcp cn) (c_replied cn).

Lemma put_answered m h x m' :
  all_answered m -> (∀ cn, x = Some cn -> answered (k_protocol (c_key cn)) (c_tcp cn) (c_replied cn)) ->
  put m h x m' -> all_answered m'.
Proof using. intros Hm Hx Hp h' cn. rewrite Hp. case_decide; [apply Hx | apply Hm]. Qed.

Lemma put_conn_answered m h cn m' :
  all_answered m -> answered (k_protocol (c_key cn)) (c_tcp cn) (c_replied cn) -> put m h (Some cn) m' -> all_answered m'.
Proof using. intros Hm Hx. apply put_answered; [done |]. intros cn' Hcn. by injection Hcn as <-. Qed.

Lemma same_answered m m' : all_answered m -> same m m' -> all_answered m'.
Proof using. intros Hm Hs h cn. rewrite Hs. apply Hm. Qed.

Lemma key_protocol p z : ConnKeys.typed p -> in_width 16 z -> k_protocol (key (MakeKey p z)) = protocol p.
Proof using. intros Hp Hz. destruct (ConnKeys.MakeKey_spec p z Hp Hz) as [_ ->]. by destruct (src_is_a _). Qed.

Lemma tracks_answered pol full m fp now z may r m' :
  tcp_pickup pol = false -> packet_ok fp -> in_width 16 z -> all_answered m ->
  tracks user0 pol full m fp.1 fp.2 now z may r m' -> all_answered m'.
Proof using.
  destruct fp as [frame p]. intros Hp [_ _ Hty Htcp] Hz Hm. cbn [fst snd] in *. pose proof (key_protocol p z Hty Hz) as Hk.
  assert (answered (protocol p) kSynSent false ∨ protocol p <> 6) as Hsyn by (unfold answered; case_bool_decide; auto).
  unfold tracks. destruct (Keyed p); [| intros [_ Hs]; by apply (same_answered m)].
  intros [(h & cn & Hc & Hkc & st & x & rep & Hst & Hr) | [_ Hr]].
  - pose proof (Hm h cn Hc) as Ha. rewrite Hkc, Hk in Ha. pose proof (StepExisting_answered _ _ _ _ _ _ _ _ Htcp Ha Hst) as Hx.
    destruct st; [destruct Hr as [_ Hs]; by apply (same_answered m) | |]; destruct Hr as (_ & d & _ & Hput);
      (eapply put_conn_answered; [exact Hm | | exact Hput]; cbn [c_key c_tcp c_replied]; rewrite Hk).
    + done.
    + destruct Hsyn as [| Hne]; [done |]. unfold StepExisting in Hst. rewrite bool_decide_eq_false_2 in Hst by naive_solver. done.
  - unfold starts in Hr. destruct (fresh_tcp pol p) as [x |] eqn:Hf; [| destruct Hr as [_ Hs]; by apply (same_answered m)].
    destruct (negb may); [destruct Hr as [_ Hs]; by apply (same_answered m) |].
    destruct full; [destruct Hr as [_ Hs]; by apply (same_answered m) |]. destruct Hr as (h & d & _ & _ & _ & Hput).
    eapply put_conn_answered; [exact Hm | | exact Hput]. cbn [c_key c_tcp c_replied]. rewrite Hk. by eapply fresh_answered.
Qed.

Lemma tracked_answered ps now z may : ∀ ct rs ct',
  ct_ok ct -> tcp_pickup (policy_ ct) = false -> Forall packet_ok ps -> in_width 16 z -> all_answered (conns ct) ->
  tracked user0 ct ps now z may rs ct' -> all_answered (conns ct').
Proof using.
  induction ps as [| fp ps IH]; intros ct [| r rs] ct' Hok Hp Hps Hz Hm Ht; cbn [tracked] in Ht; try done; [by subst |].
  destruct Ht as (ct1 & Hrun & Ht & Hrest). apply Forall_cons in Hps as [Hfp Hps]. pose proof Hfp as [Hf Ho _ _].
  destruct (Track_spec user0 ct fp.1 fp.2 now z may Hok Hf Ho) as (r1 & ct2 & Hrun' & [K1 K2 _ _ _] & _).
  assert (ct2 = ct1) as -> by congruence. apply (IH ct1 rs ct'); try done; [congruence |]. by eapply tracks_answered.
Qed.

Lemma promises_answered Q ct c a ct' :
  ct_ok ct -> tcp_pickup (policy_ ct) = false -> allowed (conns ct) c -> all_answered (conns ct) ->
  promises user0 Q ct c a ct' -> all_answered (conns ct').
Proof using.
  intros Hok Hp Ha Hm. destruct c, a; cbn [promises allowed] in *; try done.
  - destruct Ha. by apply tracks_answered.
  - destruct Ha as (? & ? & _). by apply tracked_answered.
  - intros (_ & _ & _ & hs & _ & _ & _ & _ & He & _) h cn. rewrite He. case_decide; [done | apply Hm].
  - intros [_ Hput]. by eapply put_answered; [exact Hm | | exact Hput].
  - intros [_ Hput]. eapply put_answered; [exact Hm | | exact Hput]. intros cn. destruct (conns ct h) as [cn0 |] eqn:Hc; [| done].
    intros [= <-]. by apply (Hm h cn0).
  - intros Hput. eapply put_answered; [exact Hm | | exact Hput]. intros cn. destruct (conns ct h) as [cn0 |] eqn:Hc; [| done].
    intros [= <-]. by apply (Hm h cn0).
  - by intros [-> _].
  - by intros [-> _].
  - by intros [-> _].
Qed.

Lemma steps_answered b ct ct' :
  rtc (step user0 b) ct ct' -> ct_ok ct -> tcp_pickup (policy_ ct) = false -> all_answered (conns ct) -> all_answered (conns ct').
Proof using.
  induction 1 as [ct | ct ct1 ct' [c a ct1' Ha Hr Hrun] _ IH]; intros Hok Hp Hm; [done |].
  destruct (conn_exec_meets user0 ct c Hok Ha) as (a' & ct2 & Hrun' & [K1 K2 _ _ _] & Hpr).
  assert (ct2 = ct1') as -> by congruence. apply IH; [done | congruence |]. by apply (promises_answered _ ct c _ _ Hok Hp Ha Hm Hpr).
Qed.

End Tcp.
End ConnTcp.
