(* ===== verification/ConnTheorems.v ===== *)
(** * Correctness of connection tracking

    Over the flow table and the expiry wheel, and every history of calls from
    [Create]. *)

From S2P Require Import Prelude FlowTable FlowInv FlowFind FlowVisit ExpiryWheel ExpiryLists ExpiryInv ExpiryTheorems.
From S2P Require Import PacketParse ConnStores ConnTypes ConnKeys Conntrack ConnInv ConnOps ConnInstances ConnHistory ConnTcp.
Open Scope Z_scope.

Module ConnTheorems.
Import Parse Stores ConnTypes Conntrack ConnInv ConnOps ConnInstances ConnHistory ConnTcp.
#[local] Existing Instances Wheel.ExpiryHandle_eq_dec Flow.FlowHandle_eq_dec ConnInstances.no_observer.

Section Theorems.
Context {U : Type} (user0 : U).

Abbreviation tracker := (Conntrack.t (Flow.t CtKey (Entry U)) (Wheel.t Flow.FlowHandle)).
Implicit Types (ct : tracker) (h : Flow.FlowHandle).

(** [Create] with what it gets from the system: whether each allocation
    succeeds, the size of a slot, the override of the lookup body and the
    caches. *)
Record system := mk_system {
  allocates : nat -> bool;
  sizeof_Slot : Z;
  wheel_allocated : bool;
  allocated : bool;
  forced : LookupBody;
  table_bytes : Z;
  l2_bytes : Z
}.

Definition create (sys : system) (capacity : Z) (policy : TimeoutPolicy) (start shift : Z) : CreateError + tracker :=
  Create (Flow.Create (allocates sys) (sizeof_Slot sys) capacity tt)
    (Wheel.Create Flow.kNoFlow (wheel_allocated sys) (Z.to_nat capacity) start shift)
    (allocated sys) (forced sys) (table_bytes sys) (l2_bytes sys) policy.

(** A new tracker is empty. *)
Lemma create_ok sys capacity policy start shift ct :
  0 <= capacity -> policy_ok policy -> in_width 64 start -> 0 <= shift ->
  create sys capacity policy start shift = inr ct ->
  ct_ok ct ∧ timely (wheel_ ct) ∧ policy_ ct = policy ∧ ∀ h, conns ct h = None.
Proof using.
  intros Hcap Hpol Hst Hsh. unfold create, Create. destruct (Flow.Create _ _ _ _) as [| tb] eqn:Htb; [done |].
  destruct (Wheel.Create _ _ _ _ _) as [| w] eqn:Hw; [done |]. destruct (negb _); [done |]. intros [= <-].
  destruct (FlowVisit.Create_spec _ _ _ _ _ Hcap Htb) as (Hi & Hnone & _). destruct (wheel_allocated sys).
  2: { unfold Wheel.Create in Hw. by repeat case_match. }
  destruct (WheelProps.create_quiet (CF := ct_wheel) _ _ _ _ _ Hst Hsh Hw) as (Hq & Hti & Ho).
  assert (∀ th, WheelInv.timer w th = None) as Hno.
  { intros th. destruct (WheelInv.timer w th) as [[d p] |] eqn:Ht; [| done].
    destruct (WheelProps.live_listed _ _ _ _ _ Hq Ht) as (k & n & Hk & _). by apply elem_of_nil in Hk. }
  assert (∀ h, flow_entry tb h = None) as He by (intros h; by apply entry_none).
  split_and!; [| by eexists | done |].
  - split; simpl; [done | by eexists | intros h k e; by rewrite He | intros th d h; by rewrite Hno | done].
  - intros h. unfold conns. simpl. by rewrite He.
Qed.

(** Packets tracked at the time last polled arm deadlines in range, when the
    granularity is below a quarter of the clock's range. *)
Lemma polled_clock_near ct now :
  ct_ok ct -> Wheel.shift_ (wheel_ ct) < 62 -> in_width 64 now ->
  Z.ldiff now (Wheel.UnitMask (Wheel.shift_ (wheel_ ct))) = Wheel.cur_ (wheel_ ct) -> clock_near ct now.
Proof using.
  intros Hok Hsh Hn Hc timeout Ht. destruct (co_wheel _ Hok) as [g Hg]. destruct (settled_no_loose _ _ Hg) as (Hi & _).
  apply (WheelProps.After_is_near (CF := ct_wheel)); [apply Hi | done | done | done | apply Ht].
Qed.

Section Reached.
Context (sys : system) (capacity start shift : Z) (policy : TimeoutPolicy) (ct0 : tracker).
Context (Hcap : 0 <= capacity) (Hpol : policy_ok policy) (Hstart : in_width 64 start) (Hshift : 0 <= shift).
Context (Hcreate : create sys capacity policy start shift = inr ct0).

(** C8. Connection tracking over the flow table and the expiry wheel meets its
    contract in every history from [Create]: each call returns, without reading
    out of bounds and without a failed check, and does to the connections what
    its comment says, on every branch; a connection has one handle. A packet is
    new, existing, related, invalid, untracked or refused by the TCP table, the
    policy and the room left, and arms the timeout of its connection's new
    state; a batch answers and does what its packets would one by one, whichever
    lookup body is chosen; [Expire] removes only connections whose deadline has
    passed, counts them, and leaves none that is due if its budget lasts and
    deadlines were in the wheel's range when armed. *)
Theorem conntrack_meets_contract punctual ct c :
  rtc (step user0 punctual) ct0 ct -> allowed (conns ct) c ->
  (∀ h, conns ct0 h = None) ∧
  (∀ h h' cn cn', conns ct h = Some cn -> conns ct h' = Some cn' -> c_key cn = c_key cn' -> h = h') ∧
  ∃ a ct', exec user0 ct c = Ret (a, ct') ∧ policy_ ct' = policy ∧ promises user0 (punctual = true) ct c a ct'.
Proof using Hcap Hpol Hstart Hshift Hcreate.
  intros Hreach Ha. destruct (create_ok _ _ _ _ _ _ Hcap Hpol Hstart Hshift Hcreate) as (Hok0 & Hti0 & Hp0 & Hnone).
  destruct (steps_keep user0 punctual ct0 ct Hreach Hok0) as [Hok Hp _ _ Hti].
  destruct (conn_exec_meets user0 ct c Hok Ha) as (a & ct' & Hrun & [_ Hp' _ _ _] & Hpr).
  split_and!; [done | intros h h' cn cn'; by apply one_handle |]. exists a, ct'. split_and!; [done | congruence |].
  eapply promises_mono; [| exact Hpr]. auto.
Qed.

(** C33. A TCP connection is established only by an answer: when packets in the
    middle of a connection may not start one, every connection past its first
    SYN is TCP and has had a packet in the reply direction, unless it was reset;
    connections of other protocols never take a TCP state. *)
Theorem established_only_by_reply punctual ct h cn :
  rtc (step user0 punctual) ct0 ct -> tcp_pickup policy = false -> conns ct h = Some cn ->
  (k_protocol (c_key cn) <> 6 -> c_tcp cn = kNone) ∧
  (c_tcp cn ∉ [kNone; kSynSent; kClose] -> k_protocol (c_key cn) = 6 ∧ c_replied cn = true).
Proof using Hcap Hpol Hstart Hshift Hcreate.
  intros Hreach Hpick Hc. destruct (create_ok _ _ _ _ _ _ Hcap Hpol Hstart Hshift Hcreate) as (Hok0 & _ & Hp0 & Hnone).
  assert (answered (k_protocol (c_key cn)) (c_tcp cn) (c_replied cn)) as Ha.
  { apply (steps_answered user0 punctual ct0 ct Hreach Hok0) with h; [by rewrite Hp0 | | done]. intros h' cn'. by rewrite Hnone. }
  unfold answered in Ha. rewrite !not_elem_of_cons. case_bool_decide; naive_solver.
Qed.

End Reached.
End Theorems.
End ConnTheorems.
