(* ===== verification/ConnDemo.v ===== *)
(** * Connections tracked

    A tracker of four connections and a TCP handshake: frames are parsed and
    tracked at the time last polled, and the connection times out. *)

From S2P Require Import Prelude PacketParse ParseReads ParseRoundtrip ParseDemo FlowTable ExpiryWheel ConnStores ConnTypes.
From S2P Require Import ConnKeys Conntrack ConnInv ConnOps ConnInstances ConnHistory ConnTheorems.
Open Scope Z_scope.

Module ConnDemo.
Import Parse Reads ConnTypes Conntrack ConnInv ConnOps ConnInstances ConnHistory ConnTheorems.
#[local] Existing Instance ConnInstances.no_observer.

(** ** Packets *)

Definition segment (from to : Z) (sport dport flags : Z) : list Z :=
  Roundtrip.frame_bytes (Roundtrip.mk_packet (replicate 12 2) []
    (Roundtrip.Ipv4 0 1 true false 64 0 [10; 0; 0; from] [10; 0; 0; to] [])
    (Roundtrip.Tcp sport dport 0 1 0 0 flags 1024 0 0 [] []) []).

Definition parsed (frame : list Z) : packet :=
  match ParseFrame frame 0 with Ret (_, p) => (frame, p) | _ => (frame, parsed0) end.

Definition syn : packet := parsed (segment 1 2 40000 80 kTcpSyn).
Definition syn_ack : packet := parsed (segment 2 1 80 40000 (Z.lor kTcpSyn kTcpAck)).
Definition ack : packet := parsed (segment 1 2 40000 80 kTcpAck).

Definition fields_ok (p : ParsedFrame) : bool :=
  bool_decide (length (src p) = 16%nat) && forallb (fun x => (0 <=? x) && (x <? 256)) (src p) &&
  (bool_decide (length (dst p) = 16%nat) && forallb (fun x => (0 <=? x) && (x <? 256)) (dst p)) &&
  (bool_decide (in_width 16 (src_port p)) && bool_decide (in_width 16 (dst_port p)) && bool_decide (in_width 8 (protocol p))).

Lemma fields_typed p : fields_ok p = true -> ConnKeys.typed p.
Proof.
  unfold fields_ok. rewrite !andb_true_iff, !bool_decide_eq_true. intros ([[H1 H2] [H3 H4]] & [H5 H6] & H7).
  split; [split; [done | by apply ParseDemo.octets_by_computation].. | done | done].
Qed.

Definition checked (fp : packet) : bool :=
  forallb (fun x => (0 <=? x) && (x <? 256)) fp.1 && bool_decide (0 <= l4_offset fp.2) && fields_ok fp.2 &&
  bool_decide (l4 fp.2 = L4Tcp) && bool_decide (protocol fp.2 = 6).

Lemma checked_ok fp : checked fp = true -> packet_ok fp.
Proof.
  unfold checked. rewrite !andb_true_iff, !bool_decide_eq_true. intros ((((H1 & H2) & H3) & H4) & H5).
  split; [by apply ParseDemo.octets_by_computation | done | by apply fields_typed | done].
Qed.

(** The two directions of the handshake have one key, and it tells them apart. *)
Lemma key_names_connection_witness :
  key (MakeKey syn.2 0) = key (MakeKey syn_ack.2 0) ∧ src_is_a (MakeKey syn.2 0) <> src_is_a (MakeKey syn_ack.2 0).
Proof.
  assert (ConnKeys.typed syn.2) as H1 by (apply fields_typed; vm_compute; reflexivity).
  assert (ConnKeys.typed syn_ack.2) as H2 by (apply fields_typed; vm_compute; reflexivity).
  assert (in_width 16 0) as Hz by (unfold in_width; lia).
  destruct (ConnKeys.key_names_connection syn.2 syn_ack.2 0 0 H1 H2 Hz Hz) as [Hk Hd].
  assert (key (MakeKey syn.2 0) = key (MakeKey syn_ack.2 0)) as He
    by (apply Hk; split_and!; [reflexivity.. |]; right; split_and!; vm_compute; reflexivity).
  split; [exact He |]. intros Hs. apply (Hd He) in Hs as [Hs _]. vm_compute in Hs. congruence.
Defined.

(** ** A tracker *)

Abbreviation tracker := (Conntrack.t (Flow.t CtKey (Entry Z)) (Wheel.t Flow.FlowHandle)).

Definition sys : system := mk_system (fun _ => true) 64 true true kStaged 4096 1048576.

Definition new_tracker : CreateError + tracker := create sys 4 policy0 0 0.
Definition empty_tracker : tracker :=
  mk (Flow.mk (FlowIndex.Index.construct 0) [] (FlowFree.FreeList.Init 0 FlowFree.FreeList.kLifo) 0 0 0 tt)
     (Wheel.construct Flow.kNoFlow 1 0 0) kAuto policy0.
Definition tracker0 : tracker := match new_tracker with inr ct => ct | inl _ => empty_tracker end.

Definition after (c : call) (ct : tracker) : tracker := match exec 0 ct c with Ret (_, ct') => ct' | _ => ct end.

Definition call1 : call (U := Z) := CTrack syn 0 0 true.
Definition call2 : call (U := Z) := CTrack syn_ack 0 0 true.
Definition tracker1 : tracker := after call1 tracker0.
Definition tracker2 : tracker := after call2 tracker1.
Definition first_handle : Flow.FlowHandle := Flow.mk_handle 1 1.

Lemma tracker_created : create sys 4 policy0 0 0 = inr tracker0.
Proof. reflexivity. Qed.

Lemma policy0_ok : policy_ok policy0.
Proof.
  assert (∀ x, bool_decide (in_width 64 x) = true -> in_width 64 x) as Hw by (intros x; apply bool_decide_eq_true).
  split; [done | repeat (constructor; [by apply Hw |]); constructor | split; by apply Hw..].
Qed.

Lemma width0 : in_width 64 0.
Proof. unfold in_width. lia. Qed.

Lemma empty_ok : ct_ok tracker0.
Proof. by destruct (create_ok sys 4 policy0 0 0 tracker0 ltac:(lia) policy0_ok width0 ltac:(lia) tracker_created). Qed.

(** A packet tracked at the time last polled is a step of a punctual history. *)
Lemma track_step (fp : packet) (ct : tracker) :
  ct_ok ct -> checked fp = true -> Wheel.shift_ (wheel_ ct) = 0 -> Wheel.cur_ (wheel_ ct) = 0 ->
  (match exec 0 ct (CTrack fp 0 0 true) with Ret _ => true | _ => false end) = true ->
  rtc (step 0 true) ct (after (CTrack fp 0 0 true) ct).
Proof.
  intros Hok Hfp Hs Hc Hrun. apply rtc_once. unfold after. destruct (exec 0 ct _) as [[a ct'] | |] eqn:He; [| done..].
  eapply (step_call _ _ _ (CTrack fp 0 0 true)); [split; [by apply checked_ok | unfold in_width; lia] | | exact He].
  intros _. apply polled_clock_near; [done | by rewrite Hs | apply width0 | by rewrite Hs, Hc].
Qed.

Lemma handshake1 : rtc (step 0 true) tracker0 tracker1.
Proof. apply (track_step syn); [apply empty_ok | vm_compute; reflexivity..]. Qed.

Lemma handshake2 : rtc (step 0 true) tracker0 tracker2.
Proof.
  etrans; [exact handshake1 |]. apply (track_step syn_ack); [| vm_compute; reflexivity..].
  apply (kp_ok _ _ _ (steps_keep 0 true _ _ handshake1 empty_ok)).
Qed.

Definition status_of (a : reply) : list TrackStatus :=
  match a with AResult r => [status r] | AResults rs => status <$> rs | _ => [] end.
Definition answers (ct : tracker) (c : call) : list TrackStatus :=
  match exec 0 ct c with Ret (a, _) => status_of a | _ => [] end.

(** The answer to a SYN is its reply; an ACK from the initiator establishes the
    connection, and one from a stranger is invalid. *)
Example handshake_answers :
  answers tracker0 call1 = [kNew] ∧ answers tracker1 call2 = [kExisting] ∧ answers tracker0 call2 = [kInvalid] ∧
  answers tracker2 (CTrackBatch [ack; parsed (segment 9 2 40000 80 kTcpAck); syn] 0 0 true) = [kExisting; kInvalid; kExisting].
Proof. split_and!; vm_compute; reflexivity. Qed.

(** Polled past its timeout, the connection leaves. *)
Lemma conntrack_meets_contract_witness :
  ∃ a ct', exec 0 tracker2 (CExpire 500000 100000) = Ret (a, ct') ∧ a = ACount 1 ∧
    promises 0 (true = true) tracker2 (CExpire 500000 100000) a ct'.
Proof.
  destruct (conntrack_meets_contract 0 sys 4 0 0 policy0 tracker0 ltac:(lia) policy0_ok width0 ltac:(lia) tracker_created
    true tracker2 (CExpire 500000 100000) handshake2) as (_ & _ & a & ct' & Hrun & _ & Hp).
  { split; [vm_compute; split; congruence | lia]. }
  exists a, ct'. split; [exact Hrun |]. split; [| exact Hp].
  assert ((fst <$> match exec 0 tracker2 (CExpire 500000 100000) with Ret x => Some x | _ => None end) = Some (ACount 1)) as He
    by (vm_compute; reflexivity).
  rewrite Hrun in He. by injection He.
Defined.

(** After the SYN and its answer the connection is in SYN_RECV, so it was
    answered. *)
Lemma established_only_by_reply_witness :
  ∃ cn, conns tracker2 first_handle = Some cn ∧ c_tcp cn = kSynRecv ∧ c_replied cn = true.
Proof.
  assert (∃ cn, conns tracker2 first_handle = Some cn ∧ c_tcp cn = kSynRecv) as (cn & Hc & Hs)
    by (eexists; split; vm_compute; reflexivity).
  exists cn. split; [exact Hc |]. split; [exact Hs |].
  apply (established_only_by_reply 0 sys 4 0 0 policy0 tracker0 ltac:(lia) policy0_ok width0 ltac:(lia) tracker_created
    true tracker2 first_handle cn handshake2 eq_refl Hc). rewrite Hs.
  rewrite !not_elem_of_cons. split_and!; [congruence.. | apply not_elem_of_nil].
Defined.

End ConnDemo.
