(* ===== verification/ConnParse.v ===== *)
(** * Parsed packets are trackable

    What [ParseFrame] writes has the types of the fields of [ParsedFrame], so
    every accepted packet is one that connection tracking takes. *)

From S2P Require Import Prelude PacketParse ParseReads ParseFast ParseProps ParseDemo ConnTypes ConnKeys Conntrack ConnHistory ConnDemo.
Open Scope Z_scope.

Module ConnParse.
Import Parse Reads Fast.

Create HintDb typed.

(** [Q] holds of what a run returns. *)
Definition post {A : Type} (Q : A -> Prop) (r : run A) : Prop := ∀ x, r = Ret x -> Q x.

Lemma post_ret {A} (Q : A -> Prop) x : Q x -> post Q (mret x).
Proof. intros Hx y [= <-]. done. Qed.

Lemma post_bind {A B} (P : A -> Prop) (Q : B -> Prop) (r : run A) (f : A -> run B) :
  post P r -> (∀ x, P x -> post Q (f x)) -> post Q (r ≫= f).
Proof. intros Hr Hf y Hy. destruct r as [x | |]; [| done..]. exact (Hf x (Hr x eq_refl) y Hy). Qed.

Lemma post_if {A} (Q : A -> Prop) (b : bool) r1 r2 : post Q r1 -> post Q r2 -> post Q (if b then r1 else r2).
Proof. by destruct b. Qed.

Lemma post_byte p i : octets p -> post (in_width 8) (byte p i).
Proof.
  intros Hp x Hx. unfold byte, at_ in Hx. destruct (p !! Z.to_nat i) as [y |] eqn:Hy; [| done]. injection Hx as <-.
  by eapply Forall_lookup_1.
Qed.

Lemma post_Be16 p i : post (in_width 16) (Be16 p i).
Proof.
  apply (post_bind (fun _ => True)); [done |]. intros a _. apply (post_bind (fun _ => True)); [done |]. intros b _.
  apply post_ret, wrap_range. lia.
Qed.

Lemma post_bytes p off n : octets p -> 0 <= off -> 0 <= n -> post (fun l => length l = Z.to_nat n ∧ octets l) (bytes p off n).
Proof.
  intros Hp Ho Hn x. unfold bytes. case_bool_decide as Hb; [| done]. intros [= <-]. unfold size in Hb.
  split; [rewrite length_take, length_drop; lia | by apply Forall_take, Forall_drop].
Qed.

(** The fields of a [ParsedFrame] have their types. *)
Record fields_typed (o : ParsedFrame) : Prop := {
  ft_key : ConnKeys.typed o;
  ft_flags : in_width 8 (tcp_flags o);
  ft_icmp : in_width 8 (icmp_type o) ∧ in_width 8 (icmp_code o);
  ft_places : in_width 16 (l3_offset o) ∧ in_width 16 (l4_offset o) ∧ in_width 16 (l4_length o)
}.

Lemma parsed0_typed : fields_typed parsed0.
Proof.
  assert (in_width 8 0) as H8 by (unfold in_width; lia). assert (in_width 16 0) as H16 by (unfold in_width; lia).
  split; [split; simpl; [split; [done |]; repeat (constructor; [done |]); constructor.. | done | done] | done | done | done].
Qed.

Lemma set_addrs_typed a b o :
  fields_typed o -> octets a -> octets b -> (length a <= 16)%nat -> (length b <= 16)%nat -> fields_typed (set_addrs a b o).
Proof.
  intros [[[Hs Hs'] [Hd Hd'] Hp Hpr] Hf Hi Ho] Ha Hb Hla Hlb. split; [split; simpl; try done | done..].
  - rewrite length_app, length_drop. split; [lia |]. apply Forall_app. split; [done | by apply Forall_drop].
  - rewrite length_app, length_drop. split; [lia |]. apply Forall_app. split; [done | by apply Forall_drop].
Qed.

Lemma set_ports_typed a b o : fields_typed o -> in_width 16 a -> in_width 16 b -> fields_typed (set_ports a b o).
Proof. by intros [[? ? ? ?] ? ? ?] ? ?. Qed.

Lemma set_protocol_typed x o : fields_typed o -> in_width 8 x -> fields_typed (set_protocol x o).
Proof. by intros [[? ? ? ?] ? ? ?] ?. Qed.

Lemma set_tcp_flags_typed x o : fields_typed o -> in_width 8 x -> fields_typed (set_tcp_flags x o).
Proof. by intros [[? ? ? ?] ? ? ?] ?. Qed.

Lemma set_icmp_typed x y o : fields_typed o -> in_width 8 x -> in_width 8 y -> fields_typed (set_icmp x y o).
Proof. by intros [[? ? ? ?] ? ? ?] ? ?. Qed.

Lemma set_l4_place_typed x y o : fields_typed o -> fields_typed (set_l4_place x y o).
Proof. intros [[? ? ? ?] ? ? ?]. split; [done.. |]. split_and!; [naive_solver | apply wrap_range; lia..]. Qed.

Lemma set_l3_typed k o : fields_typed o -> fields_typed (set_l3 k o).
Proof. by intros [[? ? ? ?] ? ? ?]. Qed.

Lemma set_l4_typed k o : fields_typed o -> fields_typed (set_l4 k o).
Proof. by intros [[? ? ? ?] ? ? ?]. Qed.

Lemma set_first_fragment_typed b o : fields_typed o -> fields_typed (set_first_fragment b o).
Proof. by intros [[? ? ? ?] ? ? ?]. Qed.

Lemma set_l3_offset_typed x o : fields_typed o -> fields_typed (set_l3_offset x o).
Proof. intros [[? ? ? ?] ? ? ?]. split; [done.. |]. split_and!; [apply wrap_range; lia | naive_solver..]. Qed.

#[local] Hint Resolve set_addrs_typed set_ports_typed set_protocol_typed set_tcp_flags_typed set_icmp_typed set_l4_place_typed : typed.
#[local] Hint Resolve set_l3_typed set_l4_typed set_first_fragment_typed set_l3_offset_typed : typed.

(** ** The transport header *)

(** The kind of an accepted transport is its protocol's. *)
Definition parse_post (r : ParseStatus * ParsedFrame) : Prop :=
  fields_typed r.2 ∧ (r.1 = kOk -> l4 r.2 = L4Tcp <-> protocol r.2 = 6).

Lemma ParseL4_typed ip present total off base o :
  octets ip -> 0 <= base -> 0 <= off -> fields_typed o -> post parse_post (ParseL4 ip present total off base o).
Proof.
  intros Hp Hb Ho Ht. unfold ParseL4. set (o1 := set_l4_place _ _ o). assert (fields_typed o1) as H1 by (unfold o1; auto with typed).
  clearbody o1. clear o Ht. assert (octets (ptr ip off)) as Hq by by apply octets_ptr. revert Hq. generalize (ptr ip off). clear -H1. intros p Hp.
  unfold CheckL4. assert (∀ o, fields_typed o -> parse_post (kMalformed, o)) as Hbad by (intros o Ho; split; [done | by intros [=]]).
  destruct (bool_decide (protocol o1 = 6)) eqn:H6; [| destruct (bool_decide (protocol o1 = 17)) eqn:H17; [| destruct (_ || _)]].
  - apply bool_decide_eq_true in H6. apply post_if; [by apply post_ret, Hbad |]. apply (post_bind (in_width 8)); [by apply post_byte |]. intros b Hb.
    apply post_if; [by apply post_ret, Hbad |]. apply (post_bind (in_width 16)); [apply post_Be16 |]. intros sp Hsp.
    apply (post_bind (in_width 16)); [apply post_Be16 |]. intros dp Hdp. apply (post_bind (in_width 8)); [by apply post_byte |]. intros f Hf.
    apply post_ret. split; cbn [fst snd]; [auto with typed | done].
  - apply bool_decide_eq_false in H6. apply post_if; [by apply post_ret, Hbad |]. apply (post_bind (in_width 16)); [apply post_Be16 |]. intros len Hlen.
    apply post_if; [by apply post_ret, Hbad |]. apply (post_bind (in_width 16)); [apply post_Be16 |]. intros sp Hsp.
    apply (post_bind (in_width 16)); [apply post_Be16 |]. intros dp Hdp. apply post_ret. split; cbn [fst snd]; [auto with typed | intros _; by split].
  - apply bool_decide_eq_false in H6. apply post_if; [by apply post_ret, Hbad |].
    apply (post_bind (in_width 8)); [by apply post_byte |]. intros ty Hty. apply (post_bind (in_width 8)); [by apply post_byte |]. intros code Hcode.
    apply (post_bind (in_width 16)); [apply post_Be16 |]. intros ident Hid. apply post_ret. split; cbn [fst snd].
    + auto with typed.
    + intros _. cbn. by destruct (bool_decide (protocol o1 = 1)).
  - apply bool_decide_eq_false in H6. apply post_ret. split; cbn [fst snd]; [auto with typed | intros _; by split].
Qed.

(** ** The IP header *)

Lemma walk_typed todo ip have : ∀ next off o,
  octets ip -> in_width 8 next -> 0 <= off -> fields_typed o ->
  post (fun r => 0 <= r.1.2 ∧ fields_typed r.2) (walk_chain todo ip have next off o).
Proof.
  induction todo as [| todo IH]; intros next off o Hp Hn Ho Ht; cbn [walk_chain]; [by apply post_ret |].
  assert (∀ st : ParseStatus, post (fun r => 0 <= r.1.2 ∧ fields_typed r.2) (mret (st, off, o))) as Hstop by (intros st; by apply post_ret).
  destruct (_ && _).
  { apply post_if; [apply Hstop |]. apply (post_bind (in_width 8)); [by apply post_byte |]. intros n Hlen. unfold in_width in Hlen.
    apply post_if; [apply Hstop |]. apply (post_bind (in_width 8)); [by apply post_byte |]. intros nx Hnx. apply IH; try done. lia. }
  destruct (bool_decide (next = 44)).
  { apply post_if; [apply Hstop |]. apply (post_bind (in_width 16)); [apply post_Be16 |]. intros frag _.
    apply (post_bind (in_width 8)); [by apply post_byte |]. intros nx Hnx. apply post_if.
    - apply post_ret. split; cbn [fst snd]; [lia | auto with typed].
    - apply IH; try done; [lia |]. auto with typed. }
  destruct (bool_decide (next = 51)); [| apply post_ret; split; cbn [fst snd]; [done | auto with typed]].
  apply (post_bind (fun len => 0 <= len)).
  { unfold AhLength. apply post_if; [by apply post_ret |]. apply (post_bind (in_width 8)); [by apply post_byte |]. intros n Hlen.
    unfold in_width in Hlen. apply post_ret. case_bool_decide; lia. }
  intros len Hlen. apply post_if; [apply Hstop |]. apply (post_bind (in_width 8)); [by apply post_byte |]. intros nx Hnx. apply IH; try done. lia.
Qed.

Lemma ParseIp_typed ip present limit base o :
  octets ip -> 0 <= base -> fields_typed o -> post parse_post (ParseIp ip present limit base o).
Proof.
  intros Hp Hb Ht. assert (∀ st o, st <> kOk -> fields_typed o -> parse_post (st, o)) as Hbad by (intros st o' Hst Ho; by split).
  unfold ParseIp. apply post_if; [by apply post_ret, Hbad |]. set (o1 := set_l3_offset base o).
  assert (fields_typed o1) as H1 by (unfold o1; auto with typed). clearbody o1.
  apply (post_bind (in_width 8)); [by apply post_byte |]. intros b0 Hb0. unfold in_width in Hb0. apply post_if; [| apply post_if].
  - apply post_if; [by apply post_ret, Hbad |]. apply (post_bind (in_width 16)); [apply post_Be16 |]. intros total _.
    apply post_if; [by apply post_ret, Hbad |]. apply (post_bind (in_width 8)); [by apply post_byte |]. intros proto Hproto.
    apply (post_bind _ _ _ _ (post_bytes ip 12 4 Hp ltac:(lia) ltac:(lia))). intros s [Hls Hs].
    apply (post_bind _ _ _ _ (post_bytes ip 16 4 Hp ltac:(lia) ltac:(lia))). intros d [Hld Hd].
    apply (post_bind (in_width 16)); [apply post_Be16 |]. intros frag _. set (o2 := set_addrs s d _).
    assert (fields_typed o2) as H2.
    { apply set_addrs_typed; try done; [| lia | lia]. apply set_protocol_typed; [| done].
      auto with typed. }
    clearbody o2. apply post_if; [by apply post_ret, Hbad |].
    apply ParseL4_typed; try done; [pose proof (proj2 (Z.land_nonneg b0 15) ltac:(lia)); lia |].
    auto with typed.
  - apply post_if; [by apply post_ret, Hbad |]. apply (post_bind (in_width 16)); [apply post_Be16 |]. intros payload _.
    apply post_if; [by apply post_ret, Hbad |].
    apply (post_bind _ _ _ _ (post_bytes ip 8 16 Hp ltac:(lia) ltac:(lia))). intros s [Hls Hs].
    apply (post_bind _ _ _ _ (post_bytes ip 24 16 Hp ltac:(lia) ltac:(lia))). intros d [Hld Hd]. set (o2 := set_addrs s d _).
    assert (fields_typed o2) as H2.
    { apply set_addrs_typed; try done; [| lia | lia]. auto with typed. }
    clearbody o2. apply (post_bind (fun r => 0 <= r.1.2 ∧ fields_typed r.2)).
    { unfold WalkIpv6Chain. apply (post_bind (in_width 8)); [by apply post_byte |]. intros nx Hnx. apply walk_typed; try done. }
    intros [[walk off] o3] [Hoff H3]. destruct (bool_decide (walk <> kOk)) eqn:Hw; [apply bool_decide_eq_true in Hw; by apply post_ret, Hbad |].
    by apply ParseL4_typed.
  - by apply post_ret, Hbad.
Qed.

(** ** The frame *)

Lemma ParseFrameGeneral_typed frame o tl :
  octets frame -> fields_typed o -> post parse_post (ParseFrameGeneral frame o tl).
Proof.
  intros Hp Ht. assert (∀ st o, st <> kOk -> fields_typed o -> parse_post (st, o)) as Hbad by (intros st o' Hst Ho; by split).
  unfold ParseFrameGeneral. apply post_if; [by apply post_ret, Hbad |]. apply (post_bind (in_width 16)); [apply post_Be16 |]. intros type _.
  apply (post_bind (fun r => ∀ off ty, r = Some (off, ty) -> 0 <= off)).
  { assert (∀ tags off ty, 0 <= off -> post (fun r => ∀ off' ty', r = Some (off', ty') -> 0 <= off') (skip_tags tags frame off ty)) as Hskip; [| by apply Hskip].
    induction tags as [| tags IH]; intros off ty Ho; cbn [skip_tags]; [by apply post_ret; intros ? ? [= <- <-] |].
    apply post_if; [| by apply post_ret; intros ? ? [= <- <-]]. apply post_if; [by apply post_ret |].
    apply (post_bind (in_width 16)); [apply post_Be16 |]. intros ty' _. apply IH. lia. }
  intros [[off ty] |] Hoff; [| by apply post_ret, Hbad]. specialize (Hoff off ty eq_refl). apply post_if; [by apply post_ret, Hbad |].
  apply (post_bind parse_post); [apply ParseIp_typed; [by apply octets_ptr | lia | done] |]. intros [st o'] [Ho Hk]. apply post_ret.
  split; [done |]. simpl in *. destruct (_ && _); [done | exact Hk].
Qed.



End ConnParse.
