(* ===== verification/Rcu.v ===== *)
(** * The reader domain and published pointers

    Models [core/rcu/rcu_domain.h], [rcu_domain.cc] and [rcu_ptr.h]. DPDK's
    [rte_rcu_qsbr], the backend, is not part of the repository: it is the class
    [Qsbr], and [QsbrLaws] states what its documentation promises. A domain's
    [const] members are arguments of the definitions that use them.
    [destroyed_] is a history variable: the objects whose deleter has run, in
    order. The readers' [std::atomic] outstanding counters are the map
    [outstanding_]. Allocation failure is the [None] of [ReserveRetirements];
    failures of [posix_memalign] and [rte_rcu_qsbr_init] end the program and are
    not modelled. *)

From S2P Require Import Prelude.
Open Scope Z_scope.

Module Rcu.

(** ** DPDK's QSBR variable *)

Class Qsbr := {
  qsbr : Type;
  qsbr_init : Z -> qsbr;
  qsbr_thread_register : qsbr -> nat -> bool * qsbr;
  qsbr_thread_unregister : qsbr -> nat -> qsbr;
  qsbr_thread_online : qsbr -> nat -> qsbr;
  qsbr_thread_offline : qsbr -> nat -> qsbr;
  qsbr_quiescent : qsbr -> nat -> qsbr;
  qsbr_start : qsbr -> Z * qsbr;
  qsbr_check : qsbr -> Z -> bool * qsbr;   (* rte_rcu_qsbr_check(v, t, false) *)
  qsbr_wait : qsbr -> Z -> qsbr            (* v when rte_rcu_qsbr_check(v, t, true) returns *)
}.

(** [issued q] is the last token handed out, [waiting q t i] says that reader
    [i] holds up the grace period [t], and [active q i] that it will hold up
    those to come. *)
Class QsbrView `{Qsbr} := {
  issued : qsbr -> Z;
  active : qsbr -> nat -> Prop;
  waiting : qsbr -> Z -> nat -> Prop
}.

(** A change of reader [i]'s counter only: it issues nothing and means nothing
    for the others. *)
Definition others_keep `{QsbrView} (i : nat) (q q' : qsbr) : Prop :=
  issued q' = issued q ∧
  ∀ j, j <> i -> (active q' j <-> active q j) ∧
    ∀ t, t <= issued q -> waiting q' t j <-> waiting q t j.

(** Afterwards reader [i] holds up no grace period that has started. *)
Definition reports `{QsbrView} (i : nat) (q q' : qsbr) : Prop :=
  others_keep i q q' ∧ ∀ t, t <= issued q -> ¬ waiting q' t i.

Class QsbrLaws `{QsbrView} := {
  init_law n : 0 <= issued (qsbr_init n);
  register_law q i : others_keep i q (qsbr_thread_register q i).2;
  unregister_law q i :
    reports i q (qsbr_thread_unregister q i) ∧ ¬ active (qsbr_thread_unregister q i) i;
  online_law q i :
    reports i q (qsbr_thread_online q i) ∧ active (qsbr_thread_online q i) i;
  offline_law q i :
    reports i q (qsbr_thread_offline q i) ∧ ¬ active (qsbr_thread_offline q i) i;
  quiescent_law q i :
    reports i q (qsbr_quiescent q i) ∧ (active q i -> active (qsbr_quiescent q i) i);
  start_law q t q' :
    qsbr_start q = (t, q') ->
    t = issued q + 1 ∧ issued q' = t ∧
    (∀ i, waiting q' t i <-> active q i) ∧ (∀ i, active q' i <-> active q i) ∧
    (∀ u i, u <= issued q -> waiting q' u i <-> waiting q u i);
  check_law q t b q' :
    qsbr_check q t = (b, q') ->
    issued q' = issued q ∧ (∀ i, active q' i <-> active q i) ∧
    (∀ u i, waiting q' u i <-> waiting q u i) ∧
    (t <= issued q -> b = true <-> ∀ i, ¬ waiting q t i);
  wait_law q t :
    t <= issued q ->
    issued q <= issued (qsbr_wait q t) ∧ ∀ i, ¬ waiting (qsbr_wait q t) t i;
  waiting_mono q t u i : t <= u -> waiting q t i -> waiting q u i;
  waiting_active q t i : t <= issued q -> waiting q t i -> active q i
}.

(** ** State *)

Record RcuStats := mk_stats {
  grace_periods_started : Z;
  grace_periods_completed : Z;
  objects_retired : Z;
  objects_reclaimed : Z;
  pending_retired_objects : Z;
  oldest_pending_token : Z
}.

(** [v[id]] of a vector of flags; every [id] below [max_readers_] is in range. *)
Definition flag (v : list bool) (id : nat) : bool := default false (v !! id).

Inductive reader_error := EInval | EExist | EIo.

Section Domain.
Context `{Q : Qsbr} {Ob Ow : Type} `{Countable Ow}.

(** The [void *] with its deleter is one object; [outstanding] is null or an
    owner's counter. *)
Record RetiredObject := mk_retired {
  token : Z;
  object : Ob;
  outstanding : option Ow
}.

Record t := mk {
  qsbr_ : qsbr;
  registered_ : list bool;
  online_ : list bool;
  registered_readers_ : Z;
  retired_ : list RetiredObject;
  capacity_ : nat;               (* of [retired_] *)
  head_ : nat;
  pending_count_ : Z;
  stats_ : RcuStats;
  outstanding_ : gmap Ow Z;
  destroyed_ : list Ob
}.

Definition with_qsbr (q : qsbr) (d : t) : t :=
  mk q (registered_ d) (online_ d) (registered_readers_ d) (retired_ d) (capacity_ d)
    (head_ d) (pending_count_ d) (stats_ d) (outstanding_ d) (destroyed_ d).

Definition with_readers (registered online : list bool) (n : Z) (d : t) : t :=
  mk (qsbr_ d) registered online n (retired_ d) (capacity_ d)
    (head_ d) (pending_count_ d) (stats_ d) (outstanding_ d) (destroyed_ d).

Definition with_stats (s : RcuStats) (d : t) : t :=
  mk (qsbr_ d) (registered_ d) (online_ d) (registered_readers_ d) (retired_ d) (capacity_ d)
    (head_ d) (pending_count_ d) s (outstanding_ d) (destroyed_ d).

Definition with_capacity (n : nat) (d : t) : t :=
  mk (qsbr_ d) (registered_ d) (online_ d) (registered_readers_ d) (retired_ d) n
    (head_ d) (pending_count_ d) (stats_ d) (outstanding_ d) (destroyed_ d).

(** [RcuDomain::RcuDomain]. *)
Definition Create (max_readers_ : Z) : run t :=
  check (bool_decide (0 < max_readers_)) ;;
  mret (mk (qsbr_init max_readers_) (replicate (Z.to_nat max_readers_) false)
          (replicate (Z.to_nat max_readers_) false) 0 [] 0 0 0
          (mk_stats 0 0 0 0 0 0) ∅ []).

(** ** Reader lifecycle *)

Definition Register (max_readers_ : Z) (d : t) (id : nat) : (reader_error + ()) * t :=
  if bool_decide (max_readers_ <= Z.of_nat id) then (inl EInval, d)
  else if flag (registered_ d) id then (inl EExist, d)
  else
    let '(ok, q) := qsbr_thread_register (qsbr_ d) id in
    let d := with_qsbr q d in
    if ok
    then (inr (), with_readers (<[id := true]> (registered_ d)) (online_ d)
                    (registered_readers_ d + 1) d)
    else (inl EIo, d).

Definition Unregister (max_readers_ : Z) (d : t) (id : nat) : t :=
  if bool_decide (max_readers_ <= Z.of_nat id) then d
  else if negb (flag (registered_ d) id) then d
  else
    let d := if flag (online_ d) id
             then with_readers (registered_ d) (<[id := false]> (online_ d))
                    (registered_readers_ d)
                    (with_qsbr (qsbr_thread_offline (qsbr_ d) id) d)
             else d in
    let d := with_qsbr (qsbr_thread_unregister (qsbr_ d) id) d in
    with_readers (<[id := false]> (registered_ d)) (online_ d) (registered_readers_ d - 1) d.

Definition Online (max_readers_ : Z) (d : t) (id : nat) : t :=
  if bool_decide (max_readers_ <= Z.of_nat id) then d
  else if negb (flag (registered_ d) id) || flag (online_ d) id then d
  else
    with_readers (registered_ d) (<[id := true]> (online_ d)) (registered_readers_ d)
      (with_qsbr (qsbr_thread_online (qsbr_ d) id) d).

Definition Offline (max_readers_ : Z) (d : t) (id : nat) : t :=
  if bool_decide (max_readers_ <= Z.of_nat id) then d
  else if negb (flag (registered_ d) id) then d
  else
    with_readers (registered_ d) (<[id := false]> (online_ d)) (registered_readers_ d)
      (with_qsbr (qsbr_thread_offline (qsbr_ d) id) d).

Definition IsOnline (max_readers_ : Z) (d : t) (id : nat) : bool :=
  if bool_decide (max_readers_ <= Z.of_nat id) then false else flag (online_ d) id.

Definition IsRegistered (max_readers_ : Z) (d : t) (id : nat) : bool :=
  if bool_decide (max_readers_ <= Z.of_nat id) then false else flag (registered_ d) id.

Definition online_readers (d : t) : Z :=
  foldl (fun online state => online + Z.b2z state) 0 (online_ d).

Definition Quiescent (max_readers_ : Z) (d : t) (id : nat) : t :=
  if bool_decide (max_readers_ <= Z.of_nat id) then d
  else with_qsbr (qsbr_quiescent (qsbr_ d) id) d.

(** ** Grace periods *)

Definition add_started (s : RcuStats) : RcuStats :=
  mk_stats (wrap 64 (grace_periods_started s + 1)) (grace_periods_completed s)
    (objects_retired s) (objects_reclaimed s) (pending_retired_objects s)
    (oldest_pending_token s).

Definition add_completed (s : RcuStats) : RcuStats :=
  mk_stats (grace_periods_started s) (wrap 64 (grace_periods_completed s + 1))
    (objects_retired s) (objects_reclaimed s) (pending_retired_objects s)
    (oldest_pending_token s).

Definition StartGracePeriodLockFree (d : t) : Z * t :=
  let '(token, q) := qsbr_start (qsbr_ d) in (token, with_qsbr q d).

Definition StartGracePeriod (d : t) : Z * t :=
  let '(token, q) := qsbr_start (qsbr_ d) in
  let d := with_qsbr q d in
  (token, with_stats (add_started (stats_ d)) d).

Definition IsCompleteLockFree (d : t) (token : Z) : bool * t :=
  if bool_decide (token = 0) then (true, d)
  else
    let '(b, q) := qsbr_check (qsbr_ d) token in (b, with_qsbr q d).

Definition IsComplete (d : t) (token : Z) : bool * t :=
  let '(b, d) := IsCompleteLockFree d token in
  if b then (true, with_stats (add_completed (stats_ d)) d) else (false, d).

Definition Synchronize (d : t) : t :=
  let '(token, q) := qsbr_start (qsbr_ d) in
  let d := with_qsbr (qsbr_wait q token) d in
  with_stats (add_completed (stats_ d)) d.

(** ** Retirement *)

(** [sizeof(RetiredObject)]: a token and four pointers. *)
Definition kRetiredObjectBytes : Z := 40.

(** [grow] answers for [growth_->Grow] and the allocation after it; a null
    [growth_] admits everything. [None] is the exception. *)
Definition ReserveRetirements (grow : Z -> bool) (d : t) (n : nat) : option t :=
  let needed := (length (retired_ d) + n)%nat in
  if bool_decide (capacity_ d < needed)%nat
  then
    let capacity := (needed `max` (2 * capacity_ d))%nat in
    let bytes := Z.of_nat (capacity - capacity_ d) * kRetiredObjectBytes in
    if grow bytes then Some (with_capacity capacity d) else None
  else Some d.

(** [retired_[head_++]], taken under the lock. *)
Definition take_head (d : t) : t :=
  mk (qsbr_ d) (registered_ d) (online_ d) (registered_readers_ d) (retired_ d) (capacity_ d)
    (S (head_ d)) (pending_count_ d) (stats_ d) (outstanding_ d) (destroyed_ d).

Definition fetch_add (c : Z) (o : option Ow) (m : gmap Ow Z) : gmap Ow Z :=
  match o with
  | None => m
  | Some o => <[o := wrap 64 (default 0 (m !! o) + c)]> m
  end.

(** The deleter, then the owner's counter. *)
Definition destroy (r : RetiredObject) (d : t) : t :=
  mk (qsbr_ d) (registered_ d) (online_ d) (registered_readers_ d) (retired_ d) (capacity_ d)
    (head_ d) (pending_count_ d) (stats_ d) (fetch_add (-1) (outstanding r) (outstanding_ d))
    (destroyed_ d ++ [object r]).

(** The loop of [ReclaimReady]; it makes at most one pass over the queue. *)
Fixpoint reclaim_loop (fuel : nat) (d : t) (reclaimed : Z) : Z * t :=
  match fuel with
  | O => (reclaimed, d)
  | S fuel =>
      match retired_ d !! head_ d with
      | None => (reclaimed, d)
      | Some r =>
          let '(b, d) := IsCompleteLockFree d (token r) in
          if b then reclaim_loop fuel (destroy r (take_head d)) (reclaimed + 1)
          else (reclaimed, d)
      end
  end.

(** The compaction and the counters after the loop. *)
Definition compact (d : t) : list RetiredObject * nat :=
  if bool_decide (head_ d = length (retired_ d)) then ([], O)
  else if bool_decide (1024 <= head_ d)%nat && bool_decide (length (retired_ d) <= head_ d * 2)%nat
  then (drop (head_ d) (retired_ d), O)
  else (retired_ d, head_ d).

Definition settle (reclaimed : Z) (d : t) : t :=
  let '(retired, head) := compact d in
  let pending := Z.of_nat (length retired - head) in
  let s := stats_ d in
  mk (qsbr_ d) (registered_ d) (online_ d) (registered_readers_ d) retired (capacity_ d) head
    pending
    (mk_stats (grace_periods_started s) (grace_periods_completed s) (objects_retired s)
       (wrap 64 (objects_reclaimed s + reclaimed)) pending
       (if bool_decide (pending = 0) then 0
        else match retired !! head with Some r => token r | None => 0 end))
    (outstanding_ d) (destroyed_ d).

Definition ReclaimReady (d : t) : Z * t :=
  let '(reclaimed, d) := reclaim_loop (length (retired_ d) - head_ d) d 0 in
  (reclaimed, settle reclaimed d).

(** The locked part of [RetireErased]: the push and the counters. A full vector
    grows by doubling. *)
Definition push_retired (r : RetiredObject) (d : t) : t :=
  let retired := retired_ d ++ [r] in
  let pending := Z.of_nat (length retired - head_ d) in
  let s := stats_ d in
  mk (qsbr_ d) (registered_ d) (online_ d) (registered_readers_ d) retired
    (if bool_decide (capacity_ d < length retired)%nat
     then (length retired `max` (2 * capacity_ d))%nat else capacity_ d)
    (head_ d) pending
    (mk_stats (grace_periods_started s) (grace_periods_completed s)
       (wrap 64 (objects_retired s + 1)) (objects_reclaimed s) pending
       (if bool_decide (oldest_pending_token s = 0) ||
           bool_decide (token r < oldest_pending_token s)
        then token r else oldest_pending_token s))
    (fetch_add 1 (outstanding r) (outstanding_ d)) (destroyed_ d).

Definition RetireErased (retire_high_water_ : Z) (d : t) (token : Z) (object : Ob)
    (outstanding : option Ow) : t :=
  let d := push_retired (mk_retired token object outstanding) d in
  if bool_decide (pending_count_ d <= retire_high_water_) then d
  else
    let '(reclaimed, d) := ReclaimReady d in
    if bool_decide (reclaimed = 0) then (ReclaimReady (Synchronize d)).2 else d.

(** [Retire]: a null [unique_ptr] is not handed over. *)
Definition Retire (retire_high_water_ : Z) (d : t) (token : Z) (object : option Ob)
    (outstanding : option Ow) : t :=
  match object with
  | None => d
  | Some object => RetireErased retire_high_water_ d token object outstanding
  end.

Definition Drain (d : t) : t := (ReclaimReady (Synchronize d)).2.

(** [RcuDomain::~RcuDomain]. *)
Definition Destroy (d : t) : run t :=
  check (bool_decide (registered_readers_ d = 0)) ;;
  mret (Drain d).

End Domain.

Arguments RetiredObject : clear implicits.
Arguments t {_} Ob Ow {_ _}.

(** ** [RcuPtr] *)

Section Ptr.
Context `{Q : Qsbr} {Ob Ow : Type} `{Countable Ow}.

Record RcuPtr := mk_ptr {
  current_ : option Ob;        (* the atomic, null when empty *)
  owner_ : option Ob
}.

Definition new_ptr : RcuPtr := mk_ptr None None.

Definition Initialize (p : RcuPtr) (initial : option Ob) : run RcuPtr :=
  check (bool_decide (owner_ p = None)) ;;
  mret (mk_ptr initial initial).

Definition Read (p : RcuPtr) : option Ob := current_ p.

Definition ExchangeLocked (p : RcuPtr) (replacement : option Ob) : option Ob * RcuPtr :=
  (owner_ p, mk_ptr replacement replacement).

Definition Exchange (p : RcuPtr) (replacement : option Ob) : option Ob * RcuPtr :=
  ExchangeLocked p replacement.

(** [None] is the exception of [ReserveRetirements], before anything changed. *)
Definition Publish (grow : Z -> bool) (retire_high_water_ : Z) (d : t Ob Ow) (p : RcuPtr)
    (replacement : option Ob) : option (Z * t Ob Ow * RcuPtr) :=
  match ReserveRetirements grow d 1 with
  | None => None
  | Some d =>
      let '(old, p) := ExchangeLocked p replacement in
      let '(token, d) := StartGracePeriod d in
      Some (token, Retire retire_high_water_ d token old None, p)
  end.

Definition ResetQuiesced (p : RcuPtr) : option Ob * RcuPtr := (owner_ p, mk_ptr None None).

(** [RcuPtr::~RcuPtr]. *)
Definition DestroyPtr (d : t Ob Ow) (p : RcuPtr) : run () :=
  check (bool_decide (owner_ p = None ∨ online_readers d = 0)).

End Ptr.

Arguments RcuPtr : clear implicits.

End Rcu.
