(* ===== verification/RcuTheorems.v ===== *)
(** * Properties of the reader domain

    The retirement queue of [Rcu.v]: what [ReclaimReady] destroys and in which
    order, the bound [RetireErased] keeps, the owners' counters, and what the
    reader lifecycle does to grace periods. *)

From S2P Require Import Prelude Rcu.
Open Scope Z_scope.

Module RcuProps.
Import Rcu.

Section Queue.
Context {QS : Qsbr} {QV : QsbrView} {QL : QsbrLaws} {Ob Ow : Type} `{OwD : EqDecision Ow, !Countable Ow}.
Implicit Type d : Rcu.t Ob Ow.

(** The objects retired and not yet destroyed, oldest first. *)
Definition queue d : list (RetiredObject Ob Ow) := drop (head_ d) (retired_ d).

(** No reader holds up the grace period of [r]. *)
Definition ready (q : qsbr) (r : RetiredObject Ob Ow) : Prop :=
  token r = 0 ∨ ∀ i, ¬ waiting q (token r) i.

Definition owned_by (o : Ow) (l : list (RetiredObject Ob Ow)) : nat :=
  length (filter (fun r => outstanding r = Some o) l).

(** The queue's bookkeeping: every retired object's token has been issued, and
    an owner's counter counts its objects in the queue. *)
Record wf d : Prop := {
  w_head : (head_ d <= length (retired_ d))%nat;
  w_pending : pending_count_ d = Z.of_nat (length (queue d));
  w_issued : Forall (fun r => token r <= issued (qsbr_ d)) (queue d);
  w_owned o : default 0 (outstanding_ d !! o) = wrap 64 (Z.of_nat (owned_by o (queue d)))
}.

(** The QSBR variable after a check: nothing a reader or a writer can tell. *)
Definition same_qsbr (q q' : qsbr) : Prop :=
  issued q' = issued q ∧ (∀ i, active q' i <-> active q i) ∧
  (∀ u i, waiting q' u i <-> waiting q u i).

Lemma with_same_qsbr d : with_qsbr (qsbr_ d) d = d.
Proof. by destruct d. Qed.

Lemma same_qsbr_refl q : same_qsbr q q.
Proof. done. Qed.

Lemma same_qsbr_trans q q' q'' : same_qsbr q q' -> same_qsbr q' q'' -> same_qsbr q q''.
Proof.
  intros (H1 & H2 & H3) (H4 & H5 & H6). split_and!; [congruence | |]; intros; [rewrite H5; apply H2 |].
  rewrite H6. apply H3.
Qed.

Lemma ready_same q q' r : same_qsbr q q' -> ready q' r <-> ready q r.
Proof.
  intros (_ & _ & Hw). unfold ready. split; (intros [? | Hn]; [by left | right; intros i; specialize (Hn i)]);
    rewrite Hw in *; done.
Qed.

Lemma complete_spec d tok b d' :
  IsCompleteLockFree d tok = (b, d') -> tok <= issued (qsbr_ d) ->
  ∃ q', d' = with_qsbr q' d ∧ same_qsbr (qsbr_ d) q' ∧
    (b = true <-> tok = 0 ∨ ∀ i, ¬ waiting (qsbr_ d) tok i).
Proof.
  unfold IsCompleteLockFree. intros He Ht. case_bool_decide as H0.
  - injection He as <- <-. exists (qsbr_ d). split; [by rewrite with_same_qsbr |]. split; [by apply same_qsbr_refl |].
    split; [by left | done].
  - destruct (qsbr_check (qsbr_ d) tok) as [b' q'] eqn:Hc. injection He as <- <-.
    destruct (check_law _ _ _ _ Hc) as (H1 & H2 & H3 & H4). exists q'. split_and!; try done.
    rewrite (H4 Ht). split; [by right | by intros [? |]].
Qed.

Lemma queue_lookup d : retired_ d !! head_ d = head (queue d).
Proof.
  unfold queue. rewrite <- (Nat.add_0_r (head_ d)) at 1. rewrite <- lookup_drop. by destruct (drop _ _).
Qed.

Lemma queue_take d r l : queue d = r :: l -> queue (take_head d) = l.
Proof.
  unfold queue. simpl. intros Hq. replace (S (head_ d)) with (head_ d + 1)%nat by lia.
  by rewrite <- drop_drop, Hq.
Qed.

Lemma queue_owned_by_cons o r l :
  owned_by o (r :: l) = ((if decide (outstanding r = Some o) then 1 else 0) + owned_by o l)%nat.
Proof. unfold owned_by. rewrite filter_cons. by case_decide. Qed.

Lemma fetch_add_lookup c p (m : gmap Ow Z) o :
  default 0 (fetch_add c p m !! o) =
  if decide (p = Some o) then wrap 64 (default 0 (m !! o) + c) else default 0 (m !! o).
Proof.
  destruct p as [p |]; [| done]. simpl. destruct (decide (p = o)) as [-> | Hne].
  - rewrite lookup_insert_eq. by rewrite decide_True.
  - rewrite lookup_insert_ne by done. by rewrite decide_False by congruence.
Qed.

Lemma wrap_shift a b : wrap 64 (wrap 64 a + b) = wrap 64 (a + b).
Proof. unfold wrap. by rewrite Zplus_mod_idemp_l. Qed.

Lemma owned_step c p (m : gmap Ow Z) o a b :
  default 0 (m !! o) = wrap 64 a -> b = a + (if decide (p = Some o) then c else 0) ->
  default 0 (fetch_add c p m !! o) = wrap 64 b.
Proof.
  intros Hm ->. rewrite fetch_add_lookup, Hm. case_decide; [by apply wrap_shift |]. f_equal. lia.
Qed.

(** What the loop leaves behind. *)
Record reclaimed d d' (gone : list (RetiredObject Ob Ow)) : Prop := {
  r_queue : queue d = gone ++ queue d';
  r_gone : destroyed_ d' = destroyed_ d ++ (object <$> gone);
  r_ready : Forall (ready (qsbr_ d)) gone;
  r_rest : ∀ r l, queue d' = r :: l -> ¬ ready (qsbr_ d) r;
  r_qsbr : same_qsbr (qsbr_ d) (qsbr_ d');
  r_readers : registered_ d' = registered_ d ∧ online_ d' = online_ d ∧
    registered_readers_ d' = registered_readers_ d;
  r_head : (head_ d' <= length (retired_ d'))%nat;
  r_owned o : default 0 (outstanding_ d !! o) = wrap 64 (Z.of_nat (owned_by o (queue d))) ->
    default 0 (outstanding_ d' !! o) = wrap 64 (Z.of_nat (owned_by o (queue d')))
}.

Lemma reclaimed_none d q' :
  same_qsbr (qsbr_ d) q' -> (head_ d <= length (retired_ d))%nat ->
  (∀ r l, queue d = r :: l -> ¬ ready (qsbr_ d) r) -> reclaimed d (with_qsbr q' d) [].
Proof. intros Hs Hh Hn. split; try done. simpl. by rewrite app_nil_r. Qed.

Lemma reclaim_loop_spec fuel d k k' d' :
  (head_ d <= length (retired_ d))%nat ->
  Forall (fun r => token r <= issued (qsbr_ d)) (queue d) ->
  (length (queue d) <= fuel)%nat -> reclaim_loop fuel d k = (k', d') ->
  ∃ gone, reclaimed d d' gone ∧ k' = k + Z.of_nat (length gone).
Proof.
  revert d k. induction fuel as [| fuel IH]; intros d k Hh Hi Hl; simpl.
  - intros [= <- <-]. exists []. split; [| simpl; lia].
    rewrite <- (with_same_qsbr d) at 2. apply reclaimed_none; [by apply same_qsbr_refl | done |].
    intros r l Hq. rewrite Hq in Hl. simpl in Hl. lia.
  - rewrite queue_lookup. destruct (queue d) as [| r l] eqn:Hq; simpl.
    + intros [= <- <-]. exists []. split; [| simpl; lia].
      rewrite <- (with_same_qsbr d) at 2. apply reclaimed_none; [by apply same_qsbr_refl | done |].
      intros r l Hq'. congruence.
    + apply Forall_cons in Hi as [Hr Hi].
      destruct (IsCompleteLockFree d (token r)) as [b d1] eqn:Hc.
      destruct (complete_spec _ _ _ _ Hc Hr) as (q' & -> & Hs & Hb). destruct b; intros Hrun.
      * pose proof (proj1 Hb eq_refl) as Hrdy.
        set (d2 := destroy r (take_head (with_qsbr q' d))) in *.
        assert (queue d2 = l) as Hq2 by (by apply (queue_take (with_qsbr q' d) r)).
        destruct (IH d2 (k + 1)) as (gone & [G1 G2 G3 G4 G5 G6 G7 G8] & ->); [..| exact Hrun |].
        -- simpl. unfold queue in Hq. assert (length (drop (head_ d) (retired_ d)) = S (length l)) as Hlen
             by by rewrite Hq. rewrite length_drop in Hlen. lia.
        -- rewrite Hq2. destruct Hs as (His & _). simpl. by rewrite His.
        -- rewrite Hq2. simpl in Hl. lia.
        -- exists (r :: gone). split; [split; try done | simpl; lia].
           ++ rewrite Hq, <- Hq2. simpl. by rewrite G1.
           ++ rewrite G2. simpl. by rewrite <- app_assoc.
           ++ constructor; [done |]. eapply Forall_impl; [exact G3 |]. intros r0. apply (ready_same _ _ _ Hs).
           ++ intros r0 l0 H0. rewrite <- (ready_same _ q' _ Hs). by eapply G4.
           ++ by eapply same_qsbr_trans; [exact Hs |].
           ++ intros o Ho. apply G8. rewrite Hq2. simpl. eapply owned_step; [exact Ho |].
              rewrite Hq, queue_owned_by_cons. case_decide; lia.
      * injection Hrun as <- <-. exists []. split; [| simpl; lia]. apply reclaimed_none; [done.. |].
        intros r0 l0 H0. rewrite Hq in H0. injection H0 as <- <-. intros Hrdy. by apply Hb in Hrdy.
Qed.

Lemma compact_queue d : (head_ d <= length (retired_ d))%nat ->
  drop (compact d).2 (compact d).1 = queue d ∧ ((compact d).2 <= length (compact d).1)%nat.
Proof.
  intros Hh. unfold compact, queue. case_bool_decide as H1; simpl.
  - rewrite drop_ge by lia. split; [done | simpl; lia].
  - case_bool_decide; simpl; [case_bool_decide; simpl |]; (split; [done | lia]).
Qed.

Lemma reclaim_ready_spec d k d' :
  wf d -> ReclaimReady d = (k, d') ->
  ∃ gone, reclaimed d d' gone ∧ k = Z.of_nat (length gone) ∧ wf d'.
Proof.
  intros [Hh Hp Hi Ho]. unfold ReclaimReady.
  destruct (reclaim_loop (length (retired_ d) - head_ d) d 0) as [k1 d1] eqn:Hrun. intros [= <- <-].
  assert (length (queue d) <= length (retired_ d) - head_ d)%nat as Hl
    by (unfold queue; by rewrite length_drop).
  destruct (reclaim_loop_spec _ _ _ _ _ Hh Hi Hl Hrun) as (gone & [G1 G2 G3 G4 G5 G6 G7 G8] & Hk).
  destruct (compact_queue d1 G7) as [Hc1 Hc2]. unfold settle. destruct (compact d1) as [rt hd]. simpl in Hc1, Hc2.
  exists gone. split; [| split; [lia |]].
  - split; try done; simpl.
    + unfold queue at 2. simpl. by rewrite Hc1.
    + intros r l. unfold queue. simpl. rewrite Hc1. apply G4.
    + intros o Hoo. unfold queue at 1. simpl. rewrite Hc1. by apply G8.
  - split; unfold queue; simpl; rewrite ?Hc1; try done.
    + rewrite <- Hc1, length_drop. done.
    + rewrite (proj1 G5). rewrite G1 in Hi. by apply Forall_app in Hi as [_ Hi].
    + intros o. by apply G8, Ho.
Qed.

Lemma push_queue r d : (head_ d <= length (retired_ d))%nat ->
  queue (push_retired r d) = queue d ++ [r].
Proof. intros Hh. unfold queue. simpl. by rewrite drop_app_le. Qed.

Lemma push_wf r d : wf d -> token r <= issued (qsbr_ d) -> wf (push_retired r d).
Proof.
  intros [Hh Hp Hi Ho] Ht. split; try rewrite push_queue by done; simpl.
  - rewrite length_app. simpl. lia.
  - unfold queue. rewrite !length_app, length_drop. simpl. lia.
  - apply Forall_app. split; [done | by constructor].
  - intros o. unfold owned_by. rewrite filter_app, length_app.
    eapply owned_step; [apply Ho |]. rewrite filter_cons, filter_nil. unfold owned_by.
    case_decide; simpl; lia.
Qed.

(** After a synchronization every object in the queue is ready. *)
Lemma synchronize_spec d : wf d ->
  wf (Synchronize d) ∧ queue (Synchronize d) = queue d ∧ destroyed_ (Synchronize d) = destroyed_ d ∧
  Forall (ready (qsbr_ (Synchronize d))) (queue d).
Proof.
  intros [Hh Hp Hi Ho]. unfold Synchronize. destruct (qsbr_start (qsbr_ d)) as [tk q] eqn:Hs.
  destruct (start_law _ _ _ Hs) as (H1 & H2 & _). destruct (wait_law q tk) as (H3 & H4); [lia |].
  split_and!; try done.
  - split; try done. simpl. eapply Forall_impl; [exact Hi |]. simpl. intros r Hr. lia.
  - simpl. eapply Forall_impl; [exact Hi |]. simpl. intros r Hr. right. intros i Hw.
    apply (H4 i). eapply waiting_mono; [| exact Hw]. lia.
Qed.

Lemma reclaim_all d k d' :
  wf d -> Forall (ready (qsbr_ d)) (queue d) -> ReclaimReady d = (k, d') ->
  wf d' ∧ queue d' = [] ∧ destroyed_ d' = destroyed_ d ++ (object <$> queue d).
Proof.
  intros Hwf Hall Hr. destruct (reclaim_ready_spec d k d' Hwf Hr) as (gone & [G1 G2 _ G4 _ _ _ _] & _ & Hwf').
  split; [done |]. rewrite G1 in Hall. apply Forall_app in Hall as [_ Hall].
  destruct (queue d') as [| r l] eqn:Hq; [by rewrite G2, G1, app_nil_r |].
  apply Forall_cons in Hall as [Hr0 _]. by destruct (G4 r l eq_refl).
Qed.

Lemma create_wf n d : Create n = Ret d -> wf d.
Proof.
  intros Hc. unfold Create in Hc. run_inv. split; [simpl; lia | done | constructor | done].
Qed.

Lemma start_wf d : wf d -> wf (StartGracePeriod d).2.
Proof.
  intros [Hh Hp Hi Ho]. unfold StartGracePeriod. destruct (qsbr_start (qsbr_ d)) as [tk q] eqn:Hs.
  destruct (start_law _ _ _ Hs) as (H1 & H2 & _). split; try done. simpl.
  eapply Forall_impl; [exact Hi |]. simpl. lia.
Qed.

(** A reader's operation changes nothing the queue's bookkeeping sees. *)
Lemma qsbr_wf d q : wf d -> issued q = issued (qsbr_ d) -> wf (with_qsbr q d).
Proof. intros [Hh Hp Hi Ho] Hq. split; try done. simpl. by rewrite Hq. Qed.

Lemma readers_wf d reg on n : wf d -> wf (with_readers reg on n d).
Proof. by intros [Hh Hp Hi Ho]. Qed.

(** ** Properties of the queue *)

(** C23. Reclamation is exact. [ReclaimReady] destroys the objects at the front
    of the retirement queue whose grace period no reader holds up, in the order
    they were retired, stops at the first that is held up, returns how many it
    destroyed, and brings every owner's counter of outstanding objects to the
    number of its objects still in the queue. *)
Theorem reclaim_ready_exact d :
  wf d ->
  ∃ gone d', ReclaimReady d = (Z.of_nat (length gone), d') ∧
    queue d = gone ++ queue d' ∧ destroyed_ d' = destroyed_ d ++ (object <$> gone) ∧
    Forall (ready (qsbr_ d)) gone ∧ (∀ r l, queue d' = r :: l -> ¬ ready (qsbr_ d) r) ∧
    pending_count_ d' = Z.of_nat (length (queue d')) ∧
    ∀ o, default 0 (outstanding_ d' !! o) = wrap 64 (Z.of_nat (owned_by o (queue d'))).
Proof.
  intros Hwf. destruct (ReclaimReady d) as [k d'] eqn:Hr.
  destruct (reclaim_ready_spec d k d' Hwf Hr) as (gone & [G1 G2 G3 G4 _ _ _ _] & -> & [_ W2 _ W4]).
  exists gone, d'. by split_and!.
Qed.

Lemma retire_erased_spec hw d tk x o :
  wf d -> 0 <= hw -> pending_count_ d <= hw -> tk <= issued (qsbr_ d) ->
  let d' := RetireErased hw d tk x o in
  wf d' ∧ pending_count_ d' <= hw ∧
  ∃ gone, queue d ++ [mk_retired tk x o] = gone ++ queue d' ∧
    destroyed_ d' = destroyed_ d ++ (object <$> gone).
Proof.
  intros Hwf Hhw Hp Ht. cbv zeta. unfold RetireErased. set (d1 := push_retired _ d).
  assert (wf d1) as Hwf1 by by apply push_wf.
  assert (queue d1 = queue d ++ [mk_retired tk x o]) as Hq1 by (apply push_queue; apply Hwf).
  rewrite <- Hq1. case_bool_decide as Hb; [split_and!; [done.. |]; exists []; by rewrite app_nil_r |].
  destruct (ReclaimReady d1) as [k d2] eqn:Hr.
  destruct (reclaim_ready_spec d1 k d2 Hwf1 Hr) as (gone & [G1 G2 _ _ _ _ _ _] & Hk & Hwf2).
  case_bool_decide as Hk0.
  - destruct (synchronize_spec d2 Hwf2) as (Hwf3 & Hq3 & Hd3 & Hall). rewrite <- Hq3 in Hall.
    destruct (ReclaimReady (Synchronize d2)) as [k4 d4] eqn:Hr4.
    destruct (reclaim_all _ _ _ Hwf3 Hall Hr4) as (Hwf4 & Hq4 & Hd4). simpl. split_and!; [done | |].
    + rewrite (w_pending _ Hwf4), Hq4. simpl. lia.
    + exists (queue d1). rewrite Hq4, app_nil_r. split; [done |]. rewrite Hd4, Hd3, Hq3, G2, G1.
      by rewrite fmap_app, <- app_assoc.
  - split_and!; [done | | by exists gone]. apply (f_equal length) in G1. rewrite length_app in G1.
    rewrite Hq1, length_app in G1. simpl in G1.
    rewrite (w_pending _ Hwf2). rewrite (w_pending _ Hwf) in Hp. lia.
Qed.

(** C22. The retirement queue is bounded. Retiring an object keeps the number of
    pending objects at or below the high-water mark, whatever the readers do:
    past the mark, objects that are ready are destroyed, and if there are none
    the call waits for the readers and destroys them all. Nothing is lost or
    destroyed twice: the queue with the new object is what was destroyed, in
    order, followed by what is left. *)
Theorem retirement_bounded hw d tk x o :
  wf d -> 0 <= hw -> pending_count_ d <= hw -> tk <= issued (qsbr_ d) ->
  let d' := RetireErased hw d tk x o in
  wf d' ∧ pending_count_ d' <= hw ∧
  ∃ gone, queue d ++ [mk_retired tk x o] = gone ++ queue d' ∧
    destroyed_ d' = destroyed_ d ++ (object <$> gone).
Proof. apply retire_erased_spec. Qed.

(** [Drain] destroys every retired object, in order, and leaves every
    owner's counter at zero: a module may go once its domain has drained. *)
Theorem drain_destroys_all d :
  wf d ->
  queue (Drain d) = [] ∧ destroyed_ (Drain d) = destroyed_ d ++ (object <$> queue d) ∧
  ∀ o, default 0 (outstanding_ (Drain d) !! o) = 0.
Proof.
  intros Hwf. unfold Drain. destruct (synchronize_spec d Hwf) as (Hwf1 & Hq & Hd & Hall).
  rewrite <- Hq in Hall. destruct (ReclaimReady (Synchronize d)) as [k d'] eqn:Hr.
  destruct (reclaim_all _ _ _ Hwf1 Hall Hr) as (Hwf' & Hq' & Hd'). simpl.
  split_and!; [done | by rewrite Hd', Hd, Hq |]. intros o. by rewrite (w_owned _ Hwf'), Hq'.
Qed.

(** Retiring [objects] one by one. *)
Definition push_all d (rs : list (RetiredObject Ob Ow)) : Rcu.t Ob Ow := foldl (flip push_retired) d rs.

(** C4. Reserved room. Once [ReserveRetirements] has admitted [n] objects, [n]
    retirements do not allocate; a refusal means the hook or the allocation
    refused the growth asked for, which is never more than the queue needs or
    the capacity it has. *)
Theorem reserved_room grow d n rs :
  match ReserveRetirements grow d n with
  | Some d' => (length rs <= n)%nat -> capacity_ (push_all d' rs) = capacity_ d'
  | None => ∃ more, (0 < more)%nat ∧ grow (Z.of_nat more * kRetiredObjectBytes) = false ∧
      (more <= n + length (retired_ d) ∨ more <= capacity_ d)%nat
  end.
Proof.
  assert (∀ d' rs, (length (retired_ d') + length rs <= capacity_ d')%nat ->
    capacity_ (push_all d' rs) = capacity_ d') as Hpush.
  { intros d' rs'. revert d'. induction rs' as [| r rs' IH]; intros d' Hl; [done |]. simpl in *.
    assert (capacity_ (push_retired r d') = capacity_ d') as Hc.
    { simpl. rewrite bool_decide_eq_false_2; [done |]. rewrite length_app. simpl. lia. }
    unfold push_all in *. simpl. rewrite IH; [done |]. rewrite Hc. simpl. rewrite length_app. simpl. lia. }
  unfold ReserveRetirements. case_bool_decide as Hb.
  - destruct (grow _) eqn:Hg.
    + intros Hl. apply Hpush. simpl. lia.
    + eexists. split_and!; [| exact Hg |]; lia.
  - intros Hl. apply Hpush. lia.
Qed.

End Queue.

(** ** Readers and grace periods *)

Section Readers.
Context {QS : Qsbr} {QV : QsbrView} {QL : QsbrLaws} {Ob Ow : Type} `{OwD : EqDecision Ow, !Countable Ow}.
Context (max_readers_ : Z).
Implicit Type d : Rcu.t Ob Ow.

(** What a worker does between two task invocations, or before it blocks. *)
Inductive report := RQuiescent (i : nat) | ROffline (i : nat).

Definition reporter (r : report) : nat := match r with RQuiescent i | ROffline i => i end.

Definition do_report d (r : report) : Rcu.t Ob Ow :=
  match r with
  | RQuiescent i => Quiescent max_readers_ d i
  | ROffline i => Offline max_readers_ d i
  end.

Lemma do_report_spec d r :
  registered_ (do_report d r) = registered_ d ∧
  issued (qsbr_ (do_report d r)) = issued (qsbr_ d) ∧
  (∀ tk j, tk <= issued (qsbr_ d) -> waiting (qsbr_ (do_report d r)) tk j -> waiting (qsbr_ d) tk j) ∧
  (Z.of_nat (reporter r) < max_readers_ -> flag (registered_ d) (reporter r) = true ->
   ∀ tk, tk <= issued (qsbr_ d) -> ¬ waiting (qsbr_ (do_report d r)) tk (reporter r)).
Proof.
  assert (∀ i q, reports i (qsbr_ d) q ->
    ∀ tk j, tk <= issued (qsbr_ d) -> waiting q tk j -> waiting (qsbr_ d) tk j) as Hrep.
  { intros i q [[_ Ho] Hi] tk j Ht Hw. destruct (decide (j = i)) as [-> | Hne]; [by destruct (Hi tk Ht) |].
    by apply (Ho j Hne). }
  destruct r as [i | i]; simpl; unfold Quiescent, Offline.
  - destruct (quiescent_law (qsbr_ d) i) as [[[Hi Ho] Hn] _]. case_bool_decide; simpl.
    + split_and!; [done.. | lia].
    + split_and!; [done | done | by apply (Hrep i) | by intros _ _].
  - destruct (offline_law (qsbr_ d) i) as [[[Hi Ho] Hn] _]. case_bool_decide; simpl.
    + split_and!; [done.. | lia].
    + destruct (flag (registered_ d) i) eqn:Hf; simpl.
      * split_and!; [done | done | by apply (Hrep i) | by intros _ _].
      * by split_and!; [.. | congruence].
Qed.

Lemma reports_complete rs d tk :
  tk <= issued (qsbr_ d) ->
  (∀ i, waiting (qsbr_ d) tk i ->
     Z.of_nat i < max_readers_ ∧ flag (registered_ d) i = true ∧ i ∈ reporter <$> rs) ->
  (IsComplete (foldl do_report d rs) tk).1 = true.
Proof.
  revert d. induction rs as [| r rs IH]; intros d Ht Hw; simpl.
  - unfold IsComplete. destruct (IsCompleteLockFree d tk) as [b d'] eqn:Hc.
    destruct (complete_spec _ _ _ _ Hc Ht) as (_ & _ & _ & Hb).
    assert (b = true) as ->; [| done]. apply Hb. right. intros i Hi.
    destruct (Hw i Hi) as (_ & _ & Hin). by apply not_elem_of_nil in Hin.
  - destruct (do_report_spec d r) as (R1 & R2 & R3 & R4). apply IH; [lia |]. intros i Hi.
    destruct (Hw i (R3 _ _ Ht Hi)) as (A1 & A2 & A3). rewrite R1. split_and!; [done | done |].
    simpl in A3. apply elem_of_cons in A3 as [-> | A3]; [| done]. by destruct (R4 A1 A2 tk Ht).
Qed.

(** C24. Grace periods end. Once every reader that was online when a grace
    period started has reported, by a quiescent state or by going offline, in
    any order and among any other reports, the grace period is complete. *)
Theorem grace_period_completes d tk d1 rs :
  StartGracePeriod d = (tk, d1) ->
  (∀ i, active (qsbr_ d) i ->
     Z.of_nat i < max_readers_ ∧ flag (registered_ d) i = true ∧ i ∈ reporter <$> rs) ->
  (IsComplete (foldl do_report d1 rs) tk).1 = true.
Proof.
  intros Hst Hall. unfold StartGracePeriod in Hst.
  destruct (qsbr_start (qsbr_ d)) as [t0 q] eqn:Hq. injection Hst as <- <-.
  destruct (start_law _ _ _ Hq) as (H1 & H2 & H3 & _).
  apply reports_complete; [simpl; lia |]. simpl. intros i Hi. apply Hall. by apply H3.
Qed.

(** A reader that is offline holds nothing up. Whatever it reported before,
    stray quiescent states included, once [Offline] has returned for a
    registered reader it holds up no grace period that has started, nor the
    ones that start while it stays offline. *)
Theorem offline_reader_never_blocks d id :
  Z.of_nat id < max_readers_ -> flag (registered_ d) id = true ->
  let d' := Offline max_readers_ d id in
  IsOnline max_readers_ d' id = false ∧
  (∀ tk, tk <= issued (qsbr_ d') -> ¬ waiting (qsbr_ d') tk id) ∧
  ∀ tk d'', StartGracePeriod d' = (tk, d'') -> ¬ waiting (qsbr_ d'') tk id.
Proof.
  intros Hid Hreg. cbv zeta. unfold Offline, IsOnline.
  rewrite !(bool_decide_eq_false_2 (max_readers_ <= Z.of_nat id)) by lia. rewrite Hreg. simpl.
  destruct (offline_law (qsbr_ d) id) as [[[Hi Ho] Hn] Ha]. split_and!.
  - unfold flag. destruct (decide (id < length (online_ d))%nat).
    + by rewrite list_lookup_insert_eq.
    + by rewrite lookup_ge_None_2 by (rewrite length_insert; lia).
  - intros tk Ht. apply Hn. lia.
  - unfold StartGracePeriod. simpl. destruct (qsbr_start _) as [t0 q] eqn:Hq. intros tk d'' [= <- <-].
    simpl. destruct (start_law _ _ _ Hq) as (_ & _ & H3 & _). by rewrite H3.
Qed.

End Readers.

End RcuProps.
