(* ===== verification/RcuSafety.v ===== *)
(** * Readers and writers of one domain

    Every interleaving of packet workers, writers publishing through [RcuPtr]
    and control threads reclaiming, as a step relation over the operations of
    [Rcu.v]. Each step is one of them, or the part of one between two locks:
    [RetireErased] pushes under its lock, [ReclaimReady] takes an object under
    the lock, destroys it outside, and compacts under the lock again. The
    system's rules for readers are guards: a worker reads while it is online,
    and keeps no pointer across a quiescent state. *)

From S2P Require Import Prelude Rcu RcuTheorems.
Open Scope Z_scope.

Module RcuSafe.
Import Rcu RcuProps.

Section System.
Context {QS : Qsbr} {QV : QsbrView} {QL : QsbrLaws}.
Context {Ob Ow : Type} `{ObD : EqDecision Ob, !Countable Ob} `{OwD : EqDecision Ow, !Countable Ow}.
Context (max_readers_ : Z).

(** [in_flight] are the objects a writer has unpublished and not yet retired,
    each with the last token issued when it was; [taken] are those a reclaimer
    is about to destroy; [held] is who uses what. *)
Record sys := mk_sys {
  dom : Rcu.t Ob Ow;
  ptrs : gmap nat (RcuPtr Ob);
  in_flight : gmap Ob Z;
  taken : list (RetiredObject Ob Ow);
  held : gset (nat * Ob);
  freed : list Ob;                (* by an [RcuPtr]'s own destructor *)
  used : gset Ob
}.

Definition with_dom (d : Rcu.t Ob Ow) (s : sys) : sys :=
  mk_sys d (ptrs s) (in_flight s) (taken s) (held s) (freed s) (used s).

(** Reader [i] keeps nothing. *)
Definition let_go (i : nat) (s : sys) : sys :=
  mk_sys (dom s) (ptrs s) (in_flight s) (taken s) (filter (fun x => x.1 <> i) (held s))
    (freed s) (used s).

Definition hold (i : nat) (o : Ob) (s : sys) : sys :=
  mk_sys (dom s) (ptrs s) (in_flight s) (taken s) ({[(i, o)]} ∪ held s) (freed s) (used s).

Definition with_ptr (p : nat) (ptr : RcuPtr Ob) (new : option Ob) (s : sys) : sys :=
  mk_sys (dom s) (<[p := ptr]> (ptrs s)) (in_flight s) (taken s) (held s) (freed s)
    (option_to_set new ∪ used s).

Definition fly (old : option Ob) (s : sys) : sys :=
  mk_sys (dom s) (ptrs s)
    (match old with Some o => <[o := issued (qsbr_ (dom s))]> (in_flight s) | None => in_flight s end)
    (taken s) (held s) (freed s) (used s).

Definition land (o : Ob) (s : sys) : sys :=
  mk_sys (dom s) (ptrs s) (delete o (in_flight s)) (taken s) (held s) (freed s) (used s).

Definition with_taken (l : list (RetiredObject Ob Ow)) (s : sys) : sys :=
  mk_sys (dom s) (ptrs s) (in_flight s) l (held s) (freed s) (used s).

Definition drop_ptr (p : nat) (old : option Ob) (s : sys) : sys :=
  mk_sys (dom s) (delete p (ptrs s)) (in_flight s) (taken s) (held s)
    (freed s ++ option_list old) (used s).

(** A replacement has just been built. *)
Definition fresh_object (s : sys) (new : option Ob) : Prop :=
  match new with Some o => o ∉ used s | None => True end.

Inductive sys_step (s : sys) : sys -> Prop :=
  | ss_register i : sys_step s (with_dom (Register max_readers_ (dom s) i).2 s)
  | ss_online i : sys_step s (with_dom (Online max_readers_ (dom s) i) s)
  | ss_offline i : sys_step s (let_go i (with_dom (Offline max_readers_ (dom s) i) s))
  | ss_unregister i : sys_step s (let_go i (with_dom (Unregister max_readers_ (dom s) i) s))
  | ss_quiescent i : sys_step s (let_go i (with_dom (Quiescent max_readers_ (dom s) i) s))
  | ss_read i p ptr o :
      IsOnline max_readers_ (dom s) i = true -> ptrs s !! p = Some ptr -> Read ptr = Some o ->
      sys_step s (hold i o s)
  | ss_new p : ptrs s !! p = None -> sys_step s (with_ptr p new_ptr None s)
  | ss_initialize p ptr new ptr' :
      ptrs s !! p = Some ptr -> fresh_object s new -> Initialize ptr new = Ret ptr' ->
      sys_step s (with_ptr p ptr' new s)
  | ss_exchange p ptr new old ptr' :
      ptrs s !! p = Some ptr -> fresh_object s new -> Exchange ptr new = (old, ptr') ->
      sys_step s (fly old (with_ptr p ptr' new s))
  | ss_destroy_ptr p ptr :
      ptrs s !! p = Some ptr -> DestroyPtr (dom s) ptr = Ret () ->
      sys_step s (drop_ptr p (owner_ ptr) s)
  | ss_start : sys_step s (with_dom (StartGracePeriod (dom s)).2 s)
  | ss_start_lock_free : sys_step s (with_dom (StartGracePeriodLockFree (dom s)).2 s)
  | ss_check tk : sys_step s (with_dom (IsComplete (dom s) tk).2 s)
  | ss_reserve grow n d : ReserveRetirements grow (dom s) n = Some d -> sys_step s (with_dom d s)
  | ss_retire o n tk ow :
      in_flight s !! o = Some n -> n < tk <= issued (qsbr_ (dom s)) ->
      sys_step s (land o (with_dom (push_retired (mk_retired tk o ow) (dom s)) s))
  | ss_take r d :
      retired_ (dom s) !! head_ (dom s) = Some r ->
      IsCompleteLockFree (dom s) (token r) = (true, d) ->
      sys_step s (with_taken (taken s ++ [r]) (with_dom (take_head d) s))
  | ss_destroy l1 r l2 :
      taken s = l1 ++ r :: l2 ->
      sys_step s (with_taken (l1 ++ l2) (with_dom (destroy r (dom s)) s))
  | ss_settle k : sys_step s (with_dom (settle k (dom s)) s).

Definition initial (d : Rcu.t Ob Ow) : sys := mk_sys d ∅ ∅ [] ∅ [] ∅.

Definition sys_reachable (s : sys) : Prop :=
  ∃ d, Create max_readers_ = Ret d ∧ rtc sys_step (initial d) s.

(** ** The invariant *)

Definition published (s : sys) (p : nat) (o : Ob) : Prop :=
  ∃ ptr, ptrs s !! p = Some ptr ∧ current_ ptr = Some o.

(** Objects that left their pointer, each where it is now. *)
Definition left (s : sys) : list Ob :=
  (map_to_list (in_flight s)).*1 ++ (object <$> queue (dom s)) ++ (object <$> taken s) ++
  destroyed_ (dom s) ++ freed s.

(** The reader's side: flags agree with DPDK's view. *)
Record readers_ok (d : Rcu.t Ob Ow) : Prop := {
  ro_registered i : flag (online_ d) i = true -> flag (registered_ d) i = true;
  ro_active i : flag (online_ d) i = true -> active (qsbr_ d) i
}.

(** The queue's side. *)
Record tokens_ok (s : sys) : Prop := {
  tk_head : (head_ (dom s) <= length (retired_ (dom s)))%nat;
  tk_issued : 0 <= issued (qsbr_ (dom s));
  tk_queue : Forall (fun r => 0 < token r <= issued (qsbr_ (dom s))) (queue (dom s));
  tk_flight : map_Forall (fun _ n => 0 <= n <= issued (qsbr_ (dom s))) (in_flight s)
}.

(** The objects' side: each is in one place. *)
Record places_ok (s : sys) : Prop := {
  pl_owner p ptr : ptrs s !! p = Some ptr -> owner_ ptr = current_ ptr;
  pl_unique p p' o : published s p o -> published s p' o -> p = p';
  pl_left p o : published s p o -> o ∉ left s;
  pl_once : NoDup (left s);
  pl_used p o : published s p o -> o ∈ used s;
  pl_left_used o : o ∈ left s -> o ∈ used s
}.

(** Whoever holds an object that was unpublished holds up every grace period
    under which it may be destroyed. *)
Record holders_ok (s : sys) : Prop := {
  ho_online i o : (i, o) ∈ held s -> flag (online_ (dom s)) i = true;
  ho_used i o : (i, o) ∈ held s -> o ∈ used s;
  ho_flight i o n tk : (i, o) ∈ held s -> in_flight s !! o = Some n ->
    n < tk <= issued (qsbr_ (dom s)) -> waiting (qsbr_ (dom s)) tk i;
  ho_queue i r : (i, object r) ∈ held s -> r ∈ queue (dom s) -> waiting (qsbr_ (dom s)) (token r) i;
  ho_taken i r : (i, object r) ∈ held s -> r ∉ taken s;
  ho_gone i o : (i, o) ∈ held s -> o ∉ destroyed_ (dom s) ++ freed s
}.

Record safe (s : sys) : Prop := {
  sf_readers : readers_ok (dom s);
  sf_tokens : tokens_ok s;
  sf_places : places_ok s;
  sf_holders : holders_ok s
}.

(** ** Domain changes that leave the queue alone *)

(** [d'] holds the same retired objects. *)
Definition same_queue (d d' : Rcu.t Ob Ow) : Prop :=
  queue d' = queue d ∧ destroyed_ d' = destroyed_ d ∧
  ((head_ d <= length (retired_ d))%nat -> (head_ d' <= length (retired_ d'))%nat).

Lemma places_dom s d' : same_queue (dom s) d' -> places_ok s -> places_ok (with_dom d' s).
Proof.
  intros Hq [P1 P2 P3 P4 P5 P6].
  assert (left (with_dom d' s) = left s) as Hl.
  { unfold left. simpl. by destruct Hq as (-> & -> & _). }
  constructor; rewrite ?Hl; done.
Qed.

Lemma tokens_dom s d' :
  same_queue (dom s) d' -> issued (qsbr_ (dom s)) <= issued (qsbr_ d') ->
  tokens_ok s -> tokens_ok (with_dom d' s).
Proof.
  intros Hq Hi [T1 T2 T3 T4].
  destruct Hq as (Hqq & _ & Hh). constructor; simpl; rewrite ?Hqq; [by apply Hh | lia | |].
  - eapply Forall_impl; [exact T3 |]. simpl. lia.
  - eapply map_Forall_impl; [exact T4 |]. simpl. lia.
Qed.

(** Readers keep holding up what they held up, as far as they hold anything. *)
Definition keeps_waiting (h : gset (nat * Ob)) (d d' : Rcu.t Ob Ow) : Prop :=
  ∀ i o, (i, o) ∈ h ->
    flag (online_ d') i = true ∧
    (∀ tk, tk <= issued (qsbr_ d) -> waiting (qsbr_ d) tk i -> waiting (qsbr_ d') tk i) ∧
    (∀ tk, issued (qsbr_ d) < tk <= issued (qsbr_ d') -> waiting (qsbr_ d') tk i).

Lemma holders_dom s d' h :
  same_queue (dom s) d' -> h ⊆ held s -> keeps_waiting h (dom s) d' -> tokens_ok s ->
  holders_ok s ->
  holders_ok (mk_sys d' (ptrs s) (in_flight s) (taken s) h (freed s) (used s)).
Proof.
  intros Hq Hsub Hk [_ _ T3 _] [H1 H2 H3 H4 H5 H6]. destruct Hq as (Hqq & Hdd & _).
  constructor; simpl; rewrite ?Hqq.
  - intros i o Hin. by apply (Hk i o).
  - intros i o Hin. by eapply H2, Hsub.
  - intros i o n tk Hin Hf Ht. destruct (Hk i o Hin) as (_ & Hw & Hnew).
    destruct (decide (tk <= issued (qsbr_ (dom s)))); [| apply Hnew; lia].
    apply Hw; [done |]. eapply H3; [by apply Hsub | done | lia].
  - intros i r Hin Hr. destruct (Hk i _ Hin) as (_ & Hw & _). rewrite Forall_forall in T3.
    apply Hw; [by apply T3 |]. eapply H4; [by apply Hsub | done].
  - intros i r Hin. by eapply H5, Hsub.
  - intros i o Hin. rewrite Hdd. by eapply H6, Hsub.
Qed.

(** A reader's own operation, with what it held let go. *)
Lemma others_keep_keeps s d' i :
  others_keep i (qsbr_ (dom s)) (qsbr_ d') -> holders_ok s ->
  (∀ j, j <> i -> flag (online_ d') j = flag (online_ (dom s)) j) ->
  keeps_waiting (filter (fun x => x.1 <> i) (held s)) (dom s) d'.
Proof.
  intros (R1 & R2) Hh Hon j o Hin. apply elem_of_filter in Hin as [Hj Hin]. simpl in Hj. split_and!.
  - rewrite Hon by done. by eapply ho_online.
  - intros tk Ht Hw. by apply R2.
  - intros tk Ht. lia.
Qed.

(** The same for a reader that was not online, and so held nothing. *)
Lemma offline_holds_nothing s i :
  holders_ok s -> flag (online_ (dom s)) i = false ->
  filter (fun x => x.1 <> i) (held s) = held s.
Proof.
  intros Hh Hf. apply set_eq. intros [j o]. rewrite elem_of_filter. split; [by intros [] |].
  intros Hin. split; [| done]. simpl. intros ->. pose proof (ho_online _ Hh _ _ Hin). congruence.
Qed.

Lemma safe_let_go s i : safe s -> safe (let_go i s).
Proof.
  intros [[R1 R2] [T1 T2 T3 T4] [P1 P2 P3 P4 P5 P6] [H1 H2 H3 H4 H5 H6]].
  split; constructor; try done; simpl; intros j; intros;
    match goal with H : _ ∈ filter _ _ |- _ => apply elem_of_filter in H as [_ H] end; eauto.
Qed.

(** Any operation of reader [i] on a domain. *)
Record reader_op (i : nat) (d d' : Rcu.t Ob Ow) : Prop := {
  rop_queue : same_queue d d';
  rop_others : others_keep i (qsbr_ d) (qsbr_ d');
  rop_readers : readers_ok d';
  rop_online j : j <> i -> flag (online_ d') j = flag (online_ d) j
}.

Lemma others_keep_trans i q q' q'' :
  others_keep i q q' -> others_keep i q' q'' -> others_keep i q q''.
Proof.
  intros (H1 & H2) (H3 & H4). split; [congruence |]. intros j Hj.
  destruct (H2 j Hj) as (A1 & W1), (H4 j Hj) as (A2 & W2). split; [by rewrite A2 |].
  intros tk Ht. rewrite W2 by lia. by apply W1.
Qed.

Lemma flag_insert_ne l (i j : nat) b : j <> i -> flag (<[i := b]> l) j = flag l j.
Proof. intros Hne. unfold flag. by rewrite list_lookup_insert_ne. Qed.

Lemma flag_insert_false l (i : nat) : flag (<[i := false]> l) i = false.
Proof.
  unfold flag. destruct (decide (i < length l)%nat).
  - by rewrite list_lookup_insert_eq.
  - by rewrite lookup_ge_None_2 by (rewrite length_insert; lia).
Qed.

Lemma flag_insert_true l (i j : nat) : flag l j = true -> flag (<[i := true]> l) j = true.
Proof.
  destruct (decide (j = i)) as [-> | Hne]; [| by rewrite flag_insert_ne]. unfold flag.
  destruct (l !! i) as [b |] eqn:Hl; [| done]. intros _.
  by rewrite list_lookup_insert_eq by (by eapply lookup_lt_Some).
Qed.

Lemma reader_op_refl i d : readers_ok d -> reader_op i d d.
Proof. by split. Qed.

(** The flags and the variable of a reader's operation, one field at a time. *)
Lemma reader_op_flags i d q reg on n :
  readers_ok d -> others_keep i (qsbr_ d) q ->
  (∀ j, j <> i -> flag reg j = flag (registered_ d) j ∧ flag on j = flag (online_ d) j) ->
  (flag on i = true -> flag reg i = true ∧ active q i) ->
  reader_op i d (with_readers reg on n (with_qsbr q d)).
Proof.
  intros [R1 R2] Ho Hne Hi. split; [done | done | | by intros; apply Hne]. split; simpl; intros j Hj.
  - destruct (decide (j = i)) as [-> | Hn]; [by apply Hi |]. destruct (Hne j Hn) as [H1 H2].
    rewrite H1. apply R1. congruence.
  - destruct (decide (j = i)) as [-> | Hn]; [by apply Hi |]. destruct (Hne j Hn) as [H1 H2].
    apply Ho; [done |]. apply R2. congruence.
Qed.

Lemma register_op d i : readers_ok d -> reader_op i d (Register max_readers_ d i).2.
Proof.
  intros Hr. unfold Register. case_bool_decide; [by apply reader_op_refl |].
  destruct (flag (registered_ d) i) eqn:Hreg; [by apply reader_op_refl |].
  pose proof (register_law (qsbr_ d) i) as Ho. destruct (qsbr_thread_register (qsbr_ d) i) as [ok q].
  assert (flag (online_ d) i = false) as Hoff
    by (destruct (flag (online_ d) i) eqn:E; [apply (ro_registered _ Hr) in E; congruence | done]).
  destruct ok; simpl in *.
  - apply reader_op_flags; [done | done | | congruence]. intros j Hj. by rewrite flag_insert_ne.
  - apply (reader_op_flags i d q (registered_ d) (online_ d) (registered_readers_ d));
      [done | done | done | congruence].
Qed.

Lemma online_op d i : readers_ok d -> reader_op i d (Online max_readers_ d i).
Proof.
  intros Hr. unfold Online. case_bool_decide; [by apply reader_op_refl |].
  destruct (flag (registered_ d) i) eqn:Hreg; simpl; [| by apply reader_op_refl].
  destruct (flag (online_ d) i) eqn:Hon; simpl; [by apply reader_op_refl |].
  destruct (online_law (qsbr_ d) i) as [[Ho _] Ha]. apply reader_op_flags; [done | done | |].
  - intros j Hj. by rewrite flag_insert_ne.
  - done.
Qed.

Lemma offline_op d i : readers_ok d -> reader_op i d (Offline max_readers_ d i).
Proof.
  intros Hr. unfold Offline. case_bool_decide; [by apply reader_op_refl |].
  destruct (flag (registered_ d) i) eqn:Hreg; simpl; [| by apply reader_op_refl].
  destruct (offline_law (qsbr_ d) i) as [[Ho _] _]. apply reader_op_flags; [done | done | |].
  - intros j Hj. by rewrite flag_insert_ne.
  - rewrite flag_insert_false. done.
Qed.

Lemma unregister_op d i : readers_ok d -> reader_op i d (Unregister max_readers_ d i).
Proof.
  intros Hr. unfold Unregister. case_bool_decide; [by apply reader_op_refl |].
  destruct (flag (registered_ d) i) eqn:Hreg; simpl; [| by apply reader_op_refl].
  destruct (flag (online_ d) i) eqn:Hon; simpl.
  - destruct (offline_law (qsbr_ d) i) as [[Ho _] _].
    destruct (unregister_law (qsbr_thread_offline (qsbr_ d) i) i) as [[Ho' _] _].
    eapply (reader_op_flags i d _ (<[i := false]> (registered_ d)) (<[i := false]> (online_ d)));
      [done | by eapply others_keep_trans | |].
    + intros j Hj. by rewrite !flag_insert_ne.
    + rewrite flag_insert_false. done.
  - destruct (unregister_law (qsbr_ d) i) as [[Ho _] _]. apply reader_op_flags; [done | done | |].
    + intros j Hj. by rewrite flag_insert_ne.
    + congruence.
Qed.

Lemma quiescent_op d i : readers_ok d -> reader_op i d (Quiescent max_readers_ d i).
Proof.
  intros Hr. unfold Quiescent. case_bool_decide; [by apply reader_op_refl |].
  destruct (quiescent_law (qsbr_ d) i) as [[Ho _] Ha].
  apply (reader_op_flags i d _ (registered_ d) (online_ d) (registered_readers_ d)); [done.. |].
  intros Hon. split; [by apply Hr | by apply Ha, Hr].
Qed.

Lemma safe_reader s d' i : safe s -> reader_op i (dom s) d' -> safe (let_go i (with_dom d' s)).
Proof.
  intros [SR ST SP SH] [Hq Ho Hr Hon]. split; [done | | |].
  - destruct Ho as (Hi & _). apply (tokens_dom s d' Hq) in ST; [| lia]. by destruct ST.
  - apply (places_dom s d' Hq) in SP. by destruct SP.
  - apply (holders_dom s); [done | intros x Hx; by apply elem_of_filter in Hx as [_ Hx] | | done | done].
    by apply (others_keep_keeps s d' i).
Qed.

(** The operations by which a reader comes in, which let nothing go. *)
Lemma safe_incoming s d' i :
  safe s -> reader_op i (dom s) d' -> d' = dom s ∨ flag (online_ (dom s)) i = false ->
  safe (with_dom d' s).
Proof.
  intros Hs Hop [-> | Hoff]; [by destruct s |]. pose proof (safe_reader s d' i Hs Hop) as Hs'.
  unfold let_go in Hs'. simpl in Hs'.
  by rewrite (offline_holds_nothing s i (sf_holders _ Hs) Hoff) in Hs'.
Qed.

(** Operations of a writer on the QSBR variable: none of them lets a reader off. *)
Lemma safe_variable s d' :
  safe s -> same_queue (dom s) d' -> registered_ d' = registered_ (dom s) ->
  online_ d' = online_ (dom s) ->
  issued (qsbr_ (dom s)) <= issued (qsbr_ d') ->
  (∀ i, active (qsbr_ (dom s)) i -> active (qsbr_ d') i ∧
     (∀ tk, tk <= issued (qsbr_ (dom s)) -> waiting (qsbr_ (dom s)) tk i -> waiting (qsbr_ d') tk i) ∧
     (∀ tk, issued (qsbr_ (dom s)) < tk <= issued (qsbr_ d') -> waiting (qsbr_ d') tk i)) ->
  safe (with_dom d' s).
Proof.
  intros [[R1 R2] ST SP SH] Hq Hreg Hon Hi Ha. split.
  - split; simpl; rewrite Hon; [rewrite Hreg; apply R1 |]. intros i Hf. by apply Ha, R2.
  - by apply tokens_dom.
  - by apply places_dom.
  - apply holders_dom; [done | done | | done | done]. intros i o Hin. rewrite Hon.
    pose proof (ho_online _ SH _ _ Hin) as Hf. by destruct (Ha i (R2 _ Hf)) as (_ & ? & ?).
Qed.

(** ** Each step *)

Lemma safe_start s q tk d' :
  safe s -> qsbr_start (qsbr_ (dom s)) = (tk, q) -> qsbr_ d' = q -> same_queue (dom s) d' ->
  registered_ d' = registered_ (dom s) -> online_ d' = online_ (dom s) -> safe (with_dom d' s).
Proof.
  intros Hs Hst Hd Hq Hreg Hon. destruct (start_law _ _ _ Hst) as (H1 & H2 & H3 & H4 & H5).
  apply safe_variable; [done.. | rewrite Hd; lia |]. rewrite Hd. intros i Ha. split_and!.
  - by apply H4.
  - intros u Hu. by apply H5.
  - intros u Hu. replace u with tk by lia. by apply H3.
Qed.

Lemma safe_same_qsbr s d' :
  safe s -> same_qsbr (qsbr_ (dom s)) (qsbr_ d') -> same_queue (dom s) d' ->
  registered_ d' = registered_ (dom s) -> online_ d' = online_ (dom s) -> safe (with_dom d' s).
Proof.
  intros Hs (H1 & H2 & H3) Hq Hreg Hon. apply safe_variable; [done.. | lia |]. intros i Ha. split_and!.
  - by apply H2.
  - intros u Hu. by apply H3.
  - intros u Hu. lia.
Qed.

Lemma check_same q tk b q' : qsbr_check q tk = (b, q') -> same_qsbr q q'.
Proof. intros Hc. by destruct (check_law _ _ _ _ Hc) as (? & ? & ? & _). Qed.

Lemma safe_check s tk : safe s -> safe (with_dom (IsComplete (dom s) tk).2 s).
Proof.
  intros Hs. unfold IsComplete, IsCompleteLockFree.
  case_bool_decide; [by apply safe_same_qsbr |].
  destruct (qsbr_check (qsbr_ (dom s)) tk) as [b q'] eqn:Hc. apply check_same in Hc.
  destruct b; by apply safe_same_qsbr.
Qed.

Lemma safe_reserve s grow n d :
  safe s -> ReserveRetirements grow (dom s) n = Some d -> safe (with_dom d s).
Proof.
  intros Hs. unfold ReserveRetirements. case_bool_decide; [destruct (grow _); [| done] |];
    intros [= <-]; by apply safe_same_qsbr.
Qed.

Lemma safe_settle s k : safe s -> safe (with_dom (settle k (dom s)) s).
Proof.
  intros Hs. pose proof (compact_queue _ (tk_head _ (sf_tokens _ Hs))) as [Hc1 Hc2].
  unfold settle. destruct (compact (dom s)) as [rt hd]. by apply safe_same_qsbr.
Qed.

Lemma elem_of_left s o :
  o ∈ left s <-> is_Some (in_flight s !! o) ∨ (∃ r, r ∈ queue (dom s) ∧ object r = o) ∨
    (∃ r, r ∈ taken s ∧ object r = o) ∨ o ∈ destroyed_ (dom s) ++ freed s.
Proof.
  unfold left. rewrite !(elem_of_app _ _ o). rewrite !list_elem_of_fmap.
  assert ((∃ y, o = y.1 ∧ y ∈ map_to_list (in_flight s)) <-> is_Some (in_flight s !! o)) as ->.
  { split.
    - intros ([o' n] & -> & Hin). apply elem_of_map_to_list in Hin. by eexists.
    - intros [n Hn]. exists (o, n). by rewrite elem_of_map_to_list. }
  split; intros [? | [(r & ? & ?) | [(r & ? & ?) | ?]]]; eauto 10.
Qed.

Lemma safe_hold s i p ptr o :
  safe s -> IsOnline max_readers_ (dom s) i = true -> ptrs s !! p = Some ptr -> Read ptr = Some o ->
  safe (hold i o s).
Proof.
  intros [SR ST SP SH] Hon Hp Hr. assert (published s p o) as Hpub by by exists ptr.
  pose proof (pl_left _ SP _ _ Hpub) as Hnl. rewrite elem_of_left in Hnl.
  assert (flag (online_ (dom s)) i = true) as Hf.
  { unfold IsOnline in Hon. by case_bool_decide. }
  split; [done | by destruct ST | by destruct SP |].
  assert (∀ j o', (j, o') ∈ held (hold i o s) -> (j = i ∧ o' = o) ∨ (j, o') ∈ held s) as Hcase.
  { simpl. intros j o' Hin. apply elem_of_union in Hin as [Hin | Hin]; [left | by right].
    apply elem_of_singleton in Hin. by injection Hin. }
  destruct SH as [H1 H2 H3 H4 H5 H6]. constructor.
  - intros j o' Hin. destruct (Hcase _ _ Hin) as [[-> ->] | ?]; [done | by eapply H1].
  - intros j o' Hin. destruct (Hcase _ _ Hin) as [[-> ->] | ?]; [by apply (pl_used _ SP p) | by eapply H2].
  - intros j o' n tk Hin Hn. destruct (Hcase _ _ Hin) as [[-> ->] | ?]; [| by eapply H3].
    destruct Hnl. left. by eexists.
  - intros j r Hin Hq. destruct (Hcase _ _ Hin) as [[-> Heq] | ?]; [| by eapply H4].
    destruct Hnl. right. left. by exists r.
  - intros j r Hin Ht. destruct (Hcase _ _ Hin) as [[-> Heq] | ?]; [| by eapply H5].
    destruct Hnl. right. right. left. by exists r.
  - intros j o' Hin Hg. destruct (Hcase _ _ Hin) as [[-> ->] | ?]; [| by eapply H6].
    destruct Hnl. by do 3 right.
Qed.

Lemma published_with_ptr s p ptr new p' o :
  current_ ptr = new ->
  published (with_ptr p ptr new s) p' o <->
  (p' = p ∧ new = Some o) ∨ (p' <> p ∧ published s p' o).
Proof.
  intros Hc. unfold published. simpl. destruct (decide (p' = p)) as [-> | Hne].
  - rewrite lookup_insert_eq. split.
    + intros (x & [= <-] & Hx). left. split; [done | congruence].
    + intros [[_ Hn] | [? _]]; [| done]. exists ptr. split; [done | congruence].
  - rewrite lookup_insert_ne by done. split; [by right | by intros [[? _] | [_ ?]]].
Qed.

Lemma safe_with_ptr s p ptr new :
  safe s -> fresh_object s new -> current_ ptr = new -> owner_ ptr = new ->
  safe (with_ptr p ptr new s).
Proof.
  intros [SR ST SP SH] Hf Hc Ho. split; [done | by destruct ST | |].
  - destruct SP as [P1 P2 P3 P4 P5 P6].
    assert (∀ o, new = Some o -> o ∉ used s) as Hfr by (intros o ->; done).
    constructor; [| | | done | |].
    + intros p' x. simpl. destruct (decide (p' = p)) as [-> | Hne].
      * rewrite lookup_insert_eq. intros [= <-]. congruence.
      * rewrite lookup_insert_ne by done. apply P1.
    + intros p1 p2 o. rewrite !published_with_ptr by done.
      intros [[-> H1] | [H1 H1']] [[-> H2] | [H2 H2']]; [done | | | by eapply P2].
      * by destruct (Hfr o H1); eapply P5.
      * by destruct (Hfr o H2); eapply P5.
    + intros p' o. rewrite published_with_ptr by done. intros [[_ Hn] | [_ Hp]]; [| by eapply P3].
      intros Hl. apply (Hfr o Hn). by apply P6.
    + intros p' o. rewrite published_with_ptr by done. simpl. rewrite elem_of_union.
      intros [[_ ->] | [_ Hp]]; [left; by apply elem_of_singleton | right; by eapply P5].
    + intros o Hl. simpl. apply elem_of_union. right. by apply P6.
  - destruct SH as [H1 H2 H3 H4 H5 H6]. constructor; try done. intros i o Hin. simpl.
    apply elem_of_union. right. by eapply H2.
Qed.

Lemma left_fly s o n :
  in_flight s !! o = None ->
  left (mk_sys (dom s) (ptrs s) (<[o := n]> (in_flight s)) (taken s) (held s) (freed s) (used s))
  ≡ₚ o :: left s.
Proof. intros Hn. unfold left. simpl. rewrite map_to_list_insert by done. done. Qed.

(** An object leaves its pointer for [l']: in flight, or freed. *)
Lemma places_leave s s' o :
  places_ok s -> left s' ≡ₚ o :: left s -> o ∉ left s -> o ∈ used s -> used s' = used s ->
  (∀ p ptr, ptrs s' !! p = Some ptr -> ptrs s !! p = Some ptr) -> (∀ p, ¬ published s' p o) ->
  places_ok s'.
Proof.
  intros [P1 P2 P3 P4 P5 P6] Hl Hno Hu Hus Hpt Hnp.
  assert (∀ p x, published s' p x -> published s p x) as Hpub.
  { intros p x (ptr & H1 & H2). exists ptr. split; [by apply Hpt | done]. }
  constructor; rewrite ?Hus.
  - intros p ptr H. by eapply P1, Hpt.
  - intros p p' x H1 H2. eapply P2; by apply Hpub.
  - intros p x Hp. rewrite Hl, elem_of_cons. intros [-> | Hin]; [by eapply Hnp |].
    by eapply P3; [apply Hpub |].
  - rewrite Hl. by constructor.
  - intros p x Hp. by eapply P5, Hpub.
  - intros x. rewrite Hl, elem_of_cons. intros [-> | ?]; [done | by apply P6].
Qed.

Lemma safe_fly s old :
  safe s -> (∀ o, old = Some o -> o ∈ used s ∧ (o ∉ left s) ∧ ∀ p, ¬ published s p o) ->
  safe (fly old s).
Proof.
  intros [SR ST SP SH] Hold. destruct old as [o |]; [| by destruct s].
  destruct (Hold o eq_refl) as (Hu & Hnl & Hnp).
  assert (in_flight s !! o = None) as Hn.
  { apply eq_None_not_Some. intros Hs. apply Hnl. rewrite elem_of_left. by left. }
  split; [done | | |].
  - destruct ST as [T1 T2 T3 T4]. constructor; try done. apply map_Forall_insert_2; [simpl; lia | done].
  - eapply (places_leave s _ o SP); try done. by apply left_fly.
  - destruct SH as [H1 H2 H3 H4 H5 H6]. constructor; try done. simpl. intros i x n tk Hin.
    destruct (decide (x = o)) as [-> | Hne].
    + rewrite lookup_insert_eq. intros [= <-]. lia.
    + rewrite lookup_insert_ne by done. by apply H3.
Qed.

Lemma online_readers_pos d i : flag (online_ d) i = true -> 0 < @online_readers QS Ob Ow _ _ d.
Proof.
  unfold online_readers, flag.
  assert (∀ l k, (k <= foldl (fun online state => online + Z.b2z state) k l) ∧
    (default false (l !! i) = true -> k < foldl (fun online state => online + Z.b2z state) k l)) as Hl.
  { revert i. assert (∀ (l : list bool) k, k <= foldl (fun online state => online + Z.b2z state) k l) as Hle.
    { induction l as [| b l IH]; intros k; simpl; [lia |]. specialize (IH (k + Z.b2z b)). destruct b; simpl in *; lia. }
    intros i l. revert i. induction l as [| b l IH]; intros i k; (split; [by apply Hle |]); [done |].
    destruct i as [| i]; simpl.
    - intros ->. specialize (Hle l (k + 1)). simpl. lia.
    - intros Hi. destruct (IH i (k + Z.b2z b)) as [_ IH']. specialize (IH' Hi). destruct b; simpl in *; lia. }
  by apply Hl.
Qed.

Lemma safe_drop_ptr s p ptr :
  safe s -> ptrs s !! p = Some ptr -> DestroyPtr (dom s) ptr = Ret () ->
  safe (drop_ptr p (owner_ ptr) s).
Proof.
  intros [SR ST SP SH] Hp Hd. apply check_Ret, bool_decide_eq_true in Hd.
  assert (∀ q x, delete p (ptrs s) !! q = Some x -> ptrs s !! q = Some x) as Hsub
    by (intros q x Hx; by apply lookup_delete_Some in Hx as [_ Hx]).
  pose proof (pl_owner _ SP _ _ Hp) as Ho.
  destruct (owner_ ptr) as [o |] eqn:Hown.
  - destruct Hd as [Hd | Hd]; [done |]. assert (published s p o) as Hpub by by exists ptr.
    split; [done | by destruct ST | |].
    + eapply (places_leave s _ o SP); [| by eapply pl_left | by eapply (pl_used _ SP) | done | done |].
      * unfold left. simpl. rewrite !app_assoc. by rewrite Permutation_app_comm.
      * intros q (x & Hx & Hc). simpl in Hx. apply lookup_delete_Some in Hx as [Hne Hx].
        apply Hne. eapply (pl_unique _ SP); [exact Hpub | by exists x].
    + assert (∀ i x, (i, x) ∉ held s) as Hnone.
      { intros i x Hin. pose proof (ho_online _ SH _ _ Hin) as Hf. apply online_readers_pos in Hf. lia. }
      constructor; simpl; intros; exfalso; by eapply Hnone.
  - split; [done | by destruct ST | |].
    + destruct SP as [P1 P2 P3 P4 P5 P6].
      assert (∀ q x, published (drop_ptr p None s) q x -> published s q x) as Hpub.
      { intros q x (y & Hy & Hc). exists y. split; [by apply Hsub | done]. }
      assert (left (drop_ptr p None s) = left s) as Hl by (unfold left; simpl; by rewrite app_nil_r).
      constructor; rewrite ?Hl; try done; simpl.
      * intros q x Hx. by eapply P1, Hsub.
      * intros q q' x H1 H2. eapply P2; by apply Hpub.
      * intros q x H1. by eapply P3, Hpub.
      * intros q x H1. by eapply P5, Hpub.
    + destruct SH as [H1 H2 H3 H4 H5 H6]. constructor; try done. simpl. by rewrite app_nil_r.
Qed.

Lemma places_move s s' :
  places_ok s -> left s' ≡ₚ left s -> ptrs s' = ptrs s -> used s' = used s -> places_ok s'.
Proof.
  intros [P1 P2 P3 P4 P5 P6] Hl Hp Hu. unfold published in *. rewrite <- Hp in *.
  constructor; rewrite ?Hu; try done.
  - intros p o H. rewrite Hl. by eapply P3.
  - by rewrite Hl.
  - intros o. rewrite Hl. apply P6.
Qed.

Lemma safe_retire s o n tk ow :
  safe s -> in_flight s !! o = Some n -> n < tk <= issued (qsbr_ (dom s)) ->
  safe (land o (with_dom (push_retired (mk_retired tk o ow) (dom s)) s)).
Proof.
  intros [SR [T1 T2 T3 T4] SP [H1 H2 H3 H4 H5 H6]] Hn Htk.
  pose proof (push_queue (mk_retired tk o ow) (dom s) T1) as Hq.
  assert (0 <= n) as Hn0 by apply (T4 _ _ Hn).
  split; [by destruct SR | | |].
  - constructor; cbn [dom land with_dom in_flight]; [| done | | by apply map_Forall_delete].
    + simpl. rewrite length_app. lia.
    + rewrite Hq. apply Forall_app. split; [done |]. constructor; [simpl; lia | constructor].
  - apply (places_move s); try done. unfold left. cbn [dom land with_dom in_flight taken freed].
    rewrite Hq, fmap_app. simpl. rewrite <- (insert_delete_id (in_flight s) o n) at 2 by done.
    rewrite (map_to_list_insert _ o n) by apply lookup_delete_eq. simpl.
    rewrite <- app_assoc. simpl. by rewrite <- !Permutation_middle.
  - constructor; cbn [dom land with_dom in_flight taken freed held used]; try done.
    + intros i x m u Hin Hm. apply lookup_delete_Some in Hm as [_ Hm]. by apply (H3 i x m).
    + intros i r Hin. rewrite Hq. rewrite elem_of_app, list_elem_of_singleton.
      intros [Hr | ->]; [by apply H4 |]. by apply (H3 i o n).
Qed.

Lemma safe_take s r d :
  safe s -> retired_ (dom s) !! head_ (dom s) = Some r ->
  IsCompleteLockFree (dom s) (token r) = (true, d) ->
  safe (with_taken (taken s ++ [r]) (with_dom (take_head d) s)).
Proof.
  intros Hs Hr Hc. rewrite queue_lookup in Hr.
  destruct (queue (dom s)) as [| r' l] eqn:Hq; [done |]. injection Hr as ->.
  pose proof (tk_queue _ (sf_tokens _ Hs)) as Hall. rewrite Hq in Hall.
  apply Forall_cons in Hall as [[Hpos Hiss] Hall].
  destruct (complete_spec _ _ _ _ Hc Hiss) as (q' & -> & Hsame & Hb).
  destruct (proj1 Hb eq_refl) as [H0 | Hnw]; [lia |].
  assert (∀ i, (i, object r) ∉ held s) as Hno.
  { intros i Hin. apply (Hnw i). eapply (ho_queue _ (sf_holders _ Hs)); [done |]. rewrite Hq. by left. }
  pose proof (safe_same_qsbr s (with_qsbr q' (dom s)) Hs Hsame) as Hs'.
  destruct Hs' as [SR [T1 T2 T3 T4] SP [H1 H2 H3 H4 H5 H6]]; [done.. |].
  assert (queue (take_head (with_qsbr q' (dom s))) = l) as Hq2
    by by apply (queue_take (with_qsbr q' (dom s)) r).
  assert (queue (dom (with_dom (with_qsbr q' (dom s)) s)) = r :: l) as Hq1 by done.
  split; [by destruct SR | | |].
  - constructor; cbn [dom with_taken with_dom in_flight]; [| done | | done].
    + simpl. apply (f_equal length) in Hq1. unfold queue in Hq1. rewrite length_drop in Hq1. simpl in *. lia.
    + rewrite Hq2. rewrite Hq1 in T3. by apply Forall_cons in T3 as [_ T3].
  - apply (places_move (with_dom (with_qsbr q' (dom s)) s)); try done.
    unfold left. rewrite Hq1. cbn [dom with_taken with_dom in_flight taken]. rewrite Hq2, fmap_app.
    simpl. rewrite <- app_assoc. simpl. apply Permutation_app_head.
    rewrite <- !Permutation_middle. done.
  - constructor; cbn [dom with_taken with_dom in_flight taken freed held used]; try done.
    + intros i x Hin Hx. eapply H4; [exact Hin |]. rewrite Hq1, <- Hq2. by right.
    + intros i x Hin. rewrite elem_of_app, list_elem_of_singleton. intros [Hx | ->]; [by eapply H5 |].
      by eapply Hno.
Qed.

Lemma safe_destroy s l1 r l2 :
  safe s -> taken s = l1 ++ r :: l2 ->
  safe (with_taken (l1 ++ l2) (with_dom (destroy r (dom s)) s)).
Proof.
  intros [SR [T1 T2 T3 T4] SP [H1 H2 H3 H4 H5 H6]] Ht. split; [by destruct SR | by constructor | |].
  - apply (places_move s); try done. unfold left. rewrite Ht. simpl.
    rewrite !fmap_app, fmap_cons, <- !app_assoc. do 2 apply Permutation_app_head. simpl.
    rewrite !app_assoc. rewrite <- (Permutation_middle (_ <$> l1)). rewrite <- !app_assoc.
    by rewrite !app_assoc, <- Permutation_middle.
  - constructor; try done; simpl.
    + intros i x Hin. rewrite Ht in H5. specialize (H5 i x Hin).
      intros Hx. apply H5. apply elem_of_app in Hx as [Hx | Hx]; apply elem_of_app; [by left |].
      right. by right.
    + intros i o Hin. specialize (H6 i o Hin). rewrite !elem_of_app in *. intros [[Hx | Hx] | Hx]; [tauto | | tauto].
      apply list_elem_of_singleton in Hx as ->. apply (H5 i r Hin). rewrite Ht.
      apply elem_of_app. right. by left.
Qed.

Lemma safe_step s s' : safe s -> sys_step s s' -> safe s'.
Proof.
  intros Hs Hst. pose proof (sf_readers _ Hs) as Hr. destruct Hst.
  - apply (safe_incoming _ _ i Hs); [by apply register_op |].
    unfold Register. case_bool_decide; [by left |].
    destruct (flag (registered_ (dom s)) i) eqn:Hf; [by left | right].
    destruct (flag (online_ (dom s)) i) eqn:E; [apply (ro_registered _ Hr) in E; congruence | done].
  - apply (safe_incoming _ _ i Hs); [by apply online_op |]. unfold Online. case_bool_decide; [by left |].
    destruct (flag (online_ (dom s)) i); [left; by rewrite orb_true_r | by right].
  - by apply safe_reader, offline_op.
  - by apply safe_reader, unregister_op.
  - by apply safe_reader, quiescent_op.
  - by eapply safe_hold.
  - by apply safe_with_ptr.
  - match goal with H : Initialize _ _ = _ |- _ => unfold Initialize in H; run_inv end.
    by apply safe_with_ptr.
  - match goal with H : Exchange _ _ = _ |- _ => injection H as <- <- end.
    apply safe_fly; [by apply safe_with_ptr |]. intros o Ho.
    assert (published s p o) as Hpub.
    { exists ptr. split; [done |]. rewrite <- Ho. symmetry. by apply (pl_owner _ (sf_places _ Hs) p). }
    split_and!.
    + simpl. apply elem_of_union. right. by apply (pl_used _ (sf_places _ Hs) p).
    + by apply (pl_left _ (sf_places _ Hs) p).
    + intros p'. rewrite published_with_ptr by done. intros [[-> Hn] | [Hne Hp']].
      * subst new. match goal with H : fresh_object _ _ |- _ => apply H end.
        by apply (pl_used _ (sf_places _ Hs) p).
      * apply Hne. by eapply (pl_unique _ (sf_places _ Hs)).
  - by apply safe_drop_ptr.
  - unfold StartGracePeriod. destruct (qsbr_start _) as [tk q] eqn:Hst. by eapply safe_start.
  - unfold StartGracePeriodLockFree. destruct (qsbr_start _) as [tk q] eqn:Hst. by eapply safe_start.
  - by apply safe_check.
  - by eapply safe_reserve.
  - by eapply safe_retire.
  - by apply safe_take.
  - by apply safe_destroy.
  - by apply safe_settle.
Qed.

Lemma initial_unpublished d p o : ¬ published (initial d) p o.
Proof. intros (ptr & Hp & _). simpl in Hp. by rewrite lookup_empty in Hp. Qed.

Lemma safe_initial d : Create max_readers_ = Ret d -> safe (initial d).
Proof.
  intros Hc. unfold Create in Hc. run_inv.
  assert (∀ n i, flag (replicate n false) i = false) as Hf.
  { intros n i. unfold flag. destruct (replicate n false !! i) as [b |] eqn:Hb; [| done].
    apply lookup_replicate in Hb as [-> _]. done. }
  split.
  - split; simpl; intros i; rewrite Hf; done.
  - constructor; simpl; [lia | apply init_law | constructor | apply map_Forall_empty].
  - constructor.
    + intros p ptr Hp. simpl in Hp. by rewrite lookup_empty in Hp.
    + intros p p' o Hp. by apply initial_unpublished in Hp.
    + intros p o Hp. by apply initial_unpublished in Hp.
    + constructor.
    + intros p o Hp. by apply initial_unpublished in Hp.
    + intros o Hp. by apply not_elem_of_nil in Hp.
  - assert (∀ x : nat * Ob, x ∉ (∅ : gset (nat * Ob))) as He by (intros; apply not_elem_of_empty).
    constructor; simpl; intros; exfalso; by eapply He.
Qed.

Lemma safe_reachable s : sys_reachable s -> safe s.
Proof.
  intros (d & Hc & Hr). pose proof (safe_initial d Hc) as Hs.
  induction Hr as [| s1 s2 s3 Hst _ IH]; [done |]. apply IH. by eapply safe_step.
Qed.

(** ** Properties *)

(** C20. Reclamation is safe. Whatever the interleaving of workers, writers and
    reclaimers, no worker holds an object that has been destroyed, by the
    domain or by a pointer's destructor; and no object is destroyed twice. *)
Theorem no_reader_uses_destroyed s :
  sys_reachable s ->
  (∀ i o, (i, o) ∈ held s -> o ∉ destroyed_ (dom s) ++ freed s) ∧
  NoDup (destroyed_ (dom s) ++ freed s).
Proof.
  intros Hr. apply safe_reachable in Hr as [_ _ SP SH]. split; [apply SH |].
  pose proof (pl_once _ SP) as Hn. unfold left in Hn. by apply NoDup_app in Hn as (_ & _ & (_ & _ & (_ & _ & ?)%NoDup_app)%NoDup_app).
Qed.

(** C21. [RcuPtr::Publish] keeps the writers' rule. Below the high-water mark it
    is a sequence of the system's steps: the exchange first, the grace period
    after it, and the old object retired under that grace period's token; a
    worker that reads afterwards finds the replacement. *)
Theorem publish_is_steps s p ptr new grow hw tk d' ptr' :
  ptrs s !! p = Some ptr -> fresh_object s (Some new) ->
  (∀ o, owner_ ptr = Some o -> in_flight s !! o = None) ->
  Z.of_nat (length (retired_ (dom s)) + 1 - head_ (dom s)) <= hw ->
  Publish grow hw (dom s) ptr (Some new) = Some (tk, d', ptr') ->
  ∃ s', rtc sys_step s s' ∧ dom s' = d' ∧ ptrs s' = <[p := ptr']> (ptrs s) ∧
    in_flight s' = in_flight s ∧ held s' = held s ∧ Read ptr' = Some new ∧
    issued (qsbr_ (dom s)) < tk.
Proof.
  intros Hp Hf Hnf Hhw Hpub. unfold Publish in Hpub.
  destruct (ReserveRetirements grow (dom s) 1) as [d1 |] eqn:Hres; [| done].
  assert (retired_ d1 = retired_ (dom s) ∧ head_ d1 = head_ (dom s) ∧ qsbr_ d1 = qsbr_ (dom s))
    as (Hd1 & Hd2 & Hd3).
  { unfold ReserveRetirements in Hres. case_bool_decide; [destruct (grow _); [| done] |];
      by injection Hres as <-. }
  simpl in Hpub. unfold StartGracePeriod in Hpub.
  destruct (qsbr_start (qsbr_ d1)) as [tk0 q] eqn:Hst. injection Hpub as <- <- <-.
  destruct (start_law _ _ _ Hst) as (H1 & H2 & _). rewrite Hd3 in H1.
  set (s1 := with_dom d1 s). set (s2 := fly (owner_ ptr) (with_ptr p (mk_ptr (Some new) (Some new)) (Some new) s1)).
  set (s3 := with_dom (StartGracePeriod (dom s2)).2 s2).
  assert (rtc sys_step s s3) as Hsteps.
  { eapply rtc_l; [by eapply ss_reserve |]. 
    eapply rtc_l; [exact (ss_exchange s1 p ptr (Some new) _ _ Hp Hf eq_refl) |].
    eapply rtc_l; [apply ss_start | done]. }
  assert (dom s3 = with_stats (add_started (stats_ d1)) (with_qsbr q d1)) as Hdom3.
  { unfold s3, s2, s1. simpl. unfold StartGracePeriod. simpl. by rewrite Hst. }
  destruct (owner_ ptr) as [o |] eqn:Hown; simpl.
  - exists (land o (with_dom (push_retired (mk_retired tk0 o None) (dom s3)) s3)). split_and!.
    + eapply rtc_r; [exact Hsteps |]. eapply ss_retire; [by apply lookup_insert_eq |].
      rewrite Hdom3. simpl. rewrite Hd3. lia.
    + unfold RetireErased. rewrite Hdom3. rewrite bool_decide_eq_true_2; [done |]. simpl.
      rewrite length_app, Hd1, Hd2. simpl. lia.
    + done.
    + simpl. rewrite delete_insert_id; [done |]. by apply Hnf.
    + done.
    + done.
    + lia.
  - exists s3. by split_and!; [.. | lia].
Qed.

End System.

End RcuSafe.
