(* ===== verification/Resource.v ===== *)
(** * The interface between resources, the transaction engine and RCU

    Models [core/dataplane/resource.h]: operations, references, reservations,
    the [Retirer] a publication hands replaced state to, and the virtual
    members of [Resource] and [StagedOp]. A resource is user code behind an
    abstract class, so its members are the fields of the class [Resources];
    they act on one shared [world], since resources may share tables. What the
    comments of [resource.h] ask of an implementation is the class
    [ResourceLaws]. [Domain] lists the members of [rcu::RcuDomain] the engine
    calls. *)

From S2P Require Import Prelude.
Open Scope Z_scope.

Module Res.

(** ** Operations and references *)

Inductive OpKind := kUpsert | kErase.

#[export] Instance OpKind_eq_dec : EqDecision OpKind.
Proof. solve_decision. Defined.

(** One change to one key of one resource; the value of an erase is empty. *)
Record Op (V : Type) := mk_op {
  op_resource : string;
  op_kind : OpKind;
  op_key : string;
  op_value : option V
}.
Arguments mk_op {V} _ _ _ _.
Arguments op_resource {V} _.
Arguments op_kind {V} _.
Arguments op_key {V} _.
Arguments op_value {V} _.

Definition Upsert {V} (resource key : string) (value : V) : Op V :=
  mk_op resource kUpsert key (Some value).
Definition Erase {V} (resource key : string) : Op V := mk_op resource kErase key None.

Record Reference := mk_ref { ref_resource : string; ref_key : string }.

#[export] Instance Reference_eq_dec : EqDecision Reference.
Proof. solve_decision. Defined.

Inductive Consistency := kReferential | kScopeSnapshot.

#[export] Instance Consistency_eq_dec : EqDecision Consistency.
Proof. solve_decision. Defined.

(** Upper bounds on what an operation's [Publish] asks of the retirer, each a
    [uint32_t]. *)
Record Footprint := mk_footprint { retires : Z; removals : Z; callbacks : Z }.

Definition no_footprint : Footprint := mk_footprint 0 0 0.

Record Reservation (St : Type) := mk_reservation {
  staged : St;
  references : list Reference;
  footprint : Footprint;
  existed : bool;
  previous_references : list Reference
}.
Arguments mk_reservation {St} _ _ _ _ _.
Arguments staged {St} _.
Arguments references {St} _.
Arguments footprint {St} _.
Arguments existed {St} _.
Arguments previous_references {St} _.

(** ** Calls of a publication or a removal step on the retirer *)

Inductive call (Ob Fn Af : Type) :=
  | CRetire (o : option Ob)
  | CRemoveLater (step : Fn)
  | CAfterGracePeriodStarts (fn : Af).
Arguments CRetire {Ob Fn Af} _.
Arguments CRemoveLater {Ob Fn Af} _.
Arguments CAfterGracePeriodStarts {Ob Fn Af} _.

(** ** The virtual members of [Resource] and [StagedOp] *)

Class Resources := {
  rid : Type;                       (* [Resource *] *)
  rid_eq_dec :: EqDecision rid;
  rid_countable :: Countable rid;
  value : Type;                     (* what [std::any] may hold *)
  world : Type;                     (* everything the resources' members touch *)
  staged_op : Type;                 (* [std::unique_ptr<StagedOp>] *)
  step_fn : Type;                   (* [Retirer::Step] *)
  object : Type;                    (* a retired object and its deleter *)
  after_fn : Type;                  (* [Retirer::AfterStart] *)
  name : rid -> string;
  declared_references : rid -> list string;
  key_holder : rid -> string;
  Contains : rid -> world -> string -> run bool;
  VisitReferences : rid -> world -> run (list Reference);
  HeldByKeyHolder : rid -> world -> string -> bool -> bool;
  Reserve : rid -> world -> Op value -> run (world * (string + Reservation staged_op));
  Prepare : rid -> world -> run (world * (string + ()));
  DefersErase : rid -> bool;
  ProvidedConsistency : rid -> Consistency;
  EndTransaction : rid -> world -> world;
  LiveCount : rid -> world -> Z;
  (* StagedOp *)
  Publish : world -> staged_op -> run (world * list (call object step_fn after_fn));
  Abort : world -> staged_op -> world;
  (* a removal step: [None] is std::bad_alloc, thrown having changed nothing *)
  run_step : world -> step_fn -> run (option (world * list (call object step_fn after_fn)));
  run_after : world -> after_fn -> Z -> world
}.

(** The members of [rcu::RcuDomain] the engine uses. [outstanding d r] is the
    counter of retired, not yet destroyed objects handed over for resource
    [r]. *)
Class Domain `{Resources} := {
  domain : Type;
  retire_high_water : domain -> Z;
  pending_retired : domain -> Z;
  IsComplete : domain -> Z -> bool * domain;
  StartGracePeriod : domain -> Z * domain;
  ReserveRetirements : domain -> Z -> domain;
  DomainRetire : domain -> Z -> object -> rid -> domain;
  ReclaimReady : domain -> domain;
  outstanding : domain -> rid -> Z
}.

(** ** The retirer *)

Section Retirer.
Context `{Resources}.

Record Removal := mk_removal { rm_rank : Z; rm_owner : rid; rm_step : step_fn }.

(** The vectors with the capacity reserved for each, and the operation running
    now. *)
Record Retirer := mk_retirer {
  retire_ : list (object * rid);
  after_ : list after_fn;
  removals_ : list Removal;
  capacity_ : Footprint;
  rank_ : Z;
  owner_ : option rid;
  enforce_ : bool
}.

Definition CheckRoom (r : Retirer) (used : nat) (capacity : Z) : run () :=
  check (negb (enforce_ r && bool_decide (capacity <= Z.of_nat used))).

Definition owner (r : Retirer) : run rid :=
  match owner_ r with
  | Some o => Ret o
  | None => Undef
  end.

Definition Retire (r : Retirer) (o : option object) : run Retirer :=
  match o with
  | None => Ret r
  | Some o =>
      CheckRoom r (length (retire_ r)) (retires (capacity_ r)) ;;
      own ← owner r;
      mret (mk_retirer (retire_ r ++ [(o, own)]) (after_ r) (removals_ r)
              (capacity_ r) (rank_ r) (owner_ r) (enforce_ r))
  end.

Definition RemoveLater (r : Retirer) (step : step_fn) : run Retirer :=
  CheckRoom r (length (removals_ r)) (removals (capacity_ r)) ;;
  own ← owner r;
  mret (mk_retirer (retire_ r) (after_ r) (removals_ r ++ [mk_removal (rank_ r) own step])
          (capacity_ r) (rank_ r) (owner_ r) (enforce_ r)).

Definition AfterGracePeriodStarts (r : Retirer) (fn : after_fn) : run Retirer :=
  CheckRoom r (length (after_ r)) (callbacks (capacity_ r)) ;;
  mret (mk_retirer (retire_ r) (after_ r ++ [fn]) (removals_ r) (capacity_ r)
          (rank_ r) (owner_ r) (enforce_ r)).

Definition do_call (r : Retirer) (c : call object step_fn after_fn) : run Retirer :=
  match c with
  | CRetire o => Retire r o
  | CRemoveLater step => RemoveLater r step
  | CAfterGracePeriodStarts fn => AfterGracePeriodStarts r fn
  end.

Fixpoint do_calls (r : Retirer) (cs : list (call object step_fn after_fn)) : run Retirer :=
  match cs with
  | [] => Ret r
  | c :: cs => r' ← do_call r c; do_calls r' cs
  end.

Definition empty (r : Retirer) : bool :=
  bool_decide (retire_ r = [] ∧ after_ r = []) .

End Retirer.

Definition Finish `{Domain} (r : Retirer) (d : domain) (w : world) (token : Z)
    : domain * world :=
  (foldl (fun d '(o, own) => DomainRetire d token o own) d (retire_ r),
   foldl (fun w fn => run_after w fn token) w (after_ r)).

(** ** What the engine relies on

    [committed] is the collection a resource stands for: its keys, each with
    the references its value holds. [readable] is what packet workers find,
    erased keys awaiting removal included. [tx w l P T S] says that in world
    [w] the reservations [l] are held by a transaction that has touched [T],
    of which [P] have prepared, and that the removal steps [S] have yet to
    run; [tx w [] ∅ ∅ S] is a world between transactions. *)

Section Contract.
Context `{Resources}.

Record rsv := mk_rsv { rv_rid : rid; rv_op : Op value; rv_res : Reservation staged_op }.

Definition steps_of (cs : list (call object step_fn after_fn)) : list step_fn :=
  omap (fun c => match c with CRemoveLater s => Some s | _ => None end) cs.
Definition retires_of (cs : list (call object step_fn after_fn)) : list object :=
  omap (fun c => match c with CRetire o => o | _ => None end) cs.
Definition afters_of (cs : list (call object step_fn after_fn)) : list after_fn :=
  omap (fun c => match c with CAfterGracePeriodStarts f => Some f | _ => None end) cs.

(** The calls stay within a declared footprint. *)
Definition within (fp : Footprint) (cs : list (call object step_fn after_fn)) : Prop :=
  Z.of_nat (length (retires_of cs)) <= retires fp ∧
  Z.of_nat (length (steps_of cs)) <= removals fp ∧
  Z.of_nat (length (afters_of cs)) <= callbacks fp.

(** Each component of a footprint is a small [uint32_t]. *)
Definition small_footprint (fp : Footprint) : Prop :=
  0 <= retires fp < 2 ^ 16 ∧ 0 <= removals fp < 2 ^ 16 ∧ 0 <= callbacks fp < 2 ^ 8.

(** What an operation does to its key. *)
Definition effect {V} (op : Op V) (refs : list Reference)
    (m : gmap string (list Reference)) : gmap string (list Reference) :=
  match op_kind op with
  | kUpsert => <[op_key op := refs]> m
  | kErase => delete (op_key op) m
  end.

Definition effect_readable {V} (defers : bool) (op : Op V) (refs : list Reference)
    (m : gmap string (list Reference)) : gmap string (list Reference) :=
  match op_kind op with
  | kUpsert => <[op_key op := refs]> m
  | kErase => if defers then m else delete (op_key op) m
  end.

(** Who holds which key is unchanged. *)
Definition same_held (b : bool) (w w' : world) : Prop :=
  ∀ r k, HeldByKeyHolder r w' k b = HeldByKeyHolder r w k b.

Class ResourceView := {
  committed : world -> rid -> gmap string (list Reference);
  readable : world -> rid -> gmap string (list Reference);
  tx : world -> list rsv -> gset rid -> gset rid -> list step_fn -> Prop;
  removing : step_fn -> option (rid * string)   (* the key a removal step takes away *)
}.

Definition same_view `{ResourceView} (w w' : world) : Prop :=
  (∀ r, committed w' r = committed w r) ∧ (∀ r, readable w' r = readable w r).

Definition referenced `{ResourceView} (w : world) (r : rid) (k : string) : Prop :=
  ∃ r' k' refs, committed w r' !! k' = Some refs ∧ mk_ref (name r) k ∈ refs.

Class ResourceLaws `{ResourceView} := {
  tx_perm w l P T S S' : S ≡ₚ S' -> tx w l P T S -> tx w l P T S';
  tx_readable w l P T S r k refs :
    tx w l P T S -> committed w r !! k = Some refs -> readable w r !! k = Some refs;
  tx_removing w l P T S s r k :
    tx w l P T S -> s ∈ S -> removing s = Some (r, k) -> committed w r !! k = None;

  Contains_law w l P T S r k :
    tx w l P T S -> Contains r w k = Ret (bool_decide (is_Some (committed w r !! k)));
  LiveCount_law w S r :
    tx w [] ∅ ∅ S -> LiveCount r w = Z.of_nat (size (committed w r));
  VisitReferences_law w S r :
    tx w [] ∅ ∅ S ->
    ∃ refs, VisitReferences r w = Ret refs ∧ refs ≡ₚ mjoin (map_to_list (committed w r)).*2;

  held_referenced w l T S r k :
    tx w l ∅ T S -> referenced w r k ->
    HeldByKeyHolder r w k true = HeldByKeyHolder r w k false;
  held_settled w P T S r k :
    tx w [] P T S -> HeldByKeyHolder r w k true = HeldByKeyHolder r w k false;

  Reserve_law w l T S r op :
    tx w l ∅ T S ->
    Forall (fun x => rv_rid x <> r ∨ op_key (rv_op x) <> op_key op) l ->
    op_resource op = name r -> (op_kind op = kUpsert -> op_value op <> None) ->
    ∃ w' o, Reserve r w op = Ret (w', o) ∧ same_view w w' ∧ same_held false w w' ∧
      (∀ r' k, name r <> name r' -> name r <> key_holder r' ->
         HeldByKeyHolder r' w' k true = HeldByKeyHolder r' w k true) ∧
      match o with
      | inl _ => tx w' l ∅ ({[r]} ∪ T) S
      | inr res =>
          tx w' (l ++ [mk_rsv r op res]) ∅ ({[r]} ∪ T) S ∧
          small_footprint (footprint res) ∧
          existed res = bool_decide (is_Some (committed w r !! op_key op)) ∧
          (existed res = true -> committed w r !! op_key op = Some (previous_references res)) ∧
          (op_kind op = kUpsert -> committed w r !! op_key op = None ->
             readable w r !! op_key op = None)
      end;

  Prepare_law w l P T S r :
    tx w l P T S -> r ∈ T ->
    ∃ w' o, Prepare r w = Ret (w', o) ∧ same_view w w' ∧
      same_held false w w' ∧ same_held true w w' ∧
      match o with
      | inl _ => tx w' l P T S
      | inr _ => tx w' l ({[r]} ∪ P) T S
      end;

  Publish_law w l1 x l2 P T S :
    tx w (l1 ++ x :: l2) P T S -> rv_rid x ∈ P ->
    ∃ w' cs, Publish w (staged (rv_res x)) = Ret (w', cs) ∧
      tx w' (l1 ++ l2) P T (S ++ steps_of cs) ∧ same_held true w w' ∧
      committed w' (rv_rid x) =
        effect (rv_op x) (references (rv_res x)) (committed w (rv_rid x)) ∧
      readable w' (rv_rid x) =
        effect_readable (DefersErase (rv_rid x)) (rv_op x) (references (rv_res x))
          (readable w (rv_rid x)) ∧
      (∀ r, r <> rv_rid x ->
         committed w' r = committed w r ∧ readable w' r = readable w r) ∧
      within (footprint (rv_res x)) cs ∧
      (∀ s r k, s ∈ steps_of cs -> removing s = Some (r, k) ->
         r = rv_rid x ∧ k = op_key (rv_op x));

  Abort_law w l x P T S :
    tx w (l ++ [x]) P T S ->
    tx (Abort w (staged (rv_res x))) l P T S ∧
    same_view w (Abort w (staged (rv_res x))) ∧
    same_held false w (Abort w (staged (rv_res x)));

  EndTransaction_law w P T S r :
    tx w [] P T S ->
    tx (EndTransaction r w) [] (P ∖ {[r]}) (T ∖ {[r]}) S ∧
    same_view w (EndTransaction r w) ∧ same_held false w (EndTransaction r w);

  run_step_law w S s :
    tx w [] ∅ ∅ (s :: S) ->
    ∃ o, run_step w s = Ret o ∧
      match o with
      | None => True
      | Some (w', cs) =>
          tx w' [] ∅ ∅ S ∧ (∀ r, committed w' r = committed w r) ∧
          same_held false w w' ∧
          (∀ r k, removing s <> Some (r, k) -> readable w' r !! k = readable w r !! k) ∧
          (length (retires_of cs) <= 1)%nat ∧ steps_of cs = [] ∧ afters_of cs = []
      end;

  run_after_law w S fn token :
    tx w [] ∅ ∅ S ->
    tx (run_after w fn token) [] ∅ ∅ S ∧ same_view w (run_after w fn token) ∧
    same_held false w (run_after w fn token)
}.

End Contract.

End Res.
