(* ===== verification/SlotLaws.v ===== *)
(** * Slot resources keep the engine's contract

    The view of a slot table the engine's promises are about (committed keys
    are the live slots, readable keys the non-null ones) and the proof that
    slot resources satisfy [ResourceLaws]. *)

From S2P Require Import Prelude SlotTable Resource SlotResource.
Import Res SlotRes.
Open Scope Z_scope.

Module SlotLaws.

Section Tables.
Context {T : Type}.
Implicit Types (tb : Slot.t T) (i : nat).

(** ** One table *)

(** The object the writer's side shows, and the one readers find. *)
Definition live_at tb i : option (Slot.object T) :=
  match Slot.states_ tb !! i, Slot.slots_ tb !! i with
  | Some kLive, Some (Some o) => Some o
  | _, _ => None
  end.

Definition shown_at tb i : option (Slot.object T) :=
  match Slot.slots_ tb !! i with
  | Some (Some o) => Some o
  | _ => None
  end.

(** A table in which every live or retiring slot has its object. *)
Record good tb : Prop := {
  gd_abs : ∃ m, Slot.abstracts tb m;
  gd_full : ∀ i s, Slot.states_ tb !! i = Some s -> s <> kFree -> is_Some (shown_at tb i)
}.

Lemma gd_wf tb : good tb -> Slot.wf tb.
Proof. intros [[m [Hwf _]] _]. done. Qed.

Lemma live_shown tb i o : live_at tb i = Some o -> shown_at tb i = Some o.
Proof.
  unfold live_at, shown_at. destruct (Slot.states_ tb !! i) as [[] |]; try done.
Qed.

Lemma live_at_spec tb i o :
  live_at tb i = Some o <-> Slot.states_ tb !! i = Some kLive ∧ shown_at tb i = Some o.
Proof.
  unfold live_at, shown_at. destruct (Slot.states_ tb !! i) as [[] |]; by split; [| intros []].
Qed.

(** Every id with a state is in range. *)
Lemma state_valid tb i s :
  good tb -> Slot.states_ tb !! i = Some s -> s <> kFree -> Slot.ValidId tb i = true.
Proof.
  intros Hg Hs Hne. pose proof (gd_wf _ Hg) as [_ Hlen _ _ Hz _].
  apply lookup_lt_Some in Hs as Hlt. unfold Slot.ValidId.
  rewrite !bool_decide_eq_true_2; [done | lia |]. intros ->. congruence.
Qed.

Lemma valid_state tb i :
  good tb -> Slot.ValidId tb i = true -> ∃ s x,
    Slot.states_ tb !! i = Some s ∧ Slot.slots_ tb !! i = Some x ∧ i <> 0%nat.
Proof.
  intros Hg Hv. destruct (Slot.wf_valid tb i (gd_wf _ Hg) Hv) as (H0 & _ & s & x & Hs & Hx). eauto.
Qed.

Lemma contains_spec tb i :
  good tb -> Slot.Contains tb i = Ret (bool_decide (is_Some (live_at tb i))).
Proof.
  intros Hg. unfold Slot.Contains. destruct (Slot.ValidId tb i) eqn:Hv.
  - destruct (valid_state _ _ Hg Hv) as (s & x & Hs & Hx & _).
    unfold Slot.state. rewrite (at_lookup _ _ _ Hs). simpl. f_equal. apply bool_decide_ext. split.
    + intros ->. destruct (gd_full _ Hg _ _ Hs ltac:(done)) as [o Ho]. exists o.
      by apply live_at_spec.
    + intros [o [Hl _]%live_at_spec]. congruence.
  - rewrite bool_decide_eq_false_2; [done |]. intros [o [Hl _]%live_at_spec].
    by rewrite (state_valid _ _ _ Hg Hl) in Hv.
Qed.

Lemma current_spec tb i : good tb -> Slot.Current tb i = Ret (live_at tb i).
Proof.
  intros Hg. unfold Slot.Current. rewrite contains_spec by done. simpl.
  case_bool_decide as Hl.
  - destruct Hl as [o Hl]. apply live_at_spec in Hl as Hl2. destruct Hl2 as [_ Hsh].
    unfold shown_at in Hsh. destruct (Slot.slots_ tb !! i) as [[x |] |] eqn:Hx; try done.
    rewrite (at_lookup _ _ _ Hx), Hl. congruence.
  - f_equal. symmetry. by apply eq_None_not_Some.
Qed.

Lemma can_publish_spec tb i :
  good tb -> Slot.ValidId tb i = true ->
  Slot.CanPublish tb i = Ret (bool_decide (Slot.states_ tb !! i <> Some kRetiring)).
Proof.
  intros Hg Hv. destruct (valid_state _ _ Hg Hv) as (s & x & Hs & Hx & _).
  unfold Slot.CanPublish, Slot.state. rewrite Hv, (at_lookup _ _ _ Hs). simpl. f_equal.
  apply bool_decide_ext. rewrite Hs. split; congruence.
Qed.

(** ** The three writer operations *)

Record after_write tb i s x tb' : Prop := {
  aw_good : good tb';
  aw_slots : Slot.slots_ tb' = <[i := x]> (Slot.slots_ tb);
  aw_states : Slot.states_ tb' = <[i := s]> (Slot.states_ tb);
  aw_capacity : Slot.capacity_ tb' = Slot.capacity_ tb;
  aw_objects : Slot.objects_ tb' = Slot.objects_ tb
}.

Lemma after_write_good tb i s0 s x tb' :
  good tb -> Slot.states_ tb !! i = Some s0 -> (s <> kFree -> x <> None) ->
  (∃ m, Slot.abstracts tb' m) -> Slot.slots_ tb' = <[i := x]> (Slot.slots_ tb) ->
  Slot.states_ tb' = <[i := s]> (Slot.states_ tb) -> good tb'.
Proof.
  intros Hg Hs0 Hx Hm Hsl Hst. constructor; [done |]. intros j s1 Hj Hne.
  pose proof (gd_wf _ Hg) as [Hl1 Hl2 _ _ _ _]. apply lookup_lt_Some in Hs0 as Hlt.
  unfold shown_at. rewrite Hsl. rewrite Hst in Hj. destruct (decide (i = j)) as [<- | Hij].
  - rewrite list_lookup_insert_eq in Hj by done. injection Hj as <-.
    rewrite list_lookup_insert_eq by lia. destruct x as [o |]; [by eauto |]. by destruct (Hx Hne).
  - rewrite list_lookup_insert_ne in Hj by done. rewrite list_lookup_insert_ne by done.
    apply (gd_full _ Hg _ _ Hj Hne).
Qed.

Lemma publish_spec tb i o :
  good tb -> Slot.ValidId tb i = true -> Slot.states_ tb !! i <> Some kRetiring ->
  Slot.slab o = Slot.objects_ tb ->
  ∃ tb', Slot.Publish tb i (Some o) = Ret (tb', live_at tb i) ∧ after_write tb i kLive (Some o) tb'.
Proof.
  intros Hg Hv Hr Hslab. destruct (valid_state _ _ Hg Hv) as (s & x & Hs & Hx & _).
  pose proof (gd_abs _ Hg) as [m Hm].
  pose proof (Slot.slot_step_simulation tb m (Slot.OPublish i (Some o)) Hm) as Hsim. simpl in Hsim.
  unfold Slot.Publish in *. rewrite can_publish_spec in * by done.
  rewrite bool_decide_eq_true_2 in * by done. simpl in *. rewrite Hslab in *.
  rewrite (bool_decide_eq_true_2 (Slot.objects_ tb = Slot.objects_ tb)) in * by done. simpl in *.
  rewrite (at_lookup _ _ _ Hx), (at_lookup _ _ _ Hs) in *. simpl in *.
  destruct Hsim as (m' & _ & Hm' & _). eexists. split.
  - do 2 f_equal. unfold live_at. rewrite Hs, Hx. destruct s; [| by destruct x | congruence].
    pose proof (Slot.wf_free _ (gd_wf _ Hg) _ Hs). congruence.
  - constructor; try done. by apply (after_write_good tb i s kLive (Some o)); eauto.
Qed.

Lemma retire_spec tb i o :
  good tb -> live_at tb i = Some o ->
  ∃ tb', Slot.Retire tb i = Ret tb' ∧ after_write tb i kRetiring (Some o) tb'.
Proof.
  intros Hg Hl. apply live_at_spec in Hl as Hl2. destruct Hl2 as [Hs Hsh].
  pose proof (gd_abs _ Hg) as [m Hm].
  pose proof (Slot.slot_step_simulation tb m (Slot.ORetire i) Hm) as Hsim. simpl in Hsim.
  unfold Slot.Retire in *. rewrite contains_spec in * by done. rewrite Hl in *. simpl in *.
  destruct Hsim as (m' & _ & Hm' & _). eexists. split; [done |].
  assert (Slot.slots_ tb = <[i := Some o]> (Slot.slots_ tb)) as Hid.
  { symmetry. apply list_insert_id. unfold shown_at in Hsh.
    destruct (Slot.slots_ tb !! i) as [[] |]; congruence. }
  constructor; try done. by apply (after_write_good tb i kLive kRetiring (Some o)); eauto.
Qed.

Lemma unpublish_spec tb i :
  good tb -> Slot.states_ tb !! i = Some kRetiring ->
  ∃ tb', Slot.Unpublish tb i = Ret (tb', shown_at tb i) ∧ after_write tb i kFree None tb'.
Proof.
  intros Hg Hs. pose proof (state_valid _ _ _ Hg Hs ltac:(done)) as Hv.
  destruct (valid_state _ _ Hg Hv) as (s & x & Hs' & Hx & _).
  pose proof (gd_abs _ Hg) as [m Hm].
  pose proof (Slot.slot_step_simulation tb m (Slot.OUnpublish i) Hm) as Hsim. simpl in Hsim.
  unfold Slot.Unpublish, Slot.state in *. rewrite (at_lookup _ _ _ Hs) in *. simpl in *.
  rewrite (at_lookup _ _ _ Hx) in *. simpl in *.
  destruct Hsim as (m' & _ & Hm' & _). eexists. split.
  - do 2 f_equal. unfold shown_at. rewrite Hx. by destruct x.
  - constructor; try done. by apply (after_write_good tb i kRetiring kFree None); eauto.
Qed.

(** What a write does to the two views. *)
Lemma after_write_live tb i s x tb' j :
  is_Some (Slot.states_ tb !! i) -> good tb -> after_write tb i s x tb' ->
  live_at tb' j = if decide (i = j) then (if decide (s = kLive) then x else None) else live_at tb j.
Proof.
  intros [s0 Hs] Hg [_ Hsl Hst _ _]. unfold live_at. rewrite Hsl, Hst.
  pose proof (gd_wf _ Hg) as [Hl1 Hl2 _ _ _ _]. apply lookup_lt_Some in Hs as Hlt.
  case_decide as Hij; [subst | by rewrite !list_lookup_insert_ne].
  rewrite !list_lookup_insert_eq by lia. by destruct s, x.
Qed.

Lemma after_write_shown tb i s x tb' j :
  is_Some (Slot.states_ tb !! i) -> good tb -> after_write tb i s x tb' ->
  shown_at tb' j = if decide (i = j) then x else shown_at tb j.
Proof.
  intros [s0 Hs] Hg [_ Hsl Hst _ _]. unfold shown_at. rewrite Hsl.
  pose proof (gd_wf _ Hg) as [Hl1 Hl2 _ _ _ _]. apply lookup_lt_Some in Hs as Hlt.
  case_decide as Hij; [subst | by rewrite !list_lookup_insert_ne].
  rewrite !list_lookup_insert_eq by lia. by destruct x.
Qed.

End Tables.

(** ** Collections by key *)

Section Keyed.
Context {A : Type} (idw : nat).

(** The map that has [f i] at the key of id [i], for the ids below [n]. *)
Definition entries (f : nat -> option A) (n : nat) : list (string * A) :=
  omap (fun i => pair (EncodeKey idw i) <$> f i) (seq 0 n).

Definition keyed (f : nat -> option A) (n : nat) : gmap string A := list_to_map (entries f n).

Lemma entries_nodup f n : Z.of_nat n <= ids idw -> NoDup (entries f n).*1.
Proof.
  intros Hn. unfold entries. induction n as [| n IH]; [constructor |].
  rewrite seq_S, omap_app, fmap_app. simpl. apply NoDup_app. split_and!.
  - apply IH. lia.
  - intros k Hk Hin. destruct (f n) as [a |]; [| by apply not_elem_of_nil in Hin].
    apply list_elem_of_singleton in Hin as ->.
    apply list_elem_of_fmap in Hk as ([k a'] & Heq & Hk).
    apply list_elem_of_omap in Hk as (i & Hi & Hfi). apply elem_of_seq in Hi.
    destruct (f i); [| done]. injection Hfi as <- _. simpl in Heq.
    pose proof (key_decode_encode idw n ltac:(lia)) as H1. rewrite Heq, key_decode_encode in H1 by lia.
    injection H1. lia.
  - destruct (f n); [apply NoDup_singleton | constructor].
Qed.

Lemma elem_of_entries f n k a :
  Z.of_nat n <= ids idw ->
  (k, a) ∈ entries f n <-> ∃ i, DecodeKey idw k = Some i ∧ (i < n)%nat ∧ f i = Some a.
Proof.
  intros Hn. unfold entries. rewrite list_elem_of_omap. split.
  - intros (i & Hi & Hfi). apply elem_of_seq in Hi. destruct (f i) as [a' |] eqn:Hf; [| done].
    injection Hfi as <- ->. exists i. rewrite key_decode_encode by lia. split_and!; [done | lia | done].
  - intros (i & Hd & Hlt & Hf). exists i. split; [apply elem_of_seq; lia |]. rewrite Hf. simpl.
    apply encode_decode in Hd as [-> _]. done.
Qed.

Lemma keyed_lookup f n k :
  Z.of_nat n <= ids idw -> (∀ i, (n <= i)%nat -> f i = None) ->
  keyed f n !! k = DecodeKey idw k ≫= f.
Proof.
  intros Hn Hf. destruct (keyed f n !! k) as [a |] eqn:Hk.
  - apply elem_of_list_to_map_2, elem_of_entries in Hk as (i & -> & _ & Hfi); done.
  - destruct (DecodeKey idw k) as [i |] eqn:Hd; [| done]. simpl. destruct (f i) as [a |] eqn:Hfi; [| done].
    apply not_elem_of_list_to_map_2 in Hk. destruct Hk. apply list_elem_of_fmap. exists (k, a).
    split; [done |]. apply elem_of_entries; [done |]. exists i. split_and!; [done | | done].
    destruct (decide (i < n)%nat); [done |]. rewrite Hf in Hfi by lia. done.
Qed.

Lemma keyed_to_list f n : Z.of_nat n <= ids idw -> map_to_list (keyed f n) ≡ₚ entries f n.
Proof. intros Hn. apply map_to_list_to_map. by apply entries_nodup. Qed.

(** Two collections that agree on every id agree. *)
Lemma keyed_ext f g n n' :
  Z.of_nat n <= ids idw -> Z.of_nat n' <= ids idw ->
  (∀ i, (n <= i)%nat -> f i = None) -> (∀ i, (n' <= i)%nat -> g i = None) ->
  (∀ i, f i = g i) -> keyed f n = keyed g n'.
Proof.
  intros Hn Hn' Hf Hg Hfg. apply map_eq. intros k. rewrite !keyed_lookup by done.
  destruct (DecodeKey idw k); [apply Hfg | done].
Qed.

End Keyed.

Section View.
Context {T : Type} (idw : nat).
Context (references_ : string -> T -> list Reference) (may_reference : string -> list string).

#[local] Instance slots : Resources := slot_resources idw references_ may_reference.

Definition live_refs (r : string) (tb : Slot.t T) (i : nat) : option (list Reference) :=
  references_ r ∘ Slot.value <$> live_at tb i.
Definition shown_refs (r : string) (tb : Slot.t T) (i : nat) : option (list Reference) :=
  references_ r ∘ Slot.value <$> shown_at tb i.

Definition slot_committed (w : @tables T) (r : string) : gmap string (list Reference) :=
  keyed idw (live_refs r (w r)) (S (Slot.capacity_ (w r))).
Definition slot_readable (w : @tables T) (r : string) : gmap string (list Reference) :=
  keyed idw (shown_refs r (w r)) (S (Slot.capacity_ (w r))).

(** A reservation held for [x]: the slot is still as it was reserved. *)
Definition staged_ok (w : @tables T) (x : rsv) : Prop :=
  ∃ id, DecodeKey idw (op_key (rv_op x)) = Some id ∧ Slot.ValidId (w (rv_rid x)) id = true ∧
  match op_kind (rv_op x) with
  | kUpsert => ∃ o, staged (rv_res x) = PublishOp (rv_rid x) id o ∧
      Slot.slab o = Slot.objects_ (w (rv_rid x)) ∧
      references (rv_res x) = references_ (rv_rid x) (Slot.value o) ∧
      Slot.states_ (w (rv_rid x)) !! id <> Some kRetiring ∧
      footprint (rv_res x) =
        mk_footprint (if decide (live_at (w (rv_rid x)) id = None) then 0 else 1) 0 0
  | kErase => staged (rv_res x) = UnpublishOp (rv_rid x) id ∧
      live_at (w (rv_rid x)) id <> None ∧ footprint (rv_res x) = mk_footprint 0 1 0
  end.

Definition place_of (x : rsv) : string * string := (rv_rid x, op_key (rv_op x)).

(** A world with reservations [l] and removal steps [S] still to run. *)
Record slot_tx (w : @tables T) (l : list rsv) (P U : gset string) (S : list slot_step) : Prop := {
  tx_good : ∀ r, good (w r);
  tx_fits : ∀ r, Z.of_nat (Datatypes.S (Slot.capacity_ (w r))) <= ids idw;
  tx_steps : NoDup S ∧ ∀ r i, (r, i) ∈ S <-> Slot.states_ (w r) !! i = Some kRetiring;
  tx_staged : Forall (staged_ok w) l ∧ NoDup (place_of <$> l)
}.

#[local] Instance slot_view : ResourceView := {|
  committed := slot_committed;
  readable := slot_readable;
  tx := slot_tx;
  removing := fun s => Some (s.1, EncodeKey idw s.2)
|}.

Lemma live_refs_none r tb i : good tb -> (S (Slot.capacity_ tb) <= i)%nat -> live_refs r tb i = None.
Proof.
  intros Hg Hi. unfold live_refs, live_at. pose proof (gd_wf _ Hg) as [_ Hl _ _ _ _].
  by rewrite (lookup_ge_None_2 (Slot.states_ tb)) by lia.
Qed.

Lemma shown_refs_none r tb i : good tb -> (S (Slot.capacity_ tb) <= i)%nat -> shown_refs r tb i = None.
Proof.
  intros Hg Hi. unfold shown_refs, shown_at. pose proof (gd_wf _ Hg) as [Hl _ _ _ _ _].
  by rewrite (lookup_ge_None_2 (Slot.slots_ tb)) by lia.
Qed.

Lemma committed_lookup w l P U S r k :
  slot_tx w l P U S -> slot_committed w r !! k = DecodeKey idw k ≫= live_refs r (w r).
Proof.
  intros Htx. apply keyed_lookup; [apply (tx_fits _ _ _ _ _ Htx) |].
  intros i. apply live_refs_none, (tx_good _ _ _ _ _ Htx).
Qed.

Lemma readable_lookup w l P U S r k :
  slot_tx w l P U S -> slot_readable w r !! k = DecodeKey idw k ≫= shown_refs r (w r).
Proof.
  intros Htx. apply keyed_lookup; [apply (tx_fits _ _ _ _ _ Htx) |].
  intros i. apply shown_refs_none, (tx_good _ _ _ _ _ Htx).
Qed.

(** ** Lookups *)

Lemma slot_contains w l P U S r k :
  slot_tx w l P U S ->
  Contains idw r w k = Ret (bool_decide (is_Some (slot_committed w r !! k))).
Proof.
  intros Htx. rewrite (committed_lookup _ _ _ _ _ _ _ Htx). unfold Contains.
  destruct (DecodeKey idw k) as [i |]; simpl.
  - rewrite contains_spec by apply (tx_good _ _ _ _ _ Htx). f_equal. apply bool_decide_ext.
    unfold live_refs. by rewrite fmap_is_Some.
  - done.
Qed.

Lemma length_omap_seq {A B} (Q : A -> Prop) `{!∀ x, Decision (Q x)} (l : list A) (g : nat -> option B) :
  (∀ i x, l !! i = Some x -> is_Some (g i) <-> Q x) ->
  length (omap g (seq 0 (length l))) = length (filter Q l).
Proof.
  induction l as [| x l IH] using rev_ind; intros Hg; [done |].
  rewrite length_app, seq_app, omap_app, filter_app, !length_app. rewrite IH.
  - f_equal. simpl. rewrite filter_cons, filter_nil.
    specialize (Hg (length l) x). rewrite lookup_app_r, Nat.sub_diag in Hg by lia.
    specialize (Hg eq_refl). destruct (g (length l)); case_decide as HQ; simpl; try done.
    + by destruct HQ; apply Hg.
    + apply Hg in HQ. by destruct HQ.
  - intros i y Hi. apply Hg. rewrite lookup_app_l; [done |]. by eapply lookup_lt_Some.
Qed.

Lemma slot_live_count w l P U S r :
  slot_tx w l P U S -> LiveCount r w = Z.of_nat (size (slot_committed w r)).
Proof.
  intros Htx. pose proof (tx_good _ _ _ _ _ Htx r) as Hg. pose proof (gd_wf _ Hg) as [_ Hl _ Hs _ _].
  unfold LiveCount. rewrite Hs. f_equal. rewrite <- length_map_to_list. unfold slot_committed.
  rewrite (keyed_to_list idw _ _ (tx_fits _ _ _ _ _ Htx r)). unfold entries.
  replace (Datatypes.S (Slot.capacity_ (w r))) with (length (Slot.states_ (w r))) by lia.
  symmetry. apply length_omap_seq. intros i s Hi. unfold live_refs. rewrite !fmap_is_Some. split.
  - intros [o [Ho _]%live_at_spec]. congruence.
  - intros <-. destruct (gd_full _ Hg _ _ Hi ltac:(done)) as [o Ho]. exists o. by apply live_at_spec.
Qed.

Lemma visit_ids_spec r tb l :
  good tb -> visit_ids references_ r tb l = Ret (mjoin (omap (live_refs r tb) l)).
Proof.
  intros Hg. induction l as [| i l IH]; [done |]. simpl. rewrite current_spec by done. simpl.
  rewrite IH. simpl. replace (live_refs r tb i) with (references_ r ∘ Slot.value <$> live_at tb i) by done.
  by destruct (live_at tb i).
Qed.

Lemma entries_snd {A} (f : nat -> option A) l :
  (omap (fun i => pair (EncodeKey idw i) <$> f i) l).*2 = omap f l.
Proof. induction l as [| i l IH]; [done |]. simpl. destruct (f i); simpl; [by f_equal | exact IH]. Qed.

Lemma slot_visit w l P U S r :
  slot_tx w l P U S ->
  ∃ refs, VisitReferences references_ r w = Ret refs ∧
    refs ≡ₚ mjoin (map_to_list (slot_committed w r)).*2.
Proof.
  intros Htx. pose proof (tx_good _ _ _ _ _ Htx r) as Hg. unfold VisitReferences.
  rewrite visit_ids_spec by done. eexists. split; [done |]. unfold slot_committed.
  rewrite (keyed_to_list idw _ _ (tx_fits _ _ _ _ _ Htx r)). unfold entries. rewrite entries_snd.
  assert (live_refs r (w r) 0 = None) as H0.
  { unfold live_refs, live_at. by rewrite (Slot.wf_zero _ (gd_wf _ Hg)). }
  simpl. by rewrite H0.
Qed.

(** ** Reserving *)

Lemma slot_reserve w l P U S r op :
  slot_tx w l P U S ->
  Forall (fun x => rv_rid x <> r ∨ op_key (rv_op x) <> op_key op) l ->
  ∃ o, Reserve idw references_ r w op = Ret (w, o) ∧
    match o with
    | inl _ => True
    | inr res =>
        slot_tx w (l ++ [mk_rsv r op res]) P U S ∧ small_footprint (footprint res) ∧
        existed res = bool_decide (is_Some (slot_committed w r !! op_key op)) ∧
        (existed res = true -> slot_committed w r !! op_key op = Some (previous_references res)) ∧
        (op_kind op = kUpsert -> slot_committed w r !! op_key op = None ->
           slot_readable w r !! op_key op = None)
    end.
Proof.
  intros Htx Hl. pose proof (tx_good _ _ _ _ _ Htx r) as Hg.
  rewrite (committed_lookup _ _ _ _ _ _ _ Htx), (readable_lookup _ _ _ _ _ _ _ Htx).
  unfold Reserve. destruct (DecodeKey idw (op_key op)) as [id |] eqn:Hd; simpl; [| by eexists].
  destruct (Slot.ValidId (w r) id) eqn:Hv; simpl; [| by eexists].
  assert (∀ res, staged_ok w (mk_rsv r op res) -> slot_tx w (l ++ [mk_rsv r op res]) P U S) as Hmore.
  { intros res Hok. destruct Htx as [H1 H2 H3 [H4 H5]]. constructor; try done. split.
    - apply Forall_app. split; [done | by apply Forall_singleton].
    - rewrite fmap_app. apply NoDup_app. split_and!; [done | | apply NoDup_singleton].
      intros p Hp Hin. apply list_elem_of_singleton in Hin as ->.
      apply list_elem_of_fmap in Hp as (x & Heq & Hx). rewrite Forall_forall in Hl.
      injection Heq as Hr Hk. by destruct (Hl _ Hx) as [Hn | Hn]; destruct Hn; symmetry. }
  destruct (op_kind op) eqn:Hkind.
  - unfold reserve_upsert. rewrite can_publish_spec by done. simpl.
    case_bool_decide as Hret; simpl; [| by eexists].
    destruct (op_value op) as [[v |] |]; [| by eexists..]. rewrite current_spec by done. simpl.
    destruct (live_at (w r) id) as [p |] eqn:Hlive; simpl.
    + eexists. split; [done |]. split_and!.
      * apply Hmore. exists id. split_and!; [done.. |]. simpl. rewrite Hkind, Hlive.
        eexists. split_and!; try done.
      * by split_and!.
      * unfold live_refs. rewrite Hlive. by rewrite bool_decide_eq_true_2 by by eexists.
      * intros _. unfold live_refs. by rewrite Hlive.
      * unfold live_refs. by rewrite Hlive.
    + eexists. split; [done |]. split_and!.
      * apply Hmore. exists id. split_and!; [done.. |]. simpl. rewrite Hkind, Hlive.
        eexists. split_and!; try done.
      * by split_and!.
      * unfold live_refs. by rewrite Hlive.
      * done.
      * intros _ _. unfold shown_refs. destruct (valid_state _ _ Hg Hv) as (s & x & Hs & Hx & _).
        unfold shown_at. rewrite Hx. destruct s.
        -- pose proof (Slot.wf_free _ (gd_wf _ Hg) _ Hs). by simplify_eq.
        -- destruct (gd_full _ Hg _ _ Hs ltac:(done)) as [o Ho].
           assert (live_at (w r) id = Some o) by by apply live_at_spec. congruence.
        -- done.
  - unfold reserve_erase. rewrite contains_spec by done. simpl. case_bool_decide as Hlive; simpl; [| by eexists].
    rewrite current_spec by done. simpl. destruct Hlive as [o Ho]. rewrite Ho. eexists. split; [done |].
    split_and!.
    + apply Hmore. exists id. split_and!; [done.. |]. simpl. rewrite Hkind. split_and!; try done.
      by rewrite Ho.
    + by split_and!.
    + unfold live_refs. rewrite Ho. by rewrite bool_decide_eq_true_2 by by eexists.
    + intros _. unfold live_refs. by rewrite Ho.
    + done.
Qed.

(** ** Writing one slot *)

Lemma set_table_eq (w : @tables T) r tb : set_table w r tb r = tb.
Proof. unfold set_table. by rewrite decide_True. Qed.

Lemma set_table_ne (w : @tables T) r tb r' : r' <> r -> set_table w r tb r' = w r'.
Proof. intros. unfold set_table. by rewrite decide_False. Qed.

Section Write.
Context (w : @tables T) (r : string) (i : nat) (s : SlotState) (x : option (Slot.object T)).
Context (tb' : Slot.t T).
Context (Hgood : ∀ r, good (w r)).
Context (Hfits : ∀ r, Z.of_nat (S (Slot.capacity_ (w r))) <= ids idw).
Context (Hstate : is_Some (Slot.states_ (w r) !! i)).
Context (Hw : after_write (w r) i s x tb').

Local Abbreviation w' := (set_table w r tb').

Lemma write_good r' : good (w' r').
Proof.
  destruct (decide (r' = r)) as [-> |]; [rewrite set_table_eq; apply Hw | by rewrite set_table_ne].
Qed.

Lemma write_fits r' : Z.of_nat (S (Slot.capacity_ (w' r'))) <= ids idw.
Proof.
  destruct (decide (r' = r)) as [-> |]; [| by rewrite set_table_ne].
  rewrite set_table_eq, (aw_capacity _ _ _ _ _ Hw). apply Hfits.
Qed.

Lemma write_other r' :
  r' <> r -> slot_committed w' r' = slot_committed w r' ∧ slot_readable w' r' = slot_readable w r'.
Proof. intros Hne. unfold slot_committed, slot_readable. by rewrite set_table_ne. Qed.

Lemma write_committed k :
  slot_committed w' r !! k =
  if decide (DecodeKey idw k = Some i)
  then (if decide (s = kLive) then references_ r ∘ Slot.value <$> x else None)
  else slot_committed w r !! k.
Proof.
  unfold slot_committed.
  rewrite (keyed_lookup idw (live_refs r (w' r))); [| apply write_fits | intros j; apply live_refs_none, write_good].
  rewrite (keyed_lookup idw (live_refs r (w r))); [| apply Hfits | intros j; apply live_refs_none, Hgood].
  rewrite set_table_eq. destruct (DecodeKey idw k) as [j |]; simpl; [| done].
  unfold live_refs. rewrite (after_write_live (w r) i s x) by done.
  destruct (decide (i = j)) as [-> | Hij].
  - rewrite (decide_True (P := Some j = Some j)) by done. by case_decide.
  - by rewrite decide_False by congruence.
Qed.

Lemma write_readable k :
  slot_readable w' r !! k =
  if decide (DecodeKey idw k = Some i) then references_ r ∘ Slot.value <$> x
  else slot_readable w r !! k.
Proof.
  unfold slot_readable.
  rewrite (keyed_lookup idw (shown_refs r (w' r))); [| apply write_fits | intros j; apply shown_refs_none, write_good].
  rewrite (keyed_lookup idw (shown_refs r (w r))); [| apply Hfits | intros j; apply shown_refs_none, Hgood].
  rewrite set_table_eq. destruct (DecodeKey idw k) as [j |]; simpl; [| done].
  unfold shown_refs. rewrite (after_write_shown (w r) i s x) by done.
  destruct (decide (i = j)) as [-> | Hij]; [by rewrite decide_True |].
  by rewrite decide_False by congruence.
Qed.

Lemma write_states r' j :
  Slot.states_ (w' r') !! j = if decide (r' = r ∧ j = i) then Some s else Slot.states_ (w r') !! j.
Proof.
  destruct (decide (r' = r)) as [-> | Hne].
  - rewrite set_table_eq, (aw_states _ _ _ _ _ Hw). destruct (decide (j = i)) as [-> | Hj].
    + rewrite decide_True by done. apply list_lookup_insert_eq. destruct Hstate as [s0 Hs].
      by eapply lookup_lt_Some.
    + rewrite decide_False by tauto. by apply list_lookup_insert_ne.
  - rewrite set_table_ne, decide_False by tauto. done.
Qed.

(** Reservations on other slots are held as before. *)
Lemma write_staged y :
  (rv_rid y <> r ∨ DecodeKey idw (op_key (rv_op y)) <> Some i) -> staged_ok w y -> staged_ok w' y.
Proof.
  intros Hne (id & Hd & Hv & Hk). exists id.
  assert (Slot.states_ (w' (rv_rid y)) !! id = Slot.states_ (w (rv_rid y)) !! id) as Hst.
  { rewrite write_states. rewrite decide_False; [done |]. intros [H1 ->]. by destruct Hne. }
  assert (live_at (w' (rv_rid y)) id = live_at (w (rv_rid y)) id) as Hl.
  { destruct (decide (rv_rid y = r)) as [Heq | Hner].
    - rewrite Heq in *. rewrite set_table_eq, (after_write_live (w r) i s x) by done.
      rewrite decide_False; [done |]. intros ->. by destruct Hne.
    - by rewrite set_table_ne. }
  assert (Slot.objects_ (w' (rv_rid y)) = Slot.objects_ (w (rv_rid y)) ∧
          Slot.ValidId (w' (rv_rid y)) id = Slot.ValidId (w (rv_rid y)) id) as [Hob Hva].
  { destruct (decide (rv_rid y = r)) as [Heq | Hner]; [| by rewrite set_table_ne].
    rewrite Heq, set_table_eq. unfold Slot.ValidId. destruct Hw as [_ _ _ -> ->]. done. }
  rewrite Hva. split_and!; [done.. |]. destruct (op_kind (rv_op y)).
  - destruct Hk as (o & H1 & H2 & H3 & H4 & H5). exists o. rewrite Hob, Hst, Hl. done.
  - rewrite Hl. done.
Qed.

End Write.

(** ** Publishing *)

Lemma staged_other w l1 x l2 P U S y id :
  slot_tx w (l1 ++ x :: l2) P U S -> DecodeKey idw (op_key (rv_op x)) = Some id -> y ∈ l1 ++ l2 ->
  staged_ok w y ∧ (rv_rid y <> rv_rid x ∨ DecodeKey idw (op_key (rv_op y)) <> Some id).
Proof.
  intros [_ _ _ [Hs Hnd]] Hd Hy. rewrite Forall_forall in Hs. split.
  - apply Hs. apply elem_of_app in Hy as [Hy | Hy]; apply elem_of_app; [by left | right; by right].
  - destruct (decide (rv_rid y = rv_rid x)) as [Hr |]; [right | by left]. intros Hd'.
    pose proof (decode_inj _ _ _ _ Hd Hd') as Hk.
    rewrite fmap_app, fmap_cons, <- Permutation_middle in Hnd. apply NoDup_cons in Hnd as [Hni _].
    apply Hni. rewrite <- fmap_app. apply list_elem_of_fmap. exists y. split; [| done].
    unfold place_of. by rewrite Hr, Hk.
Qed.

Lemma tx_after_write w l1 x l2 P U S id s0 s o tb' new :
  slot_tx w (l1 ++ x :: l2) P U S -> DecodeKey idw (op_key (rv_op x)) = Some id ->
  Slot.states_ (w (rv_rid x)) !! id = Some s0 -> s0 <> kRetiring ->
  after_write (w (rv_rid x)) id s o tb' ->
  new = (if decide (s = kRetiring) then [(rv_rid x, id)] else []) ->
  slot_tx (set_table w (rv_rid x) tb') (l1 ++ l2) P U (S ++ new).
Proof.
  intros Htx Hd Hs Hnr Hw ->. pose proof Htx as [Hg Hf [HS HSin] [Hst Hnd]].
  assert (is_Some (Slot.states_ (w (rv_rid x)) !! id)) as Hsome by by eexists.
  constructor.
  - by eapply write_good.
  - by eapply write_fits.
  - assert ((rv_rid x, id) ∉ S) as Hni by (intros Hin; apply HSin in Hin; congruence). split.
    + case_decide; [| by rewrite app_nil_r]. apply NoDup_app. split_and!; [done | | apply NoDup_singleton].
      intros p Hp Hin. by apply list_elem_of_singleton in Hin as ->.
    + intros r j. rewrite (write_states w (rv_rid x) id s o tb' Hsome Hw), elem_of_app, HSin.
      destruct (decide (r = rv_rid x ∧ j = id)) as [[-> ->] | Hne].
      * rewrite Hs. case_decide as Hr.
        -- rewrite list_elem_of_singleton. split; [congruence | by right].
        -- split; [intros [? | Hn]; [congruence | by apply not_elem_of_nil in Hn] | congruence].
      * split; [| by left]. intros [? | Hin]; [done |]. destruct Hne.
        case_decide; [| by apply not_elem_of_nil in Hin].
        apply list_elem_of_singleton in Hin. by injection Hin.
  - split.
    + apply Forall_forall. intros y Hy. destruct (staged_other _ _ _ _ _ _ _ _ _ Htx Hd Hy) as [Hok Hne].
      by eapply write_staged.
    + rewrite fmap_app, fmap_cons, <- Permutation_middle in Hnd. rewrite fmap_app.
      by apply NoDup_cons in Hnd as [_ ?].
Qed.

Lemma decode_key_iff k k' id :
  DecodeKey idw k' = Some id -> DecodeKey idw k = Some id <-> k' = k.
Proof. intros Hd. split; [intros; by eapply decode_inj | by intros <-]. Qed.

Lemma within_of fp fp' cs : fp = fp' -> within fp' cs -> within fp cs.
Proof. by intros ->. Qed.

Lemma slot_publish w l1 x l2 P U S :
  slot_tx w (l1 ++ x :: l2) P U S ->
  ∃ w' cs, Publish w (staged (rv_res x)) = Ret (w', cs) ∧
    slot_tx w' (l1 ++ l2) P U (S ++ steps_of cs) ∧
    slot_committed w' (rv_rid x) =
      effect (rv_op x) (references (rv_res x)) (slot_committed w (rv_rid x)) ∧
    slot_readable w' (rv_rid x) =
      effect_readable true (rv_op x) (references (rv_res x)) (slot_readable w (rv_rid x)) ∧
    (∀ r, r <> rv_rid x ->
       slot_committed w' r = slot_committed w r ∧ slot_readable w' r = slot_readable w r) ∧
    within (footprint (rv_res x)) cs ∧
    (∀ st, st ∈ steps_of cs -> st.1 = rv_rid x ∧ EncodeKey idw st.2 = op_key (rv_op x)).
Proof.
  intros Htx. pose proof Htx as [Hg Hf _ [Hst _]].
  assert (staged_ok w x) as (id & Hd & Hv & Hk)
    by (rewrite Forall_forall in Hst; apply Hst, elem_of_app; right; by left).
  destruct (valid_state _ _ (Hg (rv_rid x)) Hv) as (s0 & x0 & Hs0 & Hx0 & _).
  assert (is_Some (Slot.states_ (w (rv_rid x)) !! id)) as Hsome by by eexists.
  unfold effect, effect_readable. destruct (op_kind (rv_op x)) eqn:Hkind.
  - destruct Hk as (o & -> & Hslab & Href & Hnr & Hfp). simpl.
    destruct (publish_spec _ _ o (Hg (rv_rid x)) Hv Hnr Hslab) as (tb' & -> & Hw). simpl.
    eexists _, _. split; [done |]. simpl. split_and!.
    + eapply (tx_after_write w l1 x l2); [done.. | congruence | exact Hw | done].
    + apply map_eq. intros k. rewrite (write_committed w _ id kLive (Some o)) by done.
      rewrite (decide_True (P := kLive = kLive)) by done.
      destruct (decide (DecodeKey idw k = Some id)) as [Hdk | Hdk].
      * apply (decode_key_iff _ _ _ Hd) in Hdk. subst k. rewrite lookup_insert_eq. simpl. f_equal.
        symmetry. exact Href.
      * rewrite lookup_insert_ne; [done |]. intros <-. done.
    + apply map_eq. intros k. rewrite (write_readable w _ id kLive (Some o)) by done.
      destruct (decide (DecodeKey idw k = Some id)) as [Hdk | Hdk].
      * apply (decode_key_iff _ _ _ Hd) in Hdk. subst k. rewrite lookup_insert_eq. simpl. f_equal.
        symmetry. exact Href.
      * rewrite lookup_insert_ne; [done |]. intros <-. done.
    + intros r Hne. by apply write_other.
    + eapply within_of; [exact Hfp |]. unfold within. simpl.
      destruct (live_at (w (rv_rid x)) id); simpl; lia.
    + intros st Hin. by apply not_elem_of_nil in Hin.
  - destruct Hk as (-> & Hlive & Hfp). simpl.
    destruct (live_at (w (rv_rid x)) id) as [o |] eqn:Hl; [| done].
    apply live_at_spec in Hl as Hl2. destruct Hl2 as [Hs Hsh].
    destruct (retire_spec _ _ o (Hg (rv_rid x)) Hl) as (tb' & -> & Hw). simpl.
    eexists _, _. split; [done |]. simpl. split_and!.
    + eapply (tx_after_write w l1 x l2); [done.. | exact Hs | done | exact Hw | done].
    + apply map_eq. intros k. rewrite (write_committed w _ id kRetiring (Some o)) by done.
      rewrite (decide_False (P := kRetiring = kLive)) by done.
      destruct (decide (DecodeKey idw k = Some id)) as [Hdk | Hdk].
      * apply (decode_key_iff _ _ _ Hd) in Hdk. subst k. by rewrite lookup_delete_eq.
      * rewrite lookup_delete_ne; [done |]. intros <-. done.
    + apply map_eq. intros k. rewrite (write_readable w _ id kRetiring (Some o)) by done.
      destruct (decide (DecodeKey idw k = Some id)) as [Hdk | Hdk]; [| done].
      rewrite (readable_lookup _ _ _ _ _ _ _ Htx), Hdk. simpl. unfold shown_refs. by rewrite Hsh.
    + intros r Hne. by apply write_other.
    + eapply within_of; [exact Hfp |]. unfold within. simpl. lia.
    + intros st Hin. apply list_elem_of_singleton in Hin as ->. simpl. split; [done |].
      by apply encode_decode in Hd as [-> _].
Qed.

(** ** Removal steps *)

Lemma slot_run_step w P U S s :
  slot_tx w [] P U (s :: S) ->
  ∃ w' old, run_unpublish w s = Ret (Some (w', [CRetire old])) ∧ slot_tx w' [] P U S ∧
    (∀ r, slot_committed w' r = slot_committed w r) ∧
    (∀ r k, (s.1, EncodeKey idw s.2) <> (r, k) -> slot_readable w' r !! k = slot_readable w r !! k).
Proof.
  intros Htx. pose proof Htx as [Hg Hf [HS HSin] _]. destruct s as [r0 i].
  apply NoDup_cons in HS as [Hni HS].
  assert (Slot.states_ (w r0) !! i = Some kRetiring) as Hs by (apply HSin; by left).
  destruct (unpublish_spec (w r0) i (Hg r0) Hs) as (tb' & Hun & Hw).
  assert (is_Some (Slot.states_ (w r0) !! i)) as Hsome by by eexists.
  exists (set_table w r0 tb'), (shown_at (w r0) i). unfold run_unpublish. simpl. rewrite Hun.
  split; [done |]. split_and!.
  - constructor; [by eapply write_good | by eapply write_fits | | split; constructor]. split; [done |].
    intros r j. rewrite (write_states w r0 i kFree None tb' Hsome Hw). case_decide as Hd.
    + destruct Hd as [-> ->]. split; [done | congruence].
    + rewrite <- HSin, elem_of_cons. split; [by right | intros [[= -> ->] |]; [tauto | done]].
  - intros r. destruct (decide (r = r0)) as [-> | Hne]; [| by apply write_other].
    apply map_eq. intros k. rewrite (write_committed w r0 i kFree None) by done.
    case_decide as Hd; [| done]. rewrite (committed_lookup _ _ _ _ _ _ _ Htx), Hd. simpl.
    unfold live_refs, live_at. by rewrite Hs.
  - intros r k Hne. destruct (decide (r = r0)) as [-> | Hner].
    + rewrite (write_readable w r0 i kFree None) by done. case_decide as Hd; [| done].
      destruct Hne. simpl. by apply encode_decode in Hd as [-> _].
    + by rewrite (proj2 (write_other w r0 tb' r Hner)).
Qed.

(** ** The contract *)

#[export] Instance slot_laws : ResourceLaws.
Proof.
  split; simpl.
  - intros w l P U S S' Hp [H1 H2 [H3 H4] H5]. constructor; try done. split; [by rewrite <- Hp |].
    intros r i. rewrite <- H4. by rewrite Hp.
  - intros w l P U S r k refs Htx. rewrite (committed_lookup _ _ _ _ _ _ _ Htx), (readable_lookup _ _ _ _ _ _ _ Htx).
    destruct (DecodeKey idw k) as [i |]; [| done]. simpl. unfold live_refs, shown_refs.
    destruct (live_at (w r) i) as [o |] eqn:Hl; [| done]. by rewrite (live_shown _ _ _ Hl).
  - intros w l P U S [r0 i] r k Htx Hin [= -> <-]. rewrite (committed_lookup _ _ _ _ _ _ _ Htx).
    assert (Slot.states_ (w r) !! i = Some kRetiring) as Hs by by apply (tx_steps _ _ _ _ _ Htx).
    destruct (DecodeKey idw (EncodeKey idw i)) as [j |] eqn:Hd; [| done]. simpl.
    pose proof (lookup_lt_Some _ _ _ Hs) as Hlt. pose proof (tx_fits _ _ _ _ _ Htx r) as Hf.
    pose proof (gd_wf _ (tx_good _ _ _ _ _ Htx r)) as [_ Hl _ _ _ _].
    rewrite key_decode_encode in Hd by lia. injection Hd as <-. unfold live_refs, live_at. by rewrite Hs.
  - intros w l P U S r k Htx. by eapply slot_contains.
  - intros w S r Htx. by eapply slot_live_count.
  - intros w S r Htx. by eapply slot_visit.
  - done.
  - done.
  - intros w l U S r op Htx Hl _ _. destruct (slot_reserve w l ∅ U S r op Htx Hl) as (o & -> & Ho).
    exists w, o. split_and!; try done. destruct o as [err | res].
    + destruct Htx as [? ? ? ?]. by constructor.
    + destruct Ho as ([? ? ? ?] & H). split; [by constructor | exact H].
  - intros w l P U S r Htx _. exists w, (inr ()). split_and!; try done. destruct Htx. by constructor.
  - intros w l1 x l2 P U S Htx _.
    destruct (slot_publish w l1 x l2 P U S Htx) as (w' & cs & Hp & Htx' & Hc & Hr & Ho & Hin & Hst).
    exists w', cs. split; [exact Hp |]. split_and!; try done; [apply Hin.. |]. intros st r k Hs [= <- <-]. by apply Hst.
  - intros w l x P U S [H1 H2 H3 [H4 H5]]. split_and!; try done. constructor; try done.
    apply Forall_app in H4 as [H4 _]. rewrite fmap_app in H5. by apply NoDup_app in H5 as (? & _).
  - intros w P U S r [H1 H2 H3 H4]. split_and!; try done.
  - intros w S s Htx. destruct (slot_run_step w ∅ ∅ S s Htx) as (w' & old & -> & Htx' & Hc & Hr).
    eexists. split; [done |]. split_and!; try done; [intros r k Hne; apply Hr; congruence |].
    simpl. destruct old; simpl; lia.
  - intros w S fn. destruct fn.
Qed.

(** Fresh tables are a world between transactions. *)
Lemma slot_tx_create slab cap :
  (Z.of_nat cap + 1 < 2 ^ 64)%Z -> Z.of_nat (S cap) <= ids idw ->
  slot_tx (fun _ => Slot.Create slab cap) [] ∅ ∅ [].
Proof.
  intros Hc Hf. constructor.
  - intros r. split; [exists ∅; by apply Slot.slot_create_abstracts |].
    intros i s Hs Hne. simpl in Hs. by apply lookup_replicate in Hs as [-> _].
  - done.
  - split; [constructor |]. intros r i. split; [intros Hin; by apply not_elem_of_nil in Hin |].
    intros Hs. simpl in Hs. by apply lookup_replicate in Hs as [? _].
  - split; constructor.
Qed.

(** C25. [SlotResource] keeps the contract of [resource.h]: with the collection
    it stands for read off the table's slot states, and what workers read off
    its slots, its members satisfy every law the engine relies on; fresh tables
    are a world in which they do. *)
Theorem slot_resource_keeps_contract :
  ResourceLaws ∧
  ∀ slab cap, (Z.of_nat cap + 1 < 2 ^ 64)%Z -> Z.of_nat (S cap) <= ids idw ->
    tx (fun _ => Slot.Create slab cap) [] ∅ ∅ [].
Proof. split; [apply slot_laws | apply slot_tx_create]. Qed.

End View.

End SlotLaws.
