(* ===== verification/Engine.v ===== *)
(** * The transaction engine

    Models [core/dataplane/transaction_engine.h] and [transaction_engine.cc]:
    the registry of resources and its dependency graph, ranks, the reference
    ledger, transactions ([ApplyImpl], phase by phase), removal cascades and
    batched application. A [Registration *] is the name the registration is
    stored under; [EngineRegistry.v] shows that a bound name is always
    registered. Error texts are constructors that carry what the text
    mentions. [trace] is a history variable: the grace periods the engine
    started and saw completed, and the world after each change that packet
    workers can observe. *)

From S2P Require Import Prelude Resource.
Import Res.
Open Scope Z_scope.

Module Eng.

(** What the source leaves to the standard library and the allocator: the
    iteration order of [std::unordered_map] and the addresses of the
    registrations, which order the scratch vectors. *)
Class Memory := {
  hash_order : gset string -> list string;
  address : string -> Z;
  hash_order_perm names : hash_order names ≡ₚ elements names;
  address_inj :: Inj (=) (=) address
}.

(** ** Results *)

Inductive reason :=
  | ECycle
  | EUnknownResource (resource : string)
  | ENotOwned (resource : string)
  | ENotSnapshot (resource : string)
  | ENoValue
  | ESecondOperation (resource key : string)
  | EResource (text : string)
  | EUndeclared (resource target : string)
  | EHolderMissing (resource key holder : string)
  | ENotReferable (resource : string)
  | EOverBudget (may_retire budget : Z)
  | EStillReferenced (resource key : string) (times : Z)
  | EMissing (resource key : string).

Inductive OpStatus := kOpApplied | kOpFailed | kOpNotApplied.

#[export] Instance OpStatus_eq_dec : EqDecision OpStatus.
Proof. solve_decision. Defined.

Record OpResult := mk_op_result {
  status : OpStatus;
  error : option reason;
  of_resource : string
}.

Inductive Outcome := kApplied | kRejected | kConflict | kBusy | kUnsupported.

#[export] Instance Outcome_eq_dec : EqDecision Outcome.
Proof. solve_decision. Defined.

Record Result := mk_result {
  outcome : Outcome;
  r_generation : Z;
  r_ops : list OpResult;
  over_budget : bool;
  may_retire : Z
}.

Inductive OnBusy := kAnswer | kRetry.

(** Why a registration call is refused. *)
Inductive reg_error :=
  | RTaken (name : string)
  | RSelfReference (name : string)
  | RPopulated (name : string)
  | RNotRegistered (name : string)
  | RDeclaredBy (other name : string) (holds_for : bool)
  | RLiveKeys (name dep : string)
  | RReferenced (name : string)
  | RPendingRemovals (name : string)
  | ROutstanding (name : string).

Section Engine.
Context {RS : Resources} {DM : Domain} {MM : Memory}.

(** ** State *)

Record Step := mk_step { s_owner : rid; s_fn : step_fn }.

Record Cascade := mk_cascade {
  c_token : Z;
  c_stages : list (list Step);
  c_next : nat;
  c_ran : nat
}.

Record Registration := mk_registration {
  resource : rid;
  deps : list string;
  unresolved : list string;
  reg_key_holder : option string;
  incoming : gmap string Z;
  pending_removals : Z;
  touched : bool;
  last_op : nat;
  rank : Z                     (* [Resource::rank_], which only the engine writes *)
}.

Record KeyRef := mk_keyref { k_reg : string; k_key : string; k_op : nat }.

Record Delta := mk_delta {
  d_target : string;
  d_key : string;
  d_change : Z;
  d_added_by : option nat      (* [None] is kNone, above every operation *)
}.

Record Scratch := mk_scratch {
  w_reg : list (option string);
  w_keys : list KeyRef;
  w_staged : list (nat * staged_op);
  w_removals_by_op : list Z;
  w_deltas : list Delta;
  w_touched : list string
}.

Inductive event :=
  | EvStart (token : Z)
  | EvComplete (token : Z)
  | EvWorld (w : world).

Record t := mk {
  domain_ : domain;
  resources_ : gmap string Registration;
  cascades_ : list Cascade;
  deferred_objects_ : Z;
  generation_ : Z;
  scratch_ : Scratch;
  ranks_dirty_ : bool;
  reference_cycle_ : bool;
  outcome_counts_ : list Z;
  busy_retried_ : Z;
  world_ : world;
  trace : list event
}.

Definition kMaxPendingCascades : Z := 4096.
Definition kOutcomes : nat := 8.

Definition empty_scratch : Scratch := mk_scratch [] [] [] [] [] [].

(** A new engine over a domain, with the resources' state as it is. *)
Definition Create (d : domain) (w : world) : t :=
  mk d ∅ [] 0 0 empty_scratch false false (replicate kOutcomes 0) 0 w [].

(** Field updates. *)
Definition with_domain (d : domain) (e : t) : t :=
  mk d (resources_ e) (cascades_ e) (deferred_objects_ e) (generation_ e) (scratch_ e)
    (ranks_dirty_ e) (reference_cycle_ e) (outcome_counts_ e) (busy_retried_ e)
    (world_ e) (trace e).
Definition with_resources (rs : gmap string Registration) (e : t) : t :=
  mk (domain_ e) rs (cascades_ e) (deferred_objects_ e) (generation_ e) (scratch_ e)
    (ranks_dirty_ e) (reference_cycle_ e) (outcome_counts_ e) (busy_retried_ e)
    (world_ e) (trace e).
Definition with_cascades (cs : list Cascade) (e : t) : t :=
  mk (domain_ e) (resources_ e) cs (deferred_objects_ e) (generation_ e) (scratch_ e)
    (ranks_dirty_ e) (reference_cycle_ e) (outcome_counts_ e) (busy_retried_ e)
    (world_ e) (trace e).
Definition with_deferred (n : Z) (e : t) : t :=
  mk (domain_ e) (resources_ e) (cascades_ e) n (generation_ e) (scratch_ e)
    (ranks_dirty_ e) (reference_cycle_ e) (outcome_counts_ e) (busy_retried_ e)
    (world_ e) (trace e).
Definition with_generation (g : Z) (e : t) : t :=
  mk (domain_ e) (resources_ e) (cascades_ e) (deferred_objects_ e) g (scratch_ e)
    (ranks_dirty_ e) (reference_cycle_ e) (outcome_counts_ e) (busy_retried_ e)
    (world_ e) (trace e).
Definition with_scratch (s : Scratch) (e : t) : t :=
  mk (domain_ e) (resources_ e) (cascades_ e) (deferred_objects_ e) (generation_ e) s
    (ranks_dirty_ e) (reference_cycle_ e) (outcome_counts_ e) (busy_retried_ e)
    (world_ e) (trace e).
Definition with_ranks (dirty cycle : bool) (e : t) : t :=
  mk (domain_ e) (resources_ e) (cascades_ e) (deferred_objects_ e) (generation_ e)
    (scratch_ e) dirty cycle (outcome_counts_ e) (busy_retried_ e) (world_ e) (trace e).
Definition with_counts (cs : list Z) (busy : Z) (e : t) : t :=
  mk (domain_ e) (resources_ e) (cascades_ e) (deferred_objects_ e) (generation_ e)
    (scratch_ e) (ranks_dirty_ e) (reference_cycle_ e) cs busy (world_ e) (trace e).
Definition with_world (w : world) (e : t) : t :=
  mk (domain_ e) (resources_ e) (cascades_ e) (deferred_objects_ e) (generation_ e)
    (scratch_ e) (ranks_dirty_ e) (reference_cycle_ e) (outcome_counts_ e)
    (busy_retried_ e) w (trace e).
Definition with_event (ev : event) (e : t) : t :=
  mk (domain_ e) (resources_ e) (cascades_ e) (deferred_objects_ e) (generation_ e)
    (scratch_ e) (ranks_dirty_ e) (reference_cycle_ e) (outcome_counts_ e)
    (busy_retried_ e) (world_ e) (trace e ++ [ev]).

Definition set_deps (ds us : list string) (h : option string) (r : Registration) :=
  mk_registration (resource r) ds us h (incoming r) (pending_removals r) (touched r)
    (last_op r) (rank r).
Definition set_incoming (i : gmap string Z) (r : Registration) : Registration :=
  mk_registration (resource r) (deps r) (unresolved r) (reg_key_holder r) i
    (pending_removals r) (touched r) (last_op r) (rank r).
Definition set_pending (n : Z) (r : Registration) : Registration :=
  mk_registration (resource r) (deps r) (unresolved r) (reg_key_holder r) (incoming r)
    n (touched r) (last_op r) (rank r).
Definition set_touched (b : bool) (op : nat) (r : Registration) : Registration :=
  mk_registration (resource r) (deps r) (unresolved r) (reg_key_holder r) (incoming r)
    (pending_removals r) b op (rank r).
Definition set_rank (k : Z) (r : Registration) : Registration :=
  mk_registration (resource r) (deps r) (unresolved r) (reg_key_holder r) (incoming r)
    (pending_removals r) (touched r) (last_op r) k.

Definition update (n : string) (f : Registration -> Registration) (e : t) : t :=
  with_resources (alter f n (resources_ e)) e.

(** The keys of [resources_] in iteration order. *)
Definition ordered (rs : gmap string Registration) : list string := hash_order (dom rs).

(** ** Lookups *)

(** The registration a reference from [from] names, if [from] declared it and
    it is bound. *)
Definition Resolve (from : Registration) (res : string) : option string :=
  list_find (fun n => n = res) (deps from) ≫= fun p => Some p.2.

(** The registration a reference to [key] of [target] is counted on. *)
Definition Holder (rs : gmap string Registration) (w : world) (target key : string)
    (in_transaction : bool) : run (option string) :=
  reg ← deref rs target;
  if bool_decide (key_holder (resource reg) = EmptyString) ||
     negb (HeldByKeyHolder (resource reg) w key in_transaction)
  then mret (Some target)
  else mret (reg_key_holder reg).

(** [resource->registration_]: set while the resource is registered. *)
Definition RegistrationOf (rs : gmap string Registration) (r : rid) : run string :=
  match rs !! name r with
  | Some reg => if bool_decide (resource reg = r) then Ret (name r) else Undef
  | None => Undef
  end.

Definition FindResource (e : t) (n : string) : option rid :=
  resource <$> resources_ e !! n.

Definition ReferenceCount (e : t) (n key : string) : Z :=
  match resources_ e !! n with
  | None => 0
  | Some reg => default 0 (incoming reg !! key)
  end.

(** ** Registration *)

(** The loop over [unresolved] of [RebindDependenciesLocked]: what gets bound
    and what stays. *)
Fixpoint rebind_loop (rs : gmap string Registration) (us ds : list string)
    : list string * list string :=
  match us with
  | [] => (ds, [])
  | u :: us =>
      match rs !! u with
      | None => let '(ds', us') := rebind_loop rs us ds in (ds', u :: us')
      | Some _ => rebind_loop rs us (ds ++ [u])
      end
  end.

Definition RebindDependenciesLocked (rs : gmap string Registration) (reg : Registration)
    : Registration :=
  let '(ds, us) := rebind_loop rs (unresolved reg) (deps reg) in
  let h := key_holder (resource reg) in
  let holder :=
    match reg_key_holder reg with
    | Some n => Some n
    | None => if bool_decide (h = EmptyString) then None
              else match rs !! h with Some _ => Some h | None => None end
    end in
  set_deps ds us holder reg.

(** The visitor of [RebuildIncomingLocked] for one reference of [from]. *)
Definition count_reference (w : world) (from : string) (rs : gmap string Registration)
    (ref : Reference) : run (gmap string Registration) :=
  reg ← deref rs from;
  match Resolve reg (ref_resource ref) with
  | None => mret rs
  | Some target =>
      holder ← Holder rs w target (ref_key ref) false;
      match holder with
      | None => mret rs
      | Some h =>
          hreg ← deref rs h;
          mret (<[h := set_incoming
                   (<[ref_key ref := default 0 (incoming hreg !! ref_key ref) + 1]>
                      (incoming hreg)) hreg]> rs)
      end
  end.

Fixpoint count_references (w : world) (from : string) (rs : gmap string Registration)
    (refs : list Reference) : run (gmap string Registration) :=
  match refs with
  | [] => mret rs
  | ref :: refs => rs' ← count_reference w from rs ref; count_references w from rs' refs
  end.

Fixpoint visit_resources (w : world) (rs : gmap string Registration) (ns : list string)
    : run (gmap string Registration) :=
  match ns with
  | [] => mret rs
  | n :: ns =>
      reg ← deref rs n;
      refs ← VisitReferences (resource reg) w;
      rs' ← count_references w n rs refs;
      visit_resources w rs' ns
  end.

Definition zero_counts (reg : Registration) : Registration :=
  set_incoming ((fun _ : Z => 0) <$> incoming reg) reg.
Definition drop_zeros (reg : Registration) : Registration :=
  set_incoming (filter (fun kv : string * Z => kv.2 <> 0) (incoming reg)) reg.

Definition RebuildIncomingLocked (w : world) (rs : gmap string Registration)
    : run (gmap string Registration) :=
  let zeroed : gmap string Registration := zero_counts <$> rs in
  counted ← visit_resources w zeroed (ordered zeroed);
  mret (drop_zeros <$> counted : gmap string Registration).

(** The rank of one resource from the ranks of what it may reference and of
    their key holders. *)
Fixpoint rank_from (rs : gmap string Registration) (ds : list string) (k : Z) : run Z :=
  match ds with
  | [] => mret k
  | d :: ds =>
      dep ← deref rs d;
      let k := Z.max k (rank dep + 1) in
      match reg_key_holder dep with
      | None => rank_from rs ds k
      | Some h => hreg ← deref rs h; rank_from rs ds (Z.max k (rank hreg + 1))
      end
  end.

Fixpoint rank_pass (rs : gmap string Registration) (changed : bool) (ns : list string)
    : run (gmap string Registration * bool) :=
  match ns with
  | [] => mret (rs, changed)
  | n :: ns =>
      reg ← deref rs n;
      k ← rank_from rs (deps reg) 0;
      if bool_decide (k <> rank reg)
      then rank_pass (<[n := set_rank k reg]> rs) true ns
      else rank_pass rs changed ns
  end.

(** At most [passes] passes, stopping at one that changes nothing; whether the
    last pass run still changed a rank. *)
Fixpoint rank_passes (passes : nat) (rs : gmap string Registration) (changed : bool)
    : run (gmap string Registration * bool) :=
  match passes with
  | O => mret (rs, changed)
  | S passes =>
      '(rs', changed') ← rank_pass rs false (ordered rs);
      if (changed' : bool) then rank_passes passes rs' true else mret (rs', false)
  end.

Definition RecomputeRanksLocked (e : t) : run t :=
  if negb (ranks_dirty_ e) then mret e
  else
    let zeroed : gmap string Registration := set_rank 0 <$> resources_ e in
    '(rs, changed) ← rank_passes (S (size (resources_ e))) zeroed false;
    mret (with_ranks false changed (with_resources rs e)).

(** The loop over the declared references in [Register]: bound and unresolved
    ones, or the name of a self-reference. *)
Fixpoint bind_declared (rs : gmap string Registration) (self : string)
    (ns ds us : list string) : string + list string * list string :=
  match ns with
  | [] => inr (ds, us)
  | d :: ns =>
      if bool_decide (d = self) then inl d
      else match rs !! d with
           | None => bind_declared rs self ns ds (us ++ [d])
           | Some _ => bind_declared rs self ns (ds ++ [d]) us
           end
  end.

Definition Register (e : t) (r : rid) : run ((reg_error + ()) * t) :=
  match resources_ e !! name r with
  | Some _ => mret (inl (RTaken (name r)), e)
  | None =>
      match bind_declared (resources_ e) (name r) (declared_references r) [] [] with
      | inl d => mret (inl (RSelfReference d), e)
      | inr (ds, us) =>
          if bool_decide (declared_references r <> []) &&
             bool_decide (LiveCount r (world_ e) <> 0)
          then mret (inl (RPopulated (name r)), e)
          else
            let reg := mk_registration r ds us None ∅ 0 false 0 0 in
            let rs := <[name r := reg]> (resources_ e) in
            let bound : gmap string Registration := RebindDependenciesLocked rs <$> rs in
            rs' ← RebuildIncomingLocked (world_ e) bound;
            e' ← RecomputeRanksLocked
                   (with_ranks true (reference_cycle_ e) (with_resources rs' e));
            mret (inr (), e')
      end
  end.

(** ** Reclamation *)

Definition retire_budget (d : domain) : Z := retire_high_water d / 2.

(** A retirer outside publication: it reserves, and enforces nothing. *)
Definition plain_retirer : Retirer :=
  mk_retirer [] [] [] no_footprint 0 None false.

Definition for_owner (r : Retirer) (k : Z) (o : rid) (enforce : bool) : Retirer :=
  mk_retirer (retire_ r) (after_ r) (removals_ r) (capacity_ r) k (Some o) enforce.

(** The steps of a stage from [ran] on, with what they retire; stops at a step
    that is refused memory. *)
Fixpoint run_steps (e : t) (retirer : Retirer) (steps : list Step) (ran : nat)
    : run (t * Retirer * nat * bool) :=
  match steps with
  | [] => mret (e, retirer, ran, false)
  | step :: steps =>
      n ← RegistrationOf (resources_ e) (s_owner step);
      let retirer := for_owner retirer (rank_ retirer) (s_owner step) false in
      o ← run_step (world_ e) (s_fn step);
      match o with
      | None => mret (e, retirer, ran, true)
      | Some (w, calls) =>
          retirer' ← do_calls retirer calls;
          let e := with_event (EvWorld w) (with_world w e) in
          let e := with_deferred (deferred_objects_ e - 1) e in
          let e := update n (fun reg => set_pending (pending_removals reg - 1) reg) e in
          run_steps e retirer' steps (ran + 1)
      end
  end.

(** One iteration of the [while] of [ReclaimRetiredLocked]: the next stage of
    a cascade whose grace period completed, and whether to go on. *)
Definition run_stage (e : t) (c : Cascade) (stage : list Step) : run (t * Cascade * bool) :=
  let left := Z.of_nat (length stage) - Z.of_nat (c_ran c) in
  if bool_decide (retire_budget (domain_ e) < pending_retired (domain_ e) + left)
  then mret (e, c, false)
  else
    let e := with_domain (ReserveRetirements (domain_ e) left) e in
    '(e, retirer, ran, refused) ←
      run_steps e plain_retirer (drop (c_ran c) stage) (c_ran c);
    let next := if (refused : bool) then c_next c else (c_next c + 1)%nat in
    let ran := if refused then ran else O in
    let '(token, d) := StartGracePeriod (domain_ e) in
    let e := with_event (EvStart token) (with_domain d e) in
    let '(d, w) := Finish retirer (domain_ e) (world_ e) token in
    let e := with_world w (with_domain d e) in
    mret (e, mk_cascade token (c_stages c) next ran, negb refused).

(** The [while] itself; every iteration that goes on moves [next], so the
    number of stages left bounds it. *)
Fixpoint advance (fuel : nat) (e : t) (c : Cascade) : run (t * Cascade) :=
  match fuel with
  | O => mret (e, c)
  | S fuel =>
      match c_stages c !! c_next c with
      | None => mret (e, c)
      | Some stage =>
          let '(complete, d) := IsComplete (domain_ e) (c_token c) in
          let e := with_domain d e in
          if (complete : bool) then
            let e := with_event (EvComplete (c_token c)) e in
            '(e, c, go) ← run_stage e c stage;
            if (go : bool) then advance fuel e c else mret (e, c)
          else mret (e, c)
      end
  end.

(** The loop over the cascades, keeping those with stages left. *)
Fixpoint advance_all (e : t) (cs kept : list Cascade) : run (t * list Cascade) :=
  match cs with
  | [] => mret (e, kept)
  | c :: cs =>
      '(e, c) ← advance (S (length (c_stages c) - c_next c)) e c;
      advance_all e cs
        (if bool_decide (c_next c < length (c_stages c))%nat then kept ++ [c] else kept)
  end.

Definition ReclaimRetiredLocked (e : t) : run (nat * t) :=
  '(e, kept) ← advance_all e (cascades_ e) [];
  let e := with_cascades kept e in
  mret (length kept, with_domain (ReclaimReady (domain_ e)) e).

(** ** Leaving the registry *)

Fixpoint gather (rs : gmap string Registration) (ns group : list string)
    : reg_error + list string :=
  match ns with
  | [] => inr group
  | n :: ns =>
      match rs !! n with
      | None => inl (RNotRegistered n)
      | Some _ => gather rs ns (if bool_decide (n ∈ group) then group else group ++ [n])
      end
  end.

(** Whether [other] declares [n], bound or not, or hands keys to it. *)
Definition declares (other : Registration) (n : string) : bool :=
  bool_decide (key_holder (resource other) = n) ||
  bool_decide (is_Some (Resolve other n)) ||
  bool_decide (n ∈ unresolved other).

(** The loop over all resources for one member [n] of the group: whether a
    member declares it, or the outsider that does. *)
Fixpoint check_referrers (rs : gmap string Registration) (group : list string)
    (n : string) (others : list string) (in_group : bool) : run (reg_error + bool) :=
  match others with
  | [] => mret (inr in_group)
  | o :: others =>
      other ← deref rs o;
      if declares other n then
        if bool_decide (o ∈ group) then check_referrers rs group n others true
        else mret (inl (RDeclaredBy o n (bool_decide (key_holder (resource other) = n))))
      else check_referrers rs group n others in_group
  end.

Fixpoint check_deps (w : world) (group : list string) (n : string) (r : rid)
    (ds : list string) : reg_error + () :=
  match ds with
  | [] => inr ()
  | d :: ds =>
      if bool_decide (d ∉ group) && bool_decide (LiveCount r w <> 0)
      then inl (RLiveKeys n d)
      else check_deps w group n r ds
  end.

Fixpoint check_group (rs : gmap string Registration) (w : world) (group todo : list string)
    : run (reg_error + ()) :=
  match todo with
  | [] => mret (inr ())
  | n :: todo =>
      reg ← deref rs n;
      o ← check_referrers rs group n (ordered rs) false;
      match o with
      | inl err => mret (inl err)
      | inr referenced_in_group =>
          match check_deps w group n (resource reg) (deps reg) with
          | inl err => mret (inl err)
          | inr _ =>
              if negb referenced_in_group && bool_decide (incoming reg <> ∅)
              then mret (inl (RReferenced n))
              else check_group rs w group todo
          end
      end
  end.

(** No removal steps and no retired objects left for any member. *)
Fixpoint check_quiet (e : t) (group : list string) : run (reg_error + ()) :=
  match group with
  | [] => mret (inr ())
  | n :: group =>
      reg ← deref (resources_ e) n;
      if bool_decide (pending_removals reg <> 0) then mret (inl (RPendingRemovals n))
      else if bool_decide (outstanding (domain_ e) (resource reg) <> 0)
      then mret (inl (ROutstanding n))
      else check_quiet e group
  end.

Definition erase_group (group : list string) (rs : gmap string Registration) :=
  foldr delete rs group.

Definition Unregister (e : t) (names : list string) : run ((reg_error + ()) * t) :=
  match gather (resources_ e) names [] with
  | inl err => mret (inl err, e)
  | inr group =>
      o ← check_group (resources_ e) (world_ e) group group;
      match o with
      | inl err => mret (inl err, e)
      | inr _ =>
          '(_, e) ← ReclaimRetiredLocked e;
          let e := with_domain (ReclaimReady (domain_ e)) e in
          o ← check_quiet e group;
          match o with
          | inl err => mret (inl err, e)
          | inr _ => mret (inr (), with_resources (erase_group group (resources_ e)) e)
          end
      end
  end.

Fixpoint gather_known (rs : gmap string Registration) (ns group : list string)
    : list string :=
  match ns with
  | [] => group
  | n :: ns =>
      match rs !! n with
      | None => gather_known rs ns group
      | Some _ =>
          gather_known rs ns (if bool_decide (n ∈ group) then group else group ++ [n])
      end
  end.

(** What the release of [n] leaves of a resource outside the group. *)
Definition unbind (n : string) (other : Registration) : Registration :=
  let kept := filter (fun d => d <> n) (deps other) in
  let removed := bool_decide (kept <> deps other) in
  set_deps kept
    (if removed && bool_decide (n ∉ unresolved other)
     then unresolved other ++ [n] else unresolved other)
    (if bool_decide (reg_key_holder other = Some n) then None else reg_key_holder other)
    other.

Definition unbind_all (group : list string) (n : string) (rs : gmap string Registration)
    : gmap string Registration :=
  map_imap (fun o other => Some (if bool_decide (o ∈ group) then other else unbind n other)) rs.

Definition ReleaseForTeardown (e : t) (names : list string) : run ((reg_error + ()) * t) :=
  '(_, e) ← ReclaimRetiredLocked e;
  let e := with_domain (ReclaimReady (domain_ e)) e in
  let group := gather_known (resources_ e) names [] in
  o ← check_quiet e group;
  match o with
  | inl err => mret (inl err, e)
  | inr _ =>
      let rs := foldl (fun rs n => unbind_all group n rs) (resources_ e) group in
      rs' ← RebuildIncomingLocked (world_ e) (erase_group group rs);
      mret (inr (), with_ranks true (reference_cycle_ e) (with_resources rs' e))
  end.

Definition AdvanceGeneration (e : t) : t :=
  with_generation (wrap 64 (generation_ e + 1)) e.

(** ** Transactions *)

Definition not_applied : OpResult := mk_op_result kOpNotApplied None EmptyString.

Definition Reject (e : t) (n failed : nat) (err : reason) : Result :=
  let ops := replicate n not_applied in
  mk_result kRejected (generation_ e)
    (if bool_decide (failed < n)%nat
     then <[failed := mk_op_result kOpFailed (Some err) EmptyString]> ops else ops)
    false 0.

Definition with_outcome (o : Outcome) (r : Result) : Result :=
  mk_result o (r_generation r) (r_ops r) (over_budget r) (may_retire r).

(** Nothing attempted: every operation not applied. *)
Definition refused (o : Outcome) (e : t) (n : nat) : Result :=
  mk_result o (generation_ e) (replicate n not_applied) false 0.

Abbreviation apply A := (body t Result A).

Definition scratch (f : Scratch -> Scratch) : apply () :=
  modify (fun e => with_scratch (f (scratch_ e)) e).

Definition set_reg (i : nat) (n : string) (w : Scratch) : Scratch :=
  mk_scratch (<[i := Some n]> (w_reg w)) (w_keys w) (w_staged w) (w_removals_by_op w)
    (w_deltas w) (w_touched w).
Definition set_keys (ks : list KeyRef) (w : Scratch) : Scratch :=
  mk_scratch (w_reg w) ks (w_staged w) (w_removals_by_op w) (w_deltas w) (w_touched w).
Definition push_staged (i : nat) (st : staged_op) (w : Scratch) : Scratch :=
  mk_scratch (w_reg w) (w_keys w) (w_staged w ++ [(i, st)]) (w_removals_by_op w)
    (w_deltas w) (w_touched w).
Definition set_removals (i : nat) (k : Z) (w : Scratch) : Scratch :=
  mk_scratch (w_reg w) (w_keys w) (w_staged w) (<[i := k]> (w_removals_by_op w))
    (w_deltas w) (w_touched w).
Definition set_deltas (ds : list Delta) (w : Scratch) : Scratch :=
  mk_scratch (w_reg w) (w_keys w) (w_staged w) (w_removals_by_op w) ds (w_touched w).
Definition push_delta (d : Delta) (w : Scratch) : Scratch :=
  set_deltas (w_deltas w ++ [d]) w.
Definition set_w_touched (ns : list string) (w : Scratch) : Scratch :=
  mk_scratch (w_reg w) (w_keys w) (w_staged w) (w_removals_by_op w) (w_deltas w) ns.

(** The working storage as [ApplyImpl] clears it. *)
Definition clear_scratch (n : nat) : Scratch :=
  mk_scratch (replicate n None) [] [] (replicate n 0) [] [].

(** *** Structure: known resources, one operation per key *)

Definition check_op (n : nat) (consistency : Consistency) (owned : option (list rid))
    (iop : nat * Op value) : apply () :=
  let '(i, op) := iop in
  e ← get;
  match resources_ e !! op_resource op with
  | None => return_ (Reject e n i (EUnknownResource (op_resource op)))
  | Some reg =>
      if match owned with
         | Some l => bool_decide (resource reg ∉ l)
         | None => false
         end
      then return_ (Reject e n i (ENotOwned (op_resource op)))
      else
        scratch (set_reg i (op_resource op)) ;;
        if bool_decide (consistency = kScopeSnapshot) &&
           bool_decide (ProvidedConsistency (resource reg) <> kScopeSnapshot)
        then return_ (with_outcome kUnsupported
                        (Reject e n i (ENotSnapshot (op_resource op))))
        else if bool_decide (op_kind op = kUpsert) && bool_decide (op_value op = None)
        then return_ (Reject e n i ENoValue)
        else scratch (fun w => set_keys (w_keys w ++
               [mk_keyref (op_resource op) (op_key op) i]) w)
  end.

(** [a.reg != b.reg ? a.reg < b.reg : a.key != b.key ? a.key < b.key
    : a.op < b.op]. *)
Definition key_less (a b : KeyRef) : bool :=
  if bool_decide (k_reg a <> k_reg b)
  then bool_decide (address (k_reg a) < address (k_reg b))
  else if bool_decide (k_key a <> k_key b) then String.ltb (k_key a) (k_key b)
  else bool_decide (k_op a < k_op b)%nat.

Definition sort_keys : list KeyRef -> list KeyRef :=
  stable_sort (fun a b => negb (key_less b a)).

Definition min_op (a b : option nat) : option nat :=
  match a, b with
  | Some x, Some y => Some (x `min` y)%nat
  | Some x, None => Some x
  | None, _ => b
  end.

(** The first operation, in request order, that repeats a key. *)
Fixpoint find_duplicate (previous : option KeyRef) (ks : list KeyRef) : option nat :=
  match ks with
  | [] => None
  | k :: ks =>
      let rest := find_duplicate (Some k) ks in
      match previous with
      | Some p =>
          if bool_decide (k_reg k = k_reg p) && bool_decide (k_key k = k_key p)
          then min_op (Some (k_op k)) rest else rest
      | None => rest
      end
  end.

(** The operation on [(reg, key)] in this transaction, by [std::lower_bound]
    over the sorted keys. *)
Definition op_on (ks : list KeyRef) (reg key : string) : option nat :=
  match list_find (fun k => key_less k (mk_keyref reg key 0) = false) ks with
  | Some (_, k) =>
      if bool_decide (k_reg k = reg) && bool_decide (k_key k = key) then Some (k_op k)
      else None
  | None => None
  end.

(** *** Reserve: all fallible work, nothing visible *)

Definition reg_of (w : Scratch) (i : nat) : run string :=
  o ← at_ (w_reg w) i;
  match o with
  | Some n => Ret n
  | None => Undef
  end.

(** The rank of operation [i]'s resource. *)
Definition op_rank (e : t) (i : nat) : Z :=
  match w_reg (scratch_ e) !! i with
  | Some (Some n) => match resources_ e !! n with Some reg => rank reg | None => 0 end
  | _ => 0
  end.

Definition reserve_order (e : t) (n : nat) : list nat :=
  stable_sort (fun a b => bool_decide (op_rank e a <= op_rank e b)) (seq 0 n).

(** A reference the key's previous value held. *)
Definition drop_reference (rn : string) (ref : Reference) : apply () :=
  e ← get;
  reg ← lift (deref (resources_ e) rn);
  match Resolve reg (ref_resource ref) with
  | None => mret ()
  | Some target =>
      holder ← lift (Holder (resources_ e) (world_ e) target (ref_key ref) false);
      match holder with
      | None => mret ()
      | Some h => scratch (push_delta (mk_delta h (ref_key ref) (-1) None))
      end
  end.

(** A reference the new value holds. *)
Definition add_reference (n i : nat) (rn : string) (ref : Reference) : apply () :=
  e ← get;
  reg ← lift (deref (resources_ e) rn);
  match Resolve reg (ref_resource ref) with
  | None =>
      return_ (Reject e n i (EUndeclared (name (resource reg)) (ref_resource ref)))
  | Some target =>
      holder ← lift (Holder (resources_ e) (world_ e) target (ref_key ref) true);
      treg ← lift (deref (resources_ e) target);
      match holder with
      | None =>
          return_ (Reject e n i (EHolderMissing (ref_resource ref) (ref_key ref)
                                   (key_holder (resource treg))))
      | Some h =>
          hreg ← lift (deref (resources_ e) h);
          if negb (DefersErase (resource hreg))
          then return_ (Reject e n i (ENotReferable (name (resource hreg))))
          else scratch (push_delta (mk_delta h (ref_key ref) 1 (Some i)))
      end
  end.

(** What the operation may retire is added to the transaction's footprint. *)
Definition add_footprint (a b : Footprint) : Footprint :=
  mk_footprint (wrap 32 (retires a + retires b)) (wrap 32 (removals a + removals b))
    (wrap 32 (callbacks a + callbacks b)).

Definition retiring (fp : Footprint) : Z := retires fp + removals fp.

Definition over_budget_result (e : t) (n : nat) (may budget : Z) : Result :=
  let r := Reject e n 0 (EOverBudget may budget) in
  mk_result (outcome r) (r_generation r) (r_ops r) true may.

(** A reservation is armed for abort, its reference changes and its footprint
    are recorded. *)
Definition note_reservation (n i : nat) (rn : string) (op : Op value)
    (r : Reservation staged_op) (fp : Footprint) : apply Footprint :=
  scratch (push_staged i (staged r)) ;;
  (if bool_decide (op_kind op = kErase)
   then scratch (push_delta (mk_delta rn (op_key op) 0 None)) else mret ()) ;;
  (if existed r then for_each (previous_references r) (drop_reference rn)
   else mret ()) ;;
  (if bool_decide (op_kind op = kUpsert)
   then for_each (references r) (add_reference n i rn) else mret ()) ;;
  scratch (set_removals i (removals (footprint r))) ;;
  let fp := add_footprint fp (footprint r) in
  e ← get;
  let budget := retire_budget (domain_ e) in
  if bool_decide (budget < retiring fp)
  then return_ (over_budget_result e n (retiring fp) budget)
  else mret fp.

(** One iteration of the reserving loop. *)
Definition reserve_op (ops : list (Op value)) (i : nat) (fp : Footprint)
    : apply Footprint :=
  op ← lift (at_ ops i);
  e ← get;
  rn ← lift (reg_of (scratch_ e) i);
  reg ← lift (deref (resources_ e) rn);
  (if touched reg then mret ()
   else scratch (fun w => set_w_touched (w_touched w ++ [rn]) w)) ;;
  modify (update rn (set_touched true i)) ;;
  '(w, o) ← lift (Reserve (resource reg) (world_ e) op);
  modify (with_world w) ;;
  match o with
  | inl err => e ← get; return_ (Reject e (length ops) i (EResource err))
  | inr r => note_reservation (length ops) i rn op r fp
  end.

Fixpoint reserve_all (ops : list (Op value)) (order : list nat) (fp : Footprint)
    : apply Footprint :=
  match order with
  | [] => mret fp
  | i :: order => fp ← reserve_op ops i fp; reserve_all ops order fp
  end.

(** What runs when the transaction returns without publishing. *)
Definition abort_staged (l : list (nat * staged_op)) (w : world) : world :=
  foldr (fun '(_, st) w => Abort w st) w l.

Definition end_transaction (n : string) (e : t) : t :=
  match resources_ e !! n with
  | Some reg =>
      with_world (EndTransaction (resource reg) (world_ e))
        (update n (fun reg => set_touched false (last_op reg) reg) e)
  | None => e
  end.

Definition drop_new_entry (d : Delta) (e : t) : t :=
  if bool_decide (0 < d_change d) then
    update (d_target d) (fun reg =>
      if bool_decide (incoming reg !! d_key d = Some 0)
      then set_incoming (delete (d_key d) (incoming reg)) reg else reg) e
  else e.

Definition abort (e : t) : t :=
  let e := with_world (abort_staged (w_staged (scratch_ e)) (world_ e)) e in
  let e := foldl (fun e n => end_transaction n e) e (w_touched (scratch_ e)) in
  foldl (fun e d => drop_new_entry d e) e (w_deltas (scratch_ e)).

(** *** References the transaction leaves behind *)

Definition delta_le (a b : Delta) : bool :=
  if bool_decide (d_target a <> d_target b)
  then bool_decide (address (d_target a) <= address (d_target b))
  else negb (String.ltb (d_key b) (d_key a)).

(** One entry per (target, key) with the summed change and the first operation
    that added a reference; [out] is the merged prefix, last entry first. *)
Fixpoint merge_deltas (ds out : list Delta) : list Delta :=
  match ds with
  | [] => rev out
  | d :: ds =>
      match out with
      | o :: out' =>
          if bool_decide (d_target o = d_target d) && bool_decide (d_key o = d_key d)
          then merge_deltas ds
                 (mk_delta (d_target o) (d_key o) (d_change o + d_change d)
                    (min_op (d_added_by o) (d_added_by d)) :: out')
          else merge_deltas ds (d :: out)
      | [] => merge_deltas ds [d]
      end
  end.

Definition merged (ds : list Delta) : list Delta :=
  merge_deltas (stable_sort delta_le ds) [].

Definition check_delta (ops : list (Op value)) (d : Delta) : apply () :=
  let n := length ops in
  e ← get;
  reg ← lift (deref (resources_ e) (d_target d));
  let after := default 0 (incoming reg !! d_key d) + d_change d in
  if bool_decide (after <= 0) then mret ()
  else
    let o := op_on (w_keys (scratch_ e)) (d_target d) (d_key d) in
    exists_after ←
      match o with
      | Some i => op ← lift (at_ ops i); mret (bool_decide (op_kind op = kUpsert))
      | None => lift (Contains (resource reg) (world_ e) (d_key d))
      end;
    if (exists_after : bool) then mret ()
    else
      match o with
      | Some i =>
          return_ (Reject e n i (EStillReferenced (name (resource reg)) (d_key d) after))
      | None =>
          match d_added_by d with
          | Some i => return_ (Reject e n i (EMissing (name (resource reg)) (d_key d)))
          | None => mret ()
          end
      end.

(** *** Prepare: one build per resource for the whole transaction *)

Definition prepare (n : nat) (rn : string) : apply () :=
  e ← get;
  reg ← lift (deref (resources_ e) rn);
  '(w, o) ← lift (Prepare (resource reg) (world_ e));
  modify (with_world w) ;;
  match o with
  | inl err => e ← get; return_ (Reject e n (last_op reg) (EResource err))
  | inr _ => mret ()
  end.

(** *** Publication *)

(** [order]'s comparison, as "not after": upserts by ascending rank, then
    erases by descending rank. *)
Definition publish_le (ops : list (Op value)) (e : t) (a b : nat) : bool :=
  match w_staged (scratch_ e) !! a, w_staged (scratch_ e) !! b with
  | Some (ia, _), Some (ib, _) =>
      let upsert i := match ops !! i with
                      | Some op => bool_decide (op_kind op = kUpsert)
                      | None => false
                      end in
      if negb (eqb (upsert ia) (upsert ib)) then upsert ia
      else if upsert ia then bool_decide (op_rank e ia <= op_rank e ib)
      else bool_decide (op_rank e ib <= op_rank e ia)
  | _, _ => false
  end.

Definition publish_order (ops : list (Op value)) (e : t) : list nat :=
  stable_sort (publish_le ops e) (seq 0 (length (w_staged (scratch_ e)))).

(** The ranks that declared removals, highest first, one entry each. *)
Fixpoint unique (ks : list Z) : list Z :=
  match ks with
  | [] => []
  | k :: ks =>
      match unique ks with
      | k' :: ks' => if bool_decide (k = k') then k' :: ks' else k :: k' :: ks'
      | [] => [k]
      end
  end.

Definition stage_ranks (e : t) (n : nat) (fp : Footprint) : list Z :=
  if bool_decide (removals fp <> 0) then
    let declared := filter (fun i => w_removals_by_op (scratch_ e) !! i <> Some 0) (seq 0 n) in
    unique (stable_sort (fun a b => bool_decide (b <= a)) (op_rank e <$> declared))
  else [].

(** Ledger entries for new references, so that publishing only updates
    counts. *)
Definition new_entry (e : t) (d : Delta) : t :=
  if bool_decide (0 < d_change d) then
    update (d_target d) (fun reg =>
      match incoming reg !! d_key d with
      | None => set_incoming (<[d_key d := 0]> (incoming reg)) reg
      | Some _ => reg
      end) e
  else e.

Definition publish_one (r : Retirer) (k : nat) : apply Retirer :=
  e ← get;
  '(i, st) ← lift (at_ (w_staged (scratch_ e)) k);
  rn ← lift (reg_of (scratch_ e) i);
  reg ← lift (deref (resources_ e) rn);
  let r := for_owner r (rank reg) (resource reg) true in
  '(w, calls) ← lift (Publish (world_ e) st);
  modify (fun e => with_event (EvWorld w) (with_world w e)) ;;
  lift (do_calls r calls).

Fixpoint publish_all (r : Retirer) (order : list nat) : apply Retirer :=
  match order with
  | [] => mret r
  | k :: order => r ← publish_one r k; publish_all r order
  end.

Definition commit_delta (e : t) (d : Delta) : t :=
  update (d_target d) (fun reg =>
    match incoming reg !! d_key d with
    | None => reg
    | Some c =>
        let after := c + d_change d in
        if bool_decide (after <= 0)
        then set_incoming (delete (d_key d) (incoming reg)) reg
        else set_incoming (<[d_key d := after]> (incoming reg)) reg
    end) e.

(** A declared removal becomes a step of its rank's stage. *)
Fixpoint push_step (ks : list Z) (stages : list (list Step)) (k : Z) (s : Step)
    : run (list (list Step)) :=
  match ks, stages with
  | k' :: ks, stage :: stages =>
      if bool_decide (k' = k) then mret ((stage ++ [s]) :: stages)
      else stages' ← push_step ks stages k s; mret (stage :: stages')
  | _, _ => Undef
  end.

Fixpoint collect_removals (ks : list Z) (stages : list (list Step)) (rms : list Removal)
    (e : t) : run (list (list Step) * t) :=
  match rms with
  | [] => mret (stages, e)
  | rm :: rms =>
      stages ← push_step ks stages (rm_rank rm) (mk_step (rm_owner rm) (rm_step rm));
      n ← RegistrationOf (resources_ e) (rm_owner rm);
      let e := update n (fun reg => set_pending (pending_removals reg + 1) reg) e in
      collect_removals ks stages rms (with_deferred (deferred_objects_ e + 1) e)
  end.

(** The tail of a committed transaction: the grace period for what was
    replaced and the removal cascade. *)
Definition start_reclamation (r : Retirer) (stages : list (list Step)) (e : t) : t :=
  let stages := filter (fun stage => stage <> []) stages in
  if negb (empty r) || bool_decide (stages <> []) then
    let '(token, d) := StartGracePeriod (domain_ e) in
    let e := with_event (EvStart token) (with_domain d e) in
    let e := if bool_decide (stages <> [])
             then with_cascades (cascades_ e ++ [mk_cascade token stages 0 0]) e else e in
    let '(d, w) := Finish r (domain_ e) (world_ e) token in
    with_world w (with_domain d e)
  else e.

Definition commit (n : nat) (fp : Footprint) (ks : list Z) (r : Retirer) : apply Result :=
  modify (fun e => foldl commit_delta e (w_deltas (scratch_ e))) ;;
  e ← get;
  '(stages, e) ← lift (collect_removals ks (replicate (length ks) []) (removals_ r) e);
  modify (fun _ => with_generation (wrap 64 (generation_ e + 1)) e) ;;
  modify (fun e => foldl (fun e n => end_transaction n e) e (w_touched (scratch_ e))) ;;
  scratch (set_w_touched []) ;;
  modify (start_reclamation r stages) ;;
  modify (fun e => with_domain (ReclaimReady (domain_ e)) e) ;;
  e ← get;
  mret (mk_result kApplied (generation_ e)
          (replicate n (mk_op_result kOpApplied None EmptyString)) false (retiring fp)).

(** Everything between the first reservation and the end of publication: what
    the abort guard covers. *)
Definition reserve_and_publish (ops : list (Op value)) : apply (Footprint * list Z * Retirer) :=
  let n := length ops in
  e ← get;
  fp ← reserve_all ops (reserve_order e n) no_footprint;
  e ← get;
  (if bool_decide (retire_budget (domain_ e) <
                   pending_retired (domain_ e) + deferred_objects_ e + retiring fp) ||
      bool_decide (kMaxPendingCascades <= Z.of_nat (length (cascades_ e)))
   then return_ (refused kBusy e n) else mret ()) ;;
  scratch (fun w => set_deltas (merged (w_deltas w)) w) ;;
  e ← get;
  for_each (w_deltas (scratch_ e)) (check_delta ops) ;;
  for_each (w_touched (scratch_ e)) (prepare n) ;;
  e ← get;
  let order := publish_order ops e in
  let ks := stage_ranks e n fp in
  modify (fun e => with_domain (ReserveRetirements (domain_ e) (retires fp)) e) ;;
  modify (fun e => foldl new_entry e (w_deltas (scratch_ e))) ;;
  r ← publish_all (mk_retirer [] [] [] fp 0 None true) order;
  mret (fp, ks, r).

Definition ApplyImpl (ops : list (Op value)) (expected_generation : option Z)
    (consistency : Consistency) (owned : option (list rid)) : apply Result :=
  let n := length ops in
  e ← get;
  '(_, e) ← lift (ReclaimRetiredLocked e);
  e ← lift (RecomputeRanksLocked e);
  modify (fun _ => e) ;;
  if reference_cycle_ e then return_ (Reject e n 0 ECycle)
  else if match expected_generation with
          | Some g => bool_decide (g <> generation_ e)
          | None => false
          end
  then return_ (refused kConflict e n)
  else
    modify (with_scratch (clear_scratch n)) ;;
    for_each (imap pair ops) (check_op n consistency owned) ;;
    scratch (fun w => set_keys (sort_keys (w_keys w)) w) ;;
    e ← get;
    match find_duplicate None (w_keys (scratch_ e)) with
    | Some i =>
        op ← lift (at_ ops i);
        return_ (Reject e n i (ESecondOperation (op_resource op) (op_key op)))
    | None =>
        '(fp, ks, r) ← guarded abort (reserve_and_publish ops);
        commit n fp ks r
    end.

Definition outcome_index (o : Outcome) : nat :=
  match o with
  | kApplied => 0
  | kRejected => 1
  | kConflict => 2
  | kBusy => 3
  | kUnsupported => 4
  end.

Definition Counted (r : Result) (on_busy : OnBusy) (e : t) : t :=
  match outcome r, on_busy with
  | kBusy, kRetry => with_counts (outcome_counts_ e) (wrap 64 (busy_retried_ e + 1)) e
  | o, _ =>
      with_counts (alter (fun c => wrap 64 (c + 1)) (outcome_index o) (outcome_counts_ e))
        (busy_retried_ e) e
  end.

Definition Apply (ops : list (Op value)) (expected_generation : option Z)
    (consistency : Consistency) (on_busy : OnBusy) (e : t) : run (Result * t) :=
  '(r, e) ← finish (ApplyImpl ops expected_generation consistency None) e;
  mret (r, Counted r on_busy e).

Definition ApplyOwned (owned : list rid) (ops : list (Op value)) (e : t)
    : run (Result * t) :=
  '(r, e) ← finish (ApplyImpl ops None kReferential (Some owned)) e;
  mret (r, Counted r kAnswer e).

(** ** Batches *)

Definition FitBatch (d : domain) (r : Result) (take : nat) : nat :=
  if over_budget r then (1 `max` (take / 2))%nat
  else if bool_decide (outcome r = kApplied) &&
          bool_decide (may_retire r * 2 <= retire_budget d)
  then (take `max` ((take * 2) `min` (1 `max` Z.to_nat (retire_budget d))))%nat
  else take.

(** The first failed operation gets its resource's name. *)
Fixpoint name_failed (ops : list (Op value)) (rs : list OpResult) : list OpResult :=
  match rs, ops with
  | r :: rs, op :: ops =>
      if bool_decide (status r = kOpFailed)
      then mk_op_result (status r) (error r) (op_resource op) :: rs
      else r :: name_failed ops rs
  | _, _ => rs
  end.

Definition with_ops (ops : list OpResult) (r : Result) : Result :=
  mk_result (outcome r) (r_generation r) ops (over_budget r) (may_retire r).

(** The retry loop of one batch at the front of [ops]: the result that ended
    the loop, the batch size it ended with, and whether the batch applied. *)
Fixpoint apply_batch (fuel : nat) (ops : list (Op value)) (consistency : Consistency)
    (n retry : nat) (e : t) : run (Result * nat * bool * t) :=
  match fuel with
  | O => Undef
  | S fuel =>
      '(r, e) ← Apply (take n ops) None consistency kAnswer e;
      if bool_decide (outcome r = kApplied) then mret (r, n, true, e)
      else if bool_decide (outcome r = kBusy) && bool_decide (retry < 5)%nat
      then apply_batch fuel ops consistency n (retry + 1) e
      else if bool_decide (outcome r = kRejected) && over_budget r &&
              bool_decide (1 < n)%nat
      then apply_batch fuel ops consistency (FitBatch (domain_ e) r n) (retry + 1) e
      else mret (with_ops (name_failed ops (r_ops r)) r, n, false, e)
  end.

(** Retries and halvings of a batch of [n] operations. *)
Definition batch_fuel (n : nat) : nat := n + 6.

Fixpoint apply_batches (fuel : nat) (ops : list (Op value)) (consistency : Consistency)
    (n : nat) (last : Result) (e : t) : run (Result * t) :=
  match fuel with
  | O => Undef
  | S fuel =>
      match ops with
      | [] => mret (last, e)
      | _ =>
          let n := (n `min` length ops)%nat in
          '(r, n, applied, e) ← apply_batch (batch_fuel n) ops consistency n 0 e;
          if (applied : bool)
          then apply_batches fuel (drop n ops) consistency (FitBatch (domain_ e) r n) r e
          else mret (r, e)
      end
  end.

Definition ApplyBatched (ops : list (Op value)) (consistency : Consistency) (e : t)
    : run (Result * t) :=
  match ops with
  | [] => mret (mk_result kApplied (generation_ e) [] false 0, e)
  | _ => apply_batches (S (length ops)) ops consistency (length ops)
           (mk_result kRejected 0 [] false 0) e
  end.

End Engine.

End Eng.
