(* ===== verification/EngineRanks.v ===== *)
(** * Publication ranks

    [RecomputeRanksLocked] relaxes the ranks of all registered resources until
    a pass changes nothing or the pass budget is spent. The reference
    definition is the longest chain of references that starts at a resource;
    the theorem says the loop computes it exactly when the graph is acyclic,
    whatever the iteration order of the hash map, and raises
    [reference_cycle_] exactly when it is not. *)

From stdpp Require Import finite.
From S2P Require Import Prelude Resource Engine.
Import Res Eng.
Open Scope Z_scope.

Module Ranks.

Section Ranks.
Context {RS : Resources} {DM : Domain} {MM : Memory}.
Implicit Types (rs : gmap string Registration) (n a b : string).

(** ** The bound graph *)

(** Every bound name is registered. *)
Definition closed rs : Prop :=
  map_Forall (fun _ reg =>
    Forall (fun d => is_Some (rs !! d)) (deps reg) ∧
    (∀ h, reg_key_holder reg = Some h -> is_Some (rs !! h))) rs.

(** [a] must publish after [b]: it may reference [b], or a resource whose keys
    [b] may hold. *)
Definition edge rs a b : Prop :=
  ∃ reg d dreg, rs !! a = Some reg ∧ d ∈ deps reg ∧ rs !! d = Some dreg ∧
    (b = d ∨ reg_key_holder dreg = Some b).

(** A chain of [k] references starts at [a]. *)
Definition chain rs (k : nat) a : Prop := ∃ b, nsteps (edge rs) k a b.

(** The same registrations up to their ranks. *)
Definition ranks_differ rs rs' : Prop := set_rank 0 <$> rs' = set_rank 0 <$> rs.

Definition rank_at rs n : Z := match rs !! n with Some reg => rank reg | None => 0 end.

(** ** Chains and cycles *)

Lemma nsteps_path {A} (R : relation A) k x y :
  nsteps R k x y ->
  ∃ l, length l = S k ∧ l !! 0%nat = Some x ∧
    ∀ i u v, l !! i = Some u -> l !! S i = Some v -> R u v.
Proof.
  induction 1 as [x | k x y z Hxy _ (l & Hl & H0 & HR)].
  - exists [x]. split_and!; [done.. |]. by intros [| i] u v.
  - exists (x :: l). simpl. split_and!; [lia | done |].
    intros [| i] u v; simpl; [| apply HR]. congruence.
Qed.

Lemma path_tc {A} (R : relation A) (l : list A) i j x y :
  (∀ i u v, l !! i = Some u -> l !! S i = Some v -> R u v) ->
  (i < j)%nat -> l !! i = Some x -> l !! j = Some y -> tc R x y.
Proof.
  intros HR Hij Hx. revert y. induction Hij as [| j Hij IH]; intros y Hy.
  - apply tc_once. eauto.
  - destruct (lookup_lt_is_Some_2 l j) as [z Hz].
    { apply lookup_lt_Some in Hy. lia. }
    eapply tc_r; [by apply IH | eauto].
Qed.

(** A chain with as many references as there are resources repeats one. *)
Lemma long_chain_cycle rs k n :
  closed rs -> is_Some (rs !! n) -> chain rs k n -> (size rs <= k)%nat ->
  ∃ a, tc (edge rs) a a.
Proof.
  intros Hcl Hn [m Hm] Hk. destruct (nsteps_path _ _ _ _ Hm) as (l & Hl & H0 & HR).
  destruct (list_pigeonhole l (elements (dom rs))) as (i & j & x & Hij & Hi & Hj).
  - intros x Hx. apply elem_of_elements, elem_of_dom.
    apply list_elem_of_lookup in Hx as [[| i] Hi]; [congruence |].
    destruct (lookup_lt_is_Some_2 l i) as [y Hy].
    { apply lookup_lt_Some in Hi. lia. }
    destruct (HR _ _ _ Hy Hi) as (reg & d & dreg & Ha & Hd & Hdr & [-> | Hh]); [done |].
    by apply (Hcl _ _ Hdr).
  - rewrite Hl. change (length (elements (dom rs))) with (size (dom rs)).
    rewrite size_dom. lia.
  - exists x. by eapply path_tc.
Qed.

(** ** The relaxation *)

Lemma ranks_differ_lookup rs rs' n reg :
  ranks_differ rs rs' -> rs !! n = Some reg ->
  rs' !! n = Some (set_rank (rank_at rs' n) reg).
Proof.
  intros Hd Hn. pose proof (f_equal (.!! n) Hd) as He.
  rewrite !lookup_fmap, Hn in He. unfold rank_at.
  destruct (rs' !! n) as [reg' |]; [| done]. destruct reg, reg'. simpl in *.
  injection He as ???????. by subst.
Qed.

Lemma ranks_differ_sym rs rs' : ranks_differ rs rs' -> ranks_differ rs' rs.
Proof. by unfold ranks_differ. Qed.

Lemma ranks_differ_trans rs rs' rs'' :
  ranks_differ rs rs' -> ranks_differ rs' rs'' -> ranks_differ rs rs''.
Proof. unfold ranks_differ. congruence. Qed.

Lemma ranks_differ_insert rs n reg k :
  rs !! n = Some reg -> ranks_differ rs (<[n := set_rank k reg]> rs).
Proof.
  intros Hn. unfold ranks_differ. rewrite fmap_insert.
  apply insert_id. by rewrite lookup_fmap, Hn.
Qed.

Lemma ranks_differ_registered rs rs' n :
  ranks_differ rs rs' -> is_Some (rs !! n) -> is_Some (rs' !! n).
Proof. intros Hd [reg Hn]. rewrite (ranks_differ_lookup _ _ _ _ Hd Hn). eauto. Qed.

Lemma edge_ranks rs rs' a b : ranks_differ rs rs' -> edge rs a b -> edge rs' a b.
Proof.
  intros Hd (reg & d & dreg & Ha & Hin & Hdr & Hb).
  eexists _, d, _. split_and!; [by apply (ranks_differ_lookup rs) | done | |].
  - by apply (ranks_differ_lookup rs).
  - done.
Qed.

Lemma closed_ranks rs rs' : ranks_differ rs rs' -> closed rs -> closed rs'.
Proof.
  intros Hd Hcl n reg' Hn'. apply ranks_differ_sym in Hd as Hd'.
  pose proof (ranks_differ_lookup _ _ _ _ Hd' Hn') as Hn.
  destruct (Hcl _ _ Hn) as [Hdeps Hh]. simpl in *. split.
  - eapply Forall_impl; [exact Hdeps |]. intros d. by apply ranks_differ_registered.
  - intros h Heq. eapply ranks_differ_registered; [done |]. by apply Hh.
Qed.

(** [k] is what one evaluation of [a]'s rank yields. *)
Definition is_rank rs a (k : Z) : Prop :=
  0 <= k ∧ (∀ b, edge rs a b -> rank_at rs b + 1 <= k) ∧
  (k = 0 ∨ ∃ b, edge rs a b ∧ k = rank_at rs b + 1).

Definition settled rs a : Prop := is_rank rs a (rank_at rs a).

Lemma is_rank_unique rs a k k' : is_rank rs a k -> is_rank rs a k' -> k = k'.
Proof.
  intros (H1 & H2 & H3) (H1' & H2' & H3').
  destruct H3 as [-> | (b & Hb & ->)], H3' as [-> | (b' & Hb' & ->)]; [done |..].
  - specialize (H2 _ Hb'). lia.
  - specialize (H2' _ Hb). lia.
  - specialize (H2 _ Hb'). specialize (H2' _ Hb). lia.
Qed.

Lemma is_rank_agree rs rs' a k :
  ranks_differ rs rs' -> (∀ b, edge rs a b -> rank_at rs' b = rank_at rs b) ->
  is_rank rs a k -> is_rank rs' a k.
Proof.
  intros Hd Hag (H1 & H2 & H3). split_and!; [done | |].
  - intros b Hb. apply (edge_ranks _ rs) in Hb; [| by apply ranks_differ_sym].
    rewrite Hag by done. by apply H2.
  - destruct H3 as [-> | (b & Hb & ->)]; [by left | right]. exists b.
    rewrite Hag by done. split; [by eapply edge_ranks | done].
Qed.

(** What the loop over the dependencies has seen. *)
Lemma rank_from_spec rs ds k0 :
  closed rs -> Forall (fun d => is_Some (rs !! d)) ds ->
  ∃ k, rank_from rs ds k0 = Ret k ∧ k0 <= k ∧
    (∀ d dreg b, d ∈ ds -> rs !! d = Some dreg ->
       b = d ∨ reg_key_holder dreg = Some b -> rank_at rs b + 1 <= k) ∧
    (k = k0 ∨ ∃ d dreg b, d ∈ ds ∧ rs !! d = Some dreg ∧
       (b = d ∨ reg_key_holder dreg = Some b) ∧ k = rank_at rs b + 1).
Proof.
  intros Hcl Hds. revert k0. induction Hds as [| d ds [dreg Hd] _ IH]; intros k0; simpl.
  - exists k0. split_and!; [done | lia | | by left]. intros ??? Hin. by apply not_elem_of_nil in Hin.
  - rewrite (deref_lookup _ _ _ Hd). simpl.
    assert (rank_at rs d = rank dreg) as Hrd by (unfold rank_at; by rewrite Hd).
    destruct (reg_key_holder dreg) as [h |] eqn:Hh.
    + destruct (proj2 (Hcl _ _ Hd) _ Hh) as [hreg Hhr].
      rewrite (deref_lookup _ _ _ Hhr). simpl.
      assert (rank_at rs h = rank hreg) as Hrh by (unfold rank_at; by rewrite Hhr).
      destruct (IH (Z.max (Z.max k0 (rank dreg + 1)) (rank hreg + 1)))
        as (k & -> & Hle & Hall & Hex).
      exists k. split_and!; [done | lia | |].
      * intros d' dreg' b Hin Hd' Hb. apply elem_of_cons in Hin as [-> | Hin]; [| eauto].
        rewrite Hd in Hd'. injection Hd' as <-.
        destruct Hb as [-> | Hb]; [lia |]. rewrite Hh in Hb. injection Hb as <-. lia.
      * destruct Hex as [-> | (d' & dreg' & b & Hin & Hd' & Hb & ->)].
        2: { right. exists d', dreg', b. split_and!; [by right | done..]. }
        assert (Z.max (Z.max k0 (rank dreg + 1)) (rank hreg + 1) = k0 ∨
                Z.max (Z.max k0 (rank dreg + 1)) (rank hreg + 1) = rank dreg + 1 ∨
                Z.max (Z.max k0 (rank dreg + 1)) (rank hreg + 1) = rank hreg + 1)
          as [-> | [-> | ->]] by lia; [by left | right; exists d, dreg, d | right; exists d, dreg, h];
          (split_and!; [by left | done | eauto | lia]).
    + destruct (IH (Z.max k0 (rank dreg + 1))) as (k & -> & Hle & Hall & Hex).
      exists k. split_and!; [done | lia | |].
      * intros d' dreg' b Hin Hd' Hb. apply elem_of_cons in Hin as [-> | Hin]; [| eauto].
        rewrite Hd in Hd'. injection Hd' as <-.
        destruct Hb as [-> | Hb]; [lia | congruence].
      * destruct Hex as [-> | (d' & dreg' & b & Hin & Hd' & Hb & ->)].
        2: { right. exists d', dreg', b. split_and!; [by right | done..]. }
        assert (Z.max k0 (rank dreg + 1) = k0 ∨ Z.max k0 (rank dreg + 1) = rank dreg + 1)
          as [-> | ->] by lia; [by left | right; exists d, dreg, d].
        split_and!; [by left | done | eauto | lia].
Qed.

Lemma rank_from_is_rank rs a reg :
  closed rs -> rs !! a = Some reg ->
  ∃ k, rank_from rs (deps reg) 0 = Ret k ∧ is_rank rs a k.
Proof.
  intros Hcl Ha. destruct (rank_from_spec rs (deps reg) 0 Hcl) as (k & He & H0 & Hall & Hex).
  { apply (Hcl _ _ Ha). }
  exists k. split; [done |]. split_and!; [done | |].
  - intros b (reg' & d & dreg & Ha' & Hin & Hd & Hb). simplify_eq. eauto.
  - destruct Hex as [-> | (d & dreg & b & Hin & Hd & Hb & ->)]; [by left | right].
    exists b. split; [| done]. by exists reg, d, dreg.
Qed.

(** One evaluation inside a pass. *)
Lemma rank_at_insert rs n reg k m :
  rs !! n = Some reg ->
  rank_at (<[n := set_rank k reg]> rs) m = if decide (m = n) then k else rank_at rs m.
Proof.
  intros Hn. unfold rank_at. case_decide as Hm.
  - subst. by rewrite lookup_insert_eq.
  - by rewrite lookup_insert_ne.
Qed.

Lemma rank_pass_cons rs changed n reg ns :
  closed rs -> rs !! n = Some reg ->
  ∃ k, is_rank rs n k ∧
    rank_pass rs changed (n :: ns) =
    rank_pass (<[n := set_rank k reg]> rs) (changed || bool_decide (k <> rank reg)) ns.
Proof.
  intros Hcl Hn. destruct (rank_from_is_rank rs n reg Hcl Hn) as (k & He & Hk).
  exists k. split; [done |]. simpl. rewrite (deref_lookup _ _ _ Hn). simpl. rewrite He. simpl.
  case_bool_decide as Hch; [by rewrite orb_true_r |]. rewrite orb_false_r.
  rewrite insert_id; [done |]. rewrite Hn. f_equal. subst k. by destruct reg.
Qed.

(** [U] is a set of resources, closed under references, whose ranks are
    already right: evaluating one more rank keeps them. *)
Definition right_ranks (rs : gmap string Registration) (U : string -> Prop) : Prop :=
  (∀ a, U a -> settled rs a) ∧ (∀ a b, U a -> edge rs a b -> U b).

Lemma right_ranks_insert rs n reg k U :
  rs !! n = Some reg -> is_rank rs n k -> right_ranks rs U ->
  (∀ a, U a -> rank_at (<[n := set_rank k reg]> rs) a = rank_at rs a) ∧
  right_ranks (<[n := set_rank k reg]> rs) U.
Proof.
  intros Hn Hk [HUs HUc]. pose proof (ranks_differ_insert rs n reg k Hn) as Hd.
  assert (∀ a, U a -> rank_at (<[n := set_rank k reg]> rs) a = rank_at rs a) as Hkeep.
  { intros a Ha. rewrite (rank_at_insert _ _ reg) by done. case_decide; [subst | done].
    eapply is_rank_unique; [exact Hk | by apply HUs]. }
  split; [done |]. split.
  - intros a Ha. unfold settled. rewrite Hkeep by done.
    apply (is_rank_agree rs); [done | | by apply HUs].
    intros b Hb. apply Hkeep. by eapply HUc.
  - intros a b Ha Hb. eapply HUc; [done |]. eapply edge_ranks; [| done].
    by apply ranks_differ_sym.
Qed.

(** A pass leaves right ranks alone and settles every resource it visits that
    references only such. *)
Lemma rank_pass_spec ns rs changed :
  closed rs -> Forall (fun n => is_Some (rs !! n)) ns ->
  ∃ rs' changed', rank_pass rs changed ns = Ret (rs', changed') ∧ ranks_differ rs rs' ∧
    (changed' = false -> changed = false ∧ rs' = rs ∧ Forall (settled rs) ns) ∧
    (Forall (settled rs) ns -> changed' = changed) ∧
    ∀ U, right_ranks rs U ->
      (∀ a, U a -> rank_at rs' a = rank_at rs a) ∧ right_ranks rs' U ∧
      (∀ a, a ∈ ns -> (∀ b, edge rs a b -> U b) -> settled rs' a).
Proof.
  revert rs changed. induction ns as [| n ns IH]; intros rs changed Hcl Hreg.
  { exists rs, changed. split_and!; try done. intros U HU. split_and!; [done.. |].
    intros a Ha. by apply not_elem_of_nil in Ha. }
  apply Forall_cons in Hreg as [[reg Hn] Hreg].
  destruct (rank_pass_cons rs changed n reg ns Hcl Hn) as (k & Hk & ->).
  assert (rank_at rs n = rank reg) as Hrn by (unfold rank_at; by rewrite Hn).
  pose proof (ranks_differ_insert rs n reg k Hn) as Hd.
  assert (k = rank reg -> <[n := set_rank k reg]> rs = rs) as Hsame.
  { intros ->. apply insert_id. rewrite Hn. f_equal. by destruct reg. }
  destruct (IH (<[n := set_rank k reg]> rs) (changed || bool_decide (k <> rank reg)))
    as (rs' & changed' & -> & Hd' & Hno & Hall & HU).
  { by eapply closed_ranks. }
  { eapply Forall_impl; [exact Hreg |]. intros m. by apply ranks_differ_registered. }
  exists rs', changed'. split_and!; [done | by eapply ranks_differ_trans |..].
  - intros Hf. destruct (Hno Hf) as (Hc & -> & Hs). apply orb_false_iff in Hc as [-> Hc].
    apply bool_decide_eq_false in Hc. apply dec_stable in Hc.
    rewrite Hsame in * by done. split_and!; [done.. |]. constructor; [| done].
    unfold settled. rewrite Hrn. by subst k.
  - intros [Hs Hss]%Forall_cons.
    assert (k = rank reg) as Heq by (rewrite <- Hrn; by eapply is_rank_unique).
    rewrite Hsame in * by done. rewrite Hall by done.
    rewrite bool_decide_eq_false_2 by tauto. by rewrite orb_false_r.
  - intros U HUr. destruct (right_ranks_insert _ _ _ _ _ Hn Hk HUr) as [Hkeep HUr1].
    destruct (HU U HUr1) as (HU1 & HU2 & HU3). split_and!; [| done |].
    { intros a Ha. by rewrite HU1, Hkeep. }
    intros a Hin Hsucc.
    assert (∀ b, edge (<[n := set_rank k reg]> rs) a b -> U b) as Hsucc1.
    { intros b Hb. apply Hsucc. eapply edge_ranks; [| done]. by apply ranks_differ_sym. }
    apply elem_of_cons in Hin as [-> | Hin]; [| by apply HU3].
    destruct (HU (fun a => U a ∨ a = n)) as (_ & [HV _] & _); [| apply HV; by right].
    split.
    + intros a [Ha | ->]; [by apply HUr1 |]. unfold settled.
      rewrite (rank_at_insert _ _ reg) by done. rewrite decide_True by done.
      apply (is_rank_agree rs); [done | | done]. intros b Hb. apply Hkeep. by apply Hsucc.
    + intros a b [Ha | ->] Hb; left; [by eapply HUr1 | by apply Hsucc1].
Qed.

Lemma ordered_registered rs : Forall (fun n => is_Some (rs !! n)) (ordered rs).
Proof.
  unfold ordered. rewrite hash_order_perm. apply Forall_forall. intros n Hn.
  by apply elem_of_elements, elem_of_dom in Hn.
Qed.

Lemma elem_of_ordered rs n : n ∈ ordered rs <-> is_Some (rs !! n).
Proof.
  unfold ordered. rewrite hash_order_perm, elem_of_elements. apply elem_of_dom.
Qed.

(** An unregistered name has no references. *)
Lemma settled_all rs : Forall (settled rs) (ordered rs) -> ∀ a, settled rs a.
Proof.
  intros Hs a. destruct (rs !! a) as [reg |] eqn:Ha.
  - rewrite Forall_forall in Hs. apply Hs. by apply elem_of_ordered.
  - unfold settled, rank_at. rewrite Ha. split_and!; [done | | by left].
    intros b (? & ? & ? & ? & _). congruence.
Qed.

Lemma chain_ranks rs rs' k a : ranks_differ rs rs' -> chain rs k a -> chain rs' k a.
Proof.
  intros Hd [b Hb]. exists b. induction Hb; [constructor |].
  eapply nsteps_l; [by eapply edge_ranks | done].
Qed.

#[local] Instance chain_dec rs k a : Decision (chain rs k a).
Proof.
  revert a. induction k as [| k IH]; intros a.
  { left. exists a. constructor. }
  set (succs := match rs !! a with
                | None => []
                | Some reg =>
                    d ← deps reg;
                    match rs !! d with
                    | None => []
                    | Some dreg => d :: option_list (reg_key_holder dreg)
                    end
                end).
  assert (∀ b, edge rs a b <-> b ∈ succs) as Hsucc.
  { intros b. unfold succs, edge. destruct (rs !! a) as [reg |].
    2: { split; [intros (? & ? & ? & [=] & _) | intros Hb; by apply not_elem_of_nil in Hb]. }
    rewrite list_elem_of_bind. split.
    - intros (reg' & d & dreg & [= <-] & Hd & Hdr & Hb). exists d. split; [| done].
      rewrite Hdr. apply elem_of_cons. destruct Hb as [-> | ->]; [by left | right].
      by apply list_elem_of_singleton.
    - intros (d & Hb & Hd). destruct (rs !! d) as [dreg |] eqn:Hdr;
        [| by apply not_elem_of_nil in Hb].
      exists reg, d, dreg. split_and!; [done.. |].
      apply elem_of_cons in Hb as [-> | Hb]; [by left | right].
      destruct (reg_key_holder dreg); [| by apply not_elem_of_nil in Hb].
      apply list_elem_of_singleton in Hb. congruence. }
  destruct (decide (Exists (chain rs k) succs)) as [He | Hne].
  - left. apply Exists_exists in He as (b & Hb & c & Hc). exists c.
    eapply nsteps_l; [by apply Hsucc | done].
  - right. intros [c Hc]. apply Hne. inversion Hc; subst.
    apply Exists_exists. eexists. split; [by apply Hsucc | by eexists].
Defined.

(** After [p] passes the resources with no chain of [p] references are
    settled. *)
Definition settled_below rs (p : nat) : Prop := ∀ a, ¬ chain rs p a -> settled rs a.

Lemma settled_below_right rs p :
  settled_below rs p -> right_ranks rs (fun a => ¬ chain rs p a).
Proof.
  intros Hs. split; [done |]. intros a b Ha Hab [c Hc]. apply Ha.
  assert (nsteps (edge rs) (S p) a c) as Hn by by eapply nsteps_l.
  replace (S p) with (p + 1)%nat in Hn by lia.
  apply nsteps_add_inv in Hn as (d & Hd & _). by exists d.
Qed.

Lemma rank_passes_spec passes p rs changed :
  closed rs -> settled_below rs p -> (passes <> 0)%nat ->
  ∃ rs' changed', rank_passes passes rs changed = Ret (rs', changed') ∧
    ranks_differ rs rs' ∧ (changed' = false -> ∀ a, settled rs' a) ∧
    ((∀ a, is_Some (rs !! a) -> ¬ chain rs (p + passes - 1) a) -> changed' = false).
Proof.
  revert p rs changed. induction passes as [| passes IH]; [done |].
  intros p rs changed Hcl Hp _. simpl.
  destruct (rank_pass_spec (ordered rs) rs false Hcl (ordered_registered rs))
    as (rs1 & c1 & -> & Hd & Hno & Hall & HU). simpl. destruct c1.
  2: { exists rs1, false. destruct (Hno eq_refl) as (_ & -> & Hs).
       split_and!; [done.. | intros _; by apply settled_all | done]. }
  assert (settled_below rs1 (S p)) as Hp1.
  { intros a Ha. destruct (rs !! a) as [reg |] eqn:Hra.
    - destruct (HU _ (settled_below_right _ _ Hp)) as (_ & _ & HU3).
      apply HU3; [by apply elem_of_ordered |]. intros b Hb [c Hc]. apply Ha.
      apply (chain_ranks rs); [done |]. exists c. by eapply nsteps_l.
    - unfold settled, rank_at.
      assert (rs1 !! a = None) as Hra1.
      { apply eq_None_not_Some. intros Hs. apply (ranks_differ_registered rs1 rs) in Hs;
          [| by apply ranks_differ_sym]. rewrite Hra in Hs. by destruct Hs. }
      rewrite Hra1. split_and!; [done | | by left]. intros b (? & ? & ? & ? & _). congruence. }
  destruct (decide (passes = 0)%nat) as [-> | Hne].
  - simpl. exists rs1, true. split_and!; [done.. |].
    intros Hac. apply Hall. apply Forall_forall. intros a Hin%elem_of_ordered. apply Hp.
    specialize (Hac a Hin). by replace (p + 1 - 1)%nat with p in Hac by lia.
  - destruct (IH (S p) rs1 true) as (rs' & c' & -> & Hd' & Hs & Hac);
      [by eapply closed_ranks | done | done |].
    exists rs', c'. split_and!; [done | by eapply ranks_differ_trans | done |].
    intros Hnc. apply Hac. intros a Hin Ha. apply (Hnc a).
    { eapply ranks_differ_registered; [by apply ranks_differ_sym | done]. }
    replace (p + S passes - 1)%nat with (S p + passes - 1)%nat by lia.
    eapply chain_ranks; [by apply ranks_differ_sym | done].
Qed.

(** ** Settled ranks are longest chains *)

Lemma settled_edge rs a b :
  (∀ a, settled rs a) -> edge rs a b -> rank_at rs b < rank_at rs a.
Proof. intros Hs Hab. destruct (Hs a) as (_ & Ha & _). specialize (Ha _ Hab). lia. Qed.

Lemma settled_tc rs a b :
  (∀ a, settled rs a) -> tc (edge rs) a b -> rank_at rs b < rank_at rs a.
Proof.
  intros Hs. induction 1 as [a b Hab | a b c Hab _ IH].
  - by apply settled_edge.
  - pose proof (settled_edge _ _ _ Hs Hab). lia.
Qed.

Lemma settled_chain_le rs k a :
  (∀ a, settled rs a) -> chain rs k a -> Z.of_nat k <= rank_at rs a.
Proof.
  intros Hs [b Hb]. induction Hb as [a | k a b c Hab _ IH].
  - by destruct (Hs a).
  - pose proof (settled_edge _ _ _ Hs Hab). lia.
Qed.

Lemma settled_chain rs k a :
  (∀ a, settled rs a) -> rank_at rs a = Z.of_nat k -> chain rs k a.
Proof.
  intros Hs. revert a. induction k as [| k IH]; intros a Ha.
  - exists a. constructor.
  - destruct (Hs a) as (_ & _ & [H0 | (b & Hb & Heq)]); [lia |].
    destruct (IH b) as [c Hc]; [lia |]. exists c. by eapply nsteps_l.
Qed.

Lemma settled_rank rs k a :
  (∀ a, settled rs a) -> rank_at rs a = Z.of_nat k <-> chain rs k a ∧ ¬ chain rs (S k) a.
Proof.
  intros Hs. split.
  - intros Ha. split; [by apply settled_chain |].
    intros Hc. apply settled_chain_le in Hc; [lia | done].
  - intros [Hk Hn]. apply settled_chain_le in Hk; [| done].
    destruct (decide (rank_at rs a = Z.of_nat k)); [done |]. destruct Hn.
    assert (chain rs (Z.to_nat (rank_at rs a)) a) as [b Hb].
    { apply settled_chain; [done |]. destruct (Hs a). lia. }
    replace (Z.to_nat (rank_at rs a)) with (S k + (Z.to_nat (rank_at rs a) - S k))%nat in Hb by lia.
    apply nsteps_add_inv in Hb as (c & Hc & _). by exists c.
Qed.

Lemma tc_ranks rs rs' a b : ranks_differ rs rs' -> tc (edge rs) a b -> tc (edge rs') a b.
Proof.
  intros Hd. induction 1 as [x y Hxy | x y z Hxy _ IH].
  - apply tc_once. by eapply edge_ranks.
  - eapply tc_l; [by eapply edge_ranks | done].
Qed.

(** What a dirty [RecomputeRanksLocked] leaves. *)
Lemma recompute_dirty e :
  closed (resources_ e) -> ranks_dirty_ e = true ->
  ∃ rs' cycle, RecomputeRanksLocked e = Ret (with_ranks false cycle (with_resources rs' e)) ∧
    ranks_differ (resources_ e) rs' ∧
    (cycle = false -> ∀ a, settled rs' a) ∧
    (cycle = true -> ∃ a, tc (edge (resources_ e)) a a).
Proof.
  intros Hcl Hdirty. unfold RecomputeRanksLocked. rewrite Hdirty. simpl negb. cbv iota zeta.
  assert (ranks_differ (resources_ e) (set_rank 0 <$> resources_ e)) as Hd0.
  { unfold ranks_differ. rewrite <- map_fmap_compose. apply map_fmap_ext.
    by intros n reg _. }
  destruct (rank_passes_spec (S (size (resources_ e))) 0 (set_rank 0 <$> resources_ e) false)
    as (rs' & c & -> & Hd & Hs & Hac).
  { by eapply closed_ranks. }
  { intros a Ha. destruct Ha. exists a. constructor. }
  { done. }
  simpl. exists rs', c.
  assert (ranks_differ (resources_ e) rs') as Hdd by by eapply ranks_differ_trans.
  split_and!; [done.. |]. intros ->.
  destruct (decide (Exists (chain (resources_ e) (size (resources_ e)))
                      (ordered (resources_ e)))) as [He | Hne].
  - apply Exists_exists in He as (a & Ha & Hc).
    eapply long_chain_cycle; [done | by apply elem_of_ordered | done | done].
  - exfalso. discriminate Hac. intros a Ha Hc. apply Hne. apply Exists_exists. exists a. split.
    + apply elem_of_ordered.
      eapply ranks_differ_registered; [exact (ranks_differ_sym _ _ Hd0) | done].
    + eapply chain_ranks; [exact (ranks_differ_sym _ _ Hd0) |].
      by replace (0 + S (size (resources_ e)) - 1)%nat with (size (resources_ e)) in Hc by lia.
Qed.

(** C15. After [RecomputeRanksLocked] every resource's rank is the length of the
    longest chain of references (key holders included) that starts at it,
    independently of the hash map's iteration order, and [reference_cycle_] is
    raised exactly when the bound graph has a cycle. *)
Theorem ranks_are_longest_chains e :
  closed (resources_ e) -> ranks_dirty_ e = true ->
  ∃ e', RecomputeRanksLocked e = Ret e' ∧ ranks_dirty_ e' = false ∧
    (reference_cycle_ e' = true <-> ∃ a, tc (edge (resources_ e)) a a) ∧
    (reference_cycle_ e' = false -> ∀ a (k : nat),
       rank_at (resources_ e') a = Z.of_nat k <->
       chain (resources_ e) k a ∧ ¬ chain (resources_ e) (S k) a).
Proof.
  intros Hcl Hdirty. destruct (recompute_dirty e Hcl Hdirty) as (rs' & c & -> & Hd & Hs & Hc).
  eexists. split; [done |]. simpl. split_and!; [done | split; [done |] |].
  - intros [a Ha]. destruct c; [done |]. exfalso.
    pose proof (settled_tc rs' a a (Hs eq_refl) (tc_ranks _ _ _ _ Hd Ha)). lia.
  - intros Hf a k. rewrite (settled_rank _ _ _ (Hs Hf)). split.
    + intros [H1 H2]. apply ranks_differ_sym in Hd as Hd'. split.
      * by eapply chain_ranks.
      * intros H3. apply H2. by eapply chain_ranks.
    + intros [H1 H2]. apply ranks_differ_sym in Hd as Hd'. split.
      * by eapply chain_ranks.
      * intros H3. apply H2. by eapply chain_ranks.
Qed.

End Ranks.
End Ranks.
