(* ===== verification/EngineRegistry.v ===== *)
(** * The registry and the reference ledger

    What a set of registrations means: which names a resource's references
    resolve to, which registration a reference is counted on, and how many
    references name each key ([ledger]). [reg_inv] says the bound graph is the
    declared graph restricted to what is registered; [exact] says the ledger
    the engine keeps is the count. Both are established by [Register] and
    [ReleaseForTeardown] and kept by [Unregister]. *)

From S2P Require Import Prelude Resource Engine EngineRanks.
Import Res Eng.
Open Scope Z_scope.

Module Registry.

Section Registry.
Context {RS : Resources} {DM : Domain} {MM : Memory} {RV : ResourceView}.
Implicit Types (rs : gmap string Registration) (n h k : string) (w : world).

(** ** The graph *)

(** A registration without its counters. *)
Definition core (reg : Registration) : rid * list string * list string * option string :=
  (resource reg, deps reg, unresolved reg, reg_key_holder reg).

Definition same_graph rs rs' : Prop := core <$> rs' = core <$> rs.

Definition registered rs n : Prop := is_Some (rs !! n).

Definition reg_ok rs n (reg : Registration) : Prop :=
  name (resource reg) = n ∧ (n ∉ declared_references (resource reg)) ∧
  (∀ d, d ∈ deps reg <-> d ∈ declared_references (resource reg) ∧ registered rs d) ∧
  (∀ d, d ∈ unresolved reg <-> d ∈ declared_references (resource reg) ∧ ¬ registered rs d) ∧
  (∀ h, reg_key_holder reg = Some h <->
     h = key_holder (resource reg) ∧ h <> EmptyString ∧ registered rs h).

Definition reg_inv rs : Prop := map_Forall (reg_ok rs) rs.

Lemma same_graph_lookup rs rs' n reg :
  same_graph rs rs' -> rs !! n = Some reg -> ∃ reg', rs' !! n = Some reg' ∧ core reg' = core reg.
Proof.
  intros Hg Hn. pose proof (f_equal (.!! n) Hg) as He.
  rewrite !lookup_fmap, Hn in He. destruct (rs' !! n) as [reg' |]; [| done].
  injection He as ????. exists reg'. split; [done |]. unfold core. by f_equal; [f_equal; [f_equal |] |].
Qed.

Lemma same_graph_sym rs rs' : same_graph rs rs' -> same_graph rs' rs.
Proof. by unfold same_graph. Qed.

Lemma same_graph_trans rs rs' rs'' :
  same_graph rs rs' -> same_graph rs' rs'' -> same_graph rs rs''.
Proof. unfold same_graph. congruence. Qed.

Lemma same_graph_registered rs rs' n : same_graph rs rs' -> registered rs n <-> registered rs' n.
Proof.
  intros Hg. apply same_graph_sym in Hg as Hg'. split; intros [reg Hn].
  - destruct (same_graph_lookup _ _ _ _ Hg Hn) as (? & ? & _). by eexists.
  - destruct (same_graph_lookup _ _ _ _ Hg' Hn) as (? & ? & _). by eexists.
Qed.

Lemma same_graph_dom rs rs' : same_graph rs rs' -> dom rs' = dom rs.
Proof. intros Hg. by rewrite <- (dom_fmap_L core rs'), Hg, dom_fmap_L. Qed.

Lemma same_graph_fmap rs (f : Registration -> Registration) :
  (∀ reg, core (f reg) = core reg) -> same_graph rs (f <$> rs).
Proof.
  intros Hf. unfold same_graph. rewrite <- map_fmap_compose. apply map_fmap_ext.
  intros n reg _. apply Hf.
Qed.

Lemma same_graph_alter rs n (f : Registration -> Registration) :
  (∀ reg, core (f reg) = core reg) -> same_graph rs (alter f n rs).
Proof.
  intros Hf. unfold same_graph. apply map_eq. intros m. rewrite !lookup_fmap.
  destruct (decide (n = m)) as [-> |].
  - rewrite lookup_alter_eq. destruct (rs !! m); simpl; [by rewrite Hf | done].
  - by rewrite lookup_alter_ne.
Qed.

Lemma same_graph_insert rs n reg reg' :
  rs !! n = Some reg -> core reg' = core reg -> same_graph rs (<[n := reg']> rs).
Proof.
  intros Hn Hc. unfold same_graph. rewrite fmap_insert, Hc. apply insert_id.
  by rewrite lookup_fmap, Hn.
Qed.

Lemma ranks_differ_graph rs rs' : Ranks.ranks_differ rs rs' -> same_graph rs rs'.
Proof.
  unfold Ranks.ranks_differ, same_graph. intros Hd.
  assert (∀ m : gmap string Registration, core <$> m = core <$> (set_rank 0 <$> m)) as Hc.
  { intros m. rewrite <- map_fmap_compose. apply map_fmap_ext. by intros ?? _. }
  rewrite (Hc rs'), Hd. symmetry. apply Hc.
Qed.

Lemma reg_inv_graph rs rs' : same_graph rs rs' -> reg_inv rs -> reg_inv rs'.
Proof.
  intros Hg Hi n reg' Hn'. apply same_graph_sym in Hg as Hg'.
  destruct (same_graph_lookup _ _ _ _ Hg' Hn') as (reg & Hn & Hc).
  injection Hc as Hr Hd Hu Hk. destruct (Hi _ _ Hn) as (H1 & H2 & H3 & H4 & H5).
  unfold reg_ok. rewrite <- Hr, <- Hd, <- Hu, <- Hk. split_and!; [done | done |..].
  - intros d. rewrite H3. by rewrite (same_graph_registered _ _ _ Hg).
  - intros d. rewrite H4. by rewrite (same_graph_registered _ _ _ Hg).
  - intros h. rewrite H5. by rewrite (same_graph_registered _ _ _ Hg).
Qed.

Lemma reg_inv_closed rs : reg_inv rs -> Ranks.closed rs.
Proof.
  intros Hi n reg Hn. destruct (Hi _ _ Hn) as (_ & _ & H3 & _ & H5). split.
  - apply Forall_forall. intros d Hd. by apply H3.
  - intros h Hh. by apply H5.
Qed.

Lemma dep_registered rs n reg d :
  reg_inv rs -> rs !! n = Some reg -> d ∈ deps reg -> registered rs d.
Proof. intros Hi Hn Hd. destruct (Hi _ _ Hn) as (_ & _ & H3 & _). by apply H3. Qed.

(** ** References *)

(** A reference resolves exactly when it is bound. *)
Lemma Resolve_spec reg d :
  Resolve reg d = if decide (d ∈ deps reg) then Some d else None.
Proof.
  unfold Resolve. destruct (list_find _ _) as [[i x] |] eqn:Hf; simpl.
  - apply list_find_Some in Hf as (Hi & -> & _). rewrite decide_True; [done |].
    by eapply list_elem_of_lookup_2.
  - apply list_find_None in Hf. rewrite decide_False; [done |].
    intros Hin. rewrite Forall_forall in Hf. by apply (Hf d).
Qed.

(** [Holder] as a function. *)
Definition holder_at rs w (target key : string) (b : bool) : option string :=
  reg ← rs !! target;
  if bool_decide (key_holder (resource reg) = EmptyString) ||
     negb (HeldByKeyHolder (resource reg) w key b)
  then Some target else reg_key_holder reg.

Lemma Holder_at rs w target key b :
  registered rs target -> Holder rs w target key b = Ret (holder_at rs w target key b).
Proof.
  intros [reg Hr]. unfold Holder, holder_at. rewrite (deref_lookup _ _ _ Hr), Hr. simpl.
  by destruct (_ || _).
Qed.

Lemma holder_at_registered rs w target key b h :
  reg_inv rs -> holder_at rs w target key b = Some h -> registered rs h.
Proof.
  intros Hi. unfold holder_at. destruct (rs !! target) as [reg |] eqn:Hr; [| done]. simpl.
  case_match; intros Hh; [injection Hh as <-; by eexists |]. by apply (Hi _ _ Hr) in Hh as (_ & _ & ?).
Qed.

(** Where a reference of [reg] is counted. *)
Definition counted_on rs w (b : bool) (reg : Registration) (ref : Reference)
    : option (string * string) :=
  target ← Resolve reg (ref_resource ref);
  h ← holder_at rs w target (ref_key ref) b;
  Some (h, ref_key ref).

(** The references the values of a resource hold. *)
Definition refs_of w (r : rid) : list Reference := mjoin (map_to_list (committed w r)).*2.

Definition count rs w b reg (refs : list Reference) h k : nat :=
  length (filter (fun ref => counted_on rs w b reg ref = Some (h, k)) refs).

(** References to key [k] of [h] held by the values of [n]. *)
Definition count_from rs w b h k n : nat :=
  match rs !! n with
  | Some reg => count rs w b reg (refs_of w (resource reg)) h k
  | None => 0
  end.

(** References to key [k] of [h] held by all committed values. *)
Definition ledger rs w b h k : nat := sum_list_with (count_from rs w b h k) (elements (dom rs)).

Definition entry (c : nat) : option Z := if decide (c = 0%nat) then None else Some (Z.of_nat c).

Definition exact rs w : Prop :=
  map_Forall (fun h reg => ∀ k, incoming reg !! k = entry (ledger rs w false h k)) rs.

Lemma holder_at_graph rs rs' w target key b :
  same_graph rs rs' -> holder_at rs' w target key b = holder_at rs w target key b.
Proof.
  intros Hg. unfold holder_at. destruct (rs !! target) as [reg |] eqn:Hr.
  - destruct (same_graph_lookup _ _ _ _ Hg Hr) as (reg' & -> & Hc).
    injection Hc as Hr' _ _ Hk. simpl. by rewrite Hr', Hk.
  - destruct (rs' !! target) as [reg' |] eqn:Hr'; [| done].
    destruct (same_graph_lookup _ _ _ _ (same_graph_sym _ _ Hg) Hr') as (? & ? & _). congruence.
Qed.

Lemma counted_on_graph rs rs' w b reg reg' ref :
  same_graph rs rs' -> core reg' = core reg ->
  counted_on rs' w b reg' ref = counted_on rs w b reg ref.
Proof.
  intros Hg Hc. injection Hc as _ Hd _ _. unfold counted_on.
  assert (Resolve reg' (ref_resource ref) = Resolve reg (ref_resource ref)) as ->.
  { unfold Resolve. by rewrite Hd. }
  destruct (Resolve _ _); [| done]. simpl. by rewrite (holder_at_graph rs).
Qed.

Lemma count_graph rs rs' w b reg reg' refs h k :
  same_graph rs rs' -> core reg' = core reg ->
  count rs' w b reg' refs h k = count rs w b reg refs h k.
Proof.
  intros Hg Hc. unfold count. f_equal. apply list_filter_iff. intros ref.
  by rewrite (counted_on_graph rs rs' w b reg reg').
Qed.

Lemma count_from_graph rs rs' w b h k n :
  same_graph rs rs' -> count_from rs' w b h k n = count_from rs w b h k n.
Proof.
  intros Hg. unfold count_from. destruct (rs !! n) as [reg |] eqn:Hr.
  - destruct (same_graph_lookup _ _ _ _ Hg Hr) as (reg' & -> & Hc).
    rewrite (count_graph rs rs' w b reg reg') by done. by injection Hc as ->.
  - destruct (rs' !! n) as [reg' |] eqn:Hr'; [| done].
    destruct (same_graph_lookup _ _ _ _ (same_graph_sym _ _ Hg) Hr') as (? & ? & _). congruence.
Qed.

Lemma ledger_graph rs rs' w b h k :
  same_graph rs rs' -> ledger rs' w b h k = ledger rs w b h k.
Proof.
  intros Hg. unfold ledger. rewrite (same_graph_dom _ _ Hg).
  induction (elements (dom rs)) as [| n ns IH]; [done |]. simpl.
  by rewrite IH, (count_from_graph rs).
Qed.

(** ** Rebuilding the ledger *)

(** The same registrations up to their reference counts. *)
Definition counts_differ rs rs' : Prop := set_incoming ∅ <$> rs' = set_incoming ∅ <$> rs.

Definition incoming_of rs h : gmap string Z :=
  match rs !! h with Some reg => incoming reg | None => ∅ end.

Definition inc rs h k : Z := default 0 (incoming_of rs h !! k).

Lemma counts_differ_lookup rs rs' n reg :
  counts_differ rs rs' -> rs !! n = Some reg ->
  rs' !! n = Some (set_incoming (incoming_of rs' n) reg).
Proof.
  intros Hd Hn. pose proof (f_equal (.!! n) Hd) as He.
  rewrite !lookup_fmap, Hn in He. unfold incoming_of.
  destruct (rs' !! n) as [reg' |]; [| done]. destruct reg, reg'. simpl in *.
  injection He as ????????. by subst.
Qed.

Lemma counts_differ_trans rs rs' rs'' :
  counts_differ rs rs' -> counts_differ rs' rs'' -> counts_differ rs rs''.
Proof. unfold counts_differ. congruence. Qed.

Lemma counts_differ_insert rs n reg i :
  rs !! n = Some reg -> counts_differ rs (<[n := set_incoming i reg]> rs).
Proof.
  intros Hn. unfold counts_differ. rewrite fmap_insert.
  apply insert_id. by rewrite lookup_fmap, Hn.
Qed.

Lemma counts_differ_fmap rs (f : Registration -> Registration) :
  (∀ reg, set_incoming ∅ (f reg) = set_incoming ∅ reg) -> counts_differ rs (f <$> rs).
Proof.
  intros Hf. unfold counts_differ. rewrite <- map_fmap_compose. apply map_fmap_ext.
  intros n reg _. apply Hf.
Qed.

Lemma counts_differ_graph rs rs' : counts_differ rs rs' -> same_graph rs rs'.
Proof.
  unfold counts_differ, same_graph. intros Hd.
  assert (∀ m : gmap string Registration, core <$> m = core <$> (set_incoming ∅ <$> m)) as Hc.
  { intros m. rewrite <- map_fmap_compose. apply map_fmap_ext. by intros ?? _. }
  rewrite (Hc rs'), Hd. symmetry. apply Hc.
Qed.

Lemma inc_insert rs n reg i h k :
  rs !! n = Some reg ->
  inc (<[n := set_incoming i reg]> rs) h k = if decide (h = n) then default 0 (i !! k) else inc rs h k.
Proof.
  intros Hn. unfold inc, incoming_of. case_decide; subst.
  - by rewrite lookup_insert_eq.
  - by rewrite lookup_insert_ne.
Qed.

Lemma count_cons rs w b reg ref refs h k :
  count rs w b reg (ref :: refs) h k =
  ((if decide (counted_on rs w b reg ref = Some (h, k)) then 1 else 0) +
   count rs w b reg refs h k)%nat.
Proof. unfold count. rewrite filter_cons. by case_decide. Qed.

Lemma count_reference_spec rs w from reg ref :
  reg_inv rs -> rs !! from = Some reg ->
  ∃ rs', count_reference w from rs ref = Ret rs' ∧ counts_differ rs rs' ∧
    ∀ h k, inc rs' h k = inc rs h k +
      if decide (counted_on rs w false reg ref = Some (h, k)) then 1 else 0.
Proof.
  intros Hi Hf. unfold count_reference. rewrite (deref_lookup _ _ _ Hf). simpl.
  unfold counted_on. rewrite (Resolve_spec reg (ref_resource ref)). case_decide as Hd; simpl.
  2: { exists rs. split_and!; [done.. |]. intros h k. lia. }
  assert (registered rs (ref_resource ref)) as Hr by by eapply dep_registered.
  rewrite Holder_at by done. simpl.
  destruct (holder_at _ _ _ _ _) as [h |] eqn:Hh; simpl.
  2: { exists rs. split_and!; [done.. |]. intros h k. lia. }
  destruct (holder_at_registered _ _ _ _ _ _ Hi Hh) as [hreg Hhr].
  rewrite (deref_lookup _ _ _ Hhr). simpl.
  eexists. split_and!; [done | by apply counts_differ_insert |].
  intros h' k. rewrite inc_insert by done. destruct (decide (h' = h)) as [-> | Hne].
  - unfold inc, incoming_of. rewrite Hhr.
    destruct (decide (k = ref_key ref)) as [-> | Hk].
    + rewrite lookup_insert_eq, decide_True by done. done.
    + rewrite lookup_insert_ne, decide_False by congruence. lia.
  - rewrite decide_False by congruence. lia.
Qed.

Lemma count_references_spec rs w from reg refs :
  reg_inv rs -> rs !! from = Some reg ->
  ∃ rs', count_references w from rs refs = Ret rs' ∧ counts_differ rs rs' ∧
    ∀ h k, inc rs' h k = inc rs h k + Z.of_nat (count rs w false reg refs h k).
Proof.
  revert rs reg. induction refs as [| ref refs IH]; intros rs reg Hi Hf; simpl.
  { exists rs. split_and!; [done.. |]. intros. unfold count. simpl. lia. }
  destruct (count_reference_spec rs w from reg ref Hi Hf) as (rs1 & -> & Hd1 & H1). simpl.
  pose proof (counts_differ_graph _ _ Hd1) as Hg1.
  destruct (same_graph_lookup _ _ _ _ Hg1 Hf) as (reg1 & Hf1 & Hc1).
  destruct (IH rs1 reg1 (reg_inv_graph _ _ Hg1 Hi) Hf1) as (rs' & -> & Hd & H2).
  exists rs'. split_and!; [done | by eapply counts_differ_trans |].
  intros h k. rewrite H2, H1, count_cons, (count_graph rs rs1 w false reg reg1) by done.
  case_decide; lia.
Qed.

Context {RL : ResourceLaws}.

Lemma count_perm rs w b reg refs refs' h k :
  refs ≡ₚ refs' -> count rs w b reg refs h k = count rs w b reg refs' h k.
Proof. intros Hp. unfold count. by rewrite Hp. Qed.

Lemma visit_resources_spec S rs w ns :
  tx w [] ∅ ∅ S -> reg_inv rs -> Forall (registered rs) ns ->
  ∃ rs', visit_resources w rs ns = Ret rs' ∧ counts_differ rs rs' ∧
    ∀ h k, inc rs' h k =
      inc rs h k + Z.of_nat (sum_list_with (count_from rs w false h k) ns).
Proof.
  intros Htx. revert rs. induction ns as [| n ns IH]; intros rs Hi Hns; simpl.
  { exists rs. split_and!; [done.. |]. intros. lia. }
  apply Forall_cons in Hns as [[reg Hn] Hns]. rewrite (deref_lookup _ _ _ Hn). simpl.
  destruct (VisitReferences_law w S (resource reg) Htx) as (refs & -> & Hperm). simpl.
  destruct (count_references_spec rs w n reg refs Hi Hn) as (rs1 & -> & Hd1 & H1). simpl.
  pose proof (counts_differ_graph _ _ Hd1) as Hg1.
  destruct (IH rs1) as (rs' & -> & Hd & H2).
  { by eapply reg_inv_graph. }
  { eapply Forall_impl; [exact Hns |]. intros m. by apply same_graph_registered. }
  exists rs'. split_and!; [done | by eapply counts_differ_trans |].
  intros h k. rewrite H2, H1. unfold count_from at 2. rewrite Hn.
  rewrite (count_perm _ _ _ _ refs (refs_of w (resource reg))) by done.
  assert (sum_list_with (count_from rs1 w false h k) ns =
          sum_list_with (count_from rs w false h k) ns) as ->; [| lia].
  clear -Hg1. induction ns as [| m ns IH]; [done |]. simpl.
  by rewrite IH, (count_from_graph rs).
Qed.

Lemma rebuild_exact S rs w :
  tx w [] ∅ ∅ S -> reg_inv rs ->
  ∃ rs', RebuildIncomingLocked w rs = Ret rs' ∧ counts_differ rs rs' ∧ exact rs' w.
Proof.
  intros Htx Hi. unfold RebuildIncomingLocked.
  assert (counts_differ rs (zero_counts <$> rs)) as Hd0 by by apply counts_differ_fmap.
  pose proof (counts_differ_graph _ _ Hd0) as Hg0.
  destruct (visit_resources_spec S (zero_counts <$> rs) w (ordered (zero_counts <$> rs)))
    as (rs1 & -> & Hd1 & H1); [done | by eapply reg_inv_graph | apply Ranks.ordered_registered |].
  simpl. eexists. split; [done |].
  assert (counts_differ rs1 (drop_zeros <$> rs1)) as Hd2 by by apply counts_differ_fmap.
  split; [by do 2 (eapply counts_differ_trans; [done |]) |].
  intros h reg Hh k. apply lookup_fmap_Some in Hh as (reg1 & <- & Hh).
  assert (inc rs1 h k = Z.of_nat (ledger (drop_zeros <$> rs1) w false h k)) as Hinc.
  { rewrite H1. unfold inc at 1, incoming_of. rewrite lookup_fmap.
    rewrite (ledger_graph (zero_counts <$> rs)).
    2: { apply counts_differ_graph. by eapply counts_differ_trans. }
    unfold ledger, ordered. rewrite hash_order_perm.
    destruct (rs !! h) as [reg |]; simpl.
    - rewrite lookup_fmap. destruct (incoming reg !! k); simpl; lia.
    - rewrite lookup_empty. simpl. lia. }
  unfold inc, incoming_of in Hinc. rewrite Hh in Hinc.
  unfold entry. revert Hinc. generalize (ledger (drop_zeros <$> rs1) w false h k).
  intros c' Hinc. simpl. destruct (incoming reg1 !! k) as [c |] eqn:Hk; simpl in Hinc.
  - case_decide as H0.
    + apply map_lookup_filter_None. right. intros x Hx. simplify_eq. simpl. lia.
    + apply map_lookup_filter_Some. simpl. split; [congruence | lia].
  - rewrite decide_True by lia. apply map_lookup_filter_None. by left.
Qed.

End Registry.

End Registry.
