(* ===== verification/EngineInv.v ===== *)
(** * The engine's invariant, and reclamation

    [inv] is what holds of the engine between calls. Reclamation keeps it:
    removal steps run at most once, in order, their owners are registered when
    they run, and the counters ([deferred_objects_], [pending_removals]) stay
    the number of steps left. *)

From S2P Require Import Prelude Resource Engine EngineRanks EngineRegistry.
Import Res Eng Registry.
Open Scope Z_scope.

Module Inv.

Section Inv.
Context {RS : Resources} {DM : Domain} {MM : Memory} {RV : ResourceView} {RL : ResourceLaws}.
Implicit Types (rs : gmap string Registration) (e : t) (w : world).

(** ** Steps still to run *)

Definition steps_left (c : Cascade) : list Step :=
  match drop (c_next c) (c_stages c) with
  | [] => []
  | stage :: rest => drop (c_ran c) stage ++ mjoin rest
  end.

Definition all_steps (cs : list Cascade) : list Step := mjoin (steps_left <$> cs).

Definition owned_by (r : rid) (l : list Step) : nat :=
  length (filter (fun s => s_owner s = r) l).

(** A step's owner is still the resource registered under its name. *)
Definition has_owner rs (s : Step) : Prop :=
  ∃ reg, rs !! name (s_owner s) = Some reg ∧ resource reg = s_owner s.

(** The counters match the steps [l]. *)
Record bookkeeping e (l : list Step) : Prop := {
  b_world : tx (world_ e) [] ∅ ∅ (s_fn <$> l);
  b_owners : Forall (has_owner (resources_ e)) l;
  b_deferred : deferred_objects_ e = Z.of_nat (length l);
  b_pending : map_Forall (fun _ reg =>
                pending_removals reg = Z.of_nat (owned_by (resource reg) l)) (resources_ e)
}.

Record inv e : Prop := {
  i_reg : reg_inv (resources_ e);
  i_exact : exact (resources_ e) (world_ e);
  i_ranks : ranks_dirty_ e = false -> reference_cycle_ e = false ->
            ∀ n, Ranks.settled (resources_ e) n;
  i_untouched : map_Forall (fun _ reg => touched reg = false) (resources_ e);
  i_steps : bookkeeping e (all_steps (cascades_ e))
}.

(** What reclamation leaves alone. *)
Definition pending_differ rs rs' : Prop := set_pending 0 <$> rs' = set_pending 0 <$> rs.

(** A world removal steps show has the collections and holders of [w]. *)
Definition quiet w (ev : event) : Prop :=
  match ev with
  | EvWorld w' => (∀ r, committed w' r = committed w r) ∧ same_held false w w' ∧
                  ∃ S, tx w' [] ∅ ∅ S
  | _ => True
  end.

Record reclaim_frame e e' : Prop := {
  f_resources : pending_differ (resources_ e) (resources_ e');
  f_generation : generation_ e' = generation_ e;
  f_dirty : ranks_dirty_ e' = ranks_dirty_ e;
  f_cycle : reference_cycle_ e' = reference_cycle_ e;
  f_committed : ∀ r, committed (world_ e') r = committed (world_ e) r;
  f_held : same_held false (world_ e) (world_ e');
  f_trace : ∃ evs, trace e' = trace e ++ evs ∧ Forall (quiet (world_ e)) evs
}.

Lemma reclaim_frame_event e e' evs :
  resources_ e' = resources_ e -> generation_ e' = generation_ e ->
  ranks_dirty_ e' = ranks_dirty_ e -> reference_cycle_ e' = reference_cycle_ e ->
  world_ e' = world_ e -> trace e' = trace e ++ evs ->
  Forall (fun ev => match ev with EvWorld _ => False | _ => True end) evs -> reclaim_frame e e'.
Proof.
  intros Hr ? ? ? Hw Ht Hev. constructor; try done; rewrite ?Hr, ?Hw; try done.
  exists evs. split; [done |]. eapply Forall_impl; [exact Hev |]. by intros [].
Qed.

Lemma reclaim_frame_refl e : reclaim_frame e e.
Proof. apply (reclaim_frame_event e e []); [done.. | by rewrite app_nil_r | done]. Qed.

Lemma reclaim_frame_trans e e' e'' :
  reclaim_frame e e' -> reclaim_frame e' e'' -> reclaim_frame e e''.
Proof.
  intros [? ? ? ? Hc Hh (evs & Ht & Hev)] [? ? ? ? Hc' Hh' (evs' & Ht' & Hev')].
  unfold pending_differ in *. constructor; unfold pending_differ; try congruence.
  exists (evs ++ evs'). split; [by rewrite Ht', Ht, app_assoc |]. apply Forall_app. split; [done |].
  eapply Forall_impl; [exact Hev' |]. intros [| | w]; simpl; [done.. |]. intros (H1 & H2 & H3).
  split_and!; [congruence | | done]. intros r k. by rewrite H2, Hh.
Qed.

Lemma pending_differ_lookup rs rs' n reg :
  pending_differ rs rs' -> rs !! n = Some reg ->
  ∃ p, rs' !! n = Some (set_pending p reg).
Proof.
  intros Hd Hn. pose proof (f_equal (.!! n) Hd) as He. rewrite !lookup_fmap, Hn in He.
  destruct (rs' !! n) as [reg' |]; [| done]. exists (pending_removals reg').
  destruct reg, reg'. simpl in *. injection He as ????????. by subst.
Qed.

Lemma pending_differ_sym rs rs' : pending_differ rs rs' -> pending_differ rs' rs.
Proof. by unfold pending_differ. Qed.

Lemma pending_differ_graph rs rs' : pending_differ rs rs' -> same_graph rs rs'.
Proof.
  unfold pending_differ, same_graph. intros Hd.
  assert (∀ m : gmap string Registration, core <$> m = core <$> (set_pending 0 <$> m)) as Hc.
  { intros m. rewrite <- map_fmap_compose. apply map_fmap_ext. by intros ?? _. }
  rewrite (Hc rs'), Hd. symmetry. apply Hc.
Qed.

(** ** The ledger depends on the committed collections only *)

Lemma holder_at_view rs w w' target key b :
  same_held b w w' -> holder_at rs w' target key b = holder_at rs w target key b.
Proof.
  intros Hh. unfold holder_at. destruct (rs !! target); simpl; [| done]. by rewrite Hh.
Qed.

Lemma counted_on_view rs w w' b reg ref :
  same_held b w w' -> counted_on rs w' b reg ref = counted_on rs w b reg ref.
Proof.
  intros Hh. unfold counted_on. destruct (Resolve _ _); simpl; [| done].
  by rewrite (holder_at_view _ w).
Qed.

Lemma count_view rs w w' b reg refs h k :
  same_held b w w' -> count rs w' b reg refs h k = count rs w b reg refs h k.
Proof.
  intros Hh. unfold count. f_equal. apply list_filter_iff. intros ref.
  by rewrite (counted_on_view _ w).
Qed.

Lemma ledger_view rs w w' b h k :
  (∀ r, committed w' r = committed w r) -> same_held b w w' ->
  ledger rs w' b h k = ledger rs w b h k.
Proof.
  intros Hc Hh. unfold ledger. induction (elements (dom rs)) as [| n ns IH]; [done |].
  simpl. rewrite IH. f_equal. unfold count_from, refs_of.
  destruct (rs !! n); [| done]. by rewrite (count_view _ w), Hc.
Qed.

Lemma exact_frame rs rs' w w' :
  pending_differ rs rs' -> (∀ r, committed w' r = committed w r) -> same_held false w w' ->
  exact rs w -> exact rs' w'.
Proof.
  intros Hd Hc Hh He h reg Hr k.
  destruct (pending_differ_lookup _ _ _ _ (pending_differ_sym _ _ Hd) Hr) as [p Hr'].
  rewrite (ledger_graph rs) by by apply pending_differ_graph.
  rewrite (ledger_view _ w) by done. by rewrite <- (He _ _ Hr').
Qed.

(** ** Removal steps *)

(** Outside publication a step may retire what it likes. *)
Lemma do_calls_plain r cs o :
  enforce_ r = false -> owner_ r = Some o -> steps_of cs = [] -> afters_of cs = [] ->
  ∃ r', do_calls r cs = Ret r' ∧ enforce_ r' = false ∧ owner_ r' = Some o ∧
    after_ r' = after_ r ∧ removals_ r' = removals_ r ∧
    retire_ r' = retire_ r ++ ((fun x => (x, o)) <$> retires_of cs).
Proof.
  revert r. induction cs as [| c cs IH]; intros r He Ho Hs Ha; simpl.
  { exists r. split_and!; try done. simpl. by rewrite app_nil_r. }
  destruct c as [[x |] | s | f]; [| | done | done].
  - simpl. unfold CheckRoom, owner. rewrite He, Ho. simpl.
    destruct (IH (mk_retirer (retire_ r ++ [(x, o)]) (after_ r) (removals_ r)
                    (capacity_ r) (rank_ r) (Some o) false))
      as (r' & -> & ? & ? & ? & ? & Hr); [done.. |].
    exists r'. split_and!; try done. rewrite Hr. simpl. by rewrite <- app_assoc.
  - simpl. by apply IH.
Qed.

Lemma owned_by_cons r s l :
  owned_by r (s :: l) = ((if decide (s_owner s = r) then 1 else 0) + owned_by r l)%nat.
Proof. unfold owned_by. rewrite filter_cons. by case_decide. Qed.

Lemma RegistrationOf_owner rs s : has_owner rs s -> RegistrationOf rs (s_owner s) = Ret (name (s_owner s)).
Proof.
  intros (reg & Hr & Hreg). unfold RegistrationOf. rewrite Hr.
  by rewrite bool_decide_eq_true_2.
Qed.

(** One step has run: its counters come down with it. *)
Lemma bookkeeping_step e s l w' :
  reg_inv (resources_ e) -> bookkeeping e (s :: l) -> tx w' [] ∅ ∅ (s_fn <$> l) ->
  (∀ r, committed w' r = committed (world_ e) r) -> same_held false (world_ e) w' ->
  let e1 := with_event (EvWorld w') (with_world w' e) in
  let e2 := with_deferred (deferred_objects_ e1 - 1) e1 in
  let e3 := update (name (s_owner s))
              (fun reg => set_pending (pending_removals reg - 1) reg) e2 in
  bookkeeping e3 l ∧ reclaim_frame e e3.
Proof.
  intros Hi [Hw Ho Hd Hp] Htx Hc Hh e1 e2 e3. apply Forall_cons in Ho as [(reg & Hr & Hown) Ho].
  assert (pending_differ (resources_ e) (resources_ e3)) as Hpd.
  { unfold pending_differ, e3. simpl. apply map_eq. intros n. rewrite !lookup_fmap.
    destruct (decide (n = name (s_owner s))) as [-> | Hne].
    - by rewrite lookup_alter_eq, Hr.
    - by rewrite lookup_alter_ne. }
  split; [| constructor; try done].
  2: { exists [EvWorld w']. split; [done |]. apply Forall_singleton. split_and!; eauto. }
  constructor; simpl.
  - done.
  - eapply Forall_impl; [exact Ho |]. intros s' (reg' & Hr' & Hown').
    destruct (pending_differ_lookup _ _ _ _ Hpd Hr') as [p Hp']. by eexists.
  - rewrite Hd. simpl. lia.
  - intros n reg' Hn. destruct (decide (n = name (s_owner s))) as [-> | Hne].
    + rewrite lookup_alter_eq, Hr in Hn. injection Hn as <-. simpl.
      rewrite (Hp _ _ Hr), owned_by_cons, decide_True by done. lia.
    + rewrite lookup_alter_ne in Hn by done. rewrite (Hp _ _ Hn), owned_by_cons.
      rewrite decide_False; [done |]. intros Heq. apply Hne. rewrite Heq. symmetry.
      apply (Hi _ _ Hn).
Qed.

Lemma run_steps_spec steps e retirer ran rest :
  reg_inv (resources_ e) -> bookkeeping e (steps ++ rest) -> after_ retirer = [] ->
  ∃ e' retirer' ran' refused done todo,
    run_steps e retirer steps ran = Ret (e', retirer', ran', refused) ∧
    steps = done ++ todo ∧ ran' = (ran + length done)%nat ∧
    (refused = false -> todo = []) ∧ bookkeeping e' (todo ++ rest) ∧
    reclaim_frame e e' ∧ domain_ e' = domain_ e ∧ cascades_ e' = cascades_ e ∧
    after_ retirer' = [] ∧
    (length (retire_ retirer') <= length (retire_ retirer) + length done)%nat.
Proof.
  revert e retirer ran. induction steps as [| s steps IH]; intros e retirer ran Hi Hb Ha; simpl.
  { exists e, retirer, ran, false, [], [].
    split_and!; try done; try lia. apply reclaim_frame_refl. }
  pose proof (b_owners _ _ Hb) as Ho. apply Forall_cons in Ho as [Hown _].
  rewrite (RegistrationOf_owner _ _ Hown). simpl.
  destruct (run_step_law (world_ e) (s_fn <$> (steps ++ rest)) (s_fn s))
    as (o & -> & Hlaw); [apply (b_world _ _ Hb) |]. simpl.
  destruct o as [[w' cs] |].
  2: { exists e, (for_owner retirer (rank_ retirer) (s_owner s) false), ran, true, [], (s :: steps).
       split_and!; try done; simpl; try lia. apply reclaim_frame_refl. }
  destruct Hlaw as (Htx & Hc & Hh & _ & Hret & Hs & Hf).
  destruct (do_calls_plain (for_owner retirer (rank_ retirer) (s_owner s) false) cs (s_owner s))
    as (r1 & -> & _ & _ & Ha1 & _ & Hr1); [done.. |]. simpl.
  destruct (bookkeeping_step e s (steps ++ rest) w' Hi Hb Htx Hc Hh) as [Hb1 Hf1].
  simpl deferred_objects_ in Hb1, Hf1. set (e1 := update _ _ _) in *.
  destruct (IH e1 r1 (ran + 1)%nat) as
    (e' & r' & ran' & refused & d & td & -> & -> & -> & Href & Hb' & Hf' & Hdom & Hcas & Har & Hlen);
    [| exact Hb1 | by rewrite Ha1 |].
  { eapply reg_inv_graph; [| exact Hi]. apply pending_differ_graph, Hf1. }
  eexists e', r', _, refused, (s :: d), td. split_and!; try done.
  - simpl. lia.
  - by eapply reclaim_frame_trans.
  - etransitivity; [exact Hlen |]. rewrite Hr1, length_app, length_fmap. simpl. lia.
Qed.

(** ** Cascades *)

Lemma bookkeeping_perm e l l' : l ≡ₚ l' -> bookkeeping e l -> bookkeeping e l'.
Proof.
  intros Hp [Hw Ho Hd Hpe]. constructor.
  - eapply tx_perm; [| exact Hw]. by rewrite Hp.
  - by rewrite <- Hp.
  - by rewrite <- Hp.
  - intros n reg Hn. rewrite (Hpe _ _ Hn). unfold owned_by. by rewrite Hp.
Qed.

(** Bookkeeping is about the registrations, the world and the counter. *)
Lemma bookkeeping_ext e e' l :
  resources_ e' = resources_ e -> world_ e' = world_ e ->
  deferred_objects_ e' = deferred_objects_ e -> bookkeeping e l -> bookkeeping e' l.
Proof. intros Hr Hw Hd [? ? ? ?]. by constructor; rewrite ?Hr, ?Hw, ?Hd. Qed.

Lemma steps_left_next c stage :
  c_stages c !! c_next c = Some stage ->
  steps_left c = drop (c_ran c) stage ++ mjoin (drop (S (c_next c)) (c_stages c)).
Proof. intros Hs. unfold steps_left. by rewrite (drop_S _ _ _ Hs). Qed.

Lemma steps_left_fresh token stages n :
  steps_left (mk_cascade token stages n 0) = mjoin (drop n stages).
Proof. unfold steps_left. simpl. by destruct (drop n stages). Qed.

Lemma run_stage_spec e c stage rest :
  reg_inv (resources_ e) -> c_stages c !! c_next c = Some stage ->
  bookkeeping e (steps_left c ++ rest) ->
  ∃ e' c' go, run_stage e c stage = Ret (e', c', go) ∧
    bookkeeping e' (steps_left c' ++ rest) ∧ reclaim_frame e e' ∧
    cascades_ e' = cascades_ e ∧ c_stages c' = c_stages c ∧
    (c_next c <= c_next c')%nat ∧ (go = true -> (c_next c < c_next c')%nat).
Proof.
  intros Hi Hst Hb. unfold run_stage. case_bool_decide as Hbud.
  { exists e, c, false. split_and!; try done. apply reclaim_frame_refl. }
  set (e0 := with_domain _ e).
  rewrite (steps_left_next _ _ Hst), <- app_assoc in Hb.
  destruct (run_steps_spec (drop (c_ran c) stage) e0 plain_retirer (c_ran c)
              (mjoin (drop (S (c_next c)) (c_stages c)) ++ rest))
    as (e1 & r1 & ran1 & refused & d & td & -> & Hsplit & -> & Href & Hb1 & Hf1 & Hdom & Hcas
        & Haf & _); [done | by apply (bookkeeping_ext e) | done |].
  simpl. destruct (StartGracePeriod (domain_ e1)) as [token d1]. simpl.
  rewrite Haf. simpl. eexists _, _, _. split; [done |]. split_and!.
  - apply (bookkeeping_ext e1); [done.. |].
    eapply bookkeeping_perm; [| exact Hb1]. rewrite app_assoc. f_equiv.
    destruct refused; simpl.
    + rewrite (steps_left_next _ stage) by done. simpl. f_equiv.
      rewrite <- drop_drop, Hsplit, drop_app_length. done.
    + rewrite (Href eq_refl), steps_left_fresh. simpl. by replace (c_next c + 1)%nat with (S (c_next c)) by lia.
  - apply (reclaim_frame_trans _ e0).
    { apply (reclaim_frame_event _ _ []); [done.. | by rewrite app_nil_r | done]. }
    apply (reclaim_frame_trans _ e1); [done |].
    by apply (reclaim_frame_event _ _ [EvStart token]); [.. | repeat constructor].
  - done.
  - done.
  - destruct refused; simpl; lia.
  - destruct refused; simpl; [done | lia].
Qed.

Lemma advance_spec fuel e c rest :
  reg_inv (resources_ e) -> bookkeeping e (steps_left c ++ rest) ->
  ∃ e' c', advance fuel e c = Ret (e', c') ∧ bookkeeping e' (steps_left c' ++ rest) ∧
    reclaim_frame e e' ∧ cascades_ e' = cascades_ e ∧ c_stages c' = c_stages c.
Proof.
  revert e c. induction fuel as [| fuel IH]; intros e c Hi Hb; simpl.
  { exists e, c. split_and!; try done. apply reclaim_frame_refl. }
  destruct (c_stages c !! c_next c) as [stage |] eqn:Hst.
  2: { exists e, c. split_and!; try done. apply reclaim_frame_refl. }
  destruct (IsComplete (domain_ e) (c_token c)) as [[] d].
  2: { eexists _, c. split; [done |]. split_and!; [|..| done].
       - by apply (bookkeeping_ext e).
       - apply (reclaim_frame_event _ _ []); [done.. | by rewrite app_nil_r | done].
       - done. }
  destruct (run_stage_spec (with_event (EvComplete (c_token c)) (with_domain d e)) c stage rest)
    as (e1 & c1 & go & -> & Hb1 & Hf1 & Hc1 & Hs1 & Hn1 & Hgo); [done.. | |].
  { by apply (bookkeeping_ext e). }
  assert (reclaim_frame e e1) as Hf.
  { eapply reclaim_frame_trans; [| exact Hf1].
    by apply (reclaim_frame_event _ _ [EvComplete (c_token c)]); [.. | repeat constructor]. }
  simpl. destruct go; [| by exists e1, c1; split_and!].
  destruct (IH e1 c1) as (e' & c' & -> & Hb' & Hf' & Hc' & Hs').
  { eapply reg_inv_graph; [| exact Hi]. apply pending_differ_graph, Hf. }
  { done. }
  exists e', c'. split_and!; [done | done | by eapply reclaim_frame_trans | by rewrite Hc', Hc1 |].
  congruence.
Qed.

(** The [while] never runs out of fuel: more of it changes nothing. *)
Lemma advance_fuel k fuel e c rest :
  reg_inv (resources_ e) -> bookkeeping e (steps_left c ++ rest) ->
  (length (c_stages c) - c_next c <= fuel)%nat ->
  advance (fuel + k) e c = advance fuel e c.
Proof.
  revert e c. induction fuel as [| fuel IH]; intros e c Hi Hb Hfuel; simpl.
  { destruct k; simpl; [done |].
    by rewrite (lookup_ge_None_2 (c_stages c)) by lia. }
  destruct (c_stages c !! c_next c) as [stage |] eqn:Hst; [| done].
  destruct (IsComplete (domain_ e) (c_token c)) as [[] d]; [| done].
  destruct (run_stage_spec (with_event (EvComplete (c_token c)) (with_domain d e)) c stage rest)
    as (e1 & c1 & go & -> & Hb1 & Hf1 & Hc1 & Hs1 & Hn1 & Hgo); [done.. | |].
  { by apply (bookkeeping_ext e). }
  simpl. destruct go; [| done]. apply IH; [| done |].
  - eapply reg_inv_graph; [| exact Hi]. apply pending_differ_graph, Hf1.
  - specialize (Hgo eq_refl). rewrite Hs1. lia.
Qed.

Lemma all_steps_app cs cs' : all_steps (cs ++ cs') = all_steps cs ++ all_steps cs'.
Proof. unfold all_steps. by rewrite fmap_app, join_app. Qed.

Lemma steps_left_done c : ¬ (c_next c < length (c_stages c))%nat -> steps_left c = [].
Proof. intros Hn. unfold steps_left. by rewrite drop_ge by lia. Qed.

Lemma advance_all_spec cs e kept :
  reg_inv (resources_ e) -> bookkeeping e (all_steps kept ++ all_steps cs) ->
  ∃ e' kept', advance_all e cs kept = Ret (e', kept') ∧ bookkeeping e' (all_steps kept') ∧
    reclaim_frame e e'.
Proof.
  revert e kept. induction cs as [| c cs IH]; intros e kept Hi Hb; simpl.
  { exists e, kept. split_and!; [done | | apply reclaim_frame_refl]. unfold all_steps in Hb at 2. simpl in Hb.
    by rewrite app_nil_r in Hb. }
  destruct (advance_spec (S (length (c_stages c) - c_next c)) e c (all_steps kept ++ all_steps cs))
    as (e1 & c1 & Hadv & Hb1 & Hf1 & Hc1 & Hs1); [done | |].
  { eapply bookkeeping_perm; [| exact Hb]. unfold all_steps. simpl. solve_Permutation. }
  simpl in Hadv. rewrite Hadv. simpl.
  edestruct (IH e1) as (e' & kept' & -> & Hb' & Hf').
  { eapply reg_inv_graph; [| exact Hi]. apply pending_differ_graph, Hf1. }
  2: { exists e', kept'. split_and!; [done.. | by eapply reclaim_frame_trans]. }
  case_bool_decide as Hleft.
  - rewrite all_steps_app. eapply bookkeeping_perm; [| exact Hb1].
    unfold all_steps. simpl. rewrite app_nil_r. solve_Permutation.
  - by rewrite (steps_left_done c1) in Hb1.
Qed.

Lemma reclaim_spec e :
  reg_inv (resources_ e) -> bookkeeping e (all_steps (cascades_ e)) ->
  ∃ k e', ReclaimRetiredLocked e = Ret (k, e') ∧ bookkeeping e' (all_steps (cascades_ e')) ∧
    k = length (cascades_ e') ∧ reclaim_frame e e'.
Proof.
  intros Hi Hb. unfold ReclaimRetiredLocked.
  destruct (advance_all_spec (cascades_ e) e []) as (e1 & kept & -> & Hb1 & Hf1); [done.. |].
  simpl. eexists _, _. split; [done |]. simpl. split_and!; [| done |].
  - by apply (bookkeeping_ext e1).
  - apply (reclaim_frame_trans _ e1); [done |].
    apply (reclaim_frame_event _ _ []); [done.. | by rewrite app_nil_r | done].
Qed.

(** ** The invariant *)

Lemma edge_graph rs rs' a b : same_graph rs rs' -> Ranks.edge rs a b -> Ranks.edge rs' a b.
Proof.
  intros Hg (reg & d & dreg & Ha & Hd & Hdr & Hb).
  destruct (same_graph_lookup _ _ _ _ Hg Ha) as (reg' & Ha' & Hc).
  destruct (same_graph_lookup _ _ _ _ Hg Hdr) as (dreg' & Hdr' & Hc').
  injection Hc as _ Hds _ _. injection Hc' as _ _ _ Hk.
  exists reg', d, dreg'. by rewrite Hds, Hk.
Qed.

Lemma settled_ext rs rs' n :
  same_graph rs rs' -> (∀ m, Ranks.rank_at rs' m = Ranks.rank_at rs m) ->
  Ranks.settled rs n -> Ranks.settled rs' n.
Proof.
  intros Hg Hr (H1 & H2 & H3). unfold Ranks.settled, Ranks.is_rank. rewrite Hr.
  split_and!; [done | |].
  - intros b Hb. rewrite Hr. apply H2. eapply edge_graph; [by apply same_graph_sym | done].
  - destruct H3 as [H3 | (b & Hb & Heq)]; [by left | right].
    exists b. rewrite Hr. split; [by eapply edge_graph | done].
Qed.

Lemma rank_at_pending rs rs' n :
  pending_differ rs rs' -> Ranks.rank_at rs' n = Ranks.rank_at rs n.
Proof.
  intros Hd. unfold Ranks.rank_at. pose proof (f_equal (.!! n) Hd) as He.
  rewrite !lookup_fmap in He. destruct (rs !! n), (rs' !! n); [| done..].
  simpl in He. by injection He.
Qed.

Lemma inv_frame e e' :
  inv e -> reclaim_frame e e' -> bookkeeping e' (all_steps (cascades_ e')) -> inv e'.
Proof.
  intros [Hi He Hr Hu _] [Hd Hg Hdi Hcy Hc Hh _] Hb. pose proof (pending_differ_graph _ _ Hd) as Hgr.
  constructor.
  - by eapply reg_inv_graph.
  - by eapply exact_frame.
  - rewrite Hdi, Hcy. intros H1 H2 n. eapply settled_ext; [done | | by apply Hr].
    intros m. by apply rank_at_pending.
  - intros n reg Hn. destruct (pending_differ_lookup _ _ _ _ (pending_differ_sym _ _ Hd) Hn)
      as [q Hn']. by apply (Hu _ _ Hn').
  - done.
Qed.

Lemma inv_with_domain d e : inv e -> inv (with_domain d e).
Proof. intros [Hi He Hr Hu Hb]. constructor; try done. by apply (bookkeeping_ext e). Qed.

Lemma inv_reclaim e :
  inv e -> ∃ k e', ReclaimRetiredLocked e = Ret (k, e') ∧ inv e' ∧
    k = length (cascades_ e') ∧ reclaim_frame e e'.
Proof.
  intros Hinv. destruct (reclaim_spec e (i_reg _ Hinv) (i_steps _ Hinv))
    as (k & e' & -> & Hb & Hk & Hf).
  exists k, e'. split_and!; [done | by eapply inv_frame | done..].
Qed.

(** What [RecomputeRanksLocked] may change. *)
Lemma inv_ranks e rs' cycle :
  inv e -> Ranks.ranks_differ (resources_ e) rs' ->
  (cycle = false -> ∀ n, Ranks.settled rs' n) ->
  inv (with_ranks false cycle (with_resources rs' e)).
Proof.
  intros [Hi He _ Hu [Hw Ho Hd Hp]] Hdf Hs. pose proof (ranks_differ_graph _ _ Hdf) as Hg.
  assert (∀ n reg', rs' !! n = Some reg' -> ∃ reg k, resources_ e !! n = Some reg ∧
            reg' = set_rank k reg) as Hback.
  { intros n reg' Hn. apply Ranks.ranks_differ_sym in Hdf.
    pose proof (Ranks.ranks_differ_lookup _ _ _ _ Hdf Hn) as Hn'.
    eexists _, (rank reg'). split; [exact Hn' |]. by destruct reg'. }
  constructor; simpl.
  - by eapply reg_inv_graph.
  - intros h reg' Hr k. destruct (Hback _ _ Hr) as (reg & z & Hr' & ->). simpl.
    rewrite (ledger_graph (resources_ e)) by done. by apply He.
  - intros _ Hc. by apply Hs.
  - intros n reg' Hn. destruct (Hback _ _ Hn) as (reg & z & Hr' & ->). by apply (Hu _ _ Hr').
  - constructor; simpl; [done | | done |].
    + eapply Forall_impl; [exact Ho |]. intros s (reg & Hr & Hown).
      destruct (same_graph_lookup _ _ _ _ Hg Hr) as (reg' & Hr' & Hc).
      exists reg'. split; [done |]. injection Hc as ? _ _ _. congruence.
    + intros n reg' Hn. destruct (Hback _ _ Hn) as (reg & z & Hr' & ->). by apply (Hp _ _ Hr').
Qed.

Lemma inv_recompute e :
  inv e -> ∃ rs' cycle, RecomputeRanksLocked e = Ret (with_ranks false cycle (with_resources rs' e)) ∧
    Ranks.ranks_differ (resources_ e) rs' ∧ inv (with_ranks false cycle (with_resources rs' e)).
Proof.
  intros Hinv. destruct (ranks_dirty_ e) eqn:Hdirty.
  - destruct (Ranks.recompute_dirty e) as (rs' & c & -> & Hd & Hs & _);
      [by apply reg_inv_closed, Hinv | done |].
    exists rs', c. split_and!; [done.. |]. by apply inv_ranks.
  - exists (resources_ e), (reference_cycle_ e).
    assert (e = with_ranks false (reference_cycle_ e) (with_resources (resources_ e) e)) as Heq.
    { destruct e. simpl in *. by subst. }
    rewrite <- Heq. split_and!; [| done | done].
    unfold RecomputeRanksLocked. by rewrite Hdirty.
Qed.

End Inv.

End Inv.
