(* ===== verification/EngineRegister.v ===== *)
(** * Joining and leaving the registry

    [Register], [Unregister] and [ReleaseForTeardown] keep the engine's
    invariant. A resource that may register before what it references is bound
    when that appears; one that leaves takes its references out of the ledger.
    [Unregister] keeps the ledger exact for groups that contain the key holders
    of their members. *)

From S2P Require Import Prelude Resource Engine EngineRanks EngineRegistry EngineInv.
Import Res Eng Registry Inv.
Open Scope Z_scope.

Module Join.

Section Join.
Context {RS : Resources} {DM : Domain} {MM : Memory} {RV : ResourceView} {RL : ResourceLaws}.
Implicit Types (rs : gmap string Registration) (e : t) (w : world).

#[local] Instance registered_dec rs n : Decision (registered rs n) := _.

(** ** Binding *)

Lemma rebind_loop_spec rs us ds :
  rebind_loop rs us ds =
  (ds ++ filter (registered rs) us, filter (fun u => ¬ registered rs u) us).
Proof.
  revert ds. induction us as [| u us IH]; intros ds; simpl; [by rewrite app_nil_r |].
  rewrite !filter_cons. destruct (rs !! u) as [reg |] eqn:Hu.
  - rewrite IH. assert (registered rs u) by by eexists.
    rewrite decide_True, decide_False by tauto. by rewrite <- app_assoc.
  - rewrite IH. assert (¬ registered rs u) as Hn by (intros [? ?]; congruence).
    by rewrite decide_False, decide_True.
Qed.

Lemma bind_declared_spec rs self ns ds us ds' us' :
  bind_declared rs self ns ds us = inr (ds', us') ->
  (self ∉ ns) ∧ ds' = ds ++ filter (registered rs) ns ∧
  us' = us ++ filter (fun u => ¬ registered rs u) ns.
Proof.
  revert ds us. induction ns as [| n ns IH]; intros ds us Hb; simpl in Hb.
  { injection Hb as <- <-. simpl. rewrite !app_nil_r. split_and!; [apply not_elem_of_nil | done..]. }
  case_bool_decide as Hs; [done |]. rewrite not_elem_of_cons, !filter_cons.
  destruct (rs !! n) as [reg |] eqn:Hn.
  - apply IH in Hb as (? & -> & ->). assert (registered rs n) by by eexists.
    rewrite decide_True, decide_False by tauto. rewrite <- app_assoc. by split_and!.
  - apply IH in Hb as (? & -> & ->). assert (¬ registered rs n) as Hnn by (intros [? ?]; congruence).
    rewrite decide_False, decide_True by done. rewrite <- app_assoc. by split_and!.
Qed.

(** Rebinding after a name has been added. *)
Lemma rebind_ok rs rs1 n reg :
  (∀ d, registered rs d -> registered rs1 d) ->
  reg_ok rs n reg -> reg_ok rs1 n (RebindDependenciesLocked rs1 reg).
Proof.
  intros Hsub (H1 & H2 & H3 & H4 & H5). unfold RebindDependenciesLocked, reg_ok.
  rewrite rebind_loop_spec. simpl. split_and!; [done.. | | |].
  - intros d. rewrite elem_of_app, list_elem_of_filter, H3, H4. split.
    + intros [[? ?] | [? [? ?]]]; eauto.
    + intros [Hd Hr]. destruct (decide (registered rs d)); [by left; split | by right].
  - intros d. rewrite list_elem_of_filter, H4. split; [tauto |].
    intros [Hd Hr]. split_and!; [done.. |]. intros Hr'. by apply Hr, Hsub.
  - intros h. destruct (reg_key_holder reg) as [h' |] eqn:Hh.
    + destruct (proj1 (H5 h') eq_refl) as (-> & Hne & Hr). split; [| intros (-> & _); done].
      intros [= <-]. split_and!; eauto.
    + case_bool_decide as He.
      * split; [done |]. intros (-> & ? & _). done.
      * destruct (rs1 !! key_holder (resource reg)) eqn:Hk.
        -- split; [intros [= <-]; split_and!; [done.. | by eexists] | by intros (-> & _)].
        -- split; [done |]. intros (-> & _ & [? ?]). congruence.
Qed.

Lemma register_reg_inv rs r ds us :
  reg_inv rs -> rs !! name r = None ->
  bind_declared rs (name r) (declared_references r) [] [] = inr (ds, us) ->
  let rs1 := <[name r := mk_registration r ds us None ∅ 0 false 0 0]> rs in
  reg_inv (RebindDependenciesLocked rs1 <$> rs1).
Proof.
  intros Hi Hn Hb rs1. apply bind_declared_spec in Hb as (Hself & -> & ->). simpl in rs1.
  assert (∀ m, registered (RebindDependenciesLocked rs1 <$> rs1) m <-> registered rs1 m) as Hreg.
  { intros m. unfold registered. rewrite lookup_fmap. apply fmap_is_Some. }
  assert (∀ d, registered rs d -> registered rs1 d) as Hsub.
  { intros d Hd. unfold registered, rs1. rewrite lookup_insert_is_Some'. by right. }
  enough (∀ m reg, rs1 !! m = Some reg -> reg_ok rs1 m (RebindDependenciesLocked rs1 reg)) as Hok.
  { intros m reg' Hm. apply lookup_fmap_Some in Hm as (reg & <- & Hm).
    destruct (Hok _ _ Hm) as (H1 & H2 & H3 & H4 & H5). split_and!; [done.. | | |];
      intros d; rewrite ?H3, ?H4, ?H5, Hreg; done. }
  intros m reg Hm. unfold rs1 in Hm. apply lookup_insert_Some in Hm as [[<- <-] | [Hne Hm]].
  2: { eapply rebind_ok; [done | by apply Hi]. }
  unfold RebindDependenciesLocked, reg_ok. rewrite rebind_loop_spec. simpl.
  assert (∀ d, d ∈ declared_references r -> registered rs1 d <-> registered rs d) as Hdecl.
  { intros d Hd. split; [| apply Hsub]. unfold registered, rs1.
    rewrite lookup_insert_is_Some'. intros [Heq | ?]; [by rewrite Heq in Hself | done]. }
  split_and!; [done.. | | |].
  - intros d. rewrite elem_of_app, !list_elem_of_filter. split.
    + intros [[? ?] | [? [? ?]]]; eauto.
    + intros [Hd Hr]. rewrite Hdecl in Hr by done. by left.
  - intros d. rewrite !list_elem_of_filter. split; [tauto |]. intros [Hd Hr].
    split_and!; [done | by rewrite <- Hdecl | done].
  - intros h. case_bool_decide as He.
    + split; [done |]. by intros (-> & ? & _).
    + destruct (rs1 !! key_holder r) eqn:Hk.
      * split; [intros [= <-]; split_and!; [done.. | by eexists] | by intros (-> & _)].
      * split; [done |]. intros (-> & _ & [? ?]). congruence.
Qed.

(** ** Registration keeps the invariant *)

Lemma counts_differ_back rs rs' n reg' :
  counts_differ rs rs' -> rs' !! n = Some reg' ->
  ∃ reg i, rs !! n = Some reg ∧ reg' = set_incoming i reg.
Proof.
  intros Hd Hn. assert (counts_differ rs' rs) as Hd' by (by unfold counts_differ in *).
  pose proof (counts_differ_lookup _ _ _ _ Hd' Hn) as Hn'.
  eexists _, (incoming reg'). split; [exact Hn' |]. by destruct reg'.
Qed.

(** A changed registry with a rebuilt ledger, its ranks still to be derived. *)
Lemma inv_rebuilt e rs :
  reg_inv rs -> map_Forall (fun _ reg => touched reg = false) rs ->
  bookkeeping (with_resources rs e) (all_steps (cascades_ e)) ->
  ∃ rs', RebuildIncomingLocked (world_ e) rs = Ret rs' ∧ counts_differ rs rs' ∧
    inv (with_ranks true (reference_cycle_ e) (with_resources rs' e)).
Proof.
  intros Hi Hu [Hw Ho Hd Hp]. simpl in *.
  destruct (rebuild_exact _ rs (world_ e) Hw Hi) as (rs' & -> & Hcd & Hex).
  exists rs'. split_and!; [done.. |]. pose proof (counts_differ_graph _ _ Hcd) as Hg.
  constructor; simpl; [by eapply reg_inv_graph | done | done | |].
  - intros n reg' Hn. destruct (counts_differ_back _ _ _ _ Hcd Hn) as (reg & c & Hn' & ->).
    by apply (Hu _ _ Hn').
  - constructor; simpl; [done | | done |].
    + eapply Forall_impl; [exact Ho |]. intros s (reg & Hr & Hown).
      destruct (same_graph_lookup _ _ _ _ Hg Hr) as (reg' & Hr' & Hc).
      exists reg'. split; [done |]. injection Hc as ? _ _ _. congruence.
    + intros n reg' Hn. destruct (counts_differ_back _ _ _ _ Hcd Hn) as (reg & c & Hn' & ->).
      by apply (Hp _ _ Hn').
Qed.

Lemma owned_by_none r l : Forall (fun s => s_owner s <> r) l -> owned_by r l = 0%nat.
Proof.
  induction 1 as [| s l Hs _ IH]; [done |]. rewrite owned_by_cons, decide_False by done. done.
Qed.

Lemma inv_register e r :
  inv e -> ∃ o e', Register e r = Ret (o, e') ∧ inv e' ∧
    match o with
    | inl _ => e' = e
    | inr _ => world_ e' = world_ e ∧ cascades_ e' = cascades_ e ∧
               generation_ e' = generation_ e ∧
               dom (resources_ e') = {[name r]} ∪ dom (resources_ e)
    end.
Proof.
  intros Hinv. unfold Register. destruct (resources_ e !! name r) eqn:Hn; [by eexists _, e |].
  destruct (bind_declared _ _ _ _ _) as [d | [ds us]] eqn:Hb; [by eexists _, e |].
  destruct (bool_decide (declared_references r <> []) && _); [by eexists _, e |].
  set (rs1 := <[name r := _]> (resources_ e)).
  destruct (inv_rebuilt e (RebindDependenciesLocked rs1 <$> rs1)) as (rs' & -> & Hcd & Hinv').
  - by apply register_reg_inv; [apply Hinv | |].
  - intros m reg Hm. apply lookup_fmap_Some in Hm as (reg1 & <- & Hm).
    assert (touched (RebindDependenciesLocked rs1 reg1) = touched reg1) as ->.
    { unfold RebindDependenciesLocked. by rewrite rebind_loop_spec. }
    unfold rs1 in Hm. apply lookup_insert_Some in Hm as [[_ <-] | [_ Hm]]; [done |].
    by apply (i_untouched _ Hinv _ _ Hm).
  - destruct (i_steps _ Hinv) as [Hw Ho Hd Hp]. constructor; simpl; [done | | done |].
    + eapply Forall_impl; [exact Ho |]. intros s (reg & Hr & Hown).
      exists (RebindDependenciesLocked rs1 reg). split.
      * rewrite lookup_fmap. unfold rs1. rewrite lookup_insert_ne by congruence.
        by rewrite Hr.
      * unfold RebindDependenciesLocked. by rewrite rebind_loop_spec.
    + intros m reg Hm. apply lookup_fmap_Some in Hm as (reg1 & <- & Hm).
      assert (pending_removals (RebindDependenciesLocked rs1 reg1) = pending_removals reg1 ∧
              resource (RebindDependenciesLocked rs1 reg1) = resource reg1) as [-> ->].
      { unfold RebindDependenciesLocked. by rewrite rebind_loop_spec. }
      unfold rs1 in Hm. apply lookup_insert_Some in Hm as [[_ <-] | [_ Hm]]; [| by apply (Hp _ _ Hm)].
      simpl. rewrite owned_by_none; [done |]. eapply Forall_impl; [exact Ho |].
      intros s (reg & Hr & Hown) Heq. congruence.
  - simpl. destruct (inv_recompute _ Hinv') as (rs2 & c & -> & Hrd & Hinv2). simpl in Hrd.
    simpl. eexists _, _. split; [done |]. simpl. split_and!; try done.
    rewrite (same_graph_dom _ _ (ranks_differ_graph _ _ Hrd)).
    rewrite (same_graph_dom _ _ (counts_differ_graph _ _ Hcd)), dom_fmap_L.
    unfold rs1. apply dom_insert_L.
Qed.

(** ** Leaving together *)

Lemma gather_spec rs ns group group' :
  Forall (registered rs) group -> gather rs ns group = inr group' ->
  Forall (registered rs) group' ∧ ∀ n, n ∈ group' <-> n ∈ group ∨ n ∈ ns.
Proof.
  revert group. induction ns as [| m ns IH]; intros group Hg Hga; simpl in Hga.
  { injection Hga as <-. split; [done |]. intros n. rewrite elem_of_nil. tauto. }
  destruct (rs !! m) as [reg |] eqn:Hm; [| done].
  apply IH in Hga as [? Hin].
  - split; [done |]. intros n. rewrite Hin, elem_of_cons.
    case_bool_decide; [| rewrite elem_of_app, list_elem_of_singleton; tauto].
    split; [tauto |]. intros [? | [-> | ?]]; tauto.
  - case_bool_decide; [done |]. apply Forall_app. split; [done |].
    apply Forall_singleton. by eexists.
Qed.

Lemma check_referrers_spec rs group n others b :
  Forall (registered rs) others ->
  ∃ o, check_referrers rs group n others b = Ret o ∧
    (∀ b', o = inr b' -> ∀ m reg, m ∈ others -> rs !! m = Some reg ->
       declares reg n = true -> m ∈ group).
Proof.
  intros Ho. revert b. induction Ho as [| m others [reg Hm] _ IH]; intros b; simpl.
  { eexists. split; [done |]. intros b' _ m reg Hin. by apply not_elem_of_nil in Hin. }
  rewrite (deref_lookup _ _ _ Hm). simpl. destruct (declares reg n) eqn:Hd.
  - case_bool_decide as Hin; [| by eexists].
    destruct (IH true) as (o & -> & Ho). exists o. split; [done |].
    intros b' Hi m' reg' [-> | Hin']%elem_of_cons Hm' Hd'; [done | eauto].
  - destruct (IH b) as (o & -> & Ho). exists o. split; [done |].
    intros b' Hi m' reg' [-> | Hin']%elem_of_cons Hm' Hd'; [congruence | eauto].
Qed.

Lemma check_deps_spec w group n r ds :
  check_deps w group n r ds = inr () ->
  Forall (fun d => d ∈ group ∨ LiveCount r w = 0) ds.
Proof.
  induction ds as [| d ds IH]; simpl; [by constructor |].
  case_bool_decide as H1; simpl.
  - case_bool_decide as H2; [done |]. intros Hc.
    constructor; [by right | by apply IH].
  - intros Hc. constructor; [by left | by apply IH].
Qed.

(** What the checks of [Unregister] establish for the members. *)
Definition may_leave rs w (group : list string) n : Prop :=
  ∀ reg, rs !! n = Some reg ->
    (∀ m reg', rs !! m = Some reg' -> declares reg' n = true -> m ∈ group) ∧
    Forall (fun d => d ∈ group ∨ LiveCount (resource reg) w = 0) (deps reg).

Lemma check_group_spec rs w group todo :
  Forall (registered rs) todo ->
  ∃ o, check_group rs w group todo = Ret o ∧
    (o = inr () -> Forall (may_leave rs w group) todo).
Proof.
  induction 1 as [| n todo [reg Hn] _ (o & Ho & IH)]; simpl; [by eexists |].
  rewrite (deref_lookup _ _ _ Hn). simpl.
  destruct (check_referrers_spec rs group n (ordered rs) false (Ranks.ordered_registered rs))
    as (b & -> & Hb). simpl. destruct b as [err | b]; [by eexists |].
  destruct (check_deps _ _ _ _ _) as [err | []] eqn:Hd; [by eexists |].
  destruct (negb b && _); [by eexists |]. rewrite Ho. exists o. split; [done |].
  intros Heq. constructor; [| by apply IH]. intros reg' Hn'. simplify_eq. split.
  - intros m reg1 Hm. apply (Hb b); [done | | done]. apply Ranks.elem_of_ordered. by eexists.
  - by eapply check_deps_spec.
Qed.

Lemma check_quiet_spec e group :
  Forall (registered (resources_ e)) group ->
  ∃ o, check_quiet e group = Ret o ∧
    (o = inr () -> Forall (fun n => ∀ reg, resources_ e !! n = Some reg ->
       pending_removals reg = 0 ∧ outstanding (domain_ e) (resource reg) = 0) group).
Proof.
  induction 1 as [| n group [reg Hn] _ (o & Ho & IH)]; simpl; [by eexists |].
  rewrite (deref_lookup _ _ _ Hn). simpl. case_bool_decide as H1; [by eexists |].
  case_bool_decide as H2; [by eexists |]. rewrite Ho. exists o. split; [done |].
  intros Heq. constructor; [| by apply IH]. intros reg' Hn'. simplify_eq.
  done.
Qed.

Lemma erase_group_lookup group rs n :
  erase_group group rs !! n = if decide (n ∈ group) then None else rs !! n.
Proof.
  unfold erase_group. induction group as [| m group IH]; simpl; [done |].
  destruct (decide (n = m)) as [-> | Hne].
  - rewrite lookup_delete_eq. by rewrite decide_True by by left.
  - rewrite lookup_delete_ne, IH by done.
    destruct (decide (n ∈ group)); [rewrite decide_True by (by right) | rewrite decide_False]; try done.
    by intros [? | ?]%elem_of_cons.
Qed.

Lemma sum_zero {A} (f : A -> nat) l : (∀ x, x ∈ l -> f x = 0%nat) -> sum_list_with f l = 0%nat.
Proof.
  induction l as [| x l IH]; intros Hf; simpl; [done |].
  rewrite (Hf x) by by left. apply IH. intros y Hy. apply Hf. by right.
Qed.

Lemma sum_ext {A} (f g : A -> nat) l :
  (∀ x, x ∈ l -> f x = g x) -> sum_list_with f l = sum_list_with g l.
Proof.
  induction l as [| x l IH]; intros Hf; simpl; [done |].
  rewrite (Hf x) by by left. f_equal. apply IH. intros y Hy. apply Hf. by right.
Qed.

Lemma sum_superset {A} (f : A -> nat) l l' :
  NoDup l' -> NoDup l -> l' ⊆ l -> (∀ x, x ∈ l -> x ∉ l' -> f x = 0%nat) ->
  sum_list_with f l = sum_list_with f l'.
Proof.
  intros Hn' Hn Hsub Hf.
  destruct (submseteq_Permutation l' l) as [k Hk]; [by apply NoDup_submseteq |].
  rewrite Hk, sum_list_with_app, (sum_zero f k); [lia |].
  intros x Hx. apply Hf.
  - rewrite Hk. apply elem_of_app. by right.
  - intros Hx'. rewrite Hk in Hn. apply NoDup_app in Hn as (_ & Hd & _). by apply (Hd x).
Qed.

(** The ledger summed over any list of names that covers the registered ones. *)
Lemma ledger_over rs w b h k ns :
  NoDup ns -> (∀ n, registered rs n -> n ∈ ns) ->
  ledger rs w b h k = sum_list_with (count_from rs w b h k) ns.
Proof.
  intros Hnd Hcov. symmetry. apply sum_superset; [apply NoDup_elements | done | |].
  - intros n Hn. apply Hcov. by apply elem_of_elements, elem_of_dom in Hn.
  - intros n _ Hn. unfold count_from. destruct (rs !! n) eqn:Hr; [| done].
    destruct Hn. apply elem_of_elements, elem_of_dom. by eexists.
Qed.

(** A group that may leave: nothing outside declares a member or hands keys to
    one; a member with keys references members only, keys held elsewhere
    included. *)
Definition leaving rs w (group : list string) : Prop :=
  ∀ n reg, n ∈ group -> rs !! n = Some reg ->
    (∀ m reg', rs !! m = Some reg' -> declares reg' n = true -> m ∈ group) ∧
    Forall (fun d => d ∈ group ∨ committed w (resource reg) = ∅) (deps reg) ∧
    (∀ h, reg_key_holder reg = Some h -> h ∈ group).

Lemma outsider_deps rs w group m reg d :
  reg_inv rs -> leaving rs w group -> rs !! m = Some reg -> m ∉ group ->
  d ∈ declared_references (resource reg) -> d ∉ group ∨ ¬ registered rs d.
Proof.
  intros Hi Hl Hm Hmg Hd. destruct (decide (d ∈ group)) as [Hdg |]; [| by left].
  right. intros [dreg Hdr]. apply Hmg.
  destruct (Hl d dreg Hdg Hdr) as (Hdecl & _). apply (Hdecl m reg Hm).
  unfold declares. apply orb_true_iff. left. apply orb_true_iff. right.
  apply bool_decide_eq_true. rewrite Resolve_spec.
  destruct (Hi _ _ Hm) as (_ & _ & H3 & _). rewrite decide_True; [by eexists |].
  apply H3. split; [done | by eexists].
Qed.

Lemma outsider_holder rs w group m reg :
  leaving rs w group -> rs !! m = Some reg -> m ∉ group ->
  key_holder (resource reg) ∉ group ∨ ¬ registered rs (key_holder (resource reg)).
Proof.
  intros Hl Hm Hmg. destruct (decide (key_holder (resource reg) ∈ group)) as [Hg |]; [| by left].
  right. intros [hreg Hh]. apply Hmg.
  destruct (Hl _ hreg Hg Hh) as (Hdecl & _). apply (Hdecl m reg Hm).
  unfold declares. by rewrite bool_decide_eq_true_2.
Qed.

Lemma leave_registered rs group n :
  registered (erase_group group rs) n <-> registered rs n ∧ n ∉ group.
Proof.
  unfold registered. rewrite erase_group_lookup. case_decide as Hg.
  - split; [by intros [? ?] | tauto].
  - tauto.
Qed.

Lemma leave_reg_inv rs w group :
  reg_inv rs -> leaving rs w group -> reg_inv (erase_group group rs).
Proof.
  intros Hi Hl n reg Hn. rewrite erase_group_lookup in Hn. case_decide as Hng; [done |].
  destruct (Hi _ _ Hn) as (H1 & H2 & H3 & H4 & H5). split_and!; [done.. | | |].
  - intros d. rewrite leave_registered, H3. split; [| tauto].
    intros [Hd Hr]. split_and!; [done.. |].
    by destruct (outsider_deps rs w group n reg d Hi Hl Hn Hng Hd).
  - intros d. rewrite leave_registered, H4. split; [tauto |]. intros [Hd Hr].
    split; [done |]. intros Hr'.
    destruct (outsider_deps rs w group n reg d Hi Hl Hn Hng Hd); tauto.
  - intros h. rewrite leave_registered, H5. split; [| tauto].
    intros (-> & Hne & Hr). split_and!; [done.. |].
    by destruct (outsider_holder rs w group n reg Hl Hn Hng).
Qed.

(** Where an outsider's references are counted does not change. *)
Lemma leave_counted rs w group m reg ref :
  reg_inv rs -> leaving rs w group -> rs !! m = Some reg -> m ∉ group ->
  counted_on (erase_group group rs) w false reg ref = counted_on rs w false reg ref.
Proof.
  intros Hi Hl Hm Hmg. unfold counted_on. rewrite Resolve_spec. case_decide as Hd; [| done].
  simpl. destruct (Hi _ _ Hm) as (_ & _ & H3 & _). apply H3 in Hd as [Hd Hr].
  destruct (outsider_deps rs w group m reg _ Hi Hl Hm Hmg Hd) as [Hg | ?]; [| done].
  unfold holder_at. by rewrite erase_group_lookup, decide_False.
Qed.

(** A member's references are counted on members. *)
Lemma leave_member rs w group n reg ref h k :
  reg_inv rs -> leaving rs w group -> n ∈ group -> rs !! n = Some reg ->
  ref ∈ refs_of w (resource reg) -> counted_on rs w false reg ref = Some (h, k) -> h ∈ group.
Proof.
  intros Hi Hl Hng Hn Href Hc. unfold counted_on in Hc. rewrite Resolve_spec in Hc.
  case_decide as Hd; [| done]. simpl in Hc.
  destruct (Hl _ _ Hng Hn) as (_ & Hdeps & _). rewrite Forall_forall in Hdeps.
  destruct (Hdeps _ Hd) as [Hdg | Hempty].
  2: { unfold refs_of in Href. rewrite Hempty in Href. by apply not_elem_of_nil in Href. }
  destruct (holder_at _ _ _ _ _) as [h' |] eqn:Hh; [| done]. simpl in Hc. injection Hc as -> _.
  unfold holder_at in Hh. destruct (rs !! ref_resource ref) as [treg |] eqn:Ht; [| done].
  simpl in Hh. case_match; [congruence |]. by apply (Hl _ _ Hdg Ht).
Qed.

Lemma count_zero rs w b reg refs h k :
  (∀ ref, ref ∈ refs -> counted_on rs w b reg ref <> Some (h, k)) ->
  count rs w b reg refs h k = 0%nat.
Proof.
  induction refs as [| ref refs IH]; intros Hc; [done |].
  rewrite count_cons, decide_False by (apply Hc; by left).
  apply IH. intros ref' Hr. apply Hc. by right.
Qed.

Lemma leave_exact rs w group :
  reg_inv rs -> leaving rs w group -> exact rs w -> exact (erase_group group rs) w.
Proof.
  intros Hi Hl He h reg Hh k. rewrite erase_group_lookup in Hh. case_decide as Hhg; [done |].
  rewrite (He _ _ Hh k). f_equal. unfold ledger at 1.
  rewrite (ledger_over (erase_group group rs) w false h k (elements (dom rs))).
  - apply sum_ext. intros n _. unfold count_from. rewrite erase_group_lookup.
    destruct (decide (n ∈ group)) as [Hng | Hng]; destruct (rs !! n) as [nreg |] eqn:Hn; try done.
    + apply count_zero. intros ref Href Hc. by eapply Hhg, leave_member.
    + unfold count. f_equal. apply list_filter_iff. intros ref. by rewrite (leave_counted rs w group n).
  - apply NoDup_elements.
  - intros n [Hr _]%leave_registered. by apply elem_of_elements, elem_of_dom.
Qed.

(** What an outsider is bound to stays, and so do the key holders. *)
Lemma outsider_bound rs w group n reg d dreg :
  reg_inv rs -> leaving rs w group -> rs !! n = Some reg -> n ∉ group -> d ∈ deps reg ->
  rs !! d = Some dreg ->
  (d ∉ group) ∧ ∀ h, reg_key_holder dreg = Some h -> h ∉ group.
Proof.
  intros Hi Hl Hn Hng Hd Hdr. destruct (Hi _ _ Hn) as (_ & _ & H3 & _).
  apply H3 in Hd as [Hd Hr].
  destruct (outsider_deps rs w group n reg _ Hi Hl Hn Hng Hd) as [Hdg | ?]; [| done].
  split; [done |]. intros h Hh. destruct (Hi _ _ Hdr) as (_ & _ & _ & _ & H5).
  apply H5 in Hh as (-> & _ & Hr').
  by destruct (outsider_holder rs w group d dreg Hl Hdr Hdg).
Qed.

Lemma leave_edge rs w group n b :
  reg_inv rs -> leaving rs w group ->
  Ranks.edge (erase_group group rs) n b <-> (n ∉ group) ∧ Ranks.edge rs n b.
Proof.
  intros Hi Hl. split.
  - intros (reg & d & dreg & Hn & Hd & Hdr & Hb). rewrite erase_group_lookup in Hn, Hdr.
    case_decide; [done |]. case_decide; [done |]. split; [done |]. by exists reg, d, dreg.
  - intros [Hng (reg & d & dreg & Hn & Hd & Hdr & Hb)].
    destruct (outsider_bound rs w group n reg d dreg) as [Hdg _]; [done.. |].
    exists reg, d, dreg. rewrite !erase_group_lookup, !decide_False by done. done.
Qed.

(** Ranks of the others stay right. *)
Lemma leave_settled rs w group :
  reg_inv rs -> leaving rs w group -> (∀ n, Ranks.settled rs n) ->
  ∀ n, Ranks.settled (erase_group group rs) n.
Proof.
  intros Hi Hl Hs n. unfold Ranks.settled, Ranks.rank_at at 1. rewrite erase_group_lookup.
  assert (∀ b, Ranks.edge (erase_group group rs) n b ->
            Ranks.rank_at (erase_group group rs) b = Ranks.rank_at rs b) as Hrank.
  { intros b Hb. apply (leave_edge _ w) in Hb as [Hng (reg & d & dreg & Hn & Hd & Hdr & Hbd)];
      [| done..].
    destruct (outsider_bound rs w group n reg d dreg) as [Hdg Hhg]; [done.. |].
    unfold Ranks.rank_at. rewrite erase_group_lookup, decide_False; [done |].
    destruct Hbd as [-> | Hbd]; [done | by apply Hhg]. }
  destruct (decide (n ∈ group)) as [Hng | Hng].
  - split_and!; [done | | by left]. intros b Hb. by apply (leave_edge _ w) in Hb as [? _].
  - destruct (Hs n) as (H1 & H2 & H3). unfold Ranks.rank_at in H1, H2, H3.
    split_and!; [done | |].
    + intros b Hb. rewrite Hrank by done. apply H2. by apply (leave_edge _ w) in Hb as [_ ?].
    + destruct H3 as [H3 | (b & Hb & Heq)]; [by left | right]. exists b.
      assert (Ranks.edge (erase_group group rs) n b) by by apply (leave_edge _ w).
      by rewrite Hrank.
Qed.

Lemma leave_bookkeeping e group l :
  reg_inv (resources_ e) -> bookkeeping e l ->
  Forall (fun n => ∀ reg, resources_ e !! n = Some reg -> pending_removals reg = 0) group ->
  bookkeeping (with_resources (erase_group group (resources_ e)) e) l.
Proof.
  intros Hi [Hw Ho Hd Hp] Hq. constructor; simpl; [done | | done |].
  - apply Forall_forall. intros s Hs. rewrite Forall_forall in Ho.
    destruct (Ho s Hs) as (reg & Hr & Hown). exists reg. split; [| done].
    rewrite erase_group_lookup, decide_False; [done |]. intros Hg.
    rewrite Forall_forall in Hq. pose proof (Hq _ Hg _ Hr) as H0. rewrite (Hp _ _ Hr) in H0.
    assert (s ∈ filter (fun s => s_owner s = resource reg) l) as Hin
      by by apply list_elem_of_filter.
    unfold owned_by in H0. destruct (filter _ l); [by apply not_elem_of_nil in Hin | done].
  - intros n reg Hn. rewrite erase_group_lookup in Hn. case_decide; [done |].
    by apply (Hp _ _ Hn).
Qed.

(** The group [names] stands for contains the key holders of its members. *)
Definition holders_inside rs (names : list string) : Prop :=
  ∀ n reg h, n ∈ names -> rs !! n = Some reg -> reg_key_holder reg = Some h -> h ∈ names.

(** The checks passed before reclamation ran say who may leave after it. *)
Lemma checks_leaving e e1 S group :
  tx (world_ e) [] ∅ ∅ S -> reclaim_frame e e1 ->
  Forall (may_leave (resources_ e) (world_ e) group) group ->
  holders_inside (resources_ e) group -> leaving (resources_ e1) (world_ e1) group.
Proof.
  intros Htx Hf Hleave Hhold n reg1 Hn Hr1.
  pose proof (pending_differ_graph _ _ (f_resources _ _ Hf)) as Hgr.
  destruct (same_graph_lookup _ _ _ _ (same_graph_sym _ _ Hgr) Hr1) as (reg & Hr & Hc).
  injection Hc as Hres Hdeps _ Hkh. rewrite Forall_forall in Hleave.
  destruct (Hleave n Hn reg Hr) as [Hdecl Hlive]. split_and!.
  - intros m reg1' Hm Hd.
    destruct (same_graph_lookup _ _ _ _ (same_graph_sym _ _ Hgr) Hm) as (reg' & Hm' & Hc').
    apply (Hdecl m reg' Hm'). injection Hc' as Hres' Hdeps' Hun' _.
    unfold declares, Resolve in *. by rewrite Hres', Hdeps', Hun'.
  - rewrite <- Hdeps. eapply Forall_impl; [exact Hlive |]. intros d [? | H0]; [by left | right].
    rewrite (LiveCount_law (world_ e) _ _ Htx) in H0.
    rewrite (f_committed _ _ Hf), <- Hres. apply map_size_empty_iff. lia.
  - rewrite <- Hkh. intros h Hh. by eapply Hhold.
Qed.

Lemma inv_erase e group :
  inv e -> leaving (resources_ e) (world_ e) group ->
  Forall (fun n => ∀ reg, resources_ e !! n = Some reg -> pending_removals reg = 0) group ->
  inv (with_resources (erase_group group (resources_ e)) e).
Proof.
  intros [Hi He Hr Hu Hb] Hlv Hq. constructor; simpl.
  - by eapply leave_reg_inv.
  - by apply leave_exact.
  - intros H1 H2. eapply leave_settled; [done.. |]. by apply Hr.
  - intros n reg Hn. rewrite erase_group_lookup in Hn. case_decide; [done |].
    by apply (Hu _ _ Hn).
  - by apply leave_bookkeeping.
Qed.

Lemma inv_unregister e names :
  inv e -> ∃ o e', Unregister e names = Ret (o, e') ∧
    (∀ r, committed (world_ e') r = committed (world_ e) r) ∧
    generation_ e' = generation_ e ∧
    (o = inr () -> ∀ n, registered (resources_ e') n <->
       registered (resources_ e) n ∧ n ∉ names) ∧
    (holders_inside (resources_ e) names -> inv e').
Proof.
  intros Hinv. unfold Unregister.
  destruct (gather (resources_ e) names []) as [err | group] eqn:Hg.
  { eexists _, e. by split_and!. }
  apply gather_spec in Hg as [Hreg Hin]; [| constructor].
  assert (∀ n, n ∈ group <-> n ∈ names) as Hgn.
  { intros n. rewrite Hin, elem_of_nil. tauto. }
  destruct (check_group_spec (resources_ e) (world_ e) group group Hreg) as (o & -> & Hleave).
  simpl. destruct o as [err | []]; [eexists _, e; by split_and! |].
  destruct (inv_reclaim e Hinv) as (k & e1 & -> & Hinv1 & _ & Hf). simpl.
  pose proof (pending_differ_graph _ _ (f_resources _ _ Hf)) as Hgr.
  pose proof (inv_with_domain (ReclaimReady (domain_ e1)) e1 Hinv1) as Hinv2.
  set (e2 := with_domain _ e1) in *.
  destruct (check_quiet_spec e2 group) as (o & -> & Hquiet).
  { eapply Forall_impl; [exact Hreg |]. intros n. by apply same_graph_registered. }
  simpl. destruct o as [err | []].
  { eexists _, e2. split_and!; [done | apply Hf | apply Hf | done | done]. }
  eexists _, _. split; [done |]. split_and!; [apply Hf | apply Hf | |].
  { intros _ n. simpl. rewrite leave_registered, Hgn. by rewrite (same_graph_registered _ _ _ Hgr). }
  intros Hhold. apply (inv_erase e2); [done | |].
  - apply (checks_leaving e e1 _ _ (b_world _ _ (i_steps _ Hinv)) Hf); [by apply Hleave |].
    intros n reg h Hn Hr Hh. apply Hgn. eapply Hhold; [by apply Hgn | done..].
  - eapply Forall_impl; [exact (Hquiet eq_refl) |]. intros n Hq reg Hr. by apply Hq.
Qed.

(** ** Release at teardown *)

Lemma gather_known_spec rs ns group :
  Forall (registered rs) group ->
  Forall (registered rs) (gather_known rs ns group) ∧
  ∀ n, n ∈ gather_known rs ns group <-> n ∈ group ∨ (n ∈ ns ∧ registered rs n).
Proof.
  revert group. induction ns as [| m ns IH]; intros group Hg; simpl.
  { split; [done |]. intros n. rewrite elem_of_nil. tauto. }
  destruct (rs !! m) as [reg |] eqn:Hm.
  - assert (registered rs m) as Hr by by eexists.
    set (group1 := if bool_decide (m ∈ group) then group else group ++ [m]).
    assert (∀ n, n ∈ group1 <-> n ∈ group ∨ n = m) as Hg1.
    { intros n. unfold group1. case_bool_decide;
        [| rewrite elem_of_app, list_elem_of_singleton; tauto].
      split; [tauto |]. by intros [? | ->]. }
    destruct (IH group1) as [H1 H2].
    { apply Forall_forall. intros n Hn. rewrite Forall_forall in Hg.
      apply Hg1 in Hn as [? | ->]; auto. }
    split; [done |]. intros n. rewrite H2, Hg1, elem_of_cons. split; [| tauto].
    intros [[? | ->] | ?]; tauto.
  - destruct (IH group Hg) as [H1 H2]. split; [done |].
    intros n. rewrite H2, elem_of_cons. split; [tauto |].
    intros [? | [[-> | ?] Hr]]; [tauto | | tauto]. destruct Hr. congruence.
Qed.

Lemma filter_ne_changes (n : string) (l : list string) :
  filter (fun d => d <> n) l <> l <-> n ∈ l.
Proof.
  induction l as [| d l IH]; simpl.
  { split; [done |]. intros Hn. by apply not_elem_of_nil in Hn. }
  rewrite filter_cons, elem_of_cons. case_decide as Hd.
  - rewrite <- IH. split; [intros Hne; right; congruence |]. intros [-> | Hne]; [done | congruence].
  - subst. split; [by left |]. intros _ Heq.
    pose proof (length_filter (fun d => d <> n) l). apply (f_equal length) in Heq. simpl in Heq. lia.
Qed.

(** The outsider after the release of the names [l]. *)
Definition unbound (l : list string) (reg : Registration) : Registration :=
  foldl (fun reg n => unbind n reg) reg l.

Lemma unbound_spec l reg :
  resource (unbound l reg) = resource reg ∧ touched (unbound l reg) = touched reg ∧
  pending_removals (unbound l reg) = pending_removals reg ∧
  (∀ d, d ∈ deps (unbound l reg) <-> d ∈ deps reg ∧ d ∉ l) ∧
  (∀ d, d ∈ unresolved (unbound l reg) <-> d ∈ unresolved reg ∨ (d ∈ deps reg ∧ d ∈ l)) ∧
  (∀ h, reg_key_holder (unbound l reg) = Some h <-> reg_key_holder reg = Some h ∧ h ∉ l).
Proof.
  revert reg. induction l as [| n l IH]; intros reg.
  { split_and!; [done..| | |]; intros d; simpl; rewrite elem_of_nil; tauto. }
  change (unbound (n :: l) reg) with (unbound l (unbind n reg)).
  destruct (IH (unbind n reg)) as (-> & -> & -> & H4 & H5 & H6).
  assert (∀ d, d ∈ deps (unbind n reg) <-> d ∈ deps reg ∧ d <> n) as H4'.
  { intros d. simpl. rewrite list_elem_of_filter. tauto. }
  split_and!; [done.. | | |].
  - intros d. rewrite H4, H4', elem_of_cons. tauto.
  - intros d. rewrite H5, H4', elem_of_cons. simpl.
    destruct (decide (n ∈ deps reg)) as [Hn | Hn].
    + rewrite bool_decide_eq_true_2 by by apply filter_ne_changes. simpl.
      case_bool_decide as Hu; [rewrite elem_of_app, list_elem_of_singleton |]; split; [| | tauto |].
      * intros [[? | ->] | ?]; tauto.
      * intros [? | [? [-> | ?]]]; [tauto.. |]. destruct (decide (d = n)); tauto.
      * intros [? | [? [-> | ?]]]; [tauto.. |]. destruct (decide (d = n)); [by subst; left | tauto].
    + rewrite bool_decide_eq_false_2 by by rewrite filter_ne_changes. simpl.
      split; [tauto |]. intros [? | [? [-> | ?]]]; [tauto.. |].
      right. split_and!; [done | by intros -> | done].
  - intros h. rewrite H6, not_elem_of_cons. simpl. case_bool_decide as Hk.
    + split; [by intros [? _] |]. intros (Heq & ? & _). congruence.
    + split; [| tauto]. intros [Heq Hh]. split_and!; [done | congruence | done].
Qed.

Lemma unbind_group_lookup group l rs n :
  foldl (fun rs n => unbind_all group n rs) rs l !! n =
  (if decide (n ∈ group) then id else unbound l) <$> rs !! n.
Proof.
  revert rs. induction l as [| m l IH]; intros rs; simpl.
  { case_decide; by destruct (rs !! n). }
  rewrite IH. unfold unbind_all. rewrite map_lookup_imap.
  destruct (rs !! n) as [reg |]; [| done]. simpl.
  case_decide; [by rewrite bool_decide_eq_true_2 | by rewrite bool_decide_eq_false_2].
Qed.

Lemma release_lookup group rs n reg' :
  erase_group group (foldl (fun rs n => unbind_all group n rs) rs group) !! n = Some reg' <->
  (n ∉ group) ∧ ∃ reg, rs !! n = Some reg ∧ reg' = unbound group reg.
Proof.
  rewrite erase_group_lookup. case_decide as Hg; [split; [done | tauto] |].
  rewrite unbind_group_lookup, decide_False by done. split.
  - intros (reg & Hr & ->)%fmap_Some. eauto.
  - intros [_ (reg & -> & ->)]. done.
Qed.

Lemma release_reg_inv rs group :
  reg_inv rs -> reg_inv (erase_group group (foldl (fun rs n => unbind_all group n rs) rs group)).
Proof.
  intros Hi. set (rs' := erase_group _ _).
  assert (∀ d, registered rs' d <-> registered rs d ∧ d ∉ group) as Hreg.
  { intros d. split.
    - intros [reg' Hr]. apply release_lookup in Hr as (Hg & reg & Hr & _). split; [by eexists | done].
    - intros [[reg Hr] Hg]. eexists. apply release_lookup. eauto. }
  intros n reg' Hn. apply release_lookup in Hn as (Hg & reg & Hn & ->).
  destruct (Hi _ _ Hn) as (H1 & H2 & H3 & H4 & H5).
  destruct (unbound_spec group reg) as (Hr & _ & _ & Hd & Hu & Hk).
  unfold reg_ok. rewrite Hr. split_and!; [done.. | | |].
  - intros d. rewrite Hd, H3, Hreg. tauto.
  - intros d. rewrite Hu, H4, H3, Hreg. split; [tauto |]. intros [Hdd Hnr].
    destruct (decide (registered rs d)); [| tauto].
    destruct (decide (d ∈ group)); tauto.
  - intros h. rewrite Hk, H5, Hreg. tauto.
Qed.

Lemma inv_release e names :
  inv e -> ∃ o e', ReleaseForTeardown e names = Ret (o, e') ∧ inv e' ∧
    (∀ r, committed (world_ e') r = committed (world_ e) r) ∧
    generation_ e' = generation_ e ∧
    (o = inr () -> ∀ n, registered (resources_ e') n <->
       registered (resources_ e) n ∧ n ∉ names).
Proof.
  intros Hinv. unfold ReleaseForTeardown.
  destruct (inv_reclaim e Hinv) as (k & e1 & -> & Hinv1 & _ & Hf). simpl.
  pose proof (pending_differ_graph _ _ (f_resources _ _ Hf)) as Hgr.
  pose proof (inv_with_domain (ReclaimReady (domain_ e1)) e1 Hinv1) as Hinv2.
  set (e2 := with_domain _ e1) in *. set (group := gather_known _ _ _).
  destruct (gather_known_spec (resources_ e1) names []) as [Hreg Hin]; [constructor |].
  fold group in Hreg, Hin.
  destruct (check_quiet_spec e2 group Hreg) as (o & -> & Hquiet). simpl.
  destruct o as [err | []].
  { eexists _, e2. split_and!; [done | done | apply Hf | apply Hf | done]. }
  specialize (Hquiet eq_refl).
  set (rs := erase_group group _).
  assert (∀ n reg', rs !! n = Some reg' -> (n ∉ group) ∧ ∃ reg,
            resources_ e1 !! n = Some reg ∧ reg' = unbound group reg) as Hback
    by (intros n reg'; apply release_lookup).
  change (world_ e1) with (world_ e2).
  destruct (inv_rebuilt e2 rs) as (rs' & -> & Hcd & Hinv').
  - apply release_reg_inv, Hinv1.
  - intros n reg' Hn. destruct (Hback _ _ Hn) as (_ & reg & Hr & ->).
    rewrite (proj1 (proj2 (unbound_spec group reg))). by apply (i_untouched _ Hinv1 _ _ Hr).
  - destruct (leave_bookkeeping e2 group _ (i_reg _ Hinv2) (i_steps _ Hinv2)) as [Hw Ho Hd Hp].
    { eapply Forall_impl; [exact Hquiet |]. intros n Hq reg Hr. by apply Hq. }
    simpl in *. constructor; simpl; [done | | done |].
    + eapply Forall_impl; [exact Ho |]. intros s (reg & Hr & Hown).
      rewrite erase_group_lookup in Hr. case_decide; [done |].
      exists (unbound group reg). split; [apply release_lookup; eauto |].
      by rewrite (proj1 (unbound_spec group reg)).
    + intros n reg' Hn. destruct (Hback _ _ Hn) as (Hg & reg & Hr & ->).
      destruct (unbound_spec group reg) as (-> & _ & -> & _). apply (Hp n).
      by rewrite erase_group_lookup, decide_False.
  - simpl. eexists _, _. split; [done |]. split_and!; [done | apply Hf | apply Hf |].
    intros _ n. simpl. rewrite <- (same_graph_registered _ _ _ (counts_differ_graph _ _ Hcd)).
    rewrite (same_graph_registered _ _ _ Hgr). split.
    + intros [reg' Hn]. destruct (Hback _ _ Hn) as (Hg & reg & Hr & ->).
      split; [by eexists |]. intros Hnn. apply Hg, Hin. right. split; [done | by eexists].
    + intros [[reg Hr] Hnn]. eexists. apply release_lookup. split; [| eauto].
      intros Hg. apply Hin in Hg as [Hg | [? _]]; [by apply not_elem_of_nil in Hg | done].
Qed.

End Join.

End Join.
