(* ===== verification/EngineKeys.v ===== *)
(** * The structure of a transaction

    The first phase of [ApplyImpl]: every operation names a registered
    resource, an upsert carries a value, and no key is operated on twice. The
    sorted key vector answers [op_on] exactly. *)

From S2P Require Import Prelude Resource Engine EngineRegistry.
Import Res Eng Registry.
Open Scope Z_scope.

Module Keys.

Section Keys.
Context {RS : Resources} {DM : Domain} {MM : Memory}.

(** ** The order of the key vector *)

Lemma ltb_leb a b : String.ltb a b = negb (String.leb b a).
Proof.
  unfold String.ltb, String.leb. rewrite String.compare_antisym.
  by destruct (String.compare b a).
Qed.

Lemma leb_trans a b c : String.leb a b = true -> String.leb b c = true -> String.leb a c = true.
Proof.
  intros H1 H2. apply Is_true_eq_true. apply Is_true_eq_left in H1, H2.
  change (String.le a c). etransitivity; [exact H1 | exact H2].
Qed.

Lemma leb_antisymm a b : String.leb a b = true -> String.leb b a = true -> a = b.
Proof.
  intros H1 H2. apply Is_true_eq_left in H1, H2.
  apply (anti_symm String.le); [exact H1 | exact H2].
Qed.

Definition key_le (a b : KeyRef) : bool := negb (key_less b a).

Lemma key_le_spec a b :
  key_le a b = true <->
  address (k_reg a) < address (k_reg b) ∨
  (k_reg a = k_reg b ∧ k_key a <> k_key b ∧ String.leb (k_key a) (k_key b) = true) ∨
  (k_reg a = k_reg b ∧ k_key a = k_key b ∧ (k_op a <= k_op b)%nat).
Proof.
  unfold key_le, key_less. case_bool_decide as Hr.
  - rewrite negb_true_iff, bool_decide_eq_false.
    assert (address (k_reg b) <> address (k_reg a)) by (intros ?%(inj address); done).
    split; [left; lia |]. intros [? | [[? _] | [? _]]]; [lia | congruence..].
  - case_bool_decide as Hk.
    + rewrite ltb_leb, negb_involutive. split.
      * intros. right. left. split_and!; congruence.
      * intros [Ha | [(_ & _ & ?) | (_ & ? & _)]]; [| done | congruence].
        rewrite Hr in Ha. lia.
    + rewrite negb_true_iff, bool_decide_eq_false. split.
      * intros. right. right. split_and!; [congruence.. | lia].
      * intros [Ha | [(_ & ? & _) | (_ & _ & ?)]]; [rewrite Hr in Ha; lia | congruence | lia].
Qed.

Lemma key_le_total a b : key_le a b = true ∨ key_le b a = true.
Proof.
  rewrite !key_le_spec. destruct (decide (k_reg a = k_reg b)) as [Hr | Hr].
  - destruct (decide (k_key a = k_key b)) as [Hk | Hk].
    + destruct (decide (k_op a <= k_op b)%nat); [left | right]; right; right; split_and!; auto; lia.
    + destruct (String.leb_total (k_key a) (k_key b)); [left | right]; right; left; split_and!; auto.
  - assert (address (k_reg a) <> address (k_reg b)) by (intros ?%(inj address); done).
    destruct (decide (address (k_reg a) < address (k_reg b))); [left | right]; left; lia.
Qed.

Lemma key_le_trans a b c : key_le a b = true -> key_le b c = true -> key_le a c = true.
Proof.
  rewrite !key_le_spec.
  intros [H1 | [(H1 & H2 & H3) | (H1 & H2 & H3)]] [H4 | [(H4 & H5 & H6) | (H4 & H5 & H6)]];
    try (left; try pose proof (f_equal address H1); try pose proof (f_equal address H4); lia).
  - right. left. split_and!; [congruence | | by eapply leb_trans].
    intros Heq. rewrite <- Heq in H6. by apply H2, leb_antisymm.
  - right. left. split_and!; congruence.
  - right. left. split_and!; congruence.
  - right. right. split_and!; [congruence.. | lia].
Qed.

(** The resource and key of an entry. *)
Definition place (k : KeyRef) : string * string := (k_reg k, k_key k).

Lemma key_le_between a b c :
  key_le a b = true -> key_le b c = true -> place a = place c -> place b = place a.
Proof.
  unfold place. rewrite !key_le_spec. intros H1 H2 [= Hr Hk].
  destruct H1 as [H1 | [(H1 & H3 & H4) | (H1 & H3 & H4)]]; [| | congruence].
  - destruct H2 as [H2 | [(H2 & _) | (H2 & _)]]; [rewrite Hr in H1; lia | rewrite H2, Hr in H1; lia..].
  - destruct H2 as [H2 | [(H2 & H5 & H6) | (H2 & H5 & H6)]]; [rewrite <- H1, Hr in H2; lia | |].
    + exfalso. apply H3. rewrite <- Hk in H6. by apply leb_antisymm.
    + congruence.
Qed.

Abbreviation sorted := (StronglySorted (fun a b => key_le a b = true)).

Lemma sort_keys_sorted ks : sorted (sort_keys ks).
Proof. apply stable_sort_sorted; [apply key_le_total | apply key_le_trans]. Qed.

(** ** No key twice *)

Lemma find_duplicate_cons p k ks :
  find_duplicate (Some p) (k :: ks) = None ->
  place k <> place p ∧ find_duplicate (Some k) ks = None.
Proof.
  simpl. unfold place. case_bool_decide as Hr; simpl; [case_bool_decide as Hk |].
  - by destruct (find_duplicate (Some k) ks).
  - intros ->. split; [congruence | done].
  - intros ->. split; [congruence | done].
Qed.

Lemma no_duplicate_after p ks :
  sorted (p :: ks) -> find_duplicate (Some p) ks = None ->
  Forall (fun k => place k <> place p) ks ∧ NoDup (place <$> ks).
Proof.
  revert p. induction ks as [| k ks IH]; intros p Hs Hd; [by repeat constructor |].
  apply find_duplicate_cons in Hd as [Hne Hd].
  apply StronglySorted_inv in Hs as [Hs Hp]. destruct (IH k Hs Hd) as [Hall Hnd].
  apply Forall_cons in Hp as [Hpk Hp]. apply StronglySorted_inv in Hs as [_ Hk]. split.
  - constructor; [done |]. apply Forall_forall. intros y Hy Heq. apply Hne.
    rewrite Forall_forall in Hk. apply (key_le_between p k y); [done | by apply Hk | done].
  - simpl. constructor; [| done]. intros Hin. apply list_elem_of_fmap in Hin as (y & Heq & Hy).
    rewrite Forall_forall in Hall. by apply (Hall y Hy).
Qed.

Lemma no_duplicate ks :
  find_duplicate None (sort_keys ks) = None -> NoDup (place <$> ks).
Proof.
  intros Hd. rewrite <- (stable_sort_perm (fun a b => key_le a b) ks).
  pose proof (sort_keys_sorted ks) as Hs. unfold sort_keys in *.
  change (fun a b : KeyRef => negb (key_less b a)) with key_le in *.
  destruct (stable_sort key_le ks) as [| k l]; [constructor |].
  assert (find_duplicate (Some k) l = None) as Hd' by (by simpl in Hd).
  destruct (no_duplicate_after _ _ Hs Hd') as [Hall Hnd]. simpl. constructor; [| done].
  intros Hin. apply list_elem_of_fmap in Hin as (y & Heq & Hy).
  rewrite Forall_forall in Hall. by apply (Hall y Hy).
Qed.

(** Conversely, a duplicate reported is one, and is an operation's index. *)
Lemma find_duplicate_Some p ks i :
  find_duplicate p ks = Some i ->
  ∃ k, k ∈ ks ∧ k_op k = i ∧ ∃ k', (p = Some k' ∨ k' ∈ ks) ∧ place k' = place k.
Proof.
  revert p i. induction ks as [| k ks IH]; intros p i Hd; simpl in Hd; [done |].
  assert (∀ j, find_duplicate (Some k) ks = Some j ->
            ∃ k0, k0 ∈ k :: ks ∧ k_op k0 = j ∧
              ∃ k', (p = Some k' ∨ k' ∈ k :: ks) ∧ place k' = place k0) as Hrest.
  { intros j Hj. apply IH in Hj as (k0 & Hin & Hop & k' & Hk' & Heq).
    exists k0. split_and!; [by right | done |]. exists k'. split; [| done]. right.
    destruct Hk' as [[= ->] | Hk']; [by left | by right]. }
  destruct p as [p |]; [| by apply Hrest].
  destruct (bool_decide (k_reg k = k_reg p) && bool_decide (k_key k = k_key p)) eqn:Hb;
    [| by apply Hrest].
  apply andb_true_iff in Hb as [Hr%bool_decide_eq_true Hk%bool_decide_eq_true].
  assert (∃ k0, k0 ∈ k :: ks ∧ k_op k0 = k_op k ∧
              ∃ k', (Some p = Some k' ∨ k' ∈ k :: ks) ∧ place k' = place k0) as Hfirst.
  { exists k. split_and!; [by left | done |]. exists p. split; [by left |].
    unfold place. congruence. }
  destruct (find_duplicate (Some k) ks) as [j |] eqn:Hj; simpl in Hd;
    [| injection Hd as <-; exact Hfirst].
  injection Hd as <-. destruct (Nat.min_dec (k_op k) j) as [-> | ->]; [done | by apply Hrest].
Qed.

(** ** Looking an operation up *)

Lemma op_on_spec ks reg key i :
  sorted ks -> NoDup (place <$> ks) ->
  op_on ks reg key = Some i <-> ∃ k, k ∈ ks ∧ place k = (reg, key) ∧ k_op k = i.
Proof.
  intros Hs Hnd. unfold op_on. set (x := mk_keyref reg key 0).
  assert (∀ k, key_less k x = false <-> key_le x k = true) as Hle.
  { intros k. unfold key_le. by rewrite negb_true_iff. }
  destruct (list_find _ ks) as [[j k] |] eqn:Hf.
  - apply list_find_Some in Hf as (Hj & Hk & Hbefore). apply Hle in Hk. split.
    + destruct (bool_decide (k_reg k = reg) && bool_decide (k_key k = key)) eqn:Hb; [| done].
      apply andb_true_iff in Hb as [Hr%bool_decide_eq_true Hkk%bool_decide_eq_true].
      intros [= <-]. exists k. split_and!; [by eapply list_elem_of_lookup_2 | | done].
      unfold place. congruence.
    + intros (k1 & Hin & Hpl & Hop). apply list_elem_of_lookup in Hin as [j1 Hj1].
      assert (key_le x k1 = true) as Hxk1.
      { apply key_le_spec. injection Hpl as Hr Hk1. simpl. right. right. split_and!; [done.. | lia]. }
      assert (j <= j1)%nat as Hjj.
      { destruct (decide (j1 < j)%nat) as [Hlt |]; [| lia]. exfalso.
        apply (Hbefore j1 k1 Hj1 Hlt). by apply Hle. }
      assert (place k = (reg, key)) as Hplk.
      { destruct (decide (j = j1)) as [-> | Hne]; [congruence |].
        assert (key_le k k1 = true) as Hkk1.
        { apply (sorted_lookup (fun a b => key_le a b = true) ks j j1); [done.. | lia]. }
        rewrite (key_le_between x k k1 Hk Hkk1); [done |]. by rewrite Hpl. }
      assert (j = j1) as ->.
      { apply (NoDup_lookup (place <$> ks) j j1 (reg, key) Hnd); rewrite list_lookup_fmap.
        - by rewrite Hj, <- Hplk.
        - by rewrite Hj1, <- Hpl. }
      assert (k = k1) as -> by congruence. injection Hpl as -> ->.
      rewrite (bool_decide_eq_true_2 (reg = reg)), (bool_decide_eq_true_2 (key = key)) by done.
      by rewrite Hop.
  - split; [done |]. intros (k & Hin & Hpl & Hop). apply list_find_None in Hf.
    rewrite Forall_forall in Hf. destruct (Hf k Hin). apply Hle, key_le_spec.
    injection Hpl as Hr Hk. right. right. split_and!; [done.. | simpl; lia].
Qed.

(** ** The structure loop *)

Definition valid_op (rs : gmap string Registration) (op : Op value) : Prop :=
  registered rs (op_resource op) ∧ (op_kind op = kUpsert -> op_value op <> None).

(** The scratch after the operations [l] have been checked. *)
Definition note_op (w : Scratch) (iop : nat * Op value) : Scratch :=
  let w := set_reg iop.1 (op_resource iop.2) w in
  set_keys (w_keys w ++ [mk_keyref (op_resource iop.2) (op_key iop.2) iop.1]) w.

Definition checked (n : nat) (l : list (nat * Op value)) : Scratch :=
  foldl note_op (clear_scratch n) l.

Lemma checked_snoc n l x : checked n (l ++ [x]) = note_op (checked n l) x.
Proof. unfold checked. by rewrite foldl_snoc. Qed.

Lemma checked_fields n l :
  w_keys (checked n l) = (fun '(i, op) => mk_keyref (op_resource op) (op_key op) i) <$> l ∧
  w_staged (checked n l) = [] ∧ w_removals_by_op (checked n l) = replicate n 0 ∧
  w_deltas (checked n l) = [] ∧ w_touched (checked n l) = [] ∧
  length (w_reg (checked n l)) = n.
Proof.
  induction l as [| [i op] l IH] using rev_ind.
  { simpl. by rewrite length_replicate. }
  rewrite checked_snoc, fmap_app. simpl. destruct IH as (-> & -> & -> & -> & -> & Hlen).
  simpl. by rewrite length_insert.
Qed.

Lemma imap_pair_lookup {A} (l : list A) i : imap pair l !! i = (pair i) <$> l !! i.
Proof. apply list_lookup_imap. Qed.

Lemma checked_reg ops i op :
  ops !! i = Some op ->
  w_reg (checked (length ops) (imap pair ops)) !! i = Some (Some (op_resource op)).
Proof.
  intros Hi. assert (∀ k, (k <= length ops)%nat -> (i < k)%nat ->
    w_reg (checked (length ops) (take k (imap pair ops))) !! i = Some (Some (op_resource op))) as Hk.
  { intros k. induction k as [| k IH]; intros Hle Hlt; [lia |].
    destruct (lookup_lt_is_Some_2 ops k) as [opk Hopk]; [lia |].
    assert (imap pair ops !! k = Some (k, opk)) as Hpk by by rewrite imap_pair_lookup, Hopk.
    rewrite (take_S_r _ _ _ Hpk), checked_snoc.
    destruct (checked_fields (length ops) (take k (imap pair ops))) as (_ & _ & _ & _ & _ & Hlen).
    simpl. destruct (decide (i = k)) as [-> | Hne].
    - rewrite list_lookup_insert_eq; [congruence |]. rewrite Hlen. lia.
    - rewrite list_lookup_insert_ne by done. apply IH; lia. }
  rewrite <- (firstn_all (imap pair ops)), length_imap. apply Hk; [done |].
  by eapply lookup_lt_Some.
Qed.

Lemma check_structure ops consistency owned e (QR : Result -> t -> Prop) (Q : () -> t -> Prop) :
  (∀ r s, outcome r <> kApplied -> r_generation r = generation_ e -> QR r (with_scratch s e)) ->
  (Forall (valid_op (resources_ e)) ops ->
     Q () (with_scratch (checked (length ops) (imap pair ops)) e)) ->
  wp (for_each (imap pair ops) (check_op (length ops) consistency owned)) QR Q
    (with_scratch (clear_scratch (length ops)) e).
Proof.
  intros HQR HQ. set (n := length ops).
  eapply wp_mono.
  - apply (wp_for_each _ QR (fun done todo s =>
      s = with_scratch (checked n done) e ∧ Forall (valid_op (resources_ e)) done.*2)
      ) with (done := []); [| done].
    intros done [i op] todo s [-> Hv]. unfold check_op. wp_step. apply wp_get. simpl.
    destruct (resources_ e !! op_resource op) as [reg |] eqn:Hr.
    2: { apply wp_return. by apply HQR. }
    destruct (match owned with Some l => _ | None => false end).
    { apply wp_return. by apply HQR. }
    wp_step. apply wp_modify. simpl.
    destruct (bool_decide (consistency = kScopeSnapshot) && _).
    { apply wp_return. by apply (HQR _ (set_reg i (op_resource op) (checked n done))). }
    destruct (bool_decide (op_kind op = kUpsert) && bool_decide (op_value op = None)) eqn:Hno.
    { apply wp_return. by apply (HQR _ (set_reg i (op_resource op) (checked n done))). }
    apply wp_modify. split.
    { by rewrite checked_snoc. }
    rewrite fmap_app. apply Forall_app. split; [done |]. apply Forall_singleton. split; [by eexists |].
    simpl. intros Hk Hval. by rewrite !bool_decide_eq_true_2 in Hno.
  - done.
  - intros [] s [-> Hv]. apply HQ. simpl in Hv.
    enough ((imap pair ops).*2 = ops) as <- by done.
    apply list_eq. intros i. rewrite list_lookup_fmap, imap_pair_lookup. by destruct (ops !! i).
Qed.

End Keys.

End Keys.
