(* ===== verification/EngineReserve.v ===== *)
(** * Reserving and aborting

    The state of the engine while a transaction holds reservations
    ([txstate]), and the proof that the abort guard undoes all of it: whatever
    was reserved, the engine is back in its invariant with the committed
    collections, the ledger and the generation it had. *)

From S2P Require Import Prelude Resource Engine EngineRanks EngineRegistry EngineInv.
From S2P Require Import EngineKeys.
Import Res Eng Registry Inv Keys.
Open Scope Z_scope.

Module Reserving.

Section Reserving.
Context {RS : Resources} {DM : Domain} {MM : Memory} {RV : ResourceView} {RL : ResourceLaws}.
Implicit Types (rs : gmap string Registration) (e : t) (w : world).

(** The same registrations up to the flags of the transaction in progress. *)
Definition flags_differ rs rs' : Prop := set_touched false 0 <$> rs' = set_touched false 0 <$> rs.

Lemma flags_differ_lookup rs rs' n reg :
  flags_differ rs rs' -> rs !! n = Some reg ->
  ∃ b i, rs' !! n = Some (set_touched b i reg).
Proof.
  intros Hd Hn. pose proof (f_equal (.!! n) Hd) as He. rewrite !lookup_fmap, Hn in He.
  destruct (rs' !! n) as [reg' |]; [| done]. exists (touched reg'), (last_op reg').
  destruct reg, reg'. simpl in *. injection He as ???????. by subst.
Qed.

Lemma flags_differ_sym rs rs' : flags_differ rs rs' -> flags_differ rs' rs.
Proof. by unfold flags_differ. Qed.

Lemma flags_differ_trans rs rs' rs'' :
  flags_differ rs rs' -> flags_differ rs' rs'' -> flags_differ rs rs''.
Proof. unfold flags_differ. congruence. Qed.

Lemma flags_differ_alter rs n b (f : Registration -> nat) :
  flags_differ rs (alter (fun reg => set_touched b (f reg) reg) n rs).
Proof.
  unfold flags_differ. apply map_eq. intros m. rewrite !lookup_fmap.
  destruct (decide (n = m)) as [-> |].
  - rewrite lookup_alter_eq. by destruct (rs !! m).
  - by rewrite lookup_alter_ne.
Qed.

Lemma flags_differ_graph rs rs' : flags_differ rs rs' -> same_graph rs rs'.
Proof.
  unfold flags_differ, same_graph. intros Hd.
  assert (∀ m : gmap string Registration, core <$> m = core <$> (set_touched false 0 <$> m)) as Hc.
  { intros m. rewrite <- map_fmap_compose. apply map_fmap_ext. by intros ?? _. }
  rewrite (Hc rs'), Hd. symmetry. apply Hc.
Qed.

Lemma flags_differ_rank rs rs' n :
  flags_differ rs rs' -> Ranks.rank_at rs' n = Ranks.rank_at rs n.
Proof.
  intros Hd. unfold Ranks.rank_at. pose proof (f_equal (.!! n) Hd) as He.
  rewrite !lookup_fmap in He. destruct (rs !! n), (rs' !! n); [| done..].
  simpl in He. by injection He.
Qed.

(** The resources with the names [ns]. *)
Definition rids rs (ns : list string) : gset rid :=
  list_to_set (omap (fun n => resource <$> rs !! n) ns).

Lemma rids_snoc rs ns n reg :
  rs !! n = Some reg -> rids rs (ns ++ [n]) = {[resource reg]} ∪ rids rs ns.
Proof.
  intros Hn. unfold rids. rewrite omap_app. simpl. rewrite Hn. simpl.
  rewrite list_to_set_app_L. simpl. rewrite (right_id_L ∅ (∪)). apply (comm_L (∪)).
Qed.

Lemma elem_of_rids rs ns r :
  r ∈ rids rs ns <-> ∃ n reg, n ∈ ns ∧ rs !! n = Some reg ∧ resource reg = r.
Proof.
  unfold rids. rewrite elem_of_list_to_set, list_elem_of_omap. split.
  - intros (n & Hn & (reg & Hr & ->)%fmap_Some). eauto.
  - intros (n & reg & Hn & Hr & <-). exists n. split; [done |]. by rewrite Hr.
Qed.

(** [e] is in a transaction begun in [e0]: reservations [l] are held, [P] have
    prepared, nothing is visible. *)
Record txstate (e0 e : t) (l : list rsv) (P : gset rid) : Prop := {
  t_tx : tx (world_ e) l P (rids (resources_ e0) (w_touched (scratch_ e)))
           (s_fn <$> all_steps (cascades_ e0));
  t_prepared : P ⊆ rids (resources_ e0) (w_touched (scratch_ e));
  t_view : same_view (world_ e0) (world_ e);
  t_held : same_held false (world_ e0) (world_ e);
  t_resources : flags_differ (resources_ e0) (resources_ e);
  t_touched : ∀ n reg, resources_ e !! n = Some reg ->
                touched reg = true <-> n ∈ w_touched (scratch_ e);
  t_registered : Forall (registered (resources_ e0)) (w_touched (scratch_ e));
  t_staged : (w_staged (scratch_ e)).*2 = (fun x => staged (rv_res x)) <$> l;
  t_domain : domain_ e = domain_ e0;
  t_cascades : cascades_ e = cascades_ e0;
  t_deferred : deferred_objects_ e = deferred_objects_ e0;
  t_generation : generation_ e = generation_ e0;
  t_dirty : ranks_dirty_ e = ranks_dirty_ e0;
  t_cycle : reference_cycle_ e = reference_cycle_ e0;
  t_trace : trace e = trace e0
}.

(** ** Abort *)

Lemma abort_staged_spec w l P T S sts :
  sts.*2 = (fun x => staged (rv_res x)) <$> l -> tx w l P T S ->
  tx (abort_staged sts w) [] P T S ∧ same_view w (abort_staged sts w) ∧
  same_held false w (abort_staged sts w).
Proof.
  revert sts w. induction l as [| x l IH] using rev_ind; intros sts w Hst Htx.
  { apply fmap_nil_inv in Hst. subst. by split_and!. }
  rewrite fmap_app in Hst. apply fmap_app_inv in Hst as (s1 & s2 & Hs1 & Hs2 & ->).
  destruct s2 as [| [i st] [|]]; try done. injection Hs2 as Hs2.
  destruct (Abort_law _ _ _ _ _ _ Htx) as (Htx' & Hv & Hh).
  unfold abort_staged. rewrite foldr_app. simpl. rewrite <- Hs2.
  edestruct (IH s1) as (Htx2 & Hv2 & Hh2); [by rewrite <- Hs1 | exact Htx' |].
  split; [exact Htx2 |]. destruct Hv as [Hc Hr], Hv2 as [Hc2 Hr2]. split; [split |].
  - intros r. unfold abort_staged in Hc2. by rewrite Hc2, Hc.
  - intros r. unfold abort_staged in Hr2. by rewrite Hr2, Hr.
  - intros r k. unfold abort_staged in Hh2. by rewrite Hh2, Hh.
Qed.

Lemma same_view_trans w w' w'' : same_view w w' -> same_view w' w'' -> same_view w w''.
Proof. intros [Hc Hr] [Hc' Hr']. split; intros r; congruence. Qed.

Lemma same_held_trans b w w' w'' : same_held b w w' -> same_held b w' w'' -> same_held b w w''.
Proof. intros H1 H2 r k. by rewrite H2, H1. Qed.

(** Ending the transaction for the touched resources, one by one. *)
Record ending (e0 e : t) (P T : gset rid) (S : list step_fn) (ns : list string) : Prop := {
  n_tx : tx (world_ e) [] P T S;
  n_sub : P ⊆ T;
  n_left : T ⊆ rids (resources_ e0) ns;
  n_view : same_view (world_ e0) (world_ e);
  n_held : same_held false (world_ e0) (world_ e);
  n_resources : flags_differ (resources_ e0) (resources_ e);
  n_touched : ∀ n reg, resources_ e !! n = Some reg -> touched reg = true -> n ∈ ns;
  n_registered : Forall (registered (resources_ e0)) ns
}.

Lemma end_transaction_eq n e reg :
  resources_ e !! n = Some reg ->
  end_transaction n e =
  with_world (EndTransaction (resource reg) (world_ e))
    (update n (fun reg => set_touched false (last_op reg) reg) e).
Proof. intros Hn. unfold end_transaction. by rewrite Hn. Qed.

Lemma end_transactions e0 e P T S ns :
  ending e0 e P T S ns ->
  let e' := foldl (fun e n => end_transaction n e) e ns in
  ending e0 e' ∅ ∅ S [] ∧ domain_ e' = domain_ e ∧ cascades_ e' = cascades_ e ∧
  deferred_objects_ e' = deferred_objects_ e ∧ generation_ e' = generation_ e ∧
  ranks_dirty_ e' = ranks_dirty_ e ∧ reference_cycle_ e' = reference_cycle_ e ∧
  scratch_ e' = scratch_ e ∧ trace e' = trace e.
Proof.
  revert e P T. induction ns as [| n ns IH]; intros e P T [Htx HPT HT Hv Hh Hr Ht Hreg] e'.
  { assert (T = ∅) as -> by (by apply elem_of_equiv_empty_L; intros r Hr'; apply HT in Hr').
    assert (P = ∅) as -> by (by apply elem_of_equiv_empty_L; intros r Hr'; apply HPT in Hr').
    by split_and!. }
  apply Forall_cons in Hreg as [[reg0 Hn0] Hreg].
  destruct (flags_differ_lookup _ _ _ _ Hr Hn0) as (b & i & Hn).
  unfold e'. simpl. rewrite (end_transaction_eq _ _ _ Hn). clear e'.
  destruct (EndTransaction_law _ _ _ _ (resource reg0) Htx) as (Htx' & Hv' & Hh').
  set (e1 := with_world _ (update _ _ _)).
  destruct (IH e1 (P ∖ {[resource reg0]}) (T ∖ {[resource reg0]})) as [Hend Hrest];
    [| exact (conj Hend Hrest)]. constructor; simpl.
  - exact Htx'.
  - by apply difference_mono_r.
  - intros r [Hr1 Hr2]%elem_of_difference. apply HT in Hr1.
    apply elem_of_rids in Hr1 as (m & reg & Hm & Hmr & Heq).
    apply elem_of_cons in Hm as [-> | Hm].
    + rewrite Hn0 in Hmr. injection Hmr as ->. by apply not_elem_of_singleton in Hr2.
    + apply elem_of_rids. eauto.
  - by eapply same_view_trans.
  - by eapply same_held_trans.
  - eapply flags_differ_trans; [exact Hr |]. apply flags_differ_alter.
  - intros m reg Hm Htm. destruct (decide (m = n)) as [-> | Hne].
    + rewrite lookup_alter_eq, Hn in Hm. injection Hm as <-. done.
    + rewrite lookup_alter_ne in Hm by done. apply (Ht _ _ Hm) in Htm.
      by apply elem_of_cons in Htm as [-> |].
  - done.
Qed.

(** Nothing of the transaction is left. *)
Record undone (e0 e : t) : Prop := {
  u_view : same_view (world_ e0) (world_ e);
  u_held : same_held false (world_ e0) (world_ e);
  u_resources : flags_differ (resources_ e0) (resources_ e);
  u_domain : domain_ e = domain_ e0;
  u_cascades : cascades_ e = cascades_ e0;
  u_deferred : deferred_objects_ e = deferred_objects_ e0;
  u_generation : generation_ e = generation_ e0;
  u_dirty : ranks_dirty_ e = ranks_dirty_ e0;
  u_cycle : reference_cycle_ e = reference_cycle_ e0;
  u_trace : trace e = trace e0
}.

Lemma exact_flags rs rs' w w' :
  flags_differ rs rs' -> same_view w w' -> same_held false w w' -> exact rs w -> exact rs' w'.
Proof.
  intros Hd [Hc _] Hh He h reg Hr k.
  destruct (flags_differ_lookup _ _ _ _ (flags_differ_sym _ _ Hd) Hr) as (b & i & Hr').
  rewrite (ledger_graph rs) by by apply flags_differ_graph.
  rewrite (ledger_view _ w) by done. by rewrite <- (He _ _ Hr').
Qed.

Lemma inv_undone e0 e :
  inv e0 -> undone e0 e -> map_Forall (fun _ reg => touched reg = false) (resources_ e) ->
  tx (world_ e) [] ∅ ∅ (s_fn <$> all_steps (cascades_ e0)) -> inv e.
Proof.
  intros [Hi He Hr Hu [Hw Ho Hd Hp]] [Hv Hh Hdf Hdom Hcas Hdef Hgen Hdir Hcyc _] Ht Htx.
  pose proof (flags_differ_graph _ _ Hdf) as Hg. constructor.
  - by eapply reg_inv_graph.
  - by eapply exact_flags.
  - rewrite Hdir, Hcyc. intros H1 H2 n. eapply settled_ext; [done | | by apply Hr].
    intros m. by apply flags_differ_rank.
  - done.
  - rewrite Hcas. constructor; [done | | by rewrite Hdef |].
    + eapply Forall_impl; [exact Ho |]. intros s (reg & Hs & Hown).
      destruct (flags_differ_lookup _ _ _ _ Hdf Hs) as (b & i & Hs'). by eexists.
    + intros n reg Hn.
      destruct (flags_differ_lookup _ _ _ _ (flags_differ_sym _ _ Hdf) Hn) as (b & i & Hn').
      by apply (Hp _ _ Hn').
Qed.

Lemma drop_new_entry_id e w d : exact (resources_ e) w -> drop_new_entry d e = e.
Proof.
  intros He. unfold drop_new_entry. case_bool_decide; [| done]. unfold update.
  assert (∀ rs, rs = resources_ e -> with_resources rs e = e) as Hid by (intros ? ->; by destruct e).
  apply Hid, map_eq. intros n. destruct (decide (d_target d = n)) as [<- |];
    [| by rewrite lookup_alter_ne].
  rewrite lookup_alter_eq. destruct (resources_ e !! d_target d) as [reg |] eqn:Hr; [| done].
  simpl. rewrite bool_decide_eq_false_2; [done |]. rewrite (He _ _ Hr). unfold entry.
  case_decide; [done |]. intros [= ?]. lia.
Qed.

Lemma drop_new_entries_id e w ds :
  exact (resources_ e) w -> foldl (fun e d => drop_new_entry d e) e ds = e.
Proof. intros He. induction ds as [| d ds IH]; [done |]. simpl. by rewrite (drop_new_entry_id e w). Qed.

Lemma abort_undone e0 e l P :
  inv e0 -> txstate e0 e l P -> undone e0 (abort e) ∧ inv (abort e).
Proof.
  intros Hinv [Htx HP Hv Hh Hr Ht Hreg Hst Hdom Hcas Hdef Hgen Hdir Hcyc Htr].
  destruct (abort_staged_spec _ _ _ _ _ _ Hst Htx) as (Htx1 & Hv1 & Hh1).
  unfold abort. set (e1 := with_world _ e).
  destruct (end_transactions e0 e1 P (rids (resources_ e0) (w_touched (scratch_ e)))
              (s_fn <$> all_steps (cascades_ e0)) (w_touched (scratch_ e)))
    as ([Htx2 _ _ Hv2 Hh2 Hr2 Ht2 _] & Hd2 & Hc2 & Hf2 & Hg2 & Hdi2 & Hcy2 & Hs2 & Htr2).
  { constructor; simpl; [done.. | by eapply same_view_trans | by eapply same_held_trans | done | | done].
    intros n reg Hn Htn. by apply (Ht _ _ Hn). }
  change (w_touched (scratch_ e1)) with (w_touched (scratch_ e)).
  set (e2 := foldl _ e1 _) in *.
  rewrite (drop_new_entries_id e2 (world_ e2));
    [| by eapply exact_flags; [..| apply (i_exact _ Hinv)]].
  assert (undone e0 e2) as Hun by (constructor; simpl in *; try done; congruence).
  split; [done |]. apply (inv_undone e0); [done.. | | done].
  intros n reg Hn. destruct (touched reg) eqn:Htn; [| done].
  apply (Ht2 _ _ Hn) in Htn. by apply not_elem_of_nil in Htn.
Qed.

(** ** Reference changes *)

Definition delta_old rs w (reg : Registration) (ref : Reference) : option Delta :=
  hk ← counted_on rs w false reg ref; Some (mk_delta hk.1 hk.2 (-1) None).

Definition delta_new rs w (i : nat) (reg : Registration) (ref : Reference) : option Delta :=
  hk ← counted_on rs w true reg ref; Some (mk_delta hk.1 hk.2 1 (Some i)).

(** The new reference is to a key that may be referenced. *)
Definition referable rs w (reg : Registration) (ref : Reference) : Prop :=
  ∃ h hreg, counted_on rs w true reg ref = Some (h, ref_key ref) ∧ rs !! h = Some hreg ∧
    DefersErase (resource hreg) = true.

Definition more_deltas (ds : list Delta) e : t :=
  with_scratch (set_deltas (w_deltas (scratch_ e) ++ ds) (scratch_ e)) e.

Lemma more_deltas_app ds ds' e : more_deltas ds' (more_deltas ds e) = more_deltas (ds ++ ds') e.
Proof. unfold more_deltas. simpl. by rewrite app_assoc. Qed.

Lemma more_deltas_nil e : more_deltas [] e = e.
Proof. unfold more_deltas. rewrite app_nil_r. by destruct e as [? ? ? ? ? []]. Qed.

Lemma wp_drop_references refs rn reg e QR (Q : () -> t -> Prop) :
  reg_inv (resources_ e) -> resources_ e !! rn = Some reg ->
  Q () (more_deltas (omap (delta_old (resources_ e) (world_ e) reg) refs) e) ->
  wp (for_each refs (drop_reference rn)) QR Q e.
Proof.
  revert e. induction refs as [| ref refs IH]; intros e Hi Hn HQ; simpl.
  { apply wp_ret. by rewrite <- (more_deltas_nil e). }
  wp_step. unfold drop_reference. wp_step. apply wp_get.
  wp_step. apply (wp_lift _ reg); [by apply deref_lookup |].
  simpl in HQ. unfold delta_old at 1, counted_on at 1 in HQ.
  rewrite Resolve_spec in HQ |- *. case_decide as Hd; simpl in HQ.
  2: { apply wp_ret. by apply IH. }
  wp_step. eapply wp_lift; [apply Holder_at; by eapply dep_registered |].
  destruct (holder_at _ _ _ _ _) as [h |] eqn:Hh; simpl in HQ.
  2: { apply wp_ret. by apply IH. }
  apply wp_modify. apply IH; [done.. |].
  change (with_scratch _ e) with (more_deltas [mk_delta h (ref_key ref) (-1) None] e).
  rewrite more_deltas_app. exact HQ.
Qed.

Lemma wp_add_references n i refs rn reg e (QR : Result -> t -> Prop) (Q : () -> t -> Prop) :
  reg_inv (resources_ e) -> resources_ e !! rn = Some reg ->
  (∀ r ds, outcome r <> kApplied -> r_generation r = generation_ e -> QR r (more_deltas ds e)) ->
  (Forall (referable (resources_ e) (world_ e) reg) refs ->
     Q () (more_deltas (omap (delta_new (resources_ e) (world_ e) i reg) refs) e)) ->
  wp (for_each refs (add_reference n i rn)) QR Q e.
Proof.
  intros Hi Hn HQR HQ. rewrite <- (more_deltas_nil e).
  assert (∀ todo ds, Forall (referable (resources_ e) (world_ e) reg) ds ->
            refs = ds ++ todo ->
            wp (for_each todo (add_reference n i rn)) QR Q
              (more_deltas (omap (delta_new (resources_ e) (world_ e) i reg) ds) e)) as Hloop;
    [| by apply (Hloop refs [])].
  induction todo as [| ref todo IH]; intros ds Hds Heq; simpl.
  { apply wp_ret. rewrite app_nil_r in Heq. subst. by apply HQ. }
  wp_step. unfold add_reference. wp_step. apply wp_get. simpl.
  wp_step. apply (wp_lift _ reg); [by apply deref_lookup |].
  rewrite Resolve_spec. case_decide as Hd.
  2: { apply wp_return. by apply HQR. }
  assert (registered (resources_ e) (ref_resource ref)) as [treg Ht] by by eapply dep_registered.
  wp_step. eapply wp_lift; [apply Holder_at; by eexists |].
  wp_step. apply (wp_lift _ treg); [by apply deref_lookup |].
  destruct (holder_at _ _ _ _ _) as [h |] eqn:Hh.
  2: { apply wp_return. by apply HQR. }
  destruct (holder_at_registered _ _ _ _ _ _ Hi Hh) as [hreg Hhr].
  wp_step. apply (wp_lift _ hreg); [by apply deref_lookup |].
  destruct (DefersErase (resource hreg)) eqn:Hdef; simpl.
  2: { apply wp_return. by apply HQR. }
  assert (counted_on (resources_ e) (world_ e) true reg ref = Some (h, ref_key ref)) as Hc.
  { unfold counted_on. rewrite Resolve_spec, decide_True by done. simpl. by rewrite Hh. }
  apply wp_modify. specialize (IH (ds ++ [ref])). rewrite omap_app in IH. simpl in IH.
  unfold delta_new at 2 in IH. rewrite Hc in IH. simpl in IH.
  rewrite <- more_deltas_app in IH. apply IH.
  - apply Forall_app. split; [done |]. apply Forall_singleton. by exists h, hreg.
  - by rewrite <- app_assoc.
Qed.

(** ** One reservation *)

Section Loop.
Context (e0 : t) (ops : list (Op value)).
Context (Hinv : inv e0) (Hranks : ∀ n, Ranks.settled (resources_ e0) n).
Context (Hvalid : Forall (valid_op (resources_ e0)) ops).
Context (Hdistinct : ∀ i j op op', ops !! i = Some op -> ops !! j = Some op' ->
           op_resource op = op_resource op' -> op_key op = op_key op' -> i = j).
Context (Hregs : ∀ i op, ops !! i = Some op ->
           w_reg (scratch_ e0) !! i = Some (Some (op_resource op))).
Context (Hbudget : retire_budget (domain_ e0) < 2 ^ 31).
Context (Hfew : Z.of_nat (length ops) < 2 ^ 24).

Local Abbreviation rs0 := (resources_ e0).
Local Abbreviation w0 := (world_ e0).

(** What a reservation records, checked against the state before the
    transaction and, for new references, the transaction's own view [w]. *)
Record reserved w (i : nat) (x : rsv) : Prop := {
  v_op : ops !! i = Some (rv_op x);
  v_reg : ∃ reg, rs0 !! op_resource (rv_op x) = Some reg ∧ rv_rid x = resource reg ∧
            (op_kind (rv_op x) = kUpsert ->
             Forall (referable rs0 w reg) (references (rv_res x)));
  v_small : small_footprint (footprint (rv_res x));
  v_existed : existed (rv_res x) = bool_decide (is_Some (committed w0 (rv_rid x) !! op_key (rv_op x)));
  v_previous : existed (rv_res x) = true ->
               committed w0 (rv_rid x) !! op_key (rv_op x) = Some (previous_references (rv_res x));
  v_fresh : op_kind (rv_op x) = kUpsert -> committed w0 (rv_rid x) !! op_key (rv_op x) = None ->
            readable w0 (rv_rid x) !! op_key (rv_op x) = None
}.

(** The reference changes of one reservation. *)
Definition deltas_of w (ix : nat * rsv) : list Delta :=
  let op := rv_op ix.2 in
  match rs0 !! op_resource op with
  | None => []
  | Some reg =>
      (if bool_decide (op_kind op = kErase)
       then [mk_delta (op_resource op) (op_key op) 0 None] else []) ++
      (if existed (rv_res ix.2)
       then omap (delta_old rs0 w reg) (previous_references (rv_res ix.2)) else []) ++
      (if bool_decide (op_kind op = kUpsert)
       then omap (delta_new rs0 w ix.1 reg) (references (rv_res ix.2)) else [])
  end.

Definition sum_of (f : Footprint -> Z) (d : list (nat * rsv)) : Z :=
  foldr (fun ix z => f (footprint (rv_res ix.2)) + z) 0 d.

Lemma sum_of_snoc f d ix : sum_of f (d ++ [ix]) = sum_of f d + f (footprint (rv_res ix.2)).
Proof. unfold sum_of. induction d as [| y d IH]; simpl; [lia |]. rewrite IH. lia. Qed.

(** The state of the loop after the reservations [d]. *)
Record reserving (d : list (nat * rsv)) (fp : Footprint) (e : t) : Prop := {
  g_tx : txstate e0 e d.*2 ∅;
  g_reserved : Forall (fun ix => reserved (world_ e) ix.1 ix.2) d;
  g_nodup : NoDup d.*1;
  g_reg : w_reg (scratch_ e) = w_reg (scratch_ e0);
  g_keys : w_keys (scratch_ e) = w_keys (scratch_ e0);
  g_staged : w_staged (scratch_ e) = (fun ix => (ix.1, staged (rv_res ix.2))) <$> d;
  g_deltas : w_deltas (scratch_ e) = mjoin (deltas_of (world_ e) <$> d);
  g_touched : ∀ n, n ∈ w_touched (scratch_ e) <->
                ∃ ix, ix ∈ d ∧ op_resource (rv_op ix.2) = n;
  g_length : length (w_removals_by_op (scratch_ e)) = length ops;
  g_removals : ∀ ix, ix ∈ d -> w_removals_by_op (scratch_ e) !! ix.1 =
                Some (removals (footprint (rv_res ix.2)));
  g_retires : retires fp = sum_of retires d;
  g_removed : removals fp = sum_of removals d;
  g_callbacks : callbacks fp = sum_of callbacks d;
  g_bound : retiring fp <= Z.max 0 (retire_budget (domain_ e0))
}.

(** *** Later reservations keep earlier answers

    Operations are reserved in ascending rank, so a resource reserved later is
    neither a referent nor a key holder of an earlier referrer. *)

Definition later_than (rn : string) (reg : Registration) : Prop :=
  ∀ n, Ranks.edge rs0 n rn -> rs0 !! n = Some reg -> False.

Lemma later_by_rank n reg rn :
  rs0 !! n = Some reg -> Ranks.rank_at rs0 n <= Ranks.rank_at rs0 rn -> later_than rn reg.
Proof.
  intros Hn Hle m Hedge Hm.
  destruct (i_reg _ Hinv _ _ Hn) as (Hname & _). destruct (i_reg _ Hinv _ _ Hm) as (Hname' & _).
  assert (m = n) as -> by congruence.
  pose proof (Ranks.settled_edge _ _ _ Hranks Hedge). lia.
Qed.

Lemma counted_stable n reg r w w' ref :
  rs0 !! n = Some reg -> registered rs0 (name r) -> later_than (name r) reg ->
  (∀ r' k, name r <> name r' -> name r <> key_holder r' ->
     HeldByKeyHolder r' w' k true = HeldByKeyHolder r' w k true) ->
  counted_on rs0 w' true reg ref = counted_on rs0 w true reg ref.
Proof.
  intros Hn Hr Hlater Hheld. unfold counted_on. rewrite Resolve_spec.
  case_decide as Hd; [| done]. simpl. unfold holder_at.
  destruct (rs0 !! ref_resource ref) as [treg |] eqn:Ht; [| done]. simpl.
  destruct (i_reg _ Hinv _ _ Ht) as (Htn & _ & _ & _ & Hk).
  case_bool_decide as Hke; [done |]. simpl. rewrite Hheld; [done | |].
  - intros Heq. apply (Hlater n); [| done]. exists reg, (ref_resource ref), treg.
    split_and!; [done.. |]. left. congruence.
  - intros Heq. apply (Hlater n); [| done]. exists reg, (ref_resource ref), treg.
    split_and!; [done.. |]. right. apply Hk. by rewrite Heq in Hr |- *.
Qed.

Lemma deltas_stable w w' r ix :
  registered rs0 (name r) ->
  (∀ reg, rs0 !! op_resource (rv_op ix.2) = Some reg -> later_than (name r) reg) ->
  same_held false w w' ->
  (∀ r' k, name r <> name r' -> name r <> key_holder r' ->
     HeldByKeyHolder r' w' k true = HeldByKeyHolder r' w k true) ->
  deltas_of w' ix = deltas_of w ix.
Proof.
  intros Hr Hlater Hh Hheld. unfold deltas_of.
  destruct (rs0 !! op_resource (rv_op ix.2)) as [reg |] eqn:Hreg; [| done].
  f_equal. f_equal.
  - destruct (existed _); [| done]. apply omap_ext_in. intros ref _. unfold delta_old.
    by rewrite (counted_on_view _ w).
  - case_bool_decide; [| done]. apply omap_ext_in. intros ref _. unfold delta_new.
    by rewrite (counted_stable _ _ r w w' ref Hreg Hr (Hlater _ eq_refl) Hheld).
Qed.

Lemma reserved_stable w w' r i x :
  registered rs0 (name r) ->
  (∀ reg, rs0 !! op_resource (rv_op x) = Some reg -> later_than (name r) reg) ->
  (∀ r' k, name r <> name r' -> name r <> key_holder r' ->
     HeldByKeyHolder r' w' k true = HeldByKeyHolder r' w k true) ->
  reserved w i x -> reserved w' i x.
Proof.
  intros Hr Hlater Hheld [H1 (reg & Hreg & Hrid & Hrefs) H3 H4 H5 H6]. constructor; try done.
  exists reg. split_and!; [done.. |]. intros Hu. eapply Forall_impl; [by apply Hrefs |].
  intros ref (h & hreg & Hc & Hh). exists h, hreg. split; [| done].
  by rewrite (counted_stable _ _ r w w' ref Hreg Hr (Hlater _ Hreg) Hheld).
Qed.

(** *** The transaction state after one more [Reserve] *)

Definition touch (rn : string) (ns : list string) : list string :=
  if bool_decide (rn ∈ ns) then ns else ns ++ [rn].

Lemma elem_of_touch rn ns n : n ∈ touch rn ns <-> n ∈ ns ∨ n = rn.
Proof.
  unfold touch. case_bool_decide as Hin.
  - split; [tauto |]. by intros [? | ->].
  - by rewrite elem_of_app, list_elem_of_singleton.
Qed.

Lemma rids_touch rn ns reg :
  rs0 !! rn = Some reg -> rids rs0 (touch rn ns) = {[resource reg]} ∪ rids rs0 ns.
Proof.
  intros Hrn. apply set_eq. intros r. rewrite elem_of_union, elem_of_singleton, !elem_of_rids.
  setoid_rewrite elem_of_touch. split.
  - intros (n & reg' & [Hn | ->] & Hr & <-); [right; eauto | left; congruence].
  - intros [-> | (n & reg' & Hn & Hr & <-)]; [| eauto 6]. exists rn, reg. eauto.
Qed.

Lemma txstate_reserve e e' l l' rn reg i :
  txstate e0 e l ∅ -> rs0 !! rn = Some reg ->
  tx (world_ e') l' ∅ ({[resource reg]} ∪ rids rs0 (w_touched (scratch_ e)))
    (s_fn <$> all_steps (cascades_ e0)) ->
  same_view (world_ e) (world_ e') -> same_held false (world_ e) (world_ e') ->
  resources_ e' = alter (set_touched true i) rn (resources_ e) ->
  w_touched (scratch_ e') = touch rn (w_touched (scratch_ e)) ->
  (w_staged (scratch_ e')).*2 = (fun x => staged (rv_res x)) <$> l' ->
  domain_ e' = domain_ e -> cascades_ e' = cascades_ e ->
  deferred_objects_ e' = deferred_objects_ e -> generation_ e' = generation_ e ->
  ranks_dirty_ e' = ranks_dirty_ e -> reference_cycle_ e' = reference_cycle_ e ->
  trace e' = trace e ->
  txstate e0 e' l' ∅.
Proof.
  intros [Htx HP Hv Hh Hr Ht Hreg Hst Hd1 Hd2 Hd3 Hd4 Hd5 Hd6 Hd7] Hrn Htx' Hv' Hh' Hres Hto Hst'
    ? ? ? ? ? ? ?.
  constructor; try congruence.
  - by rewrite Hto, (rids_touch _ _ reg).
  - apply empty_subseteq.
  - by eapply same_view_trans.
  - rewrite Hres. eapply flags_differ_trans; [exact Hr |].
    apply (flags_differ_alter _ _ true (fun _ => i)).
  - intros n reg' Hn. rewrite Hto, elem_of_touch. rewrite Hres in Hn.
    destruct (decide (n = rn)) as [-> | Hne].
    + rewrite lookup_alter_eq in Hn. destruct (resources_ e !! rn) as [reg1 |]; [| done].
      injection Hn as <-. simpl. tauto.
    + rewrite lookup_alter_ne in Hn by done. rewrite (Ht _ _ Hn). tauto.
  - rewrite Hto. apply Forall_forall. intros n Hn%elem_of_touch.
    rewrite Forall_forall in Hreg. destruct Hn as [? | ->]; [by apply Hreg | by eexists].
Qed.

Definition early (r : Result) (e : t) : Prop :=
  outcome r <> kApplied ∧ r_generation r = generation_ e0 ∧ ∃ l P, txstate e0 e l P.

Lemma txstate_scratch e s l P :
  w_touched s = w_touched (scratch_ e) -> (w_staged s).*2 = (w_staged (scratch_ e)).*2 ->
  txstate e0 e l P -> txstate e0 (with_scratch s e) l P.
Proof.
  intros Ht Hs [? ? ? ? ? ? ? ? ? ? ? ? ? ? ?].
  constructor; simpl; rewrite ?Ht, ?Hs; done.
Qed.

Lemma txstate_reg_inv e l P : txstate e0 e l P -> reg_inv (resources_ e).
Proof.
  intros Htx. eapply reg_inv_graph; [apply flags_differ_graph, Htx | apply Hinv].
Qed.

(** Answers that ignore the flags. *)
Lemma counted_on_flags e l P n reg reg' w b ref :
  txstate e0 e l P -> rs0 !! n = Some reg -> resources_ e !! n = Some reg' ->
  counted_on (resources_ e) w b reg' ref = counted_on rs0 w b reg ref.
Proof.
  intros Htx Hn Hn'. apply counted_on_graph; [apply flags_differ_graph, Htx |].
  destruct (flags_differ_lookup _ _ _ _ (t_resources _ _ _ _ Htx) Hn) as (b' & i & Hn'').
  rewrite Hn' in Hn''. by injection Hn'' as ->.
Qed.

Lemma referable_flags e l P n reg reg' w ref :
  txstate e0 e l P -> rs0 !! n = Some reg -> resources_ e !! n = Some reg' ->
  referable (resources_ e) w reg' ref -> referable rs0 w reg ref.
Proof.
  intros Htx Hn Hn' (h & hreg & Hc & Hh & Hd).
  rewrite (counted_on_flags _ _ _ _ _ _ _ _ _ Htx Hn Hn') in Hc.
  destruct (flags_differ_lookup _ _ _ _ (flags_differ_sym _ _ (t_resources _ _ _ _ Htx)) Hh)
    as (b & i & Hh').
  by eexists h, _.
Qed.

(** The steps of [note_reservation] that follow the push onto [staged]. *)
Lemma wp_note_reservation n i rn op r fp e l reg reg' (Q : Footprint -> t -> Prop) :
  txstate e0 (with_scratch (push_staged i (staged r) (scratch_ e)) e) l ∅ ->
  resources_ e !! rn = Some reg' -> rs0 !! rn = Some reg -> rn = op_resource op ->
  (let ds := (if bool_decide (op_kind op = kErase)
              then [mk_delta rn (op_key op) 0 None] else []) ++
             (if existed r then omap (delta_old rs0 (world_ e) reg) (previous_references r) else []) ++
             (if bool_decide (op_kind op = kUpsert)
              then omap (delta_new rs0 (world_ e) i reg) (references r) else []) in
   let fp' := add_footprint fp (footprint r) in
   (op_kind op = kUpsert -> Forall (referable rs0 (world_ e) reg) (references r)) ->
   retiring fp' <= retire_budget (domain_ e0) ->
   Q fp' (with_scratch (mk_scratch (w_reg (scratch_ e)) (w_keys (scratch_ e))
            (w_staged (scratch_ e) ++ [(i, staged r)])
            (<[i := removals (footprint r)]> (w_removals_by_op (scratch_ e)))
            (w_deltas (scratch_ e) ++ ds) (w_touched (scratch_ e))) e)) ->
  wp (note_reservation n i rn op r fp) early Q e.
Proof.
  intros Htx Hn' Hn -> HQ. unfold note_reservation.
  set (e1 := with_scratch (push_staged i (staged r) (scratch_ e)) e) in *.
  wp_step. apply wp_modify. fold e1.
  assert (∀ ds, txstate e0 (more_deltas ds e1) l ∅) as Hmore
    by (intros ds; by apply txstate_scratch).
  assert (∀ ds, generation_ (more_deltas ds e1) = generation_ e0) as Hgen
    by (intros ds; apply (Hmore ds)).
  set (ds1 := if bool_decide (op_kind op = kErase)
              then [mk_delta (op_resource op) (op_key op) 0 None] else []) in *.
  wp_step. eapply (wp_mono _ early early (fun _ s => s = more_deltas ds1 e1)); [| done |].
  { unfold ds1. destruct (bool_decide (op_kind op = kErase)); [done |].
    apply wp_ret. by rewrite more_deltas_nil. }
  intros _ s ->. set (ds2 := if existed r then _ else _) in *.
  wp_step. eapply (wp_mono _ early early (fun _ s => s = more_deltas (ds1 ++ ds2) e1)); [| done |].
  { unfold ds2. destruct (existed r); [| apply wp_ret; by rewrite app_nil_r].
    eapply wp_drop_references; [by eapply txstate_reg_inv | exact Hn' |].
    rewrite more_deltas_app. do 2 f_equal. apply omap_ext_in. intros ref _. unfold delta_old.
    by rewrite (counted_on_flags _ _ _ _ _ _ _ _ _ (Hmore ds1) Hn Hn'). }
  intros _ s ->. set (ds3 := if bool_decide (op_kind op = kUpsert) then _ else _) in *.
  wp_step. eapply (wp_mono _ early early (fun _ s => s = more_deltas (ds1 ++ ds2 ++ ds3) e1 ∧
     (op_kind op = kUpsert -> Forall (referable rs0 (world_ e) reg) (references r)))); [| done |].
  { unfold ds3. destruct (bool_decide (op_kind op = kUpsert)) eqn:Hu.
    2: { apply wp_ret. rewrite app_nil_r. split; [done |]. intros Hk.
         by apply bool_decide_eq_false in Hu. }
    eapply wp_add_references; [by eapply txstate_reg_inv | exact Hn' | |].
    - intros res ds Ho Hg. rewrite more_deltas_app. split_and!; [done | by rewrite Hg |]. eauto.
    - intros Href. rewrite more_deltas_app, <- app_assoc. split.
      + do 3 f_equal. apply omap_ext_in. intros ref _. unfold delta_new.
        by rewrite (counted_on_flags _ _ _ _ _ _ _ _ _ (Hmore ds1) Hn Hn').
      + intros _. eapply Forall_impl; [exact Href |]. intros ref.
        by apply (referable_flags _ _ _ _ _ _ _ _ (Hmore (ds1 ++ ds2)) Hn Hn'). }
  intros _ s [-> Href]. wp_step. apply wp_modify. wp_step. apply wp_get.
  set (e2 := with_scratch _ (more_deltas _ e1)).
  assert (domain_ e2 = domain_ e0) as Hdom by apply (t_domain _ _ _ _ (Hmore [])).
  rewrite Hdom. case_bool_decide as Hb.
  - apply wp_return. split_and!; [done | apply Hgen |].
    exists l, ∅. by apply txstate_scratch.
  - apply wp_ret. apply HQ; [done | lia].
Qed.

(** The new reservation is for a key none of the earlier ones is for. *)
Lemma fresh_key d w i op reg :
  Forall (fun ix => reserved w ix.1 ix.2) d -> i ∉ d.*1 -> ops !! i = Some op ->
  rs0 !! op_resource op = Some reg ->
  Forall (fun x => rv_rid x <> resource reg ∨ op_key (rv_op x) <> op_key op) d.*2.
Proof.
  intros Hd Hi Hop Hreg. apply Forall_forall. intros x Hx.
  apply list_elem_of_fmap in Hx as ([j x'] & -> & Hx). simpl.
  rewrite Forall_forall in Hd. destruct (Hd _ Hx) as [Hj (reg' & Hr' & Hrid & _) _ _ _ _]. simpl in *.
  destruct (decide (rv_rid x' = resource reg)) as [Heq |]; [right | by left].
  intros Hk. apply Hi. apply list_elem_of_fmap. exists (j, x'). split; [| done]. simpl.
  apply (Hdistinct i j op (rv_op x')); [done.. | | done].
  destruct (i_reg _ Hinv _ _ Hreg) as [<- _]. destruct (i_reg _ Hinv _ _ Hr') as [<- _].
  congruence.
Qed.

Lemma sum_of_nonneg f d w :
  (∀ fp, small_footprint fp -> 0 <= f fp) ->
  Forall (fun ix => reserved w ix.1 ix.2) d -> 0 <= sum_of f d.
Proof.
  intros Hf. induction 1 as [| ix d Hix _ IH]; simpl; [done |].
  specialize (Hf _ (v_small _ _ _ Hix)). lia.
Qed.

Lemma sum_of_bound f b d w :
  (∀ fp, small_footprint fp -> f fp <= b) -> 0 <= b ->
  Forall (fun ix => reserved w ix.1 ix.2) d -> sum_of f d <= b * Z.of_nat (length d).
Proof.
  intros Hf Hb. induction 1 as [| ix d Hix _ IH]; simpl length; [simpl; lia |].
  specialize (Hf _ (v_small _ _ _ Hix)). simpl. lia.
Qed.

Lemma reserving_length d fp e : reserving d fp e -> (length d <= length ops)%nat.
Proof.
  intros Hr. rewrite <- (length_fmap fst d), <- (length_seq (length ops) 0).
  apply submseteq_length, NoDup_submseteq; [apply Hr |]. intros i Hi.
  apply list_elem_of_fmap in Hi as (ix & -> & Hix). apply elem_of_seq. split; [lia |].
  pose proof (g_reserved _ _ _ Hr) as Hd. rewrite Forall_forall in Hd.
  pose proof (v_op _ _ _ (Hd _ Hix)) as Hop. apply lookup_lt_Some in Hop. lia.
Qed.

(** No sum of footprints wraps. *)
Lemma add_footprint_exact d fp e r :
  reserving d fp e -> small_footprint r ->
  add_footprint fp r =
  mk_footprint (retires fp + retires r) (removals fp + removals r) (callbacks fp + callbacks r).
Proof.
  intros Hr (H1 & H2 & H3). pose proof (g_bound _ _ _ Hr) as Hb. unfold retiring in Hb.
  pose proof (g_reserved _ _ _ Hr) as Hd.
  assert (0 <= retires fp ∧ 0 <= removals fp ∧ 0 <= callbacks fp) as (Hp1 & Hp2 & Hp3).
  { rewrite (g_retires _ _ _ Hr), (g_removed _ _ _ Hr), (g_callbacks _ _ _ Hr).
    split_and!; (eapply sum_of_nonneg; [| exact Hd]); intros ? (? & ? & ?); lia. }
  assert (callbacks fp <= 2 ^ 8 * Z.of_nat (length ops)) as Hc.
  { rewrite (g_callbacks _ _ _ Hr).
    etransitivity; [eapply (sum_of_bound callbacks (2 ^ 8) d); [| lia | exact Hd] |].
    - intros ? (? & ? & ?). lia.
    - pose proof (reserving_length _ _ _ Hr). lia. }
  unfold add_footprint. f_equal; apply wrap_small; split; lia.
Qed.

Lemma reserve_op_pre d fp e i op reg :
  reserving d fp e -> ops !! i = Some op -> i ∉ d.*1 -> rs0 !! op_resource op = Some reg ->
  ∃ w' o, Reserve (resource reg) (world_ e) op = Ret (w', o) ∧ same_view (world_ e) w' ∧
    same_held false (world_ e) w' ∧
    (∀ r' k, op_resource op <> name r' -> op_resource op <> key_holder r' ->
       HeldByKeyHolder r' w' k true = HeldByKeyHolder r' (world_ e) k true) ∧
    let T := {[resource reg]} ∪ rids rs0 (w_touched (scratch_ e)) in
    let S := s_fn <$> all_steps (cascades_ e0) in
    match o with
    | inl _ => tx w' d.*2 ∅ T S
    | inr res =>
        let x := mk_rsv (resource reg) op res in
        tx w' (d ++ [(i, x)]).*2 ∅ T S ∧ small_footprint (footprint res) ∧
        existed res = bool_decide (is_Some (committed w0 (resource reg) !! op_key op)) ∧
        (existed res = true ->
           committed w0 (resource reg) !! op_key op = Some (previous_references res)) ∧
        (op_kind op = kUpsert -> committed w0 (resource reg) !! op_key op = None ->
           readable w0 (resource reg) !! op_key op = None)
    end.
Proof.
  intros Hr Hop Hi Hreg. destruct (i_reg _ Hinv _ _ Hreg) as [Hname _].
  destruct (Reserve_law (world_ e) d.*2 (rids rs0 (w_touched (scratch_ e)))
              (s_fn <$> all_steps (cascades_ e0)) (resource reg) op)
    as (w' & o & Hres & Hv & Hh & Hheld & Ho).
  - apply Hr.
  - eapply fresh_key; [apply Hr | done..].
  - done.
  - rewrite Forall_forall in Hvalid. apply (Hvalid op). by eapply list_elem_of_lookup_2.
  - destruct (t_view _ _ _ _ (g_tx _ _ _ Hr)) as [Hc Hrd].
    exists w', o. rewrite Hname in Hheld. split_and!; [done.. |].
    destruct o as [err | res]; [done |]. cbv zeta. rewrite fmap_app. simpl.
    destruct Ho as (Htx & Hs & Hex & Hprev & Hfresh). rewrite Hc in *. rewrite Hrd in Hfresh.
    done.
Qed.

(** The transaction's scratch and flags once operation [i] is about to be
    reserved. *)
Definition marked e (rn : string) (i : nat) w : t :=
  with_world w (update rn (set_touched true i)
    (with_scratch (set_w_touched (touch rn (w_touched (scratch_ e))) (scratch_ e)) e)).

Lemma txstate_marked d fp e i op reg w l s :
  reserving d fp e -> rs0 !! op_resource op = Some reg -> ops !! i = Some op ->
  tx w l ∅ ({[resource reg]} ∪ rids rs0 (w_touched (scratch_ e)))
    (s_fn <$> all_steps (cascades_ e0)) ->
  same_view (world_ e) w -> same_held false (world_ e) w ->
  w_touched s = touch (op_resource op) (w_touched (scratch_ e)) ->
  (w_staged s).*2 = (fun x => staged (rv_res x)) <$> l ->
  txstate e0 (with_scratch s (marked e (op_resource op) i w)) l ∅.
Proof.
  intros Hr Hreg Hop Htx Hv Hh Ht Hs.
  by apply (txstate_reserve e _ d.*2 l (op_resource op) reg i); [apply Hr | ..].
Qed.

Lemma wp_mark d fp e (op : Op value) reg b j (QR : Result -> t -> Prop) (Q : () -> t -> Prop) :
  reserving d fp e -> rs0 !! op_resource op = Some reg ->
  resources_ e !! op_resource op = Some (set_touched b j reg) ->
  Q () (with_scratch (set_w_touched (touch (op_resource op) (w_touched (scratch_ e)))
                        (scratch_ e)) e) ->
  wp (if b then mret () else
      scratch (fun s => set_w_touched (w_touched s ++ [op_resource op]) s))
    QR Q e.
Proof.
  intros Hr Hreg Hn HQ. pose proof (t_touched _ _ _ _ (g_tx _ _ _ Hr) _ _ Hn) as Ht. simpl in Ht.
  unfold touch in HQ. destruct b.
  - rewrite bool_decide_eq_true_2 in HQ by by apply Ht. apply wp_ret.
    by destruct e as [? ? ? ? ? []].
  - rewrite bool_decide_eq_false_2 in HQ; [by apply wp_modify |].
    intros Hin. by apply Ht in Hin.
Qed.

(** The loop's state with one more reservation. *)
Lemma reserving_snoc d fp e i op reg w res :
  reserving d fp e -> ops !! i = Some op -> i ∉ d.*1 -> rs0 !! op_resource op = Some reg ->
  (∀ ix, ix ∈ d -> Ranks.rank_at rs0 (op_resource (rv_op ix.2)) <=
                   Ranks.rank_at rs0 (op_resource op)) ->
  let x := mk_rsv (resource reg) op res in
  let s := scratch_ e in
  let fp' := add_footprint fp (footprint res) in
  let e' := with_scratch (mk_scratch (w_reg s) (w_keys s) (w_staged s ++ [(i, staged res)])
              (<[i := removals (footprint res)]> (w_removals_by_op s))
              (w_deltas s ++ deltas_of w (i, x)) (touch (op_resource op) (w_touched s)))
              (marked e (op_resource op) i w) in
  txstate e0 e' (d ++ [(i, x)]).*2 ∅ ->
  same_held false (world_ e) w ->
  (∀ r' k, op_resource op <> name r' -> op_resource op <> key_holder r' ->
     HeldByKeyHolder r' w k true = HeldByKeyHolder r' (world_ e) k true) ->
  reserved w i x -> retiring fp' <= retire_budget (domain_ e0) ->
  reserving (d ++ [(i, x)]) fp' e'.
Proof.
  intros Hr Hop Hi Hreg Hle x s fp' e' Htx Hh Hheld Hx Hb.
  destruct (i_reg _ Hinv _ _ Hreg) as [Hname _]. rewrite <- Hname in Hheld.
  assert (registered rs0 (name (resource reg))) as Hrn by (rewrite Hname; by eexists).
  assert (∀ ix, ix ∈ d -> ∀ reg', rs0 !! op_resource (rv_op ix.2) = Some reg' ->
            later_than (name (resource reg)) reg') as Hlater.
  { intros ix Hix reg' Hr'. eapply later_by_rank; [done |]. rewrite Hname. by apply Hle. }
  assert (fp' = mk_footprint (retires fp + retires (footprint res))
            (removals fp + removals (footprint res))
            (callbacks fp + callbacks (footprint res))) as Hfp
    by (eapply add_footprint_exact; [exact Hr | apply Hx]).
  constructor.
  - exact Htx.
  - apply Forall_app. split; [| by apply Forall_singleton].
    pose proof (g_reserved _ _ _ Hr) as Hd. rewrite !Forall_forall in Hd |- *. intros ix Hix.
    eapply reserved_stable; [exact Hrn | by apply Hlater | exact Hheld | by apply Hd].
  - rewrite fmap_app, Permutation_app_comm. apply NoDup_cons. split; [done | apply Hr].
  - apply Hr.
  - apply Hr.
  - simpl. unfold s. by rewrite (g_staged _ _ _ Hr), fmap_app.
  - simpl. unfold s. rewrite (g_deltas _ _ _ Hr), fmap_app, join_app. simpl. rewrite app_nil_r.
    do 2 f_equal. apply list_fmap_ext. intros k ix Hk. symmetry.
    eapply deltas_stable; [exact Hrn | | exact Hh | exact Hheld].
    apply Hlater. by eapply list_elem_of_lookup_2.
  - intros n. simpl. rewrite elem_of_touch. unfold s. rewrite (g_touched _ _ _ Hr).
    setoid_rewrite elem_of_app. setoid_rewrite list_elem_of_singleton. split.
    + intros [(ix & Hix & Hn) | ->]; [by eauto | by exists (i, x); eauto].
    + intros (ix & [Hix | ->] & Hn); [by eauto | by right].
  - simpl. rewrite length_insert. apply Hr.
  - intros ix Hix. simpl. apply elem_of_app in Hix as [Hix | ->%list_elem_of_singleton].
    + rewrite list_lookup_insert_ne; [by apply Hr |]. intros ->. apply Hi.
      by apply list_elem_of_fmap_2.
    + apply list_lookup_insert_eq. unfold s. rewrite (g_length _ _ _ Hr). by eapply lookup_lt_Some.
  - rewrite sum_of_snoc, <- (g_retires _ _ _ Hr), Hfp. done.
  - rewrite sum_of_snoc, <- (g_removed _ _ _ Hr), Hfp. done.
  - rewrite sum_of_snoc, <- (g_callbacks _ _ _ Hr), Hfp. done.
  - lia.
Qed.

Lemma wp_reserve_op d fp e i op :
  reserving d fp e -> ops !! i = Some op -> i ∉ d.*1 ->
  (∀ ix, ix ∈ d -> Ranks.rank_at rs0 (op_resource (rv_op ix.2)) <=
                   Ranks.rank_at rs0 (op_resource op)) ->
  wp (reserve_op ops i fp) early
    (fun fp' e' => ∃ x, rv_op x = op ∧ reserving (d ++ [(i, x)]) fp' e') e.
Proof.
  intros Hr Hop Hi Hle.
  assert (registered rs0 (op_resource op)) as [reg Hreg].
  { rewrite Forall_forall in Hvalid. apply (Hvalid op). by eapply list_elem_of_lookup_2. }
  destruct (reserve_op_pre _ _ _ _ _ _ Hr Hop Hi Hreg)
    as (w' & o & Hres & Hv & Hh & Hheld & Ho). cbv zeta in Ho.
  destruct (flags_differ_lookup _ _ _ _ (t_resources _ _ _ _ (g_tx _ _ _ Hr)) Hreg)
    as (b & j & Hn).
  unfold reserve_op. wp_step. apply (wp_lift _ op); [by apply at_lookup |].
  wp_step. apply wp_get. wp_step. apply (wp_lift _ (op_resource op)).
  { unfold reg_of. rewrite (g_reg _ _ _ Hr). by rewrite (at_lookup _ _ _ (Hregs _ _ Hop)). }
  wp_step. apply (wp_lift _ (set_touched b j reg)); [by apply deref_lookup |].
  wp_step. eapply wp_mark; [exact Hr | exact Hreg | exact Hn |].
  wp_step. apply wp_modify. wp_step. apply (wp_lift _ (w', o)); [exact Hres |].
  wp_step. apply wp_modify. fold (marked e (op_resource op) i w').
  destruct o as [err | res].
  - wp_step. apply wp_get. apply wp_return. split_and!; [done | apply Hr |].
    exists d.*2, ∅.
    change (marked e (op_resource op) i w') with
      (with_scratch (set_w_touched (touch (op_resource op) (w_touched (scratch_ e))) (scratch_ e))
         (marked e (op_resource op) i w')).
    apply (txstate_marked _ _ _ _ _ reg _ _ _ Hr); try done. apply Hr.
  - destruct Ho as (Htx & Hsm & Hex & Hprev & Hfr).
    assert ((marked e (op_resource op) i w').(resources_) !! op_resource op =
            Some (set_touched true i reg)) as Hn'.
    { simpl. rewrite lookup_alter_eq, Hn. done. }
    eapply wp_note_reservation; [| exact Hn' | exact Hreg | done |].
    + apply (txstate_marked _ _ _ _ _ reg _ (d ++ [(i, mk_rsv (resource reg) op res)]).*2 _ Hr);
        try done. simpl. by rewrite !fmap_app, (t_staged _ _ _ _ (g_tx _ _ _ Hr)).
    + cbv zeta. intros Href Hb. exists (mk_rsv (resource reg) op res). split; [done |].
      assert (deltas_of w' (i, mk_rsv (resource reg) op res) = _) as Hds
        by (unfold deltas_of; simpl; rewrite Hreg; reflexivity).
      change (world_ (marked e (op_resource op) i w')) with w'. rewrite <- Hds.
      apply (reserving_snoc d fp e i op reg w' res); try done.
      * apply (txstate_marked _ _ _ _ _ reg _ _ _ Hr); try done.
        simpl. by rewrite !fmap_app, (t_staged _ _ _ _ (g_tx _ _ _ Hr)).
      * constructor; try done. by exists reg.
Qed.

Definition rank_of (i : nat) : Z :=
  match ops !! i with
  | Some op => Ranks.rank_at rs0 (op_resource op)
  | None => 0
  end.

Lemma wp_reserve_all order d fp e :
  reserving d fp e -> NoDup (d.*1 ++ order) -> Forall (fun i => is_Some (ops !! i)) order ->
  StronglySorted (fun i j => rank_of i <= rank_of j) (d.*1 ++ order) ->
  wp (reserve_all ops order fp) early
    (fun fp' e' => ∃ d', d'.*1 = d.*1 ++ order ∧ reserving d' fp' e') e.
Proof.
  revert d fp e. induction order as [| i order IH]; intros d fp e Hr Hnd Hin Hso; simpl.
  { apply wp_ret. exists d. by rewrite app_nil_r. }
  apply Forall_cons in Hin as [[op Hop] Hin]. wp_step.
  eapply wp_mono; [apply (wp_reserve_op d fp e i op Hr Hop) | done |].
  - apply NoDup_app in Hnd as (_ & Hd & _). intros Hi. apply (Hd i Hi). by left.
  - intros ix Hix. apply StronglySorted_app in Hso as (Hso & _ & _).
    specialize (Hso ix.1 i (list_elem_of_fmap_2 _ _ _ Hix) (list_elem_of_here _ _)).
    unfold rank_of in Hso. rewrite Hop in Hso.
    pose proof (g_reserved _ _ _ Hr) as Hd. rewrite Forall_forall in Hd.
    by rewrite (v_op _ _ _ (Hd _ Hix)) in Hso.
  - intros fp' e' (x & _ & Hr'). rewrite cons_middle, app_assoc in Hnd, Hso.
    eapply wp_mono; [apply (IH (d ++ [(i, x)])); [exact Hr' | by rewrite fmap_app | done | by rewrite fmap_app] | done |].
    simpl. intros fp2 e2 (d' & Hd' & Hr2). exists d'. split; [| done].
    by rewrite Hd', fmap_app, <- app_assoc.
Qed.

(** The scratch a transaction starts reserving with. *)
Record fresh_scratch (s : Scratch) : Prop := {
  fs_staged : w_staged s = [];
  fs_deltas : w_deltas s = [];
  fs_touched : w_touched s = [];
  fs_length : length (w_removals_by_op s) = length ops
}.

Lemma reserving_nil : fresh_scratch (scratch_ e0) -> reserving [] no_footprint e0.
Proof.
  intros [Hs Hd Ht Hl]. constructor; try done.
  - constructor; try done; rewrite ?Ht, ?Hs; try done.
    + apply Hinv.
    + intros n reg Hn. rewrite (i_untouched _ Hinv _ _ Hn). split; [done |].
      intros H. by apply not_elem_of_nil in H.
  - constructor.
  - intros n. rewrite Ht. split; [intros H; by apply not_elem_of_nil in H |].
    intros (ix & H & _). by apply not_elem_of_nil in H.
  - intros ix H. by apply not_elem_of_nil in H.
  - unfold retiring. simpl. lia.
Qed.

Lemma op_rank_of i : is_Some (ops !! i) -> op_rank e0 i = rank_of i.
Proof. intros [op Hop]. unfold op_rank, rank_of. by rewrite (Hregs _ _ Hop), Hop. Qed.

Lemma wp_reserve :
  fresh_scratch (scratch_ e0) ->
  wp (reserve_all ops (reserve_order e0 (length ops)) no_footprint) early
    (fun fp e => ∃ d, d.*1 ≡ₚ seq 0 (length ops) ∧ reserving d fp e) e0.
Proof.
  intros Hf. pose proof (stable_sort_perm (fun a b => bool_decide (op_rank e0 a <= op_rank e0 b))
                           (seq 0 (length ops))) as Hp.
  assert (∀ i, i ∈ reserve_order e0 (length ops) -> is_Some (ops !! i)) as Hin.
  { intros i Hi. unfold reserve_order in Hi. rewrite Hp in Hi. apply elem_of_seq in Hi.
    apply lookup_lt_is_Some. lia. }
  eapply wp_mono; [apply (wp_reserve_all _ [] _ _ (reserving_nil Hf)); simpl | done |].
  - unfold reserve_order. rewrite Hp. apply NoDup_seq.
  - apply Forall_forall. exact Hin.
  - eapply StronglySorted_impl_in; [| apply stable_sort_sorted].
    + intros i j Hi Hj Hle%bool_decide_eq_true. rewrite <- !op_rank_of; auto.
    + intros i j. rewrite !bool_decide_eq_true. lia.
    + intros i j k. rewrite !bool_decide_eq_true. lia.
  - intros fp e (d & Hd & Hr). exists d. split; [| done]. by rewrite Hd.
Qed.

End Loop.

End Reserving.

End Reserving.
