(* ===== verification/EngineDeltas.v ===== *)
(** * Reference changes

    The second half of the checking phase of [ApplyImpl]: the recorded
    reference changes are merged to one entry per key, with the sum of the
    changes, and every key that keeps a reference must exist afterwards. *)

From S2P Require Import Prelude Resource Engine EngineRanks EngineRegistry EngineInv.
From S2P Require Import EngineKeys EngineReserve.
Import Res Eng Registry Inv Keys Reserving.
Open Scope Z_scope.

Module Deltas.

Section Merge.
Context {RS : Resources} {MM : Memory}.
Implicit Types (d : Delta) (ds out : list Delta) (p : string * string).

(** The key a change is about. *)
Definition spot d : string * string := (d_target d, d_key d).

Definition change ds p : Z :=
  foldr (fun d z => (if decide (spot d = p) then d_change d else 0) + z) 0 ds.

(** Some change adds a reference. *)
Definition added ds p : Prop := ∃ d, d ∈ ds ∧ spot d = p ∧ d_added_by d <> None.

Lemma change_app ds ds' p : change (ds ++ ds') p = change ds p + change ds' p.
Proof. unfold change. induction ds as [| d ds IH]; simpl; [done |]. rewrite IH. lia. Qed.

Lemma change_perm ds ds' p : ds ≡ₚ ds' -> change ds p = change ds' p.
Proof. unfold change. induction 1; simpl; lia. Qed.

Lemma change_absent ds p : p ∉ spot <$> ds -> change ds p = 0.
Proof.
  unfold change. induction ds as [| d ds IH]; [done |]. simpl. intros [Hne Hin]%not_elem_of_cons.
  rewrite decide_False by congruence. by rewrite IH.
Qed.

Lemma change_member ds d : NoDup (spot <$> ds) -> d ∈ ds -> change ds (spot d) = d_change d.
Proof.
  unfold change. induction ds as [| d' ds IH]; simpl; intros Hnd Hin; [by apply not_elem_of_nil in Hin |].
  apply NoDup_cons in Hnd as [Hni Hnd]. apply elem_of_cons in Hin as [<- | Hin].
  - rewrite decide_True by done. fold (change ds (spot d)). rewrite change_absent by done. lia.
  - rewrite decide_False; [by rewrite IH |]. intros Heq. apply Hni. rewrite Heq.
    by apply list_elem_of_fmap_2.
Qed.

(** ** Merging *)

Lemma delta_le_key a b :
  delta_le a b = key_le (mk_keyref (d_target a) (d_key a) 0) (mk_keyref (d_target b) (d_key b) 0).
Proof.
  unfold delta_le, key_le, key_less. simpl. case_bool_decide as Ht.
  - rewrite (bool_decide_eq_true_2 (d_target b <> d_target a)) by congruence.
    rewrite <- bool_decide_not. apply bool_decide_ext. lia.
  - rewrite (bool_decide_eq_false_2 (d_target b <> d_target a)) by congruence.
    case_bool_decide as Hk; [done |]. rewrite Hk, ltb_leb.
    by destruct (String.leb_total (d_key a) (d_key a)) as [-> | ->].
Qed.

Abbreviation ascending := (StronglySorted (fun a b => delta_le a b = true)).
Abbreviation descending := (StronglySorted (fun a b => delta_le b a = true)).

Lemma delta_le_between a b c :
  delta_le a b = true -> delta_le b c = true -> spot a = spot c -> spot b = spot a.
Proof.
  rewrite !delta_le_key. intros H1 H2 Hs. exact (key_le_between _ _ _ H1 H2 Hs).
Qed.

Lemma delta_le_spot a a' b b' :
  spot a = spot a' -> spot b = spot b' -> delta_le a b = delta_le a' b'.
Proof. unfold spot. intros [= H1 H2] [= H3 H4]. rewrite !delta_le_key. congruence. Qed.

Record same_changes ds ds' : Prop := {
  sc_change : ∀ p, change ds' p = change ds p;
  sc_spots : ∀ p, p ∈ spot <$> ds' <-> p ∈ spot <$> ds;
  sc_added : ∀ p, added ds' p <-> added ds p
}.

Lemma same_changes_perm ds ds' : ds ≡ₚ ds' -> same_changes ds ds'.
Proof.
  intros Hp. constructor; intros p.
  - by apply change_perm.
  - by rewrite Hp.
  - unfold added. by setoid_rewrite Hp.
Qed.

Lemma same_changes_trans ds ds' ds'' :
  same_changes ds ds' -> same_changes ds' ds'' -> same_changes ds ds''.
Proof.
  intros [H1 H2 H3] [H4 H5 H6]. constructor; intros p.
  - by rewrite H4.
  - by rewrite H5.
  - by rewrite H6.
Qed.

(** Two changes of one key as one. *)
Lemma same_changes_merge o d l l' :
  spot o = spot d ->
  same_changes (o :: l ++ d :: l')
    (mk_delta (d_target o) (d_key o) (d_change o + d_change d)
       (min_op (d_added_by o) (d_added_by d)) :: l ++ l').
Proof.
  intros Hs. set (m := mk_delta _ _ _ _). assert (spot m = spot o) as Hm by done.
  constructor; intros p.
  - rewrite (change_perm (o :: l ++ d :: l') (o :: d :: l ++ l')) by solve_Permutation.
    simpl. rewrite Hm, <- Hs. case_decide; simpl; lia.
  - rewrite !fmap_cons, !fmap_app, fmap_cons, Hm, <- Hs, !elem_of_cons, !elem_of_app, elem_of_cons.
    tauto.
  - assert (d_added_by m <> None <-> d_added_by o <> None ∨ d_added_by d <> None) as Hadd.
    { simpl. destruct (d_added_by o), (d_added_by d); simpl; intuition congruence. }
    unfold added. split.
    + intros (x & Hx & Hp & Ha). apply elem_of_cons in Hx as [-> | Hx].
      * apply Hadd in Ha as [Ha | Ha].
        -- exists o. split_and!; [by left | congruence | done].
        -- exists d. split_and!; [| congruence | done]. right. apply elem_of_app. right. by left.
      * exists x. split_and!; [| done..]. right. apply elem_of_app in Hx as [Hx | Hx].
        -- apply elem_of_app. by left.
        -- apply elem_of_app. right. by right.
    + intros (x & Hx & Hp & Ha). apply elem_of_cons in Hx as [-> | Hx].
      { exists m. split_and!; [by left | congruence | tauto]. }
      apply elem_of_app in Hx as [Hx | Hx].
      { exists x. split_and!; [| done..]. right. apply elem_of_app. by left. }
      apply elem_of_cons in Hx as [-> | Hx].
      { exists m. split_and!; [by left | congruence | tauto]. }
      exists x. split_and!; [| done..]. right. apply elem_of_app. by right.
Qed.

Lemma merge_spec ds out :
  descending out -> ascending ds ->
  (∀ y z, y ∈ out -> z ∈ ds -> delta_le y z = true) -> NoDup (spot <$> out) ->
  NoDup (spot <$> merge_deltas ds out) ∧ same_changes (out ++ ds) (merge_deltas ds out).
Proof.
  revert out. induction ds as [| d ds IH]; intros out Hout Hds Hle Hnd; simpl.
  { rewrite app_nil_r. split; [by rewrite <- (Permutation_rev out) |].
    apply same_changes_perm, Permutation_rev. }
  apply StronglySorted_inv in Hds as [Hds Hd]. rewrite Forall_forall in Hd.
  assert (∀ out', out' ≡ₚ d :: out -> descending out' -> NoDup (spot <$> out') ->
            NoDup (spot <$> merge_deltas ds out') ∧
            same_changes (out ++ d :: ds) (merge_deltas ds out')) as Hpush.
  { intros out' Hp Hs' Hnd'. destruct (IH out' Hs' Hds) as [H1 H2]; [| done |].
    - intros y z Hy Hz. rewrite Hp in Hy. apply elem_of_cons in Hy as [-> | Hy]; [by apply Hd |].
      apply Hle; [done | by right].
    - split; [done |]. eapply same_changes_trans; [| exact H2].
      apply same_changes_perm. rewrite Hp. solve_Permutation. }
  destruct out as [| o out]; [apply (Hpush [d]); [done | repeat constructor | simpl; apply NoDup_singleton] |].
  apply StronglySorted_inv in Hout as [Hout Ho]. rewrite Forall_forall in Ho.
  destruct (bool_decide (d_target o = d_target d) && bool_decide (d_key o = d_key d)) eqn:Hb.
  - apply andb_true_iff in Hb as [Ht%bool_decide_eq_true Hk%bool_decide_eq_true].
    set (m := mk_delta _ _ _ _). assert (spot m = spot o) as Hm by done.
    destruct (IH (m :: out)) as [H1 H2]; [| done | | done |].
    + constructor; [done |]. apply Forall_forall. intros y Hy.
      rewrite (delta_le_spot y y m o) by done. by apply Ho.
    + intros y z Hy Hz. apply elem_of_cons in Hy as [-> | Hy].
      * rewrite (delta_le_spot m o z z) by done. apply Hle; [by left | by right].
      * apply Hle; by right.
    + split; [done |]. eapply same_changes_trans; [| exact H2].
      apply (same_changes_merge o d out ds). unfold spot. congruence.
  - assert (spot o <> spot d) as Hne.
    { unfold spot. intros [= Ht Hk]. by rewrite Ht, Hk, !bool_decide_eq_true_2 in Hb. }
    apply (Hpush (d :: o :: out)); [done | |].
    + constructor; [by constructor; [| apply Forall_forall] |]. apply Forall_forall.
      intros y Hy. apply Hle; [done | by left].
    + rewrite fmap_cons. apply NoDup_cons. split; [| done]. intros Hin.
      apply list_elem_of_fmap in Hin as (y & Heq & Hy).
      apply elem_of_cons in Hy as [-> | Hy]; [done |]. apply Hne.
      assert (spot o = spot y) as ->; [| done]. apply (delta_le_between y o d).
      * by apply Ho.
      * apply Hle; [by left | by left].
      * done.
Qed.

(** One entry per key, with what all its changes come to. *)
Lemma merged_spec ds : NoDup (spot <$> merged ds) ∧ same_changes ds (merged ds).
Proof.
  unfold merged. destruct (merge_spec (stable_sort delta_le ds) []) as [H1 H2].
  - constructor.
  - apply stable_sort_sorted.
    + intros a b. rewrite !delta_le_key. apply key_le_total.
    + intros a b c. rewrite !delta_le_key. apply key_le_trans.
  - intros y z Hy. by apply not_elem_of_nil in Hy.
  - constructor.
  - split; [done |]. eapply same_changes_trans; [| exact H2]. apply same_changes_perm.
    by rewrite stable_sort_perm.
Qed.

End Merge.

Section Changes.
Context {RS : Resources} {DM : Domain} {MM : Memory} {RV : ResourceView} {RL : ResourceLaws}.
Implicit Types (rs : gmap string Registration) (e : t) (w : world).

(** ** What the changes of one reservation come to *)

Lemma change_new rs w i reg refs h k :
  change (omap (delta_new rs w i reg) refs) (h, k) = Z.of_nat (count rs w true reg refs h k).
Proof.
  induction refs as [| ref refs IH]; [done |]. rewrite count_cons. simpl.
  unfold delta_new at 1. destruct (counted_on rs w true reg ref) as [[h' k'] |]; simpl.
  - unfold omap in IH. rewrite IH. unfold spot. simpl.
    destruct (decide ((h', k') = (h, k))) as [[= -> ->] | Hne].
    + rewrite decide_True by done. lia.
    + rewrite decide_False by congruence. lia.
  - exact IH.
Qed.

Lemma change_old rs w reg refs h k :
  change (omap (delta_old rs w reg) refs) (h, k) = - Z.of_nat (count rs w false reg refs h k).
Proof.
  induction refs as [| ref refs IH]; [done |]. rewrite count_cons. simpl.
  unfold delta_old at 1. destruct (counted_on rs w false reg ref) as [[h' k'] |]; simpl.
  - unfold omap in IH. rewrite IH. unfold spot. simpl.
    destruct (decide ((h', k') = (h, k))) as [[= -> ->] | Hne].
    + rewrite decide_True by done. lia.
    + rewrite decide_False by congruence. lia.
  - exact IH.
Qed.

(** The references to key [k] of [h] a reservation adds and drops. *)
Definition gains rs w (reg : Registration) (x : rsv) h k : nat :=
  if bool_decide (op_kind (rv_op x) = kUpsert)
  then count rs w true reg (references (rv_res x)) h k else 0.

Definition loses rs w (reg : Registration) (x : rsv) h k : nat :=
  if existed (rv_res x) then count rs w false reg (previous_references (rv_res x)) h k else 0.

Lemma change_deltas_of e0 w ix reg h k :
  resources_ e0 !! op_resource (rv_op ix.2) = Some reg ->
  change (deltas_of e0 w ix) (h, k) =
  Z.of_nat (gains (resources_ e0) w reg ix.2 h k) - Z.of_nat (loses (resources_ e0) w reg ix.2 h k).
Proof.
  intros Hreg. unfold deltas_of, gains, loses. rewrite Hreg, !change_app.
  assert (∀ b : bool, change (if b then [mk_delta (op_resource (rv_op ix.2)) (op_key (rv_op ix.2)) 0 None]
                       else []) (h, k) = 0) as ->.
  { intros []; simpl; [| done]. by case_decide. }
  destruct (existed _), (bool_decide (op_kind _ = kUpsert));
    rewrite ?change_new, ?change_old; simpl; lia.
Qed.

Lemma deltas_of_registered e0 w ix :
  reg_inv (resources_ e0) ->
  Forall (fun d => registered (resources_ e0) (d_target d)) (deltas_of e0 w ix).
Proof.
  intros Hi. unfold deltas_of. destruct (resources_ e0 !! _) as [reg |] eqn:Hreg; [| constructor].
  assert (∀ b ref h k, counted_on (resources_ e0) w b reg ref = Some (h, k) ->
            registered (resources_ e0) h) as Hc.
  { intros b ref h k. unfold counted_on. destruct (Resolve _ _); [| done]. simpl.
    destruct (holder_at _ _ _ _ _) as [h' |] eqn:Hh; [| done]. simpl. intros [= -> <-].
    by eapply holder_at_registered. }
  repeat apply Forall_app_2.
  - case_bool_decide; constructor; [by eexists | constructor].
  - destruct (existed _); [| constructor]. apply Forall_forall.
    intros d (ref & _ & Hd)%list_elem_of_omap. unfold delta_old in Hd.
    destruct (counted_on _ _ _ _ _) as [[h k] |] eqn:He; [| done]. injection Hd as <-. by eapply Hc.
  - case_bool_decide; [| constructor]. apply Forall_forall.
    intros d (ref & _ & Hd)%list_elem_of_omap. unfold delta_new in Hd.
    destruct (counted_on _ _ _ _ _) as [[h k] |] eqn:He; [| done]. injection Hd as <-. by eapply Hc.
Qed.

(** An erased key is among the changes, and so is every new reference. *)
Lemma erased_spot e0 w ix reg :
  resources_ e0 !! op_resource (rv_op ix.2) = Some reg -> op_kind (rv_op ix.2) = kErase ->
  (op_resource (rv_op ix.2), op_key (rv_op ix.2)) ∈ spot <$> deltas_of e0 w ix.
Proof.
  intros Hreg Hk. unfold deltas_of. rewrite Hreg, bool_decide_eq_true_2 by done. by left.
Qed.

Lemma gains_added e0 w ix reg h k :
  resources_ e0 !! op_resource (rv_op ix.2) = Some reg ->
  (0 < gains (resources_ e0) w reg ix.2 h k)%nat -> added (deltas_of e0 w ix) (h, k).
Proof.
  intros Hreg. unfold gains, deltas_of. rewrite Hreg. case_bool_decide as Hu; [| lia].
  intros Hpos. unfold count in Hpos.
  destruct (filter _ _) as [| ref l] eqn:Hf; [simpl in Hpos; lia |].
  assert (ref ∈ filter (fun ref => counted_on (resources_ e0) w true reg ref = Some (h, k))
                  (references (rv_res ix.2))) as Hin by (rewrite Hf; by left).
  apply list_elem_of_filter in Hin as [Hc Hin]. exists (mk_delta h k 1 (Some ix.1)).
  split_and!; [| done | done]. apply elem_of_app. right. apply elem_of_app. right.
  apply list_elem_of_omap. exists ref. split; [done |]. unfold delta_new. by rewrite Hc.
Qed.

(** ** The check *)

(** Key [k] of resource [h] exists once the transaction is published. *)
Definition kept (ops : list (Op value)) rs w h k : Prop :=
  (∃ i op, ops !! i = Some op ∧ op_resource op = h ∧ op_key op = k ∧ op_kind op = kUpsert) ∨
  ((∀ i op, ops !! i = Some op -> op_resource op = h -> op_key op <> k) ∧
   ∃ reg, rs !! h = Some reg ∧ is_Some (committed w (resource reg) !! k)).

Definition passes (ops : list (Op value)) rs w (d : Delta) : Prop :=
  inc rs (d_target d) (d_key d) + d_change d <= 0 ∨ kept ops rs w (d_target d) (d_key d) ∨
  (∀ i op, ops !! i = Some op -> op_resource op = d_target d -> op_key op <> d_key d) ∧
  d_added_by d = None.

(** The key vector finds every operation. *)
Definition indexes (ks : list KeyRef) (ops : list (Op value)) : Prop :=
  ∀ h k i, op_on ks h k = Some i <->
    ∃ op, ops !! i = Some op ∧ op_resource op = h ∧ op_key op = k.

Lemma wp_check_delta ops d e l P T S (QR : Result -> t -> Prop) (Q : () -> t -> Prop) :
  indexes (w_keys (scratch_ e)) ops -> tx (world_ e) l P T S ->
  registered (resources_ e) (d_target d) ->
  (∀ r, outcome r <> kApplied -> r_generation r = generation_ e -> QR r e) ->
  (passes ops (resources_ e) (world_ e) d -> Q () e) ->
  wp (check_delta ops d) QR Q e.
Proof.
  intros Hks Htx [reg Hreg] HQR HQ. unfold check_delta, passes in *. wp_step. apply wp_get.
  wp_step. apply (wp_lift _ reg); [by apply deref_lookup |].
  unfold inc, incoming_of in HQ. rewrite Hreg in HQ.
  case_bool_decide as Hpos; [apply wp_ret, HQ; by left |].
  destruct (op_on _ _ _) as [i |] eqn:Hon.
  - apply Hks in Hon as (op & Hop & Hr & Hk). wp_step. wp_step.
    apply (wp_lift _ op); [by apply at_lookup |]. apply wp_ret. case_bool_decide as Hu.
    + apply wp_ret, HQ. right. left. left. eauto 6.
    + by apply wp_return, HQR.
  - assert (∀ i op, ops !! i = Some op -> op_resource op = d_target d -> op_key op <> d_key d) as Hno.
    { intros i op Hop Hr Hk. assert (op_on (w_keys (scratch_ e)) (d_target d) (d_key d) = Some i)
        as Hsome by (apply Hks; eauto). congruence. }
    wp_step. eapply wp_lift; [by eapply Contains_law |]. case_bool_decide as Hc.
    + apply wp_ret, HQ. right. left. right. eauto.
    + destruct (d_added_by d); [by apply wp_return, HQR |]. apply wp_ret, HQ. auto.
Qed.

Lemma wp_check_deltas ops ds e l P T S (QR : Result -> t -> Prop) (Q : () -> t -> Prop) :
  indexes (w_keys (scratch_ e)) ops -> tx (world_ e) l P T S ->
  Forall (fun d => registered (resources_ e) (d_target d)) ds ->
  (∀ r, outcome r <> kApplied -> r_generation r = generation_ e -> QR r e) ->
  (Forall (passes ops (resources_ e) (world_ e)) ds -> Q () e) ->
  wp (for_each ds (check_delta ops)) QR Q e.
Proof.
  intros Hks Htx Hds HQR. induction Hds as [| d ds Hd _ IH]; intros HQ; simpl.
  { by apply wp_ret, HQ. }
  wp_step. eapply wp_check_delta; [done.. |]. intros Hp. apply IH. intros Hps.
  apply HQ. by constructor.
Qed.

End Changes.

End Deltas.
