(* ===== verification/EngineLedger.v ===== *)
(** * The ledger across a publication

    How publishing one reservation changes the number of references to a key,
    and why the counts a transaction records before publishing are the counts
    afterwards. *)

From S2P Require Import Prelude Resource Engine EngineRanks EngineRegistry EngineInv.
From S2P Require Import EngineKeys EngineReserve EngineDeltas.
Import Res Eng Registry Inv Keys Reserving Deltas.
Open Scope Z_scope.

Module Ledger.

Section Ledger.
Context {RS : Resources} {DM : Domain} {MM : Memory} {RV : ResourceView} {RL : ResourceLaws}.
Implicit Types (rs : gmap string Registration) (e : t) (w : world) (h k : string).
Implicit Types (m : gmap string (list Reference)).

(** ** Counting over a collection *)

Lemma count_app rs w b reg l l' h k :
  count rs w b reg (l ++ l') h k = (count rs w b reg l h k + count rs w b reg l' h k)%nat.
Proof. unfold count. by rewrite filter_app, length_app. Qed.

Definition refs_in m : list Reference := mjoin (map_to_list m).*2.

Lemma refs_in_delete m key :
  refs_in m ≡ₚ default [] (m !! key) ++ refs_in (delete key m).
Proof.
  unfold refs_in. destruct (m !! key) as [old |] eqn:Hk; simpl.
  - by rewrite <- (map_to_list_delete m key old) by done.
  - by rewrite delete_id.
Qed.

Lemma refs_in_insert m key refs :
  refs_in (<[key := refs]> m) ≡ₚ refs ++ refs_in (delete key m).
Proof.
  rewrite (refs_in_delete _ key), lookup_insert_eq. simpl. by rewrite delete_insert_eq.
Qed.

Lemma elem_of_refs_in m ref : ref ∈ refs_in m <-> ∃ key refs, m !! key = Some refs ∧ ref ∈ refs.
Proof.
  unfold refs_in. rewrite list_elem_of_join. split.
  - intros (refs & Href & ([key refs'] & -> & Hin)%list_elem_of_fmap).
    apply elem_of_map_to_list in Hin. eauto.
  - intros (key & refs & Hm & Href). exists refs. split; [done |].
    apply list_elem_of_fmap. exists (key, refs). by rewrite elem_of_map_to_list.
Qed.

Lemma count_effect rs w b reg op refs m h k :
  (count rs w b reg (refs_in (effect op refs m)) h k +
   count rs w b reg (default [] (m !! op_key (V := value) op)) h k =
   count rs w b reg (refs_in m) h k +
   if bool_decide (op_kind op = kUpsert) then count rs w b reg refs h k else 0)%nat.
Proof.
  rewrite (count_perm _ _ _ _ (refs_in m) _ h k (refs_in_delete m (op_key op))), count_app.
  unfold effect. destruct (op_kind op) eqn:Hk.
  - rewrite (count_perm _ _ _ _ _ _ h k (refs_in_insert m (op_key op) refs)), count_app.
    rewrite bool_decide_eq_true_2 by done. lia.
  - rewrite bool_decide_eq_false_2 by done. lia.
Qed.

(** ** One publication *)

(** What [Publish_law] says of the collections. *)
Definition published_one w w' (x : rsv) : Prop :=
  committed w' (rv_rid x) = effect (rv_op x) (references (rv_res x)) (committed w (rv_rid x)) ∧
  ∀ r, r <> rv_rid x -> committed w' r = committed w r.

Lemma sum_with_one {A} `{EqDecision A} (f g : A -> nat) (l : list A) (a : A) (p q : nat) :
  NoDup l -> a ∈ l -> (∀ b, b <> a -> f b = g b) -> (f a + p = g a + q)%nat ->
  (sum_list_with f l + p = sum_list_with g l + q)%nat.
Proof.
  intros Hnd Hin Hne Ha. induction Hnd as [| b l Hb Hnd IH]; [by apply not_elem_of_nil in Hin |].
  simpl. destruct (decide (b = a)) as [-> | Hba].
  - assert (sum_list_with f l = sum_list_with g l) as ->; [| lia].
    clear IH Hin Hnd. induction l as [| c l IH]; [done |]. simpl.
    apply not_elem_of_cons in Hb as [Hca Hb]. rewrite (Hne c), IH by done. done.
  - rewrite (Hne b) by done. apply elem_of_cons in Hin as [-> | Hin]; [done |].
    specialize (IH Hin). lia.
Qed.

Lemma ledger_published rs w w' x reg h k :
  reg_inv rs -> rs !! op_resource (rv_op x) = Some reg -> rv_rid x = resource reg ->
  same_held true w w' -> published_one w w' x ->
  (ledger rs w' true h k +
   count rs w true reg (default [] (committed w (rv_rid x) !! op_key (rv_op x))) h k =
   ledger rs w true h k + gains rs w reg x h k)%nat.
Proof.
  intros Hi Hreg Hrid Hh [Hx Hother]. unfold ledger.
  apply (sum_with_one _ _ _ (op_resource (rv_op x))).
  - apply NoDup_elements.
  - apply elem_of_elements, elem_of_dom. by eexists.
  - intros n Hne. unfold count_from. destruct (rs !! n) as [reg' |] eqn:Hn; [| done].
    rewrite (count_view _ w w') by done. unfold refs_of. rewrite Hother; [done |].
    intros Heq. apply Hne. destruct (Hi _ _ Hn) as [<- _]. destruct (Hi _ _ Hreg) as [<- _].
    congruence.
  - unfold count_from, gains, refs_of. rewrite Hreg, (count_view _ w w') by done.
    rewrite <- Hrid, Hx. apply count_effect.
Qed.

(** ** References of committed values

    A key that is referenced answers the same in and outside the
    transaction. *)

Lemma counted_on_committed w l T S rs n reg ref :
  tx w l ∅ T S -> reg_inv rs -> rs !! n = Some reg -> ref ∈ refs_of w (resource reg) ->
  counted_on rs w true reg ref = counted_on rs w false reg ref.
Proof.
  intros Htx Hi Hn Href. unfold counted_on. rewrite Resolve_spec. case_decide as Hd; [| done].
  simpl. unfold holder_at. destruct (rs !! ref_resource ref) as [treg |] eqn:Ht; [| done]. simpl.
  destruct (Hi _ _ Ht) as [Htn _].
  rewrite (held_referenced _ _ _ _ (resource treg) (ref_key ref) Htx); [done |].
  apply elem_of_refs_in in Href as (key & refs & Hc & Hin). exists (resource reg), key, refs.
  split; [done |]. rewrite Htn. by destruct ref.
Qed.

Lemma count_committed w l T S rs n reg refs h k :
  tx w l ∅ T S -> reg_inv rs -> rs !! n = Some reg ->
  (∀ ref, ref ∈ refs -> ref ∈ refs_of w (resource reg)) ->
  count rs w true reg refs h k = count rs w false reg refs h k.
Proof.
  intros Htx Hi Hn Hsub. unfold count. induction refs as [| ref refs IH]; [done |].
  rewrite !filter_cons.
  rewrite (counted_on_committed w l T S rs n reg ref Htx Hi Hn) by (apply Hsub; by left).
  assert (length (filter (fun ref => counted_on rs w true reg ref = Some (h, k)) refs) =
          length (filter (fun ref => counted_on rs w false reg ref = Some (h, k)) refs)) as IH'.
  { apply IH. intros ref' Hin. apply Hsub. by right. }
  case_decide; simpl; by rewrite IH'.
Qed.

Lemma ledger_committed w l T S rs h k :
  tx w l ∅ T S -> reg_inv rs -> ledger rs w true h k = ledger rs w false h k.
Proof.
  intros Htx Hi. unfold ledger. induction (elements (dom rs)) as [| n ns IH]; [done |]. simpl.
  rewrite IH. f_equal. unfold count_from. destruct (rs !! n) as [reg |] eqn:Hn; [| done].
  by eapply count_committed.
Qed.

(** Between transactions too. *)
Lemma ledger_settled w P T S rs h k :
  tx w [] P T S -> ledger rs w true h k = ledger rs w false h k.
Proof.
  intros Htx. assert (∀ reg ref, counted_on rs w true reg ref = counted_on rs w false reg ref) as Hc.
  { intros reg ref. unfold counted_on. destruct (Resolve _ _); [| done]. simpl. unfold holder_at.
    destruct (rs !! _); [| done]. simpl. by rewrite (held_settled _ _ _ _ _ _ Htx). }
  unfold ledger. induction (elements (dom rs)) as [| n ns IH]; [done |]. simpl. rewrite IH. f_equal.
  unfold count_from. destruct (rs !! n) as [reg |]; [| done]. unfold count. f_equal.
  apply list_filter_iff. intros ref. by rewrite Hc.
Qed.

(** A committed reference is counted. *)
Lemma ledger_pos rs w b n reg ref h k :
  rs !! n = Some reg -> ref ∈ refs_of w (resource reg) -> counted_on rs w b reg ref = Some (h, k) ->
  (0 < ledger rs w b h k)%nat.
Proof.
  intros Hn Href Hc. unfold ledger.
  assert (n ∈ elements (dom rs)) as Hin by (apply elem_of_elements, elem_of_dom; by eexists).
  assert (0 < count_from rs w b h k n)%nat as Hpos.
  { unfold count_from. rewrite Hn. unfold count.
    assert (ref ∈ filter (fun ref => counted_on rs w b reg ref = Some (h, k)) (refs_of w (resource reg)))
      as Hf by by apply list_elem_of_filter.
    destruct (filter _ _); [by apply not_elem_of_nil in Hf | simpl; lia]. }
  induction (elements (dom rs)) as [| m ns IH]; [by apply not_elem_of_nil in Hin |]. simpl.
  apply elem_of_cons in Hin as [-> | Hin]; [lia |]. specialize (IH Hin). lia.
Qed.

Lemma pos_ledger rs w b h k :
  (0 < ledger rs w b h k)%nat ->
  ∃ n reg ref, rs !! n = Some reg ∧ ref ∈ refs_of w (resource reg) ∧
    counted_on rs w b reg ref = Some (h, k).
Proof.
  unfold ledger. induction (elements (dom rs)) as [| n ns IH]; simpl; [lia |]. intros Hpos.
  destruct (decide (0 < count_from rs w b h k n)%nat) as [Hn | Hn]; [| apply IH; lia].
  unfold count_from, count in Hn. destruct (rs !! n) as [reg |] eqn:Hr; [| lia].
  destruct (filter _ _) as [| ref l] eqn:Hf; [simpl in Hn; lia |]. exists n, reg, ref.
  assert (ref ∈ filter (fun ref => counted_on rs w b reg ref = Some (h, k)) (refs_of w (resource reg)))
    as Hin by (rewrite Hf; by left).
  apply list_elem_of_filter in Hin as [Hc Hin]. done.
Qed.

End Ledger.

End Ledger.
