(* ===== verification/EnginePublish.v ===== *)
(** * Preparing and publishing

    The last phases of [ApplyImpl] before the commit: every touched resource
    prepares, then every reservation publishes. Publication cannot fail: each
    operation stays within the footprint it declared, so the retirer's checks
    pass. *)

From S2P Require Import Prelude Resource Engine EngineRanks EngineRegistry EngineInv.
From S2P Require Import EngineKeys EngineReserve EngineDeltas.
Import Res Eng Registry Inv Keys Reserving Deltas.
Open Scope Z_scope.

Module Publishing.

Section Prepare.
Context {RS : Resources} {DM : Domain} {MM : Memory} {RV : ResourceView} {RL : ResourceLaws}.
Implicit Types (rs : gmap string Registration) (e : t) (w : world).

(** ** Prepare *)

(** [e'] is [e] after some resources have prepared. *)
Record prepared e e' : Prop := {
  p_state : e' = with_world (world_ e') e;
  p_view : same_view (world_ e) (world_ e');
  p_false : same_held false (world_ e) (world_ e');
  p_true : same_held true (world_ e) (world_ e')
}.

Lemma prepared_refl e : prepared e e.
Proof. constructor; [by destruct e | done..]. Qed.

Lemma prepared_trans e e' e'' : prepared e e' -> prepared e' e'' -> prepared e e''.
Proof.
  intros [H1 H2 H3 H4] [H5 H6 H7 H8]. constructor.
  - rewrite H5 at 1. by rewrite H1.
  - by eapply same_view_trans.
  - by eapply same_held_trans.
  - by eapply same_held_trans.
Qed.

Lemma txstate_prepared e0 e e' l P P' :
  txstate e0 e l P -> prepared e e' -> P' ⊆ rids (resources_ e0) (w_touched (scratch_ e)) ->
  tx (world_ e') l P' (rids (resources_ e0) (w_touched (scratch_ e)))
    (s_fn <$> all_steps (cascades_ e0)) ->
  txstate e0 e' l P'.
Proof.
  intros [? ? ? ? ? ? ? ? ? ? ? ? ? ? ?] [Hs Hv Hf _] HP Htx. rewrite Hs.
  constructor; simpl; try done; [by eapply same_view_trans | by eapply same_held_trans].
Qed.

Lemma wp_prepare e0 e l P n rn :
  txstate e0 e l P -> rn ∈ w_touched (scratch_ e) ->
  wp (prepare n rn) (early e0)
    (fun _ e' => txstate e0 e' l (rids (resources_ e0) [rn] ∪ P) ∧ prepared e e') e.
Proof.
  intros Htx Hin. unfold prepare. wp_step. apply wp_get.
  pose proof (t_registered _ _ _ _ Htx) as Hreg. rewrite Forall_forall in Hreg.
  destruct (Hreg _ Hin) as [reg Hr].
  destruct (flags_differ_lookup _ _ _ _ (t_resources _ _ _ _ Htx) Hr) as (b & j & Hr').
  wp_step. eapply wp_lift; [by apply deref_lookup |].
  assert (resource reg ∈ rids (resources_ e0) (w_touched (scratch_ e))) as Hrid.
  { apply elem_of_rids. eauto. }
  destruct (Prepare_law _ _ _ _ _ (resource reg) (t_tx _ _ _ _ Htx) Hrid)
    as (w' & o & Hp & Hv & Hf & Ht & Ho).
  wp_step. apply (wp_lift _ (w', o)); [exact Hp |]. wp_step. apply wp_modify.
  assert (prepared e (with_world w' e)) as Hpre by by constructor.
  destruct o as [err | []].
  - wp_step. apply wp_get. apply wp_return. split_and!; [done | apply Htx |]. exists l, P.
    by apply (txstate_prepared e0 e _ l P P); [| | apply Htx |].
  - apply wp_ret. split; [| done].
    assert (rids (resources_ e0) [rn] = {[resource reg]}) as ->.
    { unfold rids. simpl. rewrite Hr. simpl. apply (right_id_L ∅ (∪)). }
    apply (txstate_prepared e0 e _ l P); [done | done | | done].
    apply union_subseteq. split; [by apply singleton_subseteq_l | apply Htx].
Qed.

(** Every touched resource has prepared. *)
Lemma wp_prepare_all e0 e l n :
  txstate e0 e l ∅ ->
  wp (for_each (w_touched (scratch_ e)) (prepare n)) (early e0)
    (fun _ e' => txstate e0 e' l (rids (resources_ e0) (w_touched (scratch_ e))) ∧
                 prepared e e') e.
Proof.
  intros Htx. eapply wp_mono.
  - apply (wp_for_each _ (early e0) (fun done todo s =>
      w_touched (scratch_ e) = done ++ todo ∧ prepared e s ∧
      txstate e0 s l (rids (resources_ e0) done))) with (done := []);
      [| split_and!; [done | apply prepared_refl | done]].
    intros done rn todo s (Heq & Hp & Hs).
    assert (scratch_ s = scratch_ e) as Hsc by (rewrite (p_state _ _ Hp); done).
    eapply wp_mono; [eapply (wp_prepare e0 s l _ n rn Hs) | done |].
    + rewrite Hsc, Heq. apply elem_of_app. right. by left.
    + intros _ s' [Hs' Hp']. split_and!.
      * by rewrite <- app_assoc.
      * by eapply prepared_trans.
      * assert (rids (resources_ e0) (done ++ [rn]) =
                rids (resources_ e0) [rn] ∪ rids (resources_ e0) done) as ->; [| done].
        unfold rids. rewrite omap_app, list_to_set_app_L. apply (comm_L (∪)).
  - done.
  - by intros _ s (_ & Hp & Hs).
Qed.

End Prepare.

Section Publish.
Context {RS : Resources} {DM : Domain} {MM : Memory} {RV : ResourceView} {RL : ResourceLaws}.
Implicit Types (rs : gmap string Registration) (e : t) (w : world).

(** ** The retirer of a publication *)

(** Calls within what is left of the capacity pass the retirer's checks. *)
Lemma do_calls_room r cs o :
  owner_ r = Some o ->
  Z.of_nat (length (retire_ r) + length (retires_of cs)) <= retires (capacity_ r) ->
  Z.of_nat (length (removals_ r) + length (steps_of cs)) <= removals (capacity_ r) ->
  Z.of_nat (length (after_ r) + length (afters_of cs)) <= callbacks (capacity_ r) ->
  do_calls r cs = Ret (mk_retirer (retire_ r ++ ((fun x => (x, o)) <$> retires_of cs))
    (after_ r ++ afters_of cs) (removals_ r ++ (mk_removal (rank_ r) o <$> steps_of cs))
    (capacity_ r) (rank_ r) (owner_ r) (enforce_ r)).
Proof.
  assert (∀ r' used cap, Z.of_nat used < cap -> CheckRoom r' used cap = Ret ()) as Hok.
  { intros r' used cap Hlt. unfold CheckRoom.
    rewrite bool_decide_eq_false_2 by lia. by rewrite andb_false_r. }
  revert r. induction cs as [| c cs IH]; intros r Ho H1 H2 H3; simpl.
  { rewrite !app_nil_r. by destruct r. }
  destruct c as [[x |] | s | f]; simpl in *.
  - rewrite Hok by lia. simpl. unfold owner. rewrite Ho. simpl. rewrite IH; simpl;
      rewrite ?length_app; simpl; try lia; [| done]. by rewrite <- app_assoc.
  - by apply IH.
  - unfold RemoveLater. rewrite Hok by lia. simpl. unfold owner. rewrite Ho. simpl. rewrite IH; simpl;
      rewrite ?length_app; simpl; try lia; [| done]. by rewrite <- app_assoc.
  - unfold AfterGracePeriodStarts. rewrite Hok by lia. simpl. rewrite IH; simpl;
      rewrite ?length_app; simpl; try lia; [| done]. by rewrite <- app_assoc.
Qed.

(** ** What workers see *)

Definition see (ws : list world) e : t :=
  foldl (fun e w => with_event (EvWorld w) (with_world w e)) e ws.

Lemma see_snoc ws w e : see (ws ++ [w]) e = with_event (EvWorld w) (with_world w (see ws e)).
Proof. unfold see. by rewrite foldl_snoc. Qed.

Lemma see_fields ws e :
  domain_ (see ws e) = domain_ e ∧ resources_ (see ws e) = resources_ e ∧
  cascades_ (see ws e) = cascades_ e ∧ deferred_objects_ (see ws e) = deferred_objects_ e ∧
  generation_ (see ws e) = generation_ e ∧ scratch_ (see ws e) = scratch_ e ∧
  ranks_dirty_ (see ws e) = ranks_dirty_ e ∧ reference_cycle_ (see ws e) = reference_cycle_ e ∧
  trace (see ws e) = trace e ++ (EvWorld <$> ws).
Proof.
  induction ws as [| w ws IH] using rev_ind; [by rewrite app_nil_r |].
  rewrite see_snoc. simpl. destruct IH as (-> & -> & -> & -> & -> & -> & -> & -> & ->).
  split_and!; [done.. |]. by rewrite fmap_app, app_assoc.
Qed.

(** The collections after a sequence of publications. *)
Definition effects (xs : list rsv) (c : rid -> gmap string (list Reference)) (r : rid)
    : gmap string (list Reference) :=
  foldl (fun m x => if decide (rv_rid x = r) then effect (rv_op x) (references (rv_res x)) m else m)
    (c r) xs.

Definition effects_readable (xs : list rsv) (c : rid -> gmap string (list Reference)) (r : rid)
    : gmap string (list Reference) :=
  foldl (fun m x => if decide (rv_rid x = r)
                    then effect_readable (DefersErase r) (rv_op x) (references (rv_res x)) m else m)
    (c r) xs.

(** One publication. *)
Record publish_step w (x : rsv) w' : Prop := {
  ps_committed : committed w' (rv_rid x) =
    effect (rv_op x) (references (rv_res x)) (committed w (rv_rid x));
  ps_readable : readable w' (rv_rid x) =
    effect_readable (DefersErase (rv_rid x)) (rv_op x) (references (rv_res x))
      (readable w (rv_rid x));
  ps_other : ∀ r, r <> rv_rid x -> committed w' r = committed w r ∧ readable w' r = readable w r;
  ps_held : same_held true w w'
}.

Inductive after_publishing w : list rsv -> world -> Prop :=
  | ap_nil : after_publishing w [] w
  | ap_snoc xs w' x w'' :
      after_publishing w xs w' -> publish_step w' x w'' -> after_publishing w (xs ++ [x]) w''.

Lemma after_publishing_inv w xs x w'' :
  after_publishing w (xs ++ [x]) w'' ->
  ∃ w', after_publishing w xs w' ∧ publish_step w' x w''.
Proof.
  intros H. inversion H as [Hnil | xs' w' x' w2 Ha Hs Heq]; [by destruct xs |].
  apply app_inj_2 in Heq as [-> [= ->]]; [| done]. eauto.
Qed.

Lemma after_publishing_nil w w' : after_publishing w [] w' -> w' = w.
Proof.
  intros H. inversion H as [| xs w1 x w2 Ha Hs Heq]; [done |]. by destruct xs.
Qed.

Lemma after_publishing_committed w xs w' r :
  after_publishing w xs w' -> committed w' r = effects xs (committed w) r.
Proof.
  induction 1 as [| xs w' x w'' _ IH [Hc _ Ho _]]; [done |]. unfold effects. rewrite foldl_snoc.
  fold (effects xs (committed w) r). rewrite <- IH. case_decide as Heq; [by subst |].
  apply Ho. congruence.
Qed.

Lemma after_publishing_readable w xs w' r :
  after_publishing w xs w' -> readable w' r = effects_readable xs (readable w) r.
Proof.
  induction 1 as [| xs w' x w'' _ IH [_ Hc Ho _]]; [done |]. unfold effects_readable.
  rewrite foldl_snoc. fold (effects_readable xs (readable w) r). rewrite <- IH.
  case_decide as Heq; [by subst |]. apply Ho. congruence.
Qed.

Lemma after_publishing_held w xs w' : after_publishing w xs w' -> same_held true w w'.
Proof.
  induction 1 as [| xs w' x w'' _ IH Hs]; [done |]. eapply same_held_trans; [exact IH | apply Hs].
Qed.

(** The operations of a transaction name different keys, so each key ends as
    its own operation leaves it. *)
Definition target (x : rsv) : rid * string := (rv_rid x, op_key (rv_op x)).

Lemma effects_other xs c r k :
  (∀ x, x ∈ xs -> target x <> (r, k)) -> effects xs c r !! k = c r !! k.
Proof.
  induction xs as [| x xs IH] using rev_ind; intros Hx; [done |].
  unfold effects. rewrite foldl_snoc. fold (effects xs c r).
  rewrite <- IH by (intros y Hy; apply Hx, elem_of_app; by left).
  case_decide as Heq; [| done].
  assert (op_key (rv_op x) <> k) as Hk.
  { intros Hk. apply (Hx x); [apply elem_of_app; right; by left |]. unfold target. congruence. }
  unfold effect. destruct (op_kind (rv_op x)); [by apply lookup_insert_ne | by apply lookup_delete_ne].
Qed.

Lemma effects_own xs c x :
  NoDup (target <$> xs) -> x ∈ xs ->
  effects xs c (rv_rid x) !! op_key (rv_op x) =
  match op_kind (rv_op x) with kUpsert => Some (references (rv_res x)) | kErase => None end.
Proof.
  induction xs as [| y xs IH] using rev_ind; intros Hnd Hx; [by apply not_elem_of_nil in Hx |].
  rewrite fmap_app in Hnd. apply NoDup_app in Hnd as (Hnd & Hdis & _).
  unfold effects. rewrite foldl_snoc. fold (effects xs c (rv_rid x)).
  apply elem_of_app in Hx as [Hx | ->%list_elem_of_singleton].
  - rewrite <- IH by done. case_decide as Heq; [| done].
    assert (op_key (rv_op y) <> op_key (rv_op x)) as Hk.
    { intros Hk. apply (Hdis (target x)); [by apply list_elem_of_fmap_2 |].
      apply list_elem_of_singleton. unfold target. congruence. }
    unfold effect. destruct (op_kind (rv_op y)); [by apply lookup_insert_ne | by apply lookup_delete_ne].
  - rewrite decide_True by done. unfold effect.
    destruct (op_kind (rv_op y)); [by rewrite lookup_insert_eq | by rewrite lookup_delete_eq].
Qed.

(** ** The publication loop *)

Section Loop.
Context (rs0 : gmap string Registration) (e1 : t) (d : list (nat * rsv)) (fp : Footprint).
Context (T : gset rid) (S0 : list step_fn).
Context (Hstaged : w_staged (scratch_ e1) = (fun ix => (ix.1, staged (rv_res ix.2))) <$> d).
Context (Hreg : Forall (fun ix => ∃ reg reg1, rs0 !! op_resource (rv_op ix.2) = Some reg ∧
           resources_ e1 !! op_resource (rv_op ix.2) = Some reg1 ∧
           w_reg (scratch_ e1) !! ix.1 = Some (Some (op_resource (rv_op ix.2))) ∧
           resource reg1 = rv_rid ix.2 ∧ rank reg1 = rank reg ∧ rv_rid ix.2 ∈ T ∧
           small_footprint (footprint (rv_res ix.2))) d).
Context (Hfp : retires fp = sum_of retires d ∧ removals fp = sum_of removals d ∧
           callbacks fp = sum_of callbacks d).

(** A removal declared by the operation [ix]. *)
Definition declared_by (ix : nat * rsv) (rm : Removal) : Prop :=
  rm_owner rm = rv_rid ix.2 ∧ rm_rank rm = Ranks.rank_at rs0 (op_resource (rv_op ix.2)) ∧
  0 < removals (footprint (rv_res ix.2)) ∧
  ∀ r k, removing (rm_step rm) = Some (r, k) -> r = rv_rid ix.2 ∧ k = op_key (rv_op ix.2).

(** The operations [dn] are published, those at the positions [rest] are not. *)
Record publishing (dn : list (nat * rsv)) (rest : list nat) (r : Retirer) e : Prop := {
  q_all : dn ++ omap (d !!.) rest ≡ₚ d;
  q_tx : tx (world_ e) (omap (d !!.) rest).*2 T T (S0 ++ (rm_step <$> removals_ r));
  q_world : after_publishing (world_ e1) dn.*2 (world_ e);
  q_state : ∃ ws, e = see ws e1 ∧ Forall (fun w => ∃ p q, dn = p ++ q ∧
              after_publishing (world_ e1) p.*2 w) ws;
  q_capacity : capacity_ r = fp;
  q_retires : Z.of_nat (length (retire_ r)) <= sum_of retires dn;
  q_removals : Z.of_nat (length (removals_ r)) <= sum_of removals dn;
  q_callbacks : Z.of_nat (length (after_ r)) <= sum_of callbacks dn;
  q_declared : Forall (fun rm => ∃ ix, ix ∈ dn ∧ declared_by ix rm) (removals_ r)
}.

Lemma sum_of_app f l l' : sum_of f (l ++ l') = sum_of f l + sum_of f l'.
Proof. unfold sum_of. induction l as [| x l IH]; simpl; [done |]. rewrite IH. lia. Qed.

Lemma sum_of_perm f l l' : l ≡ₚ l' -> sum_of f l = sum_of f l'.
Proof. unfold sum_of. induction 1; simpl; lia. Qed.

(** What is published so far and one more operation stay within the sums. *)
Lemma sum_of_room f dn ix l :
  (∀ fp', small_footprint fp' -> 0 <= f fp') -> dn ++ ix :: l ≡ₚ d ->
  sum_of f dn + f (footprint (rv_res ix.2)) <= sum_of f d.
Proof.
  intros Hf Hp. rewrite <- (sum_of_perm _ _ _ Hp), sum_of_app. simpl.
  assert (0 <= sum_of f l); [| lia].
  assert (Forall (fun ix => small_footprint (footprint (rv_res ix.2))) l) as Hl.
  { apply Forall_forall. intros y Hy. rewrite Forall_forall in Hreg.
    destruct (Hreg y) as (? & ? & _ & _ & _ & _ & _ & _ & Hs); [| done].
    rewrite <- Hp. apply elem_of_app. right. by right. }
  clear Hp. induction Hl as [| y l Hy _ IH]; [done |]. simpl. specialize (Hf _ Hy). lia.
Qed.

Lemma wp_publish_one dn r1 k r2 r e ix (QR : Result -> t -> Prop) :
  publishing dn (r1 ++ k :: r2) r e -> d !! k = Some ix ->
  wp (publish_one r k) QR (fun r' e' => publishing (dn ++ [ix]) (r1 ++ r2) r' e') e.
Proof.
  intros [Hall Htx Hw (ws & -> & Hws) Hcap H1 H2 H3 Hdec] Hk.
  rewrite omap_app in Hall, Htx. simpl in Hall, Htx. rewrite Hk in Hall, Htx.
  pose proof (see_fields ws e1) as (_ & Hres & _ & _ & _ & Hsc & _).
  assert (ix ∈ d) as Hin by by eapply list_elem_of_lookup_2.
  destruct (proj1 (Forall_forall _ _) Hreg _ Hin)
    as (reg & reg1 & Hr0 & Hr1 & Hwr & Hrid & Hrank & HT & Hsm).
  assert (dn ++ ix :: (omap (d !!.) r1 ++ omap (d !!.) r2) ≡ₚ d) as Hall'.
  { rewrite <- Hall. unfold omap. solve_Permutation. }
  rewrite fmap_app, fmap_cons in Htx.
  destruct (Publish_law _ _ ix.2 _ _ _ _ Htx HT)
    as (w' & cs & Hpub & Htx' & Hh & Hc & Hrd & Hother & (Hb1 & Hb2 & Hb3) & Hrm).
  unfold publish_one. wp_step. apply wp_get. wp_step.
  apply (wp_lift _ (ix.1, staged (rv_res ix.2))).
  { rewrite Hsc, Hstaged. apply at_lookup. by rewrite list_lookup_fmap, Hk. }
  wp_step. apply (wp_lift _ (op_resource (rv_op ix.2))).
  { unfold reg_of. rewrite Hsc. by rewrite (at_lookup _ _ _ Hwr). }
  wp_step. apply (wp_lift _ reg1); [rewrite Hres; by apply deref_lookup |].
  wp_step. apply (wp_lift _ (w', cs)); [exact Hpub |]. wp_step. apply wp_modify.
  pose proof Hfp as (Hf1 & Hf2 & Hf3).
  eapply wp_lift; [apply (do_calls_room _ _ (resource reg1)); [done | ..]; simpl; rewrite Hcap |].
  { pose proof (sum_of_room retires _ _ _ (fun _ H => proj1 (proj1 H)) Hall'). lia. }
  { pose proof (sum_of_room removals _ _ _ (fun _ H => proj1 (proj1 (proj2 H))) Hall'). lia. }
  { pose proof (sum_of_room callbacks _ _ _ (fun _ H => proj1 (proj2 (proj2 H))) Hall'). lia. }
  assert (after_publishing (world_ e1) (dn ++ [ix]).*2 w') as Hw'.
  { rewrite fmap_app. by eapply ap_snoc. }
  constructor; simpl.
  - rewrite omap_app, <- Hall'. unfold omap. solve_Permutation.
  - rewrite omap_app, !fmap_app, app_assoc, <- list_fmap_compose.
    replace (rm_step ∘ mk_removal (rank reg1) (resource reg1) <$> steps_of cs) with (steps_of cs)
      by (symmetry; apply list_fmap_id). exact Htx'.
  - exact Hw'.
  - exists (ws ++ [w']). split; [by rewrite see_snoc |]. apply Forall_app. split.
    + eapply Forall_impl; [exact Hws |]. intros w (p & q & -> & Hp). exists p, (q ++ [ix]).
      by rewrite <- app_assoc.
    + apply Forall_singleton. exists (dn ++ [ix]), []. by rewrite app_nil_r.
  - done.
  - rewrite length_app, length_fmap, sum_of_app. simpl. lia.
  - rewrite length_app, length_fmap, sum_of_app. simpl. lia.
  - rewrite length_app, sum_of_app. simpl. lia.
  - apply Forall_app. split.
    + eapply Forall_impl; [exact Hdec |]. intros rm (y & Hy & Hd). exists y.
      split; [apply elem_of_app; by left | done].
    + apply Forall_forall. intros rm (st & -> & Hst)%list_elem_of_fmap. exists ix.
      split; [apply elem_of_app; right; by left |]. split_and!; simpl; [done | | |].
      * unfold Ranks.rank_at. by rewrite Hr0.
      * destruct (steps_of cs); [by apply not_elem_of_nil in Hst | simpl in Hb2; lia].
      * intros r' k' Hst'. by apply (Hrm st).
Qed.

Lemma wp_publish_all order dn rest r e (QR : Result -> t -> Prop) :
  publishing dn rest r e -> rest ≡ₚ order -> Forall (fun k => is_Some (d !! k)) order ->
  wp (publish_all r order) QR
    (fun r' e' => ∃ ixs, Forall2 (fun k ix => d !! k = Some ix) order ixs ∧
                         publishing (dn ++ ixs) [] r' e') e.
Proof.
  revert dn rest r e. induction order as [| k order IH]; intros dn rest r e Hq Hp Ho; simpl.
  { apply wp_ret. exists []. rewrite app_nil_r. symmetry in Hp. by apply Permutation_nil in Hp as ->. }
  apply Forall_cons in Ho as [[ix Hk] Ho].
  assert (k ∈ rest) as Hin by (rewrite Hp; by left).
  apply list_elem_of_split in Hin as (r1 & r2 & ->). wp_step.
  eapply wp_mono; [by eapply wp_publish_one | done |]. intros r' e' Hq'.
  eapply wp_mono; [eapply (IH _ _ _ _ Hq') | done |]; [| done |].
  - apply (Permutation_cons_inv (a := k)). rewrite <- Hp. solve_Permutation.
  - intros r2' e2 (ixs & Hixs & Hq2). exists (ix :: ixs). split; [by constructor |].
    by rewrite <- app_assoc in Hq2.
Qed.

End Loop.

End Publish.

End Publishing.
