(* ===== verification/EngineCommit.v ===== *)
(** * Committing

    What [ApplyImpl] does once everything is published: ledger entries take
    their new counts, declared removals become the stages of a cascade, the
    transaction ends for every touched resource, and the grace period for what
    was replaced starts. *)

From S2P Require Import Prelude Resource Engine EngineRanks EngineRegistry EngineInv.
From S2P Require Import EngineKeys EngineReserve EngineDeltas EngineLedger EnginePublish.
Import Res Eng Registry Inv Keys Reserving Deltas Ledger Publishing.
Open Scope Z_scope.

Module Committing.

Section Entries.
Context {RS : Resources} {DM : Domain} {MM : Memory} {RV : ResourceView} {RL : ResourceLaws}.
Implicit Types (rs : gmap string Registration) (e : t) (w : world) (d : Delta).

(** ** Ledger entries *)

(** One entry of the ledger edited. *)
Definition edit (g : Delta -> option Z -> option Z) e d : t :=
  update (d_target d)
    (fun reg => set_incoming (partial_alter (g d) (d_key d) (incoming reg)) reg) e.

Definition entry_made d (o : option Z) : option Z :=
  if bool_decide (0 < d_change d) then Some (default 0 o) else o.

Definition entry_moved d (o : option Z) : option Z :=
  c ← o; if bool_decide (c + d_change d <= 0) then None else Some (c + d_change d).

Lemma set_incoming_id reg i : i = incoming reg -> set_incoming i reg = reg.
Proof. intros ->. by destruct reg. Qed.

Lemma new_entry_edit e d : new_entry e d = edit entry_made e d.
Proof.
  unfold new_entry, edit, entry_made. case_bool_decide as Hpos.
  - unfold update. f_equal. apply alter_ext. intros reg _.
    destruct (incoming reg !! d_key d) as [c |] eqn:Hc.
    + symmetry. apply set_incoming_id, map_eq. intros k.
      destruct (decide (d_key d = k)) as [<- |]; [| by rewrite lookup_partial_alter_ne].
      by rewrite lookup_partial_alter_eq, Hc.
    + f_equal. apply map_eq. intros k. destruct (decide (d_key d = k)) as [<- |].
      * by rewrite lookup_insert_eq, lookup_partial_alter_eq, Hc.
      * by rewrite lookup_insert_ne, lookup_partial_alter_ne.
  - unfold update. rewrite alter_id; [by destruct e |]. intros reg _.
    apply set_incoming_id, map_eq. intros k. destruct (decide (d_key d = k)) as [<- |].
    + by rewrite lookup_partial_alter_eq.
    + by rewrite lookup_partial_alter_ne.
Qed.

Lemma commit_delta_edit e d : commit_delta e d = edit entry_moved e d.
Proof.
  unfold commit_delta, edit, update. f_equal. apply alter_ext. intros reg _.
  unfold entry_moved. destruct (incoming reg !! d_key d) as [c |] eqn:Hc.
  - case_bool_decide as Hpos; f_equal; apply map_eq; intros k;
      (destruct (decide (d_key d = k)) as [<- |]; [rewrite lookup_partial_alter_eq, Hc; simpl |
         rewrite lookup_partial_alter_ne by done]).
    + by rewrite lookup_delete_eq, bool_decide_eq_true_2.
    + by rewrite lookup_delete_ne.
    + by rewrite lookup_insert_eq, bool_decide_eq_false_2 by lia.
    + by rewrite lookup_insert_ne.
  - symmetry. apply set_incoming_id, map_eq. intros k.
    destruct (decide (d_key d = k)) as [<- |]; [| by rewrite lookup_partial_alter_ne].
    by rewrite lookup_partial_alter_eq, Hc.
Qed.

Lemma new_entries_edit ds e : foldl new_entry e ds = foldl (edit entry_made) e ds.
Proof. revert e. induction ds as [| d ds IH]; intros e; [done |]. simpl. by rewrite new_entry_edit, IH. Qed.

Lemma commit_deltas_edit ds e : foldl commit_delta e ds = foldl (edit entry_moved) e ds.
Proof. revert e. induction ds as [| d ds IH]; intros e; [done |]. simpl. by rewrite commit_delta_edit, IH. Qed.

Lemma edit_one g e d :
  edit g e d = with_resources (resources_ (edit g e d)) e ∧
  counts_differ (resources_ e) (resources_ (edit g e d)) ∧
  ∀ h k, incoming_of (resources_ (edit g e d)) h !! k =
    if decide (spot d = (h, k))
    then (if decide (is_Some (resources_ e !! h)) then g d (incoming_of (resources_ e) h !! k) else None)
    else incoming_of (resources_ e) h !! k.
Proof.
  split; [done |]. split.
  - unfold counts_differ. apply map_eq. intros n. rewrite !lookup_fmap. simpl.
    destruct (decide (d_target d = n)) as [<- |]; [| by rewrite lookup_alter_ne].
    rewrite lookup_alter_eq. by destruct (resources_ e !! d_target d).
  - intros h k. unfold incoming_of. simpl. unfold spot.
    destruct (decide (d_target d = h)) as [<- | Hne].
    2: { rewrite lookup_alter_ne, decide_False by congruence. done. }
    rewrite lookup_alter_eq.
    destruct (resources_ e !! d_target d) as [reg |] eqn:Hr; simpl.
    + destruct (decide (d_key d = k)) as [<- | Hk].
      * by rewrite lookup_partial_alter_eq, decide_True.
      * by rewrite lookup_partial_alter_ne, decide_False by congruence.
    + rewrite lookup_empty. by case_decide.
Qed.

Lemma edits g ds e :
  NoDup (spot <$> ds) -> Forall (fun d => registered (resources_ e) (d_target d)) ds ->
  let e' := foldl (edit g) e ds in
  e' = with_resources (resources_ e') e ∧ counts_differ (resources_ e) (resources_ e') ∧
  (∀ d, d ∈ ds -> incoming_of (resources_ e') (d_target d) !! d_key d =
                  g d (incoming_of (resources_ e) (d_target d) !! d_key d)) ∧
  (∀ h k, (h, k) ∉ spot <$> ds ->
     incoming_of (resources_ e') h !! k = incoming_of (resources_ e) h !! k).
Proof.
  revert e. induction ds as [| d ds IH]; intros e Hnd Hreg; simpl.
  { split_and!; [by destruct e | done | | done]. intros d Hd. by apply not_elem_of_nil in Hd. }
  apply NoDup_cons in Hnd as [Hni Hnd]. apply Forall_cons in Hreg as [Hd Hreg].
  destruct (edit_one g e d) as (H1 & H2 & H3).
  pose proof (counts_differ_graph _ _ H2) as Hg.
  destruct (IH (edit g e d) Hnd) as (H4 & H5 & H6 & H7).
  { eapply Forall_impl; [exact Hreg |]. intros d'. by apply same_graph_registered. }
  split_and!.
  - rewrite H4 at 1. by rewrite H1.
  - by eapply counts_differ_trans.
  - intros d' Hd'. apply elem_of_cons in Hd' as [-> | Hd'].
    + rewrite (H7 (d_target d) (d_key d)) by done.
      rewrite H3, decide_True by done. by rewrite decide_True.
    + rewrite H6, H3 by done. rewrite decide_False; [done |].
      intros Heq. apply Hni. rewrite Heq. change (d_target d', d_key d') with (spot d').
      by apply list_elem_of_fmap_2.
  - intros h k Hhk. apply not_elem_of_cons in Hhk as [Hne Hhk]. rewrite H7, H3 by done.
    by rewrite decide_False by congruence.
Qed.

(** Made before publishing and moved after it, the entries count what the
    changes come to. *)
Lemma entries_exact ds e e1 h k (c c' : nat) :
  NoDup (spot <$> ds) -> Forall (fun d => registered (resources_ e) (d_target d)) ds ->
  resources_ e1 = resources_ (foldl new_entry e ds) ->
  incoming_of (resources_ e) h !! k = entry c -> Z.of_nat c' = Z.of_nat c + change ds (h, k) ->
  incoming_of (resources_ (foldl commit_delta e1 ds)) h !! k = entry c'.
Proof.
  intros Hnd Hreg He1 Hc Hc'.
  rewrite commit_deltas_edit. rewrite new_entries_edit in He1.
  destruct (edits entry_made ds e Hnd Hreg) as (_ & Hd & H1 & H2). rewrite <- He1 in *.
  destruct (edits entry_moved ds e1 Hnd) as (_ & _ & H3 & H4).
  { eapply Forall_impl; [exact Hreg |]. intros d'.
    by apply same_graph_registered, counts_differ_graph. }
  destruct (decide ((h, k) ∈ spot <$> ds)) as [Hin | Hout].
  - apply list_elem_of_fmap in Hin as (d & [= -> ->] & Hin).
    change (d_target d, d_key d) with (spot d) in Hc'. rewrite change_member in Hc' by done.
    rewrite H3, H1, Hc by done. unfold entry_moved, entry_made, entry.
    destruct (bool_decide (0 < d_change d)) eqn:Hpos.
    + apply bool_decide_eq_true in Hpos. case_decide; simpl;
        rewrite bool_decide_eq_false_2, decide_False by lia; f_equal; lia.
    + apply bool_decide_eq_false in Hpos. case_decide; simpl.
      * by rewrite decide_True by lia.
      * case_bool_decide; [by rewrite decide_True by lia |].
        rewrite decide_False by lia. f_equal. lia.
  - rewrite H4, H2, Hc by done. rewrite change_absent in Hc' by done. f_equal. lia.
Qed.

Lemma entries_state ds e :
  NoDup (spot <$> ds) -> Forall (fun d => registered (resources_ e) (d_target d)) ds ->
  (foldl new_entry e ds = with_resources (resources_ (foldl new_entry e ds)) e ∧
   counts_differ (resources_ e) (resources_ (foldl new_entry e ds))) ∧
  (foldl commit_delta e ds = with_resources (resources_ (foldl commit_delta e ds)) e ∧
   counts_differ (resources_ e) (resources_ (foldl commit_delta e ds))).
Proof.
  intros Hnd Hreg.
  rewrite new_entries_edit, commit_deltas_edit. split.
  - destruct (edits entry_made ds e Hnd Hreg) as (? & ? & _). done.
  - destruct (edits entry_moved ds e Hnd Hreg) as (? & ? & _). done.
Qed.

(** ** The removal cascade *)

Lemma push_step_spec (P : Z -> Step -> Prop) ks stages k s :
  Forall2 (fun k stage => Forall (P k) stage) ks stages -> k ∈ ks -> P k s ->
  ∃ stages', push_step ks stages k s = Ret stages' ∧ mjoin stages' ≡ₚ s :: mjoin stages ∧
    Forall2 (fun k stage => Forall (P k) stage) ks stages'.
Proof.
  intros Hall Hin Hs. induction Hall as [| k' stage ks stages Hst Hall IH]; simpl;
    [by apply not_elem_of_nil in Hin |].
  case_bool_decide as Hk.
  - subst. eexists. split_and!; [done | simpl; solve_Permutation |].
    constructor; [| done]. apply Forall_app. split; [done | by apply Forall_singleton].
  - apply elem_of_cons in Hin as [-> | Hin]; [done |].
    destruct (IH Hin) as (stages' & -> & Hp & Hall'). eexists. split_and!; [done | | by constructor].
    simpl. rewrite Hp. solve_Permutation.
Qed.

Definition step_of (rm : Removal) : Step := mk_step (rm_owner rm) (rm_step rm).

(** A removal of rank [k] is owned by a resource of that rank. *)
Definition at_rank rs (k : Z) (s : Step) : Prop := Ranks.rank_at rs (name (s_owner s)) = k.

Lemma pending_differ_alter rs n (f : Registration -> Z) :
  pending_differ rs (alter (fun reg => set_pending (f reg) reg) n rs).
Proof.
  unfold pending_differ. apply map_eq. intros m. rewrite !lookup_fmap.
  destruct (decide (n = m)) as [-> |].
  - rewrite lookup_alter_eq. by destruct (rs !! m).
  - by rewrite lookup_alter_ne.
Qed.

Lemma pending_differ_trans rs rs' rs'' :
  pending_differ rs rs' -> pending_differ rs' rs'' -> pending_differ rs rs''.
Proof. unfold pending_differ. congruence. Qed.

Lemma has_owner_pending rs rs' s : pending_differ rs rs' -> has_owner rs s -> has_owner rs' s.
Proof.
  intros Hd (reg & Hr & Ho). destruct (pending_differ_lookup _ _ _ _ Hd Hr) as [p Hr'].
  by eexists.
Qed.

(** Declared removals become steps of the stage of their rank, and are
    counted. *)
Lemma collect_removals_spec rms ks stages e (l : list Step) (P : Z -> Step -> Prop) :
  reg_inv (resources_ e) ->
  Forall (fun rm => has_owner (resources_ e) (step_of rm) ∧ rm_rank rm ∈ ks ∧
                    P (rm_rank rm) (step_of rm)) rms ->
  Forall2 (fun k stage => Forall (P k) stage) ks stages ->
  deferred_objects_ e = Z.of_nat (length l) ->
  map_Forall (fun _ reg => pending_removals reg = Z.of_nat (owned_by (resource reg) l)) (resources_ e) ->
  ∃ stages' e', collect_removals ks stages rms e = Ret (stages', e') ∧
    mjoin stages' ≡ₚ mjoin stages ++ (step_of <$> rms) ∧
    Forall2 (fun k stage => Forall (P k) stage) ks stages' ∧
    e' = with_deferred (Z.of_nat (length (l ++ (step_of <$> rms)))) (with_resources (resources_ e') e) ∧
    pending_differ (resources_ e) (resources_ e') ∧
    map_Forall (fun _ reg => pending_removals reg =
      Z.of_nat (owned_by (resource reg) (l ++ (step_of <$> rms)))) (resources_ e').
Proof.
  revert stages e l. induction rms as [| rm rms IH]; intros stages e l Hi Hrms Hst Hd Hp; simpl.
  { exists stages, e. rewrite !app_nil_r. split_and!; [done.. | | done | done].
    rewrite <- Hd. by destruct e. }
  apply Forall_cons in Hrms as [(Ho & Hk & HP) Hrms].
  destruct (push_step_spec P ks stages (rm_rank rm) (step_of rm) Hst Hk HP) as (st1 & Hpush & Hperm & Hst1).
  unfold step_of in Hpush. rewrite Hpush. simpl.
  change (rm_owner rm) with (s_owner (step_of rm)). rewrite (RegistrationOf_owner _ _ Ho). simpl.
  set (e1 := with_deferred _ _).
  assert (pending_differ (resources_ e) (resources_ e1)) as Hpd.
  { apply (pending_differ_alter _ _ (fun reg => pending_removals reg + 1)). }
  assert (map_Forall (fun _ reg => pending_removals reg =
            Z.of_nat (owned_by (resource reg) (l ++ [step_of rm]))) (resources_ e1)) as Hp1.
  { intros n reg1 Hn1. unfold owned_by. rewrite filter_app, length_app, filter_cons.
    fold (owned_by (resource reg1) l). destruct Ho as (reg & Hr & Hown). simpl in Hn1.
    destruct (decide (n = name (s_owner (step_of rm)))) as [-> | Hne].
    - simpl in *. rewrite lookup_alter_eq, Hr in Hn1. injection Hn1 as <-. simpl.
      rewrite (Hp _ _ Hr), Hown, decide_True by done. simpl. lia.
    - simpl in *. rewrite lookup_alter_ne in Hn1 by done. rewrite (Hp _ _ Hn1), decide_False;
        [simpl; lia |]. destruct (Hi _ _ Hn1) as [<- _]. congruence. }
  destruct (IH st1 e1 (l ++ [step_of rm])) as (st' & e' & Hc & Hj & Hst' & He' & Hpd' & Hp').
  - eapply reg_inv_graph; [by apply pending_differ_graph | done].
  - eapply Forall_impl; [exact Hrms |]. intros rm' (? & ? & ?). split_and!; [| done..].
    by eapply has_owner_pending.
  - done.
  - simpl. rewrite Hd, length_app. simpl. lia.
  - done.
  - exists st', e'. rewrite <- app_assoc in He', Hp'. split_and!; [done | | done | | | done].
    + rewrite Hj, Hperm. solve_Permutation.
    + rewrite He' at 1. done.
    + by eapply pending_differ_trans.
Qed.

(** ** The ranks that declared removals *)

Lemma elem_of_unique (k : Z) ks : k ∈ unique ks <-> k ∈ ks.
Proof.
  induction ks as [| k' ks IH]; [done |]. simpl. rewrite elem_of_cons, <- IH.
  destruct (unique ks) as [| k2 ks2]; [by rewrite elem_of_cons |].
  case_bool_decide as Heq; [subst; rewrite elem_of_cons; tauto | by rewrite elem_of_cons].
Qed.

Lemma unique_descending ks :
  StronglySorted (fun a b => b <= a) ks -> StronglySorted (fun a b => b < a) (unique ks).
Proof.
  induction 1 as [| k ks Hs IH Hk]; simpl; [constructor |].
  assert (∀ x, x ∈ unique ks -> x <= k) as Hle.
  { intros x Hx. rewrite elem_of_unique in Hx. rewrite Forall_forall in Hk. by apply Hk. }
  destruct (unique ks) as [| k2 ks2]; [by repeat constructor |].
  case_bool_decide as Heq; [done |]. constructor; [done |]. apply Forall_forall. intros x Hx.
  apply StronglySorted_inv in IH as [_ Hall]. rewrite Forall_forall in Hall.
  assert (k2 < k) by (specialize (Hle k2 (list_elem_of_here _ _)); lia).
  apply elem_of_cons in Hx as [-> | Hx]; [done |]. specialize (Hall _ Hx). lia.
Qed.

Lemma stage_ranks_descending e n fp : StronglySorted (fun a b => b < a) (stage_ranks e n fp).
Proof.
  unfold stage_ranks. case_bool_decide; [| constructor]. apply unique_descending.
  eapply StronglySorted_impl_in; [| apply stable_sort_sorted].
  - by intros x y _ _ Hxy%bool_decide_eq_true.
  - intros x y. rewrite !bool_decide_eq_true. lia.
  - intros x y z. rewrite !bool_decide_eq_true. lia.
Qed.

Lemma stage_ranks_has e n fp i k :
  removals fp <> 0 -> (i < n)%nat -> w_removals_by_op (scratch_ e) !! i = Some k -> k <> 0 ->
  op_rank e i ∈ stage_ranks e n fp.
Proof.
  intros Hfp Hi Hk Hne. unfold stage_ranks. rewrite bool_decide_eq_true_2 by done.
  apply elem_of_unique. rewrite stable_sort_perm. apply list_elem_of_fmap_2, list_elem_of_filter.
  split; [congruence |]. apply elem_of_seq. lia.
Qed.

(** ** The tail of a committed transaction *)

Lemma run_afters_spec S w afters token :
  tx w [] ∅ ∅ S ->
  let w' := foldl (fun w fn => run_after w fn token) w afters in
  tx w' [] ∅ ∅ S ∧ same_view w w' ∧ same_held false w w'.
Proof.
  revert w. induction afters as [| fn afters IH]; intros w Htx; simpl; [done |].
  destruct (run_after_law w S fn token Htx) as (Htx1 & Hv1 & Hh1).
  destruct (IH _ Htx1) as (Htx2 & Hv2 & Hh2).
  split_and!; [done | by eapply same_view_trans | by eapply same_held_trans].
Qed.

Lemma join_nonempty {A} (ls : list (list A)) : mjoin (filter (fun l => l <> []) ls) = mjoin ls.
Proof.
  induction ls as [| l ls IH]; [done |]. rewrite filter_cons. simpl.
  destruct l as [| x l]; simpl; [exact IH |]. by rewrite IH.
Qed.

(** The grace period for what was replaced, and the cascade of what was
    erased. *)
Lemma start_reclamation_spec r stages e :
  tx (world_ e) [] ∅ ∅ (s_fn <$> all_steps (cascades_ e) ++ mjoin stages) ->
  let e' := start_reclamation r stages e in
  tx (world_ e') [] ∅ ∅ (s_fn <$> all_steps (cascades_ e')) ∧
  all_steps (cascades_ e') = all_steps (cascades_ e) ++ mjoin stages ∧
  same_view (world_ e) (world_ e') ∧ same_held false (world_ e) (world_ e') ∧
  resources_ e' = resources_ e ∧ deferred_objects_ e' = deferred_objects_ e ∧
  generation_ e' = generation_ e ∧ ranks_dirty_ e' = ranks_dirty_ e ∧
  reference_cycle_ e' = reference_cycle_ e ∧
  ∃ evs, trace e' = trace e ++ evs ∧ Forall (fun ev => ∃ token, ev = EvStart token) evs.
Proof.
  intros Htx e'. unfold e', start_reclamation. rewrite <- (join_nonempty stages) in *.
  set (st := filter (fun stage => stage <> []) stages) in *.
  assert (∀ token, all_steps (cascades_ e ++ [mk_cascade token st 0 0]) =
                   all_steps (cascades_ e) ++ mjoin st) as Hall.
  { intros token. unfold all_steps. rewrite fmap_app, join_app. f_equal. simpl.
    unfold steps_left. simpl. rewrite app_nil_r. by destruct st. }
  destruct (negb (empty r) || bool_decide (st <> [])) eqn:Hb.
  2: { apply orb_false_iff in Hb as [_ Hst%bool_decide_eq_false].
       assert (st = []) as Hnil by by destruct st; [| destruct Hst].
       rewrite Hnil in *. simpl in *. rewrite app_nil_r in *. split_and!; try done.
       exists []. by rewrite app_nil_r. }
  destruct (StartGracePeriod (domain_ e)) as [token d].
  set (e1 := if bool_decide (st <> []) then _ else _).
  assert (world_ e1 = world_ e ∧ all_steps (cascades_ e1) = all_steps (cascades_ e) ++ mjoin st ∧
          resources_ e1 = resources_ e ∧ deferred_objects_ e1 = deferred_objects_ e ∧
          generation_ e1 = generation_ e ∧ ranks_dirty_ e1 = ranks_dirty_ e ∧
          reference_cycle_ e1 = reference_cycle_ e ∧ trace e1 = trace e ++ [EvStart token])
    as (Hw & Hs & Hr & Hd & Hg & Hrd & Hc & Ht).
  { unfold e1. case_bool_decide as Hst; simpl; [by rewrite Hall |].
    rewrite Hst. simpl. by rewrite app_nil_r. }
  rewrite <- Hw in Htx.
  destruct (run_afters_spec _ _ (after_ r) token Htx) as (Htx' & Hv & Hh).
  unfold Finish. simpl. rewrite Hs, <- Hw. split_and!; try done.
  exists [EvStart token]. split; [done |]. apply Forall_singleton. eauto.
Qed.

End Entries.

End Committing.
