(* ===== verification/EngineApply.v ===== *)
(** * Transactions

    [ApplyImpl] as a whole. Whatever a transaction asks for, the engine
    answers: it either returns early, with everything undone, or publishes
    every operation and ends in its invariant again ([apply_spec]). *)

From S2P Require Import Prelude Resource Engine EngineRanks EngineRegistry EngineInv.
From S2P Require Import EngineKeys EngineReserve EngineDeltas EngineLedger EnginePublish.
From S2P Require Import EngineCommit.
Import Res Eng Registry Inv Keys Reserving Deltas Ledger Publishing Committing.
Open Scope Z_scope.

Module Applying.

Section Applying.
Context {RS : Resources} {DM : Domain} {MM : Memory} {RV : ResourceView} {RL : ResourceLaws}.
Implicit Types (rs : gmap string Registration) (e : t) (w : world).

(** ** The order of publication *)

(** Upserts before erases; upserts by ascending rank, erases by descending. *)
Definition pub_key rs (ix : nat * rsv) : Z * Z :=
  let k := Ranks.rank_at rs (op_resource (rv_op ix.2)) in
  match op_kind (rv_op ix.2) with
  | kUpsert => (0, k)
  | kErase => (1, - k)
  end.

Definition no_later (a b : Z * Z) : Prop := a.1 < b.1 ∨ (a.1 = b.1 ∧ a.2 <= b.2).

#[local] Instance no_later_dec a b : Decision (no_later a b).
Proof. unfold no_later. apply _. Defined.

Lemma StronglySorted_Forall2 {A B} (R : relation A) (R' : relation B) (P : A -> B -> Prop) l l' :
  (∀ a b x y, P a x -> P b y -> R a b -> R' x y) ->
  StronglySorted R l -> Forall2 P l l' -> StronglySorted R' l'.
Proof.
  intros HR Hs. revert l'. induction Hs as [| a l _ IH Ha]; intros l' Hf.
  { apply Forall2_nil_inv_l in Hf as ->. constructor. }
  apply Forall2_cons_inv_l in Hf as (x & l2 & Hax & Hf & ->). constructor; [by apply IH |].
  apply Forall_forall. intros y Hy. apply list_elem_of_lookup in Hy as [i Hi].
  destruct (Forall2_lookup_r _ _ _ _ _ Hf Hi) as (b & Hb & Hby).
  rewrite Forall_forall in Ha. apply (HR a b); [done.. |]. apply Ha. by eapply list_elem_of_lookup_2.
Qed.

Section Order.
Context (e0 e : t) (ops : list (Op value)) (d : list (nat * rsv)).
Context (Hstaged : w_staged (scratch_ e) = (fun ix => (ix.1, staged (rv_res ix.2))) <$> d).
Context (Hops : Forall (fun ix => ops !! ix.1 = Some (rv_op ix.2)) d).
Context (Hranks : ∀ i op, ops !! i = Some op ->
           op_rank e i = Ranks.rank_at (resources_ e0) (op_resource op)).

Lemma publish_le_key a b x y :
  d !! a = Some x -> d !! b = Some y ->
  publish_le ops e a b = bool_decide (no_later (pub_key (resources_ e0) x) (pub_key (resources_ e0) y)).
Proof.
  intros Ha Hb. unfold publish_le. rewrite Hstaged, !list_lookup_fmap, Ha, Hb. simpl.
  rewrite Forall_forall in Hops.
  assert (ops !! x.1 = Some (rv_op x.2)) as Hx by (apply Hops; by eapply list_elem_of_lookup_2).
  assert (ops !! y.1 = Some (rv_op y.2)) as Hy by (apply Hops; by eapply list_elem_of_lookup_2).
  rewrite Hx, Hy, (Hranks _ _ Hx), (Hranks _ _ Hy). unfold pub_key, no_later.
  destruct (op_kind (rv_op x.2)), (op_kind (rv_op y.2)); simpl.
  - apply bool_decide_ext. lia.
  - done.
  - done.
  - apply bool_decide_ext. lia.
Qed.

Lemma publish_order_perm : publish_order ops e ≡ₚ seq 0 (length d).
Proof.
  unfold publish_order. rewrite stable_sort_perm, Hstaged. by rewrite length_fmap.
Qed.

Lemma publish_order_sorted ixs :
  Forall2 (fun k ix => d !! k = Some ix) (publish_order ops e) ixs ->
  StronglySorted (fun x y => no_later (pub_key (resources_ e0) x) (pub_key (resources_ e0) y)) ixs.
Proof.
  set (kk := fun k => from_option (pub_key (resources_ e0)) (2, 0) (d !! k)).
  assert (publish_order ops e = stable_sort (fun a b => bool_decide (no_later (kk a) (kk b)))
            (seq 0 (length d))) as ->.
  { unfold publish_order. rewrite Hstaged, length_fmap. apply stable_sort_ext. intros a b Ha Hb.
    apply elem_of_seq in Ha, Hb.
    destruct (lookup_lt_is_Some_2 d a) as [x Hx]; [lia |].
    destruct (lookup_lt_is_Some_2 d b) as [y Hy]; [lia |].
    rewrite (publish_le_key _ _ _ _ Hx Hy). unfold kk. by rewrite Hx, Hy. }
  eapply StronglySorted_Forall2; [| apply stable_sort_sorted].
  - simpl. intros a b x y Hx Hy Hle%bool_decide_eq_true. unfold kk in Hle.
    by rewrite Hx, Hy in Hle.
  - intros x y. rewrite !bool_decide_eq_true. unfold no_later. lia.
  - intros x y z. rewrite !bool_decide_eq_true. unfold no_later. lia.
Qed.

End Order.

(** ** From the first reservation to the end of publication *)

Section Transaction.
Context (e0 : t) (ops : list (Op value)).

(** The state once the structure of the operations has been checked. *)
Record ready : Prop := {
  y_inv : inv e0;
  y_ranks : ∀ n, Ranks.settled (resources_ e0) n;
  y_valid : Forall (valid_op (resources_ e0)) ops;
  y_distinct : ∀ i j op op', ops !! i = Some op -> ops !! j = Some op' ->
                 op_resource op = op_resource op' -> op_key op = op_key op' -> i = j;
  y_regs : ∀ i op, ops !! i = Some op -> w_reg (scratch_ e0) !! i = Some (Some (op_resource op));
  y_index : indexes (w_keys (scratch_ e0)) ops;
  y_fresh : fresh_scratch ops (scratch_ e0);
  y_budget : retire_budget (domain_ e0) < 2 ^ 31;
  y_few : Z.of_nat (length ops) < 2 ^ 24
}.

Context (Hready : ready).

Local Abbreviation rs0 := (resources_ e0).
Local Abbreviation w0 := (world_ e0).

Lemma flags_inc rs' h k : flags_differ rs0 rs' -> inc rs' h k = inc rs0 h k.
Proof.
  intros Hd. unfold inc, incoming_of. pose proof (f_equal (.!! h) Hd) as He.
  rewrite !lookup_fmap in He. destruct (rs0 !! h), (rs' !! h); [| done..].
  simpl in He. injection He as ???????. congruence.
Qed.

Lemma passes_flags e l P d :
  txstate e0 e l P -> passes ops (resources_ e) (world_ e) d -> passes ops rs0 w0 d.
Proof.
  intros Htx. unfold passes, kept. rewrite (flags_inc _ _ _ (t_resources _ _ _ _ Htx)).
  intros [H | [[H | [H (reg & Hr & Hc)]] | H]]; [by left | right; left; by left | | by right; right].
  right. left. right. split; [done |].
  destruct (flags_differ_lookup _ _ _ _ (flags_differ_sym _ _ (t_resources _ _ _ _ Htx)) Hr)
    as (b & j & Hr'). exists (set_touched b j reg). split; [done |]. simpl.
  destruct (t_view _ _ _ _ Htx) as [Hv _]. by rewrite Hv in Hc.
Qed.

Lemma rids_reserved d fp e ix :
  reserving e0 ops d fp e -> ix ∈ d -> rv_rid ix.2 ∈ rids rs0 (w_touched (scratch_ e)).
Proof.
  intros Hr Hix. pose proof (g_reserved _ _ _ _ _ Hr) as Hd. rewrite Forall_forall in Hd.
  destruct (v_reg _ _ _ _ _ (Hd _ Hix)) as (reg & Hreg & Hrid & _).
  apply elem_of_rids. exists (op_resource (rv_op ix.2)), reg. split_and!; [| done | done].
  apply (g_touched _ _ _ _ _ Hr). eauto.
Qed.

(** The reference changes of the transaction, one entry per key. *)
Definition all_deltas e : list Delta := merged (w_deltas (scratch_ e)).

Lemma deltas_registered d fp e :
  reserving e0 ops d fp e -> Forall (fun x => registered rs0 (d_target x)) (all_deltas e).
Proof.
  intros Hr. apply Forall_forall. intros x Hx. unfold all_deltas in Hx.
  destruct (merged_spec (w_deltas (scratch_ e))) as [_ Hsame].
  assert (spot x ∈ spot <$> w_deltas (scratch_ e)) as Hin
    by (apply (sc_spots _ _ Hsame), list_elem_of_fmap_2, Hx).
  apply list_elem_of_fmap in Hin as (y & Heq & Hy). injection Heq as -> _.
  rewrite (g_deltas _ _ _ _ _ Hr) in Hy. apply list_elem_of_join in Hy as (l & Hy & Hl).
  apply list_elem_of_fmap in Hl as (ix & -> & _).
  pose proof (deltas_of_registered e0 (world_ e) ix (i_reg _ (y_inv Hready))) as Hall.
  rewrite Forall_forall in Hall. by apply Hall.
Qed.

(** The state at the end of publication: [d] were reserved in [er], the merged
    deltas [ds] passed, [ep] is the state with everything prepared, [e1] the
    state publication started in, and [dn] is the order of publication. *)
Record completed (fp : Footprint) (ks : list Z) (r : Retirer) (e : t)
    (d : list (nat * rsv)) (er ep e1 : t) (dn : list (nat * rsv)) : Prop := {
  c_reserving : reserving e0 ops d fp er;
  c_every : d.*1 ≡ₚ seq 0 (length ops);
  c_passes : Forall (passes ops rs0 w0) (all_deltas er);
  c_prepared : prepared (with_scratch (set_deltas (all_deltas er) (scratch_ er)) er) ep;
  c_start : e1 = foldl new_entry
    (with_domain (ReserveRetirements (domain_ ep) (retires fp)) ep) (all_deltas er);
  c_publishing : publishing rs0 e1 d fp (rids rs0 (w_touched (scratch_ er)))
                   (s_fn <$> all_steps (cascades_ e0)) dn [] r e;
  c_sorted : StronglySorted (fun x y => no_later (pub_key rs0 x) (pub_key rs0 y)) dn;
  c_stages : ks = stage_ranks ep (length ops) fp
}.

Definition done_publishing (out : Footprint * list Z * Retirer) (e : t) : Prop :=
  let '(fp, ks, r) := out in ∃ d er ep e1 dn, completed fp ks r e d er ep e1 dn.

Lemma omap_lookup_seq {A} (l : list A) : omap (l !!.) (seq 0 (length l)) = l.
Proof.
  induction l as [| x l IH] using rev_ind; [done |].
  rewrite length_app, seq_app, omap_app. simpl. f_equal.
  - transitivity (omap (l !!.) (seq 0 (length l))); [| exact IH].
    apply omap_ext_in. intros i Hi%elem_of_seq. rewrite lookup_app_l; [done | lia].
  - by rewrite lookup_app_r, Nat.sub_diag.
Qed.

Lemma op_rank_at e i op :
  w_reg (scratch_ e) = w_reg (scratch_ e0) -> flags_differ rs0 (resources_ e) ->
  ops !! i = Some op -> op_rank e i = Ranks.rank_at rs0 (op_resource op).
Proof.
  intros Hw Hd Hop. unfold op_rank. rewrite Hw, (y_regs Hready _ _ Hop).
  by apply flags_differ_rank.
Qed.

(** The state publication starts in. *)
Lemma start_fields d fp er ep e1 :
  reserving e0 ops d fp er ->
  prepared (with_scratch (set_deltas (all_deltas er) (scratch_ er)) er) ep ->
  e1 = foldl new_entry (with_domain (ReserveRetirements (domain_ ep) (retires fp)) ep) (all_deltas er) ->
  e1 = with_resources (resources_ e1)
         (with_domain (ReserveRetirements (domain_ ep) (retires fp)) ep) ∧
  counts_differ (resources_ ep) (resources_ e1) ∧ resources_ ep = resources_ er ∧
  scratch_ ep = set_deltas (all_deltas er) (scratch_ er).
Proof.
  intros Hr Hp ->.
  assert (resources_ ep = resources_ er ∧ scratch_ ep = set_deltas (all_deltas er) (scratch_ er))
    as [Hres Hsc] by (rewrite (p_state _ _ Hp); done).
  destruct (entries_state (all_deltas er)
              (with_domain (ReserveRetirements (domain_ ep) (retires fp)) ep)) as [[H1 H2] _].
  - apply merged_spec.
  - eapply Forall_impl; [by eapply deltas_registered |]. intros x Hx. simpl. rewrite Hres.
    eapply same_graph_registered; [| exact Hx].
    apply same_graph_sym, flags_differ_graph, (t_resources _ _ _ _ (g_tx _ _ _ _ _ Hr)).
  - done.
Qed.

Lemma publication_registered d fp er ep e1 :
  reserving e0 ops d fp er ->
  prepared (with_scratch (set_deltas (all_deltas er) (scratch_ er)) er) ep ->
  e1 = foldl new_entry (with_domain (ReserveRetirements (domain_ ep) (retires fp)) ep) (all_deltas er) ->
  Forall (fun ix => ∃ reg reg1, rs0 !! op_resource (rv_op ix.2) = Some reg ∧
    resources_ e1 !! op_resource (rv_op ix.2) = Some reg1 ∧
    w_reg (scratch_ e1) !! ix.1 = Some (Some (op_resource (rv_op ix.2))) ∧
    resource reg1 = rv_rid ix.2 ∧ rank reg1 = rank reg ∧
    rv_rid ix.2 ∈ rids rs0 (w_touched (scratch_ er)) ∧
    small_footprint (footprint (rv_res ix.2))) d.
Proof.
  intros Hr Hp He1. destruct (start_fields _ _ _ _ _ Hr Hp He1) as (Hst & Hcd & Hres & Hsc).
  apply Forall_forall. intros ix Hix. pose proof (g_reserved _ _ _ _ _ Hr) as Hd.
  rewrite Forall_forall in Hd. destruct (Hd _ Hix) as [Hop (reg & Hreg & Hrid & _) Hsm _ _ _].
  destruct (flags_differ_lookup _ _ _ _ (t_resources _ _ _ _ (g_tx _ _ _ _ _ Hr)) Hreg)
    as (b & j & Hreg'). rewrite <- Hres in Hreg'.
  pose proof (counts_differ_lookup _ _ _ _ Hcd Hreg') as Hreg1.
  eexists reg, _. split_and!; [done | exact Hreg1 | | done | done | by eapply rids_reserved | done].
  rewrite Hst. simpl. rewrite Hsc. simpl. rewrite (g_reg _ _ _ _ _ Hr). by apply (y_regs Hready).
Qed.

Lemma publishing_start d fp er ep e1 :
  reserving e0 ops d fp er ->
  prepared (with_scratch (set_deltas (all_deltas er) (scratch_ er)) er) ep ->
  e1 = foldl new_entry (with_domain (ReserveRetirements (domain_ ep) (retires fp)) ep) (all_deltas er) ->
  txstate e0 ep d.*2 (rids rs0 (w_touched (scratch_ er))) ->
  publishing rs0 e1 d fp (rids rs0 (w_touched (scratch_ er))) (s_fn <$> all_steps (cascades_ e0))
    [] (seq 0 (length d)) (mk_retirer [] [] [] fp 0 None true) e1.
Proof.
  intros Hr Hp He1 Htx. destruct (start_fields _ _ _ _ _ Hr Hp He1) as (Hst & Hcd & Hres & Hsc).
  constructor; simpl; try done.
  - by rewrite omap_lookup_seq.
  - rewrite app_nil_r, omap_lookup_seq. rewrite Hst. simpl. pose proof (t_tx _ _ _ _ Htx) as H.
    by rewrite Hsc in H.
  - constructor.
  - by exists [].
Qed.

Lemma wp_reserve_and_publish :
  wp (reserve_and_publish ops) (early e0) done_publishing e0.
Proof.
  pose proof Hready as [Hinv Hranks Hvalid Hdist Hregs Hindex Hfresh Hbudget Hfew].
  unfold reserve_and_publish. wp_step. apply wp_get. wp_step.
  eapply wp_mono; [by apply wp_reserve | done |]. intros fp er (d & Hperm & Hr).
  pose proof (g_tx _ _ _ _ _ Hr) as Htx. wp_step. apply wp_get. wp_step.
  destruct (bool_decide (retire_budget _ < _) || _).
  { apply wp_return. split_and!; [done | apply Htx |]. by exists d.*2, ∅. }
  apply wp_ret. wp_step. apply wp_modify. wp_step. apply wp_get.
  change (merged (w_deltas (scratch_ er))) with (all_deltas er).
  set (em := with_scratch _ er).
  assert (txstate e0 em d.*2 ∅) as Htm by by apply txstate_scratch.
  wp_step. eapply wp_check_deltas; [| apply Htm | | |].
  { simpl. by rewrite (g_keys _ _ _ _ _ Hr). }
  { simpl. eapply Forall_impl; [by eapply deltas_registered |]. intros x.
    apply same_graph_registered, same_graph_sym, flags_differ_graph, (t_resources _ _ _ _ Htx). }
  { intros res Ho Hg. split_and!; [done | by rewrite Hg; apply Htm | by exists d.*2, ∅]. }
  intros Hpass. wp_step. eapply wp_mono; [by apply (wp_prepare_all e0 em d.*2) | done |].
  intros _ ep [Htp Hp]. change (w_touched (scratch_ em)) with (w_touched (scratch_ er)) in Htp.
  assert (scratch_ ep = scratch_ em) as Hsc by (rewrite (p_state _ _ Hp); done).
  wp_step. apply wp_get. wp_step. apply wp_modify. wp_step. apply wp_modify.
  simpl. rewrite Hsc. change (w_deltas (scratch_ em)) with (all_deltas er).
  set (e1 := foldl new_entry _ _).
  assert (w_staged (scratch_ ep) = (fun ix => (ix.1, staged (rv_res ix.2))) <$> d) as Hstaged
    by (rewrite Hsc; apply (g_staged _ _ _ _ _ Hr)).
  wp_step. eapply wp_mono; [eapply (wp_publish_all rs0 e1 d fp); [| | | | |] | done |].
  - destruct (start_fields _ _ _ _ _ Hr Hp eq_refl) as (Hst & _ & _ & _).
    fold e1 in Hst. rewrite Hst. exact Hstaged.
  - by eapply publication_registered.
  - split_and!; apply Hr.
  - by eapply publishing_start.
  - symmetry. by apply publish_order_perm.
  - apply Forall_forall. intros k Hk. rewrite (publish_order_perm _ _ _ Hstaged) in Hk.
    apply elem_of_seq in Hk. apply lookup_lt_is_Some. lia.
  - intros r e (dn & Hdn & Hq). apply wp_ret. exists d, er, ep, e1, dn. constructor; try done.
    + eapply Forall_impl; [exact Hpass |]. intros x. by apply (passes_flags em d.*2 ∅).
    + eapply publish_order_sorted; [exact Hstaged | | | exact Hdn].
      * eapply Forall_impl; [apply (g_reserved _ _ _ _ _ Hr) |]. intros ix Hix. apply Hix.
      * intros i op Hop. apply op_rank_at; [| | done].
        -- rewrite Hsc. apply (g_reg _ _ _ _ _ Hr).
        -- apply (t_resources _ _ _ _ Htp).
Qed.

End Transaction.

End Applying.

End Applying.
