(* ===== verification/EngineSound.v ===== *)
(** * What a publication leaves

    Facts about a transaction that published everything: the new reference
    counts, the keys that exist, and that no state workers can see between the
    first and the last publication has a dangling reference. *)

From S2P Require Import Prelude Resource Engine EngineRanks EngineRegistry EngineInv.
From S2P Require Import EngineKeys EngineReserve EngineDeltas EngineLedger EnginePublish.
From S2P Require Import EngineCommit EngineApply.
Import Res Eng Registry Inv Keys Reserving Deltas Ledger Publishing Committing Applying.
Open Scope Z_scope.

Module Sound.

Section Sound.
Context {RS : Resources} {DM : Domain} {MM : Memory} {RV : ResourceView} {RL : ResourceLaws}.
Implicit Types (rs : gmap string Registration) (w : world) (h k : string).

(** Every key a committed value references exists. *)
Definition sound rs w b : Prop :=
  ∀ h k, (0 < ledger rs w b h k)%nat ->
    ∃ reg, rs !! h = Some reg ∧ is_Some (committed w (resource reg) !! k).

Context (e0 : t) (ops : list (Op value)) (Hready : ready e0 ops).
Context (fp : Footprint) (ks : list Z) (r : Retirer) (e : t).
Context (d : list (nat * rsv)) (er ep e1 : t) (dn : list (nat * rsv)).
Context (Hc : completed e0 ops fp ks r e d er ep e1 dn).

Local Abbreviation rs0 := (resources_ e0).
Local Abbreviation w0 := (world_ e0).
Local Abbreviation wr := (world_ er).
Local Abbreviation w1 := (world_ e1).

(** ** The worlds of the transaction *)

Lemma dn_perm : dn ≡ₚ d.
Proof. pose proof (q_all _ _ _ _ _ _ _ _ _ _ (c_publishing _ _ _ _ _ _ _ _ _ _ _ Hc)) as H. by rewrite app_nil_r in H. Qed.

Lemma dn_reserved ix : ix ∈ dn -> reserved e0 ops wr ix.1 ix.2.
Proof.
  intros Hix. rewrite dn_perm in Hix. pose proof (g_reserved _ _ _ _ _ (c_reserving _ _ _ _ _ _ _ _ _ _ _ Hc)) as Hd.
  rewrite Forall_forall in Hd. by apply Hd.
Qed.

Lemma dn_op i op : ops !! i = Some op -> ∃ x, (i, x) ∈ dn ∧ rv_op x = op.
Proof.
  intros Hop. assert (i ∈ d.*1) as Hi.
  { rewrite (c_every _ _ _ _ _ _ _ _ _ _ _ Hc). apply elem_of_seq. apply lookup_lt_Some in Hop. lia. }
  apply list_elem_of_fmap in Hi as ([j x] & -> & Hx). rewrite <- dn_perm in Hx.
  exists x. split; [done |]. pose proof (v_op _ _ _ _ _ (dn_reserved _ Hx)) as Hv. simpl in Hop, Hv. congruence.
Qed.

Lemma dn_nodup : NoDup dn.*1.
Proof. rewrite dn_perm. apply (c_reserving _ _ _ _ _ _ _ _ _ _ _ Hc). Qed.

(** The operations of the transaction name different keys. *)
Lemma dn_same x y : x ∈ dn -> y ∈ dn -> target x.2 = target y.2 -> x = y.
Proof.
  intros Hx Hy [= Hrid Hkey].
  destruct (dn_reserved _ Hx) as [Hox (regx & Hrx & Hridx & _) _ _ _ _].
  destruct (dn_reserved _ Hy) as [Hoy (regy & Hry & Hridy & _) _ _ _ _].
  assert (op_resource (rv_op x.2) = op_resource (rv_op y.2)) as Hres.
  { destruct (i_reg _ (y_inv _ _ Hready) _ _ Hrx) as [<- _].
    destruct (i_reg _ (y_inv _ _ Hready) _ _ Hry) as [<- _]. congruence. }
  pose proof (y_distinct _ _ Hready _ _ _ _ Hox Hoy Hres Hkey) as Hi.
  apply list_elem_of_lookup in Hx as [i Hx], Hy as [j Hy].
  assert (i = j) as ->; [| congruence].
  apply (NoDup_lookup dn.*1 i j x.1); [apply dn_nodup | by rewrite list_lookup_fmap, Hx |].
  by rewrite list_lookup_fmap, Hy, Hi.
Qed.

Lemma dn_targets : NoDup (target <$> dn.*2).
Proof.
  rewrite <- list_fmap_compose. apply NoDup_fmap_2_strong; [intros x y; apply dn_same |].
  eapply NoDup_fmap_1, dn_nodup.
Qed.

Lemma start_world : world_ e1 = world_ ep.
Proof.
  destruct (start_fields _ _ Hready _ _ _ _ _ (c_reserving _ _ _ _ _ _ _ _ _ _ _ Hc)
              (c_prepared _ _ _ _ _ _ _ _ _ _ _ Hc) (c_start _ _ _ _ _ _ _ _ _ _ _ Hc)) as (-> & _). done.
Qed.

(** Preparing changed no answer. *)
Lemma start_view : same_view wr w1 ∧ same_held true wr w1.
Proof.
  rewrite start_world. destruct (c_prepared _ _ _ _ _ _ _ _ _ _ _ Hc) as [_ Hv _ Ht]. done.
Qed.

Lemma reserve_view : same_view w0 wr ∧ same_held false w0 wr.
Proof. pose proof (g_tx _ _ _ _ _ (c_reserving _ _ _ _ _ _ _ _ _ _ _ Hc)) as [? ? ? ? ? ? ? ? ? ? ? ? ? ? ?]. done. Qed.

Lemma start_committed rr : committed w1 rr = committed w0 rr.
Proof. destruct start_view as [[H1 _] _], reserve_view as [[H2 _] _]. congruence. Qed.

(** A registered name's reference is counted on the same key all through the
    publication. *)
Lemma counted_during xs w reg ref :
  after_publishing w1 xs w -> counted_on rs0 w true reg ref = counted_on rs0 wr true reg ref.
Proof.
  intros Hw. rewrite (counted_on_view _ w1) by by eapply after_publishing_held.
  apply counted_on_view, start_view.
Qed.

(** ** The reference counts *)

Lemma count_during xs w reg refs h k :
  after_publishing w1 xs w -> count rs0 w true reg refs h k = count rs0 wr true reg refs h k.
Proof.
  intros Hw. unfold count. f_equal. apply list_filter_iff. intros ref.
  by rewrite (counted_during xs w).
Qed.

Lemma count_previous ix reg h k :
  ix ∈ dn -> rs0 !! op_resource (rv_op ix.2) = Some reg ->
  count rs0 wr true reg (default [] (committed w0 (rv_rid ix.2) !! op_key (rv_op ix.2))) h k =
  loses rs0 wr reg ix.2 h k.
Proof.
  intros Hix Hreg. destruct (dn_reserved _ Hix) as [_ (reg' & Hreg' & Hrid & _) _ Hex Hprev _].
  assert (reg' = reg) as -> by congruence. unfold loses. destruct (existed (rv_res ix.2)).
  - specialize (Hprev eq_refl). rewrite Hprev. simpl.
    pose proof (g_tx _ _ _ _ _ (c_reserving _ _ _ _ _ _ _ _ _ _ _ Hc)) as Htx.
    eapply count_committed; [apply Htx | apply (y_inv _ _ Hready) | exact Hreg |].
    intros ref Href. destruct reserve_view as [[Hv _] _]. apply elem_of_refs_in.
    rewrite <- Hrid, Hv. eauto.
  - symmetry in Hex. apply bool_decide_eq_false in Hex. apply eq_None_not_Some in Hex. by rewrite Hex.
Qed.

(** After any number of publications the references are those before the
    transaction and the changes of the operations published. *)
Lemma ledger_prefix p q w h k :
  dn = p ++ q -> after_publishing w1 p.*2 w ->
  Z.of_nat (ledger rs0 w true h k) =
  Z.of_nat (ledger rs0 w0 false h k) + change (mjoin (deltas_of e0 wr <$> p)) (h, k).
Proof.
  revert q w. induction p as [| ix p IH] using rev_ind; intros q w Hdn Hw.
  - apply after_publishing_nil in Hw as ->. simpl. rewrite Z.add_0_r. f_equal.
    destruct start_view as [[Hv _] Hh], reserve_view as [[Hv0 _] Hh0].
    rewrite (ledger_view rs0 wr w1), <- (ledger_view rs0 w0 wr false) by done.
    pose proof (g_tx _ _ _ _ _ (c_reserving _ _ _ _ _ _ _ _ _ _ _ Hc)) as Htx.
    eapply ledger_committed; [apply Htx | apply (y_inv _ _ Hready)].
  - rewrite fmap_app in Hw. apply after_publishing_inv in Hw as (w' & Hw' & Hs).
    rewrite <- app_assoc in Hdn. specialize (IH _ _ Hdn Hw').
    assert (ix ∈ dn) as Hix by (rewrite Hdn; apply elem_of_app; right; by left).
    destruct (dn_reserved _ Hix) as [_ (reg & Hreg & Hrid & _) _ _ _ _].
    rewrite fmap_app, join_app, change_app. simpl. rewrite app_nil_r.
    rewrite (change_deltas_of _ _ _ reg) by done.
    assert (committed w' (rv_rid ix.2) !! op_key (rv_op ix.2) =
            committed w0 (rv_rid ix.2) !! op_key (rv_op ix.2)) as Hold.
    { rewrite (after_publishing_committed _ _ _ _ Hw'), effects_other, start_committed; [done |].
      intros x Hx Heq. pose proof dn_targets as Hnd. rewrite Hdn, !fmap_app in Hnd.
      apply NoDup_app in Hnd as (_ & Hdis & _). apply (Hdis (target x)).
      - by apply list_elem_of_fmap_2.
      - rewrite Heq. simpl. by left. }
    pose proof (ledger_published rs0 w' w ix.2 reg h k (i_reg _ (y_inv _ _ Hready)) Hreg Hrid
                  (ps_held _ _ _ Hs)) as Hone.
    rewrite Hold, (count_during p.*2 w'), (count_previous ix) in Hone by done.
    assert (gains rs0 w' reg ix.2 h k = gains rs0 wr reg ix.2 h k) as Hg.
    { unfold gains. case_bool_decide; [by apply (count_during p.*2) | done]. }
    rewrite Hg in Hone. ospecialize (Hone _).
    { split; [apply Hs |]. intros rr Hne. by apply (ps_other _ _ _ Hs). }
    lia.
Qed.

Lemma final_world : after_publishing w1 dn.*2 (world_ e).
Proof. apply (q_world _ _ _ _ _ _ _ _ _ _ (c_publishing _ _ _ _ _ _ _ _ _ _ _ Hc)). Qed.

Lemma final_settled h k : ledger rs0 (world_ e) true h k = ledger rs0 (world_ e) false h k.
Proof.
  pose proof (q_tx _ _ _ _ _ _ _ _ _ _ (c_publishing _ _ _ _ _ _ _ _ _ _ _ Hc)) as Htx.
  by eapply ledger_settled.
Qed.

Lemma ledger_final h k :
  Z.of_nat (ledger rs0 (world_ e) false h k) =
  Z.of_nat (ledger rs0 w0 false h k) + change (all_deltas er) (h, k).
Proof.
  rewrite <- final_settled, (ledger_prefix dn [] (world_ e)); [| by rewrite app_nil_r | apply final_world].
  f_equal. unfold all_deltas. destruct (merged_spec (w_deltas (scratch_ er))) as [_ Hs].
  rewrite (sc_change _ _ Hs), (g_deltas _ _ _ _ _ (c_reserving _ _ _ _ _ _ _ _ _ _ _ Hc)).
  apply change_perm. by rewrite dn_perm.
Qed.

(** ** The keys that exist *)

Lemma dn_name y h hreg :
  y ∈ dn -> rs0 !! h = Some hreg -> rv_rid y.2 = resource hreg <-> op_resource (rv_op y.2) = h.
Proof.
  intros Hy Hh. destruct (dn_reserved _ Hy) as [_ (reg & Hreg & Hrid & _) _ _ _ _].
  destruct (i_reg _ (y_inv _ _ Hready) _ _ Hh) as [Hn _].
  destruct (i_reg _ (y_inv _ _ Hready) _ _ Hreg) as [Hn' _]. split; [congruence |].
  intros Heq. rewrite Heq in Hreg. congruence.
Qed.

(** A key is as its operation leaves it, or as it was. *)
Lemma prefix_lookup p q w rr k :
  dn = p ++ q -> after_publishing w1 p.*2 w ->
  (∃ ix, ix ∈ p ∧ target ix.2 = (rr, k) ∧ committed w rr !! k =
     match op_kind (rv_op ix.2) with kUpsert => Some (references (rv_res ix.2)) | kErase => None end) ∨
  ((∀ ix, ix ∈ p -> target ix.2 <> (rr, k)) ∧ committed w rr !! k = committed w0 rr !! k).
Proof.
  intros Hdn Hw. rewrite (after_publishing_committed _ _ _ _ Hw).
  destruct (decide ((rr, k) ∈ target <$> p.*2)) as [Hin | Hout].
  - left. apply list_elem_of_fmap in Hin as (x & Heq & Hx).
    apply list_elem_of_fmap in Hx as (ix & -> & Hix). exists ix. split_and!; [done.. |].
    injection Heq as -> ->. apply effects_own; [| by apply list_elem_of_fmap_2].
    pose proof dn_targets as Hnd. rewrite Hdn, !fmap_app in Hnd. by apply NoDup_app in Hnd as (? & _).
  - right. split.
    + intros ix Hix Heq. apply Hout. rewrite <- Heq. by do 2 apply list_elem_of_fmap_2.
    + rewrite effects_other, start_committed; [done |]. intros x Hx Heq. apply Hout.
      rewrite <- Heq. by apply list_elem_of_fmap_2.
Qed.

Lemma inc_ledger h k : registered rs0 h -> inc rs0 h k = Z.of_nat (ledger rs0 w0 false h k).
Proof.
  intros [reg Hh]. unfold inc, incoming_of. rewrite Hh, (i_exact _ (y_inv _ _ Hready) _ _ Hh).
  unfold entry. case_decide; simpl; lia.
Qed.

(** A key among the changes that keeps a reference was checked. *)
Lemma checked_key h k :
  (h, k) ∈ spot <$> w_deltas (scratch_ er) -> (0 < ledger rs0 (world_ e) false h k)%nat ->
  kept ops rs0 w0 h k ∨
  ((∀ i op, ops !! i = Some op -> op_resource op = h -> op_key op <> k) ∧
   ¬ added (w_deltas (scratch_ er)) (h, k)).
Proof.
  intros Hin Hpos. destruct (merged_spec (w_deltas (scratch_ er))) as [Hnd Hs].
  apply (sc_spots _ _ Hs) in Hin. fold (all_deltas er) in *.
  apply list_elem_of_fmap in Hin as (x & [= -> ->] & Hx).
  pose proof (c_passes _ _ _ _ _ _ _ _ _ _ _ Hc) as Hp. rewrite Forall_forall in Hp.
  pose proof (deltas_registered _ _ Hready _ _ _ (c_reserving _ _ _ _ _ _ _ _ _ _ _ Hc)) as Hr.
  rewrite Forall_forall in Hr. pose proof (ledger_final (d_target x) (d_key x)) as Hf.
  change (d_target x, d_key x) with (spot x) in Hf. rewrite change_member in Hf by done.
  destruct (Hp _ Hx) as [Hle | [Hk | [Hno Hadd]]]; [| by left |].
  - rewrite inc_ledger in Hle by by apply Hr. lia.
  - right. split; [done |]. intros Ha. apply (sc_added _ _ Hs) in Ha as (y & Hy & Heq & Hne).
    apply Hne. enough (y = x) as -> by done.
    apply list_elem_of_lookup in Hx as [i Hx], Hy as [j Hy].
    assert (i = j) as ->; [| congruence]. apply (NoDup_lookup _ i j (spot x) Hnd).
    + by rewrite list_lookup_fmap, Hx.
    + rewrite list_lookup_fmap, Hy. simpl. by rewrite Heq.
Qed.

Lemma changed_spot ix h k :
  ix ∈ dn -> (h, k) ∈ spot <$> deltas_of e0 wr ix -> (h, k) ∈ spot <$> w_deltas (scratch_ er).
Proof.
  intros Hix Hin. rewrite (g_deltas _ _ _ _ _ (c_reserving _ _ _ _ _ _ _ _ _ _ _ Hc)).
  apply list_elem_of_fmap in Hin as (x & -> & Hx). apply list_elem_of_fmap_2, list_elem_of_join.
  exists (deltas_of e0 wr ix). split; [done |]. apply list_elem_of_fmap_2. by rewrite <- dn_perm.
Qed.

(** What is published before [x] does not come after it. *)
Lemma published_before p q x y :
  dn = p ++ q -> x ∈ p -> y ∈ dn -> ¬ no_later (pub_key rs0 x) (pub_key rs0 y) -> y ∈ p.
Proof.
  intros Hdn Hx Hy Hno. rewrite Hdn in Hy. apply elem_of_app in Hy as [Hy | Hy]; [done |].
  destruct Hno. pose proof (c_sorted _ _ _ _ _ _ _ _ _ _ _ Hc) as Hs. rewrite Hdn in Hs.
  apply StronglySorted_app in Hs as (Hs & _ & _). by apply Hs.
Qed.

Lemma counted_edge w b n reg ref h k :
  rs0 !! n = Some reg -> counted_on rs0 w b reg ref = Some (h, k) ->
  Ranks.rank_at rs0 h < Ranks.rank_at rs0 n.
Proof.
  intros Hn Hcount. apply Ranks.settled_edge; [apply (y_ranks _ _ Hready) |].
  unfold counted_on in Hcount. rewrite Resolve_spec in Hcount. case_decide as Hd; [| done].
  simpl in Hcount. unfold holder_at in Hcount.
  destruct (rs0 !! ref_resource ref) as [treg |] eqn:Ht; [| done]. simpl in Hcount.
  exists reg, (ref_resource ref), treg. split_and!; [done.. |].
  destruct (_ || _); simpl in Hcount; [left; congruence |].
  destruct (reg_key_holder treg); simpl in Hcount; [right; congruence | done].
Qed.

Lemma counted_registered w b n reg ref h k :
  rs0 !! n = Some reg -> counted_on rs0 w b reg ref = Some (h, k) -> registered rs0 h.
Proof.
  intros Hn Hcount. unfold counted_on in Hcount. destruct (Resolve _ _); [| done].
  simpl in Hcount. destruct (holder_at _ _ _ _ _) as [h' |] eqn:Hh; [| done].
  injection Hcount as <- _. eapply holder_at_registered; [apply (y_inv _ _ Hready) | exact Hh].
Qed.

(** A kept key exists once its own upsert, if any, is published. *)
Lemma kept_published p q w h hreg k :
  dn = p ++ q -> after_publishing w1 p.*2 w -> rs0 !! h = Some hreg -> kept ops rs0 w0 h k ->
  (∀ y, y ∈ dn -> op_resource (rv_op y.2) = h -> op_key (rv_op y.2) = k ->
     op_kind (rv_op y.2) = kUpsert -> y ∈ p) ->
  is_Some (committed w (resource hreg) !! k).
Proof.
  intros Hdn Hw Hh Hk Hin. destruct Hk as [(i & op & Hop & Hr & Hkey & Hu) | [Hno (reg & Hreg & Hex)]].
  - destruct (dn_op _ _ Hop) as (y & Hy & <-). specialize (Hin _ Hy Hr Hkey Hu).
    assert (target y = (resource hreg, k)) as Ht.
    { unfold target. f_equal; [| done]. by apply (dn_name (i, y) h hreg). }
    destruct (prefix_lookup p q w (resource hreg) k Hdn Hw) as [(z & Hz & Htz & ->) | [Hnone _]].
    + assert (z = (i, y)) as ->; [| simpl; rewrite Hu; eauto].
      apply dn_same; [rewrite Hdn; apply elem_of_app; by left | done | simpl; congruence].
    + by destruct (Hnone _ Hin).
  - assert (reg = hreg) as -> by congruence.
    destruct (prefix_lookup p q w (resource hreg) k Hdn Hw) as [(z & Hz & Htz & _) | [_ ->]]; [| done].
    assert (z ∈ dn) as Hzd by (rewrite Hdn; apply elem_of_app; by left).
    injection Htz as Hrid Hkey. apply (dn_name _ _ _ Hzd Hh) in Hrid.
    destruct (Hno z.1 (rv_op z.2)); [by apply dn_reserved | done | done].
Qed.

(** The references of a new value name keys that exist. *)
Lemma new_reference p q w x reg ref h k :
  dn = p ++ q -> after_publishing w1 p.*2 w -> x ∈ p -> op_kind (rv_op x.2) = kUpsert ->
  rs0 !! op_resource (rv_op x.2) = Some reg -> ref ∈ references (rv_res x.2) ->
  counted_on rs0 wr true reg ref = Some (h, k) ->
  ∃ hreg, rs0 !! h = Some hreg ∧ is_Some (committed w (resource hreg) !! k).
Proof.
  intros Hdn Hw Hx Hu Hreg Href Hcount.
  destruct (counted_registered _ _ _ _ _ _ _ Hreg Hcount) as [hreg Hh]. exists hreg. split; [done |].
  assert (x ∈ dn) as Hxd by (rewrite Hdn; apply elem_of_app; by left).
  assert (0 < gains rs0 wr reg x.2 h k)%nat as Hg.
  { unfold gains. rewrite bool_decide_eq_true_2 by done. unfold count.
    assert (ref ∈ filter (fun ref => counted_on rs0 wr true reg ref = Some (h, k))
                    (references (rv_res x.2))) as Hf by by apply list_elem_of_filter.
    destruct (filter _ _); [by apply not_elem_of_nil in Hf | simpl; lia]. }
  pose proof (gains_added e0 wr x reg h k Hreg Hg) as (dl & Hdl & Hspot & Hadd).
  assert (added (w_deltas (scratch_ er)) (h, k)) as Hadded.
  { exists dl. split_and!; [| done..]. rewrite (g_deltas _ _ _ _ _ (c_reserving _ _ _ _ _ _ _ _ _ _ _ Hc)).
    apply list_elem_of_join. exists (deltas_of e0 wr x). split; [done |].
    apply list_elem_of_fmap_2. by rewrite <- dn_perm. }
  destruct (checked_key h k) as [Hk | [_ Hna]]; [| | | done].
  - apply (changed_spot x); [done |]. rewrite <- Hspot. by apply list_elem_of_fmap_2.
  - rewrite <- final_settled. apply (ledger_pos _ _ _ (op_resource (rv_op x.2)) reg ref); [done | |].
    + destruct (dn_reserved _ Hxd) as [_ (reg' & Hreg' & Hrid & _) _ _ _ _].
      assert (reg' = reg) as -> by congruence. apply elem_of_refs_in.
      exists (op_key (rv_op x.2)), (references (rv_res x.2)). split; [| done].
      rewrite <- Hrid, (after_publishing_committed _ _ _ _ final_world), effects_own, Hu;
        [done | apply dn_targets | by apply list_elem_of_fmap_2].
    + by rewrite (counted_during dn.*2) by apply final_world.
  - eapply kept_published; [done.. |]. intros y Hy Hry Hky Huy.
    apply (published_before p q x); [done.. |]. unfold pub_key. rewrite Hu, Huy, Hry.
    unfold no_later. simpl. pose proof (counted_edge _ _ _ _ _ _ _ Hreg Hcount). lia.
Qed.

(** The references of a value that is still there name keys that exist. *)
Lemma old_reference p q w n reg key refs ref h k :
  sound rs0 w0 false -> dn = p ++ q -> after_publishing w1 p.*2 w -> rs0 !! n = Some reg ->
  (∀ ix, ix ∈ p -> target ix.2 <> (resource reg, key)) ->
  committed w0 (resource reg) !! key = Some refs -> ref ∈ refs ->
  counted_on rs0 wr true reg ref = Some (h, k) ->
  ∃ hreg, rs0 !! h = Some hreg ∧ is_Some (committed w (resource hreg) !! k).
Proof.
  intros Hsound Hdn Hw Hn Hno Hold Href Hcount.
  assert (ref ∈ refs_of w0 (resource reg)) as Hin by (apply elem_of_refs_in; eauto).
  assert (counted_on rs0 w0 false reg ref = Some (h, k)) as Hcount0.
  { pose proof (g_tx _ _ _ _ _ (c_reserving _ _ _ _ _ _ _ _ _ _ _ Hc)) as Htx.
    destruct reserve_view as [[Hv _] Hh]. rewrite <- (counted_on_view _ w0 wr) by done.
    rewrite <- Hcount. symmetry. eapply counted_on_committed; [apply Htx | apply (y_inv _ _ Hready) | done |].
    unfold refs_of. by rewrite Hv. }
  destruct (Hsound h k) as (hreg & Hh & Hex); [by eapply ledger_pos |]. exists hreg. split; [done |].
  destruct (prefix_lookup p q w (resource hreg) k Hdn Hw) as [(y & Hy & Hty & ->) | [_ ->]]; [| done].
  destruct (op_kind (rv_op y.2)) eqn:Hky; [eauto |]. exfalso.
  assert (y ∈ dn) as Hyd by (rewrite Hdn; apply elem_of_app; by left).
  injection Hty as Hrid Hkey. apply (dn_name _ _ _ Hyd Hh) in Hrid.
  assert (ledger rs0 (world_ e) false h k = 0)%nat as Hzero.
  { destruct (decide (0 < ledger rs0 (world_ e) false h k)%nat) as [Hpos |]; [| lia]. exfalso.
    destruct (checked_key h k) as [Hk | [Hnone _]]; [| done | |].
    - apply (changed_spot y); [done |]. rewrite <- Hrid, <- Hkey. apply (erased_spot _ _ _ hreg); congruence.
    - destruct Hk as [(i & op & Hop & Hr & Hk & Hu) | [Hnone _]].
      + assert (i = y.1) as ->.
        { apply (y_distinct _ _ Hready i y.1 op (rv_op y.2)); [done | by apply dn_reserved | congruence..]. }
        pose proof (v_op _ _ _ _ _ (dn_reserved _ Hyd)). congruence.
      + by apply (Hnone y.1 (rv_op y.2)); [apply dn_reserved | ..].
    - by apply (Hnone y.1 (rv_op y.2)); [apply dn_reserved | ..]. }
  destruct (prefix_lookup dn [] (world_ e) (resource reg) key) as [(x & Hx & Htx & _) | [_ Hsame]];
    [by rewrite app_nil_r | apply final_world | |].
  - assert (x ∈ q) as Hxq.
    { rewrite Hdn in Hx. apply elem_of_app in Hx as [Hx |]; [| done]. by destruct (Hno _ Hx). }
    pose proof (c_sorted _ _ _ _ _ _ _ _ _ _ _ Hc) as Hs. rewrite Hdn in Hs.
    apply StronglySorted_app in Hs as (Hs & _ & _). specialize (Hs _ _ Hy Hxq).
    injection Htx as Hxr _. apply (dn_name _ _ _ Hx Hn) in Hxr.
    unfold pub_key, no_later in Hs. rewrite Hky, Hrid, Hxr in Hs.
    pose proof (counted_edge _ _ _ _ _ _ _ Hn Hcount).
    destruct (op_kind (rv_op x.2)); simpl in Hs; lia.
  - assert (0 < ledger rs0 (world_ e) true h k)%nat as Hpos.
    { apply (ledger_pos _ _ _ n reg ref); [done | |].
      - apply elem_of_refs_in. exists key, refs. by rewrite Hsame.
      - by rewrite (counted_during dn.*2) by apply final_world. }
    rewrite final_settled in Hpos. lia.
Qed.

(** No state between the first and the last publication has a dangling
    reference. *)
Lemma sound_prefix p q w :
  sound rs0 w0 false -> dn = p ++ q -> after_publishing w1 p.*2 w -> sound rs0 w true.
Proof.
  intros Hsound Hdn Hw h k Hpos.
  apply pos_ledger in Hpos as (n & reg & ref & Hn & Hin & Hcount).
  rewrite (counted_during p.*2) in Hcount by done.
  apply elem_of_refs_in in Hin as (key & refs & Hkey & Href).
  destruct (prefix_lookup p q w (resource reg) key Hdn Hw) as [(x & Hx & Htx & Heq) | [Hno Heq]];
    rewrite Hkey in Heq.
  - destruct (op_kind (rv_op x.2)) eqn:Hu; [| done]. injection Heq as ->.
    assert (x ∈ dn) as Hxd by (rewrite Hdn; apply elem_of_app; by left).
    injection Htx as Hrid _. apply (dn_name _ _ _ Hxd Hn) in Hrid.
    eapply new_reference; [done.. | by rewrite Hrid | done | done].
  - symmetry in Heq. by apply (old_reference p q w n reg key refs ref h k).
Qed.

End Sound.

End Sound.
