(* ===== verification/EngineEnd.v ===== *)
(** * The end of a transaction

    A transaction that published everything ends in the engine's invariant:
    the ledger is exact again, the declared removals are a cascade whose
    stages run in descending rank, and nothing of the transaction is left in
    any resource. *)

From S2P Require Import Prelude Resource Engine EngineRanks EngineRegistry EngineInv.
From S2P Require Import EngineKeys EngineReserve EngineDeltas EngineLedger EnginePublish.
From S2P Require Import EngineCommit EngineApply EngineSound.
Import Res Eng Registry Inv Keys Reserving Deltas Ledger Publishing Committing Applying Sound.
Open Scope Z_scope.

Module Ending.

Section Skeleton.
Context {RS : Resources} {DM : Domain}.
Implicit Types (rs : gmap string Registration).

(** What no part of a transaction changes of a registration. *)
Definition skeleton (reg : Registration) := (core reg, rank reg).

Definition same_skeleton rs rs' : Prop := skeleton <$> rs' = skeleton <$> rs.

Lemma same_skeleton_trans rs rs' rs'' :
  same_skeleton rs rs' -> same_skeleton rs' rs'' -> same_skeleton rs rs''.
Proof. unfold same_skeleton. congruence. Qed.

Lemma same_skeleton_graph rs rs' : same_skeleton rs rs' -> same_graph rs rs'.
Proof.
  unfold same_skeleton, same_graph. intros Hd.
  assert (∀ m : gmap string Registration, core <$> m = fst <$> (skeleton <$> m)) as Hc.
  { intros m. rewrite <- map_fmap_compose. apply map_fmap_ext. by intros ?? _. }
  by rewrite (Hc rs'), Hd, <- Hc.
Qed.

Lemma same_skeleton_rank rs rs' n :
  same_skeleton rs rs' -> Ranks.rank_at rs' n = Ranks.rank_at rs n.
Proof.
  intros Hd. unfold Ranks.rank_at. pose proof (f_equal (.!! n) Hd) as He. rewrite !lookup_fmap in He.
  destruct (rs !! n), (rs' !! n); [| done..]. by injection He.
Qed.

(** Any of the partial differences keeps the skeleton. *)
Lemma differ_skeleton (f : Registration -> Registration) rs rs' :
  (∀ reg, skeleton (f reg) = skeleton reg) -> f <$> rs' = f <$> rs -> same_skeleton rs rs'.
Proof.
  intros Hf Hd. unfold same_skeleton.
  assert (∀ m : gmap string Registration, skeleton <$> m = skeleton <$> (f <$> m)) as Hc.
  { intros m. rewrite <- map_fmap_compose. apply map_fmap_ext. intros n reg _. symmetry. apply Hf. }
  by rewrite (Hc rs'), Hd, <- Hc.
Qed.

Lemma flags_skeleton rs rs' : flags_differ rs rs' -> same_skeleton rs rs'.
Proof. by apply differ_skeleton. Qed.
Lemma counts_skeleton rs rs' : counts_differ rs rs' -> same_skeleton rs rs'.
Proof. by apply differ_skeleton. Qed.
Lemma pending_skeleton rs rs' : pending_differ rs rs' -> same_skeleton rs rs'.
Proof. by apply differ_skeleton. Qed.

Lemma same_skeleton_sym rs rs' : same_skeleton rs rs' -> same_skeleton rs' rs.
Proof. by unfold same_skeleton. Qed.

Lemma same_skeleton_lookup rs rs' n reg :
  same_skeleton rs rs' -> rs !! n = Some reg ->
  ∃ reg', rs' !! n = Some reg' ∧ resource reg' = resource reg.
Proof.
  intros Hd Hn. destruct (same_graph_lookup _ _ _ _ (same_skeleton_graph _ _ Hd) Hn)
    as (reg' & Hr & Hc). exists reg'. split; [done |]. by injection Hc.
Qed.

Lemma rids_skeleton rs rs' ns : same_skeleton rs rs' -> rids rs' ns = rids rs ns.
Proof.
  intros Hd. unfold rids. f_equal. apply omap_ext_in. intros n _.
  destruct (rs !! n) as [reg |] eqn:Hn.
  - destruct (same_skeleton_lookup _ _ _ _ Hd Hn) as (reg' & -> & Hr). simpl. by rewrite Hr.
  - destruct (rs' !! n) as [reg' |] eqn:Hn'; [| done].
    destruct (same_skeleton_lookup _ _ _ _ (same_skeleton_sym _ _ Hd) Hn') as (? & ? & _). congruence.
Qed.

End Skeleton.

Section Ending.
Context {RS : Resources} {DM : Domain} {MM : Memory} {RV : ResourceView} {RL : ResourceLaws}.
Context (e0 : t) (ops : list (Op value)) (Hready : ready e0 ops).
Context (fp : Footprint) (ks : list Z) (r : Retirer) (e : t).
Context (d : list (nat * rsv)) (er ep e1 : t) (dn : list (nat * rsv)).
Context (Hc : completed e0 ops fp ks r e d er ep e1 dn).

Local Abbreviation rs0 := (resources_ e0).
Local Abbreviation touched_names := (w_touched (scratch_ er)).

Lemma pub_state : ∃ ws, e = see ws e1 ∧
  Forall (fun w => ∃ p q, dn = p ++ q ∧ after_publishing (world_ e1) p.*2 w) ws.
Proof. apply (q_state _ _ _ _ _ _ _ _ _ _ (c_publishing _ _ _ _ _ _ _ _ _ _ _ Hc)). Qed.

(** The fields publication leaves alone. *)
Record unchanged : Prop := {
  un_resources : counts_differ (resources_ er) (resources_ e);
  un_entries : resources_ e = resources_ (foldl new_entry
                 (with_domain (ReserveRetirements (domain_ ep) (retires fp)) ep) (all_deltas er));
  un_ep : resources_ ep = resources_ er;
  un_scratch : scratch_ e = set_deltas (all_deltas er) (scratch_ er);
  un_cascades : cascades_ e = cascades_ e0;
  un_deferred : deferred_objects_ e = deferred_objects_ e0;
  un_generation : generation_ e = generation_ e0;
  un_trace : ∃ ws, trace e = trace e0 ++ (EvWorld <$> ws) ∧
    Forall (fun w => ∃ p q, dn = p ++ q ∧ after_publishing (world_ e1) p.*2 w) ws
}.

Lemma publication_unchanged : unchanged.
Proof.
  destruct pub_state as (ws & He & Hws).
  pose proof (see_fields ws e1) as (_ & Hres & Hcas & Hdef & Hgen & Hsc & _ & _ & Htr).
  rewrite <- He in *.
  pose proof (start_fields _ _ Hready _ _ _ _ _ (c_reserving _ _ _ _ _ _ _ _ _ _ _ Hc)
                (c_prepared _ _ _ _ _ _ _ _ _ _ _ Hc) (c_start _ _ _ _ _ _ _ _ _ _ _ Hc))
    as (Hst & Hcd & Hep & Hscp).
  pose proof (p_state _ _ (c_prepared _ _ _ _ _ _ _ _ _ _ _ Hc)) as Hpre.
  pose proof (g_tx _ _ _ _ _ (c_reserving _ _ _ _ _ _ _ _ _ _ _ Hc)) as Htx.
  rewrite Hst in Hcas, Hdef, Hgen, Hsc, Htr. simpl in *.
  assert (cascades_ ep = cascades_ er ∧ deferred_objects_ ep = deferred_objects_ er ∧
          generation_ ep = generation_ er ∧ trace ep = trace er) as (H1 & H2 & H3 & H4)
    by (rewrite Hpre; done).
  constructor.
  - by rewrite Hres, <- Hep.
  - by rewrite Hres, (c_start _ _ _ _ _ _ _ _ _ _ _ Hc) at 1.
  - done.
  - congruence.
  - rewrite Hcas, H1. apply Htx.
  - rewrite Hdef, H2. apply Htx.
  - rewrite Hgen, H3. apply Htx.
  - exists ws. split; [| done]. rewrite Htr, H4. f_equal. apply Htx.
Qed.

Lemma publication_skeleton : same_skeleton rs0 (resources_ e).
Proof.
  eapply same_skeleton_trans; [| apply counts_skeleton, publication_unchanged].
  apply flags_skeleton, (t_resources _ _ _ _ (g_tx _ _ _ _ _ (c_reserving _ _ _ _ _ _ _ _ _ _ _ Hc))).
Qed.

(** ** The ledger *)

Lemma deltas_in_registered : Forall (fun x => registered (resources_ e) (d_target x)) (all_deltas er).
Proof.
  eapply Forall_impl; [eapply deltas_registered; [exact Hready | apply Hc] |]. intros x.
  apply same_graph_registered, same_graph_sym, same_skeleton_graph, publication_skeleton.
Qed.

Lemma commit_exact :
  let e2 := foldl commit_delta e (all_deltas er) in
  e2 = with_resources (resources_ e2) e ∧ counts_differ (resources_ e) (resources_ e2) ∧
  exact (resources_ e2) (world_ e).
Proof.
  intros e2. destruct (merged_spec (w_deltas (scratch_ er))) as [Hnd _].
  destruct (entries_state (all_deltas er) e Hnd deltas_in_registered) as [_ [He2 Hcd]].
  split_and!; [exact He2 | exact Hcd |]. intros h reg Hh k.
  assert (same_graph rs0 (resources_ e2)) as Hg.
  { apply same_skeleton_graph. eapply same_skeleton_trans; [apply publication_skeleton |].
    by apply counts_skeleton. }
  rewrite (ledger_graph rs0) by done.
  assert (incoming_of (resources_ e2) h !! k = entry (ledger rs0 (world_ e) false h k)) as Hin;
    [| unfold incoming_of in Hin; by rewrite Hh in Hin].
  destruct publication_unchanged as [_ Hent Hep _ _ _ _ _].
  apply (entries_exact _ _ _ _ _ (ledger rs0 (world_ e0) false h k) _ Hnd) with (2 := Hent).
  - simpl. rewrite Hep. eapply Forall_impl; [apply deltas_in_registered |]. intros x.
    apply same_graph_registered, counts_differ_graph, publication_unchanged.
  - simpl. rewrite Hep.
    destruct (same_graph_lookup _ _ _ _ (same_graph_sym _ _ Hg) Hh) as (reg0 & Hh0 & _).
    pose proof (t_resources _ _ _ _ (g_tx _ _ _ _ _ (c_reserving _ _ _ _ _ _ _ _ _ _ _ Hc))) as Hfl.
    destruct (flags_differ_lookup _ _ _ _ Hfl Hh0) as (b & i & Hhr).
    unfold incoming_of. rewrite Hhr. simpl. apply (i_exact _ (y_inv _ _ Hready) _ _ Hh0).
  - by eapply ledger_final.
Qed.

(** ** The cascade *)

Lemma declared_ok e2 :
  counts_differ (resources_ e) (resources_ e2) ->
  Forall (fun rm => has_owner (resources_ e2) (step_of rm) ∧ rm_rank rm ∈ ks ∧
                    at_rank rs0 (rm_rank rm) (step_of rm)) (removals_ r).
Proof.
  intros Hcd. pose proof (c_publishing _ _ _ _ _ _ _ _ _ _ _ Hc) as Hq.
  eapply Forall_impl; [apply (q_declared _ _ _ _ _ _ _ _ _ _ Hq) |].
  intros rm (ix & Hix & Ho & Hk & Hrm & _).
  destruct (dn_reserved _ _ _ _ _ _ _ _ _ _ _ Hc _ Hix) as [Hop (reg & Hreg & Hrid & _) _ _ _ _].
  destruct (i_reg _ (y_inv _ _ Hready) _ _ Hreg) as [Hname _].
  assert (name (rm_owner rm) = op_resource (rv_op ix.2)) as Hn by congruence. split_and!.
  - assert (same_skeleton rs0 (resources_ e2)) as Hsk.
    { eapply same_skeleton_trans; [apply publication_skeleton | by apply counts_skeleton]. }
    destruct (same_skeleton_lookup _ _ _ _ Hsk Hreg) as (reg' & Hreg' & Hr').
    exists reg'. simpl. rewrite Hn. split; [done | congruence].
  - rewrite Hk, (c_stages _ _ _ _ _ _ _ _ _ _ _ Hc).
    pose proof (c_reserving _ _ _ _ _ _ _ _ _ _ _ Hc) as Hr.
    pose proof (start_fields _ _ Hready _ _ _ _ _ Hr
                  (c_prepared _ _ _ _ _ _ _ _ _ _ _ Hc) (c_start _ _ _ _ _ _ _ _ _ _ _ Hc))
      as (_ & _ & Hep & Hscp).
    rewrite <- (op_rank_at _ _ Hready ep ix.1 (rv_op ix.2)); [| | | done].
    + apply (stage_ranks_has _ _ _ _ (removals (footprint (rv_res ix.2)))).
      * rewrite (g_removed _ _ _ _ _ Hr). rewrite (dn_perm _ _ _ _ _ _ _ _ _ _ _ Hc) in Hix.
        apply list_elem_of_split in Hix as (l1 & l2 & Hd).
        assert (0 <= sum_of removals l1 ∧ 0 <= sum_of removals l2) as [H1 H2].
        { pose proof (g_reserved _ _ _ _ _ Hr) as Hall. rewrite Hd in Hall.
          apply Forall_app in Hall as [Ha Hb]. apply Forall_cons in Hb as [_ Hb].
          split; (eapply sum_of_nonneg; [| eassumption]); by intros ? (_ & [? _] & _). }
        rewrite Hd, sum_of_app. simpl. lia.
      * by eapply lookup_lt_Some.
      * rewrite Hscp. simpl. apply (g_removals _ _ _ _ _ Hr).
        by rewrite <- (dn_perm _ _ _ _ _ _ _ _ _ _ _ Hc).
      * lia.
    + rewrite Hscp. simpl. apply (g_reg _ _ _ _ _ Hr).
    + rewrite Hep. apply (t_resources _ _ _ _ (g_tx _ _ _ _ _ Hr)).
  - unfold at_rank. simpl. by rewrite Hn, Hk.
Qed.

Lemma commit_pending e2 :
  counts_differ (resources_ e) (resources_ e2) ->
  map_Forall (fun _ reg => pending_removals reg =
    Z.of_nat (owned_by (resource reg) (all_steps (cascades_ e0)))) (resources_ e2) ∧
  map_Forall (fun n reg => touched reg = true -> n ∈ touched_names) (resources_ e2).
Proof.
  intros Hcd. assert (counts_differ (resources_ er) (resources_ e2)) as Hcd2
    by (eapply counts_differ_trans; [apply publication_unchanged | done]).
  assert (∀ n reg2, resources_ e2 !! n = Some reg2 -> ∃ reg i, resources_ er !! n = Some reg ∧
            reg2 = set_incoming i reg) as Hback.
  { intros n reg2 Hn. pose proof (f_equal (.!! n) Hcd2) as He. rewrite !lookup_fmap, Hn in He.
    destruct (resources_ er !! n) as [reg |] eqn:Hr; [| done].
    pose proof (counts_differ_lookup _ _ _ _ Hcd2 Hr) as Hr2. rewrite Hn in Hr2.
    injection Hr2 as ->. eauto. }
  pose proof (g_tx _ _ _ _ _ (c_reserving _ _ _ _ _ _ _ _ _ _ _ Hc)) as Htx. split.
  - intros n reg2 Hn. destruct (Hback _ _ Hn) as (reg & i & Hr & ->). simpl.
    destruct (flags_differ_lookup _ _ _ _ (flags_differ_sym _ _ (t_resources _ _ _ _ Htx)) Hr)
      as (b & j & Hr0). apply (b_pending _ _ (i_steps _ (y_inv _ _ Hready)) _ _ Hr0).
  - intros n reg2 Hn Ht. destruct (Hback _ _ Hn) as (reg & i & Hr & ->).
    by apply (t_touched _ _ _ _ Htx _ _ Hr).
Qed.

(** ** The commit *)

(** What the caller finds once the transaction is committed. *)
Record committed_state (e' : t) : Prop := {
  cs_inv : inv e';
  cs_generation : generation_ e' = wrap 64 (generation_ e0 + 1);
  cs_view : same_view (world_ e) (world_ e');
  cs_held : same_held false (world_ e) (world_ e');
  cs_skeleton : same_skeleton rs0 (resources_ e');
  cs_trace : ∃ ws evs, trace e' = trace e0 ++ (EvWorld <$> ws) ++ evs ∧
    Forall (fun w => ∃ p q, dn = p ++ q ∧ after_publishing (world_ e1) p.*2 w) ws ∧
    Forall (fun ev => ∃ token, ev = EvStart token) evs
}.

(** The state in which the transaction ends for the touched resources. *)
Lemma commit_ending e4 :
  world_ e4 = world_ e -> same_skeleton rs0 (resources_ e4) ->
  map_Forall (fun n reg => touched reg = true -> n ∈ touched_names) (resources_ e4) ->
  ending e4 e4 (rids rs0 touched_names) (rids rs0 touched_names)
    ((s_fn <$> all_steps (cascades_ e0)) ++ (rm_step <$> removals_ r)) touched_names.
Proof.
  intros Hw Hsk Ht. pose proof (c_publishing _ _ _ _ _ _ _ _ _ _ _ Hc) as Hq.
  pose proof (g_tx _ _ _ _ _ (c_reserving _ _ _ _ _ _ _ _ _ _ _ Hc)) as Htx.
  constructor; try done.
  - rewrite Hw. apply (q_tx _ _ _ _ _ _ _ _ _ _ Hq).
  - by rewrite (rids_skeleton rs0 (resources_ e4)).
  - eapply Forall_impl; [apply (t_registered _ _ _ _ Htx) |]. intros n [reg Hn].
    destruct (same_skeleton_lookup _ _ _ _ Hsk Hn) as (reg' & Hn' & _). by eexists.
Qed.

Lemma bookkeeping_final e' (stages : list (list Step)) e3 :
  mjoin stages ≡ₚ (step_of <$> removals_ r) ->
  pending_differ (resources_ (foldl commit_delta e (all_deltas er))) (resources_ e3) ->
  map_Forall (fun _ reg => pending_removals reg = Z.of_nat (owned_by (resource reg)
    (all_steps (cascades_ e0) ++ (step_of <$> removals_ r)))) (resources_ e3) ->
  flags_differ (resources_ e3) (resources_ e') ->
  deferred_objects_ e' = Z.of_nat (length (all_steps (cascades_ e0) ++ (step_of <$> removals_ r))) ->
  all_steps (cascades_ e') = all_steps (cascades_ e0) ++ mjoin stages ->
  tx (world_ e') [] ∅ ∅ (s_fn <$> all_steps (cascades_ e')) ->
  bookkeeping e' (all_steps (cascades_ e')).
Proof.
  intros Hj Hpd Hpend Hfl Hdef Hall Htx.
  apply (bookkeeping_perm _ (all_steps (cascades_ e0) ++ (step_of <$> removals_ r)));
    [by rewrite Hall, Hj |].
  destruct commit_exact as (_ & Hcd & _).
  assert (same_skeleton rs0 (resources_ e')) as Hsk.
  { eapply same_skeleton_trans; [apply publication_skeleton |].
    eapply same_skeleton_trans; [by apply counts_skeleton |].
    eapply same_skeleton_trans; [by apply pending_skeleton | by apply flags_skeleton]. }
  constructor; [| | done |].
  - eapply tx_perm; [| exact Htx]. by rewrite Hall, Hj.
  - apply Forall_app. split.
    + eapply Forall_impl; [apply (b_owners _ _ (i_steps _ (y_inv _ _ Hready))) |].
      intros st (reg & Hr & Ho). destruct (same_skeleton_lookup _ _ _ _ Hsk Hr) as (reg' & Hr' & Heq).
      exists reg'. split; [done | congruence].
    + apply Forall_fmap. eapply Forall_impl; [apply (declared_ok _ Hcd) |].
      intros rm ((reg & Hr & Ho) & _). simpl.
      destruct (pending_differ_lookup _ _ _ _ Hpd Hr) as [p Hr3].
      destruct (flags_differ_lookup _ _ _ _ Hfl Hr3) as (b & j & Hr'). by eexists.
  - intros n reg' Hn.
    destruct (flags_differ_lookup _ _ _ _ (flags_differ_sym _ _ Hfl) Hn) as (b & j & Hn3).
    apply (Hpend _ _ Hn3).
Qed.

Lemma inv_final e' e3 :
  pending_differ (resources_ (foldl commit_delta e (all_deltas er))) (resources_ e3) ->
  flags_differ (resources_ e3) (resources_ e') ->
  map_Forall (fun _ reg => touched reg = false) (resources_ e') ->
  same_view (world_ e) (world_ e') -> same_held false (world_ e) (world_ e') ->
  bookkeeping e' (all_steps (cascades_ e')) ->
  inv e' ∧ same_skeleton rs0 (resources_ e').
Proof.
  intros Hpd Hfl Ht Hv Hh Hb. destruct commit_exact as (_ & Hcd & Hex).
  assert (same_skeleton rs0 (resources_ e')) as Hsk.
  { eapply same_skeleton_trans; [apply publication_skeleton |].
    eapply same_skeleton_trans; [by apply counts_skeleton |].
    eapply same_skeleton_trans; [by apply pending_skeleton | by apply flags_skeleton]. }
  split; [| done]. constructor; try done.
  - eapply reg_inv_graph; [by apply same_skeleton_graph | apply (y_inv _ _ Hready)].
  - eapply exact_flags; [exact Hfl | exact Hv | exact Hh |].
    by eapply exact_frame; [exact Hpd | | | exact Hex].
  - intros _ _ n. eapply settled_ext; [by apply same_skeleton_graph | | apply (y_ranks _ _ Hready)].
    intros m. by apply same_skeleton_rank.
Qed.

(** Everything after the publication. *)
Lemma wp_commit n (QR : Result -> t -> Prop) :
  wp (commit n fp ks r) QR (fun res e' => committed_state e' ∧
    res = mk_result kApplied (generation_ e') (replicate n (mk_op_result kOpApplied None EmptyString))
            false (retiring fp)) e.
Proof.
  unfold commit. wp_step. apply wp_modify. destruct publication_unchanged
    as [Hun1 _ _ Hsc Hcas Hdef Hgen Htr].
  rewrite Hsc. change (w_deltas (set_deltas _ _)) with (all_deltas er).
  destruct commit_exact as (He2 & Hcd & Hex). set (e2 := foldl commit_delta e (all_deltas er)) in *.
  destruct (commit_pending e2 Hcd) as [Hp2 Ht2]. wp_step. apply wp_get.
  destruct (collect_removals_spec (removals_ r) ks (replicate (length ks) []) e2
              (all_steps (cascades_ e0)) (at_rank rs0))
    as (stages & e3 & Hcol & Hj & _ & He3 & Hpd & Hp3).
  { eapply reg_inv_graph; [| apply (i_reg _ (y_inv _ _ Hready))]. apply same_skeleton_graph.
    eapply same_skeleton_trans; [apply publication_skeleton | by apply counts_skeleton]. }
  { by apply declared_ok. }
  { clear. induction ks as [| k l IH]; constructor; [constructor | exact IH]. }
  { rewrite He2. simpl. rewrite Hdef. apply (b_deferred _ _ (i_steps _ (y_inv _ _ Hready))). }
  { exact Hp2. }
  assert (mjoin (replicate (length ks) ([] : list Step)) = []) as Hnil
    by (clear; induction ks as [| k l IH]; [done | exact IH]).
  rewrite Hnil in Hj. simpl in Hj.
  wp_step. apply (wp_lift _ (stages, e3)); [exact Hcol |]. wp_step. apply wp_modify.
  set (e4 := with_generation _ e3). wp_step. apply wp_modify.
  assert (scratch_ e4 = scratch_ e ∧ world_ e4 = world_ e ∧ cascades_ e4 = cascades_ e0 ∧
          trace e4 = trace e ∧ generation_ e4 = wrap 64 (generation_ e0 + 1)) as (H1 & H2 & H3 & H4 & H5).
  { unfold e4. rewrite He3. simpl. rewrite He2. simpl. by rewrite Hgen. }
  rewrite H1, Hsc. change (w_touched (set_deltas _ _)) with touched_names.
  destruct (end_transactions e4 e4 _ _ _ _ (commit_ending e4 H2
    ltac:(eapply same_skeleton_trans; [apply publication_skeleton |];
          eapply same_skeleton_trans; [by apply counts_skeleton | by apply pending_skeleton])
    ltac:(intros m reg3 Hm Htm;
          destruct (pending_differ_lookup _ _ _ _ (pending_differ_sym _ _ Hpd) Hm) as [q Hm2];
          exact (Ht2 _ _ Hm2 Htm))))
    as ([Htx5 _ _ Hv5 Hh5 Hr5 Ht5 _] & Hdom5 & Hcas5 & Hdef5 & Hgen5 & _ & _ & _ & Htr5).
  set (e5 := foldl _ e4 _) in *. wp_step. apply wp_modify. wp_step. apply wp_modify.
  set (e6 := with_scratch _ e5).
  destruct (start_reclamation_spec r stages e6)
    as (Htx7 & Hall7 & Hv7 & Hh7 & Hr7 & Hd7 & Hg7 & _ & _ & (evs & Htr7 & Hevs)).
  { simpl. rewrite Hcas5, H3. eapply tx_perm; [| exact Htx5].
    rewrite fmap_app, Hj, <- list_fmap_compose. done. }
  wp_step. apply wp_modify. wp_step. apply wp_get. apply wp_ret. split; [| done].
  set (e7 := start_reclamation r stages e6) in *. simpl in Hall7, Hr7, Hd7, Hg7, Htr7.
  assert (same_view (world_ e) (world_ e7)) as Hv
    by (eapply same_view_trans; [rewrite <- H2; exact Hv5 | exact Hv7]).
  assert (same_held false (world_ e) (world_ e7)) as Hh
    by (eapply same_held_trans; [rewrite <- H2; exact Hh5 | exact Hh7]).
  assert (flags_differ (resources_ e3) (resources_ e7)) as Hfl by (rewrite Hr7; exact Hr5).
  rewrite Hcas5, H3 in Hall7.
  assert (bookkeeping e7 (all_steps (cascades_ e7))) as Hb.
  { apply (bookkeeping_final e7 stages e3); try done. rewrite Hd7, Hdef5. unfold e4. by rewrite He3. }
  destruct (inv_final e7 e3) as [Hinv7 Hsk7]; [done | done | | done | done | done |].
  { rewrite Hr7. intros m reg Hm. destruct (touched reg) eqn:Htm; [| done].
    apply (Ht5 _ _ Hm) in Htm. by apply not_elem_of_nil in Htm. }
  constructor; simpl; [by apply inv_with_domain | | done | done | done |].
  - by rewrite Hg7, Hgen5.
  - destruct Htr as (ws & Hws & Hpre). exists ws, evs. split_and!; [| done | done].
    by rewrite Htr7, Htr5, H4, Hws, <- app_assoc.
Qed.

End Ending.

End Ending.
