(* ===== verification/EngineTheorems.v ===== *)
(** * What the transaction engine promises

    The promises of [core/dataplane/transaction_engine.h], proved of the whole
    engine: a transaction applies entirely or not at all, publication never
    shows a dangling reference, the reference ledger is exact after any
    sequence of calls, and a stale generation is refused. *)

From S2P Require Import Prelude Resource Engine EngineRanks EngineRegistry EngineInv.
From S2P Require Import EngineRegister EngineKeys EngineReserve EngineDeltas EngineLedger.
From S2P Require Import EnginePublish EngineCommit EngineApply EngineSound EngineEnd.
Import Res Eng Registry Inv Join Keys Reserving Deltas Ledger Publishing Committing Applying
  Sound Ending.
Open Scope Z_scope.

Module Promises.

Section Promises.
Context {RS : Resources} {DM : Domain} {MM : Memory} {RV : ResourceView} {RL : ResourceLaws}.
Implicit Types (rs : gmap string Registration) (e : t) (w : world) (ops : list (Op value)).

(** ** One transaction *)

(** Nothing a caller can ask about has changed. *)
Record unaffected e e' : Prop := {
  ua_inv : inv e';
  ua_generation : generation_ e' = generation_ e;
  ua_committed : ∀ r, committed (world_ e') r = committed (world_ e) r;
  ua_held : same_held false (world_ e) (world_ e');
  ua_graph : same_graph (resources_ e) (resources_ e');
  ua_trace : ∃ evs, trace e' = trace e ++ evs ∧ Forall (quiet (world_ e)) evs
}.

(** What the operations ask of key [k] of resource [n] has happened. *)
Definition operated ops n (before after : gmap string (list Reference)) : Prop :=
  ∀ k, (∀ op, op ∈ ops -> op_resource op = n -> op_key op = k ->
          is_Some (after !! k) <-> op_kind op = kUpsert) ∧
       ((∀ op, op ∈ ops -> op_resource op = n -> op_key op <> k) -> after !! k = before !! k).

(** Every operation has taken effect. *)
Record took_effect ops e e' : Prop := {
  te_inv : inv e';
  te_generation : generation_ e' = wrap 64 (generation_ e + 1);
  te_operated : ∀ n reg, resources_ e !! n = Some reg ->
    operated ops n (committed (world_ e) (resource reg)) (committed (world_ e') (resource reg));
  te_graph : same_graph (resources_ e) (resources_ e');
  te_sound : sound (resources_ e) (world_ e) false -> sound (resources_ e') (world_ e') false;
  te_seen : sound (resources_ e) (world_ e) false ->
    ∃ evs, trace e' = trace e ++ evs ∧
      ∀ w, EvWorld w ∈ evs -> sound (resources_ e) w true
}.

Lemma inv_scratch s e : inv e -> inv (with_scratch s e).
Proof. intros [Hi He Hr Hu Hb]. constructor; try done. by apply (bookkeeping_ext e). Qed.

Lemma unaffected_trans e e1 e2 : unaffected e e1 -> unaffected e1 e2 -> unaffected e e2.
Proof.
  intros [_ Hg Hc Hh Hgr (evs & Ht & Hq)] [Hi Hg' Hc' Hh' Hgr' (evs' & Ht' & Hq')]. constructor.
  - done.
  - congruence.
  - congruence.
  - by eapply same_held_trans.
  - by eapply same_graph_trans.
  - exists (evs ++ evs'). split; [by rewrite Ht', Ht, app_assoc |]. apply Forall_app. split; [done |].
    eapply Forall_impl; [exact Hq' |]. intros [| | w]; simpl; [done.. |]. intros (H1 & H2 & H3).
    split_and!; [congruence | by eapply same_held_trans | done].
Qed.

(** Soundness looks at the graph, the collections and the holders. *)
Lemma sound_ext rs rs' w w' b :
  same_graph rs rs' -> (∀ r, committed w' r = committed w r) -> same_held b w w' ->
  sound rs w b -> sound rs' w' b.
Proof.
  intros Hg Hc Hh Hs h k. rewrite (ledger_graph rs), (ledger_view _ w) by done. intros Hpos.
  destruct (Hs _ _ Hpos) as (reg & Hr & Hex).
  destruct (same_graph_lookup _ _ _ _ Hg Hr) as (reg' & Hr' & Hcore). injection Hcore as Hres _ _ _.
  exists reg'. split; [done |]. by rewrite Hres, Hc.
Qed.

Lemma sound_settled rs w P T S : tx w [] P T S -> sound rs w true <-> sound rs w false.
Proof.
  intros Htx. unfold sound. split; intros Hs h k Hpos; apply Hs.
  - by rewrite (ledger_settled w P T S).
  - by rewrite <- (ledger_settled w P T S).
Qed.

(** A world that removal steps show is as sound as the state they ran in. *)
Lemma sound_quiet rs rs' w w' :
  same_graph rs rs' -> quiet w (EvWorld w') -> sound rs w false -> sound rs' w' true.
Proof.
  intros Hg (Hc & Hh & S & Htx) Hs. eapply sound_settled; [exact Htx |]. by eapply sound_ext.
Qed.

(** ** Before the first reservation *)

Lemma unaffected_scratch s e e' : unaffected e e' -> unaffected e (with_scratch s e').
Proof. intros []. constructor; simpl; try done. by apply inv_scratch. Qed.

Lemma unaffected_undone e e1 e2 : unaffected e e1 -> undone e1 e2 -> inv e2 -> unaffected e e2.
Proof.
  intros [_ Hg Hc Hh Hgr Ht] [[Hv _] Hh2 Hr _ _ _ Hg2 _ _ Ht2] Hinv. constructor.
  - done.
  - congruence.
  - intros r. by rewrite Hv.
  - by eapply same_held_trans.
  - eapply same_graph_trans; [exact Hgr | by apply flags_differ_graph].
  - by rewrite Ht2.
Qed.

(** Reclamation and ranks first. *)
Lemma begin_apply e :
  inv e -> ∃ k e1 rs2 cycle, ReclaimRetiredLocked e = Ret (k, e1) ∧
    RecomputeRanksLocked e1 = Ret (with_ranks false cycle (with_resources rs2 e1)) ∧
    unaffected e (with_ranks false cycle (with_resources rs2 e1)).
Proof.
  intros Hinv. destruct (inv_reclaim e Hinv) as (k & e1 & Hrec & Hinv1 & _ & Hf).
  destruct (inv_recompute e1 Hinv1) as (rs2 & cycle & Hrk & Hd & Hinv2).
  exists k, e1, rs2, cycle. split_and!; [done.. |]. destruct Hf as [Hp Hg _ _ Hc Hh Ht].
  constructor; simpl; try done. eapply same_graph_trans; [by apply pending_differ_graph |].
  by apply ranks_differ_graph.
Qed.

Definition key_refs ops : list KeyRef :=
  (fun '(i, op) => mk_keyref (op_resource op) (op_key op) i) <$> imap pair ops.

Lemma key_refs_lookup ops i :
  key_refs ops !! i = (fun op => mk_keyref (op_resource op) (op_key op) i) <$> ops !! i.
Proof. unfold key_refs. rewrite list_lookup_fmap, imap_pair_lookup. by destruct (ops !! i). Qed.

Lemma distinct_ops ops i j op op' :
  NoDup (place <$> key_refs ops) -> ops !! i = Some op -> ops !! j = Some op' ->
  op_resource op = op_resource op' -> op_key op = op_key op' -> i = j.
Proof.
  intros Hnd Hi Hj Hr Hk. apply (NoDup_lookup _ i j (op_resource op, op_key op) Hnd).
  - by rewrite list_lookup_fmap, key_refs_lookup, Hi.
  - rewrite list_lookup_fmap, key_refs_lookup, Hj. simpl. unfold place. simpl. congruence.
Qed.

Lemma indexed_ops ops :
  NoDup (place <$> key_refs ops) -> indexes (sort_keys (key_refs ops)) ops.
Proof.
  intros Hnd h k i. rewrite op_on_spec.
  - split.
    + intros (x & Hx & Hp & <-). unfold sort_keys in Hx. rewrite stable_sort_perm in Hx.
      apply list_elem_of_lookup in Hx as [j Hx]. rewrite key_refs_lookup in Hx.
      destruct (ops !! j) as [op |] eqn:Hop; [| done]. injection Hx as <-. injection Hp as <- <-.
      simpl. eauto.
    + intros (op & Hop & <- & <-). exists (mk_keyref (op_resource op) (op_key op) i).
      split_and!; [| done..]. unfold sort_keys. rewrite stable_sort_perm.
      apply (list_elem_of_lookup_2 _ i). by rewrite key_refs_lookup, Hop.
  - apply sort_keys_sorted.
  - unfold sort_keys. by rewrite stable_sort_perm.
Qed.

(** Operations that passed the structure checks are ready to reserve. *)
Lemma ready_checked e ops :
  inv e -> (∀ n, Ranks.settled (resources_ e) n) -> Forall (valid_op (resources_ e)) ops ->
  find_duplicate None (sort_keys (key_refs ops)) = None ->
  retire_budget (domain_ e) < 2 ^ 31 -> Z.of_nat (length ops) < 2 ^ 24 ->
  ready (with_scratch (set_keys (sort_keys (key_refs ops))
                         (checked (length ops) (imap pair ops))) e) ops.
Proof.
  intros Hinv Hr Hv Hd Hb Hf. apply no_duplicate in Hd.
  destruct (checked_fields (length ops) (imap pair ops)) as (_ & Hs & Hrm & Hds & Ht & _).
  constructor; simpl; try done.
  - by apply inv_scratch.
  - intros i j op op'. by apply distinct_ops.
  - intros i op. apply checked_reg.
  - by apply indexed_ops.
  - constructor; simpl; try done. by rewrite Hrm, length_replicate.
Qed.

(** ** A published transaction *)

Section Published.
Context (e e0 : t) (ops : list (Op value)).
Context (Hun : unaffected e e0) (Hready : ready e0 ops).
Context (fp : Footprint) (ks : list Z) (r : Retirer) (ep : t).
Context (d : list (nat * rsv)) (er ew e1 : t) (dn : list (nat * rsv)).
Context (Hc : completed e0 ops fp ks r ep d er ew e1 dn).
Context (e' : t) (Hcs : committed_state e0 ep e1 dn e').

Lemma published_operated n reg :
  resources_ e !! n = Some reg ->
  operated ops n (committed (world_ e) (resource reg)) (committed (world_ e') (resource reg)).
Proof.
  intros Hn k. destruct Hun as [_ _ Hcom _ Hgr _]. destruct Hcs as [_ _ [Hv _] _ _ _].
  destruct (same_graph_lookup _ _ _ _ Hgr Hn) as (reg0 & Hn0 & Hcore).
  injection Hcore as Hres _ _ _. rewrite Hv, <- Hcom, <- Hres.
  pose proof (final_world _ _ _ _ _ _ _ _ _ _ _ Hc) as Hw.
  assert (dn = dn ++ []) as Hdn by by rewrite app_nil_r.
  pose proof (prefix_lookup _ _ Hready _ _ _ _ _ _ _ _ _ Hc dn [] _ (resource reg0) k Hdn Hw) as Hl.
  split.
  - intros op Hop Hr Hk. apply list_elem_of_lookup in Hop as [i Hop].
    destruct (dn_op _ _ _ _ _ _ _ _ _ _ _ Hc _ _ Hop) as (x & Hx & <-).
    assert (target x = (resource reg0, k)) as Ht.
    { unfold target. f_equal; [| done]. by eapply (dn_name _ _ Hready _ _ _ _ _ _ _ _ _ Hc (i, x)). }
    destruct Hl as [(z & Hz & Htz & ->) | [Hnone _]]; [| by destruct (Hnone _ Hx)].
    assert (z = (i, x)) as ->.
    2: { simpl. destruct (op_kind (rv_op x)); split; [done | by eauto | by intros [? ?] | done]. }
    eapply (dn_same _ _ Hready); [done.. |]. simpl. congruence.
  - intros Hno. destruct Hl as [(z & Hz & Htz & _) | [_ ->]]; [| done].
    injection Htz as Hrid Hkey. exfalso.
    apply (Hno (rv_op z.2)); [| | done].
    + eapply list_elem_of_lookup_2. apply (v_op _ _ _ _ _ (dn_reserved _ _ _ _ _ _ _ _ _ _ _ Hc _ Hz)).
    + by apply (dn_name _ _ Hready _ _ _ _ _ _ _ _ _ Hc z n reg0).
Qed.

Lemma published_sound_before :
  sound (resources_ e) (world_ e) false -> sound (resources_ e0) (world_ e0) false.
Proof. destruct Hun as [_ _ Hcom Hh Hgr _]. by apply sound_ext. Qed.

Lemma published_sound :
  sound (resources_ e) (world_ e) false -> sound (resources_ e') (world_ e') false.
Proof.
  intros Hs%published_sound_before. destruct Hcs as [_ _ [Hv _] Hh Hsk _].
  eapply sound_ext; [by apply same_skeleton_graph | exact Hv | exact Hh |].
  pose proof (q_tx _ _ _ _ _ _ _ _ _ _ (c_publishing _ _ _ _ _ _ _ _ _ _ _ Hc)) as Htx.
  eapply sound_settled; [exact Htx |].
  eapply (sound_prefix _ _ Hready _ _ _ _ _ _ _ _ _ Hc dn []); [done | by rewrite app_nil_r |].
  by eapply final_world.
Qed.

Lemma published_seen :
  sound (resources_ e) (world_ e) false ->
  ∃ evs, trace e' = trace e ++ evs ∧ ∀ w, EvWorld w ∈ evs -> sound (resources_ e) w true.
Proof.
  intros Hs. destruct Hun as [_ _ Hcom Hh Hgr (evs0 & Ht0 & Hq)].
  destruct Hcs as [_ _ _ _ _ (ws & evs & Ht & Hws & Hev)].
  exists (evs0 ++ (EvWorld <$> ws) ++ evs). split; [by rewrite Ht, Ht0, <- app_assoc |].
  intros w Hw. apply elem_of_app in Hw as [Hw | Hw].
  - rewrite Forall_forall in Hq. by eapply (sound_quiet (resources_ e) _ (world_ e)); [| by apply Hq |].
  - apply elem_of_app in Hw as [Hw | Hw].
    + apply list_elem_of_fmap in Hw as (w' & [= ->] & Hw). rewrite Forall_forall in Hws.
      destruct (Hws _ Hw) as (p & q & Hdn & Hp).
      eapply (sound_ext (resources_ e0) _ w' w'); [by apply same_graph_sym | done | done |].
      eapply (sound_prefix _ _ Hready _ _ _ _ _ _ _ _ _ Hc p q); [| done | done].
      by apply published_sound_before.
    + rewrite Forall_forall in Hev. by destruct (Hev _ Hw).
Qed.

Lemma published_effect : took_effect ops e e'.
Proof.
  constructor.
  - apply Hcs.
  - rewrite (cs_generation _ _ _ _ _ Hcs). by rewrite (ua_generation _ _ Hun).
  - apply published_operated.
  - eapply same_graph_trans; [apply Hun |]. apply same_skeleton_graph, Hcs.
  - apply published_sound.
  - apply published_seen.
Qed.

End Published.

(** ** [ApplyImpl] *)

Lemma wp_ApplyImpl ops expected consistency owned e :
  inv e -> (∀ d, retire_budget d < 2 ^ 31) -> Z.of_nat (length ops) < 2 ^ 24 ->
  wp (ApplyImpl ops expected consistency owned)
    (fun r e' => outcome r <> kApplied ∧ r_generation r = generation_ e ∧ unaffected e e')
    (fun r e' => outcome r = kApplied ∧ r_generation r = generation_ e' ∧
       r_ops r = replicate (length ops) (mk_op_result kOpApplied None EmptyString) ∧
       (∀ g, expected = Some g -> g = generation_ e) ∧ took_effect ops e e') e.
Proof.
  intros Hinv Hbudget Hfew. unfold ApplyImpl. wp_step. apply wp_get.
  destruct (begin_apply e Hinv) as (k & e1 & rs2 & cycle & Hrec & Hrk & Hun).
  set (e2 := with_ranks false cycle (with_resources rs2 e1)) in *.
  wp_step. apply (wp_lift _ (k, e1)); [exact Hrec |]. wp_step. apply (wp_lift _ e2); [exact Hrk |].
  wp_step. apply wp_modify. destruct (reference_cycle_ e2) eqn:Hcycle.
  { apply wp_return. split_and!; [done | apply Hun | done]. }
  destruct (match expected with Some g => _ | None => false end) eqn:Hexp.
  { apply wp_return. split_and!; [done | apply Hun | done]. }
  wp_step. apply wp_modify. wp_step. apply check_structure.
  { intros r s Ho Hg. split_and!; [done | rewrite Hg; apply Hun | by apply unaffected_scratch]. }
  intros Hvalid. wp_step. apply wp_modify. wp_step. apply wp_get. simpl.
  destruct (checked_fields (length ops) (imap pair ops)) as (Hkeys & _). rewrite Hkeys.
  fold (key_refs ops). set (e0 := with_scratch _ _).
  assert (unaffected e e0) as Hun0 by by apply unaffected_scratch, unaffected_scratch.
  destruct (find_duplicate None (sort_keys (key_refs ops))) as [i |] eqn:Hdup.
  { apply find_duplicate_Some in Hdup as (x & Hx & <- & _). unfold sort_keys in Hx.
    rewrite stable_sort_perm in Hx. apply list_elem_of_lookup in Hx as [j Hx].
    rewrite key_refs_lookup in Hx. destruct (ops !! j) as [op |] eqn:Hop; [| done].
    injection Hx as <-. wp_step. apply (wp_lift _ op); [by apply at_lookup |].
    apply wp_return. split_and!; [done | apply Hun0 | done]. }
  assert (ready e0 ops) as Hready.
  { apply (ready_checked e2); try done; [apply Hun |]. apply (ua_inv _ _ Hun); [done | exact Hcycle]. }
  wp_step. apply wp_guarded.
  eapply wp_mono; [by apply wp_reserve_and_publish | |].
  - intros r s (Ho & Hg & l & P & Htx).
    destruct (abort_undone e0 s l P (y_inv _ _ Hready) Htx) as [Hu Hi].
    split_and!; [done | rewrite Hg; apply Hun0 | by eapply unaffected_undone].
  - intros [[fp ks] r] ep (d & er & ew & e1' & dn & Hc).
    eapply wp_mono; [by eapply (wp_commit e0 ops Hready) | |].
    { simpl. intros r' s'. exact id. }
    intros res e' [Hcs ->]. split_and!; [done | done | done | |].
    + intros g ->. apply bool_decide_eq_false in Hexp. apply dec_stable in Hexp.
      rewrite Hexp. apply Hun.
    + by eapply published_effect.
Qed.

(** ** The public calls *)

Lemma inv_counts cs busy e : inv e -> inv (with_counts cs busy e).
Proof. intros [Hi He Hr Hu Hb]. constructor; try done. by apply (bookkeeping_ext e). Qed.

Lemma Counted_state r on_busy e : ∃ cs busy, Counted r on_busy e = with_counts cs busy e.
Proof. unfold Counted. destruct (outcome r), on_busy; eauto. Qed.

Lemma unaffected_counts cs busy e e' : unaffected e e' -> unaffected e (with_counts cs busy e').
Proof. intros []. constructor; simpl; try done. by apply inv_counts. Qed.

Lemma took_effect_counts cs busy ops e e' :
  took_effect ops e e' -> took_effect ops e (with_counts cs busy e').
Proof. intros []. constructor; simpl; try done. by apply inv_counts. Qed.

(** What a caller of [Apply] finds. *)
Definition answered ops (expected : option Z) e (r : Result) e' : Prop :=
  (outcome r = kApplied ∧ r_generation r = generation_ e' ∧
   r_ops r = replicate (length ops) (mk_op_result kOpApplied None EmptyString) ∧
   (∀ g, expected = Some g -> g = generation_ e) ∧ took_effect ops e e') ∨
  (outcome r <> kApplied ∧ r_generation r = generation_ e ∧ unaffected e e').

Lemma finish_answered ops expected consistency owned on_busy e :
  inv e -> (∀ d, retire_budget d < 2 ^ 31) -> Z.of_nat (length ops) < 2 ^ 24 ->
  ∃ r e1, finish (ApplyImpl ops expected consistency owned) e = Ret (r, e1) ∧
    answered ops expected e r (Counted r on_busy e1).
Proof.
  intros Hinv Hbud Hfew.
  destruct (wp_finish (ApplyImpl ops expected consistency owned)
              (fun r e1 => answered ops expected e r e1) e) as (r & e1 & Hf & Ha).
  { eapply wp_mono; [by apply wp_ApplyImpl | |].
    - intros r e1 H. by right.
    - intros r e1 H. by left. }
  exists r, e1. split; [done |]. destruct (Counted_state r on_busy e1) as (cs & busy & ->).
  destruct Ha as [(H1 & H2 & H3 & H4 & H5) | (H1 & H2 & H3)]; [left | right].
  - split_and!; [done.. | by apply took_effect_counts].
  - split_and!; [done.. | by apply unaffected_counts].
Qed.

Lemma Apply_answered ops expected consistency on_busy e :
  inv e -> (∀ d, retire_budget d < 2 ^ 31) -> Z.of_nat (length ops) < 2 ^ 24 ->
  ∃ r e', Apply ops expected consistency on_busy e = Ret (r, e') ∧ answered ops expected e r e'.
Proof.
  intros Hinv Hbud Hfew.
  destruct (finish_answered ops expected consistency None on_busy e) as (r & e1 & Hf & Ha); [done.. |].
  exists r, (Counted r on_busy e1). unfold Apply. by rewrite Hf.
Qed.

Lemma ApplyOwned_answered owned ops e :
  inv e -> (∀ d, retire_budget d < 2 ^ 31) -> Z.of_nat (length ops) < 2 ^ 24 ->
  ∃ r e', ApplyOwned owned ops e = Ret (r, e') ∧ answered ops None e r e'.
Proof.
  intros Hinv Hbud Hfew.
  destruct (finish_answered ops None kReferential (Some owned) kAnswer e) as (r & e1 & Hf & Ha); [done.. |].
  exists r, (Counted r kAnswer e1). unfold ApplyOwned. by rewrite Hf.
Qed.

(** C1. All or nothing. From a state that satisfies the engine's invariant,
    [Apply] always returns, without a failed CHECK or undefined behaviour.
    Either the outcome is kApplied, every upserted key exists and every erased
    key does not, every other key of every registered resource is as before,
    and the generation has advanced by one (a 64-bit counter); or the outcome
    is another one and the committed contents of every resource and the
    generation are exactly those before the call. The generation returned is
    the engine's generation afterwards. *)
Theorem apply_all_or_nothing ops expected consistency on_busy e :
  inv e -> (∀ d, retire_budget d < 2 ^ 31) -> Z.of_nat (length ops) < 2 ^ 24 ->
  ∃ r e', Apply ops expected consistency on_busy e = Ret (r, e') ∧
    r_generation r = generation_ e' ∧
    ((outcome r = kApplied ∧ generation_ e' = wrap 64 (generation_ e + 1) ∧
      ∀ n reg, resources_ e !! n = Some reg ->
        operated ops n (committed (world_ e) (resource reg)) (committed (world_ e') (resource reg))) ∨
     (outcome r <> kApplied ∧ generation_ e' = generation_ e ∧
      ∀ rid, committed (world_ e') rid = committed (world_ e) rid)).
Proof.
  intros Hinv Hbud Hfew.
  destruct (Apply_answered ops expected consistency on_busy e) as (r & e' & Hap & Ha); [done.. |].
  exists r, e'. split; [done |]. destruct Ha as [(H1 & H2 & _ & _ & H5) | (H1 & H2 & H3)].
  - split; [done |]. left. split_and!; [done | apply H5 | apply H5].
  - split; [by rewrite H2, (ua_generation _ _ H3) |]. right. split_and!; [done | apply H3 | apply H3].
Qed.

(** C2. Publication never dangles. If every key a committed value references
    exists before a transaction, then it does afterwards, whatever the outcome,
    and it does in every intermediate state the call makes visible to packet
    workers: publications one by one, removal steps of earlier transactions
    included. *)
Theorem apply_never_dangles ops expected consistency on_busy e r e' :
  inv e -> (∀ d, retire_budget d < 2 ^ 31) -> Z.of_nat (length ops) < 2 ^ 24 ->
  Apply ops expected consistency on_busy e = Ret (r, e') ->
  sound (resources_ e) (world_ e) false ->
  sound (resources_ e') (world_ e') false ∧
  ∃ evs, trace e' = trace e ++ evs ∧ ∀ w, EvWorld w ∈ evs -> sound (resources_ e) w true.
Proof.
  intros Hinv Hbud Hfew Hap Hs.
  destruct (Apply_answered ops expected consistency on_busy e) as (r0 & e0 & Hap0 & Ha); [done.. |].
  rewrite Hap in Hap0. injection Hap0 as <- <-.
  destruct Ha as [(_ & _ & _ & _ & H5) | (_ & _ & [_ _ Hc Hh Hg (evs & Ht & Hq)])].
  - split; [by apply H5 | by apply (te_seen _ _ _ H5)].
  - split; [by eapply sound_ext |]. exists evs. split; [done |]. intros w Hw.
    rewrite Forall_forall in Hq. by eapply (sound_quiet (resources_ e) _ (world_ e)); [| by apply Hq |].
Qed.

(** C10. Optimistic concurrency. A transaction applies only against the
    generation it expects, and once one has applied, another that expects the
    same generation does not: of two writers that read the same state, at most
    one succeeds. *)
Theorem apply_expected_generation ops ops' g consistency on_busy e r e' :
  inv e -> (∀ d, retire_budget d < 2 ^ 31) -> Z.of_nat (length ops) < 2 ^ 24 ->
  Z.of_nat (length ops') < 2 ^ 24 -> 0 <= generation_ e < 2 ^ 64 ->
  Apply ops (Some g) consistency on_busy e = Ret (r, e') -> outcome r = kApplied ->
  g = generation_ e ∧
  ∃ r' e'', Apply ops' (Some g) consistency on_busy e' = Ret (r', e'') ∧ outcome r' <> kApplied ∧
    ∀ rid, committed (world_ e'') rid = committed (world_ e') rid.
Proof.
  intros Hinv Hbud Hfew Hfew' Hgen Hap Hok.
  destruct (Apply_answered ops (Some g) consistency on_busy e) as (r0 & e0 & Hap0 & Ha); [done.. |].
  rewrite Hap in Hap0. injection Hap0 as <- <-. destruct Ha as [(_ & _ & _ & Hg & H5) | []]; [| done].
  specialize (Hg g eq_refl). split; [done |].
  destruct (Apply_answered ops' (Some g) consistency on_busy e') as (r' & e'' & Hap' & Ha');
    [apply H5 | done.. |].
  exists r', e''. split; [done |]. destruct Ha' as [(_ & _ & _ & Hg' & _) | (Hno & _ & Hua)].
  - specialize (Hg' g eq_refl). rewrite (te_generation _ _ _ H5) in Hg'. exfalso.
    unfold wrap in Hg'. rewrite Hg in Hg'. destruct (decide (generation_ e + 1 = 2 ^ 64)) as [Heq |].
    + rewrite Heq, Z_mod_same_full in Hg'. lia.
    + rewrite Z.mod_small in Hg' by lia. lia.
  - split; [done | apply Hua].
Qed.

(** ** Any sequence of calls *)

(** One call on the engine, or a change of the RCU domain by its readers or its
    other users. A group is unregistered together with the key holders of its
    members. *)
Inductive engine_step : t -> t -> Prop :=
  | st_register e r o e' : Register e r = Ret (o, e') -> engine_step e e'
  | st_unregister e ns o e' :
      holders_inside (resources_ e) ns -> Unregister e ns = Ret (o, e') -> engine_step e e'
  | st_release e ns o e' : ReleaseForTeardown e ns = Ret (o, e') -> engine_step e e'
  | st_apply e ops expected consistency on_busy r e' :
      Z.of_nat (length ops) < 2 ^ 24 ->
      Apply ops expected consistency on_busy e = Ret (r, e') -> engine_step e e'
  | st_apply_owned e owned ops r e' :
      Z.of_nat (length ops) < 2 ^ 24 -> ApplyOwned owned ops e = Ret (r, e') -> engine_step e e'
  | st_reclaim e k e' : ReclaimRetiredLocked e = Ret (k, e') -> engine_step e e'
  | st_advance e : engine_step e (AdvanceGeneration e)
  | st_domain e d : engine_step e (with_domain d e).

Definition reachable w e : Prop := ∃ d, rtc engine_step (Create d w) e.

Lemma inv_create d w : tx w [] ∅ ∅ [] -> inv (Create d w).
Proof.
  intros Htx. constructor; simpl.
  - intros n reg Hn. by rewrite lookup_empty in Hn.
  - intros n reg Hn. by rewrite lookup_empty in Hn.
  - intros _ _ n. unfold Ranks.settled, Ranks.is_rank, Ranks.rank_at. rewrite lookup_empty.
    split_and!; [lia | |].
    + intros b (reg & _ & _ & Hn & _). by rewrite lookup_empty in Hn.
    + by left.
  - intros n reg Hn. by rewrite lookup_empty in Hn.
  - constructor; simpl; [done | constructor | done |]. intros n reg Hn. by rewrite lookup_empty in Hn.
Qed.

Lemma inv_answered ops expected e r e' : answered ops expected e r e' -> inv e'.
Proof. intros [(_ & _ & _ & _ & H) | (_ & _ & H)]; apply H. Qed.

Lemma engine_inv_step e e' : (∀ d, retire_budget d < 2 ^ 31) -> inv e -> engine_step e e' -> inv e'.
Proof.
  intros Hbud Hinv Hs. destruct Hs as [e r o e' H | e ns o e' Hh H | e ns o e' H
    | e ops expected consistency on_busy r e' Hf H | e owned ops r e' Hf H | e k e' H | e | e d].
  - destruct (inv_register e r Hinv) as (o' & e1 & H' & Hi & _). congruence.
  - destruct (inv_unregister e ns Hinv) as (o' & e1 & H' & _ & _ & _ & Hi).
    rewrite H in H'. injection H' as _ <-. by apply Hi.
  - destruct (inv_release e ns Hinv) as (o' & e1 & H' & Hi & _). congruence.
  - destruct (Apply_answered ops expected consistency on_busy e) as (r' & e1 & H' & Ha); [done.. |].
    rewrite H in H'. injection H' as <- <-. by eapply inv_answered.
  - destruct (ApplyOwned_answered owned ops e) as (r' & e1 & H' & Ha); [done.. |].
    rewrite H in H'. injection H' as <- <-. by eapply inv_answered.
  - destruct (inv_reclaim e Hinv) as (k' & e1 & H' & Hi & _). congruence.
  - destruct Hinv as [Hi He Hr Hu Hb]. constructor; try done. by apply (bookkeeping_ext e).
  - by apply inv_with_domain.
Qed.

Lemma inv_reachable w e :
  (∀ d, retire_budget d < 2 ^ 31) -> tx w [] ∅ ∅ [] -> reachable w e -> inv e.
Proof.
  intros Hbud Htx (d & Hr). pose proof (inv_create d w Htx) as Hi.
  induction Hr as [e | e e1 e2 Hs _ IH]; [done |]. apply IH. by eapply engine_inv_step.
Qed.



(** ** Batches *)

(** [ops] applied as a sequence of transactions. *)
Inductive in_batches : list (Op value) -> t -> t -> Prop :=
  | ib_nil e e' : unaffected e e' -> in_batches [] e e'
  | ib_wait ops e e1 e' : unaffected e e1 -> in_batches ops e1 e' -> in_batches ops e e'
  | ib_cons b ops e e1 e' :
      b <> [] -> took_effect b e e1 -> in_batches ops e1 e' -> in_batches (b ++ ops) e e'.

Lemma FitBatch_pos d r n : (1 <= n)%nat -> (1 <= FitBatch d r n)%nat.
Proof. intros Hn. unfold FitBatch. destruct (over_budget r); [lia |]. destruct (_ && _); lia. Qed.

Lemma FitBatch_halves d r n : over_budget r = true -> (1 < n)%nat -> (FitBatch d r n < n)%nat.
Proof.
  intros Hr Hn. unfold FitBatch. rewrite Hr. pose proof (Nat.div_lt n 2). lia.
Qed.

(** The retry loop ends with the same operations still ahead: what was busy or
    too large changed nothing. *)
Lemma apply_batch_spec fuel ops consistency n retry e :
  inv e -> (∀ d, retire_budget d < 2 ^ 31) -> Z.of_nat (length ops) < 2 ^ 24 -> ops <> [] ->
  (1 <= n)%nat -> (5 - retry + n < fuel)%nat ->
  ∃ r n' applied e', apply_batch fuel ops consistency n retry e = Ret (r, n', applied, e') ∧
    (1 <= n' <= n)%nat ∧ applied = bool_decide (outcome r = kApplied) ∧
    if applied then ∃ e1, inv e1 ∧ unaffected e e1 ∧ took_effect (take n' ops) e1 e'
    else unaffected e e'.
Proof.
  intros Hinv Hbud Hfew Hne. revert n retry e Hinv.
  induction fuel as [| fuel IH]; intros n retry e Hinv Hn Hfuel; [lia |]. simpl.
  destruct (Apply_answered (take n ops) None consistency kAnswer e) as (r & e1 & -> & Ha);
    [done | done | rewrite length_take; lia |]. simpl.
  destruct Ha as [(Hok & _ & _ & _ & Hte) | (Hno & _ & Hua)].
  { rewrite bool_decide_eq_true_2 by done. exists r, n, true, e1.
    rewrite bool_decide_eq_true_2 by done. split_and!; [done | lia | lia | done |].
    exists e. split_and!; [done | | done]. constructor; try done. exists []. by rewrite app_nil_r. }
  rewrite (bool_decide_eq_false_2 (outcome r = kApplied)) by done.
  assert (∀ n2 retry2, (1 <= n2 <= n)%nat -> (5 - retry2 + n2 < fuel)%nat ->
    ∃ r n' applied e', apply_batch fuel ops consistency n2 retry2 e1 = Ret (r, n', applied, e') ∧
      (1 <= n' <= n)%nat ∧ applied = bool_decide (outcome r = kApplied) ∧
      if applied then ∃ e2, inv e2 ∧ unaffected e e2 ∧ took_effect (take n' ops) e2 e'
      else unaffected e e') as Hagain.
  { intros n2 retry2 Hn2 Hf2.
    destruct (IH n2 retry2 e1) as (r' & n' & applied & e' & -> & Hn' & Happ & Hpost);
      [apply Hua | lia | done |].
    exists r', n', applied, e'. split_and!; [done | lia | lia | done |]. destruct applied.
    - destruct Hpost as (e2 & Hi2 & Hu2 & Ht2). exists e2. split_and!; [done | | done].
      by eapply unaffected_trans.
    - by eapply unaffected_trans. }
  destruct (bool_decide (outcome r = kBusy) && bool_decide (retry < 5)%nat) eqn:Hbusy.
  { apply andb_true_iff in Hbusy as [_ Hr%bool_decide_eq_true]. apply Hagain; lia. }
  destruct (bool_decide (outcome r = kRejected) && over_budget r && bool_decide (1 < n)%nat) eqn:Hover.
  { apply andb_true_iff in Hover as [[_ Ho]%andb_true_iff H1%bool_decide_eq_true].
    pose proof (FitBatch_pos (domain_ e1) r n Hn). pose proof (FitBatch_halves (domain_ e1) r n Ho H1).
    apply Hagain; lia. }
  eexists _, n, false, e1. split_and!; [done | lia | lia | | done]. simpl.
  by rewrite bool_decide_eq_false_2.
Qed.

Lemma unaffected_refl e : inv e -> unaffected e e.
Proof. intros Hinv. constructor; try done. exists []. by rewrite app_nil_r. Qed.

Lemma apply_batches_spec fuel ops consistency n last e :
  inv e -> (∀ d, retire_budget d < 2 ^ 31) -> Z.of_nat (length ops) < 2 ^ 24 ->
  (1 <= n)%nat -> (length ops < fuel)%nat -> (ops = [] -> outcome last = kApplied) ->
  ∃ r e' m, apply_batches fuel ops consistency n last e = Ret (r, e') ∧ (m <= length ops)%nat ∧
    in_batches (take m ops) e e' ∧ (outcome r = kApplied <-> m = length ops).
Proof.
  intros Hinv Hbud. revert ops n last e Hinv.
  induction fuel as [| fuel IH]; intros ops n last e Hinv Hfew Hn Hfuel Hlast; [lia |]. simpl.
  destruct (decide (ops = [])) as [-> | Hne].
  { exists last, e, 0%nat. split_and!; [done | done | constructor; by apply unaffected_refl |].
    split; [done | by intros _; apply Hlast]. }
  assert (1 <= length ops)%nat as Hlen by (destruct ops; [done | simpl; lia]).
  set (n1 := (n `min` length ops)%nat).
  destruct (apply_batch_spec (batch_fuel n1) ops consistency n1 0 e)
    as (r & n' & applied & e1 & Hb & [Hn1 Hn2] & Happ & Hpost);
    [done | done | done | done | lia | unfold batch_fuel; lia |].
  assert (∀ (A : Type) (x y : A), match ops with [] => x | _ :: _ => y end = y) as Hops
    by (by destruct ops).
  rewrite Hops, Hb. simpl. subst applied. case_bool_decide as Hok.
  - destruct Hpost as (e2 & Hi2 & Hu2 & Ht2).
    destruct (IH (drop n' ops) (FitBatch (domain_ e1) r n') r e1)
      as (r' & e' & m & -> & Hm & Hin & Hiff).
    + apply Ht2.
    + rewrite length_drop. lia.
    + by apply FitBatch_pos.
    + rewrite length_drop. lia.
    + done.
    + rewrite length_drop in Hm, Hiff. exists r', e', (n' + m)%nat. split_and!; [done | lia | |].
      * rewrite <- take_take_drop. eapply ib_wait; [exact Hu2 |].
        eapply ib_cons; [| exact Ht2 | exact Hin]. by destruct ops, n'; [| | lia |].
      * rewrite Hiff. lia.
  - exists r, e1, 0%nat. split_and!; [done | lia | by constructor |]. split; [done | lia].
Qed.

(** C13. Batched application. [ApplyBatched] always returns: its retry and
    halving loops end. What it applied is a prefix of the request, in order,
    as consecutive transactions each of which took effect entirely, and it
    answers kApplied exactly when that prefix is the whole request. *)
Theorem apply_batched_prefix ops consistency e :
  inv e -> (∀ d, retire_budget d < 2 ^ 31) -> Z.of_nat (length ops) < 2 ^ 24 ->
  ∃ r e' m, ApplyBatched ops consistency e = Ret (r, e') ∧ (m <= length ops)%nat ∧
    in_batches (take m ops) e e' ∧ (outcome r = kApplied <-> m = length ops).
Proof.
  intros Hinv Hbud Hfew. unfold ApplyBatched. destruct ops as [| op ops].
  - eexists _, e, 0%nat. split_and!; [done | done | constructor; by apply unaffected_refl | done].
  - apply apply_batches_spec; [done | done | done | simpl; lia | simpl; lia | done].
Qed.

End Promises.

End Promises.
