(* ===== verification/Instances.v ===== *)
(** * Concrete instances

    The engine over the RCU domain of [Rcu.v] ([rcu_domain]), a QSBR variable
    that keeps DPDK's documented promises ([counters]), an allocator, and slot
    resources with fresh tables: what the theorems' classes and hypotheses ask
    for, in a form that runs. *)

From S2P Require Import Prelude SlotTable Rcu RcuTheorems Resource SlotResource SlotLaws.
From S2P Require Import Engine.
Open Scope Z_scope.

Module Inst.
Import Res.

(** ** The engine's view of [RcuDomain] *)

Section RcuDomain.
Context {QS : Rcu.Qsbr} {RS : Res.Resources} (hw : Z).

(** An [RcuDomain] without a memory-growth hook, whose owners are the
    resources. *)
#[export] Instance rcu_domain : Res.Domain := {|
  Res.domain := Rcu.t Res.object Res.rid;
  Res.retire_high_water := fun _ => hw;
  Res.pending_retired := Rcu.pending_count_;
  Res.IsComplete := Rcu.IsComplete;
  Res.StartGracePeriod := Rcu.StartGracePeriod;
  Res.ReserveRetirements := fun d n =>
    default d (Rcu.ReserveRetirements (fun _ => true) d (Z.to_nat n));
  Res.DomainRetire := fun d token o r => Rcu.RetireErased hw d token o (Some r);
  Res.ReclaimReady := fun d => (Rcu.ReclaimReady d).2;
  Res.outstanding := fun d r => default 0 (Rcu.outstanding_ d !! r)
|}.

End RcuDomain.

(** ** A QSBR variable *)

(** The token counter, and for each registered reader how many grace periods
    started since it last reported; [None] is offline. *)
Record counters := mk_counters { q_token : Z; q_lag : gmap nat (option nat) }.

Definition lag_of (q : counters) (i : nat) : option nat := q_lag q !! i ≫= id.

#[export] Instance counters_qsbr : Rcu.Qsbr := {|
  Rcu.qsbr := counters;
  Rcu.qsbr_init := fun _ => mk_counters 1 ∅;
  Rcu.qsbr_thread_register := fun q i =>
    (true, mk_counters (q_token q)
             (match q_lag q !! i with Some _ => q_lag q | None => <[i := None]> (q_lag q) end));
  Rcu.qsbr_thread_unregister := fun q i => mk_counters (q_token q) (delete i (q_lag q));
  Rcu.qsbr_thread_online := fun q i => mk_counters (q_token q) (<[i := Some 0%nat]> (q_lag q));
  Rcu.qsbr_thread_offline := fun q i => mk_counters (q_token q) (<[i := None]> (q_lag q));
  Rcu.qsbr_quiescent := fun q i =>
    mk_counters (q_token q) (alter (fun _ => Some 0%nat) i (q_lag q));
  Rcu.qsbr_start := fun q =>
    (q_token q + 1, mk_counters (q_token q + 1) (option_map S <$> q_lag q));
  Rcu.qsbr_check := fun q t =>
    (forallb (fun x => match x.2 with
                       | Some lag => bool_decide (t <= q_token q - Z.of_nat lag)
                       | None => true
                       end) (map_to_list (q_lag q)), q);
  Rcu.qsbr_wait := fun q t => mk_counters (q_token q) (option_map (fun _ => 0%nat) <$> q_lag q)
|}.

#[export] Instance counters_view : Rcu.QsbrView := {|
  Rcu.issued := q_token;
  Rcu.active := fun q i => is_Some (lag_of q i);
  Rcu.waiting := fun q t i => ∃ lag, lag_of q i = Some lag ∧ q_token q - Z.of_nat lag < t
|}.

Lemma lag_fmap (f : nat -> nat) n q i :
  lag_of (mk_counters n (option_map f <$> q_lag q)) i = f <$> lag_of q i.
Proof. unfold lag_of. simpl. rewrite lookup_fmap. by destruct (q_lag q !! i) as [[] |]. Qed.

Lemma others_lag i q (m : gmap nat (option nat)) :
  (∀ j, j <> i -> m !! j = q_lag q !! j) -> Rcu.others_keep i q (mk_counters (q_token q) m).
Proof.
  intros Hm. split; [done |]. intros j Hj. simpl. unfold lag_of. simpl. by rewrite (Hm j Hj).
Qed.

Lemma reports_lag i q (m : gmap nat (option nat)) :
  (∀ j, j <> i -> m !! j = q_lag q !! j) ->
  (∀ lag, lag_of (mk_counters (q_token q) m) i = Some lag -> lag = 0%nat) ->
  Rcu.reports i q (mk_counters (q_token q) m).
Proof.
  intros Hm Hi. split; [by apply others_lag |]. simpl. intros t Ht (lag & Hl & Hlt).
  apply Hi in Hl as ->. simpl in Hlt. lia.
Qed.

#[export] Instance counters_laws : Rcu.QsbrLaws.
Proof.
  split; simpl.
  - intros _. lia.
  - intros q i. apply others_lag. intros j Hj. destruct (q_lag q !! i); [done |].
    by rewrite lookup_insert_ne.
  - intros q i. unfold lag_of. simpl. rewrite lookup_delete_eq. simpl. split; [| by intros []].
    apply reports_lag; [intros j Hj; by rewrite lookup_delete_ne |].
    unfold lag_of. simpl. by rewrite lookup_delete_eq.
  - intros q i. split.
    + apply reports_lag; [intros j Hj; by rewrite lookup_insert_ne |].
      unfold lag_of. simpl. rewrite lookup_insert_eq. by intros lag [= <-].
    + unfold lag_of. simpl. by rewrite lookup_insert_eq.
  - intros q i. unfold lag_of. simpl. rewrite lookup_insert_eq. simpl. split; [| by intros []].
    apply reports_lag; [intros j Hj; by rewrite lookup_insert_ne |].
    unfold lag_of. simpl. by rewrite lookup_insert_eq.
  - intros q i. split.
    + apply reports_lag; [intros j Hj; by rewrite lookup_alter_ne |].
      unfold lag_of. simpl. rewrite lookup_alter_eq. destruct (q_lag q !! i); [| done]. by intros lag [= <-].
    + unfold lag_of. simpl. rewrite lookup_alter_eq. by destruct (q_lag q !! i).
  - intros q t q' [= <- <-]. simpl. split_and!; [done | done | | |].
    + intros i. rewrite lag_fmap. split.
      * intros (lag & Hl & _). by destruct (lag_of q i).
      * intros [lag ->]. exists (S lag). split; [done | lia].
    + intros i. rewrite lag_fmap. by rewrite fmap_is_Some.
    + intros u i Hu. rewrite lag_fmap. split.
      * intros (lag & Hl & Hlt). apply fmap_Some in Hl as (lag' & -> & ->). exists lag'. split; [done | lia].
      * intros (lag & -> & Hlt). exists (S lag). split; [done | lia].
  - intros q t b q' [= <- <-]. split_and!; try done. intros Ht. rewrite forallb_forall. split.
    + intros Hall i (lag & Hl & Hlt). unfold lag_of in Hl.
      destruct (q_lag q !! i) as [[l |] |] eqn:Hi; try done. injection Hl as ->.
      apply elem_of_map_to_list, list_elem_of_In, Hall in Hi. simpl in Hi.
      apply bool_decide_eq_true in Hi. lia.
    + intros Hno [i [lag |]] Hin; [| done].
      apply list_elem_of_In, elem_of_map_to_list in Hin. apply bool_decide_eq_true. simpl. destruct (decide (t <= q_token q - Z.of_nat lag)); [done |].
      destruct (Hno i). exists lag. unfold lag_of. rewrite Hin. split; [done | lia].
  - intros q t Ht. split; [lia |]. intros i. rewrite lag_fmap. intros (lag & Hl & Hlt).
    apply fmap_Some in Hl as (_ & _ & ->). lia.
  - intros q t u i Htu (lag & Hl & Hlt). exists lag. split; [done | lia].
  - intros q t i _ (lag & Hl & _). by eexists.
Qed.

(** ** The allocator *)

#[export] Instance memory : Eng.Memory := {|
  Eng.hash_order := elements;
  Eng.address := fun n => Zpos (encode n);
  Eng.hash_order_perm := fun names => Permutation_refl _
|}.

End Inst.
