(* ===== verification/Witness.v ===== *)
(** * A running system

    Slot resources "z" -> "x" -> "y" under the transaction engine and an RCU
    domain, driven through registrations and transactions: the theorems'
    hypotheses hold of it, and the states it passes through are computed. *)

From S2P Require Import Prelude SlotTable Rcu RcuTheorems RcuSafety Resource SlotResource.
From S2P Require Import SlotLaws.
From S2P Require Import Engine EngineRanks EngineRegistry EngineInv EngineSound EngineTheorems.
From S2P Require Import Instances.
Open Scope Z_scope.

Module Demo.
Import Res Eng Inst.

(** ** The system *)

(** A value is the list of references it holds. *)
Definition demo_references (_ : string) (v : list Reference) : list Reference := v.
Definition demo_may_reference (r : string) : list string :=
  if decide (r = "x"%string) then ["y"%string]
  else if decide (r = "z"%string) then ["x"%string]
  else if decide (r = "a"%string) then ["b"%string]
  else if decide (r = "b"%string) then ["a"%string] else [].

#[export] Instance demo_resources : Resources := SlotLaws.slots 1 demo_references demo_may_reference.
#[export] Instance demo_view : ResourceView := SlotLaws.slot_view 1 demo_references demo_may_reference.
#[export] Instance demo_laws : ResourceLaws := SlotLaws.slot_laws 1 demo_references demo_may_reference.
#[export] Instance demo_domain : Domain := rcu_domain 64.

Definition key (i : nat) : string := SlotRes.EncodeKey 1 i.
Definition refers (r : string) (i : nat) : list Reference := [mk_ref r (key i)].

(** The state after a call that returns. *)
Definition after {A} (m : run (A * t)) (e : t) : t :=
  match m with Ret (_, e') => e' | _ => e end.

Definition returned {A} (m : run (A * t)) : bool :=
  match m with Ret _ => true | _ => false end.

Lemma returned_after {A} (m : run (A * t)) e : returned m = true -> ∃ a, m = Ret (a, after m e).
Proof. destruct m as [[a e'] | |]; [| done..]. intros _. by exists a. Qed.

Definition world0 : world := fun _ => Slot.Create 0 4.
Definition domain0 : domain :=
  match Rcu.Create 4 with
  | Ret d => d
  | _ => Rcu.mk (mk_counters 1 ∅) [] [] 0 [] 0 0 0 (Rcu.mk_stats 0 0 0 0 0 0) ∅ []
  end.

Definition register (r : string) (e : t) : t := after (Register e r) e.
Definition apply_ (ops : list (Op value)) (e : t) : t :=
  after (Apply ops None kReferential kAnswer e) e.

Definition engine0 : t := Create domain0 world0.
Definition engine1 : t := register "z" (register "x" (register "y" engine0)).

Definition chain_ops : list (Op value) :=
  [Upsert "z" (key 1) (SlotRes.AnyT (refers "x" 1));
   Upsert "y" (key 1) (SlotRes.AnyT []);
   Upsert "x" (key 1) (SlotRes.AnyT (refers "y" 1))].

Definition engine2 : t := apply_ chain_ops engine1.

(** ** Reachability *)

Lemma budget_small (d : domain) : retire_budget d < 2 ^ 31.
Proof. reflexivity. Qed.

Lemma world0_tx : tx world0 [] ∅ ∅ [].
Proof. by apply SlotLaws.slot_tx_create; vm_compute. Qed.

(** A run of calls, each of which returned. *)
Lemma step_register r e :
  returned (Register e r) = true -> Promises.engine_step e (register r e).
Proof.
  intros Hr. destruct (returned_after _ e Hr) as [o Ho]. by apply (Promises.st_register e r o).
Qed.

Lemma step_apply ops e :
  Z.of_nat (length ops) < 2 ^ 24 -> returned (Apply ops None kReferential kAnswer e) = true ->
  Promises.engine_step e (apply_ ops e).
Proof.
  intros Hl Hr. destruct (returned_after _ e Hr) as [o Ho].
  by apply (Promises.st_apply e ops None kReferential kAnswer o).
Qed.

Lemma engine1_reachable : Promises.reachable world0 engine1.
Proof.
  exists domain0. eapply rtc_l; [apply (step_register "y"); by vm_compute |].
  eapply rtc_l; [apply (step_register "x"); by vm_compute |].
  eapply rtc_l; [apply (step_register "z"); by vm_compute | done].
Qed.

Lemma engine2_reachable : Promises.reachable world0 engine2.
Proof.
  destruct engine1_reachable as [d Hd]. exists d. eapply rtc_r; [exact Hd |].
  apply step_apply; by vm_compute.
Qed.

Lemma engine1_inv : Inv.inv engine1.
Proof. exact (Promises.inv_reachable world0 engine1 budget_small world0_tx engine1_reachable). Qed.

Lemma engine2_inv : Inv.inv engine2.
Proof. exact (Promises.inv_reachable world0 engine2 budget_small world0_tx engine2_reachable). Qed.

(** ** The engine's theorems at this system *)

(** Erasing "y" while "x" refers to it is refused, and nothing changes. *)
Definition bad_ops : list (Op value) := [Erase "z" (key 1); Erase "y" (key 1)].

Lemma apply_all_or_nothing_witness :
  Inv.inv engine2 ∧
  ∃ r e', Apply bad_ops None kReferential kAnswer engine2 = Ret (r, e') ∧
    r_generation r = generation_ e' ∧
    ((outcome r = kApplied ∧ generation_ e' = wrap 64 (generation_ engine2 + 1) ∧
      ∀ n reg, resources_ engine2 !! n = Some reg ->
        Promises.operated bad_ops n (committed (world_ engine2) (resource reg))
          (committed (world_ e') (resource reg))) ∨
     (outcome r <> kApplied ∧ generation_ e' = generation_ engine2 ∧
      ∀ rid, committed (world_ e') rid = committed (world_ engine2) rid)).
Proof.
  split; [exact engine2_inv |].
  apply (Promises.apply_all_or_nothing bad_ops None kReferential kAnswer engine2);
    [exact engine2_inv | exact budget_small | reflexivity].
Defined.

Definition applied (m : run (Result * t)) : bool :=
  match m with Ret (r, _) => bool_decide (outcome r = kApplied) | _ => false end.

Lemma applied_after m e :
  applied m = true -> ∃ r, m = Ret (r, after m e) ∧ outcome r = kApplied.
Proof. destruct m as [[r e'] | |]; [| done..]. intros H. exists r. by apply bool_decide_eq_true in H. Qed.

Lemma engine1_sound : Sound.sound (resources_ engine1) (world_ engine1) false.
Proof.
  intros h k. assert (Registry.ledger (resources_ engine1) (world_ engine1) false h k = 0%nat) as ->
    by (vm_compute; reflexivity).
  lia.
Qed.

Lemma apply_never_dangles_witness :
  Sound.sound (resources_ engine1) (world_ engine1) false ∧
  Sound.sound (resources_ engine2) (world_ engine2) false ∧
  ∃ evs, trace engine2 = trace engine1 ++ evs ∧
    ∀ w, EvWorld w ∈ evs -> Sound.sound (resources_ engine1) w true.
Proof.
  destruct (returned_after (Apply chain_ops None kReferential kAnswer engine1) engine1) as [r Hr];
    [by vm_compute |].
  split; [exact engine1_sound |].
  apply (Promises.apply_never_dangles chain_ops None kReferential kAnswer engine1 r engine2);
    [exact engine1_inv | exact budget_small | reflexivity | exact Hr | exact engine1_sound].
Defined.

Lemma engine1_generation : 0 <= generation_ engine1 < 2 ^ 64.
Proof. vm_compute. split; [discriminate | reflexivity]. Qed.

Lemma apply_expected_generation_witness :
  applied (Apply chain_ops (Some 0) kReferential kAnswer engine1) = true ∧
  ∃ r' e'', Apply bad_ops (Some 0) kReferential kAnswer
              (after (Apply chain_ops (Some 0) kReferential kAnswer engine1) engine1) = Ret (r', e'') ∧
    outcome r' <> kApplied.
Proof.
  destruct (applied_after (Apply chain_ops (Some 0) kReferential kAnswer engine1) engine1) as [r [Hr Ho]];
    [by vm_compute |].
  split; [by vm_compute |].
  destruct (Promises.apply_expected_generation chain_ops bad_ops 0 kReferential kAnswer engine1 r _
    engine1_inv budget_small eq_refl eq_refl engine1_generation Hr Ho) as (_ & r' & e'' & H1 & H2 & _).
  exists r', e''. split; [exact H1 | exact H2].
Defined.

Lemma x_registered : bool_decide (is_Some (resources_ engine2 !! "x"%string)) = true.
Proof. by vm_compute. Qed.



Lemma apply_batched_prefix_witness :
  Inv.inv engine1 ∧
  ∃ r e' m, ApplyBatched chain_ops kReferential engine1 = Ret (r, e') ∧ (m <= length chain_ops)%nat ∧
    Promises.in_batches (take m chain_ops) engine1 e' ∧
    (outcome r = kApplied <-> m = length chain_ops).
Proof.
  split; [exact engine1_inv |].
  apply (Promises.apply_batched_prefix chain_ops kReferential engine1);
    [exact engine1_inv | exact budget_small | reflexivity].
Defined.

(** The registry of [engine1] before its ranks are computed. *)
Definition unranked : t := with_ranks true false engine1.

Lemma with_ranks_closed dirty cycle e :
  Ranks.closed (resources_ e) -> Ranks.closed (resources_ (with_ranks dirty cycle e)).
Proof. done. Qed.

Lemma unranked_closed : Ranks.closed (resources_ unranked).
Proof. exact (with_ranks_closed true false engine1 (Registry.reg_inv_closed _ (Inv.i_reg _ engine1_inv))). Qed.

Lemma unranked_run :
  match RecomputeRanksLocked unranked with
  | Ret e' => bool_decide (Ranks.rank_at (resources_ e') "z" = 2) && negb (reference_cycle_ e')
  | _ => false
  end = true.
Proof. vm_compute. reflexivity. Qed.

Lemma ranks_witness :
  ranks_dirty_ unranked = true ∧
  ∃ e', RecomputeRanksLocked unranked = Ret e' ∧ Ranks.rank_at (resources_ e') "z" = 2 ∧
    Ranks.chain (resources_ unranked) 2 "z" ∧ ¬ Ranks.chain (resources_ unranked) 3 "z".
Proof.
  split; [reflexivity |].
  destruct (Ranks.ranks_are_longest_chains unranked) as (e' & H1 & _ & H3 & H4);
    [exact unranked_closed | reflexivity |].
  exists e'. split; [exact H1 |].
  pose proof unranked_run as Hrun. rewrite H1 in Hrun.
  apply andb_true_iff in Hrun as [Hz Hc]. apply bool_decide_eq_true in Hz.
  apply negb_true_iff in Hc.
  split; [exact Hz |]. apply (H4 Hc "z"%string 2%nat). exact Hz.
Defined.

(** ** What the engine does not prevent *)

Definition quiesce (e : t) : t := with_domain (Rcu.Quiescent 4 (domain_ e) 0) e.

(** A packet worker is online; a first transaction erases "z" and "x", a second
    one "y". *)
Definition engine1r : t :=
  with_domain (Rcu.Online 4 (Rcu.Register 4 (domain_ engine1) 0).2 0) engine1.
Definition engine2r : t := apply_ chain_ops engine1r.
Lemma engine1r_step : Promises.engine_step engine1 engine1r.
Proof. exact (Promises.st_domain engine1 _). Qed.
Lemma engine2r_step : Promises.engine_step engine1r engine2r.
Proof. apply (step_apply chain_ops engine1r); vm_compute; reflexivity. Qed.

Definition erased1 : t := apply_ [Erase "z" (key 1); Erase "x" (key 1)] engine2r.
Definition engine3r : t := apply_ [Erase "y" (key 1)] erased1.
Definition engine4r : t := after (ReclaimRetiredLocked (quiesce engine3r)) engine3r.

Lemma erased1_step : Promises.engine_step engine2r erased1.
Proof. apply (step_apply _ engine2r); vm_compute; reflexivity. Qed.
Lemma engine3r_step : Promises.engine_step erased1 engine3r.
Proof. apply (step_apply _ erased1); vm_compute; reflexivity. Qed.

Lemma engine3r_reachable : Promises.reachable world0 engine3r.
Proof.
  destruct engine1_reachable as [d Hd]. exists d.
  eapply rtc_r; [| exact engine3r_step]. eapply rtc_r; [| exact erased1_step].
  eapply rtc_r; [| exact engine2r_step]. eapply rtc_r; [exact Hd | exact engine1r_step].
Qed.


(** Two resources that may reference each other, registered and withdrawn. *)
Definition cycle1 : t :=
  apply_ [Upsert "y" (key 1) (SlotRes.AnyT [])] (register "b" (register "a" (register "y" engine0))).
Definition cycle2 : t := after (Unregister cycle1 ["a"%string; "b"%string]) cycle1.


End Demo.

(** ** The reader domain *)

Module RcuDemo.
Import Rcu RcuProps RcuSafe Inst.

Definition d0 : Rcu.t nat nat :=
  mk (qsbr_init 4) (replicate 4 false) (replicate 4 false) 0 [] 0 0 0 (mk_stats 0 0 0 0 0 0) ∅ [].

(** Reader 0 is online, a grace period has started, and an object has been
    retired under it. *)
Definition d1 : Rcu.t nat nat := Online 4 (Register 4 d0 0).2 0.
Definition d2 : Rcu.t nat nat := (StartGracePeriod d1).2.
Definition d3 : Rcu.t nat nat := push_retired (mk_retired 2 10%nat (Some 3%nat)) d2.
Definition d4 : Rcu.t nat nat := Quiescent 4 d3 0.

Lemma d1_wf : wf d1.
Proof. split; [vm_compute; lia | by vm_compute | constructor | done]. Qed.
Lemma d3_wf : wf d3.
Proof. apply push_wf; [apply start_wf, d1_wf | by vm_compute]. Qed.
Lemma d4_wf : wf d4.
Proof. apply (qsbr_wf d3 _ d3_wf). by vm_compute. Qed.

Lemma reclaim_ready_exact_witness :
  wf d4 ∧ ∃ gone d', ReclaimReady d4 = (Z.of_nat (length gone), d') ∧ queue d4 = gone ++ queue d' ∧
    length (queue d4) = 1%nat.
Proof.
  split; [exact d4_wf |].
  destruct (reclaim_ready_exact d4 d4_wf) as (gone & d' & H1 & H2 & _).
  exists gone, d'. split; [exact H1 |]. split; [exact H2 | reflexivity].
Defined.

Lemma retirement_bounded_witness :
  wf d3 ∧ pending_count_ d3 = 1 ∧ pending_count_ (RetireErased 1 d3 2 11%nat None) <= 1.
Proof.
  split; [exact d3_wf |]. split; [reflexivity |].
  apply (retirement_bounded 1 d3 2 11%nat None d3_wf); vm_compute; discriminate.
Defined.

Lemma drain_destroys_all_witness :
  wf d3 ∧ queue (Drain d3) = [] ∧ destroyed_ (Drain d3) = [10%nat].
Proof.
  split; [exact d3_wf |]. destruct (drain_destroys_all d3 d3_wf) as (H1 & H2 & _).
  split; [exact H1 |]. rewrite H2. reflexivity.
Defined.

Lemma d1_active i : active (qsbr_ d1) i -> i = 0%nat.
Proof.
  assert (qsbr_ d1 = mk_counters 1 {[0%nat := Some 0%nat]}) as -> by by vm_compute.
  simpl. unfold lag_of. simpl. intros [lag Hl].
  destruct (decide (i = 0%nat)) as [-> | Hne]; [done |].
  rewrite lookup_singleton_ne in Hl by done. done.
Qed.

Lemma grace_period_completes_witness :
  StartGracePeriod d1 = (2, d2) ∧
  (IsComplete d2 2).1 = false ∧ (IsComplete (Quiescent 4 d2 0) 2).1 = true.
Proof.
  assert (StartGracePeriod d1 = (2, d2)) as Hs by reflexivity.
  split; [exact Hs |]. split; [reflexivity |].
  apply (grace_period_completes 4 d1 2 d2 [RQuiescent 0] Hs).
  intros i Hi. rewrite (d1_active i Hi). split; [reflexivity |]. split; [reflexivity |]. by left.
Defined.

Lemma offline_reader_never_blocks_witness :
  flag (registered_ d3) 0 = true ∧ IsOnline 4 (Offline 4 d3 0) 0 = false ∧
  ¬ waiting (qsbr_ (Offline 4 d3 0)) 2 0.
Proof.
  split; [reflexivity |].
  destruct (offline_reader_never_blocks 4 d3 0 eq_refl eq_refl) as (H1 & H2 & _).
  split; [exact H1 |]. apply H2. vm_compute. discriminate.
Defined.

(** A worker reads object 1; a writer replaces it by 2 and retires it; the
    worker reports, object 1 is destroyed, and the worker reads again. *)
Definition s0 : sys (Ob := nat) (Ow := nat) := initial d0.
Definition s1 : sys := with_dom (Online 4 (dom (with_dom (Register 4 (dom s0) 0).2 s0)) 0)
                         (with_dom (Register 4 (dom s0) 0).2 s0).
Definition s2 : sys := with_ptr 0 (mk_ptr (Some 1%nat) (Some 1%nat)) (Some 1%nat) (with_ptr 0 new_ptr None s1).
Definition s3 : sys := hold 0 1%nat s2.
Definition s4 : sys :=
  fly (Some 1%nat) (with_ptr 0 (mk_ptr (Some 2%nat) (Some 2%nat)) (Some 2%nat) s3).
Definition s5 : sys := with_dom (StartGracePeriod (dom s4)).2 s4.
Definition s6 : sys := land 1%nat (with_dom (push_retired (mk_retired 2 1%nat None) (dom s5)) s5).
Definition s7 : sys := let_go 0 (with_dom (Quiescent 4 (dom s6) 0) s6).
Definition s8 : sys :=
  with_taken (taken s7 ++ [mk_retired 2 1%nat None])
    (with_dom (take_head (IsCompleteLockFree (dom s7) 2).2) s7).
Definition s9 : sys := with_taken [] (with_dom (destroy (mk_retired 2 1%nat None) (dom s8)) s8).
Definition s10 : sys := hold 0 2%nat s9.

Lemma s2_reachable : sys_reachable 4 s2.
Proof.
  exists d0. split; [reflexivity |].
  eapply rtc_l; [apply (ss_register 4 s0 0) |]. eapply rtc_l; [apply (ss_online 4 _ 0) |].
  eapply rtc_l; [apply (ss_new 4 s1 0); reflexivity |].
  eapply rtc_l; [| apply rtc_refl]. eapply (ss_initialize 4 _ 0 _ (Some 1%nat));
    [reflexivity | vm_compute; done | reflexivity].
Qed.

Lemma s10_reachable : sys_reachable 4 s10.
Proof.
  destruct s2_reachable as (d & Hd & Hr). exists d. split; [exact Hd |].
  etransitivity; [exact Hr |].
  eapply rtc_l; [by eapply (ss_read 4 s2 0 0) |].
  eapply rtc_l; [eapply (ss_exchange 4 s3 0 _ (Some 2%nat)); [reflexivity | by vm_compute | reflexivity] |].
  eapply rtc_l; [apply (ss_start 4 s4) |].
  eapply rtc_l; [eapply (ss_retire 4 s5 1%nat 1 2 None); [reflexivity | by vm_compute] |].
  eapply rtc_l; [apply (ss_quiescent 4 s6 0) |].
  eapply rtc_l; [eapply (ss_take 4 s7); reflexivity |].
  eapply rtc_l; [apply (ss_destroy 4 s8 [] (mk_retired 2 1%nat None) []); reflexivity |].
  eapply rtc_l; [by eapply (ss_read 4 s9 0 0) | apply rtc_refl].
Qed.

Lemma no_reader_uses_destroyed_witness :
  sys_reachable 4 s10 ∧ destroyed_ (dom s10) = [1%nat] ∧ (0%nat, 2%nat) ∈ held s10 ∧
  2%nat ∉ destroyed_ (dom s10) ++ freed s10.
Proof.
  assert ((0%nat, 2%nat) ∈ held s10) as Hin by (apply elem_of_union; left; by apply elem_of_singleton).
  split; [exact s10_reachable |]. split; [reflexivity |]. split; [exact Hin |].
  apply (proj1 (no_reader_uses_destroyed 4 s10 s10_reachable) 0%nat 2%nat Hin).
Defined.

Lemma publish_is_steps_witness :
  ∃ tk d' ptr', Publish (fun _ => true) 64 (dom s2) (mk_ptr (Some 1%nat) (Some 1%nat)) (Some 2%nat)
    = Some (tk, d', ptr') ∧
  ∃ s', rtc (sys_step 4) s2 s' ∧ dom s' = d' ∧ Read ptr' = Some 2%nat.
Proof.
  destruct (Publish (fun _ => true) 64 (dom s2) (mk_ptr (Some 1%nat) (Some 1%nat)) (Some 2%nat))
    as [[[tk d'] ptr'] |] eqn:Hp; [| discriminate Hp].
  exists tk, d', ptr'. split; [reflexivity |].
  destruct (publish_is_steps 4 s2 0 (mk_ptr (Some 1%nat) (Some 1%nat)) 2%nat (fun _ => true) 64 tk d' ptr')
    as (s' & H1 & H2 & _ & _ & _ & H6 & _);
    [reflexivity | by vm_compute | intros o Ho; reflexivity | by vm_compute | exact Hp |].
  exists s'. split; [exact H1 |]. split; [exact H2 | exact H6].
Defined.

End RcuDemo.
